(* ===== verification/_CoqProject ===== *)
-Q . S2P
Prelude.v
Bits.v
RbModel.v
RbTree.v
RbRep.v
RbSearch.v
RbInsertFix.v
RbInsert.v
RbDeleteFix.v
RbDelete.v
RbApi.v
RbRefine.v
RbProps.v
Heap.v
Links.v
LinkProps.v
Pool.v
PoolProps.v
Manager.v
ManagerSpec.v
ManagerProps.v
Caches.v
World.v
Atomic.v
Lock.v
Life.v
LockProps.v
LockSteps.v
Ipc.v
IpcProps.v
Bytes.v
Io.v
IoProps.v
Pair.v
File.v
FileLife.v
FileProps.v
Socket.v
SocketProps.v
Process.v
ProcessProps.v
ThreadSteps.v
ThreadProps.v
System.v
SystemProps.v
EvState.v
Event.v
Dispatch.v
EventProps.v
EventIo.v
EventOut.v
Sources.v
Loop.v
LoopState.v
LoopProps.v
LoopEnd.v
Frame.v
FrameProps.v
