(* ===== verification/Prelude.v ===== *)
(** * Verification of QPHi

    QPHi is a C library for network servers. This development models its own code,
    the files under [src/src/], statement by statement as executable functions of
    Rocq, and proves what the functions guarantee.

    ** The program and its parts

    - [core/qp_memory_core] has intrusive lists, queues and a red-black tree;
      [core/qp_pool_core] builds fixed-size memory pools on the lists, and on queues
      of pools a manager that grows and shrinks.
    - [core/qp_atomic.h] and [core/qp_ipc_core] have atomic operations, locks that may
      spin or be reentrant, read-write locks, conditions, semaphores and shared memory.
    - [core/qp_io_core] wraps file descriptors; [qp_file] adds buffers to them,
      [qp_socket] addresses. Both structures start with the descriptor.
    - [qp_process] starts threads and processes, [qp_system] makes daemons, sets limits,
      changes users and loads libraries.
    - [qp_event], with the event system of [qp_event_module/], is the event loop. It
      takes its sources from a pool, their caches from a manager, keeps timers in a tree,
      and reads and writes through [epoll] and the descriptor calls.
    - [qp_tiny_stack] finds the headers in a captured network frame.

    ** How the code is modelled

    A function of C is a function in the monad [M S] below: it takes the state, and
    returns a value with the new state, [Fault] for undefined behaviour (NULL, unmapped,
    freed or uninitialised memory), or [Exhausted] when a loop had no iteration left.
    [wp m s Q] is total correctness: neither a fault nor exhaustion. Every theorem about a
    run therefore also says that the run ends. Early returns are the [inr] of a loop body
    or branches; integers are [Z] with the wrap-around of their width written out.

    There are four kinds of state:
    - the tree store [rbmem] (RbTree.v), one structure per node;
    - the [heap] (Heap.v), cell by cell, with uninitialised cells and an allocator oracle
      that may propose any addresses or none. It carries a separation logic, [hwp], built
      on Iris, whose adequacy lemma [hwp_adequacy] gives back statements about runs;
    - the [world] (World.v), a store for each kind of C structure, byte memory, live
      blocks, [errno] and the trace of external calls. The operating system and the C
      library are a parameter, the class [OS]: an arbitrary function of the history to
      answers. What a theorem needs of it (a call of [read] gives no more than it was
      asked for, say) is a hypothesis with an instance in the witness;
    - [evs] (EvState.v), the three together, for the event loop: [Lens] instances lift
      the operations of each component, and [xwp] their specifications.

    Concurrency is modelled by step relations with one step for each access to shared
    memory (LockSteps.v, ThreadSteps.v); theorems there say that one thread's steps are
    the sequential code.

    ** Files, in order

    - Prelude.v (this file): outcomes, monad, [wp], [loop] and its variant rule, stores,
      lenses, widths. Bits.v: bit-fields of a word.
    - [core/qp_memory_core.c], trees: RbModel.v (abstract trees and zippers), RbTree.v (the
      code: [qp_rbtree_find], [_insert], [_delete], [_min], [_max], rotations and fixes),
      RbRep.v (representation), RbSearch.v, RbInsertFix.v, RbInsert.v, RbDeleteFix.v,
      RbDelete.v (correctness), RbApi.v (the contract for callers), RbRefine.v (clients
      see a finite map), RbProps.v (properties).
    - Heap.v: heap and separation logic.
    - [core/qp_memory_core.h], lists and queues: Links.v (code and specifications),
      LinkProps.v (properties).
    - [core/qp_pool_core.c]: Pool.v and PoolProps.v for [qp_pool_*]; Manager.v (code),
      ManagerSpec.v (specifications) and ManagerProps.v (properties) for [qp_manager_*];
      Caches.v for a manager whose elements are in somebody else's hands.
    - World.v: structures of the system objects and the system; Life.v: what their life
      cycles share; Bytes.v: byte buffers; Pair.v: a structure with its first member.
    - [core/qp_atomic.h]: Atomic.v. [core/qp_ipc_core.c]: Lock.v, LockProps.v and
      LockSteps.v for [qp_lock_*]; Ipc.v and IpcProps.v for the other objects.
    - [core/qp_io_core.c]: Io.v, IoProps.v. [qp_file.c]: File.v, FileLife.v, FileProps.v.
      [qp_socket.c]: Socket.v, SocketProps.v.
    - [qp_process.c]: Process.v, ProcessProps.v, and ThreadSteps.v, ThreadProps.v for a
      thread and its controller under all interleavings. [qp_system.c]: System.v,
      SystemProps.v.
    - [qp_event.c], [qp_event_module/qp_event_epoll.c]: EvState.v (state and logic), Event.v
      (sources, caches, set-up and removal), Dispatch.v (queues and main loop), EventProps.v
      (flags, set-up, main loop), EventIo.v (reading), EventOut.v (writing); Sources.v
      (what each operation does to a source), Loop.v (sources, their pool and the ready
      list), LoopState.v (the invariant of the whole, the queues, [accept]), LoopProps.v (a
      client of all of it), LoopEnd.v (the destruction of the event).
    - [qp_tiny_stack.c] and [qp_tiny_stack/]: Frame.v, FrameProps.v.

    Definitions have the names of the C functions; a function whose loop has a body of
    some size has it as a definition of its own, [..._body].

    ** What is shown

    - Trees: every sequence of operations behaves as a finite map; insertion and deletion
      do exactly what they say and keep order and balance; the height is logarithmic.
    - Memory: queues behave as lists, pools as stacks of disjoint elements; a manager
      under any allocator never hands out overlapping elements and gives all memory back.
    - Locks: reentrant use behaves as a counter; a spin lock excludes under all
      interleavings of threads with distinct numbers and is free after balanced use.
    - Life cycles: locks, the other inter-process objects, descriptors, files, sockets and
      processes give back the memory and the descriptors they took, whatever the system
      answers. Exceptions are stated as theorems, such as a failed [mmap].
    - Transfers: [qp_fd_writen], [qp_fd_readn], file writes and the reads and writes of
      event sources move exactly the bytes that the system reports, and end.
    - Threads: starting, joining and destroying a joinable thread is safe and live under
      all interleavings; [thread_races] shows the uses that are not.
    - System: the calls that make a daemon, and that give up privileges, in their order.
    - Event loop: the loop idles and stops as documented as long as nothing is reported,
      faults at the first event that is, and [qp_event_init] never succeeds: both are
      errors in the code and are proved of it as it is written. With the lines that are
      commented out read as they are meant ([report] in LoopState.v, [setup] and [exec] in
      LoopProps.v put the other functions together so), [event_loop_balanced] shows that
      any sequence of registrations and rounds of dispatching runs safely to its end,
      keeps every source in the pool or in use, and neither loses a descriptor nor closes
      one twice; [read_pending] (Sources.v) shows which peers it cuts off.
      [event_destroy_half] shows what [qp_event_destroy] closes at the end, and which half
      it leaves open.
    - Frames: every frame long enough is parsed inside its bounds into headers that lie
      behind one another; fields are found where a sender put them; short frames fault.

    Each property has a run on a concrete state next to it, [..._witness], when it has
    hypotheses.

    ** Fuel

    Loops over structures count their own fuel from the state: the size of the tree store
    plus 2 (a walk or a fix visits no node twice), or the number of mapped cells plus 1
    for lists, queues and the manager ([heap_fuel]; a list has no more cells than are
    mapped). Counted loops have their count plus 1 ([qp_pool_init], [close_from_3], the
    creation and destruction of the sources, the rounds of an event bucket), the spinning
    inside [qp_lock_lock] the pauses it makes (1, 2, 4, ... 1024), the body of a source
    read or write a round for each byte of room and one more, the parser its three layers
    and one more. The theorems about these functions exclude [Exhausted].
    Where the system decides how often a loop runs (spinning for a lock, wake-ups of a
    condition, interrupted and short transfers, clients to accept, rounds of the endless
    dispatch loop) the fuel is an argument, and the theorems say how much is enough for
    what the system does ([accepts_end]: more than the clients that come in at once).

    ** Not modelled

    - [src/deps/]: vendored libraries (http-parser, librdkafka and others), which [src/src/]
      does not call, and [qp_tiny_stack/bpf.h], a header of libpcap.
    - The branches for BSD and Darwin: the model is of Linux on a 64-bit little-endian
      machine. [qp_event_kqueue.c] is a licence and one [#include], without code.
    - [core/qp_debug.h] and the log macros, which print and change no state; the test
      programs and the Swift module map.
    - Memory of the tree nodes, the system structures and the cells of the heap do not
      overlap: they are separate stores, joined in [evs].
    - Weak memory: interleavings are sequentially consistent, as the atomic operations
      of the source promise. *)

From stdpp Require Export base gmap list.
From Stdlib Require Export ZArith Lia.
#[export] Set Default Proof Using "Type".
#[export] Unset Program Cases.
#[local] Open Scope Z_scope.

(** * Outcomes and the monad *)

(** [Fault] is undefined behaviour: a NULL or unmapped access. [Exhausted] is
    a loop that used up the iterations it was given. *)
Inductive outcome (A : Type) : Type :=
| Ok (a : A)
| Fault
| Exhausted.
Arguments Ok {A} a.
Arguments Fault {A}.
Arguments Exhausted {A}.

Definition M (S A : Type) : Type := S → outcome (A * S).

#[export] Instance M_ret S : MRet (M S) := λ A a s, Ok (a, s).
#[export] Instance M_bind S : MBind (M S) := λ A B f m s,
  match m s with
  | Ok (a, s') => f a s'
  | Fault => Fault
  | Exhausted => Exhausted
  end.

Definition fault {S A} : M S A := λ _, Fault.
Definition gets {S A} (f : S → A) : M S A := λ s, Ok (f s, s).
Definition modify {S} (f : S → S) : M S unit := λ s, Ok (tt, f s).

(** A [while] loop: [inl] continues with new loop variables, [inr] leaves. *)
Fixpoint loop {S A B} (fuel : nat) (body : A → M S (A + B)) (a : A) : M S B :=
  match fuel with
  | O => λ _, Exhausted
  | Datatypes.S n =>
      body a ≫= λ r, match r with inl a' => loop n body a' | inr b => mret b end
  end.

(** * Total-correctness weakest precondition *)

Definition wp {S A} (m : M S A) (s : S) (Q : A → S → Prop) : Prop :=
  match m s with Ok (a, s') => Q a s' | _ => False end.

Section wp_rules.
Context {S : Type}.

Lemma wp_intro {A} (m : M S A) s Q a s' : m s = Ok (a, s') → Q a s' → wp m s Q.
Proof. unfold wp. by intros ->. Qed.

Lemma wp_elim {A} (m : M S A) s Q : wp m s Q → ∃ a s', m s = Ok (a, s') ∧ Q a s'.
Proof. unfold wp. destruct (m s) as [[a s']| |]; [eauto | done | done]. Qed.

Lemma wp_ret {A} (a : A) s (Q : A → S → Prop) : Q a s → wp (mret a) s Q.
Proof. done. Qed.

Lemma wp_bind {A B} (m : M S A) (f : A → M S B) s Q :
  wp m s (λ a s', wp (f a) s' Q) → wp (m ≫= f) s Q.
Proof. unfold wp, mbind, M_bind. by destruct (m s) as [[a s']| |]. Qed.

Lemma wp_mono {A} (m : M S A) s (P Q : A → S → Prop) :
  wp m s P → (∀ a s', P a s' → Q a s') → wp m s Q.
Proof. unfold wp. destruct (m s) as [[a s']| |]; auto. Qed.

Lemma wp_gets {A} (f : S → A) s (Q : A → S → Prop) : Q (f s) s → wp (gets f) s Q.
Proof. done. Qed.

Lemma wp_modify (f : S → S) s (Q : unit → S → Prop) :
  Q tt (f s) → wp (modify f) s Q.
Proof. done. Qed.

Lemma wp_if {A} (b : bool) (m1 m2 : M S A) s Q :
  (b = true → wp m1 s Q) → (b = false → wp m2 s Q) → wp (if b then m1 else m2) s Q.
Proof. destruct b; auto. Qed.

(** A loop whose body keeps the invariant [I] and lowers its index ends within
    [index + 1] rounds. *)
Lemma wp_loop {A B} (I : nat → A → S → Prop) (body : A → M S (A + B))
    (Q : B → S → Prop) :
  (∀ n a s, I n a s →
    wp (body a) s (λ r s', match r with
                           | inl a' => ∃ n', (n' < n)%nat ∧ I n' a' s'
                           | inr b => Q b s'
                           end)) →
  ∀ fuel n a s, I n a s → (n < fuel)%nat → wp (loop fuel body a) s Q.
Proof.
  intros Hbody fuel. induction fuel as [|fuel IH]; intros n a s HI Hn; [lia|].
  cbn [loop]. apply wp_bind. eapply wp_mono; [by eapply Hbody|].
  intros [a'|b] s'; cbn; [|done]. intros (n' & Hlt & HI'). eapply IH; [done|lia].
Qed.

#[export] Instance wp_proper {A} (m : M S A) (s : S) :
  Proper (pointwise_relation A (pointwise_relation S impl) ==> impl) (wp m s).
Proof. intros P Q HPQ H. eapply wp_mono; [done|]. intros a s'. apply HPQ. Qed.
End wp_rules.

(** * Lenses: a component's state inside a larger one *)

Class Lens (S A : Type) := {
  lget : S → A;
  lset : A → S → S;
  lget_lset a s : lget (lset a s) = a;
  lset_lget s : lset (lget s) s = s;
  lset_lset a b s : lset a (lset b s) = lset a s;
}.

#[export] Instance lens_id S : Lens S S | 100.
Proof. refine {| lget := λ s, s; lset := λ a _, a |}; done. Defined.

(** Run a component's operation on its part of the state. *)
Definition zoom {S A} `{!Lens S A} {X} (m : M A X) : M S X := λ s,
  match m (lget s) with
  | Ok (x, a') => Ok (x, lset a' s)
  | Fault => Fault
  | Exhausted => Exhausted
  end.

Lemma wp_zoom {S A} `{!Lens S A} {X} (m : M A X) s (Q : X → S → Prop) :
  wp m (lget s) (λ x a', Q x (lset a' s)) → wp (zoom m) s Q.
Proof. unfold wp, zoom. by destruct (m (lget s)) as [[x a']| |]. Qed.

(** * Object stores *)

(** The objects of one C structure type, by address. The NULL page is never
    mapped: reading or writing through NULL, or through an address with no
    object of that type, is a [Fault]. *)
Definition NULL : Z := 0.

Section store.
Context {S X : Type} `{!Lens S (gmap Z X)}.

(** [p->field] as an expression. *)
Definition ld {Y} (field : X → Y) (p : Z) : M S Y := λ s,
  if p =? NULL then Fault
  else match lget s !! p with
       | Some x => Ok (field x, s)
       | None => Fault
       end.

(** [p->field = v] as a statement; [upd] replaces the field. *)
Definition st (upd : X → X) (p : Z) : M S unit := λ s,
  if p =? NULL then Fault
  else match lget s !! p with
       | Some x => Ok (tt, lset (<[p := upd x]> (lget s)) s)
       | None => Fault
       end.

Lemma wp_ld {Y} (field : X → Y) p x s (Q : Y → S → Prop) :
  p ≠ NULL → lget s !! p = Some x → Q (field x) s → wp (ld field p) s Q.
Proof.
  intros Hp Hx HQ. unfold wp, ld.
  by rewrite (proj2 (Z.eqb_neq _ _) Hp), Hx.
Qed.

Lemma wp_st upd p x s (Q : unit → S → Prop) :
  p ≠ NULL → lget s !! p = Some x →
  Q tt (lset (<[p := upd x]> (lget s)) s) → wp (st upd p) s Q.
Proof.
  intros Hp Hx HQ. unfold wp, st.
  by rewrite (proj2 (Z.eqb_neq _ _) Hp), Hx.
Qed.
End store.

(** * Machine-width integers *)

(** Unsigned [w]-bit arithmetic wraps around modulo [2^w]. *)
Definition wrap (w z : Z) : Z := z mod 2 ^ w.
Abbreviation u64 := (wrap 64).
Abbreviation u32 := (wrap 32).
Abbreviation u16 := (wrap 16).

Lemma wrap_range w z : 0 ≤ w → 0 ≤ wrap w z < 2 ^ w.
Proof. intros Hw. apply Z.mod_pos_bound. by apply Z.pow_pos_nonneg. Qed.

Lemma wrap_small w z : 0 ≤ z < 2 ^ w → wrap w z = z.
Proof. apply Z.mod_small. Qed.

Lemma wrap_idemp w z : wrap w (wrap w z) = wrap w z.
Proof. unfold wrap. by rewrite Z.mod_mod_divide by apply Z.divide_refl || apply Zmod_mod. Qed.

(** * Generic lemmas *)

Lemma NoDup_cons_ne {A} (x y : A) l : NoDup (x :: l) → y ∈ l → x ≠ y.
Proof. intros [Hx _]%NoDup_cons Hy ->. done. Qed.

Lemma NoDup_length_size {X} (m : gmap Z X) (l : list Z) :
  NoDup l → (∀ a, a ∈ l → is_Some (m !! a)) → (length l ≤ size m)%nat.
Proof.
  intros Hnd Hdom. rewrite <-size_dom.
  rewrite <-(size_list_to_set (C:=gset Z) l Hnd).
  apply subseteq_size. intros a Ha%elem_of_list_to_set.
  by apply elem_of_dom, Hdom.
Qed.

Lemma filter_ne_id {A} `{!EqDecision A} (x : A) (l : list A) : x ∉ l → filter (.≠ x) l = l.
Proof.
  induction l as [|y l IH]; intros Hx; [done|].
  rewrite filter_cons_True by set_solver. rewrite IH; set_solver.
Qed.

(** * Proof automation *)

(** One step of a monadic program in a [wp] goal. Loads and stores ask for the
    object they touch among the hypotheses. *)
Ltac solve_ne :=
  first [ done | congruence
        | match goal with H : ?a ≠ ?b |- ?b ≠ ?a => by apply not_eq_sym end
        | lia ].

Ltac wp_step :=
  lazymatch goal with
  | |- wp (_ ≫= _) _ _ => apply wp_bind
  | |- wp (mret _) _ _ => apply wp_ret
  | |- wp (gets _) _ _ => apply wp_gets
  | |- wp (modify _) _ _ => apply wp_modify
  | |- wp (zoom _) _ _ => apply wp_zoom
  | |- wp (ld _ _) _ _ => eapply wp_ld; [solve_ne | eassumption |]
  | |- wp (st _ _) _ _ => eapply wp_st; [solve_ne | eassumption |]
  end; cbn beta iota.
