(* ===== verification/Bits.v ===== *)
(** Bit-fields of a machine word, as the compiler lays them out: what is stored is
    read back cut to the width, and the other fields are left alone. *)

From S2P Require Import Prelude.
#[local] Open Scope Z_scope.

Record bits := MkBits { bit_off : Z; bit_len : Z }.

(** A bit-field of a word; storing keeps the low bits of the value. *)
Definition get_bits (b : bits) (w : Z) : Z :=
  Z.land (Z.shiftr w (bit_off b)) (Z.ones (bit_len b)).
Definition put_bits (b : bits) (v w : Z) : Z :=
  Z.lor (Z.ldiff w (Z.shiftl (Z.ones (bit_len b)) (bit_off b)))
        (Z.shiftl (Z.land v (Z.ones (bit_len b))) (bit_off b)).

Definition bits_ok (b : bits) : Prop := 0 ≤ bit_off b ∧ 0 ≤ bit_len b.
Definition bits_apart (a b : bits) : Prop :=
  bit_off a + bit_len a ≤ bit_off b ∨ bit_off b + bit_len b ≤ bit_off a.

Lemma get_bits_testbit b w i :
  bits_ok b → 0 ≤ i →
  Z.testbit (get_bits b w) i = Z.testbit w (i + bit_off b) && (i <? bit_len b).
Proof.
  intros [? ?] ?. unfold get_bits.
  by rewrite Z.land_spec, Z.shiftr_spec, Z.testbit_ones_nonneg by lia.
Qed.

Lemma put_bits_testbit b v w i :
  bits_ok b → 0 ≤ i →
  Z.testbit (put_bits b v w) i =
    if (bit_off b <=? i) && (i <? bit_off b + bit_len b) then Z.testbit v (i - bit_off b)
    else Z.testbit w i.
Proof.
  intros [? ?] ?. unfold put_bits.
  rewrite Z.lor_spec, Z.ldiff_spec, !Z.shiftl_spec by lia.
  destruct (Z.leb_spec (bit_off b) i) as [Hi|Hi]; cbn [andb].
  - rewrite Z.land_spec, Z.testbit_ones_nonneg by lia.
    destruct (Z.ltb_spec (i - bit_off b) (bit_len b)), (Z.ltb_spec i (bit_off b + bit_len b));
      try lia; cbn [negb]; by rewrite ?andb_true_r, ?andb_false_r, ?orb_false_r.
  - rewrite !(Z.testbit_neg_r _ (i - bit_off b)) by lia. cbn.
    by rewrite andb_true_r, orb_false_r.
Qed.

(** What was stored is read back, but for the bits that do not fit. *)
Lemma get_put_bits b v w :
  bits_ok b → get_bits b (put_bits b v w) = Z.land v (Z.ones (bit_len b)).
Proof.
  intros Hb. pose proof Hb as [? ?]. apply Z.bits_inj'. intros i Hi.
  rewrite get_bits_testbit, put_bits_testbit, Z.land_spec, Z.testbit_ones_nonneg by (done || lia).
  replace (i + bit_off b - bit_off b) with i by lia.
  destruct (Z.ltb_spec i (bit_len b)); [|by rewrite !andb_false_r].
  by rewrite (proj2 (Z.leb_le _ _)), (proj2 (Z.ltb_lt _ _)) by lia.
Qed.

(** Other fields are left alone. *)
Lemma get_put_other a b v w :
  bits_ok a → bits_ok b → bits_apart a b → get_bits a (put_bits b v w) = get_bits a w.
Proof.
  intros Ha Hb Hab. pose proof Ha as [? ?]. pose proof Hb as [? ?].
  apply Z.bits_inj'. intros i Hi. rewrite !get_bits_testbit, put_bits_testbit by (done || lia).
  destruct (Z.ltb_spec i (bit_len a)); [|by rewrite !andb_false_r]. f_equal.
  destruct (Z.leb_spec (bit_off b) (i + bit_off a)),
    (Z.ltb_spec (i + bit_off a) (bit_off b + bit_len b)); try done.
  destruct Hab; lia.
Qed.

#[export] Hint Extern 0 (bits_ok _) => by split : core.
#[export] Hint Extern 0 (bits_apart _ _) => unfold bits_apart; cbn; lia : core.

(** A field of one bit. *)
Lemma get_bits_flag b w : bits_ok b → bit_len b = 1 → Z.land (get_bits b w) 1 = get_bits b w.
Proof. intros ? E. unfold get_bits. rewrite E, <-Z.land_assoc. done. Qed.

(** [flag |= m] *)
Lemma get_put_flag b w m :
  bits_ok b → bit_len b = 1 →
  get_bits b (put_bits b (Z.lor (get_bits b w) m) w) = Z.lor (get_bits b w) (Z.land m 1).
Proof.
  intros Hb E. rewrite get_put_bits by done. rewrite E. change (Z.ones 1) with 1.
  by rewrite Z.land_lor_distr_l, get_bits_flag.
Qed.

Lemma flag_absorb b w m :
  bits_ok b → bit_len b = 1 → Z.lor (get_bits b w) (Z.lor (Z.land m 1) 1) = 1.
Proof.
  intros Hb E. rewrite <-(get_bits_flag b w) by done. apply Z.bits_inj'. intros i Hi. rewrite !Z.lor_spec, !Z.land_spec.
  destruct (Z.testbit 1 i) eqn:H1; by rewrite ?andb_false_r, ?orb_true_r.
Qed.
