(* ===== verification/RbModel.v ===== *)
(** The abstract red-black tree that the pointer code of
    [src/src/core/qp_memory_core.c] maintains: trees annotated with the address
    of each node, the context (zipper) above a cursor, the in-order contents,
    search order and the red-black balance invariant on both. Nothing here
    models code; RbTree.v ties these trees to the heap. *)

From S2P Require Import Prelude.
From stdpp Require Export sorting.
#[local] Open Scope Z_scope.

Inductive color := Red | Black.
#[export] Instance color_eq_dec : EqDecision color.
Proof. solve_decision. Defined.

(** A node carries its address, color, key and data pointer. *)
Inductive tree :=
| Leaf
| Node (a : Z) (c : color) (l : tree) (k d : Z) (r : tree).

(** One step of the path from the cursor to the root: the cursor is the left
    ([FL]) or the right ([FR]) child of node [a], whose other child is kept. *)
Inductive frame :=
| FL (a : Z) (c : color) (k d : Z) (r : tree)
| FR (a : Z) (c : color) (l : tree) (k d : Z).

Abbreviation ctx := (list frame).

Definition fill (f : frame) (t : tree) : tree :=
  match f with
  | FL a c k d r => Node a c t k d r
  | FR a c l k d => Node a c l k d t
  end.

Fixpoint plug (C : ctx) (t : tree) : tree :=
  match C with [] => t | f :: C' => plug C' (fill f t) end.

Definition faddr (f : frame) : Z := match f with FL a _ _ _ _ | FR a _ _ _ _ => a end.
Definition fcolor (f : frame) : color := match f with FL _ c _ _ _ | FR _ c _ _ _ => c end.
Definition fsib (f : frame) : tree := match f with FL _ _ _ _ r => r | FR _ _ l _ _ => l end.

Lemma plug_app C1 C2 t : plug (C1 ++ C2) t = plug C2 (plug C1 t).
Proof. revert t. induction C1 as [|f C1 IH]; intros t; cbn; auto. Qed.

Lemma plug_not_leaf C t : t ≠ Leaf → plug C t ≠ Leaf.
Proof. revert t. induction C as [|f C IH]; cbn; [done|]. intros t _. by apply IH; destruct f. Qed.

(** * Addresses *)

Fixpoint addrs (t : tree) : list Z :=
  match t with Leaf => [] | Node a _ l _ _ r => a :: addrs l ++ addrs r end.

Definition caddrs (C : ctx) : list Z := C ≫= λ f, faddr f :: addrs (fsib f).

(** The pointer the code holds to a subtree; [nil] is the sentinel. *)
Definition ptr (nil : Z) (t : tree) : Z :=
  match t with Leaf => nil | Node a _ _ _ _ _ => a end.
Definition pptr (nil : Z) (C : ctx) : Z :=
  match C with [] => nil | f :: _ => faddr f end.

Lemma caddrs_cons f C : caddrs (f :: C) = faddr f :: addrs (fsib f) ++ caddrs C.
Proof. done. Qed.

Lemma addrs_fill f t : addrs (fill f t) ≡ₚ addrs t ++ faddr f :: addrs (fsib f).
Proof. destruct f; cbn; solve_Permutation. Qed.

Lemma addrs_plug C t : addrs (plug C t) ≡ₚ addrs t ++ caddrs C.
Proof.
  revert t. induction C as [|f C IH]; intros t; cbn [plug].
  - by rewrite app_nil_r.
  - rewrite IH, addrs_fill, caddrs_cons. solve_Permutation.
Qed.

Lemma ptr_in nil t : t = Leaf ∨ ptr nil t ∈ addrs t.
Proof. destruct t; [by left | right; cbn; left]. Qed.

Lemma ptr_fill nil f t : ptr nil (fill f t) = faddr f.
Proof. by destruct f. Qed.

Lemma ptr_plug nil C t :
  C ≠ [] → ptr nil (plug C t) ∈ caddrs C.
Proof.
  revert t. induction C as [|f C IH]; intros t HC; [done|]. cbn [plug].
  rewrite caddrs_cons. destruct C as [|g C].
  - cbn [plug]. rewrite ptr_fill. left.
  - apply elem_of_cons; right. apply elem_of_app; right. by apply IH.
Qed.

(** The root pointer only depends on the cursor when nothing is above it. *)
Lemma ptr_plug_eq nil C t t' :
  (C = [] → ptr nil t = ptr nil t') → ptr nil (plug C t) = ptr nil (plug C t').
Proof.
  revert t t'. induction C as [|f C IH]; intros t t' H; cbn; [by apply H|].
  apply IH. intros _. by rewrite !ptr_fill.
Qed.

(** * Contents and search order *)

(** An entry of the tree: node address, key and data pointer. *)
Abbreviation entry := (Z * (Z * Z))%type.

Fixpoint inorder (t : tree) : list entry :=
  match t with Leaf => [] | Node a _ l k d r => inorder l ++ (a, (k, d)) :: inorder r end.

(** What the context holds to the left and to the right of the cursor. *)
Fixpoint cleft (C : ctx) : list entry :=
  match C with
  | [] => []
  | FL _ _ _ _ _ :: C' => cleft C'
  | FR a _ l k d :: C' => cleft C' ++ inorder l ++ [(a, (k, d))]
  end.
Fixpoint cright (C : ctx) : list entry :=
  match C with
  | [] => []
  | FL a _ k d r :: C' => (a, (k, d)) :: inorder r ++ cright C'
  | FR _ _ _ _ _ :: C' => cright C'
  end.

Lemma inorder_plug C t : inorder (plug C t) = cleft C ++ inorder t ++ cright C.
Proof.
  revert t. induction C as [|f C IH]; intros t; cbn [plug].
  - cbn. by rewrite app_nil_r.
  - rewrite IH. destruct f; cbn; by rewrite <-?app_assoc.
Qed.

(** Every entry sits at some position of the tree. *)
Lemma in_plug t a k d :
  (a, (k, d)) ∈ inorder t → ∃ C c l r, t = plug C (Node a c l k d r).
Proof.
  induction t as [|b c l IHl k' d' r IHr]; cbn; [set_solver|].
  rewrite elem_of_app, elem_of_cons. intros [Ha|[[= -> -> ->]|Ha]].
  - destruct (IHl Ha) as (C & c' & l' & r' & ->).
    exists (C ++ [FL b c k' d' r]). do 3 eexists. by rewrite plug_app.
  - by exists [], c, l, r.
  - destruct (IHr Ha) as (C & c' & l' & r' & ->).
    exists (C ++ [FR b c l k' d']). do 3 eexists. by rewrite plug_app.
Qed.

Lemma addrs_inorder t : addrs t ≡ₚ (inorder t).*1.
Proof.
  induction t as [|a c l IHl k d r IHr]; cbn; [done|].
  rewrite fmap_app, fmap_cons, IHl, IHr. cbn. solve_Permutation.
Qed.

Definition keys (l : list entry) : list Z := (λ e : entry, e.2.1) <$> l.

(** Sorted contents: the keys strictly increase. *)
Definition sorted (l : list entry) : Prop := StronglySorted Z.lt (keys l).

(** Binary search tree: its in-order list is sorted. *)
Definition bst (t : tree) : Prop := sorted (inorder t).

Lemma elem_of_keys x l : x ∈ keys l ↔ ∃ e : entry, x = e.2.1 ∧ e ∈ l.
Proof. apply list_elem_of_fmap. Qed.

Lemma sorted_app l1 l2 :
  sorted (l1 ++ l2) ↔
  sorted l1 ∧ sorted l2 ∧ ∀ e1 e2, e1 ∈ l1 → e2 ∈ l2 → e1.2.1 < e2.2.1.
Proof.
  unfold sorted, keys. rewrite fmap_app, StronglySorted_app. split.
  - intros (H & ? & ?). split_and!; [done..|]. intros e1 e2 He1 He2.
    apply H; apply elem_of_keys; eauto.
  - intros (? & ? & H). split_and!; [|done..].
    intros x1 x2 (e1 & -> & ?)%elem_of_keys (e2 & -> & ?)%elem_of_keys. auto.
Qed.

Lemma sorted_cons e l :
  sorted (e :: l) ↔ sorted l ∧ ∀ e', e' ∈ l → e.2.1 < e'.2.1.
Proof.
  unfold sorted. cbn. rewrite StronglySorted_cons, Forall_forall. split.
  - intros [H ?]. split; [done|]. intros e' He'. apply H, elem_of_keys. eauto.
  - intros [? H]. split; [|done]. intros x (e' & -> & ?)%elem_of_keys. auto.
Qed.

(** A key that belongs at the cursor: above everything on the left of the path,
    below everything on its right. *)
Definition key_fits (x : Z) (C : ctx) : Prop :=
  (∀ e, e ∈ cleft C → e.2.1 < x) ∧ (∀ e, e ∈ cright C → x < e.2.1).

Lemma key_fits_left x C a c l k d r :
  bst (plug C (Node a c l k d r)) → key_fits x C → x < k → key_fits x (FL a c k d r :: C).
Proof.
  unfold bst. rewrite inorder_plug, !sorted_app. cbn [inorder].
  rewrite sorted_app, sorted_cons.
  intros (_ & ((_ & (_ & Hr) & _) & _) & _) [Hl Hg] Hx. split; [done|].
  intros e. cbn [cright]. rewrite elem_of_cons, elem_of_app.
  intros [-> | [He | He]]; [done | | by apply Hg]. specialize (Hr _ He). cbn in Hr. lia.
Qed.

Lemma key_fits_right x C a c l k d r :
  bst (plug C (Node a c l k d r)) → key_fits x C → k < x → key_fits x (FR a c l k d :: C).
Proof.
  unfold bst. rewrite inorder_plug, !sorted_app. cbn [inorder].
  rewrite sorted_app, sorted_cons.
  intros (_ & ((_ & _ & Hl) & _) & _) [Hlo Hg] Hx. split; [|done].
  intros e. cbn [cleft]. rewrite !elem_of_app, list_elem_of_singleton.
  intros [He | [He | ->]]; [by apply Hlo | | done].
  specialize (Hl e (a, (k, d)) He ltac:(left)). cbn in Hl. lia.
Qed.

Lemma key_fits_not_in x C : key_fits x C → x ∉ keys (inorder (plug C Leaf)).
Proof.
  intros [Hl Hg]. rewrite inorder_plug. cbn.
  intros (e & -> & [He|He]%elem_of_app)%elem_of_keys;
    [specialize (Hl _ He) | specialize (Hg _ He)]; lia.
Qed.

Lemma sorted_insert l1 l2 e :
  sorted (l1 ++ l2) → (∀ e', e' ∈ l1 → e'.2.1 < e.2.1) →
  (∀ e', e' ∈ l2 → e.2.1 < e'.2.1) → sorted (l1 ++ e :: l2).
Proof.
  rewrite !sorted_app, sorted_cons. intros (Hl1 & Hl2 & Hlt) Hlo Hhi. split_and!; [done..|].
  intros e1 e2 He1 [-> | He2]%elem_of_cons; auto.
Qed.

Lemma sorted_delete l1 l2 e : sorted (l1 ++ e :: l2) → sorted (l1 ++ l2).
Proof.
  rewrite !sorted_app, sorted_cons. intros (Hl1 & (Hl2 & _) & Hlt). split_and!; [done..|].
  intros e1 e2 ? ?. apply Hlt; [done | by right].
Qed.

(** * Balance *)

(** [rb c n t]: below a parent of color [c], [t] has no red node with a red
    parent and every path to a leaf crosses [n] black nodes. *)
Fixpoint rb (c : color) (n : nat) (t : tree) : Prop :=
  match t with
  | Leaf => n = O
  | Node _ Red l _ _ r => c = Black ∧ rb Red n l ∧ rb Red n r
  | Node _ Black l _ _ r => ∃ m, n = S m ∧ rb Black m l ∧ rb Black m r
  end.

(** The color above the cursor; nothing above the root may be left red. *)
Definition ccolor (C : ctx) : color := match C with [] => Red | f :: _ => fcolor f end.

(** [crb C n]: any tree that is [rb (ccolor C) n] can be plugged into [C]. *)
Fixpoint crb (C : ctx) (n : nat) : Prop :=
  match C with
  | [] => True
  | f :: C' =>
      match fcolor f with
      | Red => rb Red n (fsib f) ∧ ccolor C' = Black ∧ crb C' n
      | Black => rb Black n (fsib f) ∧ crb C' (S n)
      end
  end.

(** A red-black tree: black root, balanced. *)
Definition rbtree (t : tree) : Prop := ∃ n, rb Red n t.

Lemma rb_weaken c n t : rb Red n t → rb c n t.
Proof. destruct t as [|a [] l k d r]; cbn; [done | by intros [? _] | done]. Qed.

Lemma rb_black c n t : rb c n t → rb Black n t.
Proof. destruct t as [|a [] l k d r]; cbn; [done | intros (_&?&?); done | done]. Qed.

Lemma rb_red c n t : rb Black n t → (∀ a l k d r, t ≠ Node a Red l k d r) → rb c n t.
Proof. destruct t as [|a [] l k d r]; cbn; naive_solver. Qed.

Lemma rb_blacken n a c l k d r : rb Black n (Node a c l k d r) → rbtree (Node a Black l k d r).
Proof.
  destruct c; cbn.
  - intros (_ & Hl & Hr). exists (S n), n. split_and!; [done | by eapply rb_black..].
  - intros (m & -> & Hl & Hr). exists (S m), m. done.
Qed.

Lemma rb_plug C n t : crb C n → rb (ccolor C) n t → rbtree (plug C t).
Proof.
  revert n t. induction C as [|f C IH]; intros n t HC Ht; [by exists n|].
  cbn in HC, Ht. cbn [plug]. destruct f as [a [] k d r|a [] l k d]; cbn in *.
  - destruct HC as (?&Hc&?). apply (IH n); [done|]. cbn. by rewrite Hc.
  - destruct HC as (?&?). apply (IH (S n)); [done|]. cbn; eauto.
  - destruct HC as (?&Hc&?). apply (IH n); [done|]. cbn. by rewrite Hc.
  - destruct HC as (?&?). apply (IH (S n)); [done|]. cbn; eauto.
Qed.

Lemma rb_unplug C t : rbtree (plug C t) → ∃ n, crb C n ∧ rb (ccolor C) n t.
Proof.
  revert t. induction C as [|f C IH]; intros t; cbn [plug].
  - intros [n H]. by exists n.
  - intros H. destruct (IH _ H) as (n & HC & Ht).
    destruct f as [a [] k d r|a [] l k d]; cbn in Ht |- *; naive_solver.
Qed.

(** The color the code reads at the top of a subtree: the sentinel is black. *)
Definition tcolor (t : tree) : color := match t with Leaf => Black | Node _ c _ _ _ _ => c end.

Lemma tcolor_cases t : tcolor t = Black ∨ ∃ a l k d r, t = Node a Red l k d r.
Proof. destruct t as [|a [] l k d r]; cbn; eauto 10. Qed.

Lemma rb_tcolor_black c c' n t : tcolor t = Black → rb c n t → rb c' n t.
Proof. by destruct t as [|a [] l k d r]. Qed.

(** The subtree at the cursor of a deletion fix-up: black height [n] where its
    context asks for [S n]; its top may be red under red children. *)
Definition deficient (n : nat) (t : tree) : Prop :=
  match t with
  | Leaf => n = O
  | Node _ c l _ _ r =>
      ∃ m, rb Black m l ∧ rb Black m r ∧ n = match c with Red => m | Black => S m end
  end.

Lemma rb_deficient c n t : rb c n t → deficient n t.
Proof. destruct t as [|a [] l k d r]; cbn; naive_solver eauto using rb_black. Qed.

Lemma deficient_rb c n t : tcolor t = Black → deficient n t → rb c n t.
Proof. destruct t as [|a [] l k d r]; cbn; naive_solver. Qed.

(** Blackening a red top pays the debt. *)
Lemma deficient_blacken c n a l k d r :
  deficient n (Node a Red l k d r) → rb c (S n) (Node a Black l k d r).
Proof. cbn. naive_solver. Qed.

Lemma deficient_root n a c l k d r :
  deficient n (Node a c l k d r) → rbtree (Node a Black l k d r).
Proof. cbn. intros (m & ? & ? & _). exists (S m), m. done. Qed.

(** Balance does not look at keys and data. *)
Lemma crb_relabel C1 a c l k d k' d' C n :
  crb (C1 ++ FR a c l k d :: C) n ↔ crb (C1 ++ FR a c l k' d' :: C) n.
Proof.
  revert n. induction C1 as [|f C1 IH]; intros n; [done|]. cbn.
  destruct (fcolor f); [|by rewrite IH]. rewrite IH.
  by destruct C1.
Qed.

(** Taking out a node with at most one child: if it is red nothing is missing,
    if it is black its child is one black node short. *)
Lemma rb_splice c n a ca l k d r u :
  rb c n (Node a ca l k d r) → (l = Leaf ∧ u = r) ∨ (r = Leaf ∧ u = l) →
  match ca with Red => rb c n u | Black => ∃ m, n = S m ∧ deficient m u end.
Proof.
  destruct ca; cbn.
  - intros (-> & Hl & Hr) [[-> ->]|[-> ->]]; by eapply rb_black.
  - intros (m & -> & Hl & Hr) [[-> ->]|[-> ->]]; exists m; split;
      by try eapply rb_deficient.
Qed.

(** * Height *)

Fixpoint height (t : tree) : nat :=
  match t with Leaf => O | Node _ _ l _ _ r => S (height l `max` height r) end.

Lemma rb_height c n t :
  rb c n t → (height t ≤ 2 * n + match c with Red => 0 | Black => 1 end)%nat.
Proof.
  revert c n. induction t as [|a [] l IHl k d r IHr]; intros c n; cbn; [lia|..].
  - intros (-> & Hl%IHl & Hr%IHr). lia.
  - intros (m & -> & Hl%IHl & Hr%IHr). destruct c; lia.
Qed.

Lemma rb_size c n t : rb c n t → (2 ^ n ≤ S (length (inorder t)))%nat.
Proof.
  revert c n. induction t as [|a [] l IHl k d r IHr]; intros c n; cbn.
  - by intros ->.
  - intros (_ & Hl%IHl & Hr%IHr). rewrite length_app. cbn. lia.
  - intros (m & -> & Hl%IHl & Hr%IHr). rewrite length_app. cbn. lia.
Qed.

(** Logarithmic height. *)
Lemma rbtree_height t :
  rbtree t → (height t ≤ 2 * Nat.log2 (S (length (inorder t))))%nat.
Proof.
  intros [n Hn]. pose proof (rb_height Red n t Hn : (_ ≤ 2 * n + 0)%nat). pose proof (rb_size _ _ _ Hn) as Hs.
  rewrite Nat.log2_le_pow2 in Hs by lia. lia.
Qed.

(** Depth of the cursor is bounded by the number of nodes above it. *)
Lemma length_ctx_addrs C t : (length C ≤ length (addrs (plug C t)))%nat.
Proof.
  rewrite addrs_plug, length_app.
  assert (length C ≤ length (caddrs C))%nat; [|lia].
  induction C as [|f C IH]; [done|]. rewrite caddrs_cons.
  cbn. rewrite length_app. lia.
Qed.
