(* ===== verification/RbTree.v ===== *)
(** The intrusive red-black tree of [src/src/core/qp_memory_core.{h,c}]: the
    pointer code, statement by statement, over a store of [qp_rbtree_node_s]
    objects, and its correctness against the abstract trees of RbModel.v. *)

From S2P Require Import Prelude RbModel.
From stdpp Require Import sorting.
#[local] Open Scope Z_scope.

(** * Data *)

(** [struct qp_rbtree_node_s]; [color] is a 32-bit word, [key] a 64-bit one. *)
Record qp_rbtree_node_s := MkNode {
  left : Z;
  right : Z;
  parent : Z;
  data : Z;
  key : Z;
  color_ : Z;
}.

(** The nodes in memory and the [root] field of every [struct qp_rbtree_s].
    The embedded [sentinel] node of a tree is one of the nodes. *)
Record rbmem := MkMem {
  nodes : gmap Z qp_rbtree_node_s;
  roots : gmap Z Z;
}.

#[export] Instance lens_nodes : Lens rbmem (gmap Z qp_rbtree_node_s).
Proof. refine {| lget := nodes; lset n s := MkMem n (roots s) |}; by intros; destruct s || done. Defined.
#[export] Instance lens_roots : Lens rbmem (gmap Z Z).
Proof. refine {| lget := roots; lset r s := MkMem (nodes s) r |}; by intros; destruct s || done. Defined.

Definition QP_RBTREE_RED : Z := 1.
Definition QP_RBTREE_BLACK : Z := 0.

(** Offset of [sentinel] in [struct qp_rbtree_s] (LP64): after [root]. *)
Definition offsetof_sentinel : Z := 8.

Definition upd_left v n := MkNode v (right n) (parent n) (data n) (key n) (color_ n).
Definition upd_right v n := MkNode (left n) v (parent n) (data n) (key n) (color_ n).
Definition upd_parent v n := MkNode (left n) (right n) v (data n) (key n) (color_ n).
Definition upd_data v n := MkNode (left n) (right n) (parent n) v (key n) (color_ n).
Definition upd_key v n := MkNode (left n) (right n) (parent n) (data n) v (color_ n).
Definition upd_color v n := MkNode (left n) (right n) (parent n) (data n) (key n) v.

Abbreviation M := (M rbmem).

(** [rbtree->root] as an expression and as a target. *)
Definition get_root (rbtree : Z) : M Z := ld (λ r : Z, r) rbtree.
Definition set_root (rbtree v : Z) : M unit := st (λ _ : Z, v) rbtree.

(** * Node predicates and navigation *)

Definition qp_rbtree_set_red (node : Z) : M unit :=
  if node =? NULL then mret tt else st (upd_color QP_RBTREE_RED) node.

Definition qp_rbtree_set_black (node : Z) : M unit :=
  if node =? NULL then mret tt else st (upd_color QP_RBTREE_BLACK) node.

Definition qp_rbtree_is_red (node : Z) : M bool :=
  if node =? NULL then mret false
  else c ← ld color_ node; mret (c =? QP_RBTREE_RED).

Definition qp_rbtree_is_black (node : Z) : M bool :=
  if node =? NULL then mret false
  else c ← ld color_ node; mret (c =? QP_RBTREE_BLACK).

Definition qp_rbtree_parent (node : Z) : M Z :=
  if node =? NULL then mret NULL else ld parent node.

Definition qp_rbtree_grandpa (node : Z) : M Z :=
  p ← qp_rbtree_parent node; qp_rbtree_parent p.

Definition qp_rbtree_is_left (node : Z) : M bool :=
  if node =? NULL then mret false
  else p ← qp_rbtree_parent node; l ← ld left p; mret (node =? l).

Definition qp_rbtree_is_right (node : Z) : M bool :=
  if node =? NULL then mret false
  else p ← qp_rbtree_parent node; r ← ld right p; mret (node =? r).

Definition qp_rbtree_uncle (node : Z) : M Z :=
  if node =? NULL then mret NULL
  else p ← qp_rbtree_parent node;
       b ← qp_rbtree_is_left p;
       g ← qp_rbtree_grandpa node;
       if (b : bool) then ld right g else ld left g.

Definition qp_rbtree_brother (node : Z) : M Z :=
  if node =? NULL then mret NULL
  else b ← qp_rbtree_is_left node;
       p ← qp_rbtree_parent node;
       if (b : bool) then ld right p else ld left p.

Definition qp_rbtree_nil (rbtree : Z) : Z :=
  if rbtree =? NULL then NULL else rbtree + offsetof_sentinel.

Definition qp_rbtree_is_empty (rbtree : Z) : M bool :=
  if rbtree =? NULL then mret false
  else r ← get_root rbtree; mret (r =? qp_rbtree_nil rbtree).

Definition qp_rbtree_init (rbtree : Z) : M unit :=
  if rbtree =? NULL then mret tt
  else
    st (upd_left (qp_rbtree_nil rbtree)) (rbtree + offsetof_sentinel);;
    st (upd_right (qp_rbtree_nil rbtree)) (rbtree + offsetof_sentinel);;
    st (upd_parent (qp_rbtree_nil rbtree)) (rbtree + offsetof_sentinel);;
    qp_rbtree_set_black (qp_rbtree_nil rbtree);;
    set_root rbtree (qp_rbtree_nil rbtree).

(** * Rotations *)

Definition qp_rbtree_left_rotate (rbtree node : Z) : M unit :=
  right_ ← ld right node;
  p ← qp_rbtree_parent node;
  st (upd_parent p) right_;;
  root ← get_root rbtree;
  (if node =? root then set_root rbtree right_
   else
     b ← qp_rbtree_is_left node;
     p ← qp_rbtree_parent node;
     if (b : bool) then st (upd_left right_) p else st (upd_right right_) p);;
  st (upd_parent right_) node;;
  rl ← ld left right_;
  st (upd_right rl) node;;
  rl ← ld left right_;
  (if negb (rl =? qp_rbtree_nil rbtree) then st (upd_parent node) rl else mret tt);;
  st (upd_left node) right_.

Definition qp_rbtree_right_rotate (rbtree node : Z) : M unit :=
  left_ ← ld left node;
  p ← qp_rbtree_parent node;
  st (upd_parent p) left_;;
  root ← get_root rbtree;
  (if node =? root then set_root rbtree left_
   else
     b ← qp_rbtree_is_left node;
     p ← ld parent node;
     if (b : bool) then st (upd_left left_) p else st (upd_right left_) p);;
  st (upd_parent left_) node;;
  lr ← ld right left_;
  st (upd_left lr) node;;
  lr ← ld right left_;
  (if negb (lr =? qp_rbtree_nil rbtree) then st (upd_parent node) lr else mret tt);;
  st (upd_right node) left_.

(** * Rebalancing *)

(** Every loop below visits a node at most once per round, so the number of
    nodes in memory bounds the rounds; the theorems show that it is enough. *)
Definition loop_fuel : M nat := gets (λ s, 2 + size (nodes s))%nat.

Definition qp_rbtree_insert_fix_body (rbtree node : Z) : M (Z + unit) :=
  root ← get_root rbtree;
  if node =? root then mret (inr tt) else
  p ← qp_rbtree_parent node;
  red ← qp_rbtree_is_red p;
  if negb red then mret (inr tt) else
  u ← qp_rbtree_uncle node;
  ured ← qp_rbtree_is_red u;
  if (ured : bool) then
    p ← qp_rbtree_parent node; qp_rbtree_set_black p;;
    u ← qp_rbtree_uncle node; qp_rbtree_set_black u;;
    g ← qp_rbtree_grandpa node; qp_rbtree_set_red g;;
    g ← qp_rbtree_grandpa node; mret (inl g)
  else
    p ← qp_rbtree_parent node;
    pleft ← qp_rbtree_is_left p;
    if (pleft : bool) then
      nright ← qp_rbtree_is_right node;
      node ← (if (nright : bool) then
                node ← qp_rbtree_parent node;
                qp_rbtree_left_rotate rbtree node;; mret node
              else mret node);
      p ← qp_rbtree_parent node; qp_rbtree_set_black p;;
      g ← qp_rbtree_grandpa node; qp_rbtree_set_red g;;
      g ← qp_rbtree_grandpa node; qp_rbtree_right_rotate rbtree g;;
      mret (inl node)
    else
      nleft ← qp_rbtree_is_left node;
      node ← (if (nleft : bool) then
                node ← qp_rbtree_parent node;
                qp_rbtree_right_rotate rbtree node;; mret node
              else mret node);
      p ← qp_rbtree_parent node; qp_rbtree_set_black p;;
      g ← qp_rbtree_grandpa node; qp_rbtree_set_red g;;
      g ← qp_rbtree_grandpa node; qp_rbtree_left_rotate rbtree g;;
      mret (inl node).

Definition qp_rbtree_insert_fix (rbtree node : Z) : M unit :=
  n ← loop_fuel;
  loop n (qp_rbtree_insert_fix_body rbtree) node;;
  root ← get_root rbtree; qp_rbtree_set_black root.

(** The halves of the loop body for a left and for a right child. *)
Definition qp_rbtree_delete_fix_left (rbtree node : Z) : M Z :=
  b ← qp_rbtree_brother node;
  bred ← qp_rbtree_is_red b;
  (if (bred : bool) then
     b ← qp_rbtree_brother node; qp_rbtree_set_black b;;
     p ← qp_rbtree_parent node; qp_rbtree_set_red p;;
     p ← qp_rbtree_parent node; qp_rbtree_left_rotate rbtree p
   else mret tt);;
  b ← qp_rbtree_brother node; bl ← ld left b; lblack ← qp_rbtree_is_black bl;
  both ← (if (lblack : bool) then
            b ← qp_rbtree_brother node; br ← ld right b; qp_rbtree_is_black br
          else mret false);
  if (both : bool) then
    b ← qp_rbtree_brother node; qp_rbtree_set_red b;;
    qp_rbtree_parent node
  else
    b ← qp_rbtree_brother node; br ← ld right b; rblack ← qp_rbtree_is_black br;
    (if (rblack : bool) then
       b ← qp_rbtree_brother node; bl ← ld left b; qp_rbtree_set_black bl;;
       b ← qp_rbtree_brother node; qp_rbtree_set_red b;;
       b ← qp_rbtree_brother node; qp_rbtree_right_rotate rbtree b
     else mret tt);;
    p ← qp_rbtree_parent node; pblack ← qp_rbtree_is_black p;
    b ← qp_rbtree_brother node;
    (if (pblack : bool) then qp_rbtree_set_black b else qp_rbtree_set_red b);;
    p ← qp_rbtree_parent node; qp_rbtree_set_black p;;
    b ← qp_rbtree_brother node; br ← ld right b; qp_rbtree_set_black br;;
    p ← qp_rbtree_parent node; qp_rbtree_left_rotate rbtree p;;
    get_root rbtree.

Definition qp_rbtree_delete_fix_right (rbtree node : Z) : M Z :=
  b ← qp_rbtree_brother node;
  bred ← qp_rbtree_is_red b;
  (if (bred : bool) then
     b ← qp_rbtree_brother node; qp_rbtree_set_black b;;
     p ← qp_rbtree_parent node; qp_rbtree_set_red p;;
     p ← qp_rbtree_parent node; qp_rbtree_right_rotate rbtree p
   else mret tt);;
  b ← qp_rbtree_brother node; br ← ld right b; rblack ← qp_rbtree_is_black br;
  both ← (if (rblack : bool) then
            b ← qp_rbtree_brother node; bl ← ld left b; qp_rbtree_is_black bl
          else mret false);
  if (both : bool) then
    b ← qp_rbtree_brother node; qp_rbtree_set_red b;;
    qp_rbtree_parent node
  else
    b ← qp_rbtree_brother node; bl ← ld left b; lblack ← qp_rbtree_is_black bl;
    (if (lblack : bool) then
       b ← qp_rbtree_brother node; br ← ld right b; qp_rbtree_set_black br;;
       b ← qp_rbtree_brother node; qp_rbtree_set_red b;;
       b ← qp_rbtree_brother node; qp_rbtree_left_rotate rbtree b
     else mret tt);;
    p ← qp_rbtree_parent node; pblack ← qp_rbtree_is_black p;
    b ← qp_rbtree_brother node;
    (if (pblack : bool) then qp_rbtree_set_black b else qp_rbtree_set_red b);;
    p ← qp_rbtree_parent node; qp_rbtree_set_black p;;
    b ← qp_rbtree_brother node; bl ← ld left b; qp_rbtree_set_black bl;;
    p ← qp_rbtree_parent node; qp_rbtree_right_rotate rbtree p;;
    get_root rbtree.

Definition qp_rbtree_delete_fix_body (rbtree node : Z) : M (Z + Z) :=
  root ← get_root rbtree;
  if node =? root then mret (inr node) else
  black ← qp_rbtree_is_black node;
  if negb black then mret (inr node) else
  nleft ← qp_rbtree_is_left node;
  node' ← (if (nleft : bool) then qp_rbtree_delete_fix_left rbtree node
           else qp_rbtree_delete_fix_right rbtree node);
  mret (inl node').

Definition qp_rbtree_delete_fix (rbtree node : Z) : M unit :=
  n ← loop_fuel;
  node' ← loop n (qp_rbtree_delete_fix_body rbtree) node;
  qp_rbtree_set_black node'.

(** * Search *)

(** The walk of [qp_rbtree_insert]: [Some cur] when the loop breaks with a free
    child slot at [cur], [None] when the key is already present. *)
Definition insert_walk_body (rbtree node cur : Z) : M (Z + option Z) :=
  nk ← ld key node; ck ← ld key cur;
  if nk =? ck then mret (inr None) else
  next ← (if nk <? ck then ld left cur else ld right cur);
  if next =? qp_rbtree_nil rbtree then mret (inr (Some cur)) else mret (inl next).

Definition qp_rbtree_find (rbtree key_ : Z) : M Z :=
  root ← get_root rbtree;
  n ← loop_fuel;
  node ← loop n (λ node,
    if node =? qp_rbtree_nil rbtree then mret (inr node) else
    k ← ld key node;
    if u32 key_ =? k then mret (inr node) else
    next ← (if u32 key_ <? k then ld left node else ld right node);
    mret (inl next)) root;
  mret (if qp_rbtree_nil rbtree =? node then NULL else node).

Definition qp_rbtree_min (rbtree node : Z) : M Z :=
  empty ← qp_rbtree_is_empty rbtree;
  if (empty : bool) then mret NULL else
  node ← (if node =? NULL then get_root rbtree else mret node);
  n ← loop_fuel;
  loop n (λ node,
    l ← ld left node;
    if l =? qp_rbtree_nil rbtree then mret (inr node) else
    l ← ld left node; mret (inl l)) node.

Definition qp_rbtree_max (rbtree node : Z) : M Z :=
  empty ← qp_rbtree_is_empty rbtree;
  if (empty : bool) then mret NULL else
  node ← (if node =? NULL then get_root rbtree else mret node);
  n ← loop_fuel;
  loop n (λ node,
    r ← ld right node;
    if r =? qp_rbtree_nil rbtree then mret (inr node) else
    r ← ld right node; mret (inl r)) node.

(** * Insertion and deletion *)

Definition qp_rbtree_insert (rbtree node : Z) : M Z :=
  if node =? NULL then mret NULL else
  empty ← qp_rbtree_is_empty rbtree;
  if (empty : bool) then
    qp_rbtree_set_black node;;
    root ← get_root rbtree; st (upd_left root) node;;
    root ← get_root rbtree; st (upd_right root) node;;
    root ← get_root rbtree; st (upd_parent root) node;;
    set_root rbtree node;;
    mret node
  else
    cur ← get_root rbtree;
    n ← loop_fuel;
    found ← loop n (insert_walk_body rbtree node) cur;
    match found with
    | None => mret NULL
    | Some cur =>
        nk ← ld key node; ck ← ld key cur;
        (if nk <? ck then
           cl ← ld left cur; st (upd_left cl) node;;
           st (upd_right (qp_rbtree_nil rbtree)) node;;
           st (upd_left node) cur
         else
           cr ← ld right cur; st (upd_right cr) node;;
           st (upd_left (qp_rbtree_nil rbtree)) node;;
           st (upd_right node) cur);;
        st (upd_parent cur) node;;
        qp_rbtree_set_red node;;
        p ← qp_rbtree_parent node;
        pred ← qp_rbtree_is_red p;
        (if (pred : bool) then qp_rbtree_insert_fix rbtree node else mret tt);;
        mret node
    end.

Definition qp_rbtree_delete (rbtree node : Z) : M Z :=
  if node =? NULL then mret NULL else
  if rbtree =? NULL then mret NULL else
  empty ← qp_rbtree_is_empty rbtree;
  if (empty : bool) then mret NULL else
  l ← ld left node; r ← ld right node;
  subst ← (if (qp_rbtree_nil rbtree =? l) || (qp_rbtree_nil rbtree =? r)
           then mret node else qp_rbtree_min rbtree r);
  sl ← ld left subst;
  tmp ← (if negb (qp_rbtree_nil rbtree =? sl) then ld left subst else ld right subst);
  p ← qp_rbtree_parent subst; st (upd_parent p) tmp;;
  p ← qp_rbtree_parent subst;
  (if qp_rbtree_nil rbtree =? p then set_root rbtree tmp
   else
     b ← qp_rbtree_is_left subst;
     p ← qp_rbtree_parent subst;
     if (b : bool) then st (upd_left tmp) p else st (upd_right tmp) p);;
  (if negb (node =? subst) then
     k ← ld key subst; st (upd_key k) node;;
     d ← ld data subst; st (upd_data d) node
   else mret tt);;
  black ← qp_rbtree_is_black subst;
  (if (black : bool) then qp_rbtree_delete_fix rbtree tmp else mret tt);;
  mret subst.
