(* ===== verification/RbRep.v ===== *)
(** How the store of RbTree.v holds an abstract tree of RbModel.v: the
    representation predicates [rep], [crep] and [rbt], their frame lemmas, and
    the triples of the node accessors, of recoloring and of the rotations. *)

From S2P Require Import Prelude RbModel RbTree.
#[local] Open Scope Z_scope.

(** * Representation: the heap holds a given abstract tree *)

Definition col (c : color) : Z :=
  match c with Red => QP_RBTREE_RED | Black => QP_RBTREE_BLACK end.

(** Subtree [tr], whose top node has parent pointer [p], is laid out in [h]. *)
Fixpoint rep (nil : Z) (h : gmap Z qp_rbtree_node_s) (p : Z) (tr : tree) : Prop :=
  match tr with
  | Leaf => True
  | Node a c l k d r =>
      h !! a = Some (MkNode (ptr nil l) (ptr nil r) p d k (col c)) ∧
      rep nil h a l ∧ rep nil h a r
  end.

(** The path above a cursor whose pointer is [child]. *)
Fixpoint crep (nil : Z) (h : gmap Z qp_rbtree_node_s) (C : ctx) (child : Z) : Prop :=
  match C with
  | [] => True
  | FL a c k d r :: C' =>
      h !! a = Some (MkNode child (ptr nil r) (pptr nil C') d k (col c)) ∧
      rep nil h a r ∧ crep nil h C' a
  | FR a c l k d :: C' =>
      h !! a = Some (MkNode (ptr nil l) child (pptr nil C') d k (col c)) ∧
      rep nil h a l ∧ crep nil h C' a
  end.

Lemma rep_plug nil h C tr :
  rep nil h nil (plug C tr) ↔ rep nil h (pptr nil C) tr ∧ crep nil h C (ptr nil tr).
Proof.
  revert tr. induction C as [|f C IH]; intros tr; cbn [plug].
  - cbn. tauto.
  - rewrite IH. destruct f; cbn; tauto.
Qed.

Lemma rep_frame nil h h' p tr :
  (∀ a, a ∈ addrs tr → h' !! a = h !! a) → rep nil h p tr → rep nil h' p tr.
Proof.
  revert p. induction tr as [|a c l IHl k d r IHr]; intros p Hf; cbn; [done|].
  intros (Ha & Hl & Hr). cbn in Hf. split_and!.
  - rewrite Hf; [done|left].
  - apply IHl; [|done]. intros b Hb. apply Hf. right. apply elem_of_app; by left.
  - apply IHr; [|done]. intros b Hb. apply Hf. right. apply elem_of_app; by right.
Qed.

Lemma crep_frame nil h h' C child :
  (∀ a, a ∈ caddrs C → h' !! a = h !! a) → crep nil h C child → crep nil h' C child.
Proof.
  revert child. induction C as [|f C IH]; intros child Hf; cbn; [done|].
  rewrite caddrs_cons in Hf.
  assert (h' !! faddr f = h !! faddr f) as Ha by (apply Hf; left).
  assert (∀ p, rep nil h p (fsib f) → rep nil h' p (fsib f)) as Hs.
  { intros p. apply rep_frame. intros b Hb. apply Hf. right. apply elem_of_app; by left. }
  assert (∀ q, crep nil h C q → crep nil h' C q) as HC.
  { intros q. apply IH. intros b Hb. apply Hf. right. apply elem_of_app; by right. }
  destruct f; cbn in *; rewrite Ha; naive_solver.
Qed.

(** A subtree handed over to another parent: only its top node changes. *)
Lemma rep_reparent nil h h' p p' tr :
  NoDup (addrs tr) →
  (∀ a, a ∈ addrs tr → a ≠ ptr nil tr → h' !! a = h !! a) →
  (tr ≠ Leaf → h' !! ptr nil tr = upd_parent p' <$> h !! ptr nil tr) →
  rep nil h p tr → rep nil h' p' tr.
Proof.
  destruct tr as [|a c l k d r]; cbn; [done|].
  intros [Ha Hnd]%NoDup_cons Hf Hp (Hh & Hl & Hr).
  assert (∀ b, b ∈ addrs l ++ addrs r → h' !! b = h !! b) as Hf'.
  { intros b Hb. apply Hf; [by right|]. by intros ->. }
  split_and!.
  - by rewrite Hp, Hh.
  - eapply rep_frame, Hl. intros b Hb. apply Hf', elem_of_app; by left.
  - eapply rep_frame, Hr. intros b Hb. apply Hf', elem_of_app; by right.
Qed.

(** The path above a cursor that changes its pointer. *)
Lemma crep_rechild nil h h' C child child' :
  NoDup (caddrs C) →
  (∀ a, a ∈ caddrs C → a ≠ pptr nil C → h' !! a = h !! a) →
  (∀ f C', C = f :: C' → h' !! faddr f =
     (match f with FL _ _ _ _ _ => upd_left child' | FR _ _ _ _ _ => upd_right child' end)
     <$> h !! faddr f) →
  crep nil h C child → crep nil h' C child'.
Proof.
  destruct C as [|f C]; [done|]. rewrite caddrs_cons.
  intros [Ha Hnd]%NoDup_cons Hf Hp.
  specialize (Hp f C eq_refl).
  assert (∀ b, b ∈ addrs (fsib f) ++ caddrs C → h' !! b = h !! b) as Hf'.
  { intros b Hb. apply Hf; [by right|]. cbn. by intros ->. }
  assert (∀ p, rep nil h p (fsib f) → rep nil h' p (fsib f)) as Hs.
  { intros p. apply rep_frame. intros b Hb. apply Hf', elem_of_app; by left. }
  assert (∀ q, crep nil h C q → crep nil h' C q) as HC.
  { intros q. apply crep_frame. intros b Hb. apply Hf', elem_of_app; by right. }
  destruct f; cbn in *; intros (Hh & ? & ?); rewrite Hp, Hh; naive_solver.
Qed.

(** [rbt t F h0 r0 sp tr s]: the tree object at [t] holds [tr], its sentinel is
    black with parent field [sp], its nodes are distinct and lie in the
    footprint [F], and memory outside the footprint is as in [h0] and [r0]. *)
Record rbt (t : Z) (F : gset Z) (h0 : gmap Z qp_rbtree_node_s) (r0 : gmap Z Z)
    (sp : Z) (tr : tree) (s : rbmem) : Prop := {
  rbt_root : roots s !! t = Some (ptr (t + offsetof_sentinel) tr);
  rbt_sent : ∃ n, nodes s !! (t + offsetof_sentinel) = Some n ∧
                  color_ n = QP_RBTREE_BLACK ∧ parent n = sp;
  rbt_rep : rep (t + offsetof_sentinel) (nodes s) (t + offsetof_sentinel) tr;
  rbt_nodup : NoDup (NULL :: (t + offsetof_sentinel) :: addrs tr);
  rbt_null : t ≠ NULL;
  rbt_foot : ∀ a, a ∈ (t + offsetof_sentinel) :: addrs tr → a ∈ F;
  rbt_frame : ∀ a, a ∉ F → nodes s !! a = h0 !! a;
  rbt_roots : ∀ u, u ≠ t → roots s !! u = r0 !! u;
}.

(** Addresses that occur at different places of a [NoDup] list differ. For every
    element that [H] shows, [ne_facts H] asserts that it differs from the other
    elements shown and that it is not in the sublists that are left opaque. *)
Ltac in_list :=
  lazymatch goal with
  | |- ?x ∈ ?x :: _ => apply elem_of_cons; left; reflexivity
  | |- _ ∈ _ :: _ => apply elem_of_cons; right; in_list
  | |- _ ∈ _ ++ _ => apply elem_of_app; first [left; in_list | right; in_list]
  | |- _ => assumption
  end.

Ltac each_part l named opaque :=
  lazymatch l with
  | ?x :: ?l' => named x; each_part l' named opaque
  | ?l1 ++ ?l2 => each_part l1 named opaque; each_part l2 named opaque
  | [] => idtac
  | _ => opaque l
  end.

Ltac ne_facts H :=
  lazymatch type of H with
  | NoDup (?x :: ?l) =>
      let Hx := fresh "Px" in let Hl := fresh "Pl" in let E := fresh "Eq" in
      destruct (proj1 (NoDup_cons x l) H) as [Hx Hl];
      each_part l
        ltac:(fun b => assert (x ≠ b) by (intros E; apply Hx; rewrite E; in_list))
        ltac:(fun c => assert (x ∉ c) by (intros E; apply Hx; in_list));
      ne_facts Hl; clear Hx Hl
  | NoDup (?l1 ++ ?l2) =>
      let H1 := fresh "P1" in let H2 := fresh "P2" in let H3 := fresh "P3" in
      let E := fresh "Eq" in
      destruct (proj1 (NoDup_app l1 l2) H) as (H1 & H2 & H3);
      each_part l1
        ltac:(fun a => each_part l2
          ltac:(fun b => assert (a ≠ b) by
            (intros E; apply (H2 a); [in_list | rewrite E; in_list]))
          ltac:(fun c => assert (a ∉ c) by (intros E; apply (H2 a); in_list)))
        ltac:(fun c => each_part l2
          ltac:(fun b => assert (b ∉ c) by (intros E; apply (H2 b); in_list))
          ltac:(fun _ => idtac));
      ne_facts H1; ne_facts H3; clear H1 H2 H3
  | _ => idtac
  end.

Ltac solve_ne ::=
  first [ assumption
        | match goal with H : ?a ≠ ?b |- ?b ≠ ?a => exact (not_eq_sym H) end
        | done ].

(** Read an object out of a store that was written to at other addresses. *)
Ltac look :=
  cbn [lget lset lens_nodes lens_roots nodes roots];
  first [ eassumption
        | rewrite lookup_insert_eq; reflexivity
        | rewrite lookup_insert_ne by solve_ne; look ].

(** Symbolic execution of straight-line tree code; comparisons with known
    outcome are decided from the context. *)
Ltac rb_if :=
  match goal with
  | |- context [?a =? ?b] =>
      first [ rewrite (Z.eqb_refl a)
            | rewrite (proj2 (Z.eqb_neq a b)) by solve_ne
            | let v := eval compute in (a =? b) in
              lazymatch v with true => idtac | false => idtac end;
              change (a =? b) with v ]
  end; cbn [negb].

Tactic Notation "wp_unfold" reference(f) :=
  lazymatch goal with
  | |- wp ?m ?s ?Q => let m' := eval unfold f in m in change (wp m' s Q)
  end.

Ltac rb_step :=
  lazymatch goal with
  | |- wp (_ ≫= _) _ _ => apply wp_bind
  | |- wp (mret _) _ _ => apply wp_ret
  | |- wp (ld _ _) _ _ => eapply wp_ld; [solve_ne | look |]
  | |- wp (st _ _) _ _ => eapply wp_st; [solve_ne | look |]
  | |- wp (get_root _) _ _ => wp_unfold get_root
  | |- wp (set_root _ _) _ _ => wp_unfold set_root
  | |- wp (qp_rbtree_parent _) _ _ => wp_unfold qp_rbtree_parent; rb_if
  | |- wp (qp_rbtree_is_left _) _ _ => wp_unfold qp_rbtree_is_left; rb_if
  | |- wp (qp_rbtree_is_right _) _ _ => wp_unfold qp_rbtree_is_right; rb_if
  | |- wp (qp_rbtree_grandpa _) _ _ => wp_unfold qp_rbtree_grandpa
  | |- wp (qp_rbtree_uncle _) _ _ => wp_unfold qp_rbtree_uncle; rb_if
  | |- wp (qp_rbtree_brother _) _ _ => wp_unfold qp_rbtree_brother; rb_if
  | |- wp (qp_rbtree_is_red _) _ _ => wp_unfold qp_rbtree_is_red; rb_if
  | |- wp (qp_rbtree_is_black _) _ _ => wp_unfold qp_rbtree_is_black; rb_if
  | |- wp (if _ =? _ then _ else _) _ _ => rb_if
  | |- wp (if negb (_ =? _) then _ else _) _ _ => rb_if
  end; cbn [left right parent data key color_ upd_left upd_right upd_parent
            upd_data upd_key upd_color].

Section rbt.
Context (t : Z) (F : gset Z) (h0 : gmap Z qp_rbtree_node_s) (r0 : gmap Z Z).
#[local] Abbreviation nil := (t + offsetof_sentinel).
#[local] Abbreviation rbt := (rbt t F h0 r0).
Implicit Types (C : ctx) (s : rbmem).

Lemma qp_rbtree_nil_eq : t ≠ NULL → qp_rbtree_nil t = nil.
Proof. intros Ht. unfold qp_rbtree_nil. by rewrite (proj2 (Z.eqb_neq _ _) Ht). Qed.

Lemma rbt_distinct sp C tr s : rbt sp (plug C tr) s →
  NoDup (NULL :: nil :: addrs tr ++ caddrs C).
Proof. intros H. rewrite <-addrs_plug. apply H. Qed.

(** What a load of a tree node yields. *)
Lemma rbt_lookup sp C a c l k d r s :
  rbt sp (plug C (Node a c l k d r)) s →
  nodes s !! a = Some (MkNode (ptr nil l) (ptr nil r) (pptr nil C) d k (col c)) ∧
  a ≠ NULL ∧ a ≠ nil.
Proof.
  intros H. pose proof (rbt_distinct _ _ _ _ H) as Hnd.
  destruct (proj1 (rep_plug _ _ _ _) (rbt_rep _ _ _ _ _ _ _ H)) as [(Ha&_&_) _].
  split_and!; [done| |]; cbn in Hnd; rewrite !NoDup_cons in Hnd; set_solver.
Qed.

(** The sibling pointers of a node differ unless both are the sentinel. *)
Lemma rbt_ptr_ne sp C a c l k d r s :
  rbt sp (plug C (Node a c l k d r)) s →
  l ≠ Leaf ∨ r ≠ Leaf → ptr nil l ≠ ptr nil r.
Proof.
  intros H. pose proof (rbt_distinct _ _ _ _ H) as Hnd. cbn in Hnd.
  clear H. rewrite !NoDup_cons, !NoDup_app in Hnd.
  destruct l, r; cbn in *; set_solver.
Qed.

(** The cursor is the root exactly when nothing is above it. *)
Lemma rbt_cursor_root sp C tr s :
  rbt sp (plug C tr) s → C ≠ [] → ptr nil tr ≠ ptr nil (plug C tr).
Proof.
  intros H HC. pose proof (rbt_distinct _ _ _ _ H) as Hnd.
  pose proof (ptr_plug nil C tr HC) as Hp.
  rewrite !NoDup_cons, NoDup_app in Hnd. clear H HC.
  destruct Hnd as (_ & Hnil & _ & Hdisj & _). intros Heq. rewrite <-Heq in Hp.
  destruct (ptr_in nil tr) as [->|Ht]; [|by apply (Hdisj _ Ht)].
  apply Hnil, elem_of_app. by right.
Qed.

(** Every node of the tree is mapped. *)
Lemma rbt_dom sp tr s a :
  rbt sp tr s → a ∈ addrs tr → is_Some (nodes s !! a).
Proof.
  intros H Ha. pose proof (rbt_rep _ _ _ _ _ _ _ H) as Hr. revert Ha Hr. clear H.
  generalize nil at 2. induction tr as [|b c l IHl k d r IHr]; intros p; cbn; [set_solver|].
  rewrite elem_of_cons, elem_of_app. naive_solver.
Qed.

Lemma rbt_fuel sp C tr s :
  rbt sp (plug C tr) s → (length C < 2 + size (nodes s))%nat.
Proof.
  intros H. pose proof (length_ctx_addrs C tr).
  assert (length (addrs (plug C tr)) ≤ size (nodes s))%nat; [|lia].
  apply NoDup_length_size.
  - pose proof (rbt_nodup _ _ _ _ _ _ _ H) as Hn. rewrite !NoDup_cons in Hn. tauto.
  - intros a. by eapply rbt_dom.
Qed.

Lemma rbt_lookup_top sp C tr s :
  rbt sp (plug C tr) s →
  roots s !! t = Some (ptr nil (plug C tr)) ∧ t ≠ NULL ∧
  ∃ sl sr sd sk, nodes s !! nil = Some (MkNode sl sr sp sd sk QP_RBTREE_BLACK).
Proof.
  intros [? ([? ? ? ? ? ?] & ? & Hc & Hp) _ _ ? _ _ _]. split_and!; [done..|].
  cbn in *. subst. eauto.
Qed.

Definition upd_child (f : frame) (v : Z) : qp_rbtree_node_s → qp_rbtree_node_s :=
  match f with FL _ _ _ _ _ => upd_left v | FR _ _ _ _ _ => upd_right v end.

(** Local surgery: exchange the subtree at the cursor for one with the same
    nodes, and make the parent (or the root) point to its top. *)
Lemma rbt_update sp C tr tr' s s' :
  rbt sp (plug C tr) s →
  addrs tr' ≡ₚ addrs tr →
  rep nil (nodes s') (pptr nil C) tr' →
  (∀ a, a ∉ addrs tr → a ≠ pptr nil C → nodes s' !! a = nodes s !! a) →
  (C = [] → nodes s' !! nil = nodes s !! nil) →
  (∀ f C', C = f :: C' →
     nodes s' !! faddr f = upd_child f (ptr nil tr') <$> nodes s !! faddr f) →
  roots s' !! t = Some (ptr nil (plug C tr')) →
  (∀ u, u ≠ t → roots s' !! u = roots s !! u) →
  rbt sp (plug C tr') s'.
Proof.
  intros H Hperm Hrep Hout Hnil Hf Hroot Hroots.
  pose proof (rbt_distinct _ _ _ _ H) as Hnd.
  rewrite !NoDup_cons, NoDup_app in Hnd.
  assert (addrs (plug C tr') ≡ₚ addrs (plug C tr)) as Hp
    by by rewrite !addrs_plug, Hperm.
  assert (∀ f C', C = f :: C' → faddr f ∈ caddrs C) as HfC.
  { intros f C' ->. rewrite caddrs_cons. left. }
  destruct H as [? Hs Hr Hn ? Hft Hfr Hro].
  apply rep_plug in Hr as [_ Hc]. split; [done|..].
  - destruct Hs as (n & Hn1 & ?). exists n. split; [|done].
    destruct C as [|f C']; [by rewrite Hnil|]. rewrite Hout; [done|set_solver|].
    cbn. intros Heq. specialize (HfC f C' eq_refl). rewrite <-Heq in HfC. set_solver.
  - apply rep_plug. split; [done|]. eapply crep_rechild, Hc.
    + tauto.
    + intros a Ha Hne. apply Hout; [set_solver|done].
    + exact Hf.
  - by rewrite Hp.
  - done.
  - intros a. rewrite Hp. apply Hft.
  - intros a Ha. rewrite <-Hfr by done. apply Hout.
    + intros Hin. apply Ha, Hft. rewrite addrs_plug. set_solver.
    + intros ->. apply Ha, Hft. destruct C as [|f C']; cbn [pptr]; [by left|].
      rewrite addrs_plug. specialize (HfC f C' eq_refl). set_solver.
  - intros u Hu. rewrite Hroots; auto.
Qed.
End rbt.

(** All the objects named by the shape of the tree around the cursor. *)
Ltac rb_node H C T :=
  lazymatch T with
  | Node ?a ?c ?l ?k ?d ?r =>
      let Ha := fresh "Hat" in
      pose proof (proj1 (rbt_lookup _ _ _ _ _ C a c l k d r _ H)) as Ha;
      try (let Hs := fresh "Hsib" in
           pose proof (rbt_ptr_ne _ _ _ _ _ C a c l k d r _ H
                         ltac:(first [by left | by right])) as Hs)
  end.
Ltac rb_down H C T :=
  lazymatch T with
  | Node ?a ?c ?l ?k ?d ?r =>
      rb_node H C T;
      rb_down H (FL a c k d r :: C) l; rb_down H (FR a c l k d :: C) r
  | _ => idtac
  end.
Ltac rb_up H C T :=
  lazymatch C with
  | ?f :: ?C' =>
      let T' := eval cbn [fill] in (fill f T) in
      rb_node H C' T';
      lazymatch f with
      | FL ?a ?c ?k ?d ?r => rb_down H (FR a c T k d :: C') r
      | FR ?a ?c ?l ?k ?d => rb_down H (FL a c k d T :: C') l
      end;
      rb_up H C' T'
  | _ => idtac
  end.

(** [rb_look H]: the loads that the state of [H] answers. *)
Ltac rb_look H :=
  lazymatch type of H with
  | rbt _ _ _ _ _ (plug ?C ?T) _ =>
      let Hr := fresh "Hroot" in let Hsn := fresh "Hsent" in
      pose proof (rbt_lookup_top _ _ _ _ _ C T _ H) as (Hr & _ & (? & ? & ? & ? & Hsn));
      rb_down H C T; rb_up H C T;
      lazymatch C with
      | _ :: _ => let Hne := fresh "Hcur" in
                  pose proof (rbt_cursor_root _ _ _ _ _ _ _ _ H ltac:(done)) as Hne
      | [] => cbn [plug] in Hr
      | _ => idtac
      end
  end;
  cbn [pptr ptr faddr] in *.

(** [rb_facts H]: the same, and the distinctness of all addresses in sight. *)
Ltac rb_facts H :=
  lazymatch type of H with
  | rbt _ _ _ _ _ (plug ?C ?T) _ =>
      let Hnd := fresh "Hnd" in
      pose proof (rbt_null _ _ _ _ _ _ _ H);
      pose proof (rbt_distinct _ _ _ _ _ C T _ H) as Hnd;
      cbn [addrs caddrs app fsib faddr mbind list_bind] in Hnd; ne_facts Hnd
  end;
  rb_look H.

(** Lookup in the store a straight-line program has produced. *)
Ltac lk :=
  cbn [lget lset lens_nodes lens_roots nodes roots];
  repeat first [ rewrite lookup_insert_eq | rewrite lookup_insert_ne by solve_ne ].

(** A store agrees with an earlier one away from the addresses written to. *)
Ltac off_at Hb :=
  let E := fresh "Eq" in
  lk;
  repeat (rewrite lookup_insert_ne by
    first [ solve_ne
          | intros E; rewrite <-E in Hb; first [contradiction | apply Hb; in_list] ]);
  reflexivity.
Ltac off := let b := fresh "b" in let Hb := fresh "Hb" in intros b Hb; off_at Hb.

(** The side conditions of [rbt_update] after a rotation. *)
Ltac rb_surgery :=
  lazymatch goal with
  | |- rep _ _ _ _ =>
      cbn [rep]; destruct_and?; split_and!; lk;
      try done; (eapply rep_frame; [|eassumption]); off
  | |- ∀ a, a ∉ _ → a ≠ _ → _ =>
      cbn [pptr faddr addrs]; let Hne := fresh in
      let b := fresh "b" in let Hb := fresh "Hb" in intros b Hb Hne; off_at Hb
  | |- _ = [] → _ => intros ?; first [by lk | done]
  | |- ∀ f C', _ = _ → _ =>
      let f := fresh in let C' := fresh in let E := fresh in
      intros f C' E; first [discriminate E | injection E as <- <-];
      cbn [faddr]; lk;
      repeat match goal with H : nodes _ !! _ = Some _ |- _ => rewrite H end; done
  | |- roots _ !! _ = _ =>
      lk; first [ done | etransitivity; [eassumption|]; f_equal; by apply ptr_plug_eq ]
  | |- ∀ u, u ≠ _ → _ => let u := fresh in let Hu := fresh in intros u Hu; by lk
  end.

(** Both rotations: the parent may be absent, or hold the pivot on its left or
    right; the inner subtree [B] may be empty. *)
Ltac rb_rotate H HQ HB C B sp :=
  destruct C as [|[p cp kp dp Z|p cp Z kp dp] C];
    destruct B as [|b cb bl bk bd br]; cbn in HB; rb_facts H;
  repeat rb_step; cbn [ptr plug]; repeat rb_step;
  apply HQ; (eapply rbt_update; [exact H | cbn; solve_Permutation | ..]);
  rb_surgery.

Section triples.
Context (t : Z) (F : gset Z) (h0 : gmap Z qp_rbtree_node_s) (r0 : gmap Z Z).
#[local] Abbreviation nil := (t + offsetof_sentinel).
#[local] Abbreviation rbt := (rbt t F h0 r0).
Implicit Types (C : ctx) (s : rbmem).

(** Writing the color, the key or the data of a node relabels the tree. *)
Lemma wp_relabel upd c' k' d' sp C a c l k d r s (Q : unit → rbmem → Prop) :
  rbt sp (plug C (Node a c l k d r)) s →
  (∀ n, color_ n = col c → key n = k → data n = d →
     upd n = MkNode (left n) (right n) (parent n) d' k' (col c')) →
  (∀ s', rbt sp (plug C (Node a c' l k' d' r)) s' → 
     (∀ b, b ≠ a → nodes s' !! b = nodes s !! b) → Q tt s') →
  wp (st upd a) s Q.
Proof.
  intros H Hupd HQ. destruct (rbt_lookup _ _ _ _ _ _ _ _ _ _ _ _ _ H) as (Ha & Hn & Hnil).
  pose proof (rbt_distinct _ _ _ _ _ _ _ _ H) as Hnd.
  rb_step. rewrite Hupd by done. cbn.
  apply HQ; [|intros b Hb; cbn; by rewrite lookup_insert_ne].
  eapply rbt_update; [exact H|done|..]; cbn.
  - destruct (proj1 (rep_plug _ _ _ _) (rbt_rep _ _ _ _ _ _ _ H)) as [(_&Hl&Hr) _].
    split_and!; [by look|..]; (eapply rep_frame; [|eassumption]);
      intros b Hb; rewrite lookup_insert_ne; [done| |done|];
      intros <-; clear -Hnd Hb; cbn in Hnd; rewrite !NoDup_cons in Hnd; set_solver.
  - intros b Hb _. rewrite lookup_insert_ne; [done|]. set_solver.
  - intros _. rewrite lookup_insert_ne by done. done.
  - intros f C' ->. rewrite lookup_insert_ne.
    2: { clear -Hnd; cbn in Hnd; rewrite !NoDup_cons in Hnd. set_solver. }
    destruct f; cbn in *; destruct (rbt_lookup _ _ _ _ sp C' _ _ _ _ _ _ _ H) as (-> & _ & _); done.
  - rewrite (rbt_root _ _ _ _ _ _ _ H). f_equal. by apply ptr_plug_eq.
  - done.
Qed.

Lemma wp_recolor c' sp C a c l k d r s (Q : unit → rbmem → Prop) :
  rbt sp (plug C (Node a c l k d r)) s →
  (∀ s', rbt sp (plug C (Node a c' l k d r)) s' → Q tt s') →
  wp (st (upd_color (col c')) a) s Q.
Proof.
  intros H HQ. eapply wp_relabel; [exact H| |intros s' H' _; by apply HQ].
  intros [] ? ? ?. cbn in *. by subst.
Qed.

Lemma wp_set_red sp C a c l k d r s (Q : unit → rbmem → Prop) :
  rbt sp (plug C (Node a c l k d r)) s →
  (∀ s', rbt sp (plug C (Node a Red l k d r)) s' → Q tt s') →
  wp (qp_rbtree_set_red a) s Q.
Proof.
  intros H. destruct (rbt_lookup _ _ _ _ _ _ _ _ _ _ _ _ _ H) as (_ & Ha & _).
  unfold qp_rbtree_set_red. rewrite (proj2 (Z.eqb_neq _ _) Ha).
  by eapply (wp_recolor Red).
Qed.

Lemma wp_set_black sp C a c l k d r s (Q : unit → rbmem → Prop) :
  rbt sp (plug C (Node a c l k d r)) s →
  (∀ s', rbt sp (plug C (Node a Black l k d r)) s' → Q tt s') →
  wp (qp_rbtree_set_black a) s Q.
Proof.
  intros H. destruct (rbt_lookup _ _ _ _ _ _ _ _ _ _ _ _ _ H) as (_ & Ha & _).
  unfold qp_rbtree_set_black. rewrite (proj2 (Z.eqb_neq _ _) Ha).
  by eapply (wp_recolor Black).
Qed.

(** The subtree [Node x A (Node y B D)] turned left at [x]. *)
Lemma wp_left_rotate sp C x cx A kx dx y cy B ky dy D s (Q : unit → rbmem → Prop) :
  rbt sp (plug C (Node x cx A kx dx (Node y cy B ky dy D))) s →
  (∀ s', rbt sp (plug C (Node y cy (Node x cx A kx dx B) ky dy D)) s' → Q tt s') →
  wp (qp_rbtree_left_rotate t x) s Q.
Proof.
  intros H HQ. pose proof (rbt_null _ _ _ _ _ _ _ H) as Ht0.
  destruct (proj1 (rep_plug _ _ _ _) (rbt_rep _ _ _ _ _ _ _ H)) as [(_&HA&_&HB&HD) _].
  unfold qp_rbtree_left_rotate. rewrite qp_rbtree_nil_eq by done.
  rb_rotate H HQ HB C B sp.
Qed.

(** The subtree [Node x (Node y A B) D] turned right at [x]. *)
Lemma wp_right_rotate sp C x cx y cy A ky dy B kx dx D s (Q : unit → rbmem → Prop) :
  rbt sp (plug C (Node x cx (Node y cy A ky dy B) kx dx D)) s →
  (∀ s', rbt sp (plug C (Node y cy A ky dy (Node x cx B kx dx D))) s' → Q tt s') →
  wp (qp_rbtree_right_rotate t x) s Q.
Proof.
  intros H HQ. pose proof (rbt_null _ _ _ _ _ _ _ H) as Ht0.
  destruct (proj1 (rep_plug _ _ _ _) (rbt_rep _ _ _ _ _ _ _ H)) as [(_&(_&HA&HB)&HD) _].
  unfold qp_rbtree_right_rotate. rewrite qp_rbtree_nil_eq by done.
  rb_rotate H HQ HB C B sp.
Qed.
End triples.

(** * Automation over the triples *)

(** Find node [a] in the zipper [(C, T)], below the cursor or above it. *)
Ltac rb_find_down a C T :=
  match T with
  | Node a _ _ _ _ _ => constr:((C, T))
  | Node ?b ?c ?l ?k ?d ?r => rb_find_down a constr:(FL b c k d r :: C) l
  | Node ?b ?c ?l ?k ?d ?r => rb_find_down a constr:(FR b c l k d :: C) r
  end.
Ltac rb_find a C T :=
  match C with
  | _ => rb_find_down a C T
  | ?f :: ?C' => let T' := eval cbn [fill] in (fill f T) in rb_find a C' T'
  end.

(** Move the cursor of [H] to node [a]. *)
Ltac rb_focus H a :=
  lazymatch type of H with
  | rbt ?t ?F ?h0 ?r0 ?sp (plug ?C ?T) ?s =>
      let p := rb_find a C T in
      lazymatch p with
      | (?C', ?T') => change (rbt t F h0 r0 sp (plug C' T') s) in H
      end
  end.

(** One call of a mutator: the facts about the old state give way to those about
    the new one. *)
Ltac rb_call :=
  lazymatch goal with
  | H : rbt _ _ _ _ _ (plug _ _) ?s |- wp ?m ?s _ =>
      lazymatch m with
      | qp_rbtree_set_black ?a => rb_focus H a; eapply wp_set_black
      | qp_rbtree_set_red ?a => rb_focus H a; eapply wp_set_red
      | qp_rbtree_left_rotate _ ?a => rb_focus H a; eapply wp_left_rotate
      | qp_rbtree_right_rotate _ ?a => rb_focus H a; eapply wp_right_rotate
      end;
      [ exact H |];
      let s' := fresh "s" in let H' := fresh "H" in
      intros s' H'; clear dependent s; rename H' into H; rb_look H
  end.

Ltac rb_run := repeat first [ progress rb_step | rb_call ].
