(* ===== verification/RbSearch.v ===== *)
(** The read-only walks of the red-black tree: [qp_rbtree_find],
    [qp_rbtree_min], [qp_rbtree_max] and the descent of [qp_rbtree_insert].
    Each terminates on every tree and leaves the memory alone. *)

From S2P Require Import Prelude RbModel RbTree RbRep.
#[local] Open Scope Z_scope.
#[local] Set Default Proof Using "All".

(** The size of a subtree bounds the rounds a descent from it can take. *)
Definition tsize (tr : tree) : nat := length (addrs tr).

Lemma tsize_node a c l k d r : tsize (Node a c l k d r) = S (tsize l + tsize r).
Proof. unfold tsize. cbn. by rewrite length_app. Qed.

Section search.
Context (t : Z) (F : gset Z) (h0 : gmap Z qp_rbtree_node_s) (r0 : gmap Z Z).
Context (sp : Z) (tr : tree) (s : rbmem).
Context (H : rbt t F h0 r0 sp tr s).
#[local] Abbreviation nil := (t + offsetof_sentinel).

Lemma rbt_at C T : plug C T = tr → rbt t F h0 r0 sp (plug C T) s.
Proof. intros ->. exact H. Qed.

Lemma tsize_fuel C T : plug C T = tr → (tsize T < 2 + size (nodes s))%nat.
Proof.
  intros <-. pose proof (rbt_nodup _ _ _ _ _ _ _ H) as Hn. rewrite !NoDup_cons in Hn.
  assert (length (addrs (plug C T)) ≤ size (nodes s))%nat as Hle.
  { apply NoDup_length_size; [tauto|]. intros a. by eapply rbt_dom. }
  rewrite addrs_plug, length_app in Hle. unfold tsize. lia.
Qed.

(** The search walk is at [T], where key [x] belongs. *)
Definition walk_inv (x : Z) (n : nat) (node : Z) (s' : rbmem) : Prop :=
  s' = s ∧ ∃ C T, plug C T = tr ∧ node = ptr nil T ∧ n = tsize T ∧ key_fits x C.

Lemma find_correct x :
  bst tr →
  wp (qp_rbtree_find t x) s (λ r s', s' = s ∧
    ((r = NULL ∧ u32 x ∉ keys (inorder tr)) ∨
     (r ≠ NULL ∧ ∃ d, (r, (u32 x, d)) ∈ inorder tr))).
Proof.
  intros Hbst. pose proof (rbt_null _ _ _ _ _ _ _ H) as Ht.
  destruct (rbt_lookup_top _ _ _ _ _ [] tr s H) as (Hroot & _ & Hsent). cbn in Hroot.
  unfold qp_rbtree_find, loop_fuel. rewrite qp_rbtree_nil_eq by done.
  rb_step. rb_step. rb_step. rb_step. wp_step. rb_step.
  eapply wp_mono.
  { eapply (wp_loop (walk_inv (u32 x)) _ (λ r s', s' = s ∧
      ((r = nil ∧ u32 x ∉ keys (inorder tr)) ∨
       (r ≠ nil ∧ r ≠ NULL ∧ ∃ d, (r, (u32 x, d)) ∈ inorder tr)))).
    - intros n node s' (-> & C & T & HT & -> & -> & Hb).
      destruct T as [|a c l k d r]; cbn [ptr].
      { rewrite Z.eqb_refl. rb_step. split; [done|]. left. split; [done|].
        rewrite <-HT. by apply key_fits_not_in. }
      destruct (rbt_lookup _ _ _ _ _ C a c l k d r s (rbt_at _ _ HT)) as (Ha & Hn & Hnil).
      rb_step. rb_step. rb_step. rewrite <-HT in Hbst.
      destruct (u32 x =? k) eqn:Ek; [apply Z.eqb_eq in Ek | apply Z.eqb_neq in Ek].
      { rb_step. split; [done|]. right. split_and!; [done..|]. exists d.
        rewrite <-HT, inorder_plug, Ek. cbn. set_solver. }
      rb_step. destruct (u32 x <? k) eqn:El; [apply Z.ltb_lt in El | apply Z.ltb_ge in El].
      + rb_step. rb_step. exists (tsize l). split; [rewrite tsize_node; lia|].
        split; [done|]. eexists (FL a c k d r :: C), l.
        split_and!; [done..|]. by eapply key_fits_left.
      + rb_step. rb_step. exists (tsize r). split; [rewrite tsize_node; lia|].
        split; [done|]. eexists (FR a c l k d :: C), r.
        split_and!; [done..|]. eapply key_fits_right; [done..|lia].
    - split; [done|]. exists [], tr. split_and!; [done..|]. split; set_solver.
    - by apply (tsize_fuel []). }
  intros r s' (-> & [(-> & Hx)|(Hr & Hr' & Hx)]); rb_step; (split; [done|]).
  - left. by rewrite Z.eqb_refl.
  - right. by rewrite (proj2 (Z.eqb_neq _ _)).
Qed.

(** The descent of [qp_rbtree_insert] finds the key, or the free slot. *)
Lemma insert_walk_correct node nd n C a c l k d r :
  bst tr → node ≠ NULL → nodes s !! node = Some nd →
  plug C (Node a c l k d r) = tr → key_fits (key nd) C → (tsize tr < n)%nat →
  wp (loop n (insert_walk_body t node) a) s (λ o s', s' = s ∧
    match o with
    | None => key nd ∈ keys (inorder tr)
    | Some cur => ∃ f C', faddr f = cur ∧ plug (f :: C') Leaf = tr ∧ key_fits (key nd) (f :: C')
    end).
Proof.
  intros Hbst Hnode Hnd HT0 Hb0 Hfuel.
  eapply (wp_loop (λ n node s', ∃ C a c l k d r,
    s' = s ∧ plug C (Node a c l k d r) = tr ∧ node = a ∧
    n = tsize (Node a c l k d r) ∧ key_fits (key nd) C)).
  2: { do 7 eexists. split_and!; [done|exact HT0|done..]. }
  2: { rewrite <-HT0 in Hfuel. unfold tsize in *. rewrite addrs_plug, length_app in Hfuel. lia. }
  clear dependent n C a c l k d r.
  intros n ? s' (C & a & c & l & k & d & r & -> & HT & -> & -> & Hb).
  destruct (rbt_lookup _ _ _ _ _ C a c l k d r s (rbt_at _ _ HT)) as (Ha & Hn & Hnil).
  unfold insert_walk_body. rewrite qp_rbtree_nil_eq by apply H.
  rb_step. rb_step. rb_step. rb_step.
  destruct (key nd =? k) eqn:Ek; [apply Z.eqb_eq in Ek | apply Z.eqb_neq in Ek].
  { rb_step. split; [done|]. rewrite <-HT, inorder_plug. apply elem_of_keys.
    exists (a, (k, d)). split; [done|]. cbn. set_solver. }
  rewrite <-HT in Hbst. rb_step.
  destruct (key nd <? k) eqn:El; [apply Z.ltb_lt in El | apply Z.ltb_ge in El]; rb_step.
  - pose proof (key_fits_left _ _ _ _ _ _ _ _ Hbst Hb El) as Hbl.
    destruct l as [|a' c' l' k' d' r']; cbn [ptr].
    + rb_if. rb_step. split; [done|]. eexists (FL a c k d r), C. done.
    + destruct (rbt_lookup _ _ _ _ _ (FL a c k d r :: C) _ _ _ _ _ _ s (rbt_at _ _ HT)) as (_ & _ & ?).
      rb_if. rb_step. exists (tsize (Node a' c' l' k' d' r')).
      split; [rewrite (tsize_node a); lia|]. do 7 eexists. split_and!; [done| |done..].
      exact HT.
  - pose proof (key_fits_right _ _ _ _ _ _ _ _ Hbst Hb ltac:(lia)) as Hbr.
    destruct r as [|a' c' l' k' d' r']; cbn [ptr].
    + rb_if. rb_step. split; [done|]. eexists (FR a c l k d), C. done.
    + destruct (rbt_lookup _ _ _ _ _ (FR a c l k d :: C) _ _ _ _ _ _ s (rbt_at _ _ HT)) as (_ & _ & ?).
      rb_if. rb_step. exists (tsize (Node a' c' l' k' d' r')).
      split; [rewrite (tsize_node a); lia|]. do 7 eexists. split_and!; [done| |done..].
      exact HT.
Qed.

(** The leftmost and the rightmost node of a subtree. *)
Lemma min_loop_correct C T n :
  plug C T = tr → T ≠ Leaf → (tsize T < n)%nat →
  wp (loop n (λ node,
        l ← ld left node;
        if l =? nil then mret (inr node) else
        l ← ld left node; mret (inl l)) (ptr nil T)) s
     (λ m s', s' = s ∧ ∃ C' c k d r, T = plug C' (Node m c Leaf k d r) ∧ cleft C' = []).
Proof.
  intros HT0 HL Hn.
  eapply (wp_loop (λ n m s', s' = s ∧ ∃ C' a c l k d r,
    T = plug C' (Node a c l k d r) ∧ m = a ∧ cleft C' = [] ∧ n = tsize (Node a c l k d r))).
  3: done.
  2: { split; [done|]. destruct T as [|a c l k d r]; [done|]. exists [].
       do 6 eexists. split_and!; done. }
  clear Hn n HL.
  intros n m s' (-> & C' & a & c & l & k & d & r & HT & -> & HC & ->).
  rewrite HT, <-plug_app in HT0.
  destruct (rbt_lookup _ _ _ _ _ _ _ _ _ _ _ _ s (rbt_at _ _ HT0)) as (Ha & Hn & Hnil).
  rb_step. rb_step. destruct l as [|a' c' l' k' d' r']; cbn [ptr].
  - rb_if. rb_step. split; [done|]. eauto 10.
  - destruct (rbt_lookup _ _ _ _ _ (FL a c k d r :: C' ++ C) _ _ _ _ _ _ s (rbt_at _ _ HT0)) as (_ & _ & ?).
    rb_if. repeat rb_step. exists (tsize (Node a' c' l' k' d' r')).
    split; [rewrite (tsize_node a); lia|]. split; [done|].
    exists (FL a c k d r :: C'). do 6 eexists. split_and!; [exact HT|done..].
Qed.

Lemma max_loop_correct C T n :
  plug C T = tr → T ≠ Leaf → (tsize T < n)%nat →
  wp (loop n (λ node,
        r ← ld right node;
        if r =? nil then mret (inr node) else
        r ← ld right node; mret (inl r)) (ptr nil T)) s
     (λ m s', s' = s ∧ ∃ C' c l k d, T = plug C' (Node m c l k d Leaf) ∧ cright C' = []).
Proof.
  intros HT0 HL Hn.
  eapply (wp_loop (λ n m s', s' = s ∧ ∃ C' a c l k d r,
    T = plug C' (Node a c l k d r) ∧ m = a ∧ cright C' = [] ∧ n = tsize (Node a c l k d r))).
  3: done.
  2: { split; [done|]. destruct T as [|a c l k d r]; [done|]. exists [].
       do 6 eexists. split_and!; done. }
  clear Hn n HL.
  intros n m s' (-> & C' & a & c & l & k & d & r & HT & -> & HC & ->).
  rewrite HT, <-plug_app in HT0.
  destruct (rbt_lookup _ _ _ _ _ _ _ _ _ _ _ _ s (rbt_at _ _ HT0)) as (Ha & Hn & Hnil).
  rb_step. rb_step. destruct r as [|a' c' l' k' d' r']; cbn [ptr].
  - rb_if. rb_step. split; [done|]. eauto 10.
  - destruct (rbt_lookup _ _ _ _ _ (FR a c l k d :: C' ++ C) _ _ _ _ _ _ s (rbt_at _ _ HT0)) as (_ & _ & ?).
    rb_if. repeat rb_step. exists (tsize (Node a' c' l' k' d' r')).
    split; [rewrite (tsize_node a); lia|]. split; [done|].
    exists (FR a c l k d :: C'). do 6 eexists. split_and!; [exact HT|done..].
Qed.

Lemma is_empty_correct :
  wp (qp_rbtree_is_empty t) s (λ b s', s' = s ∧ (b = true ↔ tr = Leaf)).
Proof.
  destruct (rbt_lookup_top _ _ _ _ _ [] tr s H) as (Hroot & Ht & _). cbn in Hroot.
  unfold qp_rbtree_is_empty. rewrite qp_rbtree_nil_eq by done. rb_if.
  repeat rb_step. split; [done|]. rewrite Z.eqb_eq. split; [|by intros ->].
  intros Heq. pose proof (rbt_at [] tr eq_refl) as H'.
  destruct tr as [|a c l k d r]; [done|].
  by destruct (rbt_lookup _ _ _ _ _ [] a c l k d r s H') as (_ & _ & Hn).
Qed.

(** The shared head of [qp_rbtree_min] and [qp_rbtree_max]: on a tree that is
    not empty they start at [node], NULL standing for the root. *)
Lemma start_correct C T node (k : Z → M Z) Q :
  plug C T = tr → T ≠ Leaf → node = ptr nil T ∨ (node = NULL ∧ C = []) →
  wp (k (ptr nil T)) s Q →
  wp (empty ← qp_rbtree_is_empty t;
      if (empty : bool) then mret NULL else
      node ← (if node =? NULL then get_root t else mret node); k node) s Q.
Proof.
  intros HT HL Hnode HQ. rb_step.
  eapply wp_mono; [apply is_empty_correct|]. cbn. intros b s' (-> & Hb).
  destruct b; [by destruct (plug_not_leaf C T HL); rewrite HT; apply Hb|].
  destruct (rbt_lookup_top _ _ _ _ _ [] tr s H) as (Hroot & Ht & _). cbn in Hroot.
  rb_step. destruct Hnode as [->|[-> ->]].
  - destruct T as [|a c l k' d r]; [done|]. cbn [ptr] in *.
    destruct (rbt_lookup _ _ _ _ _ C a c l k' d r s (rbt_at _ _ HT)) as (_ & ? & _).
    rb_if. by rb_step.
  - cbn [plug] in HT. rewrite HT in HQ. rb_if. by repeat rb_step.
Qed.

(** From a node of the tree, [qp_rbtree_min] and [qp_rbtree_max] reach the
    ends of its subtree; from NULL, those of the whole tree. *)
Lemma min_correct C T node :
  plug C T = tr → T ≠ Leaf → node = ptr nil T ∨ (node = NULL ∧ C = []) →
  wp (qp_rbtree_min t node) s (λ m s', s' = s ∧ ∃ C' c k d r,
    T = plug C' (Node m c Leaf k d r) ∧ cleft C' = []).
Proof.
  intros HT HL Hnode. unfold qp_rbtree_min. rewrite qp_rbtree_nil_eq by apply H.
  eapply start_correct; [done..|]. unfold loop_fuel. do 2 wp_step.
  eapply min_loop_correct; [done..|]. by eapply tsize_fuel.
Qed.

Lemma max_correct C T node :
  plug C T = tr → T ≠ Leaf → node = ptr nil T ∨ (node = NULL ∧ C = []) →
  wp (qp_rbtree_max t node) s (λ m s', s' = s ∧ ∃ C' c l k d,
    T = plug C' (Node m c l k d Leaf) ∧ cright C' = []).
Proof.
  intros HT HL Hnode. unfold qp_rbtree_max. rewrite qp_rbtree_nil_eq by apply H.
  eapply start_correct; [done..|]. unfold loop_fuel. do 2 wp_step.
  eapply max_loop_correct; [done..|]. by eapply tsize_fuel.
Qed.
End search.
