(* ===== verification/RbInsertFix.v ===== *)
(** The rebalancing of an insertion: [qp_rbtree_insert_fix] restores the
    red-black invariant from a red node that may sit under a red parent, keeps
    the in-order contents, and terminates because every round that goes on moves
    the cursor up. *)

From S2P Require Import Prelude RbModel RbTree RbRep.
From stdpp Require Import sorting.
#[local] Open Scope Z_scope.

Section insert_fix.
Context (t : Z) (F : gset Z) (h0 : gmap Z qp_rbtree_node_s) (r0 : gmap Z Z).
Context (sp : Z) (L : list entry).
#[local] Abbreviation nil := (t + offsetof_sentinel).
#[local] Abbreviation rbt := (rbt t F h0 r0).
Implicit Types (C : ctx) (s : rbmem).

(** The node is red, everything is balanced but for its parent's color. *)
Definition fix_inv (n : nat) (node : Z) (s : rbmem) : Prop :=
  ∃ C A k d B m,
    n = length C ∧ rbt sp (plug C (Node node Red A k d B)) s ∧
    rb Red m A ∧ rb Red m B ∧ crb C m ∧
    inorder (plug C (Node node Red A k d B)) = L.

(** On leaving the loop only the root may still be red. *)
Definition fix_post (s : rbmem) : Prop :=
  ∃ tr n, rbt sp tr s ∧ rb Black n tr ∧ inorder tr = L ∧ tr ≠ Leaf.

(** The postcondition of one round of the loop that started at depth [n]. *)
Definition step_post (n : nat) (r : Z + unit) (s : rbmem) : Prop :=
  match r with
  | inl node' => ∃ n', (n' < n)%nat ∧ fix_inv n' node' s
  | inr _ => fix_post s
  end.

Lemma fix_done f C x A k d B m s :
  rbt sp (plug (f :: C) (Node x Red A k d B)) s → fcolor f = Black →
  rb Red m A → rb Red m B → crb (f :: C) m →
  inorder (plug (f :: C) (Node x Red A k d B)) = L → fix_post s.
Proof.
  intros H Hf HA HB HC HL.
  destruct (rb_plug (f :: C) m (Node x Red A k d B) HC) as [n Hn].
  { cbn. by rewrite Hf. }
  exists (plug (f :: C) (Node x Red A k d B)), n. split_and!; [done..| |done|].
  - by eapply rb_black.
  - by apply plug_not_leaf.
Qed.

(** The loop goes on at [node'] with the tree of [H]; the balance of its parts
    is found among the hypotheses. *)
Ltac fix_continue H HL :=
  lazymatch goal with
  | |- step_post _ (inl ?node') _ => rb_focus H node'
  end;
  lazymatch type of H with
  | rbt _ (plug ?C ?T) _ =>
      exists (length C); split; [cbn; clear; lia|];
      do 6 eexists; split_and!; [reflexivity | exact H | ..]
  end;
  [ .. | rewrite <-HL, !inorder_plug; cbn; repeat (rewrite <-?app_assoc; cbn); reflexivity ];
  cbn; try (eexists; split_and!; [reflexivity | ..]); eauto using rb_black, rb_weaken.

(** One round: the node is the root, or its parent is black, or the uncle is
    red and the cursor climbs, or one or two rotations settle it. *)
Lemma insert_fix_round n node s :
  fix_inv n node s → wp (qp_rbtree_insert_fix_body t node) s (step_post n).
Proof.
  intros (C & A & k & d & B & m & -> & H & HA & HB & HC & HL).
  unfold qp_rbtree_insert_fix_body.
  destruct C as [|f C].
  { rb_facts H. rb_run. cbn. exists (Node node Red A k d B), m. done. }
  destruct (fcolor f) eqn:Hf; [|].
  2: { pose proof (fix_done _ _ _ _ _ _ _ _ _ H Hf HA HB HC HL) as Hdone.
       destruct f as [p ? kp dp Z|p ? Z kp dp]; cbn in Hf; subst; rb_facts H; by rb_run. }
  destruct f as [p ? kp dp Z|p ? Z kp dp]; cbn in Hf; subst; cbn in HC.
  all: destruct HC as (HZ & Hg & HC).
  all: destruct C as [|[x c kg dg U|x c U kg dg] C]; cbn in Hg; [done| |]; subst;
    destruct HC as (HU & HC); cbn [fsib] in *.
  all: destruct U as [|u [] ul ku du ur]; [|cbn in HU; destruct HU as (_ & Hul & Hur)|].
  all: rb_facts H; rb_run; fix_continue H HL.
Qed.

Theorem insert_fix_correct C x A k d B m s :
  rbt sp (plug C (Node x Red A k d B)) s →
  rb Red m A → rb Red m B → crb C m →
  inorder (plug C (Node x Red A k d B)) = L →
  wp (qp_rbtree_insert_fix t x) s (λ _ s',
    ∃ tr, rbt sp tr s' ∧ rbtree tr ∧ inorder tr = L).
Proof.
  intros H HA HB HC HL. unfold qp_rbtree_insert_fix, loop_fuel.
  do 2 wp_step. wp_step.
  eapply wp_mono.
  { eapply (wp_loop fix_inv).
    - intros n node s1 Hinv. eapply wp_mono; [by apply insert_fix_round|].
      intros r s2 Hr. exact Hr.
    - exists C, A, k, d, B, m. split_and!; [reflexivity|done..].
    - by eapply rbt_fuel. }
  clear dependent s. intros [] s (tr & n & H & Hn & HL' & Hl).
  destruct tr as [|a c l k' d' r]; [done|].
  change (rbt sp (plug [] (Node a c l k' d' r)) s) in H.
  rb_facts H. rb_run. eexists. split_and!; [exact H | by eapply rb_blacken | done].
Qed.
End insert_fix.
