(* ===== verification/RbInsert.v ===== *)
(** Insertion into the red-black tree: [qp_rbtree_insert] adds the node at its
    place in key order, or leaves the tree alone when the key is there already. *)

From S2P Require Import Prelude RbModel RbTree RbRep RbSearch RbInsertFix.
#[local] Open Scope Z_scope.

Section insert.
Context (t : Z) (F : gset Z) (h0 : gmap Z qp_rbtree_node_s) (r0 : gmap Z Z).
Context (sp : Z).
#[local] Abbreviation nil := (t + offsetof_sentinel).
#[local] Abbreviation rbt := (rbt t F h0 r0 sp).
Implicit Types (C : ctx) (s : rbmem).

(** A new red leaf hung into the free slot below [f]. *)
Lemma rbt_attach f C node k d s s' :
  rbt (plug (f :: C) Leaf) s →
  node ∈ F → node ∉ NULL :: nil :: caddrs (f :: C) →
  nodes s' !! node = Some (MkNode nil nil (faddr f) d k QP_RBTREE_RED) →
  nodes s' !! faddr f = upd_child f node <$> nodes s !! faddr f →
  (∀ a, a ≠ node → a ≠ faddr f → nodes s' !! a = nodes s !! a) →
  roots s' = roots s →
  rbt (plug (f :: C) (Node node Red Leaf k d Leaf)) s'.
Proof.
  intros H HF Hfresh Hnode Hf Hout Hroots.
  pose proof (rbt_distinct _ _ _ _ _ _ _ _ H) as Hnd. cbn [addrs app] in Hnd.
  assert (faddr f ∈ caddrs (f :: C)) as HfC by (rewrite caddrs_cons; left).
  assert (∀ a, a ∈ caddrs (f :: C) → a ≠ node) as Hne by set_solver.
  assert (addrs (plug (f :: C) (Node node Red Leaf k d Leaf)) ≡ₚ node :: caddrs (f :: C)) as Hp
    by (by rewrite addrs_plug).
  assert (addrs (plug (f :: C) Leaf) ≡ₚ caddrs (f :: C)) as Hp0 by (by rewrite addrs_plug).
  destruct H as [Hroot Hs Hr _ ? Hft Hfr Hro].
  apply rep_plug in Hr as [_ Hc]. rewrite !NoDup_cons in Hnd.
  split.
  - rewrite Hroots, Hroot. f_equal. by apply ptr_plug_eq.
  - destruct Hs as (n & Hn1 & ?). exists n. split; [|done].
    rewrite Hout; [done|set_solver|]. intros Heq. rewrite <-Heq in HfC. tauto.
  - apply rep_plug. split; [done|]. eapply crep_rechild, Hc.
    + tauto.
    + intros a Ha Hne'. apply Hout; [by apply Hne|done].
    + intros ? ? [= <- <-]. done.
  - rewrite Hp, !NoDup_cons. set_solver.
  - done.
  - intros a. rewrite Hp. intros [->|[->|Ha]%elem_of_cons]%elem_of_cons; [|done|].
    + apply Hft. left.
    + apply Hft. rewrite Hp0. by right.
  - intros a Ha. rewrite <-Hfr by done. apply Hout; [by intros ->|].
    intros ->. apply Ha, Hft. rewrite Hp0. by right.
  - intros u Hu. rewrite Hroots; auto.
Qed.

(** The first node of an empty tree becomes its black root. *)
Lemma rbt_first node k d s s' :
  rbt Leaf s → node ∈ F → node ∉ [NULL; nil] →
  nodes s' !! node = Some (MkNode nil nil nil d k QP_RBTREE_BLACK) →
  (∀ a, a ≠ node → nodes s' !! a = nodes s !! a) →
  roots s' = <[t := node]> (roots s) →
  rbt (Node node Black Leaf k d Leaf) s'.
Proof.
  intros [Hroot Hs _ Hnd ? Hft Hfr Hro] HF Hfresh Hnode Hout Hroots.
  cbn [addrs] in *. rewrite !NoDup_cons in Hnd. split.
  - rewrite Hroots. apply lookup_insert_eq.
  - destruct Hs as (n & ? & ?). exists n. rewrite Hout by set_solver. done.
  - done.
  - cbn. rewrite !NoDup_cons. set_solver.
  - done.
  - cbn. set_solver.
  - intros a Ha. rewrite Hout by (by intros ->). auto.
  - intros u Hu. rewrite Hroots, lookup_insert_ne by done. auto.
Qed.

(** The contents after an insertion that changed the tree. *)
Definition inserted (L : list entry) (e : entry) (s : rbmem) : Prop :=
  ∃ tr l1 l2, rbt tr s ∧ rbtree tr ∧ bst tr ∧ L = l1 ++ l2 ∧ inorder tr = l1 ++ e :: l2.

Lemma inserted_intro f C node k d tr s :
  rbt tr s → rbtree tr → key_fits k (f :: C) → bst (plug (f :: C) Leaf) →
  inorder tr = inorder (plug (f :: C) (Node node Red Leaf k d Leaf)) →
  inserted (inorder (plug (f :: C) Leaf)) (node, (k, d)) s.
Proof.
  unfold bst. rewrite !inorder_plug. intros H Hrb [Hl Hr] Hbst Hin.
  exists tr, (cleft (f :: C)), (cright (f :: C)). split_and!; [done..| |done|done].
  unfold bst. rewrite Hin. by apply sorted_insert.
Qed.

(** The tail of [qp_rbtree_insert], from the free slot it has found. *)
Definition insert_tail (node cur : Z) : M Z :=
  nk ← ld key node; ck ← ld key cur;
  (if nk <? ck then
     cl ← ld left cur; st (upd_left cl) node;;
     st (upd_right (qp_rbtree_nil t)) node;;
     st (upd_left node) cur
   else
     cr ← ld right cur; st (upd_right cr) node;;
     st (upd_left (qp_rbtree_nil t)) node;;
     st (upd_right node) cur);;
  st (upd_parent cur) node;;
  qp_rbtree_set_red node;;
  p ← qp_rbtree_parent node;
  pred ← qp_rbtree_is_red p;
  (if (pred : bool) then qp_rbtree_insert_fix t node else mret tt);;
  mret node.

Lemma col_red c : (col c =? QP_RBTREE_RED) = bool_decide (c = Red).
Proof. by destruct c. Qed.

Lemma insert_tail_attach f C s node nd (Q : Z → rbmem → Prop) :
  rbt (plug (f :: C) Leaf) s → key_fits (key nd) (f :: C) →
  node ∈ F → node ∉ NULL :: nil :: caddrs (f :: C) → nodes s !! node = Some nd →
  (∀ s', rbt (plug (f :: C) (Node node Red Leaf (key nd) (data nd) Leaf)) s' →
     wp (if bool_decide (fcolor f = Red) then qp_rbtree_insert_fix t node else mret tt)
       s' (λ _, Q node)) →
  wp (insert_tail node (faddr f)) s Q.
Proof.
  intros H Hb HF Hfresh Hnd HQ. unfold insert_tail, qp_rbtree_set_red.
  destruct nd as [nl nr np ndt nk nc]. cbn [key data] in *.
  assert (node ≠ NULL) by (clear -Hfresh; set_solver).
  assert (∀ a, a ∈ caddrs (f :: C) → a ≠ node) as Hne by (clear -Hfresh; set_solver).
  assert (faddr f ≠ node) by (apply Hne; rewrite caddrs_cons; left).
  rewrite qp_rbtree_nil_eq by apply H.
  destruct f as [a c k d r|a c l k d]; rb_facts H; cbn [faddr] in *;
    destruct Hb as [Hlo Hhi]; rb_step; rb_step; rb_step; rb_step.
  - specialize (Hhi (a, (k, d)) ltac:(left)). cbn in Hhi.
    rewrite (proj2 (Z.ltb_lt _ _) Hhi).
    repeat rb_step. rewrite col_red. eapply wp_mono; [apply HQ|by intros; rb_step].
    (eapply rbt_attach; [exact H | done | done | by lk | cbn [faddr]; by lk; rewrite Hat | |done]).
    cbn [faddr]. intros b ? ?. by lk.
  - assert (k < nk) as Hlt.
    { apply (Hlo (a, (k, d))). cbn. set_solver. }
    rewrite (proj2 (Z.ltb_ge _ _)) by lia.
    repeat rb_step. rewrite col_red. eapply wp_mono; [apply HQ|by intros; rb_step].
    (eapply rbt_attach; [exact H | done | done | by lk | cbn [faddr]; by lk; rewrite Hat | |done]).
    cbn [faddr]. intros b ? ?. by lk.
Qed.

Lemma insert_correct tr s node nd :
  rbt tr s → rbtree tr → bst tr →
  node ∈ F → node ∉ NULL :: nil :: addrs tr → nodes s !! node = Some nd →
  wp (qp_rbtree_insert t node) s (λ r s',
    (key nd ∈ keys (inorder tr) ∧ r = NULL ∧ s' = s) ∨
    ((key nd ∉ keys (inorder tr)) ∧ r = node ∧
     inserted (inorder tr) (node, (key nd, data nd)) s')).
Proof.
  intros H Hrb Hbst HF Hfresh Hnd.
  assert (node ≠ NULL) as Hnull by set_solver.
  assert (node ≠ nil) as Hnil by set_solver.
  destruct nd as [nl nr np ndt nk nc]. cbn [key data].
  unfold qp_rbtree_insert. rb_if. rb_step.
  eapply wp_mono; [by eapply is_empty_correct|]. cbn. intros b s' (-> & Hb).
  destruct (rbt_lookup_top _ _ _ _ _ [] _ _ H) as (Hroot & Ht & Hsent). cbn in Hroot.
  destruct tr as [|a c l k d r] eqn:Etr.
  - destruct b; [|naive_solver].
    cbn [ptr] in Hroot. unfold qp_rbtree_set_black.
    rb_step. rb_if. repeat rb_step. right.
    split_and!; [set_solver | done |].
    eexists (Node node Black Leaf nk ndt Leaf), [], [].
    split_and!; [|eexists 1%nat, 0%nat; done|repeat constructor|done|done].
    eapply rbt_first; [exact H | done | set_solver | by look | |done].
    intros x Hx. by lk.
  - destruct b; [naive_solver|]. rewrite <-Etr in *. cbn iota.
    do 4 rb_step. unfold loop_fuel. wp_step. rb_step.
    replace (ptr nil tr) with a by (by rewrite Etr).
    eapply wp_mono.
    { eapply (insert_walk_correct _ _ _ _ _ _ _ H _ _ _ []);
        [done..|by rewrite Etr|split; set_solver|]. by eapply (tsize_fuel _ _ _ _ _ _ _ H []). }
    clear Etr Hb. intros o s' (-> & Ho). cbn [key] in Ho. destruct o as [cur|].
    2: { repeat rb_step. by left. }
    destruct Ho as (f & C & <- & HfC & Hfit). rewrite <-HfC in *.
    change (wp (insert_tail node (faddr f)) s (λ r s',
      (nk ∈ keys (inorder (plug (f :: C) Leaf)) ∧ r = NULL ∧ s' = s) ∨
      ((nk ∉ keys (inorder (plug (f :: C) Leaf))) ∧ r = node ∧
       inserted (inorder (plug (f :: C) Leaf)) (node, (nk, ndt)) s'))).
    rewrite addrs_plug in Hfresh. cbn [addrs app] in Hfresh.
    eapply (insert_tail_attach _ _ _ _ (MkNode nl nr np ndt nk nc)); [done..|]. cbn [key data]. intros s1 H1.
    destruct (rb_unplug (f :: C) Leaf Hrb) as (m & HC & Hm). cbn in Hm. subst m.
    pose proof (key_fits_not_in _ _ Hfit).
    case_bool_decide as Hf.
    + eapply wp_mono; [by eapply insert_fix_correct|].
      intros _ s'' (tr' & H'' & Hrb' & HL). right. split_and!; [done..|].
      by eapply inserted_intro.
    + rb_step. right. split_and!; [done..|]. eapply inserted_intro; [done| |done..].
      eapply rb_plug; [done|]. cbn [rb ccolor]. split_and!; [by destruct (fcolor f)|done..].
Qed.
End insert.
