(* ===== verification/RbDeleteFix.v ===== *)
(** The rebalancing of a deletion: [qp_rbtree_delete_fix] repays the black node
    that is missing at the cursor, which may be the sentinel; it keeps the
    in-order contents and terminates because every round that goes on moves the
    cursor up or onto a red node. *)

From S2P Require Import Prelude RbModel RbTree RbRep.
#[local] Open Scope Z_scope.

Section delete_fix.
Context (t : Z) (F : gset Z) (h0 : gmap Z qp_rbtree_node_s) (r0 : gmap Z Z).
Context (sp : Z) (L : list entry).
#[local] Abbreviation nil := (t + offsetof_sentinel).
#[local] Abbreviation rbt := (rbt t F h0 r0).
Implicit Types (C : ctx) (s : rbmem).

(** What the code reads at a cursor, the sentinel included. *)
Lemma rbt_cursor C T s :
  rbt sp (plug C T) s → ptr nil T ≠ NULL ∧ ∃ n, nodes s !! ptr nil T = Some n ∧
    parent n = (match T with Leaf => sp | _ => pptr nil C end) ∧
    color_ n = col (tcolor T).
Proof.
  intros H. destruct T as [|a c l k d r].
  - pose proof (rbt_distinct _ _ _ _ _ _ _ _ H) as Hnd.
    destruct (rbt_sent _ _ _ _ _ _ _ H) as (n & Hn & Hc & Hp).
    rewrite !NoDup_cons in Hnd. split; [set_solver|]. by exists n.
  - destruct (rbt_lookup _ _ _ _ _ _ _ _ _ _ _ _ _ H) as (Ha & Hn & _).
    split; [done|]. eexists. by split_and!.
Qed.

Lemma wp_parent_sub C T s (Q : Z → rbmem → Prop) :
  rbt sp (plug C T) s → (T = Leaf → sp = pptr nil C) →
  Q (pptr nil C) s → wp (qp_rbtree_parent (ptr nil T)) s Q.
Proof.
  intros H Hsp HQ. destruct (rbt_cursor _ _ _ H) as (? & n & Hn & Hp & _).
  unfold qp_rbtree_parent. rb_if. rb_step. rewrite Hp. destruct T; [by rewrite Hsp|done].
Qed.

Lemma wp_is_black_sub C T s (Q : bool → rbmem → Prop) :
  rbt sp (plug C T) s → Q (bool_decide (tcolor T = Black)) s →
  wp (qp_rbtree_is_black (ptr nil T)) s Q.
Proof.
  intros H HQ. destruct (rbt_cursor _ _ _ H) as (? & n & Hn & _ & Hc).
  unfold qp_rbtree_is_black. rb_if. repeat rb_step. rewrite Hc. by destruct (tcolor T).
Qed.

(** The index bounds the rounds left: none at a red cursor. *)
Definition rounds C T : nat := match tcolor T with Red => O | Black => length C end.

Definition dfix_inv (n : nat) (node : Z) (s : rbmem) : Prop :=
  ∃ C T m, n = rounds C T ∧ node = ptr nil T ∧ rbt sp (plug C T) s ∧
    (T = Leaf → sp = pptr nil C) ∧ deficient m T ∧ crb C (S m) ∧
    inorder (plug C T) = L.

(** On leaving the loop the cursor is the root or red. *)
Definition dfix_post (node : Z) (s : rbmem) : Prop :=
  ∃ C T m, node = ptr nil T ∧ rbt sp (plug C T) s ∧ deficient m T ∧ crb C (S m) ∧
    inorder (plug C T) = L ∧ (C = [] ∨ tcolor T = Red).

Definition dstep_post (n : nat) (r : Z + Z) (s : rbmem) : Prop :=
  match r with
  | inl node' => ∃ n', (n' < n)%nat ∧ dfix_inv n' node' s
  | inr node' => dfix_post node' s
  end.

(** The last rotation restores the balance of the whole tree: the loop is
    sent to the root to end there. *)
Lemma dfix_to_root n C T m s :
  (0 < n)%nat → rbt sp (plug C T) s → T ≠ Leaf → rb (ccolor C) m T → crb C m →
  inorder (plug C T) = L →
  dstep_post n (inl (ptr nil (plug C T))) s.
Proof.
  intros Hn H HT Hrb HC HL. destruct (rb_plug _ _ _ HC Hrb) as [k Hk].
  exists O. split; [done|]. exists [], (plug C T), k.
  split_and!; [|done..| |by eapply rb_deficient|done|done].
  - unfold rounds. by destruct (tcolor _).
  - intros E. by destruct (plug_not_leaf C T HT).
Qed.

Lemma dfix_finish C T m s :
  rbt sp (plug C T) s → deficient m T → crb C (S m) → inorder (plug C T) = L →
  C = [] ∨ tcolor T = Red →
  wp (qp_rbtree_set_black (ptr nil T)) s (λ _ s',
    ∃ tr, rbt sp tr s' ∧ rbtree tr ∧ inorder tr = L).
Proof.
  intros H Hd HC HL HCT. destruct T as [|a c l k d r].
  - destruct HCT as [->|]; [|done]. cbn [ptr plug] in *.
    destruct (rbt_sent _ _ _ _ _ _ _ H) as (n & Hn & Hc & Hp).
    pose proof (rbt_nodup _ _ _ _ _ _ _ H) as Hnd. rewrite !NoDup_cons in Hnd.
    assert (nil ≠ NULL) by set_solver.
    unfold qp_rbtree_set_black. rb_if. rb_step.
    exists Leaf. split_and!; [|by exists O|done].
    destruct H as [? ? ? ? ? Hft ? ?].
    assert (nil ∈ F) by (apply Hft; left).
    split; [done| |done..| |done]; cbn.
    + eexists. split; [apply lookup_insert_eq|]. done.
    + intros a Ha. rewrite lookup_insert_ne; [auto|]. by intros <-.
  - eapply wp_set_black; [exact H|]. intros s' H'. eexists. split; [exact H'|].
    split; [|by rewrite <-HL, !inorder_plug].
    destruct HCT as [->|Hc]; [by eapply deficient_root|]. cbn in Hc. subst c.
    eapply rb_plug; [done|]. by apply deficient_blacken.
Qed.
(** Symbolic execution with an opaque subtree [X] of known top color under the
    program's pointer [ptr nil X]. *)
Ltac rb_find_sub_down X C T :=
  match T with
  | X => constr:((C, T))
  | Node ?b ?c ?l ?k ?d ?r => rb_find_sub_down X constr:(FL b c k d r :: C) l
  | Node ?b ?c ?l ?k ?d ?r => rb_find_sub_down X constr:(FR b c l k d :: C) r
  end.
Ltac rb_find_sub X C T :=
  match C with
  | _ => rb_find_sub_down X C T
  | ?f :: ?C' => let T' := eval cbn [fill] in (fill f T) in rb_find_sub X C' T'
  end.
Ltac rb_focus_sub H X :=
  lazymatch type of H with
  | rbt ?sp (plug ?C ?T) ?s =>
      let p := rb_find_sub X C T in
      lazymatch p with
      | (?C', ?T') => change (rbt sp (plug C' T') s) in H
      end
  end.
Ltac rb_sub :=
  lazymatch goal with
  | H : rbt _ (plug _ _) ?s |- wp (qp_rbtree_is_black (ptr _ ?X)) ?s _ =>
      rb_focus_sub H X; eapply wp_is_black_sub; [exact H|];
      match goal with
      | E : tcolor X = ?c |- _ => rewrite (bool_decide_true _ E) || rewrite E
      end
  | H : rbt _ (plug _ _) ?s |- wp (qp_rbtree_parent (ptr _ ?X)) ?s _ =>
      rb_focus_sub H X; eapply wp_parent_sub; [exact H | assumption | cbn [pptr faddr]]
  end.
Ltac rb_run' := repeat first [ rb_sub | progress rb_step | rb_call ].

(** The loop goes on at a node of the tree of [H], or is sent to the root. *)
Ltac dfix_balance :=
  repeat match goal with
         | H : rbt _ _ ?s |- _ => clear dependent s
         | H : _ ≠ _ |- _ => clear H
         | H : NoDup _ |- _ => clear H
         | H : not _ |- _ => clear H
         | H : inorder _ = _ |- _ => clear H
         end;
  cbn; repeat first [ reflexivity | split | eexists ];
  first [ eassumption
        | eapply deficient_rb; eassumption
        | eapply rb_tcolor_black; eassumption
        | eapply rb_weaken; eassumption
        | eapply rb_black; eassumption ].
Ltac dfix_continue H HL :=
  lazymatch goal with
  | |- dstep_post _ (inl (ptr _ (plug _ _))) _ =>
      eapply dfix_to_root; [clear; lia | exact H | done | ..]
  | |- dstep_post _ (inl ?node') _ =>
      rb_focus H node';
      lazymatch type of H with
      | rbt _ (plug ?C ?T) _ =>
          exists (rounds C T); split; [unfold rounds; cbn; clear; lia|];
          exists C, T; eexists; split_and!; [reflexivity | reflexivity | exact H | done | ..]
      end
  end;
  [ | | rewrite <-HL, !inorder_plug; cbn; repeat (rewrite <-?app_assoc; cbn); reflexivity ];
  (* the context fixes the black height *)
  [> .. | dfix_balance ]; dfix_balance.
Ltac dfix_nephews A Z :=
  let HcA := fresh "HcA" in let HcZ := fresh "HcZ" in
  destruct (tcolor_cases A) as [HcA|(? & ? & ? & ? & ? & ->)];
  destruct (tcolor_cases Z) as [HcZ|(? & ? & ? & ? & ? & ->)].

(** A red brother turned black by the first rotation leaves one of the cases of
    a black brother, below a red parent. *)
Lemma dfix_round_left C p pc pk pd B T m s :
  tcolor T = Black → rbt sp (plug (FL p pc pk pd B :: C) T) s →
  (T = Leaf → sp = p) → deficient m T → crb (FL p pc pk pd B :: C) (S m) →
  inorder (plug (FL p pc pk pd B :: C) T) = L →
  wp (qp_rbtree_delete_fix_left t (ptr nil T)) s
    (λ node', dstep_post (S (length C)) (inl node')).
Proof.
  intros HT H Hsp Hd HC HL. unfold qp_rbtree_delete_fix_left.
  destruct (rbt_cursor _ _ _ H) as (Hnull & _).
  destruct B as [|b [] BL bk bd BR]; cbn in HC.
  { destruct pc; by destruct HC as [? _]. }
  - destruct pc; [naive_solver|]. destruct HC as ((_ & HBL & HBR) & HC).
    destruct BL as [|a [] A ak ad D]; [done|naive_solver|].
    destruct HBL as (? & [= <-] & HA & HD). dfix_nephews A D.
    all: cbn in HA, HD; destruct_and?; rb_facts H; rb_run'; dfix_continue H HL.
  - assert (rb Black m BL ∧ rb Black m BR) as [HBL HBR].
    { destruct pc; destruct HC as ((? & [= <-] & ? & ?) & _); done. }
    dfix_nephews BL BR; destruct pc; destruct HC as [_ HC]; cbn in HBL, HBR; destruct_and?.
    all: rb_facts H; rb_run'; dfix_continue H HL.
Qed.

Lemma dfix_round_right C p pc pk pd B T m s :
  tcolor T = Black → rbt sp (plug (FR p pc B pk pd :: C) T) s →
  (T = Leaf → sp = p) → deficient m T → crb (FR p pc B pk pd :: C) (S m) →
  inorder (plug (FR p pc B pk pd :: C) T) = L →
  wp (qp_rbtree_delete_fix_right t (ptr nil T)) s
    (λ node', dstep_post (S (length C)) (inl node')).
Proof.
  intros HT H Hsp Hd HC HL. unfold qp_rbtree_delete_fix_right.
  destruct (rbt_cursor _ _ _ H) as (Hnull & _).
  destruct B as [|b [] BL bk bd BR]; cbn in HC.
  { destruct pc; by destruct HC as [? _]. }
  - destruct pc; [naive_solver|]. destruct HC as ((_ & HBL & HBR) & HC).
    destruct BR as [|a [] A ak ad D]; [done|naive_solver|].
    destruct HBR as (? & [= <-] & HA & HD). dfix_nephews A D.
    all: cbn in HA, HD; destruct_and?; rb_facts H; rb_run'; dfix_continue H HL.
  - assert (rb Black m BL ∧ rb Black m BR) as [HBL HBR].
    { destruct pc; destruct HC as ((? & [= <-] & ? & ?) & _); done. }
    dfix_nephews BL BR; destruct pc; destruct HC as [_ HC]; cbn in HBL, HBR; destruct_and?.
    all: rb_facts H; rb_run'; dfix_continue H HL.
Qed.
End delete_fix.
