(* ===== verification/RbDelete.v ===== *)
(** Deletion from the red-black tree: [qp_rbtree_delete] takes out the entry of
    the node it is given. A node with two children takes over key and data of
    its successor, whose node is unlinked and returned in its place. *)

From S2P Require Import Prelude RbModel RbTree RbRep RbSearch RbDeleteFix.
#[local] Open Scope Z_scope.

Section delete_fix.
Context (t : Z) (F : gset Z) (h0 : gmap Z qp_rbtree_node_s) (r0 : gmap Z Z).
Context (sp : Z) (L : list entry).
#[local] Abbreviation nil := (t + offsetof_sentinel).
#[local] Abbreviation rbt := (rbt t F h0 r0).
Implicit Types (C : ctx) (s : rbmem).

Lemma wp_is_left_sub f C T s (Q : bool → rbmem → Prop) :
  rbt sp (plug (f :: C) T) s → (T = Leaf → sp = faddr f) → fsib f ≠ Leaf →
  Q (match f with FL _ _ _ _ _ => true | FR _ _ _ _ _ => false end) s →
  wp (qp_rbtree_is_left (ptr nil T)) s Q.
Proof.
  intros H Hsp Hsib HQ. destruct (rbt_cursor _ _ _ _ _ _ _ _ H) as (? & _).
  rb_step. rb_step. eapply wp_parent_sub; [exact H | exact Hsp |].
  destruct f as [p c k d r|p c l k d]; cbn [pptr faddr fsib] in *.
  - destruct (rbt_lookup _ _ _ _ _ C _ _ _ _ _ _ _ H) as (? & ? & _).
    repeat rb_step. by rewrite Z.eqb_refl.
  - destruct (rbt_lookup _ _ _ _ _ C _ _ _ _ _ _ _ H) as (? & ? & _).
    pose proof (rbt_ptr_ne _ _ _ _ _ C _ _ _ _ _ _ _ H ltac:(by left)).
    repeat rb_step. by rb_if.
Qed.

Lemma dfix_round n node s :
  dfix_inv t F h0 r0 sp L n node s →
  wp (qp_rbtree_delete_fix_body t node) s (dstep_post t F h0 r0 sp L n).
Proof.
  intros (C & T & m & -> & -> & H & Hsp & Hd & HC & HL).
  destruct (rbt_lookup_top _ _ _ _ _ C _ _ H) as (Hroot & ? & _).
  unfold qp_rbtree_delete_fix_body. repeat rb_step.
  destruct C as [|f C].
  { cbn [plug]. rewrite Z.eqb_refl. rb_step. exists [], T, m. naive_solver. }
  pose proof (rbt_cursor_root _ _ _ _ _ _ _ _ H ltac:(done)).
  rb_if. rb_step. eapply wp_is_black_sub; [exact H|].
  case_bool_decide as HT; cbn [negb].
  2: { rb_step. exists (f :: C), T, m. split_and!; [done..|].
       right. by destruct (tcolor T). }
  assert (fsib f ≠ Leaf) as Hsib.
  { destruct f; cbn in *; intros ->; by destruct c; destruct HC as [? _]. }
  unfold rounds. rewrite HT. cbn [length].
  rb_step. eapply wp_is_left_sub; [exact H|exact Hsp|done|].
  destruct f as [p c k d r|p c l k d]; rb_step.
  - eapply wp_mono; [eapply dfix_round_left; done|]. intros ? ? ?. by rb_step.
  - eapply wp_mono; [eapply dfix_round_right; done|]. intros ? ? ?. by rb_step.
Qed.

Lemma delete_fix_correct C T m s :
  rbt sp (plug C T) s → (T = Leaf → sp = pptr nil C) →
  deficient m T → crb C (S m) → inorder (plug C T) = L →
  wp (qp_rbtree_delete_fix t (ptr nil T)) s (λ _ s',
    ∃ tr, rbt sp tr s' ∧ rbtree tr ∧ inorder tr = L).
Proof.
  intros H Hsp Hd HC HL. unfold qp_rbtree_delete_fix, loop_fuel. do 3 wp_step.
  eapply wp_mono.
  { eapply (wp_loop (dfix_inv t F h0 r0 sp L)).
    - intros n node s1 Hinv. eapply wp_mono; [by apply dfix_round|].
      intros r s2 Hr. exact Hr.
    - exists C, T, m. by split_and!.
    - unfold rounds. pose proof (rbt_fuel _ _ _ _ _ _ _ _ H). destruct (tcolor T); lia. }
  clear dependent s C T m.
  intros node s (C & T & m & -> & H & Hd & HC & HL & HCT). by eapply dfix_finish.
Qed.
End delete_fix.

Section delete.
Context (t : Z) (F : gset Z) (h0 : gmap Z qp_rbtree_node_s) (r0 : gmap Z Z).
#[local] Abbreviation nil := (t + offsetof_sentinel).
#[local] Abbreviation rbt := (rbt t F h0 r0).
Implicit Types (C : ctx) (s : rbmem).

(** Unlinking node [a], which has at most the child [u]: [u] (or the sentinel)
    gets [a]'s parent, [a]'s parent or the root field gets [u]. *)
Lemma rbt_splice sp C a c l k d r u s s' :
  rbt sp (plug C (Node a c l k d r)) s →
  (l = Leaf ∧ u = r) ∨ (r = Leaf ∧ u = l) →
  nodes s' !! ptr nil u = upd_parent (pptr nil C) <$> nodes s !! ptr nil u →
  (C = [] → u ≠ Leaf → nodes s' !! nil = nodes s !! nil) →
  (∀ f C', C = f :: C' →
     nodes s' !! faddr f = upd_child f (ptr nil u) <$> nodes s !! faddr f) →
  (∀ b, b ≠ ptr nil u → b ≠ pptr nil C → nodes s' !! b = nodes s !! b) →
  roots s' !! t = Some (ptr nil (plug C u)) →
  (∀ v, v ≠ t → roots s' !! v = roots s !! v) →
  rbt (match u with Leaf => pptr nil C | _ => sp end) (plug C u) s'.
Proof.
  intros H Hu Hup Hnil Hf Hout Hroot Hroots.
  pose proof (rbt_distinct _ _ _ _ _ _ _ _ H) as Hnd.
  assert (a :: addrs u ++ caddrs C ≡ₚ addrs (Node a c l k d r) ++ caddrs C) as Hp.
  { cbn. destruct Hu as [[-> ->]|[-> ->]]; cbn; by rewrite ?app_nil_r. }
  assert (NoDup (NULL :: nil :: a :: addrs u ++ caddrs C)) as Hnd' by (by rewrite Hp).
  rewrite !NoDup_cons, NoDup_app in Hnd'.
  destruct Hnd' as (Hnull & Hnil0 & Ha & Hndu & Hdisj & HndC).
  assert ((nil ∉ addrs u) ∧ nil ∉ caddrs C) as [Hnilu HnilC].
  { clear -Hnil0. set_solver. }
  assert (∀ b, b ∈ nil :: addrs (plug C u) → b ∈ F) as HF.
  { intros b [->|Hb]%elem_of_cons; [apply H; left|]. apply H. right.
    rewrite addrs_plug, <-Hp. rewrite addrs_plug in Hb. by right. }
  assert (∀ f C', C = f :: C' → faddr f ∈ caddrs C) as HfC.
  { intros f C' ->. rewrite caddrs_cons. left. }
  assert (pptr nil C = nil ∨ pptr nil C ∈ caddrs C) as HpC.
  { destruct C as [|f C']; [by left|right; by eapply HfC]. }
  assert (u = Leaf ∧ ptr nil u = nil ∨ u ≠ Leaf ∧ ptr nil u ∈ addrs u) as HpU.
  { destruct u; [by left|right; split; [done|left]]. }
  destruct H as [? Hs Hr Hn ? Hft Hfr Hro].
  apply rep_plug in Hr as [(_ & Hl & Hr') Hc].
  assert (rep nil (nodes s) a u) as Hru by (by destruct Hu as [[_ ->]|[_ ->]]).
  clear Hu Hl Hr' Hp Hnd Hn. split; [done|..].
  - destruct Hs as (n & Hn1 & Hn2 & Hn3). destruct HpU as [[-> Hpu]|[Hu Hpu]].
    + cbn [ptr] in *. rewrite Hn1 in Hup. by eexists.
    + exists n. split; [|by destruct u]. destruct C as [|f C']; [by rewrite Hnil|].
      rewrite Hout; [done|by intros E; rewrite E in Hnilu|]. intros E.
      specialize (HfC f C' eq_refl). by rewrite E in HnilC.
  - apply rep_plug. split.
    + eapply rep_reparent, Hru; [done| |done].
      intros b Hb Hne. apply Hout; [done|]. intros ->.
      destruct HpC as [E|HpC]; [by rewrite E in Hb|by apply (Hdisj _ Hb)].
    + eapply crep_rechild, Hc; [done| |done].
      intros b Hb Hne. apply Hout; [|done]. intros ->.
      destruct HpU as [[_ E]|[_ HpU]]; [by rewrite E in Hb|by apply (Hdisj _ HpU)].
  - rewrite addrs_plug, !NoDup_cons, NoDup_app. split_and!; [| |done..].
    + clear -Hnull. set_solver.
    + clear -Hnilu HnilC. set_solver.
  - done.
  - exact HF.
  - intros b Hb. rewrite <-Hfr by done. apply Hout; intros ->; apply Hb, HF.
    + destruct HpU as [[_ ->]|[_ ?]]; [left|right]. rewrite addrs_plug.
      apply elem_of_app. by left.
    + destruct HpC as [->|?]; [left|right]. rewrite addrs_plug.
      apply elem_of_app. by right.
  - intros v Hv. rewrite Hroots; auto.
Qed.

(** The unlinking part of [qp_rbtree_delete], which goes on with [k]. *)
Definition splice (subst : Z) (k : Z → M Z) : M Z :=
  sl ← ld left subst;
  tmp ← (if negb (qp_rbtree_nil t =? sl) then ld left subst else ld right subst);
  p ← qp_rbtree_parent subst; st (upd_parent p) tmp;;
  p ← qp_rbtree_parent subst;
  (if qp_rbtree_nil t =? p then set_root t tmp
   else
     b ← qp_rbtree_is_left subst;
     p ← qp_rbtree_parent subst;
     if (b : bool) then st (upd_left tmp) p else st (upd_right tmp) p);;
  k tmp.

Lemma wp_splice sp C a c l k d r u s (K : Z → M Z) Q :
  rbt sp (plug C (Node a c l k d r)) s →
  (l = Leaf ∧ u = r) ∨ (r = Leaf ∧ u = l) →
  (∀ s' sp', rbt sp' (plug C u) s' → (u = Leaf → sp' = pptr nil C) →
     nodes s' !! a = nodes s !! a → wp (K (ptr nil u)) s' Q) →
  wp (splice a K) s Q.
Proof.
  intros H Hu HK. unfold splice. rewrite qp_rbtree_nil_eq by apply H.
  assert (∀ s', rbt (match u with Leaf => pptr nil C | _ => sp end) (plug C u) s' →
    nodes s' !! a = nodes s !! a → wp (K (ptr nil u)) s' Q) as HK'.
  { intros s' H' Ha. eapply HK; [exact H'|by intros ->|done]. }
  clear HK. pose proof (λ s', rbt_splice sp C a c l k d r u s s' H Hu) as Hsplice.
  destruct C as [|[p cp kp dp D|p cp D kp dp] C];
    destruct Hu as [[-> ->]|[-> ->]];
    [destruct r as [|x xc xl xk xd xr]|destruct l as [|x xc xl xk xd xr]
    |destruct r as [|x xc xl xk xd xr]|destruct l as [|x xc xl xk xd xr]
    |destruct r as [|x xc xl xk xd xr]|destruct l as [|x xc xl xk xd xr]].
  all: rb_facts H; repeat rb_step.
  all: apply HK'; [apply Hsplice|by lk]; cbn [pptr faddr ptr];
    lazymatch goal with
    | |- _ !! _ = _ <$> _ => lk; repeat (first [rewrite Hsent | rewrite Hat | rewrite Hat0]); done
    | |- _ = [] → _ → _ => intros ??; first [done | by lk]
    | |- ∀ b, _ ≠ _ → b ≠ _ → _ => intros b ? ?; by lk
    | _ => rb_surgery
    end.
Qed.

(** The end of [qp_rbtree_delete]: a black node taken out leaves its black
    height to be repaired. *)
Lemma wp_delete_end sp C a c l k d r u n s :
  rbt sp (plug C u) s → (u = Leaf → sp = pptr nil C) →
  (l = Leaf ∧ u = r) ∨ (r = Leaf ∧ u = l) →
  crb C n → rb (ccolor C) n (Node a c l k d r) →
  (∃ x, a ≠ NULL ∧ nodes s !! a = Some x ∧ color_ x = col c) →
  wp (black ← qp_rbtree_is_black a;
      (if (black : bool) then qp_rbtree_delete_fix t (ptr nil u) else mret tt);;
      mret a) s (λ x s', x = a ∧
    ∃ tr, rbt sp tr s' ∧ rbtree tr ∧ inorder tr = inorder (plug C u)).
Proof.
  intros H Hsp Hu HC Hrb (x & Ha & Hx & Hc).
  pose proof (rb_splice _ _ _ _ _ _ _ _ _ Hrb Hu) as Hru.
  repeat rb_step. rewrite Hc. destruct c.
  - change (col Red =? QP_RBTREE_BLACK) with false. repeat rb_step. split; [done|]. exists (plug C u). split_and!; [done| |done].
    by eapply rb_plug.
  - change (col Black =? QP_RBTREE_BLACK) with true. cbn iota.
    destruct Hru as (m & -> & Hd).
    eapply wp_mono; [by eapply delete_fix_correct|]. intros [] s' Htr. by rb_step.
Qed.

(** [node]'s entry is gone from [L]; the node that left the tree is [x], which
    is [node] or its successor, whose entry [node] has taken over. *)
Definition removed (node : Z) (L : list entry) (x : Z) (L' : list entry) : Prop :=
  ∃ l1 e l2, L = l1 ++ (node, e) :: l2 ∧
    ((x = node ∧ L' = l1 ++ l2) ∨
     ∃ e' l3, l2 = (x, e') :: l3 ∧ L' = l1 ++ (node, e') :: l3).

Lemma sorted_removed node L x L' : sorted L → removed node L x L' → sorted L'.
Proof.
  intros HL (l1 & e & l2 & -> & [[-> ->]|(e' & l3 & -> & ->)]); [by eapply sorted_delete|].
  apply sorted_delete in HL. revert HL. unfold sorted, keys. by rewrite !fmap_app.
Qed.

(** What [qp_rbtree_delete] does from the choice of [subst] on. *)
Definition delete_tail (node subst : Z) : M Z :=
  splice subst (λ tmp,
    (if negb (node =? subst) then
       k ← ld key subst; st (upd_key k) node;;
       d ← ld data subst; st (upd_data d) node
     else mret tt);;
    black ← qp_rbtree_is_black subst;
    (if (black : bool) then qp_rbtree_delete_fix t tmp else mret tt);;
    mret subst).

(** A node with at most one child is taken out itself. *)
Lemma delete_tail_self sp C node c l k d r u s :
  rbt sp (plug C (Node node c l k d r)) s → rbtree (plug C (Node node c l k d r)) →
  (l = Leaf ∧ u = r) ∨ (r = Leaf ∧ u = l) →
  wp (delete_tail node node) s (λ x s', x = node ∧ ∃ sp' tr,
    rbt sp' tr s' ∧ rbtree tr ∧ inorder tr = cleft C ++ inorder u ++ cright C).
Proof.
  intros H Hrb Hu. destruct (rb_unplug _ _ Hrb) as (n & HC & Hn).
  destruct (rbt_lookup _ _ _ _ _ _ _ _ _ _ _ _ _ H) as (Hx & Hnull & _).
  eapply wp_splice; [done..|]. intros s' sp' H' Hsp' Hx'. rewrite Hx in Hx'.
  rewrite Z.eqb_refl. cbn [negb]. do 2 rb_step.
  eapply wp_mono; [by eapply wp_delete_end; eauto|].
  intros x s'' (-> & tr & ? & ? & Hin). rewrite inorder_plug in Hin. eauto 6.
Qed.

(** With two children the successor [m] is taken out and relabels [node]. *)
Lemma delete_tail_succ sp C node c l k d C1 m cm km dm rm s :
  let C' := C1 ++ FR node c l k d :: C in
  rbt sp (plug C' (Node m cm Leaf km dm rm)) s →
  rbtree (plug C' (Node m cm Leaf km dm rm)) → node ≠ m →
  wp (delete_tail node m) s (λ x s', x = m ∧ ∃ sp' tr,
    rbt sp' tr s' ∧ rbtree tr ∧
    inorder tr = inorder (plug (C1 ++ FR node c l km dm :: C) rm)).
Proof.
  intros C' H Hrb Hne. destruct (rb_unplug _ _ Hrb) as (n & HC & Hn).
  destruct (rbt_lookup _ _ _ _ _ _ _ _ _ _ _ _ _ H) as (Hx & Hnull & _).
  eapply wp_splice; [done|by left|]. intros s' sp' H' Hsp' Hx'. rewrite Hx in Hx'.
  unfold C' in H'. rewrite plug_app in H'.
  change (rbt sp' (plug C (Node node c l k d (plug C1 rm))) s') in H'.
  rb_if. do 4 rb_step.
  eapply (wp_relabel _ _ _ _ _ c km d); [exact H'|intros [] ? <- <-; cbn in *; by subst|].
  clear dependent s. intros s1 H1 Hout1. rewrite <-Hout1 in Hx' by done.
  do 2 rb_step.
  eapply (wp_relabel _ _ _ _ _ c km dm); [exact H1|intros [] ? <- <-; cbn in *; by subst|].
  clear dependent s'. intros s2 H2 Hout2. rewrite <-Hout2 in Hx' by done.
  clear dependent s1.
  change (rbt sp' (plug (FR node c l km dm :: C) (plug C1 rm)) s2) in H2.
  rewrite <-plug_app in H2.
  eapply wp_mono; [eapply wp_delete_end; [exact H2| |by left| | |]|].
  - intros Hl. rewrite Hsp' by done. unfold C'. by destruct C1.
  - eapply crb_relabel. exact HC.
  - unfold C' in Hn. destruct C1; exact Hn.
  - eauto.
  - intros x s3 (-> & tr & ? & ? & ?). eauto 6.
Qed.

(** The node to unlink: [node] itself, or its successor [m]. *)
Lemma wp_subst sp C node c l k d r s :
  rbt sp (plug C (Node node c l k d r)) s →
  wp (if (nil =? ptr nil l) || (nil =? ptr nil r) then mret node
      else qp_rbtree_min t (ptr nil r)) s (λ m s', s' = s ∧
    ((m = node ∧ (l = Leaf ∨ r = Leaf)) ∨
     ∃ C1 cm km dm rm, r = plug C1 (Node m cm Leaf km dm rm) ∧ cleft C1 = [])).
Proof.
  intros H. destruct l as [|la lc ll lk ld lr]; cbn [ptr].
  { rewrite Z.eqb_refl. cbn [orb]. rb_step. naive_solver. }
  destruct r as [|ra rc rl rk rd rr]; cbn [ptr].
  { rewrite Z.eqb_refl, orb_true_r. rb_step. naive_solver. }
  rb_facts H. do 2 rb_if. cbn [orb].
  eapply wp_mono.
  - eapply (min_correct _ _ _ _ _ _ _ H (FR node c (Node la lc ll lk ld lr) k d :: C)
             (Node ra rc rl rk rd rr)); [done|done|by left].
  - intros m s' (-> & C1 & cm & km & dm & rm & Hr & HC1). split; [done|].
    right. by exists C1, cm, km, dm, rm.
Qed.

Lemma delete_correct sp C node c l k d r s :
  rbt sp (plug C (Node node c l k d r)) s → rbtree (plug C (Node node c l k d r)) →
  wp (qp_rbtree_delete t node) s (λ x s', ∃ sp' tr,
    rbt sp' tr s' ∧ rbtree tr ∧
    removed node (inorder (plug C (Node node c l k d r))) x (inorder tr)).
Proof.
  intros H Hrb. pose proof (rbt_null _ _ _ _ _ _ _ H) as Ht.
  destruct (rbt_lookup _ _ _ _ _ _ _ _ _ _ _ _ _ H) as (Hn & Hnull & Hnil).
  unfold qp_rbtree_delete. rb_if. rb_if. rb_step.
  eapply wp_mono; [by eapply is_empty_correct|]. cbn. intros b s' (-> & Hb).
  destruct b; [by destruct (plug_not_leaf C (Node node c l k d r) ltac:(done)); apply Hb|].
  clear Hb. cbn iota. do 4 rb_step. rb_step.
  rewrite (qp_rbtree_nil_eq t Ht) at 1 2.
  eapply wp_mono; [by eapply wp_subst|].
  intros m s' (-> & [[-> Hlr]|(C1 & cm & km & dm & rm & -> & HC1)]).
  - assert (∃ u, (l = Leaf ∧ u = r) ∨ (r = Leaf ∧ u = l)) as [u Hu] by naive_solver.
    eapply wp_mono; [by eapply delete_tail_self|].
    intros x s' (-> & sp' & tr & ? & ? & Hin). exists sp', tr. split_and!; [done..|].
    rewrite Hin, inorder_plug. exists (cleft C ++ inorder l), (k, d), (inorder r ++ cright C).
    split; [cbn; by rewrite <-!app_assoc|]. left. split; [done|].
    by destruct Hu as [[-> ->]|[-> ->]]; cbn; rewrite ?app_nil_r, <-?app_assoc.
  - change (plug C (Node node c l k d (plug C1 (Node m cm Leaf km dm rm))))
      with (plug (FR node c l k d :: C) (plug C1 (Node m cm Leaf km dm rm))) in *.
    rewrite <-plug_app in *.
    assert (node ≠ m) as Hne.
    { pose proof (rbt_distinct _ _ _ _ _ _ _ _ H) as Hnd. intros ->.
      rewrite !NoDup_cons, NoDup_app in Hnd. destruct Hnd as (_ & _ & _ & Hd & _).
      apply (Hd m); [left|]. unfold caddrs. rewrite bind_app. set_solver. }
    eapply wp_mono; [by eapply delete_tail_succ|].
    intros x s' (-> & sp' & tr & ? & ? & Hin). exists sp', tr. split_and!; [done..|].
    rewrite Hin. unfold removed. rewrite !plug_app, !inorder_plug, HC1. cbn.
    exists (cleft C ++ inorder l), (k, d), ((m, (km, dm)) :: inorder rm ++ cright C1 ++ cright C).
    split; [by rewrite <-!app_assoc|]. right.
    exists (km, dm), (inorder rm ++ cright C1 ++ cright C). split; [done|].
    by rewrite <-!app_assoc.
Qed.
End delete.
