(* ===== verification/RbApi.v ===== *)
(** The contract of the red-black tree as its callers see it: [qp_tree t L s]
    says that the object at [t] is a balanced search tree with in-order contents
    [L]; every public operation is total on such trees, keeps them so and
    touches no other memory. *)

From S2P Require Import Prelude RbModel RbTree RbRep RbSearch RbInsert RbDelete.
#[local] Open Scope Z_scope.
#[local] Set Default Proof Using "All".

(** * The abstract tree *)

(** The memory a tree owns: its sentinel and its nodes. *)
Definition owned (t : Z) (L : list entry) : gset Z :=
  list_to_set ((t + offsetof_sentinel) :: L.*1).

(** The object at [t] is a red-black search tree whose entries, in key order,
    are [L]. *)
Definition qp_tree (t : Z) (L : list entry) (s : rbmem) : Prop :=
  ∃ sp tr, rbt t (owned t L) (nodes s) (roots s) sp tr s ∧
           rbtree tr ∧ sorted L ∧ inorder tr = L.

(** Only the nodes in [F] and the root field of [t] differ. *)
Definition touches (t : Z) (F : gset Z) (s s' : rbmem) : Prop :=
  (∀ a, a ∉ F → nodes s' !! a = nodes s !! a) ∧
  (∀ u, u ≠ t → roots s' !! u = roots s !! u).

(** [node] can be linked into the tree: it is an object of its own. *)
Definition linkable (t : Z) (L : list entry) (node : Z) (nd : qp_rbtree_node_s)
    (s : rbmem) : Prop :=
  nodes s !! node = Some nd ∧ node ≠ NULL ∧ node ∉ owned t L.

Lemma elem_of_owned t L a :
  a ∈ owned t L ↔ a = t + offsetof_sentinel ∨ a ∈ L.*1.
Proof. unfold owned. rewrite elem_of_list_to_set. apply elem_of_cons. Qed.

Lemma rbt_widen t F F' h0 r0 sp tr s :
  rbt t F h0 r0 sp tr s → F ⊆ F' → rbt t F' (nodes s) (roots s) sp tr s.
Proof. intros [? ? ? ? ? Hft ? ?] HF. split; [done..| | |]; [|done|done]. intros a Ha. by apply HF, Hft. Qed.

Lemma rbt_qp_tree t F h0 r0 sp tr s :
  rbt t F h0 r0 sp tr s → rbtree tr → bst tr → qp_tree t (inorder tr) s.
Proof.
  intros H Hrb Hbst. exists sp, tr. split_and!; [|done..].
  destruct H as [? ? ? ? ? Hft ? ?]. split; [done..| | |]; [|done|done].
  intros a. rewrite addrs_inorder. unfold owned. by rewrite elem_of_list_to_set.
Qed.

Lemma rbt_touches t F s sp tr s' :
  rbt t F (nodes s) (roots s) sp tr s' → touches t F s s'.
Proof. intros H. split; apply H. Qed.

(** * The operations *)

(** [qp_rbtree_init] makes an empty tree of any memory with a sentinel object and
    a root field. *)
Lemma init_correct t n r s :
  t ≠ NULL → t + offsetof_sentinel ≠ NULL →
  nodes s !! (t + offsetof_sentinel) = Some n → roots s !! t = Some r →
  wp (qp_rbtree_init t) s (λ _ s', qp_tree t [] s' ∧ touches t (owned t []) s s').
Proof.
  intros Ht Hnil Hn Hr. unfold qp_rbtree_init, qp_rbtree_set_black.
  rewrite !qp_rbtree_nil_eq by done. rb_if. repeat rb_step.
  split.
  - exists (t + offsetof_sentinel), Leaf. split_and!; [|by exists O|constructor|done].
    split; [by lk|eexists; split; [by lk|done]|done| |done| |done|done].
    + repeat constructor; [|apply not_elem_of_nil].
      rewrite list_elem_of_singleton. by apply not_eq_sym.
    + intros a Ha. unfold owned. by rewrite elem_of_list_to_set.
  - split.
    + intros a Ha. rewrite elem_of_owned in Ha. lk.
      rewrite !lookup_insert_ne by naive_solver. done.
    + intros u Hu. by lk.
Qed.

Section api.
Context (t : Z) (L : list entry) (s : rbmem) (H : qp_tree t L s).

Lemma insert_api node nd :
  linkable t L node nd s →
  wp (qp_rbtree_insert t node) s (λ r s',
    (key nd ∈ keys L ∧ r = NULL ∧ s' = s) ∨
    ((key nd ∉ keys L) ∧ r = node ∧ touches t ({[node]} ∪ owned t L) s s' ∧
     ∃ l1 l2, L = l1 ++ l2 ∧ qp_tree t (l1 ++ (node, (key nd, data nd)) :: l2) s')).
Proof.
  intros (Hnd & Hnull & Hown). destruct H as (sp & tr & Hrbt & Hrb & Hsort & <-).
  apply (rbt_widen _ _ ({[node]} ∪ owned t (inorder tr))) in Hrbt; [|set_solver].
  assert (node ∉ NULL :: (t + offsetof_sentinel) :: addrs tr) as Hfresh.
  { rewrite addrs_inorder. unfold owned in Hown. rewrite elem_of_list_to_set in Hown.
    rewrite elem_of_cons. naive_solver. }
  eapply wp_mono; [eapply insert_correct; [done..|set_solver|done|done]|].
  intros r s' [?|(? & -> & tr' & l1 & l2 & H' & Hrb' & Hbst' & HL & HL')]; [by left|].
  right. split_and!; [done..|by eapply rbt_touches|].
  exists l1, l2. split; [done|]. rewrite <-HL'. by eapply rbt_qp_tree.
Qed.

Lemma delete_api node :
  node ∈ L.*1 →
  wp (qp_rbtree_delete t node) s (λ x s', ∃ L',
    removed node L x L' ∧ qp_tree t L' s' ∧ touches t (owned t L) s s').
Proof.
  intros ([a [k d]] & -> & Hin)%list_elem_of_fmap.
  destruct H as (sp & tr & Hrbt & Hrb & Hsort & <-).
  destruct (in_plug _ _ _ _ Hin) as (C & c & l & r & ->).
  eapply wp_mono; [by eapply delete_correct|].
  intros x s' (sp' & tr' & H' & Hrb' & Hrem). exists (inorder tr').
  split_and!; [done| |by eapply rbt_touches].
  eapply rbt_qp_tree; [done..|]. by eapply sorted_removed.
Qed.

Lemma find_api x :
  wp (qp_rbtree_find t x) s (λ r s', s' = s ∧
    ((r = NULL ∧ u32 x ∉ keys L) ∨ (r ≠ NULL ∧ ∃ d, (r, (u32 x, d)) ∈ L))).
Proof.
  destruct H as (sp & tr & Hrbt & Hrb & Hsort & <-).
  eapply wp_mono; [by eapply find_correct|]. done.
Qed.

Lemma min_api :
  wp (qp_rbtree_min t NULL) s (λ r s', s' = s ∧ r = default NULL (head L.*1)).
Proof.
  destruct H as (sp & tr & Hrbt & Hrb & Hsort & <-).
  assert (tr = Leaf ∨ tr ≠ Leaf) as [->|Hne] by (destruct tr; auto).
  - unfold qp_rbtree_min. rb_step. eapply wp_mono; [by eapply is_empty_correct|].
    cbn. intros b s' (-> & Hb). rewrite (proj2 Hb eq_refl). by rb_step.
  - eapply wp_mono; [eapply (min_correct _ _ _ _ _ _ _ Hrbt [] tr); [done..|by right]|].
    cbn. intros m s' (-> & C & c' & k' & d' & r' & HC & Hl). split; [done|].
    by rewrite HC, inorder_plug, Hl.
Qed.

Lemma max_api :
  wp (qp_rbtree_max t NULL) s (λ r s', s' = s ∧ r = default NULL (last L.*1)).
Proof.
  destruct H as (sp & tr & Hrbt & Hrb & Hsort & <-).
  assert (tr = Leaf ∨ tr ≠ Leaf) as [->|Hne] by (destruct tr; auto).
  - unfold qp_rbtree_max. rb_step. eapply wp_mono; [by eapply is_empty_correct|].
    cbn. intros b s' (-> & Hb). rewrite (proj2 Hb eq_refl). by rb_step.
  - eapply wp_mono; [eapply (max_correct _ _ _ _ _ _ _ Hrbt [] tr); [done..|by right]|].
    cbn. intros m s' (-> & C & c' & l' & k' & d' & HC & Hl). split; [done|].
    rewrite HC, inorder_plug, Hl. cbn. rewrite app_nil_r, fmap_app, fmap_app.
    cbn. by rewrite app_assoc, last_snoc.
Qed.
End api.
