(* ===== verification/RbRefine.v ===== *)
(** Refinement: any client of the red-black tree that inserts fresh nodes and
    searches and deletes by key sees a finite map from keys to data. *)

From S2P Require Import Prelude RbModel RbTree RbRep RbDelete RbApi.
#[local] Open Scope Z_scope.

(** * The abstract map *)

(** What a tree with entries [L] means to a client: data by key. *)
Definition contents (L : list entry) : gmap Z Z := list_to_map L.*2.

Lemma keys_fst L : keys L = L.*2.*1.
Proof. unfold keys. by rewrite <-list_fmap_compose. Qed.

Lemma sorted_NoDup L : sorted L → NoDup L.*2.*1.
Proof.
  unfold sorted. rewrite keys_fst. induction 1 as [|x l _ IH Hall]; constructor; [|done].
  rewrite Forall_forall in Hall. intros Hx. specialize (Hall _ Hx). lia.
Qed.

Lemma contents_lookup L k d :
  sorted L → contents L !! k = Some d ↔ ∃ a, (a, (k, d)) ∈ L.
Proof.
  intros Hs. unfold contents. rewrite <-elem_of_list_to_map by (by apply sorted_NoDup).
  rewrite list_elem_of_fmap. split.
  - intros ([a e] & ? & ?). cbn in *. subst. eauto.
  - intros [a Ha]. by exists (a, (k, d)).
Qed.

Lemma contents_None L k : contents L !! k = None ↔ k ∉ keys L.
Proof. rewrite keys_fst. unfold contents. symmetry. apply not_elem_of_list_to_map. Qed.

Lemma contents_insert l1 l2 a k d :
  sorted (l1 ++ (a, (k, d)) :: l2) →
  contents (l1 ++ (a, (k, d)) :: l2) = <[k := d]> (contents (l1 ++ l2)).
Proof.
  intros Hs%sorted_NoDup. unfold contents. rewrite !fmap_app, fmap_cons.
  cbn [snd]. rewrite <-list_to_map_cons. apply list_to_map_proper.
  { revert Hs. by rewrite fmap_app, fmap_cons. }
  by rewrite Permutation_middle.
Qed.

Lemma contents_removed node L x L' k d :
  sorted L → removed node L x L' → (node, (k, d)) ∈ L → NoDup L.*1 →
  contents L' = delete k (contents L).
Proof.
  intros Hs (l1 & [k0 d0] & l2 & -> & Hr) Hin Hnd.
  assert ((k, d) = (k0, d0)) as [= -> ->].
  { rewrite fmap_app, fmap_cons, NoDup_app, NoDup_cons in Hnd. cbn in Hnd.
    destruct Hnd as (_ & Hd & Hn & _). rewrite elem_of_app, elem_of_cons in Hin.
    destruct Hin as [Hi|[[= -> ->]|Hi]]; [|done|].
    - destruct (Hd node); [|left]. apply list_elem_of_fmap. by eexists (_, _).
    - destruct Hn. apply list_elem_of_fmap. by eexists (_, _). }
  assert (contents L' = contents (l1 ++ l2)) as ->.
  { destruct Hr as [[_ ->]|(e' & l3 & -> & ->)]; [done|].
    unfold contents. by rewrite !fmap_app, !fmap_cons. }
  rewrite contents_insert, delete_insert_id; [done| |done].
  apply contents_None. apply sorted_NoDup in Hs. rewrite keys_fst.
  rewrite !fmap_app, !fmap_cons, NoDup_app, NoDup_cons in Hs. cbn in Hs.
  rewrite !fmap_app, elem_of_app. set_solver.
Qed.

(** * Client programs *)

(** [OInsert node k d] inserts an object the client has prepared with key [k] and
    data [d]; the others search by key. *)
Inductive op := OInsert (node k d : Z) | ODelete (k : Z) | OFind (k : Z).

Definition exec (t : Z) (o : op) : M (option Z) :=
  match o with
  | OInsert node k d =>
      r ← qp_rbtree_insert t node; mret (if r =? NULL then None else Some d)
  | ODelete k =>
      node ← qp_rbtree_find t k;
      if node =? NULL then mret None else
      d ← ld data node; qp_rbtree_delete t node;; mret (Some d)
  | OFind k =>
      node ← qp_rbtree_find t k;
      if node =? NULL then mret None else
      d ← ld data node; mret (Some d)
  end.

Fixpoint exec_all (t : Z) (os : list op) : M (list (option Z)) :=
  match os with
  | [] => mret []
  | o :: os => r ← exec t o; rs ← exec_all t os; mret (r :: rs)
  end.

(** The same on a finite map: an insertion keeps an entry that is there. *)
Definition spec (m : gmap Z Z) (o : op) : option Z * gmap Z Z :=
  match o with
  | OInsert _ k d => match m !! k with Some _ => (None, m) | None => (Some d, <[k := d]> m) end
  | ODelete k => (m !! k, delete k m)
  | OFind k => (m !! k, m)
  end.

Fixpoint spec_all (m : gmap Z Z) (os : list op) : list (option Z) * gmap Z Z :=
  match os with
  | [] => ([], m)
  | o :: os =>
      let '(r, m1) := spec m o in let '(rs, m2) := spec_all m1 os in (r :: rs, m2)
  end.

Definition fresh_nodes (os : list op) : list (Z * (Z * Z)) :=
  os ≫= λ o, match o with OInsert node k d => [(node, (k, d))] | _ => [] end.

(** Search keys fit the 32-bit parameter of [qp_rbtree_find]. *)
Definition key_ok (o : op) : Prop :=
  match o with OInsert _ _ _ => True | ODelete k | OFind k => 0 ≤ k < 2 ^ 32 end.

(** The nodes still to be inserted are distinct prepared objects outside the
    tree. *)
Definition prepared (t : Z) (L : list entry) (os : list op) (s : rbmem) : Prop :=
  NoDup (fresh_nodes os).*1 ∧ Forall key_ok os ∧
  ∀ node k d, (node, (k, d)) ∈ fresh_nodes os →
    ∃ nd, linkable t L node nd s ∧ key nd = k ∧ data nd = d.

Lemma qp_tree_sorted t L s : qp_tree t L s → sorted L.
Proof. by intros (? & ? & _ & _ & ? & _). Qed.

Lemma qp_tree_entry t L s a k d :
  qp_tree t L s → (a, (k, d)) ∈ L →
  a ≠ NULL ∧ ∃ nd, nodes s !! a = Some nd ∧ data nd = d.
Proof.
  intros (sp & tr & H & _ & _ & <-) Ha.
  destruct (in_plug _ _ _ _ Ha) as (C & c & l & r & ->).
  destruct (rbt_lookup _ _ _ _ _ _ _ _ _ _ _ _ _ H) as (? & ? & _). eauto.
Qed.

Lemma qp_tree_NoDup t L s : qp_tree t L s → NoDup L.*1.
Proof.
  intros (sp & tr & H & _ & _ & <-). pose proof (rbt_nodup _ _ _ _ _ _ _ H) as Hn.
  rewrite !NoDup_cons, addrs_inorder in Hn. tauto.
Qed.

(** The frame keeps what is prepared prepared. *)
Lemma prepared_step t L L' o os F s s' :
  prepared t L (o :: os) s → touches t F s s' →
  (∀ a, a ∈ F ∪ owned t L' → a ∈ owned t L ∨ a ∈ (fresh_nodes [o]).*1) →
  prepared t L' os s'.
Proof.
  intros (Hnd & Hk & Hp) [Hn _] HF.
  assert (fresh_nodes (o :: os) = fresh_nodes [o] ++ fresh_nodes os) as E
    by (by destruct o).
  rewrite E in *. rewrite fmap_app, NoDup_app in Hnd. destruct Hnd as (_ & Hd & Hnd).
  split_and!; [done|by inversion Hk|]. intros node k d Hin.
  destruct (Hp node k d) as (nd & (? & ? & Ho) & ? & ?); [apply elem_of_app; by right|].
  assert (node ∉ F ∪ owned t L') as Hout.
  { intros [?|Hf]%HF; [done|]. apply (Hd _ Hf). apply list_elem_of_fmap.
    by exists (node, (k, d)). }
  exists nd. split_and!; [|done..]. split_and!; [|done|set_solver].
  rewrite Hn; [done|set_solver].
Qed.

Section client.
Context (t : Z).

Definition sim (os : list op) (m : gmap Z Z) (s : rbmem) : Prop :=
  ∃ L, qp_tree t L s ∧ contents L = m ∧ prepared t L os s.

(** The search both [ODelete] and [OFind] start with. *)
Lemma wp_search L k s (K : Z → M (option Z)) Q :
  qp_tree t L s → 0 ≤ k < 2 ^ 32 →
  (contents L !! k = None → Q None s) →
  (∀ node d nd, contents L !! k = Some d → (node, (k, d)) ∈ L →
     node ≠ NULL → nodes s !! node = Some nd → data nd = d → wp (K node) s Q) →
  wp (node ← qp_rbtree_find t k;
      if node =? NULL then mret None else K node) s Q.
Proof.
  intros H Hk HN HS. wp_step. eapply wp_mono; [by eapply find_api|].
  pose proof (wrap_small 32 k Hk) as E.
  intros node s' (-> & [(-> & Hx)|(Hn & d & Hd)]); rewrite E in *.
  - rewrite Z.eqb_refl. wp_step. apply HN. by apply contents_None.
  - rewrite (proj2 (Z.eqb_neq _ _) Hn).
    destruct (qp_tree_entry _ _ _ _ _ _ H Hd) as (_ & nd & ? & ?).
    eapply HS; [|done..]. apply contents_lookup; [by eapply qp_tree_sorted|eauto].
Qed.

Lemma prepared_tail L o os s : prepared t L (o :: os) s → prepared t L os s.
Proof.
  intros Hp. eapply (prepared_step _ _ _ _ _ ∅); [done|by split|]. intros a. set_solver.
Qed.

(** One client operation takes one step of the map. *)
Lemma exec_correct o os m s :
  sim (o :: os) m s →
  wp (exec t o) s (λ r s', r = (spec m o).1 ∧ sim os (spec m o).2 s').
Proof.
  intros (L & H & <- & Hp). destruct o as [node k d|k|k]; cbn [exec spec].
  - pose proof Hp as (_ & _ & Hnode). destruct (Hnode node k d) as (nd & Hl & <- & <-).
    { cbn. left. }
    wp_step. eapply wp_mono; [by eapply insert_api|]. cbn beta.
    intros r s' [(Hk & -> & ->)|(Hk & -> & Ht & l1 & l2 & -> & H')].
    + wp_step. destruct (contents L !! key nd) eqn:E; [|by apply contents_None in E].
      split; [done|]. exists L. split_and!; [done..|by eapply prepared_tail].
    + wp_step. rewrite (proj2 (Z.eqb_neq _ _)) by apply Hl.
      rewrite (proj2 (contents_None _ _) Hk). split; [done|]. eexists. split_and!; [done| |].
      * apply contents_insert. by eapply qp_tree_sorted.
      * eapply prepared_step; [done..|]. intros a. cbn [fresh_nodes mbind list_bind].
        rewrite !elem_of_union, elem_of_singleton, !elem_of_owned.
        rewrite !fmap_app, fmap_cons, !elem_of_app, elem_of_cons. cbn. set_solver.
  - destruct Hp as (? & Hok & ?). assert (0 ≤ k < 2 ^ 32) by by inversion Hok.
    eapply wp_search; [done..| |].
    + intros E. rewrite E. split; [done|]. exists L. split_and!; [done| |].
      * by rewrite delete_id.
      * by eapply prepared_tail.
    + intros node d nd Hc Hin Hn Hnd <-. wp_step. wp_step. wp_step.
      eapply wp_mono; [eapply delete_api; [done|]|].
      { apply list_elem_of_fmap. by exists (node, (k, data nd)). }
      intros x s' (L' & Hr & H' & Ht). wp_step. rewrite Hc. split; [done|].
      exists L'. split_and!; [done| |].
      * eapply contents_removed; [by eapply qp_tree_sorted|done..|by eapply qp_tree_NoDup].
      * eapply prepared_step; [by split_and!|done|]. intros a.
        rewrite elem_of_union, !elem_of_owned. intros [?|[?|Ha]]; [by left|by auto|].
        left. right. destruct Hr as (l1 & e & l2 & -> & [[-> ->]|(e' & l3 & -> & ->)]);
          revert Ha; rewrite !fmap_app, ?fmap_cons; set_solver.
  - destruct Hp as (? & Hok & ?). assert (0 ≤ k < 2 ^ 32) by by inversion Hok.
    assert (sim os (contents L) s) as Hsim.
    { exists L. split_and!; [done..|]. by eapply prepared_tail. }
    eapply wp_search; [done..| |].
    + intros E. by rewrite E.
    + intros node d nd Hc Hin Hn Hnd <-. wp_step. wp_step. wp_step. by rewrite Hc.
Qed.
End client.

(** Every client program on a fresh tree behaves as on an empty map. *)
Lemma exec_all_correct t os m s :
  sim t os m s →
  wp (exec_all t os) s (λ rs s', rs = (spec_all m os).1 ∧ sim t [] (spec_all m os).2 s').
Proof.
  revert m s. induction os as [|o os IH]; intros m s H; cbn [exec_all spec_all].
  - by wp_step.
  - destruct (spec m o) as [r m1] eqn:E1. destruct (spec_all m1 os) as [rs m2] eqn:E2.
    wp_step. eapply wp_mono; [by eapply exec_correct|]. rewrite E1.
    cbn [fst snd]. intros ? s1 (-> & H1). cbn beta. wp_step.
    eapply wp_mono; [by apply IH|]. rewrite E2. cbn [fst snd].
    intros ? s2 (-> & H2). by wp_step.
Qed.
