(* ===== verification/RbProps.v ===== *)
(** The properties of the red-black tree, each with a run on a concrete heap. *)

From S2P Require Import Prelude RbModel RbTree RbRep RbInsertFix RbDeleteFix RbDelete RbApi RbRefine.
#[local] Open Scope Z_scope.

(** * A concrete heap *)

(** A tree object at 100 and prepared nodes at 1000, 1010, 1020 and 1030. *)
Definition demo_node (k d : Z) : qp_rbtree_node_s := MkNode 0 0 0 d k 0.
Definition demo_raw : rbmem :=
  MkMem (list_to_map [(108, demo_node 0 0); (1000, demo_node 20 200);
    (1010, demo_node 10 100); (1020, demo_node 30 300); (1030, demo_node 20 250)])
    {[100 := 0]}.

(** The same heap holding the tree of keys 10, 20 and 30. *)
Definition demo_heap : rbmem :=
  MkMem (list_to_map [(108, MkNode 108 108 108 0 0 QP_RBTREE_BLACK);
    (1000, MkNode 1010 1020 108 200 20 QP_RBTREE_BLACK);
    (1010, MkNode 108 108 1000 100 10 QP_RBTREE_RED);
    (1020, MkNode 108 108 1000 300 30 QP_RBTREE_RED);
    (1030, demo_node 25 250)])
    {[100 := 1000]}.
Definition demo_shape : tree :=
  Node 1000 Black (Node 1010 Red Leaf 10 100 Leaf) 20 200 (Node 1020 Red Leaf 30 300 Leaf).

Lemma demo_tree : qp_tree 100 (inorder demo_shape) demo_heap.
Proof.
  exists 108, demo_shape. split_and!; [| | |done].
  - split; [done| | | |done| |done|done].
    + eexists. split; [vm_compute; reflexivity|done].
    + split_and!; vm_compute; done.
    + by apply (bool_decide_unpack _); vm_compute.
    + intros a. rewrite addrs_inorder. unfold owned. by rewrite elem_of_list_to_set.
  - exists 1%nat, 0%nat. cbn. by split_and!.
  - unfold sorted. cbn. repeat constructor.
Defined.

(** * Properties *)

(** C1. Refinement to a finite map: starting with [qp_rbtree_init], every
    sequence of insertions of prepared nodes, searches and deletions by key runs
    to its end, returns what the map returns, and leaves a tree that holds the
    map. *)
Theorem rbtree_refines_map t n r os s :
  t ≠ NULL → t + offsetof_sentinel ≠ NULL →
  nodes s !! (t + offsetof_sentinel) = Some n → roots s !! t = Some r →
  prepared t [] os s →
  ∃ s1 rs s2 L, qp_rbtree_init t s = Ok (tt, s1) ∧ exec_all t os s1 = Ok (rs, s2) ∧
    rs = (spec_all ∅ os).1 ∧ qp_tree t L s2 ∧ contents L = (spec_all ∅ os).2.
Proof.
  intros Ht Hnil Hn Hr Hp.
  destruct (wp_elim _ _ _ (init_correct _ _ _ _ Ht Hnil Hn Hr)) as ([] & s1 & E1 & H1 & Hs1).
  assert (prepared t [] os s1) as Hp1.
  { eapply (prepared_step _ _ _ (OFind 0)); [|done|].
    - destruct Hp as (? & ? & ?). split_and!; [done|by constructor; [cbn; lia|]|done].
    - intros a. rewrite elem_of_union. tauto. }
  destruct (wp_elim _ _ _ (exec_all_correct t os ∅ s1 ltac:(by exists []))) as
    (rs & s2 & E2 & -> & L & ? & ? & _).
  by exists s1, (spec_all ∅ os).1, s2, L.
Qed.

Definition demo_ops : list op :=
  [OInsert 1000 20 200; OInsert 1010 10 100; OFind 10; OInsert 1020 30 300;
   OInsert 1030 20 250; ODelete 20; OFind 20].

Lemma rbtree_refines_map_witness : ∃ s1 rs s2 L,
  qp_rbtree_init 100 demo_raw = Ok (tt, s1) ∧ exec_all 100 demo_ops s1 = Ok (rs, s2) ∧
  rs = [Some 200; Some 100; Some 100; Some 300; None; Some 200; None] ∧
  qp_tree 100 L s2 ∧ contents L = <[30 := 300]> {[10 := 100]}.
Proof.
  destruct (rbtree_refines_map 100 (demo_node 0 0) 0 demo_ops demo_raw)
    as (s1 & rs & s2 & L & H1 & H2 & H3 & H4 & H5); [done..| |].
  - split_and!.
    + by apply (bool_decide_unpack _); vm_compute.
    + repeat constructor; cbn; lia.
    + intros node k d.
      cbn. rewrite !elem_of_cons, elem_of_nil.
      intros [[= -> -> ->]|[[= -> -> ->]|[[= -> -> ->]|[[= -> -> ->]|[]]]]];
        (eexists; split_and!; [split_and!; [vm_compute; reflexivity|done|]|done|done]);
        by apply (bool_decide_unpack _); vm_compute.
  - exists s1, rs, s2, L. split_and!; [done..| |done|].
    + rewrite H3. by vm_compute.
    + rewrite H5. by apply (bool_decide_unpack _); vm_compute.
Defined.

(** C2. [qp_rbtree_insert] always returns. A node with a new key is returned,
    linked at its place in key order, in a tree that is again a red-black search
    tree; a key that is present gives NULL and leaves the memory as it was. *)
Theorem rbtree_insert t L s node nd :
  qp_tree t L s → linkable t L node nd s →
  ∃ r s', qp_rbtree_insert t node s = Ok (r, s') ∧
    if bool_decide (key nd ∈ keys L) then r = NULL ∧ s' = s
    else r = node ∧ touches t ({[node]} ∪ owned t L) s s' ∧
      ∃ l1 l2, L = l1 ++ l2 ∧ qp_tree t (l1 ++ (node, (key nd, data nd)) :: l2) s'.
Proof.
  intros H Hl. destruct (wp_elim _ _ _ (insert_api _ _ _ H _ _ Hl)) as (r & s' & E & HQ).
  exists r, s'. split; [done|]. case_bool_decide; naive_solver.
Qed.

Lemma demo_linkable : linkable 100 (inorder demo_shape) 1030 (demo_node 25 250) demo_heap.
Proof.
  split_and!; [vm_compute; reflexivity|done|]. by apply (bool_decide_unpack _); vm_compute.
Defined.

Lemma rbtree_insert_witness : ∃ s' l1 l2,
  qp_rbtree_insert 100 1030 demo_heap = Ok (1030, s') ∧
  inorder demo_shape = l1 ++ l2 ∧ qp_tree 100 (l1 ++ (1030, (25, 250)) :: l2) s'.
Proof.
  destruct (rbtree_insert _ _ _ _ _ demo_tree demo_linkable) as (r & s' & E & HQ).
  rewrite bool_decide_eq_false_2 in HQ by (apply (bool_decide_unpack _); by vm_compute).
  destruct HQ as (-> & _ & l1 & l2 & ? & ?). by exists s', l1, l2.
Defined.

(** C3. [qp_rbtree_delete] of a node of the tree always returns; exactly that
    node's entry is gone, the tree is again a red-black search tree, and only
    memory of the tree has changed. *)
Theorem rbtree_delete t L s node :
  qp_tree t L s → node ∈ L.*1 →
  ∃ x s' L', qp_rbtree_delete t node s = Ok (x, s') ∧ removed node L x L' ∧
    qp_tree t L' s' ∧ touches t (owned t L) s s'.
Proof.
  intros H Hn. destruct (wp_elim _ _ _ (delete_api _ _ _ H _ Hn)) as (x & s' & E & L' & ?).
  by exists x, s', L'.
Qed.

Lemma rbtree_delete_witness : ∃ s' L',
  qp_rbtree_delete 100 1000 demo_heap = Ok (1020, s') ∧
  removed 1000 (inorder demo_shape) 1020 L' ∧ qp_tree 100 L' s'.
Proof.
  destruct (rbtree_delete _ _ _ 1000 demo_tree) as (x & s' & L' & E & Hr & H & _).
  - by apply (bool_decide_unpack _); vm_compute.
  - assert (x = 1020) as -> by (vm_compute in E; congruence). by exists s', L'.
Defined.

(** The header promises the deleted node; a node with two children is kept and
    its successor is handed back instead. *)
Theorem rbtree_delete_returns_successor :
  ∃ s', qp_rbtree_delete 100 1000 demo_heap = Ok (1020, s') ∧
    ∃ L', qp_tree 100 L' s' ∧ L' = [(1010, (10, 100)); (1000, (30, 300))].
Proof.
  destruct (wp_elim _ _ _ (delete_api _ _ _ demo_tree 1000
    ltac:(apply (bool_decide_unpack _); by vm_compute))) as (x & s' & E & L' & Hr & H & _).
  assert (x = 1020) as -> by (vm_compute in E; congruence).
  exists s'. split; [done|]. exists L'. split; [done|].
  destruct Hr as (l1 & e & l2 & HL & Hr). cbn in HL.
  destruct l1 as [|? [|? [|? [|]]]]; simplify_eq/=.
  by destruct Hr as [[? _]|(e' & l3 & ? & ->)]; simplify_eq/=.
Qed.

(** [qp_rbtree_find] always returns, changes nothing, and yields the node
    that has the key, or NULL when no node has it. *)
Theorem rbtree_find t L s x :
  qp_tree t L s →
  ∃ r, qp_rbtree_find t x s = Ok (r, s) ∧
    ((r = NULL ∧ u32 x ∉ keys L) ∨ (r ≠ NULL ∧ ∃ d, (r, (u32 x, d)) ∈ L)).
Proof.
  intros H. destruct (wp_elim _ _ _ (find_api _ _ _ H x)) as (r & s' & E & -> & ?). eauto.
Qed.

Lemma rbtree_find_witness : ∃ r, qp_rbtree_find 100 20 demo_heap = Ok (r, demo_heap) ∧
  ((r = NULL ∧ u32 20 ∉ keys (inorder demo_shape)) ∨
   (r ≠ NULL ∧ ∃ d, (r, (u32 20, d)) ∈ inorder demo_shape)).
Proof. exact (rbtree_find 100 _ demo_heap 20 demo_tree). Defined.

(** Node keys have 64 bits, the search key 32: an entry above [2^32] cannot be
    found by its key, and its low half may find another entry. *)
Theorem rbtree_find_truncates t x s :
  qp_rbtree_find t (x + 2 ^ 32) s = qp_rbtree_find t x s.
Proof.
  unfold qp_rbtree_find. assert (u32 (x + 2 ^ 32) = u32 x) as ->; [|done].
  unfold wrap. by rewrite <-(Z.mul_1_l (2 ^ 32)) at 1; rewrite Z.mod_add.
Qed.

(** From NULL, [qp_rbtree_min] and [qp_rbtree_max] return the first and
    the last node in key order, or NULL on the empty tree. *)
Theorem rbtree_min_max t L s :
  qp_tree t L s →
  qp_rbtree_min t NULL s = Ok (default NULL (head L.*1), s) ∧
  qp_rbtree_max t NULL s = Ok (default NULL (last L.*1), s).
Proof.
  intros H. destruct (wp_elim _ _ _ (min_api _ _ _ H)) as (r & s' & -> & -> & ->).
  by destruct (wp_elim _ _ _ (max_api _ _ _ H)) as (r & s' & -> & -> & ->).
Qed.

Lemma rbtree_min_max_witness :
  qp_rbtree_min 100 NULL demo_heap = Ok (1010, demo_heap) ∧
  qp_rbtree_max 100 NULL demo_heap = Ok (1020, demo_heap).
Proof. exact (rbtree_min_max 100 _ demo_heap demo_tree). Defined.



(** [qp_rbtree_init] turns a raw tree object into the empty tree. *)
Theorem rbtree_init t n r s :
  t ≠ NULL → t + offsetof_sentinel ≠ NULL →
  nodes s !! (t + offsetof_sentinel) = Some n → roots s !! t = Some r →
  ∃ s', qp_rbtree_init t s = Ok (tt, s') ∧ qp_tree t [] s' ∧ touches t (owned t []) s s'.
Proof.
  intros Ht Hnil Hn Hr.
  destruct (wp_elim _ _ _ (init_correct _ _ _ _ Ht Hnil Hn Hr)) as ([] & s' & ? & ? & ?). eauto.
Qed.

Lemma rbtree_init_witness : ∃ s', qp_rbtree_init 100 demo_raw = Ok (tt, s') ∧ qp_tree 100 [] s'.
Proof.
  destruct (rbtree_init 100 (demo_node 0 0) 0 demo_raw) as (s' & ? & ? & _); [done..|]. eauto.
Defined.
