(* ===== verification/Heap.v ===== *)
(** The C heap the pointer structures live in, and a separation logic for it.

    Memory is a map from addresses to cells; a cell is one scalar field, or a
    byte that holds none yet. Loads and stores outside the mapped cells, loads of
    cells never written, and [free] of anything but a live block are [Fault].
    [malloc] asks an oracle for the address: every allocation pattern, failures
    included, is some oracle. [hwp m Φ] says in Iris that [m] runs to its end and
    leaves [Φ]; [hwp_adequacy] turns it into a statement about [m] alone. *)

From S2P Require Import Prelude.
From iris.proofmode Require Export proofmode environments coq_tactics.
From iris.base_logic.lib Require Export own ghost_map.
#[local] Open Scope Z_scope.

(** * The heap and its operations *)

Record heap := MkHeap {
  cells : gmap Z (option Z);   (** mapped addresses; [None] is uninitialised *)
  blocks : gmap Z Z;           (** live [malloc] blocks and their sizes *)
  oracle : list Z;             (** addresses the allocator will propose *)
}.

Abbreviation H := (M heap).

Definition load (p : Z) : H Z := λ s,
  if p =? NULL then Fault else
  match cells s !! p with Some (Some v) => Ok (v, s) | _ => Fault end.

Definition store (p v : Z) : H unit := λ s,
  if p =? NULL then Fault else
  match cells s !! p with
  | Some _ => Ok (tt, MkHeap (<[p := Some v]> (cells s)) (blocks s) (oracle s))
  | None => Fault
  end.

(** The addresses of [n] bytes at [p]. *)
Definition bytes (p n : Z) : list Z := seqZ p n.

Definition raw (p n : Z) : gmap Z (option Z) := gset_to_gmap None (list_to_set (bytes p n)).

(** A proposed address is usable when it is aligned as [malloc] promises, inside
    the address space, and clear of everything mapped. *)
Definition usable (s : heap) (p n : Z) : bool :=
  (0 <? p) && (p mod 16 =? 0) && (p + n <=? 2 ^ 64) &&
  bool_decide (blocks s !! p = None) &&
  forallb (λ a, bool_decide (cells s !! a = None)) (bytes p n).

(** [malloc(n)]: NULL when the allocator has nothing usable to offer. *)
Definition malloc (n : Z) : H Z := λ s,
  match oracle s with
  | [] => Ok (NULL, s)
  | p :: o =>
      if usable s p n
      then Ok (p, MkHeap (raw p n ∪ cells s) (<[p := n]> (blocks s)) o)
      else Ok (NULL, MkHeap (cells s) (blocks s) o)
  end.

(** [free(p)] unmaps the block; of NULL it is a no-op. *)
Definition free (p : Z) : H unit := λ s,
  if p =? NULL then Ok (tt, s) else
  match blocks s !! p with
  | Some n => Ok (tt, MkHeap (cells s ∖ raw p n) (delete p (blocks s)) (oracle s))
  | None => Fault
  end.

(** [memset(p, 0, n)]: every field in the range becomes zero. *)
Fixpoint zero_cells (l : list Z) : H unit :=
  match l with
  | [] => mret tt
  | a :: l' => store a 0;; zero_cells l'
  end.
Definition memset0 (p n : Z) : H unit := zero_cells (bytes p n).

(** Rounds a loop over linked objects can take: it visits a cell at most once. *)
Definition heap_fuel : H nat := gets (λ s, 1 + size (cells s))%nat.

(** * Resources *)

Class heapGpreS (Σ : gFunctors) := {
  heap_pre_cells :: ghost_mapG Σ Z (option Z);
  heap_pre_blocks :: ghost_mapG Σ Z Z;
}.
Class heapGS (Σ : gFunctors) := {
  heap_cellsG :: ghost_mapG Σ Z (option Z);
  heap_blocksG :: ghost_mapG Σ Z Z;
  cells_name : gname;
  blocks_name : gname;
}.

Definition heapΣ : gFunctors := #[ghost_mapΣ Z (option Z); ghost_mapΣ Z Z].
#[export] Instance subG_heapGpreS Σ : subG heapΣ Σ → heapGpreS Σ.
Proof. solve_inG. Qed.

Section resources.
Context `{!heapGS Σ}.

(** A cell, initialised or not; an initialised cell; a live block. *)
Definition cell (p : Z) (w : option Z) : iProp Σ := p ↪[cells_name] w.
#[local] Notation "p ↦ v" := (cell p (Some v)) (at level 20, format "p  ↦  v") : bi_scope.
#[local] Notation "p ↦?" := (∃ w, cell p w)%I (at level 1, format "p  ↦?") : bi_scope.
Definition block (p n : Z) : iProp Σ := p ↪[blocks_name] n.

(** [n] bytes at [p] with unknown contents. *)
Definition region (p n : Z) : iProp Σ := [∗ list] a ∈ bytes p n, ∃ w, cell a w.

Definition interp (s : heap) : iProp Σ :=
  ⌜cells s !! NULL = None⌝ ∗ ghost_map_auth cells_name 1 (cells s) ∗
  ghost_map_auth blocks_name 1 (blocks s).

(** Total correctness in the logic. *)
Definition hwp {A} (m : H A) (Φ : A → iProp Σ) : iProp Σ :=
  ∀ s, interp s ==∗
    match m s with Ok (a, s') => interp s' ∗ Φ a | _ => False end.

(** * Rules *)

Lemma hwp_ret {A} (a : A) Φ : Φ a ⊢ hwp (mret a) Φ.
Proof. iIntros "HΦ" (s) "Hs !>". iFrame. Qed.

Lemma hwp_bind {A B} (m : H A) (f : A → H B) Φ :
  hwp m (λ a, hwp (f a) Φ) ⊢ hwp (m ≫= f) Φ.
Proof.
  iIntros "Hm" (s) "Hs". iMod ("Hm" with "Hs") as "Hm".
  unfold mbind, M_bind. destruct (m s) as [[a s']| |]; [|done..].
  iDestruct "Hm" as "[Hs Hf]". by iApply "Hf".
Qed.

Lemma hwp_wand {A} (m : H A) (Φ Ψ : A → iProp Σ) :
  hwp m Φ ⊢ (∀ a, Φ a -∗ Ψ a) -∗ hwp m Ψ.
Proof.
  iIntros "Hm HΨ" (s) "Hs". iMod ("Hm" with "Hs") as "Hm". iModIntro.
  destruct (m s) as [[a s']| |]; [|done..].
  iDestruct "Hm" as "[$ Hm]". by iApply "HΨ".
Qed.

Lemma hwp_load p v Φ : p ↦ v -∗ (p ↦ v -∗ Φ v) -∗ hwp (load p) Φ.
Proof.
  iIntros "Hp HΦ" (s) "(%Hnull & Hc & Hb)".
  iDestruct (ghost_map_lookup with "Hc Hp") as %Hv. iModIntro. unfold load.
  destruct (Z.eqb_spec p NULL) as [->|_]; [by rw Hnull in Hv|].
  rw Hv. iFrame. iSplit; [done|]. by iApply "HΦ".
Qed.

Lemma hwp_store p w v Φ : cell p w -∗ (p ↦ v -∗ Φ tt) -∗ hwp (store p v) Φ.
Proof.
  iIntros "Hp HΦ" (s) "(%Hnull & Hc & Hb)".
  iDestruct (ghost_map_lookup with "Hc Hp") as %Hw.
  iMod (ghost_map_update (Some v) with "Hc Hp") as "[Hc Hp]". iModIntro. unfold store.
  destruct (Z.eqb_spec p NULL) as [->|Hp]; [by rw Hnull in Hw|].
  rw Hw. iFrame. iSplit; [|by iApply "HΦ"].
  iPureIntro. cbn. by rw lookup_insert_ne.
Qed.

Lemma region_raw p n :
  ([∗ map] a ↦ w ∈ raw p n, cell a w) ⊢ region p n.
Proof.
  unfold raw, region. rw big_sepM_gset_to_gmap big_sepS_list_to_set; [|apply NoDup_seqZ].
  apply big_sepL_mono. intros ? a _. iIntros "H". by iExists None.
Qed.

Lemma region_map p n :
  region p n ⊢ ∃ m, ⌜dom m = list_to_set (bytes p n)⌝ ∗ [∗ map] a ↦ w ∈ m, cell a w.
Proof.
  unfold region, bytes. pose proof (NoDup_seqZ p n) as Hnd. revert Hnd.
  induction (seqZ p n) as [|a l IH]; intros Hnd.
  - iIntros "_". iExists ∅. iSplit; [|done]. by rw dom_empty_L.
  - apply NoDup_cons in Hnd as [Ha Hnd]. iIntros "[(%w & Hw) Hl]".
    iDestruct (IH Hnd with "Hl") as (m) "(%Hm & Hm)". iExists (<[a:=w]> m).
    iSplit; [iPureIntro; rw dom_insert_L Hm; cbn; set_solver|].
    rw big_sepM_insert; [iFrame|]. apply not_elem_of_dom. rw Hm. set_solver.
Qed.

Lemma usable_spec s p n :
  usable s p n = true →
  0 < p ∧ p + n ≤ 2 ^ 64 ∧ p mod 16 = 0 ∧ blocks s !! p = None ∧ raw p n ##ₘ cells s.
Proof.
  unfold usable. rw !andb_true_iff.
  intros ((((Hp & Hm) & Hn) & Hb) & Hc). rw forallb_forall in Hc.
  split_and!; [lia|lia|lia|by eapply bool_decide_eq_true_1|].
  apply map_disjoint_dom. unfold raw. rw dom_gset_to_gmap.
  intros a Ha%elem_of_list_to_set Hd. apply elem_of_dom in Hd as [w Hw].
  apply list_elem_of_In, Hc, bool_decide_eq_true_1 in Ha. congruence.
Qed.

Lemma hwp_malloc n Φ :
  Φ NULL ∧ (∀ p, ⌜0 < p ∧ p + n ≤ 2 ^ 64 ∧ p mod 16 = 0⌝ -∗ block p n -∗ region p n -∗ Φ p)
  ⊢ hwp (malloc n) Φ.
Proof.
  iIntros "HΦ" (s) "(%Hnull & Hc & Hb)". unfold malloc.
  destruct (oracle s) as [|p o].
  { iModIntro. iFrame. iSplit; [done|]. by iDestruct "HΦ" as "[$ _]". }
  destruct (usable s p n) eqn:Hu.
  2: { iModIntro. iFrame. iSplit; [done|]. by iDestruct "HΦ" as "[$ _]". }
  destruct (usable_spec _ _ _ Hu) as (Hp & Hn & Hm & Hb & Hd).
  iMod (ghost_map_insert p n with "Hb") as "[Hb Hblk]"; [done|].
  iMod (ghost_map_insert_big (raw p n) with "Hc") as "[Hc Hr]"; [done|].
  iModIntro. iFrame. iSplit.
  - iPureIntro. cbn. apply lookup_union_None. split; [|done].
    unfold raw. apply lookup_gset_to_gmap_None. rw elem_of_list_to_set elem_of_seqZ.
    unfold NULL. lia.
  - iDestruct "HΦ" as "[_ HΦ]". iApply ("HΦ" with "[//] Hblk"). by iApply region_raw.
Qed.

Lemma hwp_free p n Φ :
  p ≠ NULL → block p n -∗ region p n -∗ Φ tt -∗ hwp (free p) Φ.
Proof.
  iIntros (Hp) "Hblk Hr HΦ". iIntros (s) "(%Hnull & Hc & Hb)". unfold free.
  rw (proj2 (Z.eqb_neq _ _) Hp).
  iDestruct (ghost_map_lookup with "Hb Hblk") as %->.
  iMod (ghost_map_delete with "Hb Hblk") as "Hb".
  iDestruct (region_map with "Hr") as (m) "[%Hm Hr]".
  iMod (ghost_map_delete_big with "Hc Hr") as "Hc". iModIntro.
  assert (cells s ∖ raw p n = cells s ∖ m) as ->.
  { apply map_eq. intros a. rw !lookup_difference.
    assert (is_Some (raw p n !! a) ↔ is_Some (m !! a)) as E.
    { rw -!elem_of_dom Hm /raw. by rw dom_gset_to_gmap. }
    destruct (raw p n !! a), (m !! a); [done| | |done]; rw -!not_eq_None_Some in E; naive_solver. }
  iFrame. iPureIntro. cbn. by apply lookup_difference_None; left.
Qed.

Lemma hwp_free_null Φ : Φ tt ⊢ hwp (free NULL) Φ.
Proof. iIntros "HΦ" (s) "Hs !>". iFrame. Qed.

(** The cells of a list of links bound the rounds of a loop over it. *)
Lemma hwp_fuel P xs Φ :
  (P ⊢ ⌜NoDup xs⌝) → (P ⊢ ([∗ list] x ∈ xs, x ↦?) ∗ True) →
  P -∗ (∀ n, ⌜(length xs < n)%nat⌝ -∗ P -∗ Φ n) -∗ hwp heap_fuel Φ.
Proof.
  iIntros (Hnd Hcells) "HP HΦ". iIntros (s) "(%Hnull & Hc & Hb)".
  iAssert ⌜NoDup xs⌝%I as %Hxs; [by iApply Hnd|].
  iAssert (⌜∀ x, x ∈ xs → is_Some (cells s !! x)⌝)%I as %Hdom.
  { iIntros (x Hx). iDestruct (Hcells with "HP") as "[Hxs _]".
    iDestruct (big_sepL_elem_of with "Hxs") as (w) "Hx"; [done|].
    iDestruct (ghost_map_lookup with "Hc Hx") as %E. by rw E. }
  pose proof (NoDup_length_size (cells s) xs Hxs Hdom). iModIntro. cbn.
  iFrame. iSplit; [done|]. iApply ("HΦ" with "[] HP"). iPureIntro. lia.
Qed.

#[export] Instance elim_modal_bupd_hwp {A} p P (m : H A) Φ :
  ElimModal True p false (|==> P) P (hwp m Φ) (hwp m Φ).
Proof.
  rw /ElimModal bi.intuitionistically_if_elim. iIntros (_) "[HP Hm]".
  iIntros (s) "Hs". iMod "HP". by iApply ("Hm" with "HP").
Qed.

#[export] Instance frame_hwp {A} p R (m : H A) Φ Ψ :
  (∀ a, FrameInstantiateExistDisabled → Frame p R (Φ a) (Ψ a)) →
  Frame p R (hwp m Φ) (hwp m Ψ) | 2.
Proof.
  rw /Frame => HR. iIntros "[HR Hm]". iApply (hwp_wand with "Hm").
  iIntros (a) "HΨ". iApply HR; [done|]. iFrame.
Qed.

(** A loop runs to its end when its body lowers a measure of the invariant. *)
Lemma hwp_loop {A B} (I : nat → A → iProp Σ) (body : A → H (A + B)) Φ :
  (∀ n a, I n a -∗ hwp (body a) (λ r, match r with
    | inl a' => ∃ n', ⌜(n' < n)%nat⌝ ∗ I n' a'
    | inr b => Φ b
    end)) →
  ∀ fuel n a, (n < fuel)%nat → I n a ⊢ hwp (loop fuel body a) Φ.
Proof.
  intros Hbody fuel. induction fuel as [|fuel IH]; intros n a Hn; [lia|].
  iIntros "HI". cbn [loop]. iApply hwp_bind.
  iApply (hwp_wand with "[HI]"); [by iApply Hbody|].
  iIntros ([a'|b]) "Hr".
  - iDestruct "Hr" as (n') "[% HI]". iApply (IH n' a' with "HI"). lia.
  - by iApply hwp_ret.
Qed.

(** * Regions *)

Lemma region_app p a b :
  0 ≤ a → 0 ≤ b → region p (a + b) ⊣⊢ region p a ∗ region (p + a) b.
Proof.
  intros Ha Hb. unfold region, bytes. rw seqZ_app; [|done..]. by rw big_sepL_app.
Qed.

Lemma region_nil p : ⊢ region p 0.
Proof. done. Qed.

(** [count] buckets of [n] bytes. *)
Lemma region_buckets p n count :
  0 ≤ n →
  region p (Z.of_nat count * n) ⊣⊢ [∗ list] i ∈ seq 0 count, region (p + Z.of_nat i * n) n.
Proof.
  intros Hn. induction count as [|count IH]; [done|].
  assert (Z.of_nat (S count) * n = Z.of_nat count * n + n) as -> by lia.
  rw seq_S big_sepL_app -IH /= right_id -region_app; [done| |done].
  apply Z.mul_nonneg_nonneg; lia.
Qed.

(** The bytes of a structure of [n] bytes that none of its fields starts at. *)
Definition padding (p n : Z) (offs : list Z) : iProp Σ :=
  [∗ list] o ∈ filter (λ o, o ∉ offs) (seqZ 0 n), (p + o) ↦?.

Lemma bytes_struct (P : Z → iProp Σ) p n offs :
  NoDup offs → Forall (λ o, 0 ≤ o < n) offs →
  ([∗ list] a ∈ bytes p n, P a) ⊣⊢
  ([∗ list] o ∈ offs, P (p + o)) ∗
  ([∗ list] o ∈ filter (λ o, o ∉ offs) (seqZ 0 n), P (p + o)).
Proof.
  intros Hnd Hr. unfold bytes.
  rw -(big_sepL_app (λ _ o, P (p + o))).
  assert (seqZ p n = (λ o, p + o) <$> seqZ 0 n) as -> by by rw fmap_add_seqZ Z.add_0_r.
  rw big_sepL_fmap. apply big_opL_permutation. apply NoDup_Permutation.
  - apply NoDup_seqZ.
  - apply NoDup_app. split_and!; [done| |apply NoDup_filter, NoDup_seqZ].
    intros o Ho [? _]%list_elem_of_filter. done.
  - intros o. rw elem_of_app list_elem_of_filter. rw Forall_forall in Hr.
    rw elem_of_seqZ. destruct (decide (o ∈ offs)) as [Ho|Ho]; [|naive_solver].
    specialize (Hr _ Ho). naive_solver lia.
Qed.

(** A region seen as the structure with fields at [offs]. *)
Lemma region_struct p n offs :
  NoDup offs → Forall (λ o, 0 ≤ o < n) offs →
  region p n ⊣⊢ ([∗ list] o ∈ offs, (p + o) ↦?) ∗ padding p n offs.
Proof. apply bytes_struct. Qed.

Lemma hwp_memset0 p n offs Φ :
  NoDup offs → Forall (λ o, 0 ≤ o < n) offs →
  region p n -∗ (([∗ list] o ∈ offs, (p + o) ↦ 0) -∗ padding p n offs -∗ Φ tt) -∗
  hwp (memset0 p n) Φ.
Proof.
  iIntros (Hnd Hr) "Hr HΦ". unfold memset0.
  iAssert (hwp (zero_cells (bytes p n)) (λ _, [∗ list] a ∈ bytes p n, a ↦ 0))%I
    with "[Hr]" as "Hm".
  { unfold region. iInduction (bytes p n) as [|a l] "IH"; cbn [zero_cells]; [by iApply hwp_ret|].
    iDestruct "Hr" as "[(%w & Ha) Hl]". iApply hwp_bind. iApply (hwp_store with "Ha").
    iIntros "Ha". iApply (hwp_wand with "[Hl]"); [by iApply "IH"|]. iIntros (_) "$ //". }
  iApply (hwp_wand with "Hm"). iIntros ([]) "Hz". rw bytes_struct //.
  iDestruct "Hz" as "[Hz Hpad]". iApply ("HΦ" with "Hz").
  iApply (big_sepL_impl with "Hpad"). iIntros "!>" (???) "H". by iExists _.
Qed.
End resources.

#[global] Arguments hwp {_ _ _} _ _ : simpl never.
#[global] Arguments cell {_ _} _ _ : simpl never.
#[global] Arguments region {_ _} _ _ : simpl never.
#[global] Arguments padding {_ _} _ _ _ : simpl never.
#[global] Typeclasses Opaque cell block region padding.
#[global] Opaque padding.

Notation "p ↦ v" := (cell p (Some v)) (at level 20, format "p  ↦  v") : bi_scope.
Notation "p ↦?" := (∃ w, cell p w)%I (at level 1, format "p  ↦?") : bi_scope.

(** * Adequacy *)

(** A program verified against the cells and blocks it starts with runs to its
    end without a fault and returns a value that satisfies [φ]. *)
Lemma hwp_adequacy Σ `{!heapGpreS Σ} {A} (m : H A) s (φ : A → heap → Prop) :
  cells s !! NULL = None →
  (∀ `{!heapGS Σ},
     ([∗ map] a ↦ w ∈ cells s, cell a w) ∗ ([∗ map] p ↦ n ∈ blocks s, block p n) ⊢
     hwp m (λ a, ∀ s', interp s' -∗ ⌜φ a s'⌝)) →
  ∃ a s', m s = Ok (a, s') ∧ φ a s'.
Proof.
  intros Hnull Hm. apply (pure_soundness (PROP := iPropI Σ)).
  apply uPred.bupd_soundness; [apply _|].
  iMod (ghost_map_alloc (cells s)) as (γc) "[Hc Hcs]".
  iMod (ghost_map_alloc (blocks s)) as (γb) "[Hb Hbs]".
  set (G := {| cells_name := γc; blocks_name := γb |} : heapGS Σ).
  iMod (Hm G with "[$Hcs $Hbs] [$Hc $Hb //]") as "Hm". iModIntro.
  destruct (m s) as [[a s']| |]; [|done..].
  iDestruct "Hm" as "[Hs Hφ]". iDestruct ("Hφ" with "Hs") as %Hφ.
  iPureIntro. eauto.
Qed.

(** Pick mapped cells out of the whole heap. *)
Lemma cells_extract `{!heapGS Σ} (m : gmap Z (option Z)) l :
  NoDup l → (∀ a, a ∈ l → is_Some (m !! a)) →
  ([∗ map] a ↦ w ∈ m, cell a w) ⊢ [∗ list] a ∈ l, a ↦?.
Proof.
  revert m. induction l as [|a l IH]; intros m Hnd Hm; [by iIntros "_"|].
  apply NoDup_cons in Hnd as [Ha Hnd]. destruct (Hm a) as [w Hw]; [left|].
  iIntros "H". rw (big_sepM_delete _ m a) //. iDestruct "H" as "[Ha H]".
  iSplitL "Ha"; [by iExists w|]. iApply (IH with "H"); [done|].
  intros b Hb. rw lookup_delete_ne; [|by intros ->]. apply Hm. by right.
Qed.

(** * Symbolic execution *)

Section tactics.
Context `{!heapGS Σ}.
Implicit Types (Δ : envs (uPredI (iResUR Σ))).

Lemma tac_hwp_bind Δ {A B} (m : H A) (f : A → H B) Φ :
  envs_entails Δ (hwp m (λ a, hwp (f a) Φ)) → envs_entails Δ (hwp (m ≫= f) Φ).
Proof. rw envs_entails_unseal => ->. apply hwp_bind. Qed.

Lemma tac_hwp_ret Δ {A} (a : A) Φ :
  envs_entails Δ (Φ a) → envs_entails Δ (hwp (mret a) Φ).
Proof. rw envs_entails_unseal => ->. apply hwp_ret. Qed.

Lemma tac_hwp_load Δ i p v Φ :
  envs_lookup i Δ = Some (false, p ↦ v)%I →
  envs_entails Δ (Φ v) → envs_entails Δ (hwp (load p) Φ).
Proof.
  rw envs_entails_unseal => Hi HΦ. rw envs_lookup_split //; simpl.
  iIntros "[Hp HΔ]". iApply (hwp_load with "Hp"). iIntros "Hp".
  iApply HΦ. by iApply "HΔ".
Qed.

Lemma tac_hwp_store Δ Δ' i p w v Φ :
  envs_lookup i Δ = Some (false, cell p w)%I →
  envs_simple_replace i false (Esnoc Enil i (p ↦ v)%I) Δ = Some Δ' →
  envs_entails Δ' (Φ tt) → envs_entails Δ (hwp (store p v) Φ).
Proof.
  rw envs_entails_unseal => Hi Hr HΦ.
  rw envs_simple_replace_sound //; simpl. iIntros "[Hp HΔ]".
  iApply (hwp_store with "Hp"). iIntros "Hp". iApply HΦ. iApply "HΔ". by iFrame.
Qed.
End tactics.

(** One statement; loads and stores find their cell in the context. *)
Ltac hstep :=
  lazymatch goal with
  | |- envs_entails _ (hwp (_ ≫= _) _) => eapply tac_hwp_bind
  | |- envs_entails _ (hwp (mret _) _) => eapply tac_hwp_ret
  | |- envs_entails _ (hwp (load _) _) => eapply tac_hwp_load; [iAssumptionCore|]
  | |- envs_entails _ (hwp (store _ _) _) =>
      eapply tac_hwp_store; [iAssumptionCore | reflexivity |]
  end; cbn beta iota.
