(* ===== verification/Links.v ===== *)
(** The intrusive lists and queues of [src/src/core/qp_memory_core.h], cell by
    cell on the heap of Heap.v, and their specifications: [is_list h xs] is a
    circular singly linked list with head cell [h], [is_queue q xs] a circular
    doubly linked one; [xs] are the addresses of the linked cells in order. *)

From S2P Require Import Prelude Heap.
#[local] Open Scope Z_scope.

(** * The code *)

(** [struct qp_list_s] is one cell, its [next]. *)
Definition qp_list_init (list : Z) : H unit :=
  if list =? NULL then mret tt else store list list.

Definition qp_list_is_empty (list : Z) : H bool :=
  if list =? NULL then mret true else n ← load list; mret (list =? n).

Definition qp_list_head (list : Z) : Z := list.

Definition qp_list_first (list : Z) : H Z :=
  e ← qp_list_is_empty list; if (e : bool) then mret NULL else load list.

Definition qp_list_push (list node : Z) : H unit :=
  if (list =? NULL) || (node =? NULL) then mret tt else
  n ← load list; store node n;; store list node.

Definition qp_list_pop (list : Z) : H unit :=
  if list =? NULL then mret tt else
  n ← load list; nn ← load n; store list nn.

(** The structure that embeds a link at offset [link]. *)
Definition qp_list_data (l link : Z) : Z := l - link.

(** [struct qp_queue_s]: [prev] at 0, [next] at 8 (LP64). *)
Definition queue_next : Z := 8.

Definition qp_queue_init (queue : Z) : H unit :=
  if queue =? NULL then mret tt else
  store queue queue;; store (queue + queue_next) queue.

Definition qp_queue_is_empty (queue : Z) : H bool :=
  if queue =? NULL then mret true else p ← load queue; mret (queue =? p).

Definition qp_queue_insert_after_head (queue node : Z) : H unit :=
  if (queue =? NULL) || (node =? NULL) then mret tt else
  qn ← load (queue + queue_next); store (node + queue_next) qn;;
  nn ← load (node + queue_next); store nn node;;
  store node queue;;
  store (queue + queue_next) node.

Definition qp_queue_insert_after_tail (queue node : Z) : H unit :=
  if (queue =? NULL) || (node =? NULL) then mret tt else
  qp ← load queue; store node qp;;
  np ← load node; store (np + queue_next) node;;
  store (node + queue_next) queue;;
  store queue node.

Definition qp_queue_first (queue : Z) : H Z :=
  e ← qp_queue_is_empty queue;
  if (e : bool) then mret NULL else load (queue + queue_next).

Definition qp_queue_last (queue : Z) : H Z :=
  e ← qp_queue_is_empty queue; if (e : bool) then mret NULL else load queue.

Definition qp_queue_head (queue : Z) : Z := queue.

Definition qp_queue_next (node : Z) : H Z :=
  if node =? NULL then mret NULL else load (node + queue_next).

Definition qp_queue_prev (node : Z) : H Z :=
  if node =? NULL then mret NULL else load node.

Definition qp_queue_remove (node : Z) : H unit :=
  if node =? NULL then mret tt else
  nn ← load (node + queue_next); np ← load node; store nn np;;
  np ← load node; nn ← load (node + queue_next); store (np + queue_next) nn.

Definition qp_queue_split (queue node newq : Z) : H unit :=
  if (queue =? NULL) || (node =? NULL) || (newq =? NULL) then mret tt else
  qp ← load queue; store newq qp;;
  np ← load newq; store (np + queue_next) newq;;
  store (newq + queue_next) node;;
  p ← load node; store queue p;;
  qp ← load queue; store (qp + queue_next) queue;;
  store node newq.

Definition qp_queue_merge (queue newq : Z) : H unit :=
  if (queue =? NULL) || (newq =? NULL) then mret tt else
  qp ← load queue; nn ← load (newq + queue_next); store (qp + queue_next) nn;;
  nn ← load (newq + queue_next); qp ← load queue; store nn qp;;
  np ← load newq; store queue np;;
  qp ← load queue; store (qp + queue_next) queue.

Definition qp_queue_data (q link : Z) : Z := q - link.

(** * Lists *)

Section lists.
Context `{!heapGS Σ}.

(** The chain of [next] cells from [p] over [xs] to [e]. *)
Fixpoint chain (p : Z) (xs : list Z) (e : Z) : iProp Σ :=
  match xs with
  | [] => p ↦ e
  | x :: xs' => p ↦ x ∗ chain x xs' e
  end.

Definition is_list (h : Z) (xs : list Z) : iProp Σ := chain h xs h.

Lemma cell_ne p q v w : cell p v -∗ cell q w -∗ ⌜p ≠ q⌝.
Proof. iIntros "Hp Hq". iApply (ghost_map_elem_ne with "Hp Hq"). Qed.

(** The linked cells are distinct. *)
Lemma chain_fresh p xs e q w : chain p xs e -∗ cell q w -∗ ⌜q ∉ p :: xs⌝.
Proof.
  iIntros "Hc Hq". iInduction xs as [|x xs] "IH" forall (p); cbn [chain].
  - iDestruct (cell_ne with "Hc Hq") as %?. iPureIntro. set_solver.
  - iDestruct "Hc" as "[Hp Hc]". iDestruct (cell_ne with "Hp Hq") as %?.
    iDestruct ("IH" with "Hc Hq") as %?. iPureIntro. set_solver.
Qed.

Lemma chain_nodup p xs e : chain p xs e ⊢ ⌜NoDup (p :: xs)⌝.
Proof.
  iIntros "Hc". iInduction xs as [|x xs] "IH" forall (p); cbn [chain].
  - iPureIntro. apply NoDup_singleton.
  - iDestruct "Hc" as "[Hp Hc]". iDestruct (chain_fresh with "Hc Hp") as %?.
    iDestruct ("IH" with "Hc") as %?. iPureIntro. by constructor.
Qed.

(** The guards of the code: an owned cell is not at NULL. *)
Lemma hwp_not_null {A} p w (m : H A) Φ :
  cell p w -∗ (⌜p ≠ NULL⌝ -∗ cell p w -∗ hwp m Φ) -∗ hwp m Φ.
Proof.
  iIntros "Hp Hm" (s) "(%Hn & Hc & Hb)".
  iDestruct (ghost_map_lookup with "Hc Hp") as %Hw.
  iApply ("Hm" with "[] Hp [$Hc $Hb //]"). iPureIntro. intros ->. congruence.
Qed.

Ltac not_null H :=
  iApply (hwp_not_null with H); let Hn := fresh "Hnull" in iIntros (Hn) H;
  rw ?(proj2 (Z.eqb_neq _ _) Hn); cbn [orb].

Lemma list_init_spec l w Φ : cell l w -∗ (is_list l [] -∗ Φ tt) -∗ hwp (qp_list_init l) Φ.
Proof.
  iIntros "Hl HΦ". unfold qp_list_init. not_null "Hl". hstep. by iApply "HΦ".
Qed.

Lemma list_is_empty_spec l xs Φ :
  is_list l xs -∗ (is_list l xs -∗ Φ (bool_decide (xs = []))) -∗ hwp (qp_list_is_empty l) Φ.
Proof.
  iIntros "Hc HΦ". unfold is_list, qp_list_is_empty. iDestruct (chain_nodup with "Hc") as %Hnd.
  destruct xs as [|x xs]; cbn [chain].
  - not_null "Hc". repeat hstep. rw Z.eqb_refl. by iApply "HΦ".
  - iDestruct "Hc" as "[Hh Hc]". not_null "Hh". repeat hstep.
    rw (proj2 (Z.eqb_neq l x)); [|intros ->; apply NoDup_cons in Hnd; set_solver].
    iApply "HΦ". iFrame.
Qed.

Lemma list_first_spec l xs Φ :
  is_list l xs -∗ (is_list l xs -∗ Φ (default NULL (head xs))) -∗ hwp (qp_list_first l) Φ.
Proof.
  iIntros "Hc HΦ". unfold qp_list_first. hstep.
  iApply (list_is_empty_spec with "Hc"). iIntros "Hc".
  case_bool_decide as E; [subst; hstep; by iApply "HΦ"|].
  destruct xs as [|x xs]; [done|]. unfold is_list. cbn [chain]. iDestruct "Hc" as "[Hh Hc]".
  hstep. iApply "HΦ". iFrame.
Qed.

(** The successor of a cell in the middle of a list. *)
Lemma chain_first_spec l xs e Φ :
  l ≠ e → chain l xs e -∗ (chain l xs e -∗ Φ (default e (head xs))) -∗ hwp (qp_list_first l) Φ.
Proof.
  iIntros (Hle) "Hc HΦ". iDestruct (chain_nodup with "Hc") as %Hnd%NoDup_cons.
  unfold qp_list_first, qp_list_is_empty. hstep. destruct xs as [|x xs]; cbn [chain].
  - not_null "Hc". repeat hstep. rw (proj2 (Z.eqb_neq l e)) //. hstep. by iApply "HΦ".
  - iDestruct "Hc" as "[Hl Hc]". not_null "Hl". repeat hstep.
    rw (proj2 (Z.eqb_neq l x)); [|set_solver]. hstep. iApply "HΦ". iFrame.
Qed.

(** [qp_list_push] and [qp_list_pop] work behind any cell of a chain, which
    is what [qp_list_insert_after] and [qp_list_remove_after] use. *)
Lemma chain_app p xs y ys e :
  chain p (xs ++ y :: ys) e ⊣⊢ chain p xs y ∗ chain y ys e.
Proof.
  revert p. induction xs as [|x xs IH]; intros p; cbn [app chain]; [done|].
  by rw IH assoc.
Qed.

(** Pushing only looks at the head. *)
Lemma cell_push_spec l v n w Φ :
  l ↦ v -∗ cell n w -∗ (l ↦ n -∗ n ↦ v -∗ Φ tt) -∗ hwp (qp_list_push l n) Φ.
Proof.
  iIntros "Hl Hn HΦ". unfold qp_list_push. not_null "Hl". not_null "Hn". repeat hstep.
  iApply ("HΦ" with "Hl Hn").
Qed.

Lemma chain_push_spec l xs e n w Φ :
  chain l xs e -∗ cell n w -∗ (chain l (n :: xs) e -∗ Φ tt) -∗ hwp (qp_list_push l n) Φ.
Proof.
  iIntros "Hc Hn HΦ". destruct xs as [|x xs]; cbn [chain]; [|iDestruct "Hc" as "[Hc Hxs]"];
    iApply (cell_push_spec with "Hc Hn"); iIntros "Hc Hn"; iApply "HΦ"; iFrame.
Qed.

Lemma chain_pop_spec l x xs e Φ :
  chain l (x :: xs) e -∗ (chain l xs e -∗ x ↦? -∗ Φ tt) -∗ hwp (qp_list_pop l) Φ.
Proof.
  iIntros "[Hl Hc] HΦ". unfold qp_list_pop. not_null "Hl".
  destruct xs as [|y xs]; cbn [chain]; [|iDestruct "Hc" as "[Hc Hxs]"];
    repeat hstep; iApply ("HΦ" with "[-Hc] [Hc]"); iFrame.
Qed.

(** Popping an empty list is harmless: the head stays linked to itself. *)
Lemma list_pop_empty l Φ : is_list l [] -∗ (is_list l [] -∗ Φ tt) -∗ hwp (qp_list_pop l) Φ.
Proof.
  iIntros "Hl HΦ". unfold is_list, qp_list_pop. cbn [chain]. not_null "Hl".
  repeat hstep. by iApply "HΦ".
Qed.

(** * Queues *)

(** The cells of [xs] linked forth to [fin] and back to [pr]. *)
Fixpoint links (pr : Z) (xs : list Z) (fin : Z) : iProp Σ :=
  match xs with
  | [] => emp
  | x :: xs' => x ↦ pr ∗ (x + queue_next) ↦ default fin (head xs') ∗ links x xs' fin
  end.

Definition is_queue (q : Z) (xs : list Z) : iProp Σ :=
  q ↦ default q (last xs) ∗ (q + queue_next) ↦ default q (head xs) ∗ links q xs q.

(** A queue link that is not in any queue. *)
Definition unlinked (x : Z) : iProp Σ := x ↦? ∗ (x + queue_next) ↦?.

Lemma last_default (d x : Z) xs : default d (last (x :: xs)) = default x (last xs).
Proof. rw last_cons. by destruct (last xs). Qed.

Lemma last_app_default (d x : Z) l xs : default d (last (l ++ x :: xs)) = default x (last xs).
Proof. rw last_app last_cons. by destruct (last xs). Qed.

Lemma head_app_default (d y : Z) l xs : default d (head (l ++ y :: xs)) = default y (head l).
Proof. by destruct l. Qed.

Lemma head_snoc_default (d y : Z) l xs :
  default d (head ((l ++ [y]) ++ xs)) = default y (head l).
Proof. by destruct l. Qed.

Lemma links_app pr xs ys fin :
  links pr (xs ++ ys) fin ⊣⊢
  links pr xs (default fin (head ys)) ∗ links (default pr (last xs)) ys fin.
Proof.
  revert pr. induction xs as [|x xs IH]; intros pr; cbn [app links].
  - by rw left_id.
  - assert (default fin (head (xs ++ ys)) = default (default fin (head ys)) (head xs)) as ->
      by (by destruct xs).
    rw last_default.
    by rw IH !assoc.
Qed.

Lemma queue_init_spec q Φ : unlinked q -∗ (is_queue q [] -∗ Φ tt) -∗ hwp (qp_queue_init q) Φ.
Proof.
  iIntros "[(%w & Hp) (%w' & Hn)] HΦ". unfold qp_queue_init. not_null "Hp".
  repeat hstep. iApply "HΦ". unfold is_queue. cbn. iFrame.
Qed.

Lemma links_fresh pr xs fin q w : links pr xs fin -∗ cell q w -∗ ⌜q ∉ xs⌝.
Proof.
  iIntros "Hc Hq". iInduction xs as [|x xs] "IH" forall (pr); cbn [links].
  - iPureIntro. set_solver.
  - iDestruct "Hc" as "(Hx & _ & Hc)". iDestruct (cell_ne with "Hx Hq") as %?.
    iDestruct ("IH" with "Hc Hq") as %?. iPureIntro. set_solver.
Qed.

Lemma queue_is_empty_spec q xs Φ :
  is_queue q xs -∗ (is_queue q xs -∗ Φ (bool_decide (xs = []))) -∗ hwp (qp_queue_is_empty q) Φ.
Proof.
  iIntros "(Hp & Hn & Hl) HΦ". unfold qp_queue_is_empty. not_null "Hp".
  iDestruct (links_fresh with "Hl Hp") as %Hq. repeat hstep.
  replace (q =? default q (last xs)) with (bool_decide (xs = [])); [iApply "HΦ"; iFrame|].
  destruct xs as [|x xs]; [by rw Z.eqb_refl|].
  rw bool_decide_eq_false_2; [|done]. symmetry. apply Z.eqb_neq.
  destruct (last (x :: xs)) as [y|] eqn:E; [|by apply last_None in E].
  cbn. intros ->. apply Hq. by apply last_Some_elem_of.
Qed.

Lemma queue_first_spec q xs Φ :
  is_queue q xs -∗ (is_queue q xs -∗ Φ (default NULL (head xs))) -∗ hwp (qp_queue_first q) Φ.
Proof.
  iIntros "Hq HΦ". unfold qp_queue_first. hstep. iApply (queue_is_empty_spec with "Hq").
  iIntros "Hq". case_bool_decide as E; [subst; hstep; by iApply "HΦ"|].
  iDestruct "Hq" as "(Hp & Hn & Hl)". destruct xs as [|x xs]; [done|].
  hstep. iApply "HΦ". iFrame.
Qed.

Lemma queue_last_spec q xs Φ :
  is_queue q xs -∗ (is_queue q xs -∗ Φ (default NULL (last xs))) -∗ hwp (qp_queue_last q) Φ.
Proof.
  iIntros "Hq HΦ". unfold qp_queue_last. hstep. iApply (queue_is_empty_spec with "Hq").
  iIntros "Hq". case_bool_decide as E; [subst; hstep; by iApply "HΦ"|].
  iDestruct "Hq" as "(Hp & Hn & Hl)". destruct xs as [|x xs]; [done|].
  destruct (last (x :: xs)) as [y|] eqn:El; [|by apply last_None in El].
  hstep. iApply "HΦ". rw /is_queue El. iFrame.
Qed.

Lemma queue_insert_head_spec q xs n Φ :
  is_queue q xs -∗ unlinked n -∗ (is_queue q (n :: xs) -∗ Φ tt) -∗
  hwp (qp_queue_insert_after_head q n) Φ.
Proof.
  iIntros "(Hp & Hn & Hl) [(%w & Hnp) (%w' & Hnn)] HΦ". unfold qp_queue_insert_after_head.
  not_null "Hp". not_null "Hnp". destruct xs as [|x xs]; cbn.
  - repeat hstep. iApply "HΦ". unfold is_queue. cbn. iFrame.
  - iDestruct "Hl" as "(Hx & Hxn & Hl)". repeat hstep. iApply "HΦ".
    unfold is_queue. rw !last_default. cbn. iFrame.
Qed.

Lemma queue_insert_tail_spec q xs n Φ :
  is_queue q xs -∗ unlinked n -∗ (is_queue q (xs ++ [n]) -∗ Φ tt) -∗
  hwp (qp_queue_insert_after_tail q n) Φ.
Proof.
  iIntros "(Hp & Hn & Hl) [(%w & Hnp) (%w' & Hnn)] HΦ". unfold qp_queue_insert_after_tail.
  not_null "Hp". not_null "Hnp". destruct xs as [|x xs _] using rev_ind; cbn.
  - repeat hstep. iApply "HΦ". unfold is_queue. cbn. iFrame.
  - rw last_snoc links_app. cbn. iDestruct "Hl" as "(Hl & Hx & Hxn & _)". repeat hstep.
    iApply "HΦ". unfold is_queue.
    rw last_snoc !links_app last_snoc head_snoc_default head_app_default. cbn. iFrame.
Qed.

Lemma links_cells pr xs fin : links pr xs fin ⊢ ([∗ list] x ∈ xs, x ↦?) ∗ True.
Proof.
  iIntros "H". iInduction xs as [|x xs] "IH" forall (pr); cbn [links big_opL]; [auto|].
  iDestruct "H" as "(Hx & _ & H)". iDestruct ("IH" with "H") as "[$ _]".
  by iExists _.
Qed.

Lemma links_nodup pr xs fin : links pr xs fin ⊢ ⌜NoDup xs⌝.
Proof.
  iIntros "H". iInduction xs as [|x xs] "IH" forall (pr); cbn [links].
  - iPureIntro. constructor.
  - iDestruct "H" as "(Hx & _ & H)". iDestruct (links_fresh with "H Hx") as %?.
    iDestruct ("IH" with "H") as %?. iPureIntro. by constructor.
Qed.

(** A loop over the queue needs no more rounds than the heap has cells. *)
Lemma queue_fuel q xs Φ :
  is_queue q xs -∗ (∀ n, ⌜(length xs < n)%nat⌝ -∗ is_queue q xs -∗ Φ n) -∗ hwp heap_fuel Φ.
Proof.
  iApply hwp_fuel.
  - iIntros "(_ & _ & H)". by iApply links_nodup.
  - iIntros "(_ & _ & H)". by iApply links_cells.
Qed.

(** Ends of appended queues. *)
Ltac qnorm :=
  cbn; rw ?links_app ?last_app_default ?last_default ?last_snoc
    ?head_snoc_default ?head_app_default; cbn.

(** The two neighbours of a link meet. *)
Lemma queue_remove_spec q l1 x l2 Φ :
  is_queue q (l1 ++ x :: l2) -∗ (is_queue q (l1 ++ l2) -∗ unlinked x -∗ Φ tt) -∗
  hwp (qp_queue_remove x) Φ.
Proof.
  iIntros "(Hp & Hn & Hl) HΦ". unfold qp_queue_remove, is_queue.
  rw links_app. cbn. iDestruct "Hl" as "(Hl1 & Hx & Hxn & Hl2)". not_null "Hx".
  destruct l1 as [|y l1 _] using rev_ind; destruct l2 as [|z l2]; rw ?app_nil_r; qnorm.
  - repeat hstep. iApply ("HΦ" with "[$Hp $Hn $Hl1] [$Hx $Hxn]").
  - iDestruct "Hl2" as "(Hz & Hzn & Hl2)". repeat hstep.
    iApply ("HΦ" with "[-Hx Hxn] [$Hx $Hxn]"). iFrame.
  - iDestruct "Hl1" as "(Hl1 & Hy & Hyn & _)".
    repeat hstep. iApply ("HΦ" with "[-Hx Hxn] [$Hx $Hxn]"). iFrame.
  - iDestruct "Hl1" as "(Hl1 & Hy & Hyn & _)".
    iDestruct "Hl2" as "(Hz & Hzn & Hl2)". repeat hstep.
    iApply ("HΦ" with "[-Hx Hxn] [$Hx $Hxn]"). iFrame.
Qed.

(** Everything from [x] on moves to the new queue. *)
Lemma queue_split_spec q l1 x l2 n Φ :
  is_queue q (l1 ++ x :: l2) -∗ unlinked n -∗
  (is_queue q l1 -∗ is_queue n (x :: l2) -∗ Φ tt) -∗ hwp (qp_queue_split q x n) Φ.
Proof.
  iIntros "(Hp & Hn & Hl) [(%w & Hnp) (%w' & Hnn)] HΦ". unfold qp_queue_split, is_queue.
  rw links_app last_app_default. cbn. iDestruct "Hl" as "(Hl1 & Hx & Hxn & Hl2)".
  not_null "Hp". not_null "Hnp". not_null "Hx". rw last_default.
  destruct l1 as [|y l1 _] using rev_ind; destruct l2 as [|z l2 _] using rev_ind; qnorm.
  - repeat hstep. iApply ("HΦ" with "[$Hp $Hn]"). iFrame.
  - iDestruct "Hl2" as "(Hl2 & Hz & Hzn & _)". repeat hstep.
    iApply ("HΦ" with "[$Hp $Hn]"). iFrame.
  - iDestruct "Hl1" as "(Hl1 & Hy & Hyn & _)". repeat hstep.
    iApply ("HΦ" with "[$Hp $Hn Hl1 Hy Hyn] [-]"); iFrame.
  - iDestruct "Hl1" as "(Hl1 & Hy & Hyn & _)".
    iDestruct "Hl2" as "(Hl2 & Hz & Hzn & _)". repeat hstep.
    iApply ("HΦ" with "[$Hp $Hn Hl1 Hy Hyn] [-]"); iFrame.
Qed.

(** The links of the second queue are appended to the first; its head keeps
    stale pointers. *)
Lemma queue_merge_spec q l1 n l2 Φ :
  is_queue q l1 -∗ is_queue n l2 -∗ (is_queue q (l1 ++ l2) -∗ unlinked n -∗ Φ tt) -∗
  hwp (qp_queue_merge q n) Φ.
Proof.
  iIntros "(Hp & Hn & Hl1) (Hnp & Hnn & Hl2) HΦ". unfold qp_queue_merge, is_queue.
  not_null "Hp". not_null "Hnp".
  destruct l1 as [|y l1 _] using rev_ind; destruct l2 as [|x l2];
    [|destruct l2 as [|z l2 _] using rev_ind| |destruct l2 as [|z l2 _] using rev_ind];
    rw ?app_nil_r; qnorm.
  - repeat hstep. iApply ("HΦ" with "[$Hp $Hn] [$Hnp $Hnn]").
  - iDestruct "Hl2" as "(Hx & Hxn & _)". repeat hstep.
    iApply ("HΦ" with "[-Hnp Hnn] [$Hnp $Hnn]"). iFrame.
  - iDestruct "Hl2" as "(Hx & Hxn & Hl2 & Hz & Hzn & _)". repeat hstep.
    iApply ("HΦ" with "[-Hnp Hnn] [$Hnp $Hnn]"). iFrame.
  - iDestruct "Hl1" as "(Hl1 & Hy & Hyn & _)". repeat hstep.
    iApply ("HΦ" with "[-Hnp Hnn] [$Hnp $Hnn]"). iFrame.
  - iDestruct "Hl1" as "(Hl1 & Hy & Hyn & _)". iDestruct "Hl2" as "(Hx & Hxn & _)".
    repeat hstep. iApply ("HΦ" with "[-Hnp Hnn] [$Hnp $Hnn]"). iFrame.
  - iDestruct "Hl1" as "(Hl1 & Hy & Hyn & _)".
    iDestruct "Hl2" as "(Hx & Hxn & Hl2 & Hz & Hzn & _)". repeat hstep.
    iApply ("HΦ" with "[-Hnp Hnn] [$Hnp $Hnn]"). qnorm. iFrame.
Qed.
End lists.
