(* ===== verification/LinkProps.v ===== *)
(** Closed properties of the queues: client programs run on a heap and are
    compared with plain lists. *)

From S2P Require Import Prelude Heap Links.
#[local] Open Scope Z_scope.

(** * Queue clients *)

Inductive qop := QPushHead (x : Z) | QPushTail (x : Z) | QRemove (x : Z) | QFirst | QLast.

Definition qexec (q : Z) (o : qop) : H Z :=
  match o with
  | QPushHead x => qp_queue_insert_after_head q x;; mret 0
  | QPushTail x => qp_queue_insert_after_tail q x;; mret 0
  | QRemove x => qp_queue_remove x;; mret 0
  | QFirst => qp_queue_first q
  | QLast => qp_queue_last q
  end.

Fixpoint qexec_all (q : Z) (os : list qop) : H (list Z) :=
  match os with
  | [] => mret []
  | o :: os => r ← qexec q o; rs ← qexec_all q os; mret (r :: rs)
  end.

(** The same on a list of the linked nodes. *)
Definition qspec (l : list Z) (o : qop) : Z * list Z :=
  match o with
  | QPushHead x => (0, x :: l)
  | QPushTail x => (0, l ++ [x])
  | QRemove x => (0, filter (.≠ x) l)
  | QFirst => (default NULL (head l), l)
  | QLast => (default NULL (last l), l)
  end.

Fixpoint qspec_all (l : list Z) (os : list qop) : list Z :=
  match os with
  | [] => []
  | o :: os => (qspec l o).1 :: qspec_all (qspec l o).2 os
  end.

(** Nodes are linked at most once and removed only when linked. *)
Definition qvalid_op (N : gset Z) (l : list Z) (o : qop) : bool :=
  match o with
  | QPushHead x | QPushTail x => bool_decide (x ∈ N) && bool_decide (x ∉ l)
  | QRemove x => bool_decide (x ∈ l)
  | _ => true
  end.

Fixpoint qvalid (N : gset Z) (l : list Z) (os : list qop) : bool :=
  match os with
  | [] => true
  | o :: os => qvalid_op N l o && qvalid N (qspec l o).2 os
  end.

Section queue_client.
Context `{!heapGS Σ}.

(** The linked nodes, and the nodes that wait to be linked. *)
Definition qstate (q : Z) (N : gset Z) (l : list Z) : iProp Σ :=
  ⌜NoDup l ∧ list_to_set l ⊆ N⌝ ∗ is_queue q l ∗ [∗ set] x ∈ (N ∖ list_to_set l), unlinked x.

Lemma qstate_take N l x :
  x ∈ N → x ∉ l →
  ([∗ set] y ∈ (N ∖ list_to_set l), unlinked y) ⊢
  unlinked x ∗ [∗ set] y ∈ (N ∖ ({[x]} ∪ list_to_set l)), unlinked y.
Proof.
  intros HN Hl. rw (big_sepS_delete _ (N ∖ _) x); [|set_solver].
  by rw difference_difference_l_L (comm_L (∪)).
Qed.

Lemma qstate_put N l x :
  x ∈ N → x ∈ l →
  unlinked x ∗ ([∗ set] y ∈ (N ∖ list_to_set l), unlinked y) ⊢
  [∗ set] y ∈ (N ∖ list_to_set (filter (.≠ x) l)), unlinked y.
Proof.
  intros HN Hl. assert (N ∖ list_to_set (filter (.≠ x) l) = {[x]} ∪ N ∖ list_to_set l) as ->.
  { apply set_eq. intros y. rw elem_of_union !elem_of_difference !elem_of_list_to_set.
    rw list_elem_of_filter elem_of_singleton. destruct (decide (y = x)); naive_solver. }
  rw big_sepS_insert; [done|]. set_solver.
Qed.

Lemma qexec_correct q N l o Φ :
  qvalid_op N l o = true →
  qstate q N l -∗ (qstate q N (qspec l o).2 -∗ Φ (qspec l o).1) -∗ hwp (qexec q o) Φ.
Proof.
  intros Hv. iIntros "([%Hnd %Hsub] & Hq & Hout) HΦ".
  destruct o as [x|x|x| |]; cbn [qexec qspec fst snd]; cbn in Hv; rw ?andb_true_iff ?bool_decide_eq_true in Hv.
  - destruct Hv as [HN Hl]. iDestruct (qstate_take with "Hout") as "[Hx Hout]"; [done..|].
    hstep. iApply (queue_insert_head_spec with "Hq Hx"). iIntros "Hq". hstep.
    iApply "HΦ". iFrame. iPureIntro. split; [by constructor|set_solver].
  - destruct Hv as [HN Hl]. iDestruct (qstate_take with "Hout") as "[Hx Hout]"; [done..|].
    hstep. iApply (queue_insert_tail_spec with "Hq Hx"). iIntros "Hq". hstep.
    iApply "HΦ". unfold qstate. rw list_to_set_app_L (comm_L (∪)).
    assert (list_to_set [x] = ({[x]} : gset Z)) as -> by set_solver.
    iFrame. iPureIntro. split; [|set_solver].
    apply NoDup_app. split_and!; [done|set_solver|apply NoDup_singleton].
  - apply list_elem_of_split in Hv as (l1 & l2 & ->).
    assert (filter (.≠ x) (l1 ++ x :: l2) = l1 ++ l2) as E.
    { apply NoDup_app in Hnd as (_ & Hd & [Hx _]%NoDup_cons).
      rw filter_app filter_cons_False; [|naive_solver].
      rw !filter_ne_id //. intros Hy. apply (Hd x Hy). left. }
    hstep. iApply (queue_remove_spec with "Hq"). iIntros "Hq Hx". hstep.
    iDestruct (qstate_put _ _ x with "[$Hx $Hout]") as "Hout"; [set_solver..|].
    iApply "HΦ". unfold qstate. rw E. iFrame. iPureIntro. split; [|set_solver].
    apply NoDup_app in Hnd as (? & Hd & [? ?]%NoDup_cons).
    apply NoDup_app. split_and!; [done| |done]. intros y Hy ?. apply (Hd y Hy). by right.
  - iApply (queue_first_spec with "Hq"). iIntros "Hq". iApply "HΦ". by iFrame.
  - iApply (queue_last_spec with "Hq"). iIntros "Hq". iApply "HΦ". by iFrame.
Qed.

Lemma qexec_all_correct q N l os :
  qvalid N l os = true → qstate q N l ⊢ hwp (qexec_all q os) (λ rs, ⌜rs = qspec_all l os⌝).
Proof.
  revert l. induction os as [|o os IH]; intros l; cbn [qexec_all qspec_all qvalid].
  - iIntros (_) "_". by hstep.
  - intros [Ho Hos]%andb_true_iff. iIntros "Hs". hstep.
    iApply (qexec_correct with "Hs"); [done|]. iIntros "Hs". hstep.
    iApply (hwp_wand with "[Hs]"); [by iApply IH|]. iIntros (rs ->). by hstep.
Qed.
End queue_client.

(** * Properties *)

(** The cells of queue objects. *)
Definition queue_cells (l : list Z) : list Z := l ≫= λ x, [x; x + queue_next].

Definition mapped (s : heap) (l : list Z) : Prop :=
  cells s !! NULL = None ∧ NoDup l ∧ ∀ a, a ∈ l → is_Some (cells s !! a).

(** C7. A queue behaves as a list: after [qp_queue_init], any sequence of
    insertions at either end, removals of linked nodes and looks at the ends runs
    without a fault and returns what the list returns. *)
Theorem queue_refines_list q nodes os s :
  mapped s (queue_cells (q :: nodes)) →
  qvalid (list_to_set nodes) [] os = true →
  ∃ s', (qp_queue_init q;; qexec_all q os) s = Ok (qspec_all [] os, s').
Proof.
  intros (Hnull & Hnd & Hm) Hv.
  destruct (hwp_adequacy heapΣ (qp_queue_init q;; qexec_all q os) s
    (λ rs _, rs = qspec_all [] os) Hnull) as (rs & s' & E & ->); [|by exists s'].
  iIntros (G) "[Hc _]". iDestruct (cells_extract with "Hc") as "Hc"; [done..|].
  unfold queue_cells. rw bind_cons big_sepL_app. cbn [big_opL].
  iDestruct "Hc" as "[(Hp & Hn & _) Hc]".
  hstep. iApply (queue_init_spec with "[Hp Hn]"); [iFrame|]. iIntros "Hq".
  iApply (hwp_wand with "[-]").
  - iApply (qexec_all_correct q (list_to_set nodes) []); [done|]. iFrame.
    iSplit; [iPureIntro; split; [constructor|set_solver]|].
    rw difference_empty_L big_sepS_list_to_set.
    + clear. iInduction nodes as [|x nodes] "IH"; [done|]. rw bind_cons big_sepL_app. cbn [big_opL].
      iDestruct "Hc" as "[($ & $ & _) Hc]". by iApply "IH".
    + assert (∀ l, NoDup (queue_cells l) → NoDup l) as Hq.
      { clear. induction l as [|x l IH]; cbn; [constructor|].
        intros [Hx [_ Hl]%NoDup_cons]%NoDup_cons. constructor; [|by apply IH].
        intros Hin. apply Hx. right. apply list_elem_of_bind. exists x. split; [left|done]. }
      apply Hq in Hnd. by apply NoDup_cons in Hnd as [_ ?].
  - iIntros (rs ->) "%s'' _". done.
Qed.

Definition demo_links : heap :=
  MkHeap (list_to_map ((λ a, (a, None)) <$> queue_cells [100; 200; 300; 400])) ∅ [].

Lemma queue_refines_list_witness : ∃ s',
  (qp_queue_init 100;;
   qexec_all 100 [QPushHead 200; QPushTail 300; QPushHead 400; QRemove 200; QFirst; QLast])
    demo_links = Ok ([0; 0; 0; 0; 400; 300], s').
Proof.
  apply (queue_refines_list 100 [200; 300; 400]
    [QPushHead 200; QPushTail 300; QPushHead 400; QRemove 200; QFirst; QLast] demo_links).
  - split_and!; [done|by apply (bool_decide_unpack _); vm_compute|].
    intros a Ha. unfold demo_links. cbn in Ha. repeat (apply elem_of_cons in Ha as [->|Ha]; [by eexists|]).
    by apply elem_of_nil in Ha.
  - by vm_compute.
Defined.

Section triples.
Context `{!heapGS Σ}.

(** Splitting a queue at a node and merging the halves back is the identity,
    whatever the position, and frees the second head. *)
Theorem queue_split_merge q l1 x l2 n Φ :
  is_queue q (l1 ++ x :: l2) -∗ unlinked n -∗
  (is_queue q (l1 ++ x :: l2) -∗ unlinked n -∗ Φ tt) -∗
  hwp (qp_queue_split q x n;; qp_queue_merge q n) Φ.
Proof.
  iIntros "Hq Hn HΦ". hstep. iApply (queue_split_spec with "Hq Hn"). iIntros "Hq Hn".
  iApply (queue_merge_spec with "Hq Hn"). iApply "HΦ".
Qed.

(** A list is a stack: what is pushed comes first and is popped next; pushing
    and popping behind any cell leaves the rest of the list alone. *)
Theorem list_push_pop l xs n Φ :
  is_list l xs -∗ n ↦? -∗ (is_list l xs -∗ n ↦? -∗ Φ n) -∗
  hwp (qp_list_push l n;; r ← qp_list_first l; qp_list_pop l;; mret r) Φ.
Proof.
  iIntros "Hl [%w Hn] HΦ". hstep. iApply (chain_push_spec with "Hl Hn"). iIntros "Hl".
  hstep. iApply (list_first_spec with "Hl"). iIntros "Hl". hstep.
  iApply (chain_pop_spec with "Hl"). iIntros "Hl Hn". hstep. iApply ("HΦ" with "Hl Hn").
Qed.
End triples.
