(* ===== verification/Pool.v ===== *)
(** The memory pool of [src/src/core/qp_pool_core.c]: fixed-size elements carved
    out of one [malloc] block, with a free list threaded through their headers. *)

From S2P Require Import Prelude Heap Links.
#[local] Open Scope Z_scope.

Definition QP_ERROR : Z := -1.
Definition QP_SUCCESS : Z := 0.

(** * Layout (LP64) *)

(** [struct qp_pool_elm_s]: the link [next] at 0, then [root]. *)
Definition elm_root : Z := 8.
Definition sizeof_elm : Z := 16.

(** [struct qp_pool_s]: the head [free] at 0, then the other fields. *)
Definition pool_room : Z := 8.
Definition pool_info_node : Z := 16.
Definition pool_nsize : Z := 24.
Definition pool_esize : Z := 32.
Definition pool_nfree : Z := 40.
Definition pool_is_inited : Z := 48.
Definition pool_is_alloced : Z := 49.
Definition sizeof_pool : Z := 56.

(** * The code *)

Definition qp_pool_is_inited (pool : Z) : H bool :=
  if pool =? NULL then mret false else b ← load (pool + pool_is_inited); mret (negb (b =? 0)).

Definition qp_pool_is_alloced (pool : Z) : H bool :=
  if pool =? NULL then mret false else b ← load (pool + pool_is_alloced); mret (negb (b =? 0)).

Definition qp_pool_set_inited (pool : Z) : H unit :=
  if pool =? NULL then mret tt else store (pool + pool_is_inited) 1.

Definition qp_pool_set_alloced (pool : Z) : H unit :=
  if pool =? NULL then mret tt else store (pool + pool_is_alloced) 1.

Definition qp_pool_unset_inited (pool : Z) : H unit :=
  if pool =? NULL then mret tt else store (pool + pool_is_inited) 0.

Definition qp_pool_create (pool : Z) : H Z :=
  pool ← (if pool =? NULL then
            pool ← malloc sizeof_pool;
            if pool =? NULL then mret NULL else
            memset0 pool sizeof_pool;; qp_pool_set_alloced pool;; mret pool
          else memset0 pool sizeof_pool;; mret pool);
  if pool =? NULL then mret NULL else
  qp_list_init pool;; qp_pool_set_inited pool;; mret pool.

Definition qp_pool_destroy (pool : Z) (force : bool) : H Z :=
  inited ← qp_pool_is_inited pool;
  if negb inited then mret QP_ERROR else
  busy ← (if negb force then
            nfree ← load (pool + pool_nfree); nsize ← load (pool + pool_nsize);
            mret (negb (nfree =? nsize))
          else mret false);
  if (busy : bool) then mret QP_ERROR else
  room ← load (pool + pool_room);
  (if negb (room =? NULL) then
     room ← load (pool + pool_room); free room;; store (pool + pool_room) NULL
   else mret tt);;
  qp_pool_unset_inited pool;;
  alloced ← qp_pool_is_alloced pool;
  (if (alloced : bool) then free pool else mret tt);;
  mret QP_SUCCESS.

(** One round of the loop that threads the elements onto the free list. *)
Definition qp_pool_init_body (pool bucket : Z) (v : Z * Z) : H ((Z * Z) + unit) :=
  let '(i, offset) := v in
  nsize ← load (pool + pool_nsize);
  if i <? nsize then
    room ← load (pool + pool_room);
    store (room + offset + elm_root) pool;;
    qp_list_push pool (room + offset);;
    mret (inl (u64 (i + 1), u64 (offset + bucket)))
  else mret (inr tt).

Definition qp_pool_init (pool elmsize count : Z) : H Z :=
  pool ← qp_pool_create pool;
  if pool =? NULL then mret NULL else
  store (pool + pool_esize) elmsize;;
  store (pool + pool_nsize) count;;
  nsize ← load (pool + pool_nsize); store (pool + pool_nfree) nsize;;
  esize ← load (pool + pool_esize);
  let bucket := u64 (esize + sizeof_elm) in
  nsize ← load (pool + pool_nsize);
  room ← malloc (u64 (bucket * nsize));
  store (pool + pool_room) room;;
  room ← load (pool + pool_room);
  if room =? NULL then qp_pool_destroy pool true;; mret NULL else
  loop (S (Z.to_nat count)) (qp_pool_init_body pool bucket) (0, 0);;
  mret pool.

Definition qp_pool_available (pool : Z) : H Z := load (pool + pool_nfree).

Definition qp_pool_used (pool : Z) : H Z :=
  nsize ← load (pool + pool_nsize); nfree ← load (pool + pool_nfree);
  mret (u64 (nsize - nfree)).

Definition qp_pool_to_array (pool index : Z) : H Z :=
  inited ← qp_pool_is_inited pool;
  if (inited : bool) then
    room ← load (pool + pool_room); esize ← load (pool + pool_esize);
    mret (u64 (room + u64 (index * u64 (esize + sizeof_elm)) + sizeof_elm))
  else mret NULL.

Definition qp_pool_belong_to (ptr : Z) : Z := ptr - sizeof_elm.

Definition qp_pool_alloc (pool size : Z) : H Z :=
  esize ← load (pool + pool_esize);
  if negb (size <=? esize) then mret NULL else
  nfree ← qp_pool_available pool;
  if negb (0 <? nfree) then mret NULL else
  node ← qp_list_first pool;
  if node =? NULL then mret NULL else
  qp_list_pop pool;;
  nfree ← load (pool + pool_nfree); store (pool + pool_nfree) (u64 (nfree - 1));;
  store node NULL;;
  let elements := qp_list_data node 0 in
  mret (elements + sizeof_elm).

Definition qp_pool_free (pool ptr : Z) : H Z :=
  let elements := qp_pool_belong_to ptr in
  root ← load (elements + elm_root);
  if negb (root =? pool) then mret QP_ERROR else
  qp_list_push pool elements;;
  nfree ← load (pool + pool_nfree); store (pool + pool_nfree) (u64 (nfree + 1));;
  mret QP_SUCCESS.

(** * Specification *)

Section pool.
Context `{!heapGS Σ}.

(** The element addresses of a room at [R] for [n] elements of [es] bytes. *)
Definition slots (R es : Z) (n : nat) : list Z :=
  (λ i, R + Z.of_nat i * (es + sizeof_elm)) <$> seq 0 n.

(** An element but for its link: its root, and its [es] bytes of data. *)
Definition elm (P es e : Z) : iProp Σ :=
  (e + elm_root) ↦ P ∗ padding e sizeof_elm [0; elm_root] ∗ region (e + sizeof_elm) es.

(** What [qp_pool_alloc] hands out, at [e + sizeof_elm]. *)
Definition allocated (P R es : Z) (n : nat) (e : Z) : iProp Σ :=
  ⌜e ∈ slots R es n⌝ ∗ e ↦? ∗ elm P es e.

Definition pool_offs : list Z :=
  [0; pool_room; pool_info_node; pool_nsize; pool_esize; pool_nfree;
   pool_is_inited; pool_is_alloced].

(** The fields of the pool object, its list head apart. *)
Definition pool_obj (P room nsize esize nfree inited alloced : Z) : iProp Σ :=
  (P + pool_room) ↦ room ∗ (P + pool_info_node) ↦ 0 ∗ (P + pool_nsize) ↦ nsize ∗
  (P + pool_esize) ↦ esize ∗ (P + pool_nfree) ↦ nfree ∗
  (P + pool_is_inited) ↦ inited ∗ (P + pool_is_alloced) ↦ alloced ∗
  padding P sizeof_pool pool_offs.

(** The room fits the address space. *)
Definition room_ok (R es : Z) (n : nat) : Prop :=
  0 < R ∧ 0 ≤ es ∧ R + Z.of_nat n * (es + sizeof_elm) ≤ 2 ^ 64.

(** The pool at [P]: of the [n] elements in the room at [R], those in [fr] are
    free, in the order they will be handed out. *)
Definition is_pool (P R es : Z) (n : nat) (alloced : Z) (fr : list Z) : iProp Σ :=
  ⌜fr ⊆ slots R es n ∧ room_ok R es n⌝ ∗
  is_list P fr ∗ pool_obj P R (Z.of_nat n) es (Z.of_nat (length fr)) 1 alloced ∗
  [∗ list] e ∈ fr, elm P es e.

Lemma slots_bound R es n e :
  room_ok R es n → e ∈ slots R es n →
  R ≤ e ∧ e + sizeof_elm + es ≤ R + Z.of_nat n * (es + sizeof_elm).
Proof.
  intros (HR & Hes & _) (i & -> & Hi)%list_elem_of_fmap. rw elem_of_seq in Hi.
  unfold sizeof_elm. nia.
Qed.

Lemma slots_NoDup R es n : 0 ≤ es → NoDup (slots R es n).
Proof.
  intros Hes. apply NoDup_fmap_2_strong; [|apply NoDup_seq].
  intros i j _ _. unfold sizeof_elm. nia.
Qed.

(** Elements do not overlap. *)
Lemma slots_disjoint R es n e1 e2 :
  0 ≤ es → e1 ∈ slots R es n → e2 ∈ slots R es n → e1 ≠ e2 →
  e1 + sizeof_elm + es ≤ e2 ∨ e2 + sizeof_elm + es ≤ e1.
Proof.
  intros Hes (i & -> & _)%list_elem_of_fmap (j & -> & _)%list_elem_of_fmap Hne.
  assert (i ≠ j) by congruence. unfold sizeof_elm. nia.
Qed.

Lemma free_count R es n fr : 0 ≤ es → fr ⊆ slots R es n → NoDup fr → (length fr ≤ n)%nat.
Proof.
  intros Hes Hsub Hnd. transitivity (length (slots R es n)).
  - by apply submseteq_length, NoDup_submseteq.
  - unfold slots. by rw length_fmap length_seq.
Qed.

(** ** The pool without its elements

    What the elements hold is the business of whoever fills them; the pool needs
    their links and roots only. *)

Definition shell (P R es : Z) (n : nat) (alloced : Z) (fr : list Z) : iProp Σ :=
  ⌜fr ⊆ slots R es n ∧ room_ok R es n⌝ ∗
  is_list P fr ∗ pool_obj P R (Z.of_nat n) es (Z.of_nat (length fr)) 1 alloced.

Lemma is_pool_shell P R es n alc fr :
  is_pool P R es n alc fr ⊣⊢ shell P R es n alc fr ∗ [∗ list] e ∈ fr, elm P es e.
Proof.
  unfold is_pool, shell. iSplit; [iIntros "($ & $ & $ & $)"|iIntros "(($ & $ & $) & $)"].
Qed.

Lemma shell_count P R es n alc fr :
  shell P R es n alc fr ⊢
  ⌜NoDup fr ∧ (P ∉ fr) ∧ (length fr ≤ n)%nat ∧ 0 ≤ es ∧ Z.of_nat n < 2 ^ 60⌝.
Proof.
  iIntros "([% %Hr] & Hl & _)". iDestruct (chain_nodup with "Hl") as %[HP Hnd]%NoDup_cons.
  iPureIntro. destruct Hr as (? & ? & Hr). unfold sizeof_elm in Hr.
  split_and!; [done..|by eapply free_count|done|]. nia.
Qed.

(** Whatever has the address of a list cell is not on the list. *)
Lemma is_pool_count P R es n alc fr :
  is_pool P R es n alc fr ⊢
  ⌜NoDup fr ∧ (P ∉ fr) ∧ (length fr ≤ n)%nat ∧ 0 ≤ es ∧ Z.of_nat n < 2 ^ 60⌝.
Proof. rw is_pool_shell shell_count. by iIntros "[% _]". Qed.

Lemma shell_alloc_spec P R es n alc fr size Φ :
  shell P R es n alc fr -∗
  ((⌜es < size ∨ fr = []⌝ -∗ shell P R es n alc fr -∗ Φ NULL) ∧
   (∀ e fr', ⌜size ≤ es ∧ fr = e :: fr' ∧ e ∈ slots R es n⌝ -∗ shell P R es n alc fr' -∗
      e ↦ NULL -∗ Φ (e + sizeof_elm))) -∗
  hwp (qp_pool_alloc P size) Φ.
Proof.
  iIntros "Hpool HΦ". iDestruct (shell_count with "Hpool") as %(Hnd & HP & Hlen & Hes & Hn).
  iDestruct "Hpool" as "(%Hpure & Hl & (Hroom & Hinfo & Hns & Hes & Hnf & Hi & Ha & Hpad))".
  unfold qp_pool_alloc, qp_pool_available. repeat hstep.
  destruct (size <=? es) eqn:Hsz; [apply Z.leb_le in Hsz|apply Z.leb_gt in Hsz]; cbn [negb].
  2: { hstep. iDestruct "HΦ" as "[HΦ _]". iApply ("HΦ" with "[]"); [auto|]. by iFrame. }
  repeat hstep. destruct fr as [|e fr']; cbn [length].
  { change (0 <? Z.of_nat 0) with false. cbn [negb]. hstep. iDestruct "HΦ" as "[HΦ _]".
    iApply ("HΦ" with "[]"); [auto|]. unfold shell, pool_obj. cbn [length]. by iFrame. }
  rw (proj2 (Z.ltb_lt 0 _)); [|lia]. cbn [negb]. hstep.
  iApply (list_first_spec with "Hl"). iIntros "Hl". cbn [head default].
  destruct Hpure as [Hsub Hr].
  assert (e ∈ slots R es n) as He by (apply Hsub; left).
  destruct (slots_bound _ _ _ _ Hr He) as [? _]. destruct Hr as (? & ? & ?).
  rw (proj2 (Z.eqb_neq e NULL)); [|unfold NULL; lia]. hstep.
  iApply (chain_pop_spec with "Hl"). iIntros "Hl (%w & He)". repeat hstep.
  unfold qp_list_data. rw Z.sub_0_r. cbn [length] in Hlen.
  iDestruct "HΦ" as "[_ HΦ]". iApply ("HΦ" with "[//] [-He] He").
  unfold shell, pool_obj. rw wrap_small; [|lia].
  replace (Z.of_nat (S (length fr')) - 1) with (Z.of_nat (length fr')) by lia. iFrame.
  iPureIntro. split; [|done]. intros x Hx. apply Hsub. by right.
Qed.

Lemma shell_available_spec P R es n alc fr Φ :
  shell P R es n alc fr -∗
  (shell P R es n alc fr -∗ Φ (Z.of_nat (length fr))) -∗ hwp (qp_pool_available P) Φ.
Proof.
  iIntros "(%Hpure & Hl & (Hroom & Hinfo & Hns & Hes & Hnf & Hi & Ha & Hpad)) HΦ".
  unfold qp_pool_available. hstep. iApply "HΦ". unfold shell, pool_obj. by iFrame.
Qed.

Lemma shell_free_spec P R es n alc fr e Φ :
  e ∈ slots R es n →
  shell P R es n alc fr -∗ e ↦? -∗ (e + elm_root) ↦ P -∗
  (shell P R es n alc (e :: fr) -∗ (e + elm_root) ↦ P -∗ Φ QP_SUCCESS) -∗
  hwp (qp_pool_free P (e + sizeof_elm)) Φ.
Proof.
  iIntros (He) "Hpool (%w & Hlink) Hroot HΦ".
  iDestruct (shell_count with "Hpool") as %(Hnd & HP & Hlen & Hes & Hn).
  iDestruct "Hpool" as "([%Hsub %Hr] & Hl & (Hroom & Hinfo & Hns & Hes & Hnf & Hi & Ha & Hpad))".
  unfold qp_pool_free, qp_pool_belong_to. rw Z.add_simpl_r. repeat hstep.
  rw Z.eqb_refl. cbn [negb]. hstep. iApply (chain_push_spec with "Hl Hlink"). iIntros "Hl".
  repeat hstep. iApply ("HΦ" with "[-Hroot] Hroot"). unfold shell, pool_obj. rw wrap_small; [|lia].
  replace (Z.of_nat (length fr) + 1) with (Z.of_nat (length (e :: fr))) by (cbn; lia).
  iFrame. iPureIntro. split; [|done]. intros x. rw elem_of_cons. set_solver.
Qed.

(** An element by its number. *)
Lemma pool_obj_to_array P R es n nf alc i Φ :
  room_ok R es n → (i < n)%nat → P ≠ NULL → 0 < es →
  pool_obj P R (Z.of_nat n) es nf 1 alc -∗
  (pool_obj P R (Z.of_nat n) es nf 1 alc -∗ Φ (R + Z.of_nat i * (es + sizeof_elm) + sizeof_elm)) -∗
  hwp (qp_pool_to_array P (Z.of_nat i)) Φ.
Proof.
  iIntros ((HR & Hes & Hfit) Hi HP Hpos) "(Hroom & Hinfo & Hns & Hes & Hnf & Hi & Ha & Hpad) HΦ".
  unfold qp_pool_to_array, qp_pool_is_inited. rw (proj2 (Z.eqb_neq _ _) HP). repeat hstep.
  cbn [Z.eqb negb]. repeat hstep. unfold sizeof_elm in *.
  assert ((Z.of_nat i + 1) * (es + 16) ≤ Z.of_nat n * (es + 16)) by nia.
  assert (0 ≤ Z.of_nat i * (es + 16)) by nia. assert (es + 16 ≤ Z.of_nat n * (es + 16)) by nia.
  rw (wrap_small 64 (es + 16)); [|lia]. rw (wrap_small 64 (Z.of_nat i * (es + 16))); [|lia].
  rw wrap_small; [|lia]. iApply "HΦ". unfold pool_obj. iFrame.
Qed.

Lemma shell_to_array_spec P R es n alc fr i Φ :
  (i < n)%nat → P ≠ NULL → 0 < es →
  shell P R es n alc fr -∗
  (shell P R es n alc fr -∗ Φ (R + Z.of_nat i * (es + sizeof_elm) + sizeof_elm)) -∗
  hwp (qp_pool_to_array P (Z.of_nat i)) Φ.
Proof.
  iIntros (Hi HP Hpos) "([%Hsub %Hr] & Hl & Hobj) HΦ".
  iApply (pool_obj_to_array with "Hobj"); [done..|]. iIntros "Hobj". iApply "HΦ". by iFrame.
Qed.


(** ** Allocation *)

Lemma pool_alloc_spec P R es n alc fr size Φ :
  is_pool P R es n alc fr -∗
  ((⌜es < size ∨ fr = []⌝ -∗ is_pool P R es n alc fr -∗ Φ NULL) ∧
   (∀ e fr', ⌜size ≤ es ∧ fr = e :: fr'⌝ -∗ is_pool P R es n alc fr' -∗
      allocated P R es n e -∗ Φ (e + sizeof_elm))) -∗
  hwp (qp_pool_alloc P size) Φ.
Proof.
  iIntros "Hpool HΦ". iDestruct (is_pool_shell with "Hpool") as "[Hpool Helms]".
  iApply (shell_alloc_spec with "Hpool"). iSplit.
  - iIntros (Hc) "Hpool". iDestruct "HΦ" as "[HΦ _]". iApply ("HΦ" with "[//]").
    iApply is_pool_shell. iFrame.
  - iIntros (e fr' (Hsz & -> & He)) "Hpool Hlink". iDestruct "Helms" as "[Helm Helms]".
    iDestruct "HΦ" as "[_ HΦ]". iApply ("HΦ" with "[//] [Hpool Helms]").
    + iApply is_pool_shell. iFrame.
    + unfold allocated. by iFrame.
Qed.

(** The counters. *)
Lemma pool_available_spec P R es n alc fr Φ :
  is_pool P R es n alc fr -∗
  (is_pool P R es n alc fr -∗ Φ (Z.of_nat (length fr))) -∗ hwp (qp_pool_available P) Φ.
Proof.
  iIntros "Hpool HΦ". iDestruct (is_pool_shell with "Hpool") as "[Hpool Helms]".
  iApply (shell_available_spec with "Hpool"). iIntros "Hpool". iApply "HΦ".
  iApply is_pool_shell. iFrame.
Qed.

Lemma pool_used_spec P R es n alc fr Φ :
  is_pool P R es n alc fr -∗
  (is_pool P R es n alc fr -∗ Φ (Z.of_nat (n - length fr))) -∗ hwp (qp_pool_used P) Φ.
Proof.
  iIntros "Hpool HΦ". iDestruct (is_pool_count with "Hpool") as %(_ & _ & Hlen & _ & Hn).
  iDestruct "Hpool" as "(%Hpure & Hl & (Hroom & Hinfo & Hns & Hes & Hnf & Hi & Ha & Hpad) & Helms)".
  unfold qp_pool_used. repeat hstep. rw wrap_small; [|lia].
  replace (Z.of_nat n - Z.of_nat (length fr)) with (Z.of_nat (n - length fr)) by lia.
  iApply "HΦ". unfold is_pool, pool_obj. by iFrame.
Qed.

(** ** Release *)

Lemma pool_free_spec P R es n alc fr e Φ :
  is_pool P R es n alc fr -∗ allocated P R es n e -∗
  (is_pool P R es n alc (e :: fr) -∗ Φ QP_SUCCESS) -∗
  hwp (qp_pool_free P (e + sizeof_elm)) Φ.
Proof.
  iIntros "Hpool (%He & Hlink & Hroot & Helm) HΦ". 
  iDestruct (is_pool_shell with "Hpool") as "[Hpool Helms]". iApply (shell_free_spec with "Hpool Hlink Hroot"); [done|].
  iIntros "Hpool Hroot". iApply "HΦ". iApply is_pool_shell. iFrame.
Qed.

(** A pointer that another pool handed out is refused. *)
Lemma pool_free_foreign P P' R es n e Φ :
  P' ≠ P → allocated P' R es n e -∗ (allocated P' R es n e -∗ Φ QP_ERROR) -∗
  hwp (qp_pool_free P (e + sizeof_elm)) Φ.
Proof.
  iIntros (Hne) "(%He & Hlink & Hroot & Hpad & Hdata) HΦ".
  unfold qp_pool_free, qp_pool_belong_to. rw Z.add_simpl_r. repeat hstep.
  rw (proj2 (Z.eqb_neq P' P)); [|done]. cbn [negb]. hstep. iApply "HΦ". by iFrame.
Qed.

(** ** Creation and destruction *)

Lemma pool_offs_ok : NoDup pool_offs ∧ Forall (λ o, 0 ≤ o < sizeof_pool) pool_offs.
Proof.
  split; [by apply (bool_decide_unpack _); vm_compute|].
  by apply (bool_decide_unpack _); vm_compute.
Qed.

(** The pool object goes back to being plain memory. *)
Lemma pool_obj_region P room ns es nf ini alc :
  P ↦? -∗ pool_obj P room ns es nf ini alc -∗ region P sizeof_pool.
Proof.
  iIntros "HP (Hroom & Hinfo & Hns & Hes & Hnf & Hi & Ha & Hpad)".
  destruct pool_offs_ok. rw (region_struct P sizeof_pool pool_offs) //. iFrame "Hpad".
  unfold pool_offs. cbn [big_opL]. rw Z.add_0_r.
  iFrame "HP". iSplitL "Hroom"; [by iExists _|]. iSplitL "Hinfo"; [by iExists _|].
  iSplitL "Hns"; [by iExists _|]. iSplitL "Hes"; [by iExists _|].
  iSplitL "Hnf"; [by iExists _|]. iSplitL "Hi"; [by iExists _|].
  by iSplitL "Ha"; [iExists _|].
Qed.

(** What becomes of the pool object itself: [malloc]ed ones are freed. *)
Definition owner (P alloced : Z) : iProp Σ :=
  ⌜alloced = 0⌝ ∨ ⌜alloced = 1⌝ ∗ block P sizeof_pool.
Definition leftover (P alloced : Z) : iProp Σ :=
  ⌜alloced = 0⌝ ∗ region P sizeof_pool ∨ ⌜alloced = 1⌝.

Lemma pool_create_spec P Φ :
  (⌜P = NULL⌝ ∨ ⌜P ≠ NULL⌝ ∗ region P sizeof_pool) -∗
  ((⌜P = NULL⌝ -∗ Φ NULL) ∧
   (∀ p alc, ⌜p ≠ NULL ∧ (P = p ∧ alc = 0 ∨ P = NULL ∧ alc = 1)⌝ -∗ owner p alc -∗
      is_list p [] -∗ pool_obj p 0 0 0 0 1 alc -∗ Φ p)) -∗
  hwp (qp_pool_create P) Φ.
Proof.
  destruct pool_offs_ok as [Hnd Hr]. iIntros "HP HΦ". unfold qp_pool_create. hstep.
  iDestruct "HP" as "[->|[%HP Hr]]".
  - rw Z.eqb_refl. hstep. iApply hwp_malloc. iSplit.
    + rw Z.eqb_refl. hstep. rw Z.eqb_refl. hstep. iDestruct "HΦ" as "[HΦ _]". by iApply "HΦ".
    + iIntros (p Hp) "Hblk Hr". rw (proj2 (Z.eqb_neq p NULL)); [|unfold NULL; lia]. hstep.
      iApply (hwp_memset0 with "Hr"); [done..|]. iIntros "Hz Hpad".
      unfold pool_offs at 1. cbn [big_opL]. rw Z.add_0_r.
      iDestruct "Hz" as "(HP & ? & ? & ? & ? & ? & ? & ? & _)".
      unfold qp_pool_set_alloced, qp_pool_set_inited.
      rw (proj2 (Z.eqb_neq p NULL)); [|unfold NULL; lia]. repeat hstep.
      rw (proj2 (Z.eqb_neq p NULL)); [|unfold NULL; lia]. hstep.
      iApply (list_init_spec with "HP"). iIntros "HP". repeat hstep.
      iDestruct "HΦ" as "[_ HΦ]". iApply ("HΦ" with "[] [Hblk] HP [-]").
      * iPureIntro. split; [unfold NULL; lia|by right].
      * iRight. by iFrame.
      * unfold pool_obj. iFrame.
  - rw (proj2 (Z.eqb_neq P NULL)); [|done]. hstep.
    iApply (hwp_memset0 with "Hr"); [done..|]. iIntros "Hz Hpad".
    unfold pool_offs at 1. cbn [big_opL]. rw Z.add_0_r.
    iDestruct "Hz" as "(HP & ? & ? & ? & ? & ? & ? & ? & _)". hstep.
    unfold qp_pool_set_inited.
    rw (proj2 (Z.eqb_neq P NULL)); [|done]. hstep.
    iApply (list_init_spec with "HP"). iIntros "HP". repeat hstep.
    iDestruct "HΦ" as "[_ HΦ]". iApply ("HΦ" with "[] [] HP [-]").
    + iPureIntro. by split; [|left].
    + by iLeft.
    + unfold pool_obj. iFrame.
Qed.

(** [qp_pool_destroy] once the elements are home, or by force: the room and a
    [malloc]ed pool object are freed. *)
Lemma pool_destroy_obj P room ns es nf alc force Φ :
  P ≠ NULL → force = true ∨ nf = ns →
  P ↦? -∗ pool_obj P room ns es nf 1 alc -∗ owner P alc -∗
  (⌜room = NULL⌝ ∨ ⌜room ≠ NULL⌝ ∗ ∃ k, block room k ∗ region room k) -∗
  (leftover P alc -∗ Φ QP_SUCCESS) -∗ hwp (qp_pool_destroy P force) Φ.
Proof.
  iIntros (HP Hf) "HPc (Hroom & Hinfo & Hns & Hes & Hnf & Hi & Ha & Hpad) Hown Hblk HΦ".
  unfold qp_pool_destroy, qp_pool_is_inited, qp_pool_unset_inited, qp_pool_is_alloced.
  rw !(proj2 (Z.eqb_neq P NULL)); [|done]. repeat hstep. cbn [negb Z.eqb].
  hstep. iApply (hwp_wand _ (λ b : bool, ⌜b = false⌝ ∗
    (P + pool_nfree) ↦ nf ∗ (P + pool_nsize) ↦ ns)%I with "[Hnf Hns]").
  { destruct force; repeat hstep; [by iFrame|]. iFrame. iPureIntro.
    destruct Hf as [?| ->]; [done|]. by rw Z.eqb_refl. }
  iIntros (b) "(-> & Hnf & Hns)". repeat hstep.
  iApply (hwp_wand _ (λ _, (P + pool_room) ↦ NULL)%I with "[Hroom Hblk]").
  { iDestruct "Hblk" as "[->|[%Hr (%k & Hblk & Hreg)]]"; [cbn; by hstep|].
    rw (proj2 (Z.eqb_neq room NULL)); [|done]. repeat hstep.
    iApply (hwp_free with "Hblk Hreg"); [done|]. by hstep. }
  iIntros ([]) "Hroom". repeat hstep.
  iDestruct "Hown" as "[->|[-> Hown]]"; cbn [Z.eqb negb]; repeat hstep.
  - iApply "HΦ". iLeft. iSplit; [done|]. iApply (pool_obj_region with "HPc").
    unfold pool_obj. iFrame.
  - iApply (hwp_free with "Hown [HPc Hroom Hinfo Hns Hes Hnf Hi Ha Hpad]"); [done| |].
    + iApply (pool_obj_region with "HPc"). unfold pool_obj. iFrame.
    + hstep. iApply "HΦ". by iRight.
Qed.

(** A bucket of the room: the element header and its data. *)
Lemma bucket_split e es :
  0 ≤ es →
  region e (es + sizeof_elm) ⊣⊢
  e ↦? ∗ (e + elm_root) ↦? ∗ padding e sizeof_elm [0; elm_root] ∗ region (e + sizeof_elm) es.
Proof.
  intros Hes. rw (Z.add_comm es) region_app; [|done..].
  rw (region_struct e sizeof_elm [0; elm_root]);
    [|by apply (bool_decide_unpack _); vm_compute..].
  cbn [big_opL]. by rw Z.add_0_r right_id -!assoc.
Qed.

(** Every element is home: the room is one block again. *)
Lemma slots_region P R es n :
  0 ≤ es →
  ([∗ list] e ∈ slots R es n, e ↦? ∗ elm P es e) ⊢ region R (Z.of_nat n * (es + sizeof_elm)).
Proof.
  intros Hes. rw region_buckets; [|unfold sizeof_elm; lia].
  unfold slots. rw big_sepL_fmap. apply big_sepL_mono. intros ? i _. cbn beta.
  rw bucket_split //. iIntros "($ & Hroot & $)". by iExists _.
Qed.

Lemma chain_cells l xs e : chain l xs e ⊢ l ↦? ∗ [∗ list] x ∈ xs, x ↦?.
Proof.
  iIntros "H". iInduction xs as [|x xs] "IH" forall (l); cbn [chain big_opL].
  - iSplit; [|done]. by iExists _.
  - iDestruct "H" as "[Hl H]". iSplitL "Hl"; [by iExists _|]. by iApply "IH".
Qed.

(** [qp_pool_destroy] refuses while elements are out, unless forced; then room
    and elements are gone for good. *)
Lemma pool_destroy_spec P R es n alc fr us force Φ :
  P ≠ NULL → fr ++ us ≡ₚ slots R es n →
  is_pool P R es n alc fr -∗ ([∗ list] e ∈ us, allocated P R es n e) -∗ owner P alc -∗
  block R (Z.of_nat n * (es + sizeof_elm)) -∗
  ((⌜force = false ∧ us ≠ []⌝ -∗ is_pool P R es n alc fr -∗
      ([∗ list] e ∈ us, allocated P R es n e) -∗ owner P alc -∗
      block R (Z.of_nat n * (es + sizeof_elm)) -∗ Φ QP_ERROR) ∧
   (⌜force = true ∨ us = []⌝ -∗ leftover P alc -∗ Φ QP_SUCCESS)) -∗
  hwp (qp_pool_destroy P force) Φ.
Proof.
  iIntros (HP Hperm) "Hpool Hus Hown Hblk HΦ".
  iDestruct (is_pool_count with "Hpool") as %(Hnd & HPf & Hlen & Hes & Hn).
  assert (length fr + length us = n)%nat as Hn'.
  { rw -length_app Hperm. unfold slots. by rw length_fmap length_seq. }
  iDestruct "Hpool" as "([%Hsub %Hroom] & Hl & Hobj & Helms)".
  destruct (decide (force = true ∨ us = [])) as [Hf|Hf].
  - iDestruct (chain_cells with "Hl") as "[HPc Hlinks]".
    iApply (pool_destroy_obj with "HPc Hobj Hown [-HΦ]"); [done| | |].
    + destruct Hf as [?| ->]; [by left|right]. cbn in Hn'. f_equal. lia.
    + iRight. iSplit; [iPureIntro; destruct Hroom; unfold NULL; lia|].
      iExists _. iFrame "Hblk". iApply (slots_region P); [done|]. rw -Hperm big_sepL_app.
      iSplitR "Hus"; [iApply big_sepL_sep; iFrame|].
      iApply (big_sepL_impl with "Hus"). iIntros "!>" (???) "(_ & $ & $)".
    + iDestruct "HΦ" as "[_ HΦ]". by iApply "HΦ".
  - iDestruct "HΦ" as "[HΦ _]".
    iDestruct "Hobj" as "(Hroom & Hinfo & Hns & Hes & Hnf & Hi & Ha & Hpad)".
    unfold qp_pool_destroy, qp_pool_is_inited. rw (proj2 (Z.eqb_neq P NULL)); [|done].
    assert (force = false) as -> by (destruct force; naive_solver).
    repeat hstep. cbn [Z.eqb negb]. repeat hstep.
    rw (proj2 (Z.eqb_neq (Z.of_nat (length fr)) (Z.of_nat n))).
    2: { destruct us; [naive_solver|]. cbn in Hn'. lia. }
    repeat hstep. cbn [negb]. hstep. iApply ("HΦ" with "[] [-Hus Hown Hblk] Hus Hown Hblk"); [naive_solver|].
    unfold is_pool, pool_obj. by iFrame.
Qed.

(** ** A pool whose free list has lost its meaning

    [qp_pool_free] does not see that an element is in the pool already. Given twice, it
    ties the list into a knot; the pool can still be used by number and be destroyed. *)

Definition wreck (P R es : Z) (n : nat) (alloced : Z) : iProp Σ :=
  ⌜room_ok R es n⌝ ∗ (∃ l, P ↦ l) ∗ ∃ nf, pool_obj P R (Z.of_nat n) es nf 1 alloced.

Lemma shell_wreck P R es n alc fr :
  shell P R es n alc fr ⊢ wreck P R es n alc ∗ [∗ list] e ∈ fr, e ↦?.
Proof.
  iIntros "([_ $] & Hl & $)". unfold is_list. destruct fr as [|e fr]; cbn [chain big_opL]; [by iFrame|].
  iDestruct "Hl" as "[$ Hl]". by rw chain_cells.
Qed.

Lemma wreck_free_spec P R es n alc e Φ :
  e ∈ slots R es n →
  wreck P R es n alc -∗ e ↦? -∗ (e + elm_root) ↦ P -∗
  (wreck P R es n alc -∗ e ↦? -∗ (e + elm_root) ↦ P -∗ Φ QP_SUCCESS) -∗
  hwp (qp_pool_free P (e + sizeof_elm)) Φ.
Proof.
  iIntros (He) "(%Hr & [%l Hl] & %nf & (Hroom & Hinfo & Hns & Hes & Hnf & Hi & Ha & Hpad)) [%w Hlink] Hroot HΦ".
  unfold qp_pool_free, qp_pool_belong_to. rw Z.add_simpl_r. repeat hstep.
  rw Z.eqb_refl. cbn [negb]. hstep. iApply (cell_push_spec with "Hl Hlink"). iIntros "Hl Hlink". repeat hstep.
  iApply ("HΦ" with "[-Hlink Hroot] [Hlink] Hroot"); [|by iExists _]. iSplit; [done|].
  iSplitL "Hl"; [by iExists _|]. iExists _. unfold pool_obj. iFrame.
Qed.

Lemma wreck_to_array_spec P R es n alc i Φ :
  (i < n)%nat → P ≠ NULL → 0 < es →
  wreck P R es n alc -∗
  (wreck P R es n alc -∗ Φ (R + Z.of_nat i * (es + sizeof_elm) + sizeof_elm)) -∗
  hwp (qp_pool_to_array P (Z.of_nat i)) Φ.
Proof.
  iIntros (Hi HP Hpos) "(%Hr & Hl & %nf & Hobj) HΦ".
  iApply (pool_obj_to_array with "Hobj"); [done..|]. iIntros "Hobj". iApply "HΦ". by iFrame.
Qed.

Lemma wreck_destroy_spec P R es n alc Φ :
  P ≠ NULL →
  wreck P R es n alc -∗ owner P alc -∗ block R (Z.of_nat n * (es + sizeof_elm)) -∗
  ([∗ list] e ∈ slots R es n, e ↦? ∗ elm P es e) -∗ (leftover P alc -∗ Φ QP_SUCCESS) -∗
  hwp (qp_pool_destroy P true) Φ.
Proof.
  iIntros (HP) "([%HR [% _]] & [%l Hl] & %nf & Hobj) Hown Hblk Helms HΦ".
  iApply (pool_destroy_obj with "[Hl] Hobj Hown [Hblk Helms] HΦ"); [done|by left|by iExists _|].
  iRight. iSplit; [iPureIntro; unfold NULL; lia|]. iExists _. iFrame "Hblk". by iApply (slots_region P).
Qed.

(** ** Initialisation *)

(** After [j] rounds: [j] elements are on the free list, the other buckets are
    still raw. *)
Definition init_inv P R es n alc (k : nat) (v : Z * Z) : iProp Σ :=
  ∃ j : nat, ⌜(j + k = n)%nat ∧ v = (Z.of_nat j, Z.of_nat j * (es + sizeof_elm))%Z⌝ ∗
    is_list P (rev (slots R es j)) ∗
    pool_obj P R (Z.of_nat n) es (Z.of_nat n) 1 alc ∗
    ([∗ list] e ∈ rev (slots R es j), elm P es e) ∗
    [∗ list] i ∈ seq j k, region (R + Z.of_nat i * (es + sizeof_elm)) (es + sizeof_elm).

Lemma init_round P R es n alc k v :
  room_ok R es n →
  init_inv P R es n alc k v -∗
  hwp (qp_pool_init_body P (es + sizeof_elm) v) (λ r, match r with
    | inl v' => ∃ k', ⌜(k' < k)%nat⌝ ∗ init_inv P R es n alc k' v'
    | inr _ => init_inv P R es n alc 0 (Z.of_nat n, Z.of_nat n * (es + sizeof_elm))%Z
    end).
Proof.
  iIntros ((HR & Hes & Hfit)) "(%j & [%Hk ->] & Hl & Hobj & Helms & Hraw)".
  iDestruct "Hobj" as "(Hroom & Hinfo & Hns & Hes & Hnf & Hi & Ha & Hpad)".
  unfold qp_pool_init_body. hstep. hstep.
  unfold sizeof_elm in Hfit.
  destruct k as [|k].
  - rw (proj2 (Z.ltb_ge (Z.of_nat j) (Z.of_nat n))); [|lia]. hstep.
    iExists n. assert (j = n) as -> by lia. unfold pool_obj. iFrame. iPureIntro. split; [lia|done].
  - rw (proj2 (Z.ltb_lt (Z.of_nat j) (Z.of_nat n))); [|lia]. cbn [seq big_opL].
    iDestruct "Hraw" as "[Hb Hraw]". rw bucket_split //.
    iDestruct "Hb" as "([%w1 Hlink] & [%w2 Hroot] & Hpadb & Hdata)". repeat hstep.
    iApply (chain_push_spec with "Hl Hlink"). iIntros "Hl". repeat hstep.
    iExists k. iSplit; [iPureIntro; lia|]. iExists (S j).
    iSplit.
    { iPureIntro. split; [lia|].
      assert ((Z.of_nat j + 1) * (es + 16) ≤ Z.of_nat n * (es + 16))
        by (apply Z.mul_le_mono_nonneg_r; lia).
      assert (0 ≤ Z.of_nat j * es) by (apply Z.mul_nonneg_nonneg; lia).
      rw !wrap_small; unfold sizeof_elm; [|lia..]. f_equal; lia. }
    replace (rev (slots R es (S j))) with
      (R + Z.of_nat j * (es + sizeof_elm) :: rev (slots R es j)).
    2: { unfold slots. by rw seq_S fmap_app rev_app_distr. }
    cbn [big_opL]. unfold pool_obj. iFrame.
Qed.

Lemma pool_init_spec P es count Φ :
  0 ≤ es → 0 ≤ count → es + sizeof_elm < 2 ^ 64 → (es + sizeof_elm) * count < 2 ^ 64 →
  (⌜P = NULL⌝ ∨ ⌜P ≠ NULL⌝ ∗ region P sizeof_pool) -∗
  ((⌜P = NULL⌝ ∨ ⌜P ≠ NULL⌝ ∗ region P sizeof_pool -∗ Φ NULL) ∧
   (∀ p R alc, ⌜p ≠ NULL ∧ (P = p ∧ alc = 0 ∨ P = NULL ∧ alc = 1)⌝ -∗ owner p alc -∗
      block R (count * (es + sizeof_elm)) -∗
      is_pool p R es (Z.to_nat count) alc (rev (slots R es (Z.to_nat count))) -∗ Φ p)) -∗
  hwp (qp_pool_init P es count) Φ.
Proof.
  iIntros (Hes Hcount Hb Hsz) "HP HΦ". unfold qp_pool_init. hstep.
  iApply (pool_create_spec with "HP"). iSplit.
  { iIntros "->". cbn. hstep. iDestruct "HΦ" as "[HΦ _]". iApply "HΦ". by iLeft. }
  iIntros (p alc [Hp HPp]) "Hown Hl (Hroom & Hinfo & Hns & Hes & Hnf & Hi & Ha & Hpad)".
  rw (proj2 (Z.eqb_neq p NULL)); [|done]. repeat hstep.
  rw (wrap_small 64 (es + sizeof_elm)); [|unfold sizeof_elm in *; lia].
  rw (wrap_small 64 ((es + sizeof_elm) * count)); [|unfold sizeof_elm in *; nia].
  iApply hwp_malloc. iSplit.
  - repeat hstep. rw Z.eqb_refl. hstep.
    iApply (pool_destroy_obj with "[Hl] [-HΦ Hown] Hown"); [done|by left|by iExists _| |by iLeft|].
    { unfold pool_obj. iFrame. }
    iIntros "Hleft". hstep. iDestruct "HΦ" as "[HΦ _]". iApply "HΦ".
    iDestruct "Hleft" as "[[-> Hreg]| ->]".
    + iRight. destruct HPp as [[-> _]|[_ ?]]; [|done]. by iFrame.
    + iLeft. iPureIntro. naive_solver.
  - iIntros (R (HR & HRn & Hal)) "Hblk Hreg". repeat hstep.
    rw (proj2 (Z.eqb_neq R NULL)); [|unfold NULL; lia]. hstep.
    assert (room_ok R es (Z.to_nat count)) as Hok.
    { split_and!; [done..|]. rw Z2Nat.id //. lia. }
    iApply (hwp_wand with "[-HΦ Hown Hblk]").
    { iApply (hwp_loop (init_inv p R es (Z.to_nat count) alc) _
        (λ _, init_inv p R es (Z.to_nat count) alc 0 (count, count * (es + sizeof_elm))%Z)
        with "[-]"); [|apply Nat.lt_succ_diag_r|].
      - intros n' v. iIntros "HI". iApply (hwp_wand with "[HI]"); [by iApply init_round|].
        iIntros ([v'|[]]) "H"; [done|]. by rw Z2Nat.id.
      - iExists 0%nat. unfold pool_obj. rw Z2Nat.id //. iFrame. cbn [slots rev].
        iSplit; [done|]. iSplit; [done|].
        iApply region_buckets; [unfold sizeof_elm; lia|]. rw Z2Nat.id // Z.mul_comm //. }
    iIntros ([]) "(%j & [%Hj _] & Hl & Hobj & Helms & _)". hstep.
    assert (j = Z.to_nat count) as -> by lia. iDestruct "HΦ" as "[_ HΦ]".
    rw (Z.mul_comm (es + sizeof_elm)).
    iApply ("HΦ" with "[//] Hown Hblk"). unfold is_pool.
    rw length_rev. unfold slots at 4. rw length_fmap length_seq. iFrame. iSplit; [|done].
    iPureIntro. intros x Hx. apply list_elem_of_In, in_rev. by apply list_elem_of_In.
Qed.
End pool.
