(* ===== verification/PoolProps.v ===== *)
(** Closed properties of the memory pool: client
    programs that allocate and release in any order, run on a heap with any
    allocator. *)

From S2P Require Import Prelude Heap Links Pool LinkProps.
#[local] Open Scope Z_scope.

(** * Clients of a pool *)

(** Allocate [size] bytes; release the [i]-th of the pointers held. *)
Inductive pop := PAlloc (size : Z) | PFree (i : nat).

Definition pexec (p : Z) (held : list Z) (o : pop) : H (Z * list Z) :=
  match o with
  | PAlloc size =>
      r ← qp_pool_alloc p size; mret (r, if r =? NULL then held else r :: held)
  | PFree i =>
      match held !! i with
      | Some ptr => r ← qp_pool_free p ptr; mret (r, delete i held)
      | None => mret (QP_ERROR, held)
      end
  end.

Fixpoint pexec_all (p : Z) (held : list Z) (os : list pop) : H (list Z) :=
  match os with
  | [] => mret []
  | o :: os =>
      v ← pexec p held o; rs ← pexec_all p v.2 os; mret (v.1 :: rs)
  end.

(** The same with a stack of free elements. *)
Definition pspec (es : Z) (fr held : list Z) (o : pop) : Z * (list Z * list Z) :=
  match o with
  | PAlloc size =>
      match fr with
      | e :: fr' =>
          if size <=? es then (e + sizeof_elm, (fr', e + sizeof_elm :: held))
          else (NULL, (fr, held))
      | [] => (NULL, (fr, held))
      end
  | PFree i =>
      match held !! i with
      | Some ptr => (QP_SUCCESS, (ptr - sizeof_elm :: fr, delete i held))
      | None => (QP_ERROR, (fr, held))
      end
  end.

Fixpoint pspec_all (es : Z) (fr held : list Z) (os : list pop) : list Z :=
  match os with
  | [] => []
  | o :: os =>
      let '(r, (fr', held')) := pspec es fr held o in r :: pspec_all es fr' held' os
  end.

Section pool_client.
Context `{!heapGS Σ}.

Definition pstate (P R es : Z) (n : nat) (alc : Z) (fr held : list Z) : iProp Σ :=
  is_pool P R es n alc fr ∗ [∗ list] ptr ∈ held, allocated P R es n (ptr - sizeof_elm).

Lemma slot_ptr P R es n alc fr e :
  is_pool P R es n alc fr -∗ ⌜e ∈ slots R es n → (e + sizeof_elm)%Z ≠ NULL⌝.
Proof.
  iIntros "([_ %Hr] & _)". iPureIntro. intros He.
  destruct (slots_bound _ _ _ _ Hr He). destruct Hr. unfold NULL, sizeof_elm. lia.
Qed.

Lemma pexec_correct P R es n alc fr held o Φ :
  pstate P R es n alc fr held -∗
  (pstate P R es n alc (pspec es fr held o).2.1 (pspec es fr held o).2.2 -∗
   Φ ((pspec es fr held o).1, (pspec es fr held o).2.2)) -∗
  hwp (pexec P held o) Φ.
Proof.
  iIntros "[Hpool Hheld] HΦ". destruct o as [size|i]; cbn [pexec pspec].
  - hstep. iApply (pool_alloc_spec with "Hpool"). iSplit.
    + iIntros (Hc) "Hpool". hstep. rw Z.eqb_refl.
      destruct fr as [|e fr]; [iApply "HΦ"; by iFrame|]. destruct Hc as [Hc|Hc]; [|done].
      rw (proj2 (Z.leb_gt size es)) //. iApply "HΦ". by iFrame.
    + iIntros (e fr' [Hs ->]) "Hpool Hall". rw (proj2 (Z.leb_le size es)) //. hstep.
      iAssert ⌜e ∈ slots R es n⌝%I as %He; [by iDestruct "Hall" as "[% _]"|].
      iDestruct (slot_ptr with "Hpool") as %Hne. specialize (Hne He).
      rw (proj2 (Z.eqb_neq _ _) Hne). iApply "HΦ". iFrame. cbn. by rw Z.add_simpl_r.
  - destruct (held !! i) as [ptr|] eqn:Hi; [|hstep; iApply "HΦ"; by iFrame]. hstep.
    assert (held ≡ₚ ptr :: delete i held) as Hp by by apply delete_Permutation.
    iEval (rw (big_opL_permutation _ _ _ Hp)) in "Hheld". iDestruct "Hheld" as "[Hptr Hheld]".
    assert (qp_pool_free P ptr = qp_pool_free P (ptr - sizeof_elm + sizeof_elm)) as ->
      by by rw Z.sub_simpl_r.
    iApply (pool_free_spec with "Hpool Hptr"). iIntros "Hpool". hstep. iApply "HΦ". cbn.
    iFrame.
Qed.

Lemma pexec_all_correct P R es n alc fr held os :
  pstate P R es n alc fr held ⊢
  hwp (pexec_all P held os) (λ rs, ⌜rs = pspec_all es fr held os⌝).
Proof.
  revert fr held. induction os as [|o os IH]; intros fr held; cbn [pexec_all pspec_all].
  - iIntros "_". by hstep.
  - iIntros "Hs". hstep. iApply (pexec_correct with "Hs"). iIntros "Hs".
    destruct (pspec es fr held o) as [r [fr' held']]. cbn [fst snd]. hstep.
    iApply (hwp_wand with "[Hs]"); [by iApply IH|]. iIntros (rs ->). by hstep.
Qed.
End pool_client.

(** [qp_pool_init], then the client. *)
Definition prun (p es count : Z) (os : list pop) : H (option (list Z)) :=
  pool ← qp_pool_init p es count;
  if pool =? NULL then mret None else rs ← pexec_all pool [] os; mret (Some rs).

(** The room of a pool: all of it inside the address space. *)
Definition room_of (R es count : Z) : Prop :=
  0 < R ∧ R + count * (es + sizeof_elm) ≤ 2 ^ 64.

(** C6. A pool is a stack of disjoint elements: when [bucket * nsize] fits a
    [size_t], [qp_pool_init] on the caller's object either reports that there is
    no memory, or carves [count] elements out of one room, and from then on every
    sequence of allocations and releases runs without a fault and returns what the
    stack of free elements returns: distinct elements until none is left, NULL for
    requests larger than an element, released elements again, last first. *)
Theorem pool_refines_stack p es count os s :
  mapped s (bytes p sizeof_pool) → p ≠ NULL →
  0 ≤ es → 0 ≤ count → es + sizeof_elm < 2 ^ 64 → (es + sizeof_elm) * count < 2 ^ 64 →
  ∃ r s', prun p es count os s = Ok (r, s') ∧
    (r = None ∨ ∃ R, room_of R es count ∧
       r = Some (pspec_all es (rev (slots R es (Z.to_nat count))) [] os)).
Proof.
  intros (Hnull & Hnd & Hm) Hp Hes Hc Hb Hsz. apply (hwp_adequacy heapΣ); [done|].
  iIntros (G) "[Hc _]". iDestruct (cells_extract with "Hc") as "Hc"; [done..|].
  unfold prun. hstep. iApply (pool_init_spec with "[Hc]"); [done..| |iSplit].
  - iRight. by iFrame.
  - iIntros "_". rw Z.eqb_refl. hstep. iIntros (s') "_". by auto.
  - iIntros (p' R alc [Hp' _]) "Hown Hblk Hpool". rw (proj2 (Z.eqb_neq _ _) Hp'). hstep.
    iAssert ⌜room_ok R es (Z.to_nat count)⌝%I as %Hok; [by iDestruct "Hpool" as "([_ %] & _)"|].
    iApply (hwp_wand with "[Hpool]").
    + iApply pexec_all_correct. by iFrame.
    + iIntros (rs ->). hstep. iIntros (s') "_". iPureIntro. right. exists R. split; [|done].
      destruct Hok as (? & _ & Hok). rw Z2Nat.id // in Hok.
Qed.

Definition blank (p n : Z) (o : list Z) : heap :=
  MkHeap (list_to_map ((λ a, (a, None)) <$> bytes p n)) ∅ o.
Definition demo_pool : list Z → heap := blank 4096 64.

Lemma blank_mapped p n k o : 0 < p → k ≤ n → mapped (blank p n o) (bytes p k).
Proof.
  intros Hp Hk. unfold mapped, blank. cbn [cells]. split_and!; [|apply NoDup_seqZ|].
  - apply not_elem_of_list_to_map_1. rw -list_fmap_compose list_fmap_id elem_of_seqZ. unfold NULL. lia.
  - intros a Ha%elem_of_seqZ. exists None. apply elem_of_list_to_map_1.
    + rw -list_fmap_compose list_fmap_id. apply NoDup_seqZ.
    + apply list_elem_of_fmap. exists a. split; [done|]. apply elem_of_seqZ. lia.
Qed.

Lemma demo_mapped o n : n ≤ 64 → mapped (demo_pool o) (bytes 4096 n).
Proof. by apply blank_mapped. Qed.

Lemma pool_refines_stack_witness : ∃ r s',
  prun 4096 8 2 [PAlloc 8; PAlloc 9; PAlloc 1; PAlloc 1; PFree 1; PAlloc 8] (demo_pool [8192])
  = Ok (r, s') ∧ (r = None ∨ ∃ R, room_of R 8 2 ∧
    r = Some (pspec_all 8 (rev (slots R 8 (Z.to_nat 2))) []
          [PAlloc 8; PAlloc 9; PAlloc 1; PAlloc 1; PFree 1; PAlloc 8])).
Proof. apply pool_refines_stack; [by apply demo_mapped|by vm_compute..]. Defined.

(** The pool is really there: the same client on the same heap. *)
Example pool_run :
  fst <$> match prun 4096 8 2 [PAlloc 8; PAlloc 9; PAlloc 1; PAlloc 1; PFree 1; PAlloc 8]
            (demo_pool [8192]) with Ok r => Some r | _ => None end =
  Some (Some [8232; 0; 8208; 0; 0; 8232]).
Proof. by vm_compute. Qed.

(** [qp_pool_init] does not check [bucket * nsize] for overflow: with 2^60
    elements of no data it asks for no memory at all, is given a block, and writes
    the first element header outside of it. *)
Theorem pool_init_overflows :
  qp_pool_init 4096 0 (2 ^ 60) (demo_pool [8192]) = Fault.
Proof. unfold qp_pool_init. generalize (Z.to_nat (2 ^ 60)). intros n. by vm_compute. Qed.
