(* ===== verification/Manager.v ===== *)
(** The pool manager of [src/src/core/qp_pool_core.c]: it grows by whole pools,
    allocates from the first pool that has room, and gives a pool back when its
    last element comes home. *)

From S2P Require Import Prelude Heap Links Pool.
#[local] Open Scope Z_scope.

(** * Layout (LP64) *)

(** [struct qp_manager_elm_s]: [queue] at 0, then [link], [pool], [manager]. *)
Definition melm_link : Z := 16.
Definition melm_pool : Z := 24.
Definition melm_manager : Z := 80.
Definition sizeof_melm : Z := 88.

(** [struct qp_manager_s]: [pools_queue] at 0, then the other fields. *)
Definition mgr_available : Z := 16.
Definition mgr_pool_count : Z := 24.
Definition mgr_nfree : Z := 32.
Definition mgr_esize : Z := 40.
Definition mgr_ecount : Z := 48.
Definition mgr_is_inited : Z := 56.
Definition mgr_is_alloced : Z := 57.
Definition sizeof_mgr : Z := 64.

(** * The code *)

Definition qp_manager_is_inited (manager : Z) : H bool :=
  if manager =? NULL then mret false
  else b ← load (manager + mgr_is_inited); mret (negb (b =? 0)).

Definition qp_manager_is_alloced (manager : Z) : H bool :=
  if manager =? NULL then mret false
  else b ← load (manager + mgr_is_alloced); mret (negb (b =? 0)).

Definition qp_manager_set_inited (manager : Z) : H unit :=
  if manager =? NULL then mret tt else store (manager + mgr_is_inited) 1.

Definition qp_manager_set_alloced (manager : Z) : H unit :=
  if manager =? NULL then mret tt else store (manager + mgr_is_alloced) 1.

Definition qp_manager_unset_inited (manager : Z) : H unit :=
  if manager =? NULL then mret tt else store (manager + mgr_is_inited) 0.

Definition qp_manager_create (manager : Z) : H Z :=
  manager ← (if manager =? NULL then
               manager ← malloc sizeof_mgr;
               if manager =? NULL then mret NULL else
               memset0 manager sizeof_mgr;; qp_manager_set_alloced manager;; mret manager
             else memset0 manager sizeof_mgr;; mret manager);
  if manager =? NULL then mret NULL else
  qp_queue_init manager;; qp_list_init (manager + mgr_available);;
  qp_manager_set_inited manager;; mret manager.

Definition qp_manager_init (manager elmsize count : Z) : H Z :=
  manager ← qp_manager_create manager;
  if manager =? NULL then mret NULL else
  store (manager + mgr_esize) elmsize;; store (manager + mgr_ecount) count;;
  mret manager.

(** One round of the loop of [qp_manager_destroy]. *)
Definition qp_manager_destroy_body (manager : Z) (force : bool) (_ : unit) : H (unit + unit) :=
  empty ← qp_queue_is_empty manager;
  if (empty : bool) then mret (inr tt) else
  first ← qp_queue_first manager;
  let elm := qp_queue_data first 0 in
  qp_pool_destroy (elm + melm_pool) force;;
  qp_queue_remove elm;;
  free elm;;
  mret (inl tt).

Definition qp_manager_destroy (manager : Z) (force : bool) : H Z :=
  inited ← qp_manager_is_inited manager;
  if negb inited then mret QP_ERROR else
  busy ← (if negb force then
            ecount ← load (manager + mgr_ecount); mret (0 <? ecount)
          else mret false);
  if (busy : bool) then mret QP_ERROR else
  n ← heap_fuel;
  loop n (qp_manager_destroy_body manager force) tt;;
  qp_manager_unset_inited manager;;
  alloced ← qp_manager_is_alloced manager;
  (if (alloced : bool) then free manager else mret tt);;
  mret QP_SUCCESS.

Definition qp_manager_available (manager : Z) : H Z := load (manager + mgr_nfree).

Definition qp_manager_used (manager : Z) : H Z :=
  pool_count ← load (manager + mgr_pool_count);
  ecount ← load (manager + mgr_ecount);
  nfree ← load (manager + mgr_nfree);
  mret (u64 (u64 (pool_count * ecount) - nfree)).

(** A fresh pool for a manager with none available; NULL when there is no
    memory. *)
Definition qp_manager_grow (manager : Z) : H Z :=
  elm ← malloc sizeof_melm;
  ok ← (if elm =? NULL then mret false else
        esize ← load (manager + mgr_esize); ecount ← load (manager + mgr_ecount);
        pool ← qp_pool_init (elm + melm_pool) esize ecount;
        mret (negb (pool =? NULL)));
  if negb ok then
    (if negb (elm =? NULL) then free elm else mret tt);; mret NULL
  else
  store (elm + melm_manager) manager;;
  let node := elm + melm_link in
  qp_queue_insert_after_head manager elm;;
  qp_list_push (manager + mgr_available) node;;
  nfree ← load (manager + mgr_nfree); ecount ← load (manager + mgr_ecount);
  store (manager + mgr_nfree) (u64 (nfree + ecount));;
  count ← load (manager + mgr_pool_count);
  store (manager + mgr_pool_count) (u64 (count + 1));;
  mret node.

Definition qp_manager_alloc (manager size : Z) : H Z :=
  if manager =? NULL then mret NULL else
  esize ← load (manager + mgr_esize);
  if esize <? size then mret NULL else
  node ← qp_list_first (manager + mgr_available);
  node ← (if node =? NULL then qp_manager_grow manager else mret node);
  if node =? NULL then mret NULL else
  let elm := qp_list_data node melm_link in
  ptr ← qp_pool_alloc (elm + melm_pool) size;
  if ptr =? NULL then mret NULL else
  nfree ← load (manager + mgr_nfree); store (manager + mgr_nfree) (u64 (nfree - 1));;
  avail ← qp_pool_available (elm + melm_pool);
  (if avail <? 1 then
     qp_list_pop (manager + mgr_available);; qp_list_init (elm + melm_link)
   else mret tt);;
  mret ptr.

Definition qp_manager_free (manager ptr : Z) : H Z :=
  if (manager =? NULL) || (ptr =? NULL) then mret QP_ERROR else
  let pool_elm := qp_pool_belong_to ptr in
  pool ← load (pool_elm + elm_root);
  let elm := qp_list_data pool melm_pool in
  owner ← load (elm + melm_manager);
  if negb (owner =? manager) then mret QP_ERROR else
  qp_pool_free pool ptr;;
  nfree ← load (manager + mgr_nfree); store (manager + mgr_nfree) (u64 (nfree + 1));;
  first ← qp_list_first (elm + melm_link);
  (if first =? NULL then qp_list_push (manager + mgr_available) (elm + melm_link)
   else
     used ← qp_pool_used pool;
     empty_head ← (if used <? 1 then
                     head ← qp_list_first (manager + mgr_available);
                     mret (elm + melm_link =? head)
                   else mret false);
     if (empty_head : bool) then
       qp_list_pop (manager + mgr_available);;
       qp_queue_remove elm;;
       qp_pool_destroy pool true;;
       free elm;;
       count ← load (manager + mgr_pool_count);
       store (manager + mgr_pool_count) (u64 (count - 1));;
       nfree ← load (manager + mgr_nfree); ecount ← load (manager + mgr_ecount);
       store (manager + mgr_nfree) (u64 (nfree - ecount))
     else mret tt);;
  mret QP_SUCCESS.
