(* ===== verification/ManagerSpec.v ===== *)
(** Specification of the pool manager of Manager.v: [is_manager M alc es n ps av]
    owns the manager at [M], its pools [ps] in queue order, and the list [av] of
    pools with room; elements that are out are accounted for pool by pool. *)

From S2P Require Import Prelude Heap Links Pool Manager.
#[local] Open Scope Z_scope.

(** One pool of a manager: its queue element, its room, the free elements in the
    order they go out, and the elements that are out. *)
Record mpool := MkPool {
  mp_elm : Z;
  mp_room : Z;
  mp_free : list Z;
  mp_used : list Z;
}.

Definition mp_pool (p : mpool) : Z := mp_elm p + melm_pool.
Definition mp_link (p : mpool) : Z := mp_elm p + melm_link.
Definition has_room (p : mpool) : Prop := mp_free p ≠ [].
#[export] Instance has_room_dec p : Decision (has_room p).
Proof. unfold has_room. apply _. Defined.

Definition total_free (ps : list mpool) : nat := sum_list ((λ p, length (mp_free p)) <$> ps).

Lemma total_free_cons p ps : total_free (p :: ps) = (length (mp_free p) + total_free ps)%nat.
Proof. done. Qed.

Lemma total_free_app l1 l2 : total_free (l1 ++ l2) = (total_free l1 + total_free l2)%nat.
Proof.
  induction l1 as [|p l1 IH]; [done|]. rw -app_comm_cons !total_free_cons IH. lia.
Qed.

(** The list of pools with room, seen around one pool. *)
Lemma avail_room l1 p l2 :
  has_room p →
  mp_link <$> filter has_room (l1 ++ p :: l2) ≡ₚ
  mp_link p :: (mp_link <$> filter has_room (l1 ++ l2)).
Proof.
  intros Hp. rw !filter_app filter_cons_True // !fmap_app fmap_cons.
  by rw Permutation_middle.
Qed.

Lemma avail_full l1 p l2 :
  ¬ has_room p →
  mp_link <$> filter has_room (l1 ++ p :: l2) = mp_link <$> filter has_room (l1 ++ l2).
Proof. intros Hp. by rw !filter_app filter_cons_False. Qed.

Lemma total_free_middle l1 p l2 :
  total_free (l1 ++ p :: l2) = (length (mp_free p) + total_free (l1 ++ l2))%nat.
Proof. rw !total_free_app total_free_cons. lia. Qed.

(** The sizes a manager can be used with: no [size_t] computation wraps. *)
Definition sizes_ok (es : Z) (n : nat) : Prop :=
  0 ≤ es ∧ (0 < n)%nat ∧ es + sizeof_elm < 2 ^ 64 ∧
  (es + sizeof_elm) * Z.of_nat n < 2 ^ 64 ∧ Z.of_nat n < 2 ^ 64.

Section manager.
Context `{!heapGS Σ}.

Definition mgr_obj (M count nfree es n inited alc : Z) : iProp Σ :=
  (M + mgr_pool_count) ↦ count ∗ (M + mgr_nfree) ↦ nfree ∗ (M + mgr_esize) ↦ es ∗
  (M + mgr_ecount) ↦ n ∗ (M + mgr_is_inited) ↦ inited ∗ (M + mgr_is_alloced) ↦ alc ∗
  padding M sizeof_mgr [0; queue_next; mgr_available; mgr_pool_count; mgr_nfree;
                        mgr_esize; mgr_ecount; mgr_is_inited; mgr_is_alloced].

(** The bytes of a queue element that hold no field. *)
Definition melm_pad (E : Z) : iProp Σ :=
  padding E melm_pool [0; queue_next; melm_link] ∗
  padding (E + melm_manager) (sizeof_melm - melm_manager) [0].

(** All of a pool but its queue link; a full pool's list link is off the list. *)
Definition pool_res (M es : Z) (n : nat) (p : mpool) : iProp Σ :=
  ⌜mp_elm p ≠ NULL ∧ mp_pool p ≠ NULL ∧
   mp_free p ++ mp_used p ≡ₚ slots (mp_room p) es n⌝ ∗
  is_pool (mp_pool p) (mp_room p) es n 0 (mp_free p) ∗
  (mp_elm p + melm_manager) ↦ M ∗ block (mp_elm p) sizeof_melm ∗ melm_pad (mp_elm p) ∗
  block (mp_room p) (Z.of_nat n * (es + sizeof_elm)) ∗
  (⌜has_room p⌝ ∨ ⌜mp_free p = []⌝ ∗ is_list (mp_link p) []).

Definition is_manager (M alc es : Z) (n : nat) (ps : list mpool) (av : list Z) : iProp Σ :=
  ⌜sizes_ok es n ∧ av ≡ₚ mp_link <$> filter has_room ps⌝ ∗
  is_queue M (mp_elm <$> ps) ∗ is_list (M + mgr_available) av ∗
  mgr_obj M (u64 (Z.of_nat (length ps))) (u64 (Z.of_nat (total_free ps))) es (Z.of_nat n) 1 alc ∗
  [∗ list] p ∈ ps, pool_res M es n p.

(** ** Allocation *)

(** A queue element as the regions its parts are made of. *)
Lemma melm_region E :
  region E sizeof_melm ⊣⊢
  region E melm_pool ∗ region (E + melm_pool) sizeof_pool ∗
  region (E + melm_manager) (sizeof_melm - melm_manager).
Proof.
  replace sizeof_melm with (melm_pool + (sizeof_pool + (sizeof_melm - melm_manager))) at 1
    by done.
  rw region_app; [|done..]. rw region_app; [|done..]. by rw -assoc_L.
Qed.

Lemma melm_links E :
  region E melm_pool ⊣⊢
  unlinked E ∗ (E + melm_link) ↦? ∗ padding E melm_pool [0; queue_next; melm_link].
Proof.
  rw (region_struct E melm_pool [0; queue_next; melm_link]);
    [|by apply (bool_decide_unpack _); vm_compute..].
  unfold unlinked. cbn [big_opL]. by rw Z.add_0_r right_id -!assoc.
Qed.

Lemma melm_tail E :
  region (E + melm_manager) (sizeof_melm - melm_manager) ⊣⊢
  (E + melm_manager) ↦? ∗ padding (E + melm_manager) (sizeof_melm - melm_manager) [0].
Proof.
  rw (region_struct (E + melm_manager) _ [0]);
    [|by apply (bool_decide_unpack _); vm_compute..].
  cbn [big_opL]. by rw Z.add_0_r right_id.
Qed.

Lemma wrap_add_l w a b : 0 ≤ w → wrap w (wrap w a + b) = wrap w (a + b).
Proof. intros Hw. unfold wrap. by rw Zplus_mod_idemp_l. Qed.

Lemma wrap_sub_l w a b : 0 ≤ w → wrap w (wrap w a - b) = wrap w (a - b).
Proof. intros Hw. unfold wrap. by rw Zminus_mod_idemp_l. Qed.

Lemma manager_grow_spec M alc es n ps Φ :
  is_manager M alc es n ps [] -∗
  ((is_manager M alc es n ps [] -∗ Φ NULL) ∧
   (∀ E R, let p := MkPool E R (rev (slots R es n)) [] in
      is_manager M alc es n (p :: ps) [mp_link p] -∗ Φ (mp_link p))) -∗
  hwp (qp_manager_grow M) Φ.
Proof.
  iIntros "([%Hok %Hav] & Hq & Hl & (Hc & Hnf & Hes & Hn & Hi & Ha & Hpad) & Hps) HΦ".
  pose proof Hok as (Hes & Hn & Hb & Hsz & Hn64). unfold qp_manager_grow. hstep.
  iApply hwp_malloc. iSplit.
  { rw Z.eqb_refl. repeat hstep. cbn [negb]. repeat hstep.
    iDestruct "HΦ" as "[HΦ _]". iApply "HΦ". unfold is_manager, mgr_obj. by iFrame. }
  iIntros (E (HE & _ & _)) "Hblk Hreg". rw (proj2 (Z.eqb_neq E NULL)); [|unfold NULL; lia].
  rw melm_region. iDestruct "Hreg" as "(Hlinks & Hpool & Htail)".
  repeat hstep. iApply (pool_init_spec with "[Hpool]"); [done|lia|done|done| |].
  { iRight. iFrame. iPureIntro. unfold NULL, melm_pool. lia. }
  iSplit.
  - iIntros "Hpool". rw Z.eqb_refl. cbn [negb]. repeat hstep. cbn [negb].
    iDestruct "Hpool" as "[%HN|[_ Hpool]]"; [unfold NULL, melm_pool in *; lia|].
    repeat hstep. iApply (hwp_free with "Hblk [-HΦ Hq Hl Hc Hnf Hes Hn Hi Ha Hpad Hps]").
    { unfold NULL; lia. } { rw melm_region. iFrame. }
    hstep. iDestruct "HΦ" as "[HΦ _]". iApply "HΦ". unfold is_manager, mgr_obj. by iFrame.
  - iIntros (pl R alc' [Hpl Hcase]) "_ Hroom Hpool".
    destruct Hcase as [[<- ->]|[HN _]]; [|unfold NULL, melm_pool in *; lia].
    rw (proj2 (Z.eqb_neq (E + melm_pool) NULL)); [|done]. cbn [negb]. repeat hstep. cbn [negb].
    rw melm_links melm_tail. iDestruct "Hlinks" as "(Hun & [%w Hlk] & Hpad1)".
    iDestruct "Htail" as "[[%w' Hm] Hpad2]". repeat hstep.
    iApply (queue_insert_head_spec with "Hq Hun"). iIntros "Hq". repeat hstep.
    iApply (chain_push_spec with "Hl Hlk"). iIntros "Hl". repeat hstep.
    rw !wrap_add_l; [|done..]. rw Nat2Z.id.
    iDestruct "HΦ" as "[_ HΦ]". iApply ("HΦ" $! E R).
    assert (has_room (MkPool E R (rev (slots R es n)) [])) as Hroom.
    { unfold has_room. cbn. destruct n; [lia|]. unfold slots. by rw seq_S fmap_app rev_app_distr. }
    assert (length (rev (slots R es n)) = n) as Hlen.
    { rw length_rev. unfold slots. by rw length_fmap length_seq. }
    unfold is_manager, mgr_obj, pool_res, melm_pad, mp_pool, mp_link.
    cbn [big_opL mp_elm mp_room mp_free mp_used].
    iSplit.
    { iPureIntro. split; [done|]. rw filter_cons_True // fmap_cons -Hav. done. }
    iFrame "Hq Hl Hi Ha Hpad Hes Hn Hpool Hm Hblk Hroom Hpad1 Hpad2 Hps".
    iSplitL "Hc Hnf"; [iSplitL "Hc"|].
    + replace (Z.of_nat (length ps) + 1) with (Z.of_nat (S (length ps))) by lia. done.
    + rw total_free_cons. cbn [mp_free]. rw Hlen.
      replace (Z.of_nat (total_free ps) + Z.of_nat n)
        with (Z.of_nat (n + total_free ps)) by lia. done.
    + iSplit; [|by iLeft]. iPureIntro. split_and!; [unfold NULL; lia|done|].
      rw app_nil_r. symmetry. apply Permutation_rev.
Qed.

(** The tail of [qp_manager_alloc], from a pool with room on. *)
Definition alloc_from (manager size node : Z) : H Z :=
  let elm := qp_list_data node melm_link in
  ptr ← qp_pool_alloc (elm + melm_pool) size;
  if ptr =? NULL then mret NULL else
  nfree ← load (manager + mgr_nfree); store (manager + mgr_nfree) (u64 (nfree - 1));;
  avail ← qp_pool_available (elm + melm_pool);
  (if avail <? 1 then
     qp_list_pop (manager + mgr_available);; qp_list_init (elm + melm_link)
   else mret tt);;
  mret ptr.


(** A pool of the manager gives one element away; a pool that is used up leaves
    the list of pools with room. *)
Lemma alloc_from_spec M alc es n l1 E R e fr us l2 av size Φ :
  size ≤ es →
  is_manager M alc es n (l1 ++ MkPool E R (e :: fr) us :: l2) ((E + melm_link) :: av) -∗
  (∀ av', is_manager M alc es n (l1 ++ MkPool E R fr (e :: us) :: l2) av' -∗
     allocated (E + melm_pool) R es n e -∗ Φ (e + sizeof_elm)) -∗
  hwp (alloc_from M size (E + melm_link)) Φ.
Proof.
  iIntros (Hsize) "([%Hok %Hav] & Hq & Hl & (Hc & Hnf & Hes & Hn & Hi & Ha & Hpad) & Hps) HΦ".
  rw big_sepL_app big_sepL_cons. iDestruct "Hps" as "(Hl1 & Hp & Hl2)".
  unfold pool_res at 2. unfold mp_pool, mp_link. cbn [mp_elm mp_room mp_free mp_used].
  iDestruct "Hp" as "([%HE [%HP %Hperm]] & Hpool & Hm & Hblk & Hmpad & Hroom & _)".
  unfold alloc_from, qp_list_data. rw Z.add_simpl_r. hstep.
  iDestruct (is_pool_count with "Hpool") as %(_ & _ & Hlen & _).
  iApply (pool_alloc_spec with "Hpool"). iSplit; [iIntros "[%|%]"; [lia|done]|].
  iIntros (e' fr') "[% %Heq] Hpool Hall". injection Heq as <- <-.
  iAssert ⌜(e + sizeof_elm)%Z ≠ NULL⌝%I as %Hptr.
  { iDestruct "Hall" as (He) "_". iDestruct "Hpool" as "([_ %Hr] & _)".
    iPureIntro. destruct (slots_bound _ _ _ _ Hr He). destruct Hr.
    unfold NULL, sizeof_elm. lia. }
  rw (proj2 (Z.eqb_neq _ _) Hptr). repeat hstep.
  rw wrap_sub_l // total_free_middle. cbn [mp_free length].
  replace (Z.of_nat (S (length fr) + total_free (l1 ++ l2)) - 1)
    with (Z.of_nat (length fr + total_free (l1 ++ l2))) by lia.
  iApply (pool_available_spec with "Hpool"). iIntros "Hpool".
  rw avail_room // in Hav. apply Permutation_cons_inv in Hav.
  iAssert (∀ av', ⌜av' ≡ₚ mp_link <$> filter has_room (l1 ++ MkPool E R fr (e :: us) :: l2)⌝ -∗
    is_list (M + mgr_available) av' -∗
    (⌜fr ≠ []⌝ ∨ ⌜fr = []⌝ ∗ is_list (E + melm_link) []) -∗
    is_manager M alc es n (l1 ++ MkPool E R fr (e :: us) :: l2) av')%I
    with "[Hq Hc Hnf Hes Hn Hi Ha Hpad Hl1 Hl2 Hpool Hm Hblk Hmpad Hroom]" as "Hmgr".
  { iIntros (av' Hav') "Hl Hlk". unfold is_manager, mgr_obj.
    rw total_free_middle. cbn [mp_free]. rw !length_app !fmap_app !big_sepL_app. cbn [length fmap list_fmap mp_elm].
    iFrame. iSplit; [done|]. iPureIntro. split_and!; [done..|].
    etransitivity; [|exact Hperm]. apply symmetry, Permutation_middle. }
  destruct fr as [|e2 fr].
  - cbn [length]. change (Z.of_nat 0 <? 1) with true. cbn iota. repeat hstep.
    iApply (chain_pop_spec with "Hl"). iIntros "Hl (%w & Hlk)".
    iApply (list_init_spec with "Hlk"). iIntros "Hlk". hstep.
    iApply ("HΦ" with "[-Hall] Hall"). iApply ("Hmgr" with "[] Hl"); [|iRight; by iFrame].
    iPureIntro. rw avail_full //. auto.
  - rw (proj2 (Z.ltb_ge _ _)); [|cbn; lia]. repeat hstep.
    iApply ("HΦ" with "[-Hall] Hall"). iApply ("Hmgr" with "[] Hl"); [|by iLeft].
    iPureIntro. rw avail_room //. by constructor.
Qed.

(** What an allocation does to the pools: the element [e] of the pool at [E]
    goes out, after a fresh pool was put in front if none had room. *)
Definition takes (es : Z) (n : nat) (ps ps' : list mpool) (E R e : Z) : Prop :=
  (∃ l1 l2 fr us, ps = l1 ++ MkPool E R (e :: fr) us :: l2 ∧
                  ps' = l1 ++ MkPool E R fr (e :: us) :: l2) ∨
  (total_free ps = 0%nat ∧
   ∃ fr, rev (slots R es n) = e :: fr ∧ ps' = MkPool E R fr [e] :: ps).

Lemma avail_nil ps : mp_link <$> filter has_room ps = [] → total_free ps = 0%nat.
Proof.
  induction ps as [|p ps IH]; [done|]. rw total_free_cons filter_cons.
  destruct (decide (has_room p)) as [|Hp]; [done|]. intros ?%IH.
  destruct p as [E R [|] us]; [cbn; lia|]. by destruct Hp.
Qed.

Lemma avail_pool node av ps :
  node :: av ≡ₚ mp_link <$> filter has_room ps →
  ∃ l1 E R e fr us l2, ps = l1 ++ MkPool E R (e :: fr) us :: l2 ∧ node = E + melm_link.
Proof.
  intros Hav. assert (node ∈ mp_link <$> filter has_room ps) as Hn by (rw -Hav; left).
  apply list_elem_of_fmap in Hn as (p & -> & [Hr (l1 & l2 & ->)%list_elem_of_split]%list_elem_of_filter).
  destruct p as [E R [|e fr] us]; [done|]. by exists l1, E, R, e, fr, us, l2.
Qed.

Lemma chain_not_null p xs e (m : H Z) Φ :
  chain p xs e -∗ (⌜p ≠ NULL⌝ -∗ chain p xs e -∗ hwp m Φ) -∗ hwp m Φ.
Proof.
  iIntros "Hc Hm". destruct xs as [|x xs]; cbn [chain]; [|iDestruct "Hc" as "[Hc Hxs]"];
    (iApply (hwp_not_null with "Hc"); iIntros (Hn) "Hc"; iApply ("Hm" with "[//]"); by iFrame).
Qed.

Lemma avail_not_null M alc es n ps node av (m : H Z) Φ :
  is_manager M alc es n ps (node :: av) -∗
  (⌜node ≠ NULL⌝ -∗ is_manager M alc es n ps (node :: av) -∗ hwp m Φ) -∗ hwp m Φ.
Proof.
  iIntros "(%Hpure & Hq & [Hh Hl] & Hobj & Hps) Hm".
  iApply (chain_not_null with "Hl"). iIntros (Hn) "Hl". iApply ("Hm" with "[//]").
  unfold is_manager, is_list. cbn [chain]. by iFrame.
Qed.

Lemma manager_alloc_spec M alc es n ps av size Φ :
  M ≠ NULL →
  is_manager M alc es n ps av -∗
  ((⌜es < size ∨ total_free ps = 0%nat⌝ -∗ is_manager M alc es n ps av -∗ Φ NULL) ∧
   (∀ ps' av' E R e, ⌜size ≤ es ∧ takes es n ps ps' E R e⌝ -∗
      is_manager M alc es n ps' av' -∗ allocated (E + melm_pool) R es n e -∗
      Φ (e + sizeof_elm))) -∗
  hwp (qp_manager_alloc M size) Φ.
Proof.
  iIntros (HM) "([%Hok %Hav] & Hq & Hl & (Hc & Hnf & Hes & Hn & Hi & Ha & Hpad) & Hps) HΦ".
  unfold qp_manager_alloc. rw (proj2 (Z.eqb_neq M NULL)) //. repeat hstep.
  destruct (es <? size) eqn:Hsz; [apply Z.ltb_lt in Hsz|apply Z.ltb_ge in Hsz].
  { hstep. iDestruct "HΦ" as "[HΦ _]". iApply ("HΦ" with "[]"); [auto|].
    unfold is_manager, mgr_obj. by iFrame. }
  hstep. iApply (list_first_spec with "Hl"). iIntros "Hl".
  iAssert (is_manager M alc es n ps av) with "[-HΦ]" as "Hmgr".
  { unfold is_manager, mgr_obj. by iFrame. }
  destruct av as [|node av]; cbn [head default].
  - rw Z.eqb_refl. hstep. apply Permutation_nil_l in Hav. symmetry in Hav.
    apply avail_nil in Hav. iApply (manager_grow_spec with "Hmgr"). iSplit.
    + iIntros "Hmgr". rw Z.eqb_refl. hstep. iDestruct "HΦ" as "[HΦ _]".
      iApply ("HΦ" with "[]"); auto.
    + iIntros (E R) "Hmgr". iApply (avail_not_null with "Hmgr"). iIntros (Hnode) "Hmgr".
      destruct (rev (slots R es n)) as [|e fr] eqn:Hfr.
      { exfalso. destruct Hok as (_ & Hn & _). destruct n; [lia|].
        unfold slots in Hfr. by rw seq_S fmap_app rev_app_distr in Hfr. }
      rw (proj2 (Z.eqb_neq _ _) Hnode). unfold mp_link. cbn [mp_elm].
      iDestruct "HΦ" as "[_ HΦ]".
      iApply (alloc_from_spec _ _ _ _ [] with "Hmgr"); [done|].
      iIntros (av') "Hmgr Hall". iApply ("HΦ" with "[] Hmgr Hall").
      iPureIntro. split; [done|]. right. eauto.
  - destruct (avail_pool _ _ _ Hav) as (l1 & E & R & e & fr & us & l2 & -> & ->).
    iApply (avail_not_null with "Hmgr"). iIntros (Hnode) "Hmgr".
    rw (proj2 (Z.eqb_neq _ _) Hnode). repeat hstep. rw (proj2 (Z.eqb_neq _ _) Hnode).
    iDestruct "HΦ" as "[_ HΦ]". iApply (alloc_from_spec with "Hmgr"); [done|].
    iIntros (av') "Hmgr Hall". iApply ("HΦ" with "[] Hmgr Hall").
    iPureIntro. split; [done|]. left. by exists l1, l2, fr, us.
Qed.

(** ** Release *)

(** What a release does: [e] comes home to its pool, or its pool, empty now, is
    given back. *)
Definition returns (ps ps' : list mpool) (E R e : Z) : Prop :=
  ∃ l1 l2 fr us us', ps = l1 ++ MkPool E R fr us :: l2 ∧ us ≡ₚ e :: us' ∧
    (ps' = l1 ++ MkPool E R (e :: fr) us' :: l2 ∨ us' = [] ∧ fr ≠ [] ∧ ps' = l1 ++ l2).

Lemma used_count R es n fr us :
  fr ++ us ≡ₚ slots R es n → (n - length fr = length us)%nat.
Proof.
  intros Hp%Permutation_length. rw length_app in Hp.
  unfold slots in Hp. rw length_fmap length_seq in Hp. lia.
Qed.

(** The last steps of [qp_manager_free]: giving the pool at [E] back. *)
Definition give_back (manager elm pool : Z) : H unit :=
  qp_list_pop (manager + mgr_available);;
  qp_queue_remove elm;;
  qp_pool_destroy pool true;;
  free elm;;
  count ← load (manager + mgr_pool_count);
  store (manager + mgr_pool_count) (u64 (count - 1));;
  nfree ← load (manager + mgr_nfree); ecount ← load (manager + mgr_ecount);
  store (manager + mgr_nfree) (u64 (nfree - ecount)).

Lemma give_back_spec M alc es n l1 E R fr l2 av Φ :
  fr ≠ [] →
  is_manager M alc es n (l1 ++ MkPool E R fr [] :: l2) ((E + melm_link) :: av) -∗
  (is_manager M alc es n (l1 ++ l2) av -∗ Φ tt) -∗
  hwp (give_back M E (E + melm_pool)) Φ.
Proof.
  iIntros (Hfr) "([%Hok %Hav] & Hq & Hl & (Hc & Hnf & Hes & Hn & Hi & Ha & Hpad) & Hps) HΦ".
  rw big_sepL_app big_sepL_cons. iDestruct "Hps" as "(Hl1 & Hp & Hl2)".
  unfold pool_res at 2. unfold mp_pool, mp_link. cbn [mp_elm mp_room mp_free mp_used].
  iDestruct "Hp" as "([%HE [%HP %Hperm]] & Hpool & Hm & Hblk & [Hpad1 Hpad2] & Hroom & _)".
  unfold give_back. hstep. iApply (chain_pop_spec with "Hl"). iIntros "Hl Hlk". hstep.
  rw fmap_app fmap_cons. cbn [mp_elm].
  iApply (queue_remove_spec with "Hq"). iIntros "Hq Hun". hstep.
  iApply (pool_destroy_spec with "Hpool [] [] Hroom"); [done|exact Hperm|done|by iLeft|].
  iSplit; [iIntros ([? _]); done|]. iIntros (_) "[[_ Hpool]|%]"; [|done]. hstep.
  iApply (hwp_free with "Hblk [Hpad1 Hpad2 Hlk Hun Hpool Hm]"); [done| |].
  { rw melm_region melm_links melm_tail. iFrame. }
  repeat hstep. iApply "HΦ". unfold is_manager, mgr_obj.
  rw avail_room // in Hav. apply Permutation_cons_inv in Hav.
  pose proof (used_count _ _ _ _ _ Hperm) as Hlen.
  assert (length fr = n) as Hfrn.
  { apply Permutation_length in Hperm. rw app_nil_r in Hperm. rw Hperm.
    unfold slots. by rw length_fmap length_seq. }
  rw !wrap_sub_l // total_free_middle. cbn [mp_free].
  rw length_app. cbn [length].
  replace (Z.of_nat (length l1 + S (length l2)) - 1) with (Z.of_nat (length (l1 ++ l2)))
    by (rw length_app; lia).
  replace (Z.of_nat (length fr + total_free (l1 ++ l2)) - Z.of_nat n)
    with (Z.of_nat (total_free (l1 ++ l2))) by lia.
  rw fmap_app big_sepL_app. by iFrame.
Qed.

(** The link of a pool that is on the list of pools with room has a successor. *)
Lemma link_next_spec h a1 x a2 Φ :
  is_list h (a1 ++ x :: a2) -∗
  (∀ y, ⌜y ≠ NULL⌝ -∗ is_list h (a1 ++ x :: a2) -∗ Φ y) -∗ hwp (qp_list_first x) Φ.
Proof.
  iIntros "Hl HΦ". iDestruct (chain_nodup with "Hl") as %Hnd.
  assert (x ≠ h) as Hx.
  { intros ->. apply NoDup_cons in Hnd as [[] _]. apply elem_of_app. right. left. }
  unfold is_list. iDestruct (chain_app with "Hl") as "[H1 H2]".
  iApply (chain_not_null with "H1"). iIntros (Hh) "H1".
  destruct a2 as [|y a2].
  - iApply (chain_first_spec with "H2"); [done|]. iIntros "H2". iApply ("HΦ" with "[//]").
    iApply chain_app. iFrame.
  - cbn [chain]. iDestruct "H2" as "[H2 H3]".
    iApply (chain_not_null with "H3"). iIntros (Hy) "H3".
    iApply (chain_first_spec x (y :: a2) with "[H2 H3]"); [done|cbn [chain]; iFrame|].
    iIntros "H2". iApply ("HΦ" with "[//]"). iApply chain_app. iFrame.
Qed.

(** The manager once an element is back in its pool, until the pool is on the list it
    belongs to. *)
Definition returned (M alc es : Z) (n : nat) (l1 : list mpool) (E R : Z) (fr us : list Z)
    (l2 : list mpool) : iProp Σ :=
  ∀ av, ⌜av ≡ₚ mp_link <$> filter has_room (l1 ++ MkPool E R fr us :: l2)⌝ -∗
    is_list (M + mgr_available) av -∗ is_pool (E + melm_pool) R es n 0 fr -∗
    is_manager M alc es n (l1 ++ MkPool E R fr us :: l2) av.

(** A pool that had room stays on the list, or is given back: when it is empty and the
    first there. *)
Lemma free_keep_spec M alc es n l1 E R fr us l2 av Φ :
  fr ≠ [] → fr ++ us ≡ₚ slots R es n →
  av ≡ₚ mp_link <$> filter has_room (l1 ++ MkPool E R fr us :: l2) → (E + melm_link)%Z ∈ av →
  returned M alc es n l1 E R fr us l2 -∗ is_list (M + mgr_available) av -∗
  is_pool (E + melm_pool) R es n 0 fr -∗
  (∀ ps' av', ⌜ps' = l1 ++ MkPool E R fr us :: l2 ∨ us = [] ∧ ps' = l1 ++ l2⌝ -∗
     is_manager M alc es n ps' av' -∗ Φ tt) -∗
  hwp (used ← qp_pool_used (E + melm_pool);
       empty_head ← (if used <? 1 then
                       head ← qp_list_first (M + mgr_available); mret (E + melm_link =? head)
                     else mret false);
       if empty_head : bool then give_back M E (E + melm_pool) else mret tt) Φ.
Proof.
  iIntros (Hfr Hperm Hav (a1 & a2 & ->)%list_elem_of_split) "Hmgr Hl Hpool HΦ".
  iDestruct (chain_nodup with "Hl") as %[_ Hnd]%NoDup_cons.
  hstep. iApply (pool_used_spec with "Hpool"). iIntros "Hpool". rw (used_count _ _ _ _ _ Hperm).
  iAssert (∀ b : bool, ⌜b = true → us = [] ∧ a1 = []⌝ -∗
    is_list (M + mgr_available) (a1 ++ E + melm_link :: a2) -∗
    hwp (if b then give_back M E (E + melm_pool) else mret tt) Φ)%I
    with "[HΦ Hpool Hmgr]" as "Hend".
  { iIntros (b Hb) "Hl". iDestruct ("Hmgr" with "[//] Hl Hpool") as "Hmgr". destruct b.
    - destruct (Hb eq_refl) as [-> ->]. iApply (give_back_spec with "Hmgr"); [done|].
      iIntros "Hmgr". iApply ("HΦ" with "[] Hmgr"). iPureIntro. by right.
    - hstep. iApply ("HΦ" with "[] Hmgr"). iPureIntro. by left. }
  destruct us as [|u us].
  - change (Z.of_nat (length []) <? 1) with true. repeat hstep.
    iApply (list_first_spec with "Hl"). iIntros "Hl". hstep.
    iApply ("Hend" with "[] Hl"). iPureIntro. intros Heq%Z.eqb_eq. split; [done|].
    destruct a1 as [|x a1]; [done|]. cbn in Heq. subst x.
    apply NoDup_cons in Hnd as [[] _]. apply elem_of_app. right. left.
  - rw (proj2 (Z.ltb_ge _ _)); [|cbn; lia]. do 2 hstep.
    by iApply ("Hend" $! false with "[] Hl").
Qed.

(** The element is home; its pool is put back on the list of pools with room if
    it was full, and given back if it is empty and first there. *)
Lemma manager_free_spec M alc es n l1 E R fr us us' l2 av e Φ :
  M ≠ NULL → us ≡ₚ e :: us' →
  is_manager M alc es n (l1 ++ MkPool E R fr us :: l2) av -∗
  allocated (E + melm_pool) R es n e -∗
  (∀ ps' av', ⌜ps' = l1 ++ MkPool E R (e :: fr) us' :: l2 ∨
                us' = [] ∧ fr ≠ [] ∧ ps' = l1 ++ l2⌝ -∗
     is_manager M alc es n ps' av' -∗ Φ QP_SUCCESS) -∗
  hwp (qp_manager_free M (e + sizeof_elm)) Φ.
Proof.
  iIntros (HM Hus) "([%Hok %Hav] & Hq & Hl & (Hc & Hnf & Hes & Hn & Hi & Ha & Hpad) & Hps) Hall HΦ".
  rw big_sepL_app big_sepL_cons. iDestruct "Hps" as "(Hl1 & Hp & Hl2)".
  unfold pool_res at 2. unfold mp_pool, mp_link. cbn [mp_elm mp_room mp_free mp_used].
  iDestruct "Hp" as "([%HE [%HP %Hperm]] & Hpool & Hm & Hblk & Hmpad & Hroom & Hlk)".
  iAssert ⌜(e + sizeof_elm)%Z ≠ NULL⌝%I as %Hptr.
  { iDestruct "Hall" as (He) "_". iDestruct "Hpool" as "([_ %Hr] & _)".
    iPureIntro. destruct (slots_bound _ _ _ _ Hr He). destruct Hr.
    unfold NULL, sizeof_elm. lia. }
  unfold qp_manager_free, qp_pool_belong_to, qp_list_data.
  rw (proj2 (Z.eqb_neq M NULL)) // (proj2 (Z.eqb_neq _ _) Hptr) //. cbn [orb].
  rw Z.add_simpl_r. iDestruct "Hall" as "(%He & Hlink & Hroot & Helm)". hstep. hstep.
  rw Z.add_simpl_r. repeat hstep. rw Z.eqb_refl. cbn [negb]. hstep.
  iApply (pool_free_spec with "Hpool [Hlink Hroot Helm]"); [unfold allocated; by iFrame|].
  iIntros "Hpool". repeat hstep. rw wrap_add_l // total_free_middle. cbn [mp_free].
  replace (Z.of_nat (length fr + total_free (l1 ++ l2)) + 1)
    with (Z.of_nat (S (length fr) + total_free (l1 ++ l2))) by lia.
  assert ((e :: fr) ++ us' ≡ₚ slots R es n) as Hperm'.
  { rw -Hperm Hus. cbn. apply Permutation_middle. }
  iAssert (returned M alc es n l1 E R (e :: fr) us' l2)
    with "[Hq Hc Hnf Hes Hn Hi Ha Hpad Hl1 Hl2 Hm Hblk Hmpad Hroom]" as "Hmgr".
  { iIntros (av' Hav') "Hl Hpool". unfold is_manager, mgr_obj.
    rw total_free_middle. cbn [mp_free].
    rw !length_app !fmap_app !big_sepL_app. cbn [length fmap list_fmap mp_elm].
    iFrame. iSplit; [done|]. iSplit; [done|]. by iLeft. }
  destruct fr as [|e2 fr].
  - iDestruct "Hlk" as "[%|[_ Hlk]]"; [done|].
    iApply (list_first_spec with "Hlk"). iIntros "Hlk". cbn [head default].
    rw Z.eqb_refl. hstep. iApply (chain_push_spec with "Hl [Hlk]"); [by iExact "Hlk"|].
    iIntros "Hl". repeat hstep. iApply ("HΦ" with "[] [-]"); [by iPureIntro; left|].
    iApply ("Hmgr" with "[] Hl Hpool"). iPureIntro.
    rw avail_room // -(avail_full l1 (MkPool E R [] us) l2); [by constructor|].
    unfold has_room. naive_solver.
  - iClear "Hlk". assert ((E + melm_link)%Z ∈ av) as Hin by (rw Hav avail_room //; left).
    assert (av ≡ₚ mp_link <$> filter has_room (l1 ++ MkPool E R (e :: e2 :: fr) us' :: l2)) as Hav'.
    { rw Hav !avail_room //. }
    pose proof Hin as (a1 & a2 & ->)%list_elem_of_split.
    iApply (link_next_spec with "Hl"). iIntros (nx) "%Hnx Hl". rw (proj2 (Z.eqb_neq _ _) Hnx).
    iApply hwp_bind. iApply (hwp_wand _ (λ _, Φ QP_SUCCESS) with "[-]"); [|iIntros (?) "H"; by hstep].
    iApply (free_keep_spec with "Hmgr Hl Hpool"); [done..|]. iIntros (ps' av' Hps) "Hmgr".
    iApply ("HΦ" with "[%] Hmgr"). destruct Hps as [->|[-> ->]]; [by left|by right].
Qed.

(** ** Creation and destruction *)

Definition mgr_offs : list Z :=
  [0; queue_next; mgr_available; mgr_pool_count; mgr_nfree; mgr_esize; mgr_ecount;
   mgr_is_inited; mgr_is_alloced].

Definition mgr_owner (M alc : Z) : iProp Σ :=
  ⌜alc = 0⌝ ∨ ⌜alc = 1⌝ ∗ block M sizeof_mgr.

(** The zeroed manager becomes an empty one. *)
Lemma manager_fresh_spec M alc Φ :
  M ≠ NULL →
  M ↦ 0 -∗ (M + queue_next) ↦ 0 -∗ (M + mgr_available) ↦ 0 -∗
  mgr_obj M 0 0 0 0 0 alc -∗
  (is_queue M [] -∗ is_list (M + mgr_available) [] -∗ mgr_obj M 0 0 0 0 1 alc -∗ Φ M) -∗
  hwp (qp_queue_init M;; qp_list_init (M + mgr_available);;
       qp_manager_set_inited M;; mret M) Φ.
Proof.
  iIntros (HM) "Hp Hn Hl (Hc & Hnf & Hes & Hec & Hi & Ha & Hpad) HΦ". hstep.
  iApply (queue_init_spec with "[Hp Hn]").
  { iSplitL "Hp"; by iExists _. }
  iIntros "Hq". hstep. iApply (list_init_spec with "Hl"). iIntros "Hl".
  unfold qp_manager_set_inited. rw (proj2 (Z.eqb_neq M NULL)) //. repeat hstep.
  iApply ("HΦ" with "Hq Hl"). unfold mgr_obj. iFrame.
Qed.

Lemma manager_init_spec M es n Φ :
  sizes_ok es n →
  (⌜M = NULL⌝ ∨ ⌜M ≠ NULL⌝ ∗ region M sizeof_mgr) -∗
  ((⌜M = NULL⌝ -∗ Φ NULL) ∧
   (∀ m alc, ⌜m ≠ NULL ∧ (M = m ∧ alc = 0 ∨ M = NULL ∧ alc = 1)⌝ -∗ mgr_owner m alc -∗
      is_manager m alc es n [] [] -∗ Φ m)) -∗
  hwp (qp_manager_init M es (Z.of_nat n)) Φ.
Proof.
  iIntros (Hok) "HM HΦ". unfold qp_manager_init, qp_manager_create. repeat hstep.
  assert (NoDup mgr_offs) by (by apply (bool_decide_unpack _); vm_compute).
  assert (Forall (λ o, 0 ≤ o < sizeof_mgr) mgr_offs)
    by (by apply (bool_decide_unpack _); vm_compute).
  iAssert ((⌜M = NULL⌝ -∗ Φ NULL) ∧
    ∀ m alc, ⌜m ≠ NULL ∧ (M = m ∧ alc = 0 ∨ M = NULL ∧ alc = 1)⌝ -∗ mgr_owner m alc -∗
    is_queue m [] -∗ is_list (m + mgr_available) [] -∗ mgr_obj m 0 0 0 0 1 alc -∗
    hwp (store (m + mgr_esize) es;; store (m + mgr_ecount) (Z.of_nat n);; mret m) Φ)%I
    with "[HΦ]" as "Hend".
  { iSplit; [by iDestruct "HΦ" as "[$ _]"|].
    iIntros (m alc Hm) "Hown Hq Hl (Hc & Hnf & Hes & Hec & Hi & Ha & Hpad)".
    repeat hstep. iDestruct "HΦ" as "[_ HΦ]". iApply ("HΦ" with "[//] Hown").
    unfold is_manager, mgr_obj. cbn [length fmap list_fmap big_opL]. by iFrame. }
  iDestruct "HM" as "[->|[%HM Hreg]]".
  - rw Z.eqb_refl. hstep. iApply hwp_malloc. iSplit.
    + rw Z.eqb_refl. hstep. rw Z.eqb_refl. repeat hstep. rw Z.eqb_refl. hstep.
      iDestruct "Hend" as "[Hend _]". by iApply "Hend".
    + iIntros (m Hm) "Hblk Hreg". assert (m ≠ NULL) as Hm0 by (unfold NULL; lia).
      rw (proj2 (Z.eqb_neq _ _) Hm0). hstep.
      iApply (hwp_memset0 m sizeof_mgr mgr_offs with "Hreg"); [done..|]. iIntros "Hz Hpad".
      unfold mgr_offs at 1. cbn [big_opL]. rw Z.add_0_r.
      iDestruct "Hz" as "(Hp & Hn & Hl & ? & ? & ? & ? & ? & ? & _)".
      unfold qp_manager_set_alloced. rw (proj2 (Z.eqb_neq _ _) Hm0). repeat hstep.
      rw (proj2 (Z.eqb_neq _ _) Hm0).
      iApply (manager_fresh_spec m 1 with "Hp Hn Hl [-Hend Hblk]");
        [done|unfold mgr_obj; iFrame|].
      iIntros "Hq Hl Hobj". rw (proj2 (Z.eqb_neq _ _) Hm0).
      iDestruct "Hend" as "[_ Hend]". iApply ("Hend" with "[] [Hblk] Hq Hl Hobj").
      * iPureIntro. split; [done|by right].
      * iRight. by iFrame.
  - rw (proj2 (Z.eqb_neq _ _) HM). hstep.
    iApply (hwp_memset0 M sizeof_mgr mgr_offs with "Hreg"); [done..|]. iIntros "Hz Hpad".
    unfold mgr_offs at 1. cbn [big_opL]. rw Z.add_0_r.
    iDestruct "Hz" as "(Hp & Hn & Hl & ? & ? & ? & ? & ? & ? & _)". repeat hstep.
    rw (proj2 (Z.eqb_neq _ _) HM).
    iApply (manager_fresh_spec M 0 with "Hp Hn Hl [-Hend]"); [done|unfold mgr_obj; iFrame|].
    iIntros "Hq Hl Hobj". rw (proj2 (Z.eqb_neq _ _) HM).
    iDestruct "Hend" as "[_ Hend]". iApply ("Hend" with "[] [] Hq Hl Hobj").
    + iPureIntro. split; [done|by left].
    + by iLeft.
Qed.

(** Without force the manager is never destroyed, however idle. *)
Lemma manager_destroy_unforced M alc es n ps av Φ :
  M ≠ NULL →
  is_manager M alc es n ps av -∗
  (is_manager M alc es n ps av -∗ Φ QP_ERROR) -∗ hwp (qp_manager_destroy M false) Φ.
Proof.
  iIntros (HM) "([%Hok %Hav] & Hq & Hl & (Hc & Hnf & Hes & Hn & Hi & Ha & Hpad) & Hps) HΦ".
  unfold qp_manager_destroy, qp_manager_is_inited. rw (proj2 (Z.eqb_neq _ _) HM).
  repeat hstep. cbn [Z.eqb negb]. repeat hstep.
  destruct Hok as (? & ? & ?). rw (proj2 (Z.ltb_lt _ _)); [|lia]. hstep.
  iApply "HΦ". unfold is_manager, mgr_obj. by iFrame.
Qed.

(** What the loop of [qp_manager_destroy] consumes of each pool. *)
Definition doomed (M es : Z) (n : nat) (p : mpool) : iProp Σ :=
  ⌜mp_elm p ≠ NULL ∧ mp_pool p ≠ NULL ∧
   mp_free p ++ mp_used p ≡ₚ slots (mp_room p) es n⌝ ∗
  is_pool (mp_pool p) (mp_room p) es n 0 (mp_free p) ∗
  (mp_elm p + melm_manager) ↦ M ∗ block (mp_elm p) sizeof_melm ∗ melm_pad (mp_elm p) ∗
  block (mp_room p) (Z.of_nat n * (es + sizeof_elm)) ∗
  (mp_link p) ↦? ∗ [∗ list] e ∈ mp_used p, allocated (mp_pool p) (mp_room p) es n e.

(** The links of all pools, on the list or off it, are plain cells. *)
Lemma doom M es n ps :
  ([∗ list] p ∈ ps, pool_res M es n p) -∗
  ([∗ list] a ∈ (mp_link <$> filter has_room ps), a ↦?) -∗
  ([∗ list] p ∈ ps, [∗ list] e ∈ mp_used p, allocated (mp_pool p) (mp_room p) es n e) -∗
  [∗ list] p ∈ ps, doomed M es n p.
Proof.
  iIntros "Hps Hls Hus". iInduction ps as [|p ps] "IH"; cbn [big_opL]; [done|].
  iDestruct "Hps" as "[(%Hp & H1 & H2 & H3 & H4 & H5 & Hlk) Hps]".
  iDestruct "Hus" as "[Hu Hus]". unfold doomed at 1. iFrame "H1 H2 H3 H4 H5 Hu".
  rw filter_cons. destruct (decide (has_room p)) as [Hr|Hr].
  - rw fmap_cons. iDestruct "Hls" as "[$ Hls]". iSplit; [done|].
    iApply ("IH" with "Hps Hls Hus").
  - iDestruct "Hlk" as "[%|[_ Hlk]]"; [done|]. iDestruct (chain_cells with "Hlk") as "[$ _]".
    iSplit; [done|]. iApply ("IH" with "Hps Hls Hus").
Qed.

Lemma manager_destroy_round M es n ps :
  is_queue M (mp_elm <$> ps) -∗ ([∗ list] p ∈ ps, doomed M es n p) -∗
  hwp (qp_manager_destroy_body M true tt) (λ r, match r with
    | inl _ => ∃ p ps', ⌜ps = p :: ps'⌝ ∗
        is_queue M (mp_elm <$> ps') ∗ [∗ list] p ∈ ps', doomed M es n p
    | inr _ => is_queue M []
    end).
Proof.
  iIntros "Hq Hps". unfold qp_manager_destroy_body. hstep.
  iApply (queue_is_empty_spec with "Hq"). iIntros "Hq".
  destruct ps as [|[E R fr us] ps].
  - rw bool_decide_eq_true_2 //. by hstep.
  - rw bool_decide_eq_false_2 //. hstep. iApply (queue_first_spec with "Hq"). iIntros "Hq".
    cbn [fmap list_fmap head default mp_elm]. unfold qp_queue_data. rw Z.sub_0_r.
    iDestruct "Hps" as "[Hp Hps]". unfold doomed at 1, mp_pool, mp_link.
    cbn [mp_elm mp_room mp_free mp_used].
    iDestruct "Hp" as "([%HE [%HP %Hperm]] & Hpool & Hm & Hblk & [Hpad1 Hpad2] & Hroom & Hlk & Hus)".
    hstep. iApply (pool_destroy_spec with "Hpool Hus [] Hroom"); [done|exact Hperm|by iLeft|].
    iSplit; [by iIntros ([? _])|]. iIntros (_) "[[_ Hpool]|%]"; [|done]. hstep.
    iApply (queue_remove_spec _ [] with "Hq"). iIntros "Hq Hun". hstep.
    iApply (hwp_free with "Hblk [Hpad1 Hpad2 Hlk Hun Hpool Hm]"); [done| |].
    { rw melm_region melm_links melm_tail. iFrame. }
    hstep. iExists _, ps. iFrame. done.
Qed.

(** With force, and every element handed back, all memory is released. *)
Lemma manager_destroy_spec M alc es n ps av Φ :
  M ≠ NULL →
  is_manager M alc es n ps av -∗ mgr_owner M alc -∗
  ([∗ list] p ∈ ps, [∗ list] e ∈ mp_used p, allocated (mp_pool p) (mp_room p) es n e) -∗
  ((⌜alc = 0⌝ ∗ region M sizeof_mgr ∨ ⌜alc = 1⌝) -∗ Φ QP_SUCCESS) -∗
  hwp (qp_manager_destroy M true) Φ.
Proof.
  iIntros (HM) "([%Hok %Hav] & Hq & Hl & (Hc & Hnf & Hes & Hn & Hi & Ha & Hpad) & Hps) Hown Hus HΦ".
  unfold qp_manager_destroy, qp_manager_is_inited. rw (proj2 (Z.eqb_neq _ _) HM).
  repeat hstep. cbn [Z.eqb negb]. repeat hstep.
  iDestruct (chain_cells with "Hl") as "[Hlh Hls]". rw Hav.
  iDestruct (doom with "Hps Hls Hus") as "Hps".
  iApply (queue_fuel with "Hq"). iIntros (k Hk) "Hq". rw length_fmap in Hk. hstep.
  iApply (hwp_wand with "[Hq Hps]").
  { iApply (hwp_loop (λ k _, ∃ ps, ⌜length ps = k⌝ ∗ is_queue M (mp_elm <$> ps) ∗
              [∗ list] p ∈ ps, doomed M es n p)%I _ (λ _, is_queue M []) with "[-]");
      [|exact Hk|].
    - iIntros (j []) "(%ps' & <- & Hq & Hps)".
      iApply (hwp_wand with "[Hq Hps]"); [by iApply (manager_destroy_round with "Hq")|].
      iIntros ([[]|[]]) "H"; [|done]. iDestruct "H" as (p ps'' ->) "[Hq Hps]".
      iExists (length ps''). iSplit; [iPureIntro; cbn; lia|]. iExists ps''. by iFrame.
    - iExists ps. by iFrame. }
  iIntros ([]) "(Hp & Hn' & _)". unfold qp_manager_unset_inited, qp_manager_is_alloced.
  rw (proj2 (Z.eqb_neq _ _) HM). repeat hstep. cbn [last head default].
  assert (NoDup mgr_offs) by (by apply (bool_decide_unpack _); vm_compute).
  assert (Forall (λ o, 0 ≤ o < sizeof_mgr) mgr_offs)
    by (by apply (bool_decide_unpack _); vm_compute).
  iAssert (⌜alc = 0⌝ ∨ ⌜alc = 1⌝)%I as %Halc.
  { iDestruct "Hown" as "[%|[% _]]"; auto. }
  iAssert (region M sizeof_mgr) with "[-HΦ Hown]" as "Hreg".
  { rw (region_struct M sizeof_mgr mgr_offs) //. iFrame "Hpad".
    unfold mgr_offs. cbn [big_opL]. rw Z.add_0_r. iFrame "Hlh".
    iSplitL "Hp"; [by iExists _|]. iSplitL "Hn'"; [by iExists _|].
    iSplitL "Hc"; [by iExists _|]. iSplitL "Hnf"; [by iExists _|].
    iSplitL "Hes"; [by iExists _|]. iSplitL "Hn"; [by iExists _|].
    iSplitL "Hi"; [by iExists _|]. by iSplitL "Ha"; [iExists _|]. }
  iDestruct "Hown" as "[->|[-> Hblk]]"; cbn [Z.eqb negb].
  - repeat hstep. iApply "HΦ". iLeft. by iFrame.
  - iApply (hwp_free with "Hblk Hreg"); [done|]. hstep. iApply "HΦ". by iRight.
Qed.

(** ** Accounting *)

Lemma pools_count M es n ps :
  ([∗ list] p ∈ ps, pool_res M es n p) ⊢
  ⌜(length ps * n = total_free ps + sum_list ((λ p, length (mp_used p)) <$> ps))%nat⌝.
Proof.
  iIntros "Hps". iInduction ps as [|p ps] "IH"; [done|]. cbn [big_opL].
  iDestruct "Hps" as "[([%HE [%HP %Hperm]] & _) Hps]".
  iDestruct ("IH" with "Hps") as %E. iPureIntro.
  apply Permutation_length in Hperm. rw length_app in Hperm. unfold slots in Hperm.
  rw length_fmap length_seq in Hperm. rw total_free_cons fmap_cons. cbn in *. lia.
Qed.

Lemma manager_used_spec M alc es n ps av Φ :
  is_manager M alc es n ps av -∗
  (is_manager M alc es n ps av -∗
   Φ (u64 (Z.of_nat (sum_list ((λ p, length (mp_used p)) <$> ps))))) -∗
  hwp (qp_manager_used M) Φ.
Proof.
  iIntros "([%Hok %Hav] & Hq & Hl & (Hc & Hnf & Hes & Hn & Hi & Ha & Hpad) & Hps) HΦ".
  iDestruct (pools_count with "Hps") as %Hsum. unfold qp_manager_used. repeat hstep.
  iAssert (is_manager M alc es n ps av) with "[-HΦ]" as "Hmgr".
  { unfold is_manager, mgr_obj. by iFrame. }
  replace (u64 (u64 (u64 (Z.of_nat (length ps)) * Z.of_nat n) - u64 (Z.of_nat (total_free ps))))
    with (u64 (Z.of_nat (sum_list ((λ p, length (mp_used p)) <$> ps)))); [by iApply "HΦ"|].
  unfold wrap. rw Zminus_mod_idemp_r Zmult_mod_idemp_l Zminus_mod_idemp_l.
  f_equal. lia.
Qed.

(** Every element is either available or used, pool by pool. *)
Lemma manager_counters M alc es n ps av Φ :
  is_manager M alc es n ps av -∗
  (is_manager M alc es n ps av -∗
   Φ (u64 (Z.of_nat (total_free ps)),
      u64 (Z.of_nat (sum_list ((λ p, length (mp_used p)) <$> ps)))) ) -∗
  hwp (a ← qp_manager_available M; u ← qp_manager_used M; mret (a, u)) Φ.
Proof.
  iIntros "([%Hok %Hav] & Hq & Hl & (Hc & Hnf & Hobj) & Hps) HΦ".
  unfold qp_manager_available. hstep. hstep. hstep.
  iApply (manager_used_spec with "[-HΦ]").
  { unfold is_manager, mgr_obj. by iFrame. }
  iIntros "Hmgr". hstep. by iApply "HΦ".
Qed.
End manager.
