(* ===== verification/ManagerProps.v ===== *)
(** Closed properties of the pool manager: a client allocates and releases in
    any order, on a heap with any allocator, and destroys the manager. *)

From S2P Require Import Prelude Heap Links LinkProps Pool PoolProps Manager ManagerSpec.
#[local] Open Scope Z_scope.

(** * Clients of a manager *)

Definition mexec (m : Z) (held : list Z) (o : pop) : H (Z * list Z) :=
  match o with
  | PAlloc size =>
      r ← qp_manager_alloc m size; mret (r, if r =? NULL then held else r :: held)
  | PFree i =>
      match held !! i with
      | Some ptr => r ← qp_manager_free m ptr; mret (r, delete i held)
      | None => mret (QP_ERROR, held)
      end
  end.

Fixpoint mexec_all (m : Z) (held : list Z) (os : list pop) : H (list Z * list Z) :=
  match os with
  | [] => mret ([], held)
  | o :: os =>
      v ← mexec m held o; rs ← mexec_all m v.2 os; mret (v.1 :: rs.1, rs.2)
  end.

(** [b] bytes at [x] and at [y] do not overlap. *)
Definition apart (b x y : Z) : Prop := x + b ≤ y ∨ y + b ≤ x.

(** What a client sees. A request that fits an element is refused only when every
    element of every pool is out; what it gets overlaps nothing that is out,
    element header included. *)
Fixpoint mtrace (es : Z) (n : nat) (held : list Z) (os : list pop) (rs held' : list Z) : Prop :=
  match os, rs with
  | [], [] => held' = held
  | PAlloc size :: os, r :: rs =>
      if r =? NULL
      then (es < size ∨ (length held mod n = 0)%nat) ∧ mtrace es n held os rs held'
      else size ≤ es ∧ Forall (apart (es + sizeof_elm) r) held ∧
           mtrace es n (r :: held) os rs held'
  | PFree i :: os, r :: rs =>
      match held !! i with
      | Some _ => r = QP_SUCCESS ∧ mtrace es n (delete i held) os rs held'
      | None => r = QP_ERROR ∧ mtrace es n held os rs held'
      end
  | _, _ => False
  end.

Definition used_at (p : mpool) : list Z := (λ e, e + sizeof_elm) <$> mp_used p.
Definition outs (ps : list mpool) : list Z := ps ≫= used_at.

Lemma outs_length ps : length (outs ps) = sum_list ((λ p, length (mp_used p)) <$> ps).
Proof.
  induction ps as [|p ps IH]; [done|]. unfold outs in *. rw bind_cons length_app IH.
  by rw /used_at length_fmap.
Qed.

Lemma outs_middle l1 p l2 : outs (l1 ++ p :: l2) ≡ₚ used_at p ++ outs (l1 ++ l2).
Proof. unfold outs. rw !bind_app bind_cons. solve_Permutation. Qed.

Section manager_client.
Context `{!heapGS Σ}.

Definition allocs (es : Z) (n : nat) (ps : list mpool) : iProp Σ :=
  [∗ list] p ∈ ps, [∗ list] e ∈ mp_used p, allocated (mp_pool p) (mp_room p) es n e.

Lemma regions_apart n a b : 0 < n → region a n -∗ region b n -∗ ⌜apart n a b⌝.
Proof.
  iIntros (Hn) "Ha Hb".
  destruct (decide (a + n ≤ b)) as [?|?]; [iPureIntro; by left|].
  destruct (decide (b + n ≤ a)) as [?|?]; [iPureIntro; by right|].
  iExFalso. unfold region, bytes.
  iDestruct (big_sepL_elem_of _ _ (Z.max a b) with "Ha") as (v) "Ha"; [apply elem_of_seqZ; lia|].
  iDestruct (big_sepL_elem_of _ _ (Z.max a b) with "Hb") as (w) "Hb"; [apply elem_of_seqZ; lia|].
  unfold cell. by iDestruct (ghost_map_elem_valid_2 with "Ha Hb") as %[? _].
Qed.

Lemma allocated_region P R es n e :
  0 ≤ es → allocated P R es n e ⊢ region e (es + sizeof_elm).
Proof.
  iIntros (Hes) "(_ & Hl & Hroot & Hpad & Hd)". rw bucket_split //. iFrame.
Qed.

Lemma allocs_apart es n ps P R e :
  0 ≤ es → allocs es n ps -∗ allocated P R es n e -∗
  ⌜Forall (apart (es + sizeof_elm) (e + sizeof_elm)) (outs ps)⌝.
Proof.
  iIntros (Hes) "Hps He". rw Forall_forall. iIntros (x Hx).
  apply list_elem_of_bind in Hx as (p & [e' [-> He']]%list_elem_of_fmap & Hp).
  iDestruct (big_sepL_elem_of with "Hps") as "Hp"; [done|].
  iDestruct (big_sepL_elem_of with "Hp") as "He'"; [done|].
  rw !allocated_region //.
  iDestruct (regions_apart with "He He'") as %H; [unfold sizeof_elm; lia|].
  iPureIntro. unfold apart in *. lia.
Qed.

Lemma manager_room M alc es n ps av p :
  p ∈ ps → is_manager M alc es n ps av ⊢ ⌜room_ok (mp_room p) es n⌝.
Proof.
  iIntros (Hp) "(_ & _ & _ & _ & Hps)".
  iDestruct (big_sepL_elem_of with "Hps") as "(_ & ([_ $] & _) & _)". done.
Qed.

Definition mstate (M alc es : Z) (n : nat) (held : list Z) : iProp Σ :=
  ∃ ps av, ⌜held ≡ₚ outs ps⌝ ∗ is_manager M alc es n ps av ∗ allocs es n ps.

Lemma takes_outs es n ps ps' E R e :
  takes es n ps ps' E R e → outs ps' ≡ₚ e + sizeof_elm :: outs ps.
Proof.
  intros [(l1 & l2 & fr & us & -> & ->)|(_ & fr & _ & ->)]; [|done].
  by rw !outs_middle.
Qed.

Lemma takes_allocs es n ps ps' E R e :
  takes es n ps ps' E R e →
  allocs es n ps -∗ allocated (E + melm_pool) R es n e -∗ allocs es n ps'.
Proof.
  unfold allocs. intros [(l1 & l2 & fr & us & -> & ->)|(_ & fr & _ & ->)].
  - rw !big_sepL_app. cbn. iIntros "($ & $ & $) $".
  - cbn. iIntros "$ $".
Qed.

Lemma takes_in es n ps ps' E R e :
  takes es n ps ps' E R e → ∃ p, p ∈ ps' ∧ mp_room p = R.
Proof.
  intros [(l1 & l2 & fr & us & _ & ->)|(_ & fr & _ & ->)].
  - exists (MkPool E R fr (e :: us)). split; [|done]. apply elem_of_app. right. left.
  - exists (MkPool E R fr [e]). split; [left|done].
Qed.

(** What is handed out is not NULL. *)
Lemma taken_not_null M alc es n ps ps' av E R e :
  takes es n ps ps' E R e →
  is_manager M alc es n ps' av -∗ allocated (E + melm_pool) R es n e -∗
  ⌜(e + sizeof_elm)%Z ≠ NULL⌝.
Proof.
  iIntros (Ht) "Hm [%Hel _]". destruct (takes_in _ _ _ _ _ _ _ Ht) as (p & Hp & <-).
  iDestruct (manager_room with "Hm") as %Hr; [done|]. iPureIntro.
  destruct (slots_bound _ _ _ _ Hr Hel) as [? _]. destruct Hr. unfold NULL, sizeof_elm. lia.
Qed.

Lemma mexec_alloc M alc es n held size Φ :
  M ≠ NULL →
  mstate M alc es n held -∗
  (∀ r, ⌜r = NULL ∧ (es < size ∨ (length held mod n = 0)%nat)⌝ -∗
     mstate M alc es n held -∗ Φ (r, held)) ∧
  (∀ r, ⌜r ≠ NULL ∧ size ≤ es ∧ Forall (apart (es + sizeof_elm) r) held⌝ -∗
     mstate M alc es n (r :: held) -∗ Φ (r, r :: held)) -∗
  hwp (mexec M held (PAlloc size)) Φ.
Proof.
  iIntros (HM) "(%ps & %av & %Hh & Hm & Hal) HΦ". cbn [mexec]. hstep.
  iApply (manager_alloc_spec with "Hm"); [done|]. iSplit.
  - iIntros (Hc) "Hm". hstep. rw Z.eqb_refl. iDestruct "HΦ" as "[HΦ _]".
    iAssert ⌜(length ps * n = total_free ps + length held)%nat⌝%I as %Hn.
    { iDestruct "Hm" as "(_ & _ & _ & _ & Hps)".
      iDestruct (pools_count with "Hps") as %Hn. by rw (Permutation_length Hh) outs_length. }
    iApply ("HΦ" with "[%]"); [|by iFrame]. split; [done|].
    destruct Hc as [Hc|Hc]; [by left|right]. rw Hc Nat.add_0_l in Hn. rw -Hn.
    apply Nat.Div0.mod_mul.
  - iIntros (ps' av' E R e [Hs Ht]) "Hm Ha". hstep.
    iAssert ⌜0 ≤ es⌝%I as %Hes; [by iDestruct "Hm" as "([[% _] _] & _)"|].
    iDestruct (allocs_apart with "Hal Ha") as %Hap; [done|].
    iDestruct (taken_not_null with "Hm Ha") as %Hne; [done|].
    rw (proj2 (Z.eqb_neq _ _) Hne). iDestruct "HΦ" as "[_ HΦ]".
    iApply ("HΦ" with "[%]").
    + split_and!; [done..|]. by rw Hh.
    + iExists ps', av'. iFrame "Hm". iSplit; [iPureIntro; by rw (takes_outs _ _ _ _ _ _ _ Ht) Hh|].
      by iApply (takes_allocs with "Hal Ha").
Qed.

Lemma mexec_free M alc es n held i Φ :
  M ≠ NULL →
  mstate M alc es n held -∗
  (∀ held', ⌜held' = if held !! i is Some _ then delete i held else held⌝ -∗ mstate M alc es n held' -∗
     Φ (if held !! i is Some _ then QP_SUCCESS else QP_ERROR, held')) -∗
  hwp (mexec M held (PFree i)) Φ.
Proof.
  iIntros (HM) "(%ps & %av & %Hh & Hm & Hal) HΦ". cbn [mexec].
  destruct (held !! i) as [ptr|] eqn:Hi.
  2: { hstep. iApply ("HΦ" with "[//]"). by iFrame. }
  assert (held ≡ₚ ptr :: delete i held) as Hd by by apply delete_Permutation.
  assert (ptr ∈ outs ps) as Hin by (rw -Hh Hd; left).
  apply list_elem_of_bind in Hin as (p & [e [-> He]]%list_elem_of_fmap & Hp).
  apply list_elem_of_split in Hp as (l1 & l2 & ->).
  destruct p as [E R fr us]. cbn [mp_used] in He.
  apply elem_of_Permutation in He as [us' Hus].
  unfold allocs. rw big_sepL_app big_sepL_cons. iDestruct "Hal" as "(Hal1 & Hp & Hal2)".
  cbn [mp_used mp_pool mp_room mp_elm]. iEval (rw (big_opL_permutation _ _ _ Hus)) in "Hp". iDestruct "Hp" as "[He Hp]".
  hstep. iApply (manager_free_spec with "Hm He"); [done..|].
  iIntros (ps' av' Hps') "Hm". hstep. iApply ("HΦ" with "[//]").
  assert (delete i held ≡ₚ used_at (MkPool E R fr us') ++ outs (l1 ++ l2)) as Hh'.
  { apply (Permutation_cons_inv (a := e + sizeof_elm)). rw -Hd Hh outs_middle. unfold used_at.
    cbn [mp_used]. by rw Hus. }
  iExists ps', av'. iFrame "Hm". destruct Hps' as [->|(-> & _ & ->)].
  - iSplit; [by rw Hh' outs_middle|]. rw /allocs big_sepL_app big_sepL_cons. iFrame.
  - iSplit; [done|]. rw /allocs big_sepL_app. iFrame.
Qed.

Lemma mexec_all_correct M alc es n held os :
  M ≠ NULL →
  mstate M alc es n held ⊢
  hwp (mexec_all M held os) (λ v, ⌜mtrace es n held os v.1 v.2⌝ ∗ mstate M alc es n v.2).
Proof.
  intros HM. revert held. induction os as [|[size|i] os IH]; intros held; cbn [mexec_all].
  - iIntros "Hs". hstep. by iFrame.
  - iIntros "Hs". hstep. iApply (mexec_alloc with "Hs"); [done|]. iSplit.
    + iIntros (r [-> Hc]) "Hs". hstep. iApply (hwp_wand with "[Hs]"); [by iApply IH|].
      iIntros (v) "[%Ht Hs]". hstep. cbn. by iFrame.
    + iIntros (r (Hr & Hs & Hf)) "Hs". hstep. iApply (hwp_wand with "[Hs]"); [by iApply IH|].
      iIntros (v) "[%Ht Hs]". hstep. cbn. iFrame. iPureIntro. by rw (proj2 (Z.eqb_neq _ _) Hr).
  - iIntros "Hs". hstep. iApply (mexec_free with "Hs"); [done|].
    iIntros (held' ->) "Hs". hstep. iApply (hwp_wand with "[Hs]"); [by iApply IH|].
    iIntros (v) "[%Ht Hs]". hstep. cbn. iFrame. iPureIntro.
    by destruct (held !! i).
Qed.
End manager_client.

(** A whole life of a manager: the client, the counters, the end by force. *)
Definition mlife (m es n : Z) (os : list pop) : H (option (list Z * list Z * (Z * Z) * Z)) :=
  m ← qp_manager_init m es n;
  if m =? NULL then mret None else
  v ← mexec_all m [] os;
  c ← (a ← qp_manager_available m; u ← qp_manager_used m; mret (a, u));
  d ← qp_manager_destroy m true;
  mret (Some (v, c, d)).



(** The same client: a second pool is opened, and the one that empties while
    others have room is given back. *)
Example manager_run :
  match mlife 4096 8 2 [PAlloc 8; PAlloc 8; PAlloc 9; PAlloc 8; PFree 2; PFree 1; PAlloc 4]
          (demo_pool [8192; 8288; 8352; 8448]) with Ok (Some r, _) => Some r | _ => None end =
  Some ([8328; 8304; 0; 8488; 0; 0; 8464], [8464; 8488], (0, 2), QP_SUCCESS).
Proof. by vm_compute. Qed.

(** [qp_manager_destroy] without force is refused by every manager in use,
    whether elements are out or not: it looks at the elements per pool, which are
    never zero, and not at those in use. *)
Theorem manager_destroy_refused m es n s :
  mapped s (bytes m sizeof_mgr) → m ≠ NULL → sizes_ok es n →
  ∃ s', (m ← qp_manager_init m es (Z.of_nat n);
         u ← qp_manager_used m; d ← qp_manager_destroy m false; mret (u, d)) s =
        Ok ((0, QP_ERROR), s').
Proof.
  intros (Hnull & Hnd & Hmap) Hm Hok.
  destruct (hwp_adequacy heapΣ (m ← qp_manager_init m es (Z.of_nat n);
         u ← qp_manager_used m; d ← qp_manager_destroy m false; mret (u, d)) s
    (λ r _, r = (0, QP_ERROR)) Hnull) as (r & s' & E & ->); [|by exists s'].
  iIntros (G) "[Hc _]". iDestruct (cells_extract with "Hc") as "Hc"; [done..|].
  hstep. iApply (manager_init_spec with "[Hc]"); [done|iRight; by iFrame|].
  iSplit; [by iIntros (->)|]. iIntros (m' alc [Hm' _]) "Hown Hmgr".
  hstep. iApply (manager_used_spec with "Hmgr"). iIntros "Hmgr". hstep.
  iApply (manager_destroy_unforced with "Hmgr"); [done|]. iIntros "_". hstep.
  by iIntros (s') "_".
Qed.

Lemma manager_destroy_refused_witness : ∃ s',
  (m ← qp_manager_init 4096 8 (Z.of_nat 2);
   u ← qp_manager_used m; d ← qp_manager_destroy m false; mret (u, d)) (demo_pool []) =
  Ok ((0, QP_ERROR), s').
Proof.
  apply manager_destroy_refused; [by apply demo_mapped|done|].
  split_and!; [done|lia|done..].
Defined.
