(* ===== verification/Caches.v ===== *)
(** Elements of a pool manager whose bytes belong to somebody else: the manager with
    the list of what is out, and the bytes of each element apart. The event loop keeps
    the caches of its sources this way. *)

From S2P Require Import Prelude Heap Links Pool Manager ManagerSpec ManagerProps.
#[local] Open Scope Z_scope.

Section caches.
Context `{!heapGS Σ}.

(** What the manager needs of an element that is out: all but its bytes. *)
Definition stub (P R es : Z) (n : nat) (e : Z) : iProp Σ :=
  ⌜e ∈ slots R es n⌝ ∗ e ↦? ∗ (e + elm_root) ↦ P ∗ padding e sizeof_elm [0; elm_root].

Lemma allocated_stub P R es n e :
  allocated P R es n e ⊣⊢ stub P R es n e ∗ region (e + sizeof_elm) es.
Proof.
  unfold allocated, stub, elm. iSplit; [iIntros "($ & $ & $ & $ & $)"|iIntros "(($ & $ & $ & $) & $)"].
Qed.

(** The manager at [M], the elements [held] being out. *)
Definition mheld (M alc es : Z) (n : nat) (held : list Z) : iProp Σ :=
  ∃ ps av, ⌜held ≡ₚ outs ps⌝ ∗ is_manager M alc es n ps av ∗
    [∗ list] p ∈ ps, [∗ list] e ∈ mp_used p, stub (mp_pool p) (mp_room p) es n e.

Lemma mheld_init M alc es n : is_manager M alc es n [] [] ⊢ mheld M alc es n [].
Proof. iIntros "Hm". iExists [], []. iFrame. by iSplit. Qed.

Lemma mheld_perm M alc es n held held' :
  held ≡ₚ held' → mheld M alc es n held ⊢ mheld M alc es n held'.
Proof.
  iIntros (Hh) "(%ps & %av & %Ho & Hm)". iExists ps, av. iFrame. iPureIntro. by rw -Hh Ho.
Qed.

Lemma mheld_alloc M alc es n held size Φ :
  M ≠ NULL →
  mheld M alc es n held -∗
  ((mheld M alc es n held -∗ Φ NULL) ∧
   (∀ c, ⌜c ≠ NULL⌝ -∗ mheld M alc es n (c :: held) -∗ region c es -∗ Φ c)) -∗
  hwp (qp_manager_alloc M size) Φ.
Proof.
  iIntros (HM) "(%ps & %av & %Hh & Hm & Hs) HΦ".
  iApply (manager_alloc_spec with "Hm"); [done|]. iSplit.
  - iIntros "_ Hm". iDestruct "HΦ" as "[HΦ _]". iApply "HΦ". by iFrame.
  - iIntros (ps' av' E R e [_ Ht]) "Hm Ha".
    iDestruct (taken_not_null with "Hm Ha") as %Hc; [done|].
    iDestruct (allocated_stub with "Ha") as "[Ha Hr]". iDestruct "HΦ" as "[_ HΦ]".
    iApply ("HΦ" with "[//] [-Hr] Hr"). iExists ps', av'. iFrame "Hm".
    iSplit; [iPureIntro; by rw (takes_outs _ _ _ _ _ _ _ Ht) Hh|].
    destruct Ht as [(l1 & l2 & fr & us & -> & ->)|(_ & fr & _ & ->)].
    + rw !big_sepL_app. cbn. iDestruct "Hs" as "($ & $ & $)". iFrame.
    + cbn. iFrame.
Qed.

Lemma mheld_free M alc es n held c Φ :
  M ≠ NULL →
  mheld M alc es n (c :: held) -∗ region c es -∗ (mheld M alc es n held -∗ Φ QP_SUCCESS) -∗
  hwp (qp_manager_free M c) Φ.
Proof.
  iIntros (HM) "(%ps & %av & %Hh & Hm & Hs) Hr HΦ".
  assert (c ∈ outs ps) as Hin by (rw -Hh; left).
  apply list_elem_of_bind in Hin as (p & [e [-> He]]%list_elem_of_fmap & Hp).
  apply list_elem_of_split in Hp as (l1 & l2 & ->).
  destruct p as [E R fr us]. cbn [mp_used] in He. apply elem_of_Permutation in He as [us' Hus].
  rw big_sepL_app big_sepL_cons. iDestruct "Hs" as "(Hs1 & Hp & Hs2)".
  cbn [mp_used mp_pool mp_room mp_elm].
  iEval (rw (big_opL_permutation _ _ _ Hus)) in "Hp". iDestruct "Hp" as "[He Hp]".
  iApply (manager_free_spec with "Hm [He Hr]"); [done..|by iApply allocated_stub; iFrame|].
  iIntros (ps' av' Hps') "Hm". iApply "HΦ".
  assert (held ≡ₚ used_at (MkPool E R fr us') ++ outs (l1 ++ l2)) as Hh'.
  { apply (Permutation_cons_inv (a := e + sizeof_elm)). rw Hh outs_middle. unfold used_at.
    cbn [mp_used]. by rw Hus. }
  iExists ps', av'. iFrame "Hm". destruct Hps' as [->|(-> & _ & ->)].
  - iSplit; [by rw Hh' outs_middle|]. rw big_sepL_app big_sepL_cons. iFrame.
  - iSplit; [done|]. rw big_sepL_app. iFrame.
Qed.

(** Destruction by force takes what is out along. *)
Lemma mheld_destroy M alc es n held Φ :
  M ≠ NULL →
  mheld M alc es n held -∗ mgr_owner M alc -∗ ([∗ list] c ∈ held, region c es) -∗
  ((⌜alc = 0⌝ ∗ region M sizeof_mgr ∨ ⌜alc = 1⌝) -∗ Φ QP_SUCCESS) -∗
  hwp (qp_manager_destroy M true) Φ.
Proof.
  iIntros (HM) "(%ps & %av & %Hh & Hm & Hs) Hown Hr HΦ".
  iApply (manager_destroy_spec with "Hm Hown [Hs Hr] HΦ"); [done|].
  iEval (rw (big_opL_permutation _ _ _ Hh) /outs big_sepL_bind) in "Hr".
  iCombine "Hs Hr" as "H". rw -big_sepL_sep. iApply (big_sepL_impl with "H").
  iIntros "!>" (k p _) "[Hs Hr]". unfold used_at. rw big_sepL_fmap.
  iCombine "Hs Hr" as "H". rw -big_sepL_sep. iApply (big_sepL_impl with "H").
  iIntros "!>" (j e _) "H". by iApply allocated_stub.
Qed.
End caches.
