(* ===== verification/World.v ===== *)
(** The world the system-facing components run in: one store per C structure,
    byte memory, live [malloc] blocks, [errno], and the trace of the external
    calls made so far. What the operating system and the C library answer is
    arbitrary: an [OS] maps the history and a call to its answer. *)

From S2P Require Import Prelude.
From stdpp Require Export strings.
#[local] Open Scope Z_scope.

(** * Structures *)

(** [struct qp_ipc_lock_s]. Of the union, [lk_spin] is the spin word; the mutex is
    the C library's. *)
Record qp_ipc_lock_s := MkLock {
  lk_spin : Z;
  lk_hold_thread : Z;
  lk_hold_process : Z;
  lk_hold_counter : Z;
  lk_is_inited : bool;
  lk_is_alloced : bool;
  lk_is_shared : bool;
  lk_is_spin : bool;
}.

Record qp_ipc_rwlock_s := MkRwlock {
  rw_is_inited : bool;
  rw_is_alloced : bool;
  rw_is_shared : bool;
}.

(** The [cond_lock] of the condition at [p] is the lock at [p + cond_lock]. *)
Record qp_ipc_cond_s := MkCond {
  cd_nready : Z;
  cd_is_inited : bool;
  cd_is_alloced : bool;
  cd_is_shared : bool;
}.

Record qp_ipc_sem_s := MkSem {
  sm_is_inited : bool;
  sm_is_alloced : bool;
  sm_is_shared : bool;
}.

Record qp_ipc_shm_s := MkShm {
  sh_addr : Z;
  sh_size : Z;
  sh_name : option (list Z);
  sh_fd : Z;
  sh_is_inited : bool;
  sh_is_alloced : bool;
}.

Inductive qp_fd_type_e :=
| QP_FD_TYPE_UNKNOW | QP_FD_TYPE_FILE | QP_FD_TYPE_SOCKET | QP_FD_TYPE_EVENT.

(** [struct qp_fd_s]; the asynchronous control block as the fields the code sets. *)
Record aiocb := MkAio { aio_fildes : Z; aio_buf : Z; aio_nbytes : Z; aio_offset : Z }.

Record qp_fd_s := MkFd {
  fd_fd : Z;
  fd_type : qp_fd_type_e;
  fd_aio : Z;
  fd_aiocb : aiocb;   (** [*aio] when [aio] is not NULL *)
  fd_is_inited : bool;
  fd_is_alloced : bool;
  fd_is_noblock : bool;
}.

(** [struct qp_file_s] at [p]; its first member [file] is the fd at [p]. *)
Record qp_file_s := MkFile {
  fl_open_flag : Z;
  fl_open_mode : Z;
  fl_wrbuf : Z;
  fl_rdbuf : Z;
  fl_wrbuf_size : Z;
  fl_rdbuf_size : Z;
  fl_wrbuf_offset : Z;
  fl_wrbuf_offsetlast : Z;
  fl_rdbuf_offset : Z;
  fl_rdbuf_offsetlast : Z;
  fl_cur_file_offset : Z;
  fl_st_size : Z;
  fl_name : list Z;
  fl_is_directIO : bool;
  fl_is_alloced : bool;
}.

(** [struct qp_socket_s] at [p]; its first member [socket] is the fd at [p]. Of the
    address union: family, port as stored, and address bytes or path. *)
Record qp_socket_s := MkSocket {
  so_family : Z;
  so_port : Z;
  so_addr : list Z;
  so_len : Z;
  so_domain : Z;
  so_type : Z;
  so_backlog : Z;
  so_is_listen : bool;
  so_is_alloced : bool;
}.

Record qp_thread_s := MkThread {
  th_tid : Z;
  th_cid : Z;
  th_handler_ptr : Z;
  th_args_ptr : Z;
  th_ret : Z;
  th_is_inited : bool;
  th_is_alloced : bool;
  th_is_detach : bool;
  th_is_running : bool;
}.

Inductive qp_process_type_e :=
| QP_PROCESS_TYPE_UNKNOW | QP_PROCESS_TYPE_FORK | QP_PROCESS_TYPE_EXEC
| QP_PROCESS_TYPE_FORK_EXEC | QP_PROCESS_TYPE_CLONE.

Record qp_process_s := MkProcess {
  pr_pid : Z;
  pr_stack_size : Z;
  pr_args_ptr : Z;
  pr_handler_ptr : Z;
  pr_argv : Z;
  pr_flag : Z;
  pr_ret : Z;
  pr_type : qp_process_type_e;
  pr_stack : Z;
  pr_is_inited : bool;
  pr_is_alloced : bool;
  pr_is_running : bool;
}.

Record qp_library_s := MkLibrary { lb_handler : Z; lb_error : Z; lb_stat : Z }.

(** * Field updates *)

Definition set_lk_spin (v : Z) (x : qp_ipc_lock_s) : qp_ipc_lock_s :=
  MkLock v (lk_hold_thread x) (lk_hold_process x) (lk_hold_counter x) (lk_is_inited x)
    (lk_is_alloced x) (lk_is_shared x) (lk_is_spin x).
Definition set_lk_hold_thread (v : Z) (x : qp_ipc_lock_s) : qp_ipc_lock_s :=
  MkLock (lk_spin x) v (lk_hold_process x) (lk_hold_counter x) (lk_is_inited x)
    (lk_is_alloced x) (lk_is_shared x) (lk_is_spin x).
Definition set_lk_hold_process (v : Z) (x : qp_ipc_lock_s) : qp_ipc_lock_s :=
  MkLock (lk_spin x) (lk_hold_thread x) v (lk_hold_counter x) (lk_is_inited x)
    (lk_is_alloced x) (lk_is_shared x) (lk_is_spin x).
Definition set_lk_hold_counter (v : Z) (x : qp_ipc_lock_s) : qp_ipc_lock_s :=
  MkLock (lk_spin x) (lk_hold_thread x) (lk_hold_process x) v (lk_is_inited x)
    (lk_is_alloced x) (lk_is_shared x) (lk_is_spin x).
Definition set_lk_is_inited (v : bool) (x : qp_ipc_lock_s) : qp_ipc_lock_s :=
  MkLock (lk_spin x) (lk_hold_thread x) (lk_hold_process x) (lk_hold_counter x) v
    (lk_is_alloced x) (lk_is_shared x) (lk_is_spin x).
Definition set_lk_is_alloced (v : bool) (x : qp_ipc_lock_s) : qp_ipc_lock_s :=
  MkLock (lk_spin x) (lk_hold_thread x) (lk_hold_process x) (lk_hold_counter x)
    (lk_is_inited x) v (lk_is_shared x) (lk_is_spin x).
Definition set_lk_is_shared (v : bool) (x : qp_ipc_lock_s) : qp_ipc_lock_s :=
  MkLock (lk_spin x) (lk_hold_thread x) (lk_hold_process x) (lk_hold_counter x)
    (lk_is_inited x) (lk_is_alloced x) v (lk_is_spin x).
Definition set_lk_is_spin (v : bool) (x : qp_ipc_lock_s) : qp_ipc_lock_s :=
  MkLock (lk_spin x) (lk_hold_thread x) (lk_hold_process x) (lk_hold_counter x)
    (lk_is_inited x) (lk_is_alloced x) (lk_is_shared x) v.

Definition set_rw_is_inited (v : bool) (x : qp_ipc_rwlock_s) : qp_ipc_rwlock_s :=
  MkRwlock v (rw_is_alloced x) (rw_is_shared x).
Definition set_rw_is_alloced (v : bool) (x : qp_ipc_rwlock_s) : qp_ipc_rwlock_s :=
  MkRwlock (rw_is_inited x) v (rw_is_shared x).
Definition set_rw_is_shared (v : bool) (x : qp_ipc_rwlock_s) : qp_ipc_rwlock_s :=
  MkRwlock (rw_is_inited x) (rw_is_alloced x) v.

Definition set_cd_nready (v : Z) (x : qp_ipc_cond_s) : qp_ipc_cond_s :=
  MkCond v (cd_is_inited x) (cd_is_alloced x) (cd_is_shared x).
Definition set_cd_is_inited (v : bool) (x : qp_ipc_cond_s) : qp_ipc_cond_s :=
  MkCond (cd_nready x) v (cd_is_alloced x) (cd_is_shared x).
Definition set_cd_is_alloced (v : bool) (x : qp_ipc_cond_s) : qp_ipc_cond_s :=
  MkCond (cd_nready x) (cd_is_inited x) v (cd_is_shared x).
Definition set_cd_is_shared (v : bool) (x : qp_ipc_cond_s) : qp_ipc_cond_s :=
  MkCond (cd_nready x) (cd_is_inited x) (cd_is_alloced x) v.

Definition set_sm_is_inited (v : bool) (x : qp_ipc_sem_s) : qp_ipc_sem_s :=
  MkSem v (sm_is_alloced x) (sm_is_shared x).
Definition set_sm_is_alloced (v : bool) (x : qp_ipc_sem_s) : qp_ipc_sem_s :=
  MkSem (sm_is_inited x) v (sm_is_shared x).
Definition set_sm_is_shared (v : bool) (x : qp_ipc_sem_s) : qp_ipc_sem_s :=
  MkSem (sm_is_inited x) (sm_is_alloced x) v.

Definition set_sh_addr (v : Z) (x : qp_ipc_shm_s) : qp_ipc_shm_s :=
  MkShm v (sh_size x) (sh_name x) (sh_fd x) (sh_is_inited x) (sh_is_alloced x).
Definition set_sh_size (v : Z) (x : qp_ipc_shm_s) : qp_ipc_shm_s :=
  MkShm (sh_addr x) v (sh_name x) (sh_fd x) (sh_is_inited x) (sh_is_alloced x).
Definition set_sh_name (v : option (list Z)) (x : qp_ipc_shm_s) : qp_ipc_shm_s :=
  MkShm (sh_addr x) (sh_size x) v (sh_fd x) (sh_is_inited x) (sh_is_alloced x).
Definition set_sh_fd (v : Z) (x : qp_ipc_shm_s) : qp_ipc_shm_s :=
  MkShm (sh_addr x) (sh_size x) (sh_name x) v (sh_is_inited x) (sh_is_alloced x).
Definition set_sh_is_inited (v : bool) (x : qp_ipc_shm_s) : qp_ipc_shm_s :=
  MkShm (sh_addr x) (sh_size x) (sh_name x) (sh_fd x) v (sh_is_alloced x).
Definition set_sh_is_alloced (v : bool) (x : qp_ipc_shm_s) : qp_ipc_shm_s :=
  MkShm (sh_addr x) (sh_size x) (sh_name x) (sh_fd x) (sh_is_inited x) v.

Definition set_aio_fildes (v : Z) (x : aiocb) : aiocb :=
  MkAio v (aio_buf x) (aio_nbytes x) (aio_offset x).
Definition set_aio_buf (v : Z) (x : aiocb) : aiocb :=
  MkAio (aio_fildes x) v (aio_nbytes x) (aio_offset x).
Definition set_aio_nbytes (v : Z) (x : aiocb) : aiocb :=
  MkAio (aio_fildes x) (aio_buf x) v (aio_offset x).
Definition set_aio_offset (v : Z) (x : aiocb) : aiocb :=
  MkAio (aio_fildes x) (aio_buf x) (aio_nbytes x) v.

Definition set_fd_fd (v : Z) (x : qp_fd_s) : qp_fd_s :=
  MkFd v (fd_type x) (fd_aio x) (fd_aiocb x) (fd_is_inited x) (fd_is_alloced x)
    (fd_is_noblock x).
Definition set_fd_type (v : qp_fd_type_e) (x : qp_fd_s) : qp_fd_s :=
  MkFd (fd_fd x) v (fd_aio x) (fd_aiocb x) (fd_is_inited x) (fd_is_alloced x)
    (fd_is_noblock x).
Definition set_fd_aio (v : Z) (x : qp_fd_s) : qp_fd_s :=
  MkFd (fd_fd x) (fd_type x) v (fd_aiocb x) (fd_is_inited x) (fd_is_alloced x)
    (fd_is_noblock x).
Definition set_fd_aiocb (v : aiocb) (x : qp_fd_s) : qp_fd_s :=
  MkFd (fd_fd x) (fd_type x) (fd_aio x) v (fd_is_inited x) (fd_is_alloced x)
    (fd_is_noblock x).
Definition set_fd_is_inited (v : bool) (x : qp_fd_s) : qp_fd_s :=
  MkFd (fd_fd x) (fd_type x) (fd_aio x) (fd_aiocb x) v (fd_is_alloced x)
    (fd_is_noblock x).
Definition set_fd_is_alloced (v : bool) (x : qp_fd_s) : qp_fd_s :=
  MkFd (fd_fd x) (fd_type x) (fd_aio x) (fd_aiocb x) (fd_is_inited x) v
    (fd_is_noblock x).
Definition set_fd_is_noblock (v : bool) (x : qp_fd_s) : qp_fd_s :=
  MkFd (fd_fd x) (fd_type x) (fd_aio x) (fd_aiocb x) (fd_is_inited x) (fd_is_alloced x)
    v.

Definition set_fl_open_flag (v : Z) (x : qp_file_s) : qp_file_s :=
  MkFile v (fl_open_mode x) (fl_wrbuf x) (fl_rdbuf x) (fl_wrbuf_size x)
    (fl_rdbuf_size x) (fl_wrbuf_offset x) (fl_wrbuf_offsetlast x) (fl_rdbuf_offset x)
    (fl_rdbuf_offsetlast x) (fl_cur_file_offset x) (fl_st_size x) (fl_name x)
    (fl_is_directIO x) (fl_is_alloced x).
Definition set_fl_open_mode (v : Z) (x : qp_file_s) : qp_file_s :=
  MkFile (fl_open_flag x) v (fl_wrbuf x) (fl_rdbuf x) (fl_wrbuf_size x)
    (fl_rdbuf_size x) (fl_wrbuf_offset x) (fl_wrbuf_offsetlast x) (fl_rdbuf_offset x)
    (fl_rdbuf_offsetlast x) (fl_cur_file_offset x) (fl_st_size x) (fl_name x)
    (fl_is_directIO x) (fl_is_alloced x).
Definition set_fl_wrbuf (v : Z) (x : qp_file_s) : qp_file_s :=
  MkFile (fl_open_flag x) (fl_open_mode x) v (fl_rdbuf x) (fl_wrbuf_size x)
    (fl_rdbuf_size x) (fl_wrbuf_offset x) (fl_wrbuf_offsetlast x) (fl_rdbuf_offset x)
    (fl_rdbuf_offsetlast x) (fl_cur_file_offset x) (fl_st_size x) (fl_name x)
    (fl_is_directIO x) (fl_is_alloced x).
Definition set_fl_rdbuf (v : Z) (x : qp_file_s) : qp_file_s :=
  MkFile (fl_open_flag x) (fl_open_mode x) (fl_wrbuf x) v (fl_wrbuf_size x)
    (fl_rdbuf_size x) (fl_wrbuf_offset x) (fl_wrbuf_offsetlast x) (fl_rdbuf_offset x)
    (fl_rdbuf_offsetlast x) (fl_cur_file_offset x) (fl_st_size x) (fl_name x)
    (fl_is_directIO x) (fl_is_alloced x).
Definition set_fl_wrbuf_size (v : Z) (x : qp_file_s) : qp_file_s :=
  MkFile (fl_open_flag x) (fl_open_mode x) (fl_wrbuf x) (fl_rdbuf x) v (fl_rdbuf_size x)
    (fl_wrbuf_offset x) (fl_wrbuf_offsetlast x) (fl_rdbuf_offset x)
    (fl_rdbuf_offsetlast x) (fl_cur_file_offset x) (fl_st_size x) (fl_name x)
    (fl_is_directIO x) (fl_is_alloced x).
Definition set_fl_rdbuf_size (v : Z) (x : qp_file_s) : qp_file_s :=
  MkFile (fl_open_flag x) (fl_open_mode x) (fl_wrbuf x) (fl_rdbuf x) (fl_wrbuf_size x) v
    (fl_wrbuf_offset x) (fl_wrbuf_offsetlast x) (fl_rdbuf_offset x)
    (fl_rdbuf_offsetlast x) (fl_cur_file_offset x) (fl_st_size x) (fl_name x)
    (fl_is_directIO x) (fl_is_alloced x).
Definition set_fl_wrbuf_offset (v : Z) (x : qp_file_s) : qp_file_s :=
  MkFile (fl_open_flag x) (fl_open_mode x) (fl_wrbuf x) (fl_rdbuf x) (fl_wrbuf_size x)
    (fl_rdbuf_size x) v (fl_wrbuf_offsetlast x) (fl_rdbuf_offset x)
    (fl_rdbuf_offsetlast x) (fl_cur_file_offset x) (fl_st_size x) (fl_name x)
    (fl_is_directIO x) (fl_is_alloced x).
Definition set_fl_wrbuf_offsetlast (v : Z) (x : qp_file_s) : qp_file_s :=
  MkFile (fl_open_flag x) (fl_open_mode x) (fl_wrbuf x) (fl_rdbuf x) (fl_wrbuf_size x)
    (fl_rdbuf_size x) (fl_wrbuf_offset x) v (fl_rdbuf_offset x) (fl_rdbuf_offsetlast x)
    (fl_cur_file_offset x) (fl_st_size x) (fl_name x) (fl_is_directIO x)
    (fl_is_alloced x).
Definition set_fl_rdbuf_offset (v : Z) (x : qp_file_s) : qp_file_s :=
  MkFile (fl_open_flag x) (fl_open_mode x) (fl_wrbuf x) (fl_rdbuf x) (fl_wrbuf_size x)
    (fl_rdbuf_size x) (fl_wrbuf_offset x) (fl_wrbuf_offsetlast x) v
    (fl_rdbuf_offsetlast x) (fl_cur_file_offset x) (fl_st_size x) (fl_name x)
    (fl_is_directIO x) (fl_is_alloced x).
Definition set_fl_rdbuf_offsetlast (v : Z) (x : qp_file_s) : qp_file_s :=
  MkFile (fl_open_flag x) (fl_open_mode x) (fl_wrbuf x) (fl_rdbuf x) (fl_wrbuf_size x)
    (fl_rdbuf_size x) (fl_wrbuf_offset x) (fl_wrbuf_offsetlast x) (fl_rdbuf_offset x) v
    (fl_cur_file_offset x) (fl_st_size x) (fl_name x) (fl_is_directIO x)
    (fl_is_alloced x).
Definition set_fl_cur_file_offset (v : Z) (x : qp_file_s) : qp_file_s :=
  MkFile (fl_open_flag x) (fl_open_mode x) (fl_wrbuf x) (fl_rdbuf x) (fl_wrbuf_size x)
    (fl_rdbuf_size x) (fl_wrbuf_offset x) (fl_wrbuf_offsetlast x) (fl_rdbuf_offset x)
    (fl_rdbuf_offsetlast x) v (fl_st_size x) (fl_name x) (fl_is_directIO x)
    (fl_is_alloced x).
Definition set_fl_st_size (v : Z) (x : qp_file_s) : qp_file_s :=
  MkFile (fl_open_flag x) (fl_open_mode x) (fl_wrbuf x) (fl_rdbuf x) (fl_wrbuf_size x)
    (fl_rdbuf_size x) (fl_wrbuf_offset x) (fl_wrbuf_offsetlast x) (fl_rdbuf_offset x)
    (fl_rdbuf_offsetlast x) (fl_cur_file_offset x) v (fl_name x) (fl_is_directIO x)
    (fl_is_alloced x).
Definition set_fl_name (v : list Z) (x : qp_file_s) : qp_file_s :=
  MkFile (fl_open_flag x) (fl_open_mode x) (fl_wrbuf x) (fl_rdbuf x) (fl_wrbuf_size x)
    (fl_rdbuf_size x) (fl_wrbuf_offset x) (fl_wrbuf_offsetlast x) (fl_rdbuf_offset x)
    (fl_rdbuf_offsetlast x) (fl_cur_file_offset x) (fl_st_size x) v (fl_is_directIO x)
    (fl_is_alloced x).
Definition set_fl_is_directIO (v : bool) (x : qp_file_s) : qp_file_s :=
  MkFile (fl_open_flag x) (fl_open_mode x) (fl_wrbuf x) (fl_rdbuf x) (fl_wrbuf_size x)
    (fl_rdbuf_size x) (fl_wrbuf_offset x) (fl_wrbuf_offsetlast x) (fl_rdbuf_offset x)
    (fl_rdbuf_offsetlast x) (fl_cur_file_offset x) (fl_st_size x) (fl_name x) v
    (fl_is_alloced x).
Definition set_fl_is_alloced (v : bool) (x : qp_file_s) : qp_file_s :=
  MkFile (fl_open_flag x) (fl_open_mode x) (fl_wrbuf x) (fl_rdbuf x) (fl_wrbuf_size x)
    (fl_rdbuf_size x) (fl_wrbuf_offset x) (fl_wrbuf_offsetlast x) (fl_rdbuf_offset x)
    (fl_rdbuf_offsetlast x) (fl_cur_file_offset x) (fl_st_size x) (fl_name x)
    (fl_is_directIO x) v.

Definition set_so_family (v : Z) (x : qp_socket_s) : qp_socket_s :=
  MkSocket v (so_port x) (so_addr x) (so_len x) (so_domain x) (so_type x) (so_backlog x)
    (so_is_listen x) (so_is_alloced x).
Definition set_so_port (v : Z) (x : qp_socket_s) : qp_socket_s :=
  MkSocket (so_family x) v (so_addr x) (so_len x) (so_domain x) (so_type x)
    (so_backlog x) (so_is_listen x) (so_is_alloced x).
Definition set_so_addr (v : list Z) (x : qp_socket_s) : qp_socket_s :=
  MkSocket (so_family x) (so_port x) v (so_len x) (so_domain x) (so_type x)
    (so_backlog x) (so_is_listen x) (so_is_alloced x).
Definition set_so_len (v : Z) (x : qp_socket_s) : qp_socket_s :=
  MkSocket (so_family x) (so_port x) (so_addr x) v (so_domain x) (so_type x)
    (so_backlog x) (so_is_listen x) (so_is_alloced x).
Definition set_so_domain (v : Z) (x : qp_socket_s) : qp_socket_s :=
  MkSocket (so_family x) (so_port x) (so_addr x) (so_len x) v (so_type x) (so_backlog x)
    (so_is_listen x) (so_is_alloced x).
Definition set_so_type (v : Z) (x : qp_socket_s) : qp_socket_s :=
  MkSocket (so_family x) (so_port x) (so_addr x) (so_len x) (so_domain x) v
    (so_backlog x) (so_is_listen x) (so_is_alloced x).
Definition set_so_backlog (v : Z) (x : qp_socket_s) : qp_socket_s :=
  MkSocket (so_family x) (so_port x) (so_addr x) (so_len x) (so_domain x) (so_type x) v
    (so_is_listen x) (so_is_alloced x).
Definition set_so_is_listen (v : bool) (x : qp_socket_s) : qp_socket_s :=
  MkSocket (so_family x) (so_port x) (so_addr x) (so_len x) (so_domain x) (so_type x)
    (so_backlog x) v (so_is_alloced x).
Definition set_so_is_alloced (v : bool) (x : qp_socket_s) : qp_socket_s :=
  MkSocket (so_family x) (so_port x) (so_addr x) (so_len x) (so_domain x) (so_type x)
    (so_backlog x) (so_is_listen x) v.

Definition set_th_tid (v : Z) (x : qp_thread_s) : qp_thread_s :=
  MkThread v (th_cid x) (th_handler_ptr x) (th_args_ptr x) (th_ret x) (th_is_inited x)
    (th_is_alloced x) (th_is_detach x) (th_is_running x).
Definition set_th_cid (v : Z) (x : qp_thread_s) : qp_thread_s :=
  MkThread (th_tid x) v (th_handler_ptr x) (th_args_ptr x) (th_ret x) (th_is_inited x)
    (th_is_alloced x) (th_is_detach x) (th_is_running x).
Definition set_th_handler_ptr (v : Z) (x : qp_thread_s) : qp_thread_s :=
  MkThread (th_tid x) (th_cid x) v (th_args_ptr x) (th_ret x) (th_is_inited x)
    (th_is_alloced x) (th_is_detach x) (th_is_running x).
Definition set_th_args_ptr (v : Z) (x : qp_thread_s) : qp_thread_s :=
  MkThread (th_tid x) (th_cid x) (th_handler_ptr x) v (th_ret x) (th_is_inited x)
    (th_is_alloced x) (th_is_detach x) (th_is_running x).
Definition set_th_ret (v : Z) (x : qp_thread_s) : qp_thread_s :=
  MkThread (th_tid x) (th_cid x) (th_handler_ptr x) (th_args_ptr x) v (th_is_inited x)
    (th_is_alloced x) (th_is_detach x) (th_is_running x).
Definition set_th_is_inited (v : bool) (x : qp_thread_s) : qp_thread_s :=
  MkThread (th_tid x) (th_cid x) (th_handler_ptr x) (th_args_ptr x) (th_ret x) v
    (th_is_alloced x) (th_is_detach x) (th_is_running x).
Definition set_th_is_alloced (v : bool) (x : qp_thread_s) : qp_thread_s :=
  MkThread (th_tid x) (th_cid x) (th_handler_ptr x) (th_args_ptr x) (th_ret x)
    (th_is_inited x) v (th_is_detach x) (th_is_running x).
Definition set_th_is_detach (v : bool) (x : qp_thread_s) : qp_thread_s :=
  MkThread (th_tid x) (th_cid x) (th_handler_ptr x) (th_args_ptr x) (th_ret x)
    (th_is_inited x) (th_is_alloced x) v (th_is_running x).
Definition set_th_is_running (v : bool) (x : qp_thread_s) : qp_thread_s :=
  MkThread (th_tid x) (th_cid x) (th_handler_ptr x) (th_args_ptr x) (th_ret x)
    (th_is_inited x) (th_is_alloced x) (th_is_detach x) v.

Definition set_pr_pid (v : Z) (x : qp_process_s) : qp_process_s :=
  MkProcess v (pr_stack_size x) (pr_args_ptr x) (pr_handler_ptr x) (pr_argv x)
    (pr_flag x) (pr_ret x) (pr_type x) (pr_stack x) (pr_is_inited x) (pr_is_alloced x)
    (pr_is_running x).
Definition set_pr_stack_size (v : Z) (x : qp_process_s) : qp_process_s :=
  MkProcess (pr_pid x) v (pr_args_ptr x) (pr_handler_ptr x) (pr_argv x) (pr_flag x)
    (pr_ret x) (pr_type x) (pr_stack x) (pr_is_inited x) (pr_is_alloced x)
    (pr_is_running x).
Definition set_pr_args_ptr (v : Z) (x : qp_process_s) : qp_process_s :=
  MkProcess (pr_pid x) (pr_stack_size x) v (pr_handler_ptr x) (pr_argv x) (pr_flag x)
    (pr_ret x) (pr_type x) (pr_stack x) (pr_is_inited x) (pr_is_alloced x)
    (pr_is_running x).
Definition set_pr_handler_ptr (v : Z) (x : qp_process_s) : qp_process_s :=
  MkProcess (pr_pid x) (pr_stack_size x) (pr_args_ptr x) v (pr_argv x) (pr_flag x)
    (pr_ret x) (pr_type x) (pr_stack x) (pr_is_inited x) (pr_is_alloced x)
    (pr_is_running x).
Definition set_pr_argv (v : Z) (x : qp_process_s) : qp_process_s :=
  MkProcess (pr_pid x) (pr_stack_size x) (pr_args_ptr x) (pr_handler_ptr x) v
    (pr_flag x) (pr_ret x) (pr_type x) (pr_stack x) (pr_is_inited x) (pr_is_alloced x)
    (pr_is_running x).
Definition set_pr_flag (v : Z) (x : qp_process_s) : qp_process_s :=
  MkProcess (pr_pid x) (pr_stack_size x) (pr_args_ptr x) (pr_handler_ptr x) (pr_argv x)
    v (pr_ret x) (pr_type x) (pr_stack x) (pr_is_inited x) (pr_is_alloced x)
    (pr_is_running x).
Definition set_pr_ret (v : Z) (x : qp_process_s) : qp_process_s :=
  MkProcess (pr_pid x) (pr_stack_size x) (pr_args_ptr x) (pr_handler_ptr x) (pr_argv x)
    (pr_flag x) v (pr_type x) (pr_stack x) (pr_is_inited x) (pr_is_alloced x)
    (pr_is_running x).
Definition set_pr_type (v : qp_process_type_e) (x : qp_process_s) : qp_process_s :=
  MkProcess (pr_pid x) (pr_stack_size x) (pr_args_ptr x) (pr_handler_ptr x) (pr_argv x)
    (pr_flag x) (pr_ret x) v (pr_stack x) (pr_is_inited x) (pr_is_alloced x)
    (pr_is_running x).
Definition set_pr_stack (v : Z) (x : qp_process_s) : qp_process_s :=
  MkProcess (pr_pid x) (pr_stack_size x) (pr_args_ptr x) (pr_handler_ptr x) (pr_argv x)
    (pr_flag x) (pr_ret x) (pr_type x) v (pr_is_inited x) (pr_is_alloced x)
    (pr_is_running x).
Definition set_pr_is_inited (v : bool) (x : qp_process_s) : qp_process_s :=
  MkProcess (pr_pid x) (pr_stack_size x) (pr_args_ptr x) (pr_handler_ptr x) (pr_argv x)
    (pr_flag x) (pr_ret x) (pr_type x) (pr_stack x) v (pr_is_alloced x)
    (pr_is_running x).
Definition set_pr_is_alloced (v : bool) (x : qp_process_s) : qp_process_s :=
  MkProcess (pr_pid x) (pr_stack_size x) (pr_args_ptr x) (pr_handler_ptr x) (pr_argv x)
    (pr_flag x) (pr_ret x) (pr_type x) (pr_stack x) (pr_is_inited x) v (pr_is_running x).
Definition set_pr_is_running (v : bool) (x : qp_process_s) : qp_process_s :=
  MkProcess (pr_pid x) (pr_stack_size x) (pr_args_ptr x) (pr_handler_ptr x) (pr_argv x)
    (pr_flag x) (pr_ret x) (pr_type x) (pr_stack x) (pr_is_inited x) (pr_is_alloced x) v.

Definition set_lb_handler (v : Z) (x : qp_library_s) : qp_library_s :=
  MkLibrary v (lb_error x) (lb_stat x).
Definition set_lb_error (v : Z) (x : qp_library_s) : qp_library_s :=
  MkLibrary (lb_handler x) v (lb_stat x).
Definition set_lb_stat (v : Z) (x : qp_library_s) : qp_library_s :=
  MkLibrary (lb_handler x) (lb_error x) v.

(** * The outside *)

(** An external call: its name, scalar arguments, the bytes it was passed, and
    what it returned. *)
Record event := Ev {
  ev_call : string;
  ev_args : list Z;
  ev_data : list Z;
  ev_ret : Z;
}.

Record answer := Ans { a_ret : Z; a_errno : Z; a_data : list Z }.

(** The operating system and the C library: any function of the history. The
    thread that runs the code is known by [pthread_self] and [getpid]. *)
Class OS := {
  os_answer : list event → string → list Z → list Z → answer;
  pthread_self : Z;
  getpid : Z;
}.

(** * State *)

Record world := MkWorld {
  w_trace : list event;
  w_errno : Z;
  w_live : gmap Z Z;
  w_mem : gmap Z Z;
  w_locks : gmap Z qp_ipc_lock_s;
  w_rwlocks : gmap Z qp_ipc_rwlock_s;
  w_conds : gmap Z qp_ipc_cond_s;
  w_sems : gmap Z qp_ipc_sem_s;
  w_shms : gmap Z qp_ipc_shm_s;
  w_fds : gmap Z qp_fd_s;
  w_files : gmap Z qp_file_s;
  w_sockets : gmap Z qp_socket_s;
  w_threads : gmap Z qp_thread_s;
  w_processes : gmap Z qp_process_s;
  w_libraries : gmap Z qp_library_s;
}.

Definition set_trace (x : list event) (w : world) : world :=
  MkWorld x (w_errno w) (w_live w) (w_mem w) (w_locks w) (w_rwlocks w) (w_conds w)
    (w_sems w) (w_shms w) (w_fds w) (w_files w) (w_sockets w) (w_threads w)
    (w_processes w) (w_libraries w).
Definition set_errno (x : Z) (w : world) : world :=
  MkWorld (w_trace w) x (w_live w) (w_mem w) (w_locks w) (w_rwlocks w) (w_conds w)
    (w_sems w) (w_shms w) (w_fds w) (w_files w) (w_sockets w) (w_threads w)
    (w_processes w) (w_libraries w).
Definition set_live (x : gmap Z Z) (w : world) : world :=
  MkWorld (w_trace w) (w_errno w) x (w_mem w) (w_locks w) (w_rwlocks w) (w_conds w)
    (w_sems w) (w_shms w) (w_fds w) (w_files w) (w_sockets w) (w_threads w)
    (w_processes w) (w_libraries w).
Definition set_mem (x : gmap Z Z) (w : world) : world :=
  MkWorld (w_trace w) (w_errno w) (w_live w) x (w_locks w) (w_rwlocks w) (w_conds w)
    (w_sems w) (w_shms w) (w_fds w) (w_files w) (w_sockets w) (w_threads w)
    (w_processes w) (w_libraries w).
Definition set_locks (x : gmap Z qp_ipc_lock_s) (w : world) : world :=
  MkWorld (w_trace w) (w_errno w) (w_live w) (w_mem w) x (w_rwlocks w) (w_conds w)
    (w_sems w) (w_shms w) (w_fds w) (w_files w) (w_sockets w) (w_threads w)
    (w_processes w) (w_libraries w).
Definition set_rwlocks (x : gmap Z qp_ipc_rwlock_s) (w : world) : world :=
  MkWorld (w_trace w) (w_errno w) (w_live w) (w_mem w) (w_locks w) x (w_conds w)
    (w_sems w) (w_shms w) (w_fds w) (w_files w) (w_sockets w) (w_threads w)
    (w_processes w) (w_libraries w).
Definition set_conds (x : gmap Z qp_ipc_cond_s) (w : world) : world :=
  MkWorld (w_trace w) (w_errno w) (w_live w) (w_mem w) (w_locks w) (w_rwlocks w) x
    (w_sems w) (w_shms w) (w_fds w) (w_files w) (w_sockets w) (w_threads w)
    (w_processes w) (w_libraries w).
Definition set_sems (x : gmap Z qp_ipc_sem_s) (w : world) : world :=
  MkWorld (w_trace w) (w_errno w) (w_live w) (w_mem w) (w_locks w) (w_rwlocks w)
    (w_conds w) x (w_shms w) (w_fds w) (w_files w) (w_sockets w) (w_threads w)
    (w_processes w) (w_libraries w).
Definition set_shms (x : gmap Z qp_ipc_shm_s) (w : world) : world :=
  MkWorld (w_trace w) (w_errno w) (w_live w) (w_mem w) (w_locks w) (w_rwlocks w)
    (w_conds w) (w_sems w) x (w_fds w) (w_files w) (w_sockets w) (w_threads w)
    (w_processes w) (w_libraries w).
Definition set_fds (x : gmap Z qp_fd_s) (w : world) : world :=
  MkWorld (w_trace w) (w_errno w) (w_live w) (w_mem w) (w_locks w) (w_rwlocks w)
    (w_conds w) (w_sems w) (w_shms w) x (w_files w) (w_sockets w) (w_threads w)
    (w_processes w) (w_libraries w).
Definition set_files (x : gmap Z qp_file_s) (w : world) : world :=
  MkWorld (w_trace w) (w_errno w) (w_live w) (w_mem w) (w_locks w) (w_rwlocks w)
    (w_conds w) (w_sems w) (w_shms w) (w_fds w) x (w_sockets w) (w_threads w)
    (w_processes w) (w_libraries w).
Definition set_sockets (x : gmap Z qp_socket_s) (w : world) : world :=
  MkWorld (w_trace w) (w_errno w) (w_live w) (w_mem w) (w_locks w) (w_rwlocks w)
    (w_conds w) (w_sems w) (w_shms w) (w_fds w) (w_files w) x (w_threads w)
    (w_processes w) (w_libraries w).
Definition set_threads (x : gmap Z qp_thread_s) (w : world) : world :=
  MkWorld (w_trace w) (w_errno w) (w_live w) (w_mem w) (w_locks w) (w_rwlocks w)
    (w_conds w) (w_sems w) (w_shms w) (w_fds w) (w_files w) (w_sockets w) x
    (w_processes w) (w_libraries w).
Definition set_processes (x : gmap Z qp_process_s) (w : world) : world :=
  MkWorld (w_trace w) (w_errno w) (w_live w) (w_mem w) (w_locks w) (w_rwlocks w)
    (w_conds w) (w_sems w) (w_shms w) (w_fds w) (w_files w) (w_sockets w)
    (w_threads w) x (w_libraries w).
Definition set_libraries (x : gmap Z qp_library_s) (w : world) : world :=
  MkWorld (w_trace w) (w_errno w) (w_live w) (w_mem w) (w_locks w) (w_rwlocks w)
    (w_conds w) (w_sems w) (w_shms w) (w_fds w) (w_files w) (w_sockets w)
    (w_threads w) (w_processes w) x.

#[export] Instance lens_locks : Lens world (gmap Z qp_ipc_lock_s).
Proof. by refine {| lget := w_locks; lset := set_locks |}; intros; destruct_and?; destruct s. Defined.
#[export] Instance lens_rwlocks : Lens world (gmap Z qp_ipc_rwlock_s).
Proof. by refine {| lget := w_rwlocks; lset := set_rwlocks |}; intros; destruct_and?; destruct s. Defined.
#[export] Instance lens_conds : Lens world (gmap Z qp_ipc_cond_s).
Proof. by refine {| lget := w_conds; lset := set_conds |}; intros; destruct_and?; destruct s. Defined.
#[export] Instance lens_sems : Lens world (gmap Z qp_ipc_sem_s).
Proof. by refine {| lget := w_sems; lset := set_sems |}; intros; destruct_and?; destruct s. Defined.
#[export] Instance lens_shms : Lens world (gmap Z qp_ipc_shm_s).
Proof. by refine {| lget := w_shms; lset := set_shms |}; intros; destruct_and?; destruct s. Defined.
#[export] Instance lens_fds : Lens world (gmap Z qp_fd_s).
Proof. by refine {| lget := w_fds; lset := set_fds |}; intros; destruct_and?; destruct s. Defined.
#[export] Instance lens_files : Lens world (gmap Z qp_file_s).
Proof. by refine {| lget := w_files; lset := set_files |}; intros; destruct_and?; destruct s. Defined.
#[export] Instance lens_sockets : Lens world (gmap Z qp_socket_s).
Proof. by refine {| lget := w_sockets; lset := set_sockets |}; intros; destruct_and?; destruct s. Defined.
#[export] Instance lens_threads : Lens world (gmap Z qp_thread_s).
Proof. by refine {| lget := w_threads; lset := set_threads |}; intros; destruct_and?; destruct s. Defined.
#[export] Instance lens_processes : Lens world (gmap Z qp_process_s).
Proof. by refine {| lget := w_processes; lset := set_processes |}; intros; destruct_and?; destruct s. Defined.
#[export] Instance lens_libraries : Lens world (gmap Z qp_library_s).
Proof. by refine {| lget := w_libraries; lset := set_libraries |}; intros; destruct_and?; destruct s. Defined.


(** * External calls *)

Section calls.
Context `{OS}.

Definition record (name : string) (args data : list Z) (a : answer) (w : world) : world :=
  set_errno (a_errno a) (set_trace (w_trace w ++ [Ev name args data (a_ret a)]) w).

(** An external call with scalar arguments and bytes passed. *)
Definition ext (name : string) (args data : list Z) : M world answer := λ w,
  let a := os_answer (w_trace w) name args data in Ok (a, record name args data a w).

Definition call (name : string) (args : list Z) : M world Z :=
  a ← ext name args []; mret (a_ret a).

Definition get_errno : M world Z := gets w_errno.
Definition put_errno (e : Z) : M world unit := modify (set_errno e).

(** ** Memory *)

Definition mapped_addrs (w : world) : gset Z :=
  dom (w_live w) ∪ dom (w_mem w) ∪ dom (w_locks w) ∪ dom (w_rwlocks w) ∪ dom (w_conds w) ∪
  dom (w_sems w) ∪ dom (w_shms w) ∪ dom (w_fds w) ∪ dom (w_files w) ∪ dom (w_sockets w) ∪
  dom (w_threads w) ∪ dom (w_processes w) ∪ dom (w_libraries w).

(** The allocator can use [n] bytes at [p]. *)
Definition usable (w : world) (p n : Z) : bool :=
  (0 <? p) && (p + n <=? 2 ^ 64) &&
  bool_decide (set_Forall (λ x, x < p ∨ p + n ≤ x) (mapped_addrs w)).

(** [malloc(n)]; a proposed address that is in use counts as no memory. *)
Definition malloc (n : Z) : M world Z := λ w,
  let a := os_answer (w_trace w) "malloc" [n] [] in
  let p := if usable w (a_ret a) n then a_ret a else NULL in
  let w' := record "malloc" [n] [] (Ans p (a_errno a) []) w in
  Ok (p, if p =? NULL then w' else set_live (<[p := n]> (w_live w')) w').

(** The structure of a fresh block; [memset] gives it its contents. *)
Definition new {X} `{!Lens world (gmap Z X)} (p : Z) (x : X) : M world unit :=
  modify (λ w, lset (<[p := x]> (lget w)) w).

Definition outside (p n : Z) {X} (m : gmap Z X) : gmap Z X :=
  filter (λ '(x, _), x < p ∨ p + n ≤ x) m.

(** Unmap everything in [n] bytes at [p]. *)
Definition unmap (p n : Z) (w : world) : world :=
  MkWorld (w_trace w) (w_errno w) (delete p (w_live w)) (outside p n (w_mem w))
    (outside p n (w_locks w)) (outside p n (w_rwlocks w)) (outside p n (w_conds w))
    (outside p n (w_sems w)) (outside p n (w_shms w)) (outside p n (w_fds w))
    (outside p n (w_files w)) (outside p n (w_sockets w)) (outside p n (w_threads w))
    (outside p n (w_processes w)) (outside p n (w_libraries w)).

(** [free(p)]: a no-op on NULL, a fault on anything but a live block. *)
Definition free (p : Z) : M world unit := λ w,
  if p =? NULL then Ok (tt, w) else
  match w_live w !! p with
  | Some n => Ok (tt, unmap p n (record "free" [p] [] (Ans 0 (w_errno w) []) w))
  | None => Fault
  end.

(** ** Bytes *)

(** [l] lies at [p]. *)
Definition bytes_at (m : gmap Z Z) (p : Z) (l : list Z) : Prop :=
  mapM (λ a, m !! a) (seqZ p (Z.of_nat (length l))) = Some l.

(** [n] bytes at [p]. *)
Definition read_bytes (p n : Z) : M world (list Z) := λ w,
  match mapM (λ a, w_mem w !! a) (seqZ p n) with Some l => Ok (l, w) | None => Fault end.

(** Store the bytes [l] at [p]: all of the range must be mapped. *)
Definition write_bytes (p : Z) (l : list Z) : M world unit := λ w,
  if forallb (λ a, bool_decide (is_Some (w_mem w !! a))) (seqZ p (Z.of_nat (length l)))
  then Ok (tt, set_mem (map_seqZ p l ∪ w_mem w) w)
  else Fault.

(** What a call stored in a buffer: the first [n] bytes of its answer. *)
Definition fill (n : Z) (l : list Z) : list Z :=
  (λ i, default 0 (l !! i)) <$> seq 0 (Z.to_nat n).

(** ** Rules *)

Lemma wp_ext name args data w (Q : answer → world → Prop) :
  Q (os_answer (w_trace w) name args data)
    (record name args data (os_answer (w_trace w) name args data) w) →
  wp (ext name args data) w Q.
Proof. done. Qed.

Lemma record_trace name args data a w :
  w_trace (record name args data a w) = w_trace w ++ [Ev name args data (a_ret a)].
Proof. done. Qed.

Lemma wp_call name args w (Q : Z → world → Prop) :
  (∀ a, a = os_answer (w_trace w) name args [] →
     Q (a_ret a) (record name args [] a w)) →
  wp (call name args) w Q.
Proof. intros HQ. by apply HQ. Qed.

Lemma wp_malloc n w (Q : Z → world → Prop) :
  (∀ p e, usable w p n = true → p ≠ NULL →
     Q p (set_live (<[p := n]> (w_live w)) (record "malloc" [n] [] (Ans p e []) w))) →
  (∀ e, Q NULL (record "malloc" [n] [] (Ans NULL e []) w)) →
  wp (malloc n) w Q.
Proof.
  intros Hok Hnull. unfold wp, malloc.
  destruct (usable w _ n) eqn:Hu; [|apply Hnull].
  destruct (Z.eqb_spec (a_ret (os_answer (w_trace w) "malloc" [n] [])) NULL) as [->|Hp].
  - by apply Hnull.
  - by apply Hok.
Qed.

Lemma wp_new {X} `{!Lens world (gmap Z X)} p (x : X) w (Q : unit → world → Prop) :
  Q tt (lset (<[p := x]> (lget w)) w) → wp (new p x) w Q.
Proof. done. Qed.

Lemma wp_free p n w (Q : unit → world → Prop) :
  p ≠ NULL → w_live w !! p = Some n →
  Q tt (unmap p n (record "free" [p] [] (Ans 0 (w_errno w) []) w)) → wp (free p) w Q.
Proof.
  intros Hp Hn HQ. unfold wp, free. by rewrite (proj2 (Z.eqb_neq _ _) Hp), Hn.
Qed.

Lemma usable_outside {X} w p n (m : gmap Z X) :
  dom m ⊆ mapped_addrs w → usable w p n = true → outside p n m = m.
Proof.
  intros Hm (_ & Hu%bool_decide_eq_true_1)%andb_true_iff. apply map_filter_id.
  intros x y Hx. apply Hu, Hm. by apply elem_of_dom_2 in Hx.
Qed.

(** A fresh block, filled in and freed, leaves the store as it was. *)
Lemma outside_insert {X} w p n q (x : X) m :
  0 ≤ q < n → dom m ⊆ mapped_addrs w → usable w p n = true →
  outside p n (<[p + q := x]> m) = m.
Proof.
  intros Hq Hm Hu. unfold outside. rewrite map_filter_insert_False by lia.
  rewrite map_filter_delete. fold (outside p n m).
  rewrite (usable_outside w) by done. apply delete_id.
  apply not_elem_of_dom. intros Hd%Hm.
  apply andb_true_iff in Hu as [_ Hu%bool_decide_eq_true_1]. specialize (Hu _ Hd). cbn in Hu. lia.
Qed.
End calls.

(** * Stores in the world *)

(** A store of structures: apart from the trace, [errno], blocks and bytes. *)
Class Store X `{!Lens world (gmap Z X)} : Prop := {
  store_lset_trace m t w : set_trace t (lset m w) = lset m (set_trace t w);
  store_lset_errno m e w : set_errno e (lset m w) = lset m (set_errno e w);
  store_lset_live m l w : set_live l (lset m w) = lset m (set_live l w);
  store_lset_mem m b w : set_mem b (lset m w) = lset m (set_mem b w);
  store_lget_trace t w : lget (set_trace t w) = lget w;
  store_lget_errno e w : lget (set_errno e w) = lget w;
  store_lget_live l w : lget (set_live l w) = lget w;
  store_lget_mem b w : lget (set_mem b w) = lget w;
  store_trace m w : w_trace (lset m w) = w_trace w;
  store_errno m w : w_errno (lset m w) = w_errno w;
  store_live m w : w_live (lset m w) = w_live w;
  store_mem m w : w_mem (lset m w) = w_mem w;
}.

#[export] Instance store_locks : Store qp_ipc_lock_s. Proof. by split. Qed.
#[export] Instance store_rwlocks : Store qp_ipc_rwlock_s. Proof. by split. Qed.
#[export] Instance store_conds : Store qp_ipc_cond_s. Proof. by split. Qed.
#[export] Instance store_sems : Store qp_ipc_sem_s. Proof. by split. Qed.
#[export] Instance store_shms : Store qp_ipc_shm_s. Proof. by split. Qed.
#[export] Instance store_fds : Store qp_fd_s. Proof. by split. Qed.
#[export] Instance store_files : Store qp_file_s. Proof. by split. Qed.
#[export] Instance store_sockets : Store qp_socket_s. Proof. by split. Qed.
#[export] Instance store_threads : Store qp_thread_s. Proof. by split. Qed.
#[export] Instance store_processes : Store qp_process_s. Proof. by split. Qed.
#[export] Instance store_libraries : Store qp_library_s. Proof. by split. Qed.

(** The world in which the object at [p] is [x]. *)
Definition obj `{!Lens world (gmap Z X)} (w : world) (p : Z) (x : X) : world :=
  lset (<[p := x]> (lget w)) w.

(** [if (p) p->flag = v;] and [p ? p->flag : false]. *)
Definition set_flag `{!Lens world (gmap Z X)} (upd : X → X) (p : Z) : M world unit :=
  if p =? NULL then mret tt else st upd p.
Definition is_flag `{!Lens world (gmap Z X)} (field : X → bool) (p : Z) : M world bool :=
  if p =? NULL then mret false else ld field p.

Section objects.
#[local] Set Default Proof Using "All".
Context `{HS : Store X}.
Implicit Types (x : X) (w : world).

Lemma obj_id w p x : lget w !! p = Some x → w = obj w p x.
Proof. intros Hx. unfold obj. by rewrite insert_id, lset_lget. Qed.

Lemma obj_lookup w p x : lget (obj w p x) !! p = Some x.
Proof. unfold obj. by rewrite lget_lset, lookup_insert_eq. Qed.

Lemma obj_obj w p x y : obj (obj w p x) p y = obj w p y.
Proof. unfold obj. by rewrite lget_lset, lset_lset, insert_insert_eq. Qed.

Lemma obj_record w p x name args data a :
  record name args data a (obj w p x) = obj (record name args data a w) p x.
Proof.
  unfold record, obj. rewrite store_trace, store_lset_trace, store_lset_errno.
  by rewrite store_lget_errno, store_lget_trace.
Qed.

Lemma obj_errno w p x e : set_errno e (obj w p x) = obj (set_errno e w) p x.
Proof. unfold obj. by rewrite store_lset_errno, store_lget_errno. Qed.

Lemma obj_set_live w p x l : set_live l (obj w p x) = obj (set_live l w) p x.
Proof. unfold obj. by rewrite store_lset_live, store_lget_live. Qed.

Lemma obj_live w p x : w_live (obj w p x) = w_live w.
Proof. apply store_live. Qed.

Lemma obj_trace w p x : w_trace (obj w p x) = w_trace w.
Proof. apply store_trace. Qed.

Lemma wp_ld_obj {Y} (field : X → Y) p x w (Q : Y → world → Prop) :
  p ≠ NULL → Q (field x) (obj w p x) → wp (ld field p) (obj w p x) Q.
Proof. intros Hp HQ. eapply wp_ld; [done|apply obj_lookup|done]. Qed.

Lemma wp_st_obj upd p x w (Q : unit → world → Prop) :
  p ≠ NULL → Q tt (obj w p (upd x)) → wp (st upd p) (obj w p x) Q.
Proof.
  intros Hp HQ. eapply wp_st; [done|apply obj_lookup|].
  change (Q tt (obj (obj w p x) p (upd x))). by rewrite obj_obj.
Qed.

Lemma wp_new_obj p x w (Q : unit → world → Prop) : Q tt (obj w p x) → wp (new p x) w Q.
Proof. done. Qed.

Lemma wp_call_obj `{OS} name args p x w (Q : Z → world → Prop) :
  (∀ a, a = os_answer (w_trace w) name args [] →
     Q (a_ret a) (obj (record name args [] a w) p x)) →
  wp (call name args) (obj w p x) Q.
Proof.
  intros HQ. apply wp_call. intros a ->. rewrite obj_record, obj_trace. by apply HQ.
Qed.

Lemma wp_ext_obj `{OS} name args data p x w (Q : answer → world → Prop) :
  (∀ a, a = os_answer (w_trace w) name args data →
     Q a (obj (record name args data a w) p x)) →
  wp (ext name args data) (obj w p x) Q.
Proof.
  intros HQ. apply wp_ext. rewrite obj_record, obj_trace. by apply HQ.
Qed.

Lemma wp_set_flag_obj upd p x w (Q : unit → world → Prop) :
  p ≠ NULL → Q tt (obj w p (upd x)) → wp (set_flag upd p) (obj w p x) Q.
Proof.
  intros Hp HQ. unfold set_flag. rewrite (proj2 (Z.eqb_neq _ _) Hp). by apply wp_st_obj.
Qed.

Lemma wp_is_flag_obj (field : X → bool) p x w (Q : bool → world → Prop) :
  p ≠ NULL → Q (field x) (obj w p x) → wp (is_flag field p) (obj w p x) Q.
Proof.
  intros Hp HQ. unfold is_flag. rewrite (proj2 (Z.eqb_neq _ _) Hp). by apply wp_ld_obj.
Qed.

Lemma wp_put_errno_obj e p x w (Q : unit → world → Prop) :
  Q tt (obj (set_errno e w) p x) → wp (put_errno e) (obj w p x) Q.
Proof. intros HQ. apply wp_modify. by rewrite obj_errno. Qed.
End objects.

#[global] Arguments obj {_ _} _ _ _ : simpl never.
#[global] Arguments record _ _ _ _ _ : simpl never.
#[global] Arguments wp {_ _} _ _ _ : simpl never.

(** One statement of code that works on the object of the current [obj]. *)
Ltac ostep :=
  lazymatch goal with
  | |- wp (_ ≫= _) _ _ => apply wp_bind
  | |- wp (mret _) _ _ => apply wp_ret
  | |- wp (ld _ _) (obj _ _ _) _ => apply wp_ld_obj; [solve_ne|]
  | |- wp (st _ _) (obj _ _ _) _ => apply wp_st_obj; [solve_ne|]
  | |- wp (new _ _) _ _ => apply wp_new_obj
  | |- wp (call _ _) (obj _ _ _) _ => apply wp_call_obj; intros ? ?
  | |- wp (ext _ _ _) (obj _ _ _) _ => apply wp_ext_obj; intros ? ?
  | |- wp (set_flag _ _) (obj _ _ _) _ => apply wp_set_flag_obj; [solve_ne|]
  | |- wp (is_flag _ _) (obj _ _ _) _ => apply wp_is_flag_obj; [solve_ne|]
  | |- wp (put_errno _) (obj _ _ _) _ => apply wp_put_errno_obj
  | |- wp (if ?b then ?m1 else ?m2) ?w ?Q =>
      let b' := eval cbn in b in
      match b' with true => change (wp m1 w Q) | false => change (wp m2 w Q) end
  end; cbn beta iota.

Definition empty_world : world := MkWorld [] 0 ∅ ∅ ∅ ∅ ∅ ∅ ∅ ∅ ∅ ∅ ∅ ∅ ∅.

(** A system that answers every call in turn from a list of results. *)
Definition answers (l : list Z) : OS := {|
  os_answer t name args data := Ans (default 0 (l !! length t)) 0 [];
  pthread_self := 7;
  getpid := 100;
|}.
