(* ===== verification/Atomic.v ===== *)
(** The atomic operations of [src/src/core/qp_atomic.h] on a field of a structure,
    seen from one thread, and the two [sysconf] macros of [qp_defines.h]. *)

From S2P Require Import Prelude World.
#[local] Open Scope Z_scope.

Definition QP_ERROR : Z := -1.
Definition QP_SUCCESS : Z := 0.

(** An atomic word: how to read and write it in its structure. *)
Record qp_atom_t (X : Type) := MkAtom { at_get : X → Z; at_set : Z → X → X }.
Arguments MkAtom {X}.
Arguments at_get {X}.
Arguments at_set {X}.

Section atomic.
Context {X : Type} `{!Lens world (gmap Z X)}.
Implicit Types (a : qp_atom_t X).

Definition qp_atom_fetch_add a (p add : Z) : M world Z :=
  old ← ld (at_get a) p; st (at_set a (u64 (old + add))) p;; mret old.

Definition qp_atom_fetch_sub a (p sub : Z) : M world Z :=
  old ← ld (at_get a) p; st (at_set a (u64 (old - sub))) p;; mret old.

Definition qp_atom_add_fetch a (p add : Z) : M world Z :=
  old ← ld (at_get a) p; st (at_set a (u64 (old + add))) p;; mret (u64 (old + add)).

Definition qp_atom_sub_fetch a (p sub : Z) : M world Z :=
  old ← ld (at_get a) p; st (at_set a (u64 (old - sub))) p;; mret (u64 (old - sub)).

Definition qp_atom_cmp_set a (p oldv newv : Z) : M world bool :=
  v ← ld (at_get a) p;
  if v =? oldv then st (at_set a newv) p;; mret true else mret false.

Definition qp_atom_add a (p : Z) : M world Z := qp_atom_fetch_add a p 1.
Definition qp_atom_sub a (p : Z) : M world Z := qp_atom_fetch_sub a p 1.
Definition qp_atom_fetch a (p : Z) : M world Z := qp_atom_fetch_add a p 0.
End atomic.

(** A hint to the processor, without effect on memory. *)
Definition qp_cpu_pause : M world unit := mret tt.

Section sysconf.
Context `{OS}.

(** Linux numbers. *)
Definition SC_PAGESIZE : Z := 30.
Definition SC_NPROCESSORS_CONF : Z := 83.
Definition SC_NPROCESSORS_ONLN : Z := 84.

Definition qp_sched_yield : M world Z := call "sched_yield" [].

Definition qp_cpu_num : M world Z :=
  n ← call "sysconf" [SC_NPROCESSORS_CONF];
  if 1 <? n then call "sysconf" [SC_NPROCESSORS_ONLN] else mret 1.

Definition qp_pagesize : M world Z :=
  n ← call "sysconf" [SC_PAGESIZE];
  if 0 <? n then call "sysconf" [SC_PAGESIZE] else mret 4096.
End sysconf.
