(* ===== verification/Lock.v ===== *)
(** The locks of [src/src/core/qp_ipc_core.c]: a mutex or a spin word, made
    reentrant by a record of the holding thread and a counter. This file has the
    code as one thread runs it; LockSteps.v has its interleavings. *)

From S2P Require Import Prelude World Atomic.
#[local] Open Scope Z_scope.

(** * Constants and layout (Linux, LP64) *)

Definition EBUSY : Z := 16.
Definition PTHREAD_MUTEX_ERRORCHECK : Z := 2.
Definition PTHREAD_PROCESS_SHARED : Z := 1.

(** [struct qp_ipc_lock_s]: a 40-byte union, then the fields. *)
Definition sizeof_lock : Z := 72.
Definition zero_lock : qp_ipc_lock_s := MkLock 0 0 0 0 false false false false.

Definition lock_spin : qp_atom_t qp_ipc_lock_s := MkAtom lk_spin set_lk_spin.
Definition hold_counter : qp_atom_t qp_ipc_lock_s := MkAtom lk_hold_counter set_lk_hold_counter.

(** * Flags *)

Definition qp_lock_set_inited : Z → M world unit := set_flag (set_lk_is_inited true).
Definition qp_lock_set_alloced : Z → M world unit := set_flag (set_lk_is_alloced true).
Definition qp_lock_set_shared : Z → M world unit := set_flag (set_lk_is_shared true).
Definition qp_lock_set_spin : Z → M world unit := set_flag (set_lk_is_spin true).
Definition qp_lock_unset_inited : Z → M world unit := set_flag (set_lk_is_inited false).
Definition qp_lock_unset_shared : Z → M world unit := set_flag (set_lk_is_shared false).
Definition qp_lock_unset_spin : Z → M world unit := set_flag (set_lk_is_spin false).

Definition qp_lock_is_inited : Z → M world bool := is_flag lk_is_inited.
Definition qp_lock_is_alloced : Z → M world bool := is_flag lk_is_alloced.
Definition qp_lock_is_shared : Z → M world bool := is_flag lk_is_shared.
Definition qp_lock_is_spin : Z → M world bool := is_flag lk_is_spin.

(** * The code *)

Section lock.
Context `{OS}.

(** The way out when a step of an initialisation fails: give back the structure
    if it was allocated here. *)
Definition lock_fail (lock : Z) : M world Z :=
  alloced ← qp_lock_is_alloced lock;
  (if (alloced : bool) then free lock else mret tt);; mret NULL.

Definition qp_lock_create (lock : Z) (shared spin : bool) : M world Z :=
  lock ← (if lock =? NULL then
            lock ← malloc sizeof_lock;
            if lock =? NULL then mret NULL else
            new lock zero_lock;; qp_lock_set_alloced lock;; mret lock
          else st (λ _, zero_lock) lock;; mret lock);
  if lock =? NULL then mret NULL else
  if spin then
    (if shared then qp_lock_set_shared lock else mret tt);;
    qp_lock_set_spin lock;; qp_lock_set_inited lock;; mret lock
  else
  r ← call "pthread_mutexattr_init" [];
  if negb (r =? QP_SUCCESS) then lock_fail lock else
  r ← call "pthread_mutexattr_settype" [PTHREAD_MUTEX_ERRORCHECK];
  if negb (r =? QP_SUCCESS) then lock_fail lock else
  ok ← (if shared then
          r ← call "pthread_mutexattr_setpshared" [PTHREAD_PROCESS_SHARED];
          if negb (r =? QP_SUCCESS) then mret false
          else qp_lock_set_shared lock;; mret true
        else mret true);
  if negb ok then lock_fail lock else
  r ← call "pthread_mutex_init" [lock];
  if negb (r =? QP_SUCCESS) then lock_fail lock else
  call "pthread_mutexattr_destroy" [];;
  qp_lock_set_inited lock;; mret lock.

Definition qp_lock_init (lock : Z) (shared spin : bool) : M world Z :=
  qp_lock_create lock shared spin.

(** [0 != hold_counter && hold_thread == pthread_self() && hold_process ==
    getpid()]: the caller holds the lock already. *)
Definition held_by_me (lock : Z) : M world bool :=
  counter ← ld lk_hold_counter lock;
  if negb (counter =? 0) then
    thread ← ld lk_hold_thread lock;
    if thread =? pthread_self then
      process ← ld lk_hold_process lock; mret (process =? getpid)
    else mret false
  else mret false.

(** What follows a successful acquisition. *)
Definition take_over (lock : Z) : M world unit :=
  st (set_lk_hold_thread pthread_self) lock;;
  st (set_lk_hold_process getpid) lock;;
  qp_atom_fetch_add hold_counter lock 1;; mret tt.

(** [for (j = 0; j < i; j++) qp_cpu_pause();] *)
Definition pauses (i : Z) : M world unit :=
  loop (S (Z.to_nat i)) (λ j, if j <? i then qp_cpu_pause;; mret (inl (j + 1)) else mret (inr tt)) 0.

(** One round of [for (i = 1; i < n; i <<= 1)]; the result says whether the lock
    was taken. *)
Definition spin_round (lock n i : Z) : M world (Z + bool) :=
  if i <? n then
    pauses i;;
    ok ← qp_atom_cmp_set lock_spin lock 0 1;
    if (ok : bool) then take_over lock;; mret (inr true) else mret (inl (u32 (Z.shiftl i 1)))
  else mret (inr false).

(** One round of [for ( ;; )]. *)
Definition qp_lock_spin_body (lock : Z) (_ : unit) : M world (unit + Z) :=
  ok ← qp_atom_cmp_set lock_spin lock 0 1;
  if (ok : bool) then take_over lock;; mret (inr QP_SUCCESS) else
  cpus ← qp_cpu_num;
  ok ← (if 1 <? cpus then loop 11 (spin_round lock 1024) 1 else mret false);
  if (ok : bool) then mret (inr QP_SUCCESS) else
  qp_sched_yield;; mret (inl tt).

(** [fuel] bounds the rounds of spinning. *)
Definition qp_lock_lock (fuel : nat) (lock : Z) : M world Z :=
  if lock =? NULL then mret QP_ERROR else
  mine ← held_by_me lock;
  if (mine : bool) then qp_atom_fetch_add hold_counter lock 1;; mret QP_SUCCESS else
  spin ← qp_lock_is_spin lock;
  if (spin : bool) then loop fuel (qp_lock_spin_body lock) tt else
  r ← call "pthread_mutex_lock" [lock];
  if r =? QP_SUCCESS then take_over lock;; mret QP_SUCCESS else
  mret QP_ERROR.

Definition qp_lock_trylock (lock : Z) : M world Z :=
  if lock =? NULL then mret QP_ERROR else
  mine ← held_by_me lock;
  if (mine : bool) then qp_atom_fetch_add hold_counter lock 1;; mret QP_SUCCESS else
  spin ← qp_lock_is_spin lock;
  if (spin : bool) then
    ok ← qp_atom_cmp_set lock_spin lock 0 1;
    if (ok : bool) then take_over lock;; mret QP_SUCCESS
    else put_errno EBUSY;; mret QP_ERROR
  else
  r ← call "pthread_mutex_trylock" [lock];
  if r =? QP_SUCCESS then take_over lock;; mret QP_SUCCESS else
  mret QP_ERROR.

Definition qp_lock_unlock (lock : Z) : M world Z :=
  if lock =? NULL then mret QP_ERROR else
  counter ← ld lk_hold_counter lock;
  if counter <? 1 then mret QP_ERROR else
  thread ← ld lk_hold_thread lock;
  mine ← (if thread =? pthread_self then
            process ← ld lk_hold_process lock; mret (process =? getpid)
          else mret false);
  if negb mine then mret QP_ERROR else
  qp_atom_fetch_sub hold_counter lock 1;;
  counter ← ld lk_hold_counter lock;
  if negb (counter =? 0) then mret QP_SUCCESS else
  st (set_lk_hold_thread 0) lock;; st (set_lk_hold_process 0) lock;;
  spin ← qp_lock_is_spin lock;
  if (spin : bool) then
    ok ← qp_atom_cmp_set lock_spin lock 1 0;
    if (ok : bool) then mret QP_SUCCESS else mret QP_ERROR
  else call "pthread_mutex_unlock" [lock].

Definition qp_lock_destroy (lock : Z) : M world Z :=
  inited ← qp_lock_is_inited lock;
  if negb inited then mret QP_ERROR else
  r ← qp_lock_trylock lock;
  if r =? EBUSY then mret QP_ERROR else
  qp_lock_unlock lock;;
  spin ← qp_lock_is_spin lock;
  r ← (if negb spin then call "pthread_mutex_destroy" [lock] else mret QP_SUCCESS);
  if negb (r =? QP_SUCCESS) then mret QP_ERROR else
  qp_lock_unset_spin lock;; qp_lock_unset_shared lock;; qp_lock_unset_inited lock;;
  alloced ← qp_lock_is_alloced lock;
  (if (alloced : bool) then free lock else mret tt);; mret QP_SUCCESS.

Definition qp_lock_counter (lock : Z) : M world Z :=
  if lock =? NULL then mret 0 else c ← ld lk_hold_counter lock; mret (u32 c).
End lock.
