(* ===== verification/Life.v ===== *)
(** What the life cycles of the system objects share: worlds that differ only in
    the trace and [errno], and structures that are allocated on demand and given
    back at the end. *)

From S2P Require Import Prelude World.
#[local] Open Scope Z_scope.

(** * Worlds with the same memory *)

Definition quiet (w : world) : world := set_errno 0 (set_trace [] w).
Definition same_mem (w w' : world) : Prop := quiet w = quiet w'.
Infix "≡ₘ" := same_mem (at level 70, no associativity).

#[export] Instance same_mem_equiv : Equivalence same_mem.
Proof. unfold same_mem. split; [by intros ?|by intros ?? ->|by intros ??? -> ->]. Qed.

#[export] Instance record_same name args data a :
  Proper (same_mem ==> same_mem) (record name args data a).
Proof. by intros w w' E. Qed.

Lemma record_quiet name args data a w : record name args data a w ≡ₘ w.
Proof. done. Qed.

Lemma set_errno_quiet e w : set_errno e w ≡ₘ w.
Proof. done. Qed.

#[export] Hint Resolve record_quiet set_errno_quiet : core.

Lemma same_live w w' : w ≡ₘ w' → w_live w = w_live w'.
Proof. intros E. by apply (f_equal w_live) in E. Qed.

#[export] Instance set_live_same l : Proper (same_mem ==> same_mem) (set_live l).
Proof. intros w w' E. by apply (f_equal (set_live l)) in E. Qed.

#[export] Instance unmap_same p n : Proper (same_mem ==> same_mem) (unmap p n).
Proof. intros w w' E. by apply (f_equal (unmap p n)) in E. Qed.

Lemma usable_same w w' p n : w ≡ₘ w' → usable w p n = usable w' p n.
Proof. intros E. by apply (f_equal (λ w, usable w p n)) in E. Qed.

(** A store is part of memory, and part of what [free] unmaps. *)
Class MemStore X `{HS : Store X} : Prop := {
  mem_lget w w' : w ≡ₘ w' → (lget w : gmap Z X) = lget w';
  mem_lset (m : gmap Z X) w w' : w ≡ₘ w' → lset m w ≡ₘ lset m w';
  mem_dom w : dom (lget w : gmap Z X) ⊆ mapped_addrs w;
  mem_unmap (m : gmap Z X) p n w :
    unmap p n (lset m w) = lset (outside p n m) (unmap p n w);
  mem_lget_unmap p n w : (lget (unmap p n w) : gmap Z X) = outside p n (lget w);
  mem_grow (m m' : gmap Z X) w :
    dom m ⊆ dom m' → mapped_addrs (lset m w) ⊆ mapped_addrs (lset m' w);
}.

Ltac mem_store :=
  split; [intros w w' E; lazymatch goal with |- _ = _ :> ?T => by apply (f_equal (lget (A := T))) in E end
         |intros m w w' E; by apply (f_equal (lset m)) in E
         |intros w; simpl; unfold mapped_addrs; set_solver
         |done..
         |intros m m' w Hm; unfold mapped_addrs; simpl; set_solver].

#[export] Instance mem_locks : MemStore qp_ipc_lock_s. Proof. mem_store. Qed.
#[export] Instance mem_rwlocks : MemStore qp_ipc_rwlock_s. Proof. mem_store. Qed.
#[export] Instance mem_conds : MemStore qp_ipc_cond_s. Proof. mem_store. Qed.
#[export] Instance mem_sems : MemStore qp_ipc_sem_s. Proof. mem_store. Qed.
#[export] Instance mem_shms : MemStore qp_ipc_shm_s. Proof. mem_store. Qed.
#[export] Instance mem_fds : MemStore qp_fd_s. Proof. mem_store. Qed.
#[export] Instance mem_files : MemStore qp_file_s. Proof. mem_store. Qed.
#[export] Instance mem_sockets : MemStore qp_socket_s. Proof. mem_store. Qed.
#[export] Instance mem_threads : MemStore qp_thread_s. Proof. mem_store. Qed.
#[export] Instance mem_processes : MemStore qp_process_s. Proof. mem_store. Qed.
#[export] Instance mem_libraries : MemStore qp_library_s. Proof. mem_store. Qed.

Section same.
#[local] Set Default Proof Using "All".
Context `{HM : MemStore X}.

Lemma obj_same w w' p x : w ≡ₘ w' → obj w p x ≡ₘ obj w' p x.
Proof. intros E. unfold obj. rewrite (mem_lget w w') by done. by apply mem_lset. Qed.

Lemma same_mem_eq w w' : w ≡ₘ w' → w = set_trace (w_trace w) (set_errno (w_errno w) w').
Proof. intros E. apply (f_equal (λ u, set_trace (w_trace w) (set_errno (w_errno w) u))) in E.
  etrans; [|exact E]. by destruct w. Qed.

Lemma same_obj w w' p x : w' ≡ₘ obj w p x → ∃ w2, w2 ≡ₘ w ∧ w' = obj w2 p x.
Proof.
  intros E%same_mem_eq. exists (set_trace (w_trace w') (set_errno (w_errno w') w)).
  split; [done|]. rewrite E at 1. unfold obj.
  rewrite store_lset_errno, store_lset_trace. by rewrite store_lget_trace, store_lget_errno.
Qed.

(** The fresh block [n] bytes long at [p]. *)
Definition block_at (p n : Z) (w : world) : world := set_live (<[p := n]> (w_live w)) w.

Lemma usable_cases w p n :
  usable w p n = true → 0 < p ∧ ∀ x, x ∈ mapped_addrs w → x < p ∨ p + n ≤ x.
Proof.
  intros (Hp & Hu%bool_decide_eq_true_1)%andb_true_iff.
  apply andb_true_iff in Hp as [Hp _]. split; [lia|]. exact Hu.
Qed.

Lemma unmap_fresh w p n :
  0 < n → usable w p n = true → unmap p n (block_at p n w) = w.
Proof.
  intros Hn Hu. pose proof (usable_cases _ _ _ Hu) as [_ Hfresh].
  assert (w_live w !! p = None) as Hp.
  { apply not_elem_of_dom. intros Hd. destruct (Hfresh p); [|lia..].
    unfold mapped_addrs. set_solver. }
  unfold unmap, block_at. cbn. rewrite delete_insert_id by done.
  rewrite !(usable_outside w) by (done || (unfold mapped_addrs; set_solver)).
  by destruct w.
Qed.

(** An object in a block disappears with it. *)
Lemma unmap_obj w w1 p n q x :
  0 ≤ q < n → usable w p n = true → (lget w1 : gmap Z X) = lget w →
  unmap p n (obj w1 (p + q) x) = unmap p n w1.
Proof.
  intros Hq Hu Hl. unfold obj. rewrite mem_unmap, Hl.
  rewrite (outside_insert w p n q) by (try apply mem_dom; done || lia).
  rewrite <-(usable_outside w p n (lget w)) by (done || apply mem_dom).
  rewrite <-Hl, <-mem_lget_unmap. apply lset_lget.
Qed.

(** A block that is usable next to an object is usable without it, and does not
    contain it. *)
Lemma usable_obj w q (x : X) p n :
  0 < n → usable (obj w q x) p n = true → usable w p n = true ∧ (q < p ∨ p + n ≤ q).
Proof.
  intros Hn Hu. pose proof (usable_cases _ _ _ Hu) as [_ Hfresh]. split.
  - unfold usable in *. apply andb_true_iff in Hu as [Hp _]. apply andb_true_iff. split; [done|].
    apply bool_decide_eq_true_2. intros a Ha. apply Hfresh. unfold obj.
    eapply mem_grow; [|by rewrite lset_lget]. set_solver.
  - apply Hfresh. eapply mem_dom. apply elem_of_dom. exists x. apply obj_lookup.
Qed.

(** An object elsewhere stays when a block is unmapped. *)
Lemma unmap_obj_out w q (x : X) p n :
  q < p ∨ p + n ≤ q → unmap p n (obj w q x) = obj (unmap p n w) q x.
Proof.
  intros Hq. unfold obj. rewrite mem_unmap, mem_lget_unmap. f_equal.
  unfold outside. by rewrite map_filter_insert_True.
Qed.

(** How a structure comes to be: the caller's, or a fresh block. *)
Definition created (w : world) (p n q : Z) (w1 : world) : Prop :=
  (p ≠ NULL ∧ q = p ∧ w1 ≡ₘ w) ∨
  (p = NULL ∧ q ≠ NULL ∧ usable w q n = true ∧ w1 ≡ₘ block_at q n w).

Lemma created_same w p n q w1 w2 : w2 ≡ₘ w1 → created w p n q w1 → created w p n q w2.
Proof.
  intros E [(? & ? & ?)|(? & ? & ? & ?)]; [left|right]; split_and!; try done; by etrans.
Qed.

(** The structure lives at [q]: it is initialised, and knows where it comes from. *)
Definition alive (inited alloced : X → bool) (n p : Z) (w : world) (q : Z) (w' : world) : Prop :=
  q ≠ NULL ∧ ∃ w1 x, created w p n q w1 ∧ w' = obj w1 q x ∧
                    inited x = true ∧ alloced x = (p =? NULL).

(** It is gone: memory is as it was, but for the contents of the caller's object. *)
Definition gone (p : Z) (w w' : world) : Prop :=
  (p ≠ NULL → ∃ x : X, w' ≡ₘ obj w p x) ∧ (p = NULL → w' ≡ₘ w).

Lemma alive_intro (inited alloced : X → bool) n p w q w1 x :
  q ≠ NULL → created w p n q w1 → inited x = true → alloced x = (p =? NULL) →
  alive inited alloced n p w q (obj w1 q x).
Proof. intros Hq Hc Hi Ha. split; [done|]. by exists w1, x. Qed.

Lemma gone_same p w w0 w' : w0 ≡ₘ w → gone p w0 w' → gone p w w'.
Proof.
  intros E [H1 H2]. split.
  - intros Hp. destruct (H1 Hp) as [x Hx]. exists x. etrans; [done|]. by apply obj_same.
  - intros Hp. etrans; [by apply H2|done].
Qed.

Lemma gone_trans p w w1 w2 : gone p w w1 → w2 ≡ₘ w1 → gone p w w2.
Proof.
  intros [H1 H2] E. split.
  - intros Hp. destruct (H1 Hp) as [x Hx]. exists x. by etrans.
  - intros Hp. etrans; [done|]. by apply H2.
Qed.

Lemma created_from w w0 p n q w1 : w0 ≡ₘ w → created w0 p n q w1 → created w p n q w1.
Proof.
  intros E [(Hp & Hq & Hw)|(Hp & Hq & Hu & Hw)]; [left|right]; split_and!; try done.
  - by etrans.
  - by rewrite <-(usable_same w0).
  - etrans; [done|]. unfold block_at. rewrite (same_live w0 w) by done. by apply set_live_same.
Qed.

Lemma alive_from inited alloced n p w w0 q w' :
  w0 ≡ₘ w → alive inited alloced n p w0 q w' → alive inited alloced n p w q w'.
Proof.
  intros E (Hq & w1 & x & Hc & Hx). split; [done|]. exists w1, x. split; [|done].
  by eapply created_from.
Qed.

Lemma wp_create `{OS} p n (zero : X) (alloced : X → X) w (Q : Z → world → Prop) :
  (p ≠ NULL → is_Some (lget w !! p)) →
  (∀ q w1, q ≠ NULL → created w p n q w1 →
     Q q (obj w1 q (if p =? NULL then alloced zero else zero))) →
  (∀ w1, gone p w w1 → Q NULL w1) →
  wp (if p =? NULL then
        q ← malloc n;
        if q =? NULL then mret NULL else
        new q zero;; set_flag alloced q;; mret q
      else st (λ _, zero) p;; mret p) w Q.
Proof.
  intros Hp Hok Hnull. destruct (Z.eqb_spec p NULL) as [->|Hne].
  - ostep. apply wp_malloc.
    + intros q e Hu Hq. rewrite (proj2 (Z.eqb_neq q NULL)) by done. repeat ostep.
      apply Hok; [done|]. right. split_and!; done.
    + intros e. ostep. apply Hnull. by split.
  - destruct (Hp Hne) as [x Hx]. rewrite (obj_id w p x) by done. repeat ostep.
    apply Hok; [done|]. left. by split_and!.
Qed.

(** The end of a structure's life: what was allocated is freed. *)
Lemma wp_release_trace `{OS} w p n q w1 x (alloced : bool) (r : Z) (Q : Z → world → Prop) :
  0 < n → created w p n q w1 → alloced = (p =? NULL) →
  (∀ w', gone p w w' →
     w_trace w' = w_trace w1 ++ (if p =? NULL then [Ev "free" [q] [] 0] else []) → Q r w') →
  wp ((if alloced then free q else mret tt);; mret r) (obj w1 q x) Q.
Proof.
  intros Hn Hc -> HQ. ostep. destruct Hc as [(Hp & -> & Hw1)|(-> & Hq & Hu & Hw1)].
  - rewrite (proj2 (Z.eqb_neq p NULL)) in * by done. repeat ostep. apply HQ.
    + split; [|done]. intros _. exists x. by apply obj_same.
    + by rewrite obj_trace, app_nil_r.
  - cbn in *. eapply wp_free; [done| |].
    { rewrite obj_live, (same_live _ _ Hw1). cbn. apply lookup_insert_eq. }
    repeat ostep. apply HQ; [|cbn [w_trace unmap]; by rewrite record_trace, obj_trace]. split; [done|]. intros _.
    etrans; [by apply unmap_same, record_quiet|].
    etrans; [by apply unmap_same, obj_same, Hw1|].
    pose proof (unmap_obj w (block_at q n w) q n 0 x) as E. rewrite Z.add_0_r in E.
    rewrite E; [by rewrite unmap_fresh|lia|done|apply store_lget_live].
Qed.

Lemma wp_release `{OS} w p n q w1 x (alloced : bool) (r : Z) (Q : Z → world → Prop) :
  0 < n → created w p n q w1 → alloced = (p =? NULL) →
  (∀ w', gone p w w' → Q r w') →
  wp ((if alloced then free q else mret tt);; mret r) (obj w1 q x) Q.
Proof. intros Hn Hc Ha HQ. eapply wp_release_trace; try done. intros w' Hg _. by apply HQ. Qed.
End same.

(** * Automation *)

(** Run the code on the current object up to the end of its life, splitting at
    each test. *)
Ltac orun :=
  repeat lazymatch goal with
    | |- wp ((if _ then free _ else _) ≫= _) _ _ => fail
    | |- wp (if ?b then _ else _) (obj _ _ _) _ =>
        first [ostep | let E := fresh "E" in destruct b eqn:E]
    | _ => ostep
    end.

Ltac quiet_created :=
  repeat (eapply created_same; [first [apply record_quiet | apply set_errno_quiet]|]); eassumption.

(** The end of a life, as [wp_release] has it. *)
Ltac orelease :=
  lazymatch goal with
  | Hc : created ?w ?p ?n ?q _ |- wp ((if _ then free ?q else _) ≫= _) _ _ =>
      apply (wp_release w p n q); [done|quiet_created| |]
  end.

(** The structure is set up. *)
Ltac oalive Hok :=
  apply Hok, alive_intro; [done|quiet_created|done|by destruct (_ =? NULL)].

(** Begin a life. *)
Ltac ocreate := apply wp_create; [done| |].
