(* ===== verification/LockProps.v ===== *)
(** Properties of a lock as one thread uses it: it is reentrant, it counts, and
    its initialisation and destruction balance. *)

From S2P Require Import Prelude World Life Atomic Lock.
#[local] Open Scope Z_scope.

(** * A thread's use of a lock *)

Inductive lop := Lock | TryLock | Unlock.

Section reentrant.
Context `{OS}.

Definition lexec (lock : Z) (o : lop) : M world Z :=
  match o with
  | Lock => qp_lock_lock 1 lock
  | TryLock => qp_lock_trylock lock
  | Unlock => qp_lock_unlock lock
  end.

Fixpoint lexec_all (lock : Z) (os : list lop) : M world (list Z) :=
  match os with
  | [] => mret []
  | o :: os => r ← lexec lock o; rs ← lexec_all lock os; mret (r :: rs)
  end.

(** A counter of how often the thread holds the lock. *)
Definition lspec (d : Z) (o : lop) : Z * Z :=
  match o with
  | Lock | TryLock => (QP_SUCCESS, d + 1)
  | Unlock => if d =? 0 then (QP_ERROR, d) else (QP_SUCCESS, d - 1)
  end.

Fixpoint lspec_all (d : Z) (os : list lop) : list Z * Z :=
  match os with
  | [] => ([], d)
  | o :: os =>
      let '(r, d) := lspec d o in let '(rs, d) := lspec_all d os in (r :: rs, d)
  end.

(** Whether the calls made so far leave the mutex at [lock] locked. *)
Definition mutex_step (lock : Z) (b : bool) (e : event) : bool :=
  if bool_decide (ev_args e = [lock]) && (ev_ret e =? 0) then
    if bool_decide (ev_call e = "pthread_mutex_lock" ∨ ev_call e = "pthread_mutex_trylock")
    then true
    else if bool_decide (ev_call e = "pthread_mutex_unlock" ∨ ev_call e = "pthread_mutex_init")
    then false else b
  else b.
Definition mutex_held (lock : Z) (t : list event) : bool := foldl (mutex_step lock) false t.

(** An error-checking mutex that no other thread uses: it can be locked when it
    is not, and unlocked when it is. *)
Record mutex_law (lock : Z) : Prop := {
  ml_lock t : mutex_held lock t = false →
    a_ret (os_answer t "pthread_mutex_lock" [lock] []) = 0;
  ml_trylock t : mutex_held lock t = false →
    a_ret (os_answer t "pthread_mutex_trylock" [lock] []) = 0;
  ml_unlock t : mutex_held lock t = true →
    a_ret (os_answer t "pthread_mutex_unlock" [lock] []) = 0;
}.

Lemma mutex_held_snoc lock t e :
  mutex_held lock (t ++ [e]) = mutex_step lock (mutex_held lock t) e.
Proof. unfold mutex_held. by rewrite foldl_app. Qed.

Definition held_ok (lock : Z) (w : world) (x : qp_ipc_lock_s) (d : Z) : Prop :=
  lk_hold_counter x = d ∧ 0 ≤ d ∧
  (0 < d → lk_hold_thread x = pthread_self ∧ lk_hold_process x = getpid) ∧
  if lk_is_spin x then lk_spin x = (if d =? 0 then 0 else 1)
  else mutex_law lock ∧ mutex_held lock (w_trace w) = (0 <? d).

Lemma held_by_me_spec lock w x d Q :
  lock ≠ NULL → held_ok lock w x d → Q (0 <? d) (obj w lock x) →
  wp (held_by_me lock) (obj w lock x) Q.
Proof.
  intros Hl (Hc & Hd & Hh & _) HQ. unfold held_by_me. repeat ostep. rewrite Hc.
  destruct (Z.eqb_spec d 0) as [->|Hd0]; cbn [negb]; repeat ostep; [done|].
  destruct (Hh ltac:(lia)) as [Ht Hp]. rewrite Ht, Z.eqb_refl. repeat ostep.
  rewrite Hp, Z.eqb_refl. by rewrite (proj2 (Z.ltb_lt 0 d)) in HQ by lia.
Qed.

(** The state after an operation: the lock object changed and the depth is [d]. *)
Definition held_at (lock : Z) (d : Z) (b : bool) (w : world) : Prop :=
  ∃ w0 x, w = obj w0 lock x ∧ held_ok lock w0 x d ∧ lk_is_spin x = b.

Lemma take_over_spec lock w x Q :
  lock ≠ NULL → lk_hold_counter x = 0 →
  (if lk_is_spin x then lk_spin x = 1 else mutex_law lock ∧ mutex_held lock (w_trace w) = true) →
  (∀ w', held_at lock 1 (lk_is_spin x) w' → Q tt w') →
  wp (take_over lock) (obj w lock x) Q.
Proof.
  intros Hl Hc Hw HQ. destruct x as [sp ht hp c i a sh b]. cbn in *. subst c.
  unfold take_over, qp_atom_fetch_add, hold_counter. repeat ostep. cbn. apply HQ.
  eexists _, _. split; [reflexivity|]. by destruct b.
Qed.

Lemma again_spec lock w x d Q :
  lock ≠ NULL → held_ok lock w x d → 0 < d → d + 1 < 2 ^ 64 →
  (∀ w', held_at lock (d + 1) (lk_is_spin x) w' → Q QP_SUCCESS w') →
  wp (qp_atom_fetch_add hold_counter lock 1;; mret QP_SUCCESS) (obj w lock x) Q.
Proof.
  intros Hl (Hc & Hd & Hh & Hw) Hpos Hmax HQ. destruct x as [sp ht hp c i a sh b]. cbn in *.
  subst c. unfold qp_atom_fetch_add, hold_counter. repeat ostep. cbn. apply HQ.
  eexists _, _. split; [reflexivity|]. split; [|done]. rewrite wrap_small by lia.
  split_and!; cbn; [done|lia|auto|]. destruct b.
  - rewrite Hw. by rewrite !(proj2 (Z.eqb_neq _ _)) by lia.
  - destruct Hw as [? ->]. split; [done|]. by rewrite !(proj2 (Z.ltb_lt _ _)) by lia.
Qed.

Lemma spin_take_spec lock w x Q :
  lock ≠ NULL → lk_is_spin x = true → lk_hold_counter x = 0 → lk_spin x = 0 →
  (∀ w', held_at lock 1 true w' → Q QP_SUCCESS w') →
  wp (loop 1 (qp_lock_spin_body lock) tt) (obj w lock x) Q.
Proof.
  intros Hl Hb Hc Hs HQ. cbn [loop]. unfold qp_lock_spin_body at 1, qp_atom_cmp_set, lock_spin.
  repeat ostep. cbn [at_get at_set]. rewrite Hs. repeat ostep.
  eapply take_over_spec; [done|by destruct x|destruct x; cbn in *; by subst|].
  intros w' Hw'. repeat ostep. apply HQ. by destruct x; cbn in *; subst.
Qed.

Lemma mutex_take_spec lock w x name Q :
  lock ≠ NULL → lk_is_spin x = false → lk_hold_counter x = 0 →
  mutex_law lock → mutex_held lock (w_trace w) = false →
  name = "pthread_mutex_lock" ∨ name = "pthread_mutex_trylock" →
  (∀ w', held_at lock 1 false w' → Q QP_SUCCESS w') →
  wp (r ← call name [lock];
      if r =? QP_SUCCESS then take_over lock;; mret QP_SUCCESS else mret QP_ERROR)
    (obj w lock x) Q.
Proof.
  intros Hl Hb Hc Hlaw Hheld Hname HQ. repeat ostep.
  assert (a_ret a = 0) as Ha.
  { subst a. destruct Hname as [-> | ->]; [by apply ml_lock|by apply ml_trylock]. }
  rewrite Ha. cbn [Z.eqb QP_SUCCESS]. repeat ostep. eapply take_over_spec; [done..| |].
  - rewrite Hb. split; [done|]. rewrite record_trace, mutex_held_snoc.
    unfold mutex_step. cbn [ev_args ev_ret ev_call]. rewrite bool_decide_eq_true_2 by done.
    rewrite Ha. cbn. by rewrite bool_decide_eq_true_2.
  - intros w'. rewrite Hb. intros Hw'. repeat ostep. by apply HQ.
Qed.

Lemma is_spin_spec lock w x Q :
  lock ≠ NULL → Q (lk_is_spin x) (obj w lock x) → wp (qp_lock_is_spin lock) (obj w lock x) Q.
Proof.
  intros Hl HQ. unfold qp_lock_is_spin, is_flag. rewrite (proj2 (Z.eqb_neq _ _) Hl). by ostep.
Qed.

Lemma lock_spec lock d b w Q :
  lock ≠ NULL → d + 1 < 2 ^ 64 → held_at lock d b w →
  (∀ w', held_at lock (d + 1) b w' → Q QP_SUCCESS w') → wp (qp_lock_lock 1 lock) w Q.
Proof.
  intros Hl Hmax (w0 & x & -> & Hok & <-) HQ. unfold qp_lock_lock.
  rewrite (proj2 (Z.eqb_neq _ _) Hl). ostep. eapply held_by_me_spec; [done..|].
  pose proof Hok as (Hc & Hd & Hh & Hw). destruct (Z.ltb_spec 0 d) as [Hpos|Hz].
  { by eapply again_spec. }
  assert (d = 0) as -> by lia. ostep. apply is_spin_spec; [done|].
  destruct (lk_is_spin x) eqn:Hb; [by apply spin_take_spec|].
  destruct Hw as [Hlaw Hheld]. eapply mutex_take_spec; eauto.
Qed.

Lemma trylock_spec lock d b w Q :
  lock ≠ NULL → d + 1 < 2 ^ 64 → held_at lock d b w →
  (∀ w', held_at lock (d + 1) b w' → Q QP_SUCCESS w') → wp (qp_lock_trylock lock) w Q.
Proof.
  intros Hl Hmax (w0 & x & -> & Hok & <-) HQ. unfold qp_lock_trylock.
  rewrite (proj2 (Z.eqb_neq _ _) Hl). ostep. eapply held_by_me_spec; [done..|].
  pose proof Hok as (Hc & Hd & Hh & Hw). destruct (Z.ltb_spec 0 d) as [Hpos|Hz].
  { by eapply again_spec. }
  assert (d = 0) as -> by lia. ostep. apply is_spin_spec; [done|].
  destruct (lk_is_spin x) eqn:Hb.
  - unfold qp_atom_cmp_set, lock_spin. repeat ostep. cbn [at_get at_set].
    cbn in Hw. rewrite Hw. cbn [Z.eqb]. repeat ostep.
    eapply take_over_spec; [done|by destruct x|destruct x; cbn in *; by subst|].
    intros w' Hw'. repeat ostep. apply HQ. by destruct x; cbn in *; subst.
  - destruct Hw as [Hlaw Hheld]. eapply mutex_take_spec; eauto.
Qed.

Lemma unlock_spec lock d b w Q :
  lock ≠ NULL → d < 2 ^ 64 → held_at lock d b w →
  (∀ w', held_at lock (if d =? 0 then d else d - 1) b w' →
     Q (if d =? 0 then QP_ERROR else QP_SUCCESS) w') →
  wp (qp_lock_unlock lock) w Q.
Proof.
  intros Hl Hmax (w0 & x & -> & Hok & <-) HQ. pose proof Hok as (Hc & Hd & Hh & Hw).
  unfold qp_lock_unlock. rewrite (proj2 (Z.eqb_neq _ _) Hl). repeat ostep. rewrite Hc.
  destruct (Z.ltb_spec d 1) as [Hz|Hpos].
  { assert (d = 0) as -> by lia. ostep. apply HQ. by eexists _, _. }
  rewrite (proj2 (Z.eqb_neq d 0)) in HQ by lia. destruct (Hh ltac:(lia)) as [Ht Hp].
  repeat ostep. rewrite Ht, Z.eqb_refl. repeat ostep. rewrite Hp, Z.eqb_refl. cbn [negb].
  unfold qp_atom_fetch_sub, hold_counter. repeat ostep.
  destruct x as [sp ht hp c i a sh b]. cbn in Hc, Hd, Hh, Hw, Ht, Hp, HQ |- *. subst c ht hp.
  rewrite wrap_small by lia. destruct (Z.eqb_spec (d - 1) 0) as [Hd1|Hd1]; cbn [negb].
  - assert (d = 1) as -> by lia. repeat ostep. apply is_spin_spec; [done|].
    destruct b.
    + cbn in Hw. subst sp. unfold qp_atom_cmp_set, lock_spin. repeat ostep. apply HQ.
      eexists _, _. split; [reflexivity|]. cbn. split_and!; by try lia.
    + destruct Hw as [Hlaw Hheld]. repeat ostep.
      assert (a_ret a0 = 0) as Ha by (subst; by apply ml_unlock). rewrite Ha. apply HQ.
      eexists _, _. split; [reflexivity|]. unfold held_ok. cbn.
      rewrite record_trace, mutex_held_snoc. unfold mutex_step. cbn [ev_args ev_ret ev_call].
      rewrite bool_decide_eq_true_2, Ha by done. cbn. split_and!; by try lia.
  - repeat ostep. apply HQ. eexists _, _. split; [reflexivity|].
    split; [|done]. split_and!; cbn; [done|lia|by auto|].
    rewrite (proj2 (Z.eqb_neq (d - 1) 0)), (proj2 (Z.ltb_lt 0 (d - 1))) by lia.
    rewrite (proj2 (Z.eqb_neq d 0)) in Hw by lia. by rewrite (proj2 (Z.ltb_lt 0 d)) in Hw by lia.
Qed.

Lemma lexec_all_spec lock os d b w :
  lock ≠ NULL → d + Z.of_nat (length os) < 2 ^ 64 → held_at lock d b w →
  wp (lexec_all lock os) w (λ rs w', rs = (lspec_all d os).1 ∧
    held_at lock (lspec_all d os).2 b w').
Proof.
  intros Hl. revert d w. induction os as [|o os IH]; intros d w Hmax Hat; [done|].
  cbn [lexec_all lspec_all length] in *.
  assert (∀ d' w', d' ≤ d + 1 → held_at lock d' b w' →
    wp (lexec_all lock os) w' (λ rs w'', rs = (lspec_all d' os).1 ∧
      held_at lock (lspec_all d' os).2 b w'')) as IH' by (intros; apply IH; [lia|done]).
  assert (wp (lexec lock o) w (λ r w', r = (lspec d o).1 ∧ held_at lock (lspec d o).2 b w')) as Ho.
  { destruct o; cbn [lexec lspec].
    - eapply lock_spec; [done| |done|by intros w' Hw']. lia.
    - eapply trylock_spec; [done| |done|by intros w' Hw']. lia.
    - eapply unlock_spec; [done| |done|]; [lia|]. intros w' Hw'. by destruct (d =? 0). }
  apply wp_bind. eapply wp_mono; [done|]. intros r w' [-> Hw'].
  assert ((lspec d o).2 ≤ d + 1) as Hle by (destruct o; cbn; [lia..|]; destruct (d =? 0); cbn; lia).
  destruct (lspec d o) as [r' d'] eqn:E. cbn [fst snd] in *. apply wp_bind.
  eapply wp_mono; [by apply IH'|]. intros rs w'' [-> Hw'']. apply wp_ret.
  by destruct (lspec_all d' os).
Qed.

Lemma lock_setup_spec lock shared spin w (x : qp_ipc_lock_s) Q :
  lock ≠ NULL → (spin = false → mutex_law lock) →
  (∀ w', held_at lock 0 spin w' → Q lock w') → (∀ w', Q NULL w') →
  wp (qp_lock_init lock shared spin) (obj w lock x) Q.
Proof.
  intros Hl Hlaw HQ Hnull. unfold qp_lock_init, qp_lock_create, lock_fail, qp_lock_is_alloced,
    qp_lock_set_shared, qp_lock_set_spin, qp_lock_set_inited.
  rewrite !(proj2 (Z.eqb_neq lock NULL)) by done. repeat ostep.
  rewrite !(proj2 (Z.eqb_neq lock NULL)) by done.
  assert (∀ w0 (y : qp_ipc_lock_s), lk_is_alloced y = false →
    wp (alloced ← is_flag lk_is_alloced lock;
        (if (alloced : bool) then free lock else mret tt);; mret NULL) (obj w0 lock y) Q) as Hfail.
  { intros w0 y Hy. repeat ostep. rewrite Hy. repeat ostep. apply Hnull. }
  destruct spin.
  - destruct shared; repeat ostep; apply HQ; eexists _, _; by split_and!.
  - assert (∀ a a' w0 (y : qp_ipc_lock_s), a_ret a = 0 → lk_is_spin y = false →
      lk_hold_counter y = 0 →
      Q lock (obj (record "pthread_mutexattr_destroy" [] [] a'
                     (record "pthread_mutex_init" [lock] [] a w0)) lock y)) as Hinit.
    { intros a a' w0 y Ha Hy Hc. apply HQ. eexists _, _. split; [reflexivity|]. split; [|done].
      split_and!; [done|lia|lia|]. rewrite Hy. split; [by apply Hlaw|].
      rewrite !record_trace, !mutex_held_snoc. unfold mutex_step. cbn [ev_args ev_ret ev_call].
      rewrite (bool_decide_eq_false_2 ([] = [lock])) by done.
      rewrite (bool_decide_eq_true_2 ([lock] = [lock])), Ha by done. reflexivity. }
    repeat lazymatch goal with
      | |- wp (alloced ← is_flag lk_is_alloced lock; _) _ _ => apply Hfail; done
      | |- wp (if ?b then _ else _) (obj _ _ _) _ =>
          first [ostep | let E := fresh "E" in destruct b eqn:E]
      | |- Q lock _ => apply Hinit; [|done..]
      | |- wp _ _ _ => ostep
      end.
    all: by lazymatch goal with E : negb (a_ret ?a =? _) = false |- a_ret ?a = 0 =>
      apply negb_false_iff, Z.eqb_eq in E end.
Qed.
End reentrant.

(** * Properties *)

(** C12. A lock is reentrant for its holder: after [qp_lock_init], on a spin word or on
    an error-checking mutex that behaves as documented, any sequence of [lock],
    [trylock] and [unlock] by one thread returns, without a fault and without
    waiting, what a counter returns: locking always succeeds, unlocking succeeds
    as often as the lock was taken and is refused after that; and
    [qp_lock_counter] is how often it is held. *)
Theorem lock_reentrant `{OS} lock shared spin os w x :
  lock ≠ NULL → w_locks w !! lock = Some x → (spin = false → mutex_law lock) →
  Z.of_nat (length os) < 2 ^ 32 →
  ∃ r w', (p ← qp_lock_init lock shared spin;
           if p =? NULL then mret None else
           rs ← lexec_all lock os; c ← qp_lock_counter lock; mret (Some (rs, c))) w = Ok (r, w') ∧
    (r = None ∨ r = Some (lspec_all 0 os)).
Proof.
  intros Hl Hx Hlaw Hlen. apply wp_elim. rewrite (obj_id w lock x) by done. ostep.
  apply lock_setup_spec; [done..| |].
  2: { intros w'. repeat ostep. by left. }
  intros w' Hw'. rewrite (proj2 (Z.eqb_neq lock NULL)) by done. ostep.
  eapply wp_mono; [apply (lexec_all_spec lock os 0 spin); [done|lia|done]|].
  intros rs w'' [-> (w0 & y & -> & (Hc & Hd & _) & _)].
  unfold qp_lock_counter. rewrite (proj2 (Z.eqb_neq lock NULL)) by done. repeat ostep. right.
  rewrite Hc, wrap_small; [by destruct (lspec_all 0 os)|].
  split; [done|]. assert (∀ d, 0 ≤ d → (lspec_all d os).2 ≤ d + Z.of_nat (length os)) as Hmax.
  { clear. induction os as [|o os IH]; intros d Hd; cbn [lspec_all length]; [cbn; lia|].
    destruct (lspec d o) as [r d'] eqn:E. assert (0 ≤ d' ≤ d + 1) as [Hd' ?].
    { destruct o; cbn in E; try (injection E as _ <-; lia).
      destruct (Z.eqb_spec d 0); injection E as _ <-; lia. }
    specialize (IH d' Hd'). destruct (lspec_all d' os). cbn in *. lia. }
  specialize (Hmax 0). lia.
Qed.

(** A system in which one thread uses the mutex at [lock], the only one there is. *)
Definition mutex_system (lock : Z) : OS := {|
  os_answer t name args data :=
    Ans (if bool_decide (name = "pthread_mutex_lock" ∨ name = "pthread_mutex_trylock")
         then if mutex_held lock t then 35 else 0
         else if bool_decide (name = "pthread_mutex_unlock")
         then if mutex_held lock t then 0 else 1
         else 0) 0 [];
  pthread_self := 7;
  getpid := 100;
|}.

Lemma mutex_system_law lock : @mutex_law (mutex_system lock) lock.
Proof. split; intros t Ht; cbn; by rewrite Ht. Qed.

Definition lock_world : world := obj empty_world 64 zero_lock.

Lemma lock_reentrant_witness : ∃ r w',
  (p ← @qp_lock_init (mutex_system 64) 64 true false;
   if p =? NULL then mret None else
   rs ← @lexec_all (mutex_system 64) 64 [Lock; TryLock; Unlock; Lock; Unlock; Unlock; Unlock; Lock];
   c ← qp_lock_counter 64; mret (Some (rs, c))) lock_world = Ok (r, w') ∧
  (r = None ∨ r = Some (lspec_all 0 [Lock; TryLock; Unlock; Lock; Unlock; Unlock; Unlock; Lock])).
Proof.
  apply (@lock_reentrant (mutex_system 64) 64 true false _ lock_world zero_lock);
    [done|done|intros _; apply mutex_system_law|done].
Defined.

(** A spin lock that another thread holds can be destroyed: the destructor looks
    for the error number EBUSY, which [qp_lock_trylock] puts in [errno] and never
    returns. The word stays set, the lock is marked dead, and the caller is told it
    went well. *)
Theorem lock_destroys_held `{OS} lock w x :
  lock ≠ NULL → w_locks w !! lock = Some x →
  lk_is_inited x = true → lk_is_alloced x = false → lk_is_spin x = true →
  lk_spin x = 1 → 0 < lk_hold_counter x → lk_hold_thread x ≠ pthread_self →
  ∃ w' y, qp_lock_destroy lock w = Ok (QP_SUCCESS, w') ∧ w_locks w' !! lock = Some y ∧
    lk_is_inited y = false ∧ lk_spin y = 1 ∧ lk_hold_counter y = lk_hold_counter x ∧
    w_errno w' = EBUSY.
Proof.
  intros Hl Hx. destruct x as [sp ht hp c i a sh b]. cbn. intros -> -> -> -> Hc Hht.
  rewrite (obj_id w lock (MkLock 1 ht hp c true false sh true)) by exact Hx.
  assert (wp (qp_lock_destroy lock) (obj w lock (MkLock 1 ht hp c true false sh true))
    (λ r w', r = QP_SUCCESS ∧
       w' = obj (set_errno EBUSY w) lock (MkLock 1 ht hp c false false false false))) as Hwp.
  { unfold qp_lock_destroy, qp_lock_trylock, qp_lock_unlock, held_by_me, qp_lock_is_inited,
      qp_lock_is_spin, qp_lock_is_alloced, qp_lock_unset_spin, qp_lock_unset_shared,
      qp_lock_unset_inited, qp_atom_cmp_set.
    rewrite !(proj2 (Z.eqb_neq lock NULL)) by done. repeat ostep. cbn [lk_hold_counter].
    rewrite (proj2 (Z.eqb_neq c 0)) by lia. repeat ostep. cbn [lk_hold_thread].
    rewrite !(proj2 (Z.eqb_neq ht pthread_self)) by done. repeat ostep. cbn [lk_hold_counter].
    rewrite (proj2 (Z.ltb_ge c 1)) by lia. repeat ostep. cbn [lk_hold_thread].
    rewrite !(proj2 (Z.eqb_neq ht pthread_self)) by done. by repeat ostep. }
  apply wp_elim in Hwp as (r & w' & E & -> & ->). eexists _, _. split; [done|].
  split; [exact (obj_lookup (X := qp_ipc_lock_s) _ _ _)|done].
Qed.

Lemma lock_destroys_held_witness : ∃ w' y,
  @qp_lock_destroy (mutex_system 64) 64 (obj empty_world 64 (MkLock 1 8 100 1 true false false true))
    = Ok (QP_SUCCESS, w') ∧ w_locks w' !! 64 = Some y ∧
  lk_is_inited y = false ∧ lk_spin y = 1 ∧ lk_hold_counter y = 1 ∧ w_errno w' = EBUSY.
Proof.
  by apply (@lock_destroys_held (mutex_system 64) 64
    (obj empty_world 64 (MkLock 1 8 100 1 true false false true))
    (MkLock 1 8 100 1 true false false true)).
Defined.
