(* ===== verification/LockSteps.v ===== *)
(** The spin lock of [src/src/core/qp_ipc_core.c] under all interleavings of its
    threads: one step per access to the shared lock. *)

From S2P Require Import Prelude World Life Atomic Lock.
From stdpp Require Import relations functions.
#[local] Open Scope Z_scope.

(** * Steps *)

(** Where a thread is in [qp_lock_lock] or [qp_lock_unlock]: the access it does
    next. *)
Inductive pc :=
| Idle
| L_counter      (** [0 != lock->hold_counter] *)
| L_thread       (** [lock->hold_thread == pthread_self()] *)
| L_process      (** [lock->hold_process == getpid()] *)
| L_again        (** [qp_atom_fetch_add(&lock->hold_counter, 1)], held already *)
| L_cas          (** [qp_atom_cmp_set(&lock->lock.spin, 0, 1)] *)
| L_set_thread | L_set_process | L_count
| U_counter      (** [1 > lock->hold_counter] *)
| U_thread | U_process
| U_sub          (** [qp_atom_fetch_sub(&lock->hold_counter, 1)] *)
| U_check        (** [0 != lock->hold_counter] *)
| U_set_thread | U_set_process
| U_cas.         (** [qp_atom_cmp_set(&lock->lock.spin, 1, 0)] *)

(** The lock, where each thread is, and how often it took the lock without giving
    it back. *)
Record lstate := MkL {
  ls_lock : qp_ipc_lock_s;
  ls_pc : nat → pc;
  ls_depth : nat → Z;
}.

(** What a thread does next: call one of the two, or go on. *)
Inductive act := CallLock | CallUnlock | Go.

Section steps.
Variables (self pid : nat → Z).

Definition goto (n : nat) (p : pc) (s : lstate) : lstate :=
  MkL (ls_lock s) (<[n := p]> (ls_pc s)) (ls_depth s).
Definition write (upd : qp_ipc_lock_s → qp_ipc_lock_s) (s : lstate) : lstate :=
  MkL (upd (ls_lock s)) (ls_pc s) (ls_depth s).
Definition deeper (n : nat) (k : Z) (s : lstate) : lstate :=
  MkL (ls_lock s) (ls_pc s) (<[n := ls_depth s n + k]> (ls_depth s)).

Definition lstep (n : nat) (a : act) (s : lstate) : option lstate :=
  let x := ls_lock s in
  match ls_pc s n, a with
  | Idle, CallLock => Some (goto n L_counter s)
  | Idle, CallUnlock => Some (goto n U_counter s)
  | L_counter, Go =>
      Some (goto n (if negb (lk_hold_counter x =? 0) then L_thread else L_cas) s)
  | L_thread, Go =>
      Some (goto n (if lk_hold_thread x =? self n then L_process else L_cas) s)
  | L_process, Go =>
      Some (goto n (if lk_hold_process x =? pid n then L_again else L_cas) s)
  | L_again, Go =>
      Some (goto n Idle (deeper n 1
        (write (set_lk_hold_counter (u64 (lk_hold_counter x + 1))) s)))
  | L_cas, Go =>
      Some (if lk_spin x =? 0 then goto n L_set_thread (write (set_lk_spin 1) s) else s)
  | L_set_thread, Go => Some (goto n L_set_process (write (set_lk_hold_thread (self n)) s))
  | L_set_process, Go => Some (goto n L_count (write (set_lk_hold_process (pid n)) s))
  | L_count, Go =>
      Some (goto n Idle (deeper n 1
        (write (set_lk_hold_counter (u64 (lk_hold_counter x + 1))) s)))
  | U_counter, Go => Some (goto n (if lk_hold_counter x <? 1 then Idle else U_thread) s)
  | U_thread, Go => Some (goto n (if lk_hold_thread x =? self n then U_process else Idle) s)
  | U_process, Go => Some (goto n (if lk_hold_process x =? pid n then U_sub else Idle) s)
  | U_sub, Go =>
      Some (goto n U_check (write (set_lk_hold_counter (u64 (lk_hold_counter x - 1))) s))
  | U_check, Go =>
      Some (if negb (lk_hold_counter x =? 0) then goto n Idle (deeper n (-1) s)
            else goto n U_set_thread s)
  | U_set_thread, Go => Some (goto n U_set_process (write (set_lk_hold_thread 0) s))
  | U_set_process, Go => Some (goto n U_cas (write (set_lk_hold_process 0) s))
  | U_cas, Go =>
      Some (goto n Idle (if lk_spin x =? 1 then deeper n (-1) (write (set_lk_spin 0) s) else s))
  | _, _ => None
  end.

(** Any thread takes the next step. *)
Inductive istep : relation lstate :=
| IStep n a s s' : lstep n a s = Some s' → istep s s'.

Definition linit (x : qp_ipc_lock_s) : lstate := MkL x (λ _, Idle) (λ _, 0).

(** A schedule: which thread does what, in turn. *)
Fixpoint schedule (l : list (nat * act)) (s : lstate) : option lstate :=
  match l with
  | [] => Some s
  | (n, a) :: l => lstep n a s ≫= schedule l
  end.

Lemma schedule_steps l s s' : schedule l s = Some s' → nsteps istep (length l) s s'.
Proof.
  revert s. induction l as [|[n a] l IH]; intros s; cbn; [intros [= ->]; constructor|].
  destruct (lstep n a s) as [s1|] eqn:E; [|done]. cbn. intros Hs.
  econstructor; [by econstructor|by apply IH].
Qed.

(** * The invariant *)

(** Where a thread that does not hold the lock can be. *)
Definition out_pc (p : pc) : Prop :=
  match p with Idle | L_counter | L_thread | L_cas | U_counter | U_thread => True | _ => False end.

(** What the holder [m] knows, by where it is. *)
Definition holder_ok (x : qp_ipc_lock_s) (m : nat) (p : pc) (d : Z) : Prop :=
  let mine := lk_hold_thread x = self m ∧ lk_hold_process x = pid m in
  match p with
  | L_set_thread => d = 0 ∧ lk_hold_counter x = 0
  | L_set_process => d = 0 ∧ lk_hold_counter x = 0 ∧ lk_hold_thread x = self m
  | L_count => d = 0 ∧ lk_hold_counter x = 0 ∧ mine
  | L_cas => False
  | U_check => 1 ≤ d ∧ lk_hold_counter x = d - 1 ∧ mine
  | U_set_thread => d = 1 ∧ lk_hold_counter x = 0 ∧ mine
  | U_set_process | U_cas => d = 1 ∧ lk_hold_counter x = 0 ∧ lk_hold_thread x = 0
  | _ => 1 ≤ d ∧ lk_hold_counter x = d ∧ mine
  end.

Definition linv (k : nat) (s : lstate) : Prop :=
  (∀ n, ls_depth s n ≤ Z.of_nat k) ∧
  ((lk_spin (ls_lock s) = 0 ∧ lk_hold_thread (ls_lock s) = 0 ∧ lk_hold_counter (ls_lock s) = 0 ∧
    ∀ n, ls_depth s n = 0 ∧ out_pc (ls_pc s n)) ∨
   ∃ m, lk_spin (ls_lock s) = 1 ∧
     (lk_hold_thread (ls_lock s) = self m ∨ lk_hold_thread (ls_lock s) = 0) ∧
     holder_ok (ls_lock s) m (ls_pc s m) (ls_depth s m) ∧
     ∀ n, n ≠ m → ls_depth s n = 0 ∧ out_pc (ls_pc s n)).

Hypothesis self_inj : ∀ n m, self n = self m → n = m.
Hypothesis self_pos : ∀ n, self n ≠ 0.

(** A step of [n] moves [n] only. *)
Lemma lstep_other n a s s' i :
  lstep n a s = Some s' → i ≠ n → ls_pc s' i = ls_pc s i ∧ ls_depth s' i = ls_depth s i.
Proof.
  intros Hs Hi. unfold lstep in Hs.
  repeat case_match; simplify_eq; cbn; rewrite ?fn_lookup_insert_ne by done; done.
Qed.

Lemma lstep_depth n a s s' : lstep n a s = Some s' → ls_depth s' n ≤ ls_depth s n + 1.
Proof.
  intros Hs. unfold lstep in Hs.
  repeat case_match; simplify_eq; cbn; rewrite ?fn_lookup_insert; lia.
Qed.

Ltac step_cases Hs :=
  unfold lstep in Hs; cbn [ls_lock ls_pc ls_depth] in Hs;
  repeat lazymatch type of Hs with
    | context [match ?p with Idle => _ | _ => _ end] => destruct p eqn:?; try done
    | context [match ?a with CallLock => _ | _ => _ end] => destruct a eqn:?; try done
    end;
  injection Hs as <-; cbn in *; rewrite ?fn_lookup_insert in *.

(** With nobody holding the lock, a step keeps it so or takes the lock. *)
Lemma lstep_free n a s s' :
  lk_spin (ls_lock s) = 0 → lk_hold_thread (ls_lock s) = 0 → lk_hold_counter (ls_lock s) = 0 →
  ls_depth s n = 0 → out_pc (ls_pc s n) → lstep n a s = Some s' →
  ls_depth s' n = 0 ∧
  ((ls_lock s' = ls_lock s ∧ out_pc (ls_pc s' n)) ∨
   (ls_lock s' = set_lk_spin 1 (ls_lock s) ∧ ls_pc s' n = L_set_thread)).
Proof using self_pos.
  destruct s as [x p d]. cbn. intros Hsp Hht Hc Hd Hp Hs.
  assert ((0 =? self n) = false) as Hne by (apply Z.eqb_neq, not_eq_sym, self_pos).
  step_cases Hs; rewrite ?Hc, ?Hht, ?Hsp, ?Hne; cbn; rewrite ?fn_lookup_insert; try by auto.
  all: rewrite Hne; by auto.
Qed.

(** A thread that does not hold the lock cannot change it while another does. *)
Lemma lstep_outsider n m a s s' :
  n ≠ m → lk_spin (ls_lock s) = 1 →
  (lk_hold_thread (ls_lock s) = self m ∨ lk_hold_thread (ls_lock s) = 0) →
  ls_depth s n = 0 → out_pc (ls_pc s n) → lstep n a s = Some s' →
  ls_depth s' n = 0 ∧ ls_lock s' = ls_lock s ∧ out_pc (ls_pc s' n).
Proof using self_inj self_pos.
  destruct s as [x p d]. cbn. intros Hne Hsp Hht Hd Hp Hs.
  assert (lk_hold_thread x ≠ self n) as Hno.
  { destruct Hht as [-> | ->]; [by intros ?%self_inj|apply not_eq_sym, self_pos]. }
  step_cases Hs; rewrite ?Hsp, ?(proj2 (Z.eqb_neq _ _) Hno); cbn; rewrite ?fn_lookup_insert;
    try by auto.
  - by destruct (negb _).
  - by rewrite Heqp0.
  - by destruct (_ <? 1).
Qed.

(** The holder goes on holding it, or gives it back. *)
Lemma lstep_holder m a s s' :
  ls_depth s m + 1 < 2 ^ 64 → lk_spin (ls_lock s) = 1 →
  (lk_hold_thread (ls_lock s) = self m ∨ lk_hold_thread (ls_lock s) = 0) →
  holder_ok (ls_lock s) m (ls_pc s m) (ls_depth s m) → lstep m a s = Some s' →
  (lk_spin (ls_lock s') = 1 ∧
   (lk_hold_thread (ls_lock s') = self m ∨ lk_hold_thread (ls_lock s') = 0) ∧
   holder_ok (ls_lock s') m (ls_pc s' m) (ls_depth s' m)) ∨
  (lk_spin (ls_lock s') = 0 ∧ lk_hold_thread (ls_lock s') = 0 ∧
   lk_hold_counter (ls_lock s') = 0 ∧ ls_depth s' m = 0 ∧ ls_pc s' m = Idle).
Proof.
  destruct s as [x p d]. cbn. intros Hmax Hsp Hht Hok Hs.
  step_cases Hs; destruct_and?; rewrite ?Hsp; cbn; rewrite ?fn_lookup_insert; cbn.
  all: rewrite ?wrap_small by lia.
  all: repeat case_match; cbn; rewrite ?fn_lookup_insert; cbn;
    try (exfalso; lia); try (left; split_and!; by auto with lia);
    try (right; split_and!; by auto with lia).
Qed.

Lemma lstep_inv k n a s s' :
  Z.of_nat k + 1 < 2 ^ 64 → linv k s → lstep n a s = Some s' → linv (S k) s'.
Proof using self_inj self_pos.
  intros Hk [Hd Hinv] Hs. split.
  { intros i. destruct (decide (i = n)) as [->|Hi].
    - pose proof (lstep_depth _ _ _ _ Hs). specialize (Hd n). lia.
    - destruct (lstep_other _ _ _ _ i Hs Hi) as [_ ->]. specialize (Hd i). lia. }
  destruct Hinv as [(Hsp & Hht & Hc & Hall)|(m & Hsp & Hht & Hok & Hall)].
  - destruct (Hall n) as [Hdn Hpn].
    destruct (lstep_free _ _ _ _ Hsp Hht Hc Hdn Hpn Hs) as [Hd' [[Hx Hp]|[Hx Hp]]].
    + left. rewrite Hx. split_and!; [done..|]. intros i. destruct (decide (i = n)) as [->|Hi]; [done|].
      destruct (lstep_other _ _ _ _ i Hs Hi) as [-> ->]. apply Hall.
    + right. exists n. rewrite Hx, Hp, Hd'. split; [done|]. split; [by right|]. split; [by split|].
      intros i Hi. destruct (lstep_other _ _ _ _ i Hs Hi) as [-> ->]. apply Hall.
  - destruct (decide (n = m)) as [->|Hne].
    + assert (ls_depth s m + 1 < 2 ^ 64) as Hmax by (specialize (Hd m); lia).
      assert (∀ i, i ≠ m → ls_depth s' i = 0 ∧ out_pc (ls_pc s' i)) as Hall'.
      { intros i Hi. destruct (lstep_other _ _ _ _ i Hs Hi) as [-> ->]. by apply Hall. }
      destruct (lstep_holder _ _ _ _ Hmax Hsp Hht Hok Hs)
        as [(? & ? & ?)|(? & ? & ? & Hdm & Hpm)].
      * right. exists m. by split_and!.
      * left. split_and!; [done..|]. intros i. destruct (decide (i = m)) as [->|Hi]; [|by apply Hall'].
        by rewrite Hdm, Hpm.
    + destruct (Hall n Hne) as [Hdn Hpn].
      destruct (lstep_outsider _ _ _ _ _ Hne Hsp Hht Hdn Hpn Hs) as (Hdn' & Hx & Hpn').
      destruct (lstep_other _ _ _ _ m Hs) as [Hpm Hdm]; [done|].
      right. exists m. rewrite Hx, Hpm, Hdm. split_and!; [done..|]. intros i Hi.
      destruct (decide (i = n)) as [->|Hin]; [done|].
      destruct (lstep_other _ _ _ _ i Hs Hin) as [-> ->]. by apply Hall.
Qed.

Lemma nsteps_inv k j s s' :
  Z.of_nat (j + k) < 2 ^ 64 → linv j s → nsteps istep k s s' → linv (j + k) s'.
Proof using self_inj self_pos.
  intros Hk Hinv Hs. revert j Hk Hinv. induction Hs as [s|k s s1 s2 [n a ? ? Hs1] _ IH];
    intros j Hk Hinv; [by rewrite Nat.add_0_r|].
  replace (j + S k)%nat with (S j + k)%nat by lia. apply IH; [lia|].
  eapply lstep_inv; [lia|done|done].
Qed.

Lemma linit_inv x :
  lk_spin x = 0 → lk_hold_thread x = 0 → lk_hold_counter x = 0 → linv 0 (linit x).
Proof. intros Hsp Hht Hc. split; [done|]. left. by split_and!. Qed.

(** C8. Mutual exclusion, under every interleaving of any number of threads that
    lock and unlock as they like: as long as the threads can be told apart by
    [pthread_self] (those of one process can), no two of them hold a spin lock at
    once; the counter is the number of times the holder took it whenever the
    holder is not inside a call; and a thread that tries meanwhile goes on trying. *)
Theorem spin_lock_excludes x k s n :
  lk_spin x = 0 → lk_hold_thread x = 0 → lk_hold_counter x = 0 →
  Z.of_nat k < 2 ^ 64 → nsteps istep k (linit x) s → 0 < ls_depth s n →
  (∀ m, m ≠ n → ls_depth s m = 0) ∧ lk_spin (ls_lock s) = 1 ∧
  (ls_pc s n = Idle → lk_hold_counter (ls_lock s) = ls_depth s n) ∧
  (∀ m s', m ≠ n → ls_pc s m = L_cas → lstep m Go s = Some s' → s' = s).
Proof using self_inj self_pos.
  intros Hsp Hht Hc Hk Hs Hn.
  destruct (nsteps_inv k 0 _ _ Hk (linit_inv x Hsp Hht Hc) Hs)
    as [_ [(_ & _ & _ & Hall)|(m & Hsp' & _ & Hok & Hall)]]; [specialize (Hall n); lia|].
  assert (n = m) as ->.
  { destruct (decide (n = m)) as [|Hne]; [done|]. specialize (Hall n Hne). lia. }
  split_and!; [by intros i Hi; apply Hall|done| |].
  - intros Hp. rewrite Hp in Hok. apply Hok.
  - intros i s' Hi Hp. unfold lstep. rewrite Hp, Hsp'. by intros [= <-].
Qed.

(** C9. A lock that was given back as often as it was taken is free: when nobody is
    inside a call and nobody holds it, the word is 0 and the next attempt takes it. *)
Theorem spin_lock_released x k s n s' :
  lk_spin x = 0 → lk_hold_thread x = 0 → lk_hold_counter x = 0 →
  Z.of_nat k < 2 ^ 64 → nsteps istep k (linit x) s →
  (∀ m, ls_depth s m = 0) → ls_pc s n = L_cas →
  (∀ m, m ≠ n → ls_pc s m = Idle) → lstep n Go s = Some s' →
  lk_spin (ls_lock s) = 0 ∧ ls_pc s' n = L_set_thread.
Proof using self_inj self_pos.
  intros Hsp Hht Hc Hk Hs Hall Hn Hidle Hgo.
  assert (lk_spin (ls_lock s) = 0) as Hfree.
  { destruct (nsteps_inv k 0 _ _ Hk (linit_inv x Hsp Hht Hc) Hs)
      as [_ [(? & _)|(m & _ & _ & Hok & _)]]; [done|]. exfalso.
    destruct (decide (m = n)) as [->|Hm]; [by rewrite Hn in Hok|].
    rewrite (Hidle m Hm), (Hall m) in Hok. destruct Hok. lia. }
  split; [done|]. unfold lstep in Hgo. rewrite Hn, Hfree in Hgo. injection Hgo as <-.
  cbn. apply fn_lookup_insert.
Qed.
End steps.

(** * Threads of two processes *)

(** Threads 0 and 1 have the same [pthread_self] in two processes, thread 2 runs in
    the process of thread 1. *)
Definition demo_self (n : nat) : Z := match n with O | 1%nat => 7 | _ => 8 end.
Definition demo_pid (n : nat) : Z := match n with O => 100 | _ => 200 end.

(** Thread 0 takes the lock; thread 1 looks and finds its own thread number; thread
    0 gives the lock back; thread 2 takes it; thread 1 finds its own process. *)
Definition demo_schedule : list (nat * act) :=
  (0%nat, CallLock) :: replicate 5 (0%nat, Go) ++
  (1%nat, CallLock) :: replicate 2 (1%nat, Go) ++
  (0%nat, CallUnlock) :: replicate 8 (0%nat, Go) ++
  (2%nat, CallLock) :: replicate 5 (2%nat, Go) ++ replicate 2 (1%nat, Go).

(** Thread numbers of different processes can be equal, and then two threads
    hold a shared spin lock at once: the holder's thread and process are written
    and compared one after the other, so a thread can compare its thread number
    with one holder's and its process number with the next. *)
Theorem spin_lock_shared_race :
  ∃ s, nsteps (istep demo_self demo_pid) (length demo_schedule) (linit zero_lock) s ∧
    ls_depth s 1%nat = 1 ∧ ls_depth s 2%nat = 1.
Proof.
  destruct (schedule demo_self demo_pid demo_schedule (linit zero_lock)) as [s|] eqn:E.
  - exists s. split; [by apply schedule_steps|].
    vm_compute in E. injection E as <-. by vm_compute.
  - by vm_compute in E.
Qed.

Definition one_process (n : nat) : Z := Z.of_nat n + 1.

(** Thread 0 takes the lock twice, thread 1 tries. *)
Definition demo_use : list (nat * act) :=
  (0%nat, CallLock) :: replicate 5 (0%nat, Go) ++
  (0%nat, CallLock) :: replicate 4 (0%nat, Go) ++ (1%nat, CallLock) :: replicate 2 (1%nat, Go).

Lemma spin_lock_excludes_witness : ∃ s,
  schedule one_process (λ _, 1) demo_use (linit zero_lock) = Some s ∧
  (∀ m, m ≠ 0%nat → ls_depth s m = 0) ∧ lk_spin (ls_lock s) = 1 ∧
  (ls_pc s 0%nat = Idle → lk_hold_counter (ls_lock s) = ls_depth s 0%nat) ∧
  (∀ m s', m ≠ 0%nat → ls_pc s m = L_cas → lstep one_process (λ _, 1) m Go s = Some s' → s' = s).
Proof.
  destruct (schedule one_process (λ _, 1) demo_use (linit zero_lock)) as [s|] eqn:E.
  2: { by vm_compute in E. }
  exists s. split; [done|].
  apply (spin_lock_excludes one_process (λ _, 1)) with (x := zero_lock) (k := length demo_use).
  - intros n m. unfold one_process. lia.
  - intros n. unfold one_process. lia.
  - done.
  - done.
  - done.
  - done.
  - by apply schedule_steps.
  - vm_compute in E. injection E as <-. by vm_compute.
Defined.

(** Thread 0 takes the lock and gives it back, thread 1 is about to try. *)
Definition demo_release : list (nat * act) :=
  (0%nat, CallLock) :: replicate 5 (0%nat, Go) ++
  (0%nat, CallUnlock) :: replicate 8 (0%nat, Go) ++ [(1%nat, CallLock); (1%nat, Go)].

Lemma spin_lock_released_witness : ∃ s s',
  schedule one_process (λ _, 1) demo_release (linit zero_lock) = Some s ∧
  lstep one_process (λ _, 1) 1 Go s = Some s' ∧
  lk_spin (ls_lock s) = 0 ∧ ls_pc s' 1%nat = L_set_thread.
Proof.
  destruct (schedule one_process (λ _, 1) demo_release (linit zero_lock)) as [s|] eqn:E.
  2: { by vm_compute in E. }
  assert (nsteps (istep one_process (λ _, 1)) (length demo_release) (linit zero_lock) s) as Hs
    by by apply schedule_steps.
  destruct (lstep one_process (λ _, 1) 1 Go s) as [s'|] eqn:Hgo.
  2: { vm_compute in E. injection E as <-. by vm_compute in Hgo. }
  exists s, s'. split; [done|]. split; [done|].
  apply (spin_lock_released one_process (λ _, 1)) with (x := zero_lock) (k := length demo_release).
  - intros n m. unfold one_process. lia.
  - intros n. unfold one_process. lia.
  - done.
  - done.
  - done.
  - done.
  - done.
  - vm_compute in E. injection E as <-. intros [|[|m]]; done.
  - vm_compute in E. injection E as <-. done.
  - vm_compute in E. injection E as <-. intros [|[|m]]; done.
  - done.
Defined.

(** * The steps are the code *)

(** A thread left alone goes on until it leaves the call. *)
Fixpoint solo (self pid : nat → Z) (n : nat) (k : nat) (s : lstate) : lstate :=
  match k with
  | O => s
  | S k =>
      match ls_pc s n with
      | Idle => s
      | _ => match lstep self pid n Go s with Some s' => solo self pid n k s' | None => s end
      end
  end.

Lemma solo_go self pid n k s s' :
  ls_pc s n ≠ Idle → lstep self pid n Go s = Some s' →
  solo self pid n (S k) s = solo self pid n k s'.
Proof. intros Hp Hs. cbn [solo]. rewrite Hs. by destruct (ls_pc s n). Qed.

Lemma solo_idle self pid n k s : ls_pc s n = Idle → solo self pid n k s = s.
Proof. intros Hp. destruct k; cbn [solo]; [done|]. by rewrite Hp. Qed.

(** Compute a solo run whose tests are decided by the equations [tests] rewrites. *)
Ltac solo_simpl tests :=
  unfold goto, write, deeper;
  cbn [ls_pc ls_lock ls_depth lk_spin lk_hold_thread lk_hold_process lk_hold_counter
       set_lk_spin set_lk_hold_thread set_lk_hold_process set_lk_hold_counter];
  rewrite ?fn_lookup_insert; tests; cbn [negb Z.eqb Pos.eqb].
Ltac solo_run tests :=
  repeat (erewrite solo_go;
          [|solo_simpl ltac:(idtac); discriminate
           |unfold lstep; solo_simpl tests; reflexivity]);
  rewrite solo_idle by (solo_simpl ltac:(idtac); reflexivity);
  solo_simpl ltac:(idtac).

(** C10. The steps are the steps of the code: a thread left alone in [qp_lock_lock] on
    a spin lock that is free or its own, or in [qp_lock_unlock] on any spin lock,
    returns with the lock in the state the code leaves it in; and its depth goes
    up or down exactly when the code reports success. *)
Theorem lock_steps_are_code `{OS} self pid n lock w x p d :
  self n = pthread_self → pid n = getpid → lock ≠ NULL → lk_is_spin x = true → p n = Idle →
  let s := MkL x p d in
  let sl := solo self pid n 8 (goto n L_counter s) in
  let su := solo self pid n 9 (goto n U_counter s) in
  (lk_spin x = 0 ∨ (lk_hold_counter x ≠ 0 ∧ lk_hold_thread x = self n ∧ lk_hold_process x = pid n) →
   qp_lock_lock 1 lock (obj w lock x) = Ok (QP_SUCCESS, obj w lock (ls_lock sl)) ∧
   ls_pc sl n = Idle ∧ ls_depth sl n = d n + 1) ∧
  (∃ r, qp_lock_unlock lock (obj w lock x) = Ok (r, obj w lock (ls_lock su)) ∧
   ls_pc su n = Idle ∧ ls_depth su n = if r =? QP_SUCCESS then d n - 1 else d n).
Proof.
  intros Hself Hpid Hl Hb Hp s sl su. destruct x as [sp ht hp c i a sh b]. cbn in Hb. subst b.
  split.
  - intros Hfree. cbn in Hfree.
    assert (wp (qp_lock_lock 1 lock) (obj w lock (ls_lock s)) (λ r w',
      r = QP_SUCCESS ∧ w' = obj w lock (ls_lock sl) ∧ ls_pc sl n = Idle ∧
      ls_depth sl n = d n + 1)) as Hwp.
    { subst sl s. unfold qp_lock_lock, held_by_me. rewrite (proj2 (Z.eqb_neq lock NULL)) by done.
      repeat ostep. cbn [ls_lock lk_hold_counter].
      destruct (c =? 0) eqn:Ec; cbn [negb]; repeat ostep; cbn [ls_lock lk_hold_thread];
        [|rewrite <-Hself; destruct (ht =? self n) eqn:Et; repeat ostep;
          cbn [ls_lock lk_hold_process];
          [rewrite <-Hpid; destruct (hp =? pid n) eqn:Ep; repeat ostep|]].
      all: try (destruct Hfree as [->|(Hc & -> & ->)]; [|exfalso; lia]).
      all: solo_run ltac:(rewrite ?Ec; cbn [negb]; rewrite ?Et, ?Ep).
      all: unfold qp_lock_is_spin, take_over, qp_atom_cmp_set, qp_atom_fetch_add, lock_spin,
             hold_counter; cbn [loop]; unfold qp_lock_spin_body, take_over, qp_atom_cmp_set,
             qp_atom_fetch_add; repeat ostep; by rewrite ?Hself, ?Hpid. }
    apply wp_elim in Hwp as (r & w' & E & -> & -> & ? & ?). done.
  - assert (wp (qp_lock_unlock lock) (obj w lock (ls_lock s)) (λ r w',
      w' = obj w lock (ls_lock su) ∧ ls_pc su n = Idle ∧
      ls_depth su n = if r =? QP_SUCCESS then d n - 1 else d n)) as Hwp.
    { subst su s. unfold qp_lock_unlock. rewrite (proj2 (Z.eqb_neq lock NULL)) by done.
      repeat ostep. cbn [ls_lock lk_hold_counter].
      destruct (c <? 1) eqn:Ec; repeat ostep; cbn [ls_lock lk_hold_thread];
        [|rewrite <-Hself; destruct (ht =? self n) eqn:Et; repeat ostep;
          cbn [ls_lock lk_hold_process];
          [rewrite <-Hpid; destruct (hp =? pid n) eqn:Ep; cbn [negb]; repeat ostep|]].
      2: { unfold qp_atom_fetch_sub, hold_counter. repeat ostep.
        cbn [lk_hold_counter set_lk_hold_counter at_get at_set].
        destruct (u64 (c - 1) =? 0) eqn:Eu; cbn [negb]; repeat ostep.
        - unfold qp_lock_is_spin, qp_atom_cmp_set, lock_spin. repeat ostep.
          cbn [at_get lk_spin set_lk_hold_counter set_lk_hold_thread set_lk_hold_process].
          destruct (sp =? 1) eqn:Es; repeat ostep;
            solo_run ltac:(rewrite ?Ec, ?Et, ?Ep, ?Eu; cbn [negb]; rewrite ?Es);
            by cbn.
        - solo_run ltac:(rewrite ?Ec, ?Et, ?Ep, ?Eu). by cbn. }
      all: solo_run ltac:(rewrite ?Ec, ?Et, ?Ep); by cbn. }
    apply wp_elim in Hwp as (r & w' & E & -> & ? & ?). by exists r.
Qed.

Lemma lock_steps_are_code_witness :
  let x := MkLock 0 0 0 0 true false false true in
  let s := MkL x (λ _, Idle) (λ _, 0) in
  let sl := solo (λ _, 7) (λ _, 100) 0 8 (goto 0 L_counter s) in
  let su := solo (λ _, 7) (λ _, 100) 0 9 (goto 0 U_counter s) in
  (lk_spin x = 0 ∨ (lk_hold_counter x ≠ 0 ∧ lk_hold_thread x = 7 ∧ lk_hold_process x = 100) →
   @qp_lock_lock (answers []) 1 64 (obj empty_world 64 x) =
     Ok (QP_SUCCESS, obj empty_world 64 (ls_lock sl)) ∧
   ls_pc sl 0%nat = Idle ∧ ls_depth sl 0%nat = 0 + 1) ∧
  (∃ r, @qp_lock_unlock (answers []) 64 (obj empty_world 64 x) =
     Ok (r, obj empty_world 64 (ls_lock su)) ∧
   ls_pc su 0%nat = Idle ∧ ls_depth su 0%nat = if r =? QP_SUCCESS then 0 - 1 else 0).
Proof.
  by apply (@lock_steps_are_code (answers []) (λ _, 7) (λ _, 100) 0 64 empty_world
    (MkLock 0 0 0 0 true false false true) (λ _, Idle) (λ _, 0)).
Defined.
