(* ===== verification/Ipc.v ===== *)
(** Read-write locks, conditions, semaphores and shared memory of
    [src/src/core/qp_ipc_core.c], as one thread runs them. *)

From S2P Require Import Prelude World Atomic Lock.
#[local] Open Scope Z_scope.

(** * Constants and layout (Linux, LP64) *)

Definition sizeof_rwlock : Z := 64.
Definition sizeof_cond : Z := 128.
(** [offsetof(struct qp_ipc_cond_s, cond_lock)]. *)
Definition cond_lock : Z := 48.
Definition sizeof_sem : Z := 40.
Definition sizeof_shm : Z := 32.

Definition zero_rwlock : qp_ipc_rwlock_s := MkRwlock false false false.
Definition zero_cond : qp_ipc_cond_s := MkCond 0 false false false.
Definition zero_sem : qp_ipc_sem_s := MkSem false false false.
Definition zero_shm : qp_ipc_shm_s := MkShm 0 0 None 0 false false.

Definition QP_IPC_INVALID : Z := QP_ERROR.
Definition MAP_FAILED : Z := -1.
Definition MAP_SHARED : Z := 1.
Definition MAP_ANON : Z := 32.
Definition PROT_RW : Z := 3.
(** [O_RDWR | O_CREAT] and the mode bits of [qp_shm_init]. *)
Definition SHM_FLAGS : Z := 66.
Definition SHM_MODE : Z := 438.

(** * Flags *)

Definition qp_rwlock_set_inited : Z → M world unit := set_flag (set_rw_is_inited true).
Definition qp_rwlock_set_alloced : Z → M world unit := set_flag (set_rw_is_alloced true).
Definition qp_rwlock_set_shared : Z → M world unit := set_flag (set_rw_is_shared true).
Definition qp_rwlock_unset_inited : Z → M world unit := set_flag (set_rw_is_inited false).
Definition qp_rwlock_unset_shared : Z → M world unit := set_flag (set_rw_is_shared false).
Definition qp_rwlock_is_inited : Z → M world bool := is_flag rw_is_inited.
Definition qp_rwlock_is_alloced : Z → M world bool := is_flag rw_is_alloced.
Definition qp_rwlock_is_shared : Z → M world bool := is_flag rw_is_shared.

Definition qp_cond_set_inited : Z → M world unit := set_flag (set_cd_is_inited true).
Definition qp_cond_set_alloced : Z → M world unit := set_flag (set_cd_is_alloced true).
Definition qp_cond_set_shared : Z → M world unit := set_flag (set_cd_is_shared true).
Definition qp_cond_unset_inited : Z → M world unit := set_flag (set_cd_is_inited false).
Definition qp_cond_unset_shared : Z → M world unit := set_flag (set_cd_is_shared false).
Definition qp_cond_is_inited : Z → M world bool := is_flag cd_is_inited.
Definition qp_cond_is_alloced : Z → M world bool := is_flag cd_is_alloced.
Definition qp_cond_is_shared : Z → M world bool := is_flag cd_is_shared.

Definition qp_sem_set_inited : Z → M world unit := set_flag (set_sm_is_inited true).
Definition qp_sem_set_alloced : Z → M world unit := set_flag (set_sm_is_alloced true).
Definition qp_sem_set_shared : Z → M world unit := set_flag (set_sm_is_shared true).
Definition qp_sem_unset_inited : Z → M world unit := set_flag (set_sm_is_inited false).
Definition qp_sem_unset_shared : Z → M world unit := set_flag (set_sm_is_shared false).
Definition qp_sem_is_inited : Z → M world bool := is_flag sm_is_inited.
Definition qp_sem_is_alloced : Z → M world bool := is_flag sm_is_alloced.
Definition qp_sem_is_shared : Z → M world bool := is_flag sm_is_shared.

Definition qp_shm_set_inited : Z → M world unit := set_flag (set_sh_is_inited true).
Definition qp_shm_set_alloced : Z → M world unit := set_flag (set_sh_is_alloced true).
Definition qp_shm_unset_inited : Z → M world unit := set_flag (set_sh_is_inited false).
Definition qp_shm_is_inited : Z → M world bool := is_flag sh_is_inited.
Definition qp_shm_is_alloced : Z → M world bool := is_flag sh_is_alloced.

Section ipc.
Context `{OS}.

(** * Read-write locks *)

Definition rwlock_fail (rwlock : Z) : M world Z :=
  alloced ← qp_rwlock_is_alloced rwlock;
  (if (alloced : bool) then free rwlock else mret tt);; mret NULL.

Definition qp_rwlock_create (rwlock : Z) (shared : bool) : M world Z :=
  rwlock ← (if rwlock =? NULL then
              rwlock ← malloc sizeof_rwlock;
              if rwlock =? NULL then mret NULL else
              new rwlock zero_rwlock;; qp_rwlock_set_alloced rwlock;; mret rwlock
            else st (λ _, zero_rwlock) rwlock;; mret rwlock);
  if rwlock =? NULL then mret NULL else
  r ← call "pthread_rwlockattr_init" [];
  if negb (r =? QP_SUCCESS) then rwlock_fail rwlock else
  ok ← (if shared then
          r ← call "pthread_rwlockattr_setpshared" [PTHREAD_PROCESS_SHARED];
          if negb (r =? QP_SUCCESS) then mret false
          else qp_rwlock_set_shared rwlock;; mret true
        else mret true);
  if negb ok then rwlock_fail rwlock else
  r ← call "pthread_rwlock_init" [rwlock];
  if negb (r =? QP_SUCCESS) then rwlock_fail rwlock else
  call "pthread_rwlockattr_destroy" [];;
  qp_rwlock_set_inited rwlock;; mret rwlock.

Definition qp_rwlock_init (rwlock : Z) (shared : bool) : M world Z :=
  qp_rwlock_create rwlock shared.

(** [rwlock ? f(&rwlock->rwlock) : QP_ERROR] *)
Definition rw_call (name : string) (rwlock : Z) : M world Z :=
  if rwlock =? NULL then mret QP_ERROR else call name [rwlock].

Definition qp_rwlock_rdlock : Z → M world Z := rw_call "pthread_rwlock_rdlock".
Definition qp_rwlock_tryrdlock : Z → M world Z := rw_call "pthread_rwlock_tryrdlock".
Definition qp_rwlock_wrlock : Z → M world Z := rw_call "pthread_rwlock_wrlock".
Definition qp_rwlock_trywrlock : Z → M world Z := rw_call "pthread_rwlock_trywrlock".
Definition qp_rwlock_unlock : Z → M world Z := rw_call "pthread_rwlock_unlock".

Definition qp_rwlock_destroy (rwlock : Z) : M world Z :=
  inited ← qp_rwlock_is_inited rwlock;
  if negb inited then mret QP_ERROR else
  r ← qp_rwlock_tryrdlock rwlock;
  if r =? EBUSY then mret QP_ERROR else
  qp_rwlock_unlock rwlock;;
  r ← qp_rwlock_trywrlock rwlock;
  if r =? EBUSY then mret QP_ERROR else
  qp_rwlock_unlock rwlock;;
  r ← call "pthread_rwlock_destroy" [rwlock];
  if negb (r =? QP_SUCCESS) then mret QP_ERROR else
  qp_rwlock_unset_shared rwlock;; qp_rwlock_unset_inited rwlock;;
  alloced ← qp_rwlock_is_alloced rwlock;
  (if (alloced : bool) then free rwlock else mret tt);; mret QP_SUCCESS.

(** * Conditions *)

Definition cond_fail (cond : Z) : M world Z :=
  alloced ← qp_cond_is_alloced cond;
  (if (alloced : bool) then free cond else mret tt);; mret NULL.

Definition qp_cond_create (cond : Z) (shared : bool) : M world Z :=
  cond ← (if cond =? NULL then
            cond ← malloc sizeof_cond;
            if cond =? NULL then mret NULL else
            new cond zero_cond;; new (cond + cond_lock) zero_lock;;
            qp_cond_set_alloced cond;; mret cond
          else
            st (λ _, zero_cond) cond;; st (λ _, zero_lock) (cond + cond_lock);; mret cond);
  if cond =? NULL then mret NULL else
  r ← call "pthread_condattr_init" [];
  if negb (r =? QP_SUCCESS) then cond_fail cond else
  l ← qp_lock_init (cond + cond_lock) shared false;
  if l =? NULL then cond_fail cond else
  ok ← (if shared then
          r ← call "pthread_condattr_setpshared" [PTHREAD_PROCESS_SHARED];
          if negb (r =? QP_SUCCESS) then mret false
          else qp_cond_set_shared cond;; mret true
        else mret true);
  if negb ok then
    call "pthread_condattr_destroy" [];; qp_lock_destroy (cond + cond_lock);; cond_fail cond
  else
  r ← call "pthread_cond_init" [cond];
  if negb (r =? QP_SUCCESS) then
    call "pthread_condattr_destroy" [];; qp_lock_destroy (cond + cond_lock);; cond_fail cond
  else
  qp_cond_set_inited cond;; mret cond.

Definition qp_cond_init (cond : Z) (shared : bool) : M world Z := qp_cond_create cond shared.

Definition qp_cond_destroy (cond : Z) : M world Z :=
  inited ← qp_cond_is_inited cond;
  if negb inited then mret QP_ERROR else
  r ← call "pthread_cond_destroy" [cond];
  if r =? EBUSY then mret QP_ERROR else
  qp_lock_destroy (cond + cond_lock);;
  qp_cond_unset_shared cond;; qp_cond_unset_inited cond;;
  alloced ← qp_cond_is_alloced cond;
  (if (alloced : bool) then free cond else mret tt);; mret QP_SUCCESS.

(** [if (f) f(arg);], a callback of the client. *)
Definition callback (f arg : Z) : M world unit :=
  if f =? NULL then mret tt else call "callback" [f; arg];; mret tt.

Definition qp_cond_signal (cond signal_to arg : Z) : M world Z :=
  if cond =? NULL then mret QP_ERROR else
  qp_lock_lock 1 (cond + cond_lock);;
  nready ← ld cd_nready cond;
  let stat := nready =? 0 in
  st (set_cd_nready (u32 (nready + 1))) cond;;
  callback signal_to arg;;
  qp_lock_unlock (cond + cond_lock);;
  if stat then call "pthread_cond_signal" [cond] else mret QP_SUCCESS.

(** While a thread waits, others use the condition: the answer of the wait says
    what they left in it, and in its lock. *)
Definition others_ran (cond : Z) (data : list Z) : M world unit :=
  match data with
  | [nready; counter; thread; process] =>
      st (set_cd_nready (u32 nready)) cond;;
      st (set_lk_hold_counter (u64 counter)) (cond + cond_lock);;
      st (set_lk_hold_thread thread) (cond + cond_lock);;
      st (set_lk_hold_process process) (cond + cond_lock)
  | _ => mret tt
  end.

(** One round of the loop of [qp_cond_wait]; the result says whether the wait
    succeeded. *)
Definition qp_cond_wait_body (cond : Z) (_ : unit) : M world (unit + bool) :=
  nready ← ld cd_nready cond;
  if nready =? 0 then
    a ← ext "pthread_cond_wait" [cond; cond + cond_lock] [];
    others_ran cond (a_data a);;
    if negb (a_ret a =? QP_SUCCESS) then mret (inr false) else mret (inl tt)
  else mret (inr true).

(** [fuel] bounds the wake-ups. *)
Definition qp_cond_wait (fuel : nat) (cond wait_for arg : Z) : M world Z :=
  if cond =? NULL then mret QP_ERROR else
  qp_lock_lock 1 (cond + cond_lock);;
  ok ← loop fuel (qp_cond_wait_body cond) tt;
  if negb ok then qp_lock_unlock (cond + cond_lock);; mret QP_ERROR else
  nready ← ld cd_nready cond;
  st (set_cd_nready (u32 (nready - 1))) cond;;
  callback wait_for arg;;
  qp_lock_unlock (cond + cond_lock).

(** * Semaphores *)

Definition qp_sem_create (sem : Z) (shared : bool) : M world Z :=
  sem ← (if sem =? NULL then
           sem ← malloc sizeof_sem;
           if sem =? NULL then mret NULL else
           new sem zero_sem;; qp_sem_set_alloced sem;; mret sem
         else st (λ _, zero_sem) sem;; mret sem);
  if sem =? NULL then mret NULL else
  (if shared then qp_sem_set_shared sem else mret tt);;
  is_shared ← ld sm_is_shared sem;
  r ← call "sem_init" [sem; if (is_shared : bool) then 1 else 0; 0];
  if negb (r =? QP_SUCCESS) then
    alloced ← qp_sem_is_alloced sem;
    (if (alloced : bool) then free sem else mret tt);; mret NULL
  else
  qp_sem_set_inited sem;; mret sem.

Definition qp_sem_init (sem : Z) (shared : bool) : M world Z := qp_sem_create sem shared.

Definition sem_call (name : string) (sem : Z) : M world Z :=
  if sem =? NULL then mret QP_ERROR else call name [sem].

Definition qp_sem_post : Z → M world Z := sem_call "sem_post".
Definition qp_sem_trywait : Z → M world Z := sem_call "sem_trywait".
Definition qp_sem_wait : Z → M world Z := sem_call "sem_wait".

Definition qp_sem_destroy (sem : Z) : M world Z :=
  inited ← qp_sem_is_inited sem;
  if negb inited then mret QP_ERROR else
  qp_sem_post sem;;
  r ← call "sem_destroy" [sem];
  if negb (r =? QP_SUCCESS) then mret QP_ERROR else
  qp_sem_unset_shared sem;; qp_sem_unset_inited sem;;
  alloced ← qp_sem_is_alloced sem;
  (if (alloced : bool) then free sem else mret tt);; mret QP_SUCCESS.

(** * Shared memory *)

Definition qp_shm_create (shm size fd : Z) : M world Z :=
  shm ← (if shm =? NULL then
           shm ← malloc sizeof_shm;
           if shm =? NULL then mret NULL else
           new shm zero_shm;; qp_shm_set_alloced shm;; mret shm
         else st (λ _, zero_shm) shm;; mret shm);
  if shm =? NULL then mret NULL else
  st (set_sh_fd fd) shm;; st (set_sh_size size) shm;;
  fd ← ld sh_fd shm; size ← ld sh_size shm;
  addr ← (if QP_IPC_INVALID <? fd
          then call "mmap" [size; PROT_RW; MAP_SHARED; fd]
          else call "mmap" [size; PROT_RW; Z.lor MAP_ANON MAP_SHARED; QP_IPC_INVALID]);
  st (set_sh_addr addr) shm;;
  addr ← ld sh_addr shm;
  if addr =? MAP_FAILED then
    alloced ← qp_shm_is_alloced shm;
    (if (alloced : bool) then free shm else mret tt);; mret NULL
  else
  qp_shm_set_inited shm;; mret shm.

Definition qp_shm_init (shm size : Z) (name : option (list Z)) : M world Z :=
  fd ← (match name with
        | Some path => a ← ext "shm_open" [SHM_FLAGS; SHM_MODE] path; mret (a_ret a)
        | None => mret (-1)
        end);
  if (match name with Some _ => fd <? 0 | None => false end) then mret NULL else
  shm ← qp_shm_create shm size fd;
  if shm =? NULL then
    (match name with
     | Some path => if QP_IPC_INVALID <? fd then ext "shm_unlink" [] path;; mret tt else mret tt
     | None => mret tt
     end);; mret NULL
  else
  st (set_sh_name name) shm;; mret shm.

Definition qp_shm_destroy (shm : Z) : M world Z :=
  inited ← qp_shm_is_inited shm;
  if negb inited then mret QP_ERROR else
  addr ← ld sh_addr shm; size ← ld sh_size shm;
  r ← call "munmap" [addr; size];
  if r =? QP_ERROR then mret QP_ERROR else
  name ← ld sh_name shm;
  (match name with
   | Some path =>
       fd ← ld sh_fd shm; call "close" [fd];;
       ext "shm_unlink" [] path;; st (set_sh_name None) shm
   | None => mret tt
   end);;
  qp_shm_unset_inited shm;;
  alloced ← qp_shm_is_alloced shm;
  (if (alloced : bool) then free shm else mret tt);; mret QP_SUCCESS.

Definition qp_shm_start (shm : Z) : M world Z :=
  inited ← qp_shm_is_inited shm;
  if (inited : bool) then ld sh_addr shm else mret NULL.
End ipc.
