(* ===== verification/IpcProps.v ===== *)
(** Life cycles of the inter-process objects, and the behaviour of conditions,
    semaphores and shared memory. *)

From S2P Require Import Prelude World Life Atomic Lock Ipc.
#[local] Open Scope Z_scope.

Section lifecycle.
Context `{OS}.
Implicit Types (w : world) (Q : Z → world → Prop).

Lemma lock_init_spec p shared spin w Q :
  (p ≠ NULL → is_Some (w_locks w !! p)) →
  (∀ q w', alive lk_is_inited lk_is_alloced sizeof_lock p w q w' → Q q w') →
  (∀ w', gone (X := qp_ipc_lock_s) p w w' → Q NULL w') →
  wp (qp_lock_init p shared spin) w Q.
Proof.
  intros Hp Hok Hnull. unfold qp_lock_init, qp_lock_create. ostep. ocreate.
  2: { intros w1 Hg. ostep. by apply Hnull. }
  intros q w1 Hq Hc. rewrite (proj2 (Z.eqb_neq q NULL)) by done.
  unfold lock_fail, qp_lock_set_shared, qp_lock_set_spin, qp_lock_set_inited, qp_lock_is_alloced.
  orun; try (orelease; [by destruct (p =? NULL)|exact Hnull]).
  all: oalive Hok.
Qed.

(** Locking and unlocking change the lock, and nothing else; its origin stays. *)
Definition touches (q : Z) (m : M world Z) : Prop :=
  ∀ w (x : qp_ipc_lock_s), wp m (obj w q x) (λ _ w', ∃ w2 y,
    w' = obj w2 q y ∧ w2 ≡ₘ w ∧ lk_is_inited y = lk_is_inited x ∧
    lk_is_alloced y = lk_is_alloced x).

Lemma held_by_me_split q w (x : qp_ipc_lock_s) (Q : bool → world → Prop) :
  q ≠ NULL → (∀ b, Q b (obj w q x)) → wp (held_by_me q) (obj w q x) Q.
Proof. intros Hq HQ. unfold held_by_me. orun; apply HQ. Qed.

Lemma trylock_touches q : q ≠ NULL → touches q (qp_lock_trylock q).
Proof.
  intros Hq w x. unfold qp_lock_trylock. rewrite (proj2 (Z.eqb_neq q NULL)) by done. ostep.
  apply held_by_me_split; [done|]. intros mine.
  unfold take_over, qp_lock_is_spin, qp_atom_fetch_add, qp_atom_cmp_set.
  orun; eexists _, _; split_and!; try reflexivity; done.
Qed.

Lemma unlock_touches q : q ≠ NULL → touches q (qp_lock_unlock q).
Proof.
  intros Hq w x. unfold qp_lock_unlock. rewrite (proj2 (Z.eqb_neq q NULL)) by done.
  unfold qp_lock_is_spin, qp_atom_fetch_sub, qp_atom_cmp_set.
  orun; eexists _, _; split_and!; try reflexivity; done.
Qed.

Lemma lock_destroy_spec p w q w' Q :
  alive lk_is_inited lk_is_alloced sizeof_lock p w q w' →
  (∀ r w'', (r = QP_SUCCESS → gone (X := qp_ipc_lock_s) p w w'') → Q r w'') →
  wp (qp_lock_destroy q) w' Q.
Proof.
  intros (Hq & w1 & x & Hc & -> & Hi & Ha) HQ.
  unfold qp_lock_destroy, qp_lock_is_inited, qp_lock_is_alloced, qp_lock_is_spin,
    qp_lock_unset_spin, qp_lock_unset_shared, qp_lock_unset_inited.
  repeat ostep. rewrite Hi. repeat ostep. eapply wp_mono; [by apply trylock_touches|].
  intros r w2 (w3 & y & -> & E3 & _ & Ha2). rewrite Ha in Ha2.
  destruct (r =? EBUSY); [ostep; by apply HQ|]. ostep.
  eapply wp_mono; [by apply unlock_touches|].
  intros r2 w4 (w5 & z & -> & E5 & _ & Ha3). rewrite Ha2 in Ha3.
  assert (created w p sizeof_lock q w5) as Hc5.
  { eapply created_same; [by etrans|done]. }
  orun; try (apply HQ; done).
  all: orelease; [done|]; intros w6 Hg; by apply HQ.
Qed.

Lemma rwlock_init_spec p shared w Q :
  (p ≠ NULL → is_Some (w_rwlocks w !! p)) →
  (∀ q w', alive rw_is_inited rw_is_alloced sizeof_rwlock p w q w' → Q q w') →
  (∀ w', gone (X := qp_ipc_rwlock_s) p w w' → Q NULL w') →
  wp (qp_rwlock_init p shared) w Q.
Proof.
  intros Hp Hok Hnull. unfold qp_rwlock_init, qp_rwlock_create. ostep. ocreate.
  2: { intros w1 Hg. ostep. by apply Hnull. }
  intros q w1 Hq Hc. rewrite (proj2 (Z.eqb_neq q NULL)) by done.
  unfold rwlock_fail, qp_rwlock_set_shared, qp_rwlock_set_inited, qp_rwlock_is_alloced.
  orun; try (orelease; [by destruct (p =? NULL)|exact Hnull]).
  all: oalive Hok.
Qed.

Lemma rwlock_destroy_spec p w q w' Q :
  alive rw_is_inited rw_is_alloced sizeof_rwlock p w q w' →
  (∀ r w'', (r = QP_SUCCESS → gone (X := qp_ipc_rwlock_s) p w w'') → Q r w'') →
  wp (qp_rwlock_destroy q) w' Q.
Proof.
  intros (Hq & w1 & x & Hc & -> & Hi & Ha) HQ.
  unfold qp_rwlock_destroy, qp_rwlock_is_inited, qp_rwlock_is_alloced, qp_rwlock_tryrdlock,
    qp_rwlock_trywrlock, qp_rwlock_unlock, rw_call, qp_rwlock_unset_shared,
    qp_rwlock_unset_inited.
  rewrite !(proj2 (Z.eqb_neq q NULL)) by done.
  repeat ostep. rewrite Hi. orun; try (apply HQ; done).
  all: orelease; [done|]; intros w6 Hg; by apply HQ.
Qed.

Lemma sem_init_spec p shared w Q :
  (p ≠ NULL → is_Some (w_sems w !! p)) →
  (∀ q w', alive sm_is_inited sm_is_alloced sizeof_sem p w q w' → Q q w') →
  (∀ w', gone (X := qp_ipc_sem_s) p w w' → Q NULL w') →
  wp (qp_sem_init p shared) w Q.
Proof.
  intros Hp Hok Hnull. unfold qp_sem_init, qp_sem_create. ostep. ocreate.
  2: { intros w1 Hg. ostep. by apply Hnull. }
  intros q w1 Hq Hc. rewrite (proj2 (Z.eqb_neq q NULL)) by done.
  unfold qp_sem_set_shared, qp_sem_set_inited, qp_sem_is_alloced.
  orun; try (orelease; [by destruct (p =? NULL)|exact Hnull]).
  all: oalive Hok.
Qed.

Lemma sem_destroy_spec p w q w' Q :
  alive sm_is_inited sm_is_alloced sizeof_sem p w q w' →
  (∀ r w'', (r = QP_SUCCESS → gone (X := qp_ipc_sem_s) p w w'') → Q r w'') →
  wp (qp_sem_destroy q) w' Q.
Proof.
  intros (Hq & w1 & x & Hc & -> & Hi & Ha) HQ.
  unfold qp_sem_destroy, qp_sem_is_inited, qp_sem_is_alloced, qp_sem_post, sem_call,
    qp_sem_unset_shared, qp_sem_unset_inited.
  rewrite !(proj2 (Z.eqb_neq q NULL)) by done.
  repeat ostep. rewrite Hi. orun; try (apply HQ; done).
  all: orelease; [done|]; intros w6 Hg; by apply HQ.
Qed.

Lemma shm_create_spec p size fd w Q :
  (p ≠ NULL → is_Some (w_shms w !! p)) →
  (∀ q w', alive sh_is_inited sh_is_alloced sizeof_shm p w q w' → Q q w') →
  (∀ w', gone (X := qp_ipc_shm_s) p w w' → Q NULL w') →
  wp (qp_shm_create p size fd) w Q.
Proof.
  intros Hp Hok Hnull. unfold qp_shm_create. ostep. ocreate.
  2: { intros w1 Hg. ostep. by apply Hnull. }
  intros q w1 Hq Hc. rewrite (proj2 (Z.eqb_neq q NULL)) by done.
  unfold qp_shm_set_inited, qp_shm_is_alloced.
  orun; try (orelease; [by destruct (p =? NULL)|exact Hnull]).
  all: oalive Hok.
Qed.

Lemma shm_init_spec p size name w Q :
  (p ≠ NULL → is_Some (w_shms w !! p)) →
  (∀ q w', alive sh_is_inited sh_is_alloced sizeof_shm p w q w' → Q q w') →
  (∀ w', gone (X := qp_ipc_shm_s) p w w' → Q NULL w') →
  wp (qp_shm_init p size name) w Q.
Proof.
  intros Hp Hok Hnull. unfold qp_shm_init. ostep.
  assert (∀ w0 fd Q', w0 ≡ₘ w →
    (∀ q w1 (x : qp_ipc_shm_s), q ≠ NULL → created w p sizeof_shm q w1 →
       sh_is_inited x = true → sh_is_alloced x = (p =? NULL) → Q' q (obj w1 q x)) →
    (∀ w', gone (X := qp_ipc_shm_s) p w w' → Q' NULL w') →
    wp (qp_shm_create p size fd) w0 Q') as Hcreate.
  { intros w0 fd Q' E HQ1 HQ2. apply shm_create_spec.
    - intros Hne. pose proof (mem_lget (X := qp_ipc_shm_s) w0 w E) as El. cbn in El.
      rewrite El. by apply Hp.
    - intros q w' Hal. apply (alive_from _ _ _ _ w) in Hal; [|done].
      destruct Hal as (Hq & w1 & x & Hc & -> & Hi & Ha). by apply HQ1.
    - intros w' Hg. apply HQ2. by eapply gone_same. }
  destruct name as [path|].
  - ostep. apply wp_ext. ostep. destruct (_ <? 0).
    { ostep. apply Hnull. split; [|done]. intros Hne. destruct (Hp Hne) as [x Hx].
      exists x. by rewrite <-(obj_id w). }
    ostep. apply Hcreate; [done| |].
    + intros q w1 x Hq Hc Hi Ha. rewrite (proj2 (Z.eqb_neq q NULL)) by done. repeat ostep.
      by apply Hok, alive_intro.
    + intros w' Hg. cbn. ostep. destruct (_ <? _); cbn.
      * apply wp_bind, wp_ext. repeat ostep. apply Hnull. eapply gone_trans; [done|].
        apply record_quiet.
      * repeat ostep. by apply Hnull.
  - ostep. cbn. ostep. apply Hcreate; [done| |].
    + intros q w1 x Hq Hc Hi Ha. rewrite (proj2 (Z.eqb_neq q NULL)) by done. repeat ostep.
      by apply Hok, alive_intro.
    + intros w' Hg. cbn. repeat ostep. by apply Hnull.
Qed.

Lemma shm_destroy_spec p w q w' Q :
  alive sh_is_inited sh_is_alloced sizeof_shm p w q w' →
  (∀ r w'', (r = QP_SUCCESS → gone (X := qp_ipc_shm_s) p w w'') → Q r w'') →
  wp (qp_shm_destroy q) w' Q.
Proof.
  intros (Hq & w1 & x & Hc & -> & Hi & Ha) HQ.
  unfold qp_shm_destroy, qp_shm_is_inited, qp_shm_is_alloced, qp_shm_unset_inited.
  repeat ostep. rewrite Hi. orun; try (apply HQ; done).
  destruct (sh_name x); orun.
  all: orelease; [done|]; intros w6 Hg; by apply HQ.
Qed.

(** ** Conditions: two structures in one block *)

Definition cond_at (w : world) (q : Z) (l : qp_ipc_lock_s) (c : qp_ipc_cond_s) : world :=
  obj (obj w (q + cond_lock) l) q c.

Lemma cond_swap w q l c : cond_at w q l c = obj (obj w q c) (q + cond_lock) l.
Proof. done. Qed.

Definition cond_alive (w : world) (q : Z) (w' : world) : Prop :=
  ∃ w1 l c, created w NULL sizeof_cond q w1 ∧ w' = cond_at w1 q l c ∧
            lk_is_alloced l = false ∧ cd_is_inited c = true ∧ cd_is_alloced c = true.

Lemma cond_release w q w1 l c r Q :
  created w NULL sizeof_cond q w1 → (∀ w', w' ≡ₘ w → Q r w') →
  wp ((if true then free q else mret tt);; mret r) (cond_at w1 q l c) Q.
Proof.
  intros [[? _]|(_ & Hq & Hu & E)] HQ; [done|]. ostep. cbn. eapply wp_free; [done| |].
  { unfold cond_at. rewrite !obj_live, (same_live _ _ E). cbn. apply lookup_insert_eq. }
  repeat ostep. apply HQ. etrans; [by apply unmap_same, record_quiet|].
  etrans; [by apply unmap_same, obj_same, obj_same, E|].
  pose proof (unmap_obj (X := qp_ipc_cond_s) w (obj (block_at q sizeof_cond w) (q + cond_lock) l)
    q sizeof_cond 0 c) as E1. rewrite Z.add_0_r in E1. rewrite E1; [|done..].
  rewrite (unmap_obj (X := qp_ipc_lock_s) w); [by rewrite unmap_fresh|done..].
Qed.

Lemma created_null w q w1 n : created w NULL n q w1 → 0 < q ∧ usable w q n = true.
Proof.
  intros [[? _]|(_ & _ & Hu & _)]; [done|]. split; [|done].
  by apply usable_cases in Hu as [? _].
Qed.

Lemma cond_lock_at w1 q l c w2 l' :
  w2 ≡ₘ obj (cond_at w1 q l c) (q + cond_lock) l' →
  ∃ w3, w3 ≡ₘ w1 ∧ w2 = cond_at w3 q l' c.
Proof.
  rewrite cond_swap, obj_obj. intros (w4 & E4 & ->)%same_obj.
  apply same_obj in E4 as (w3 & E3 & ->). exists w3. by rewrite cond_swap.
Qed.

Lemma cond_lock_init w q w1 l c shared Q :
  created w NULL sizeof_cond q w1 →
  (∀ w2 l' r, created w NULL sizeof_cond q w2 → (r ≠ NULL → lk_is_alloced l' = false) →
     Q r (cond_at w2 q l' c)) →
  wp (qp_lock_init (q + cond_lock) shared false) (cond_at w1 q l c) Q.
Proof.
  intros Hc HQ. destruct (created_null _ _ _ _ Hc) as [Hq _].
  assert (q + cond_lock ≠ NULL) as Hne by (unfold NULL, cond_lock; lia).
  apply lock_init_spec.
  - intros _. exists l. rewrite cond_swap.
    exact (obj_lookup (X := qp_ipc_lock_s) (obj w1 q c) (q + cond_lock) l).
  - intros q' w' (_ & w2 & x & [(_ & -> & E)|[? _]] & -> & _ & Ha); [|done].
    destruct (cond_lock_at w1 q l c (obj w2 (q + cond_lock) x) x) as (w3 & E3 & ->).
    { by apply obj_same. }
    apply HQ; [by eapply created_same|]. intros _. by rewrite Ha, (proj2 (Z.eqb_neq _ _) Hne).
  - intros w' [Hg _]. destruct (Hg Hne) as [x Hx].
    apply cond_lock_at in Hx as (w3 & E3 & ->). apply HQ; [by eapply created_same|done].
Qed.

Lemma lock_destroy_touches q w x Q :
  q ≠ NULL → lk_is_alloced x = false →
  (∀ r w2 (y : qp_ipc_lock_s), w2 ≡ₘ w → Q r (obj w2 q y)) → wp (qp_lock_destroy q) (obj w q x) Q.
Proof.
  intros Hq Ha HQ.
  unfold qp_lock_destroy, qp_lock_is_inited, qp_lock_is_alloced, qp_lock_is_spin,
    qp_lock_unset_spin, qp_lock_unset_shared, qp_lock_unset_inited.
  repeat ostep. destruct (lk_is_inited x); cbn [negb]; [|ostep; by apply HQ]. repeat ostep.
  eapply wp_mono; [by apply trylock_touches|].
  intros r w2 (w3 & y & -> & E3 & _ & Ha2). rewrite Ha in Ha2.
  destruct (r =? EBUSY); [ostep; by apply HQ|]. ostep.
  eapply wp_mono; [by apply unlock_touches|].
  intros r2 w4 (w5 & z & -> & E5 & _ & Ha3). rewrite Ha2 in Ha3.
  assert (w5 ≡ₘ w) as E by by etrans.
  orun; try (apply HQ; done); ostep; cbn; rewrite Ha3; repeat ostep; by apply HQ.
Qed.

Lemma cond_lock_destroy w q w1 l c Q :
  created w NULL sizeof_cond q w1 → lk_is_alloced l = false →
  (∀ w2 l' r, created w NULL sizeof_cond q w2 → Q r (cond_at w2 q l' c)) →
  wp (qp_lock_destroy (q + cond_lock)) (cond_at w1 q l c) Q.
Proof.
  intros Hc Ha HQ. destruct (created_null _ _ _ _ Hc) as [Hq _]. rewrite cond_swap.
  apply lock_destroy_touches; [unfold NULL, cond_lock; lia|done|].
  intros r w2 y (w3 & E3 & ->)%same_obj. rewrite <-cond_swap. apply HQ.
  by eapply created_same.
Qed.

Ltac cond_fold :=
  rewrite ?obj_record;
  match goal with
  | |- wp ?m (obj (obj ?w (?q + cond_lock) ?l) ?q ?c) ?Q => change (wp m (cond_at w q l c) Q)
  | |- context [obj (obj ?w (?q + cond_lock) ?l) ?q ?c] =>
      change (obj (obj w (q + cond_lock) l) q c) with (cond_at w q l c)
  end.

Ltac cond_unswap :=
  rewrite ?obj_record;
  match goal with
  | |- wp ?m (obj (obj ?w ?q ?c) (?q + cond_lock) ?l) ?Q => change (wp m (cond_at w q l c) Q)
  end.

Lemma cond_init_spec shared w Q :
  (∀ q w', q ≠ NULL → cond_alive w q w' → Q q w') → (∀ w', w' ≡ₘ w → Q NULL w') →
  wp (qp_cond_init NULL shared) w Q.
Proof.
  intros Hok Hnull. unfold qp_cond_init, qp_cond_create. ostep. ostep. ostep. apply wp_malloc.
  2: { intros e. repeat ostep. by apply Hnull. }
  intros q e Hu Hq. rewrite (proj2 (Z.eqb_neq q NULL)) by done. ostep. ostep. ostep.
  set (w1 := set_live _ _).
  assert (created w NULL sizeof_cond q w1) as Hc by (right; by split_and!).
  clearbody w1. ostep. rewrite <-cond_swap. unfold cond_at at 1, qp_cond_set_alloced.
  repeat ostep. rewrite (proj2 (Z.eqb_neq q NULL)) by done. repeat ostep.
  assert (∀ w2 l c, created w NULL sizeof_cond q w2 → cd_is_alloced c = true →
    wp (cond_fail q) (cond_at w2 q l c) Q) as Hfail.
  { intros w2 l c Hc2 Ha. unfold cond_fail, qp_cond_is_alloced, cond_at. ostep. ostep.
    rewrite Ha. by eapply cond_release. }
  assert (∀ w2 l c, created w NULL sizeof_cond q w2 → cd_is_alloced c = true →
    lk_is_alloced l = false →
    wp (call "pthread_condattr_destroy" [];; qp_lock_destroy (q + cond_lock);; cond_fail q)
      (cond_at w2 q l c) Q) as Hundo.
  { intros w2 l c Hc2 Ha Hl. unfold cond_at. repeat ostep. cond_fold.
    eapply cond_lock_destroy; [quiet_created|done|]. intros w3 l' r Hc3. by apply Hfail. }
  cond_fold. destruct (negb _); [apply Hfail; [quiet_created|done]|]. ostep.
  eapply cond_lock_init; [quiet_created|]. intros w2 l' r Hc2 Hl.
  destruct (Z.eqb_spec r NULL) as [_|Hr]; [by apply Hfail|]. specialize (Hl Hr).
  unfold cond_at, qp_cond_set_shared, qp_cond_set_inited.
  destruct shared; repeat ostep.
  - destruct (negb (a_ret a0 =? _)).
    { ostep. ostep. cond_fold. apply Hundo; [quiet_created|done..]. }
    repeat ostep. destruct (negb _); cond_fold; [apply Hundo; [quiet_created|done..]|].
    unfold cond_at. repeat ostep. cond_fold. apply Hok; [done|]. eexists _, _, _.
    split_and!; [|reflexivity|done..]. quiet_created.
  - destruct (negb _); cond_fold; [apply Hundo; [quiet_created|done..]|].
    unfold cond_at. repeat ostep. cond_fold. apply Hok; [done|]. eexists _, _, _.
    split_and!; [|reflexivity|done..]. quiet_created.
Qed.

Lemma cond_destroy_spec w q w' Q :
  cond_alive w q w' → q ≠ NULL → (∀ r w'', (r = QP_SUCCESS → w'' ≡ₘ w) → Q r w'') →
  wp (qp_cond_destroy q) w' Q.
Proof.
  intros (w1 & l & c & Hc & -> & Hl & Hi & Ha) Hq HQ.
  unfold qp_cond_destroy, qp_cond_is_inited, qp_cond_is_alloced, qp_cond_unset_shared,
    qp_cond_unset_inited, cond_at.
  repeat ostep. rewrite Hi. repeat ostep. cond_fold.
  destruct (_ =? EBUSY); [ostep; by apply HQ|]. ostep.
  eapply cond_lock_destroy; [quiet_created|done|]. intros w2 l' r Hc2.
  unfold cond_at. repeat lazymatch goal with
    | |- wp ((if _ then free _ else _) ≫= _) _ _ => fail | _ => ostep end.
  cond_fold. cbn [cd_is_alloced set_cd_is_inited set_cd_is_shared]. rewrite Ha.
  eapply cond_release; [done|]. intros w3 E. by apply HQ.
Qed.

(** * All of them *)

Inductive ipc_object :=
| IpcLock (shared spin : bool)
| IpcRwlock (shared : bool)
| IpcCond (shared : bool)
| IpcSem (shared : bool)
| IpcShm (size : Z) (name : option (list Z)).

Definition ipc_init (k : ipc_object) : M world Z :=
  match k with
  | IpcLock shared spin => qp_lock_init NULL shared spin
  | IpcRwlock shared => qp_rwlock_init NULL shared
  | IpcCond shared => qp_cond_init NULL shared
  | IpcSem shared => qp_sem_init NULL shared
  | IpcShm size name => qp_shm_init NULL size name
  end.

Definition ipc_destroy (k : ipc_object) : Z → M world Z :=
  match k with
  | IpcLock _ _ => qp_lock_destroy
  | IpcRwlock _ => qp_rwlock_destroy
  | IpcCond _ => qp_cond_destroy
  | IpcSem _ => qp_sem_destroy
  | IpcShm _ _ => qp_shm_destroy
  end.

Definition ipc_life (k : ipc_object) : M world (option Z) :=
  p ← ipc_init k;
  if p =? NULL then mret None else r ← ipc_destroy k p; mret (Some r).

(** C11. No object leaks its memory, whatever the system answers: an
    initialisation that fails at any step has given back what it allocated, and a
    destruction that succeeds leaves memory exactly as it was before the
    initialisation, for locks, read-write locks, conditions with the lock inside
    them, semaphores and shared memory. *)
Theorem ipc_life_balanced k w :
  ∃ r w', ipc_life k w = Ok (r, w') ∧ (r = None ∨ r = Some QP_SUCCESS → w' ≡ₘ w).
Proof.
  apply wp_elim. unfold ipc_life. ostep.
  assert (∀ p w', p ≠ NULL →
    wp (ipc_destroy k p) w' (λ r w'', r = QP_SUCCESS → w'' ≡ₘ w) →
    wp (if p =? NULL then mret None else r ← ipc_destroy k p; mret (Some r)) w'
      (λ r w'', r = None ∨ r = Some QP_SUCCESS → w'' ≡ₘ w)) as Hd.
  { intros p w' Hp Hw. rewrite (proj2 (Z.eqb_neq _ _) Hp). ostep.
    eapply wp_mono; [done|]. intros r w'' Hr. ostep. intros [?|[=]]; [done|]. by apply Hr. }
  destruct k as [shared spin|shared|shared|shared|size name]; cbn [ipc_init ipc_destroy] in *.
  - apply lock_init_spec; [done| |].
    + intros q w' Ha. apply Hd; [apply Ha|]. eapply lock_destroy_spec; [done|].
      intros r w'' Hr E. by apply Hr.
    + intros w' [_ Hg]. ostep. ostep. intros _. by apply Hg.
  - apply rwlock_init_spec; [done| |].
    + intros q w' Ha. apply Hd; [apply Ha|]. eapply rwlock_destroy_spec; [done|].
      intros r w'' Hr E. by apply Hr.
    + intros w' [_ Hg]. ostep. ostep. intros _. by apply Hg.
  - apply cond_init_spec.
    + intros q w' Hq Ha. apply Hd; [done|]. by eapply cond_destroy_spec.
    + intros w' E. by repeat ostep.
  - apply sem_init_spec; [done| |].
    + intros q w' Ha. apply Hd; [apply Ha|]. eapply sem_destroy_spec; [done|].
      intros r w'' Hr E. by apply Hr.
    + intros w' [_ Hg]. ostep. ostep. intros _. by apply Hg.
  - apply shm_init_spec; [done| |].
    + intros q w' Ha. apply Hd; [apply Ha|]. eapply shm_destroy_spec; [done|].
      intros r w'' Hr E. by apply Hr.
    + intros w' [_ Hg]. ostep. ostep. intros _. by apply Hg.
Qed.

End lifecycle.

(** A thread waits on the condition at 4096; the lock in it is thread 3's. *)
Definition waited : world :=
  cond_at empty_world 4096 (MkLock 0 3 100 1 true false false false)
    (MkCond 0 true false false).


(** * Shared memory and the calls it makes *)

(** A shared memory of the caller's: set up, looked at, taken down. *)
Definition shm_use `{OS} (shm size : Z) (path : list Z) : M world (option (Z * Z)) :=
  p ← qp_shm_init shm size (Some path);
  if p =? NULL then mret None else
  addr ← qp_shm_start p; r ← qp_shm_destroy p; mret (Some (addr, r)).

(** The calls of such a life and its result. *)
Inductive shm_life (size : Z) (path : list Z) : list event → option (Z * Z) → Prop :=
| ShmNoOpen fd : fd < 0 →
    shm_life size path [Ev "shm_open" [SHM_FLAGS; SHM_MODE] path fd] None
| ShmNoMap fd u : 0 ≤ fd →
    shm_life size path
      [Ev "shm_open" [SHM_FLAGS; SHM_MODE] path fd;
       Ev "mmap" [size; PROT_RW; MAP_SHARED; fd] [] MAP_FAILED;
       Ev "shm_unlink" [] path u] None
| ShmNoUnmap fd addr : 0 ≤ fd → addr ≠ MAP_FAILED →
    shm_life size path
      [Ev "shm_open" [SHM_FLAGS; SHM_MODE] path fd;
       Ev "mmap" [size; PROT_RW; MAP_SHARED; fd] [] addr;
       Ev "munmap" [addr; size] [] QP_ERROR] (Some (addr, QP_ERROR))
| ShmDone fd addr r c u : 0 ≤ fd → addr ≠ MAP_FAILED → r ≠ QP_ERROR →
    shm_life size path
      [Ev "shm_open" [SHM_FLAGS; SHM_MODE] path fd;
       Ev "mmap" [size; PROT_RW; MAP_SHARED; fd] [] addr;
       Ev "munmap" [addr; size] [] r;
       Ev "close" [fd] [] c; Ev "shm_unlink" [] path u] (Some (addr, QP_SUCCESS)).

(** Run code on an object that is known not to be NULL. *)
Ltac orun_at Hn := repeat first [progress rewrite Hn | ostep].

(** C13. The calls a named shared memory makes from [qp_shm_init] to
    [qp_shm_destroy] are one of four sequences, whatever the system answers: on
    success what was mapped is unmapped with its own address and size, the
    descriptor closed and the name removed; a failed [shm_open] does nothing more;
    a failed [munmap] stops the destruction; and a failed [mmap] removes the name
    but never closes the descriptor [shm_open] gave, which leaks. *)
Theorem shm_life_calls `{OS} shm size path w :
  shm ≠ NULL → is_Some (w_shms w !! shm) →
  ∃ r w' t, shm_use shm size path w = Ok (r, w') ∧ w_trace w' = w_trace w ++ t ∧
    shm_life size path t r.
Proof.
  intros Hp [x Hx].
  assert (wp (shm_use shm size path) w
    (λ r w', ∃ t, w_trace w' = w_trace w ++ t ∧ shm_life size path t r)) as Hwp.
  { rewrite (obj_id w shm x) at 1 by done.
    unfold shm_use, qp_shm_init, qp_shm_create, qp_shm_start, qp_shm_destroy,
      qp_shm_is_inited, qp_shm_set_inited, qp_shm_is_alloced, qp_shm_unset_inited.
    pose proof (proj2 (Z.eqb_neq shm NULL) Hp) as Hn. orun_at Hn.
    destruct (Z.ltb_spec (a_ret a) 0).
    { orun_at Hn. eexists. split; [by rewrite obj_trace, record_trace|].
      by constructor. }
    orun_at Hn.
    cbn [sh_fd sh_size set_sh_fd set_sh_size zero_shm].
    replace (QP_IPC_INVALID <? a_ret a) with true by (symmetry; apply Z.ltb_lt;
      unfold QP_IPC_INVALID, QP_ERROR; lia). orun_at Hn.
    cbn [sh_addr set_sh_addr]. destruct (Z.eqb_spec (a_ret a0) MAP_FAILED) as [E|E].
    { orun_at Hn. eexists.
      split; [by rewrite obj_trace, !record_trace, <-!app_assoc|].
      cbn. rewrite E. by constructor. }
    orun_at Hn.
    cbn [sh_addr sh_size set_sh_name set_sh_is_inited set_sh_addr set_sh_size].
    destruct (Z.eqb_spec (a_ret a1) QP_ERROR) as [E1|E1].
    { orun_at Hn. eexists.
      split; [by rewrite obj_trace, !record_trace, <-!app_assoc|].
      cbn. rewrite E1. by constructor. }
    orun_at Hn. cbn [sh_name set_sh_name]. orun_at Hn. eexists.
    split; [by rewrite obj_trace, !record_trace, <-!app_assoc|]. cbn. by constructor. }
  apply wp_elim in Hwp as (r & w' & E & t & Ht). by exists r, w', t.
Qed.

Lemma shm_life_calls_witness :
  ∃ r w' t,
    @shm_use (answers [5; 8192; 0; 0; 0]) 4096 64 [97] (obj empty_world 4096 zero_shm) =
      Ok (r, w') ∧
    w_trace w' = [] ++ t ∧ shm_life 64 [97] t r ∧ r = Some (8192, QP_SUCCESS).
Proof.
  destruct (@shm_life_calls (answers [5; 8192; 0; 0; 0]) 4096 64 [97]
    (obj empty_world 4096 zero_shm)) as (r & w' & t & E & Ht & Hl); [done|by eexists|].
  exists r, w', t. split_and!; [done..|].
  apply (f_equal (λ o, if o is Ok (r, _) then r else None)) in E.
  etrans; [symmetry; exact E|by vm_compute].
Defined.
