(* ===== verification/Bytes.v ===== *)
(** Byte buffers in memory: what reading and storing them does, also next to a
    structure. *)

From S2P Require Import Prelude World Life.
#[local] Open Scope Z_scope.

(** All of [n] bytes at [p] can be written. *)
Definition buffer (m : gmap Z Z) (p n : Z) : Prop := ∀ a, p ≤ a < p + n → is_Some (m !! a).

(** The memory [m] after [l] was stored at [p]. *)
Definition stored (p : Z) (l : list Z) (m : gmap Z Z) : gmap Z Z := map_seqZ p l ∪ m.

(** [memcpy(dst, src, n)]: undefined when the ranges overlap. *)
Definition memcpy (dst src n : Z) : M world unit :=
  if (0 <? n) && (Z.abs (dst - src) <? n) then fault else
  l ← read_bytes src n; write_bytes dst l.

Lemma bytes_at_lookup m p l :
  bytes_at m p l ↔ ∀ i b, l !! i = Some b → m !! (p + Z.of_nat i) = Some b.
Proof.
  unfold bytes_at. rewrite mapM_Some, Forall2_lookup. split.
  - intros Hall i b Hi. specialize (Hall i). rewrite Hi in Hall.
    pose proof (lookup_lt_Some _ _ _ Hi).
    rewrite lookup_seqZ_lt in Hall by lia. by inversion Hall.
  - intros Hm i. destruct (l !! i) as [b|] eqn:Hi.
    + pose proof (lookup_lt_Some _ _ _ Hi). rewrite lookup_seqZ_lt by lia.
      constructor. by apply Hm.
    + apply lookup_ge_None in Hi. rewrite lookup_seqZ_ge by lia. constructor.
Qed.

Lemma bytes_at_app m p l1 l2 :
  bytes_at m p (l1 ++ l2) ↔ bytes_at m p l1 ∧ bytes_at m (p + Z.of_nat (length l1)) l2.
Proof.
  rewrite !bytes_at_lookup. split.
  - intros Hm. split; intros i b Hi.
    + apply Hm. by apply lookup_app_l_Some.
    + replace (p + _ + _) with (p + Z.of_nat (length l1 + i)) by lia. apply Hm.
      rewrite lookup_app_r by lia. by replace (length l1 + i - length l1)%nat with i by lia.
  - intros [H1 H2] i b [Hi|[Hle Hi]]%lookup_app_Some; [by apply H1|].
    apply H2 in Hi. rewrite <-Hi. f_equal. lia.
Qed.

Lemma bytes_at_drop m p l k :
  (k ≤ length l)%nat → bytes_at m p l → bytes_at m (p + Z.of_nat k) (drop k l).
Proof.
  intros Hk. rewrite <-(take_drop k l) at 1. intros [_ Hd]%bytes_at_app.
  by rewrite length_take_le in Hd.
Qed.

Lemma bytes_at_buffer m p l : bytes_at m p l → buffer m p (Z.of_nat (length l)).
Proof.
  rewrite bytes_at_lookup. intros Hm a Ha.
  destruct (lookup_lt_is_Some_2 l (Z.to_nat (a - p))) as [b Hb]; [lia|].
  apply Hm in Hb. exists b. rewrite <-Hb. f_equal. lia.
Qed.

Lemma buffer_bytes m p n :
  0 ≤ n → buffer m p n → ∃ l, bytes_at m p l ∧ Z.of_nat (length l) = n.
Proof.
  intros Hn Hb. exists ((λ a, default 0 (m !! a)) <$> seqZ p n). split.
  - apply bytes_at_lookup. intros i b. rewrite list_lookup_fmap_Some.
    intros (a & -> & [-> Hi]%lookup_seqZ). destruct (Hb (p + Z.of_nat i)) as [c Hc]; [lia|].
    by rewrite Hc.
  - rewrite length_fmap, length_seqZ. lia.
Qed.

Lemma buffer_weaken m p n q k : p ≤ q → q + k ≤ p + n → buffer m p n → buffer m q k.
Proof. intros ?? Hb a Ha. apply Hb. lia. Qed.

Lemma stored_lookup_in p l m i b :
  l !! i = Some b → stored p l m !! (p + Z.of_nat i) = Some b.
Proof.
  intros Hi. apply lookup_union_Some_l. apply lookup_map_seqZ_Some. split; [lia|].
  by replace (Z.to_nat (p + Z.of_nat i - p)) with i by lia.
Qed.

Lemma stored_lookup_out p l m a :
  a < p ∨ p + Z.of_nat (length l) ≤ a → stored p l m !! a = m !! a.
Proof. intros Ha. apply lookup_union_r, lookup_map_seqZ_None. lia. Qed.

Lemma bytes_at_stored p l m : bytes_at (stored p l m) p l.
Proof. apply bytes_at_lookup. intros i b. apply stored_lookup_in. Qed.

Lemma bytes_at_stored_out p l m q l' :
  q + Z.of_nat (length l') ≤ p ∨ p + Z.of_nat (length l) ≤ q →
  bytes_at m q l' → bytes_at (stored p l m) q l'.
Proof.
  rewrite !bytes_at_lookup. intros Hd Hm i b Hi. pose proof (lookup_lt_Some _ _ _ Hi).
  rewrite stored_lookup_out by lia. by apply Hm.
Qed.

Lemma buffer_stored p l m q n : buffer m q n → buffer (stored p l m) q n.
Proof. intros Hb a Ha. apply lookup_union_is_Some. right. by apply Hb. Qed.

Lemma stored_app p l1 l2 m :
  stored (p + Z.of_nat (length l1)) l2 (stored p l1 m) = stored p (l1 ++ l2) m.
Proof.
  unfold stored. rewrite map_seqZ_app, (assoc_L (∪)). f_equal.
  apply map_union_comm. symmetry. apply map_seqZ_app_disjoint.
Qed.

Lemma stored_nil p m : stored p [] m = m.
Proof. apply map_empty_union. Qed.

Lemma length_fill n l : length (fill n l) = Z.to_nat n.
Proof. unfold fill. by rewrite length_fmap, length_seq. Qed.

#[global] Arguments stored : simpl never.

(** * Rules *)

Lemma wp_read_bytes p l n w (Q : list Z → world → Prop) :
  bytes_at (w_mem w) p l → n = Z.of_nat (length l) → Q l w → wp (read_bytes p n) w Q.
Proof. intros Hl -> HQ. unfold wp, read_bytes. by rewrite Hl. Qed.

Lemma wp_write_bytes p l w (Q : unit → world → Prop) :
  buffer (w_mem w) p (Z.of_nat (length l)) →
  Q tt (set_mem (stored p l (w_mem w)) w) → wp (write_bytes p l) w Q.
Proof.
  intros Hb HQ. unfold wp, write_bytes.
  rewrite (proj2 (forallb_forall _ _)); [done|]. intros a Ha.
  apply bool_decide_eq_true_2, Hb. apply list_elem_of_In, elem_of_seqZ in Ha. lia.
Qed.

Section objects.
#[local] Set Default Proof Using "All".
Context `{HS : Store X}.

Lemma obj_mem w p (x : X) : w_mem (obj w p x) = w_mem w.
Proof. apply store_mem. Qed.

Lemma obj_errno_get w p (x : X) : w_errno (obj w p x) = w_errno w.
Proof. apply store_errno. Qed.

Lemma obj_set_mem w p (x : X) m : set_mem m (obj w p x) = obj (set_mem m w) p x.
Proof. unfold obj. by rewrite store_lset_mem, store_lget_mem. Qed.

Lemma wp_read_bytes_obj q l n w p (x : X) (Q : list Z → world → Prop) :
  bytes_at (w_mem w) q l → n = Z.of_nat (length l) → Q l (obj w p x) →
  wp (read_bytes q n) (obj w p x) Q.
Proof. intros Hl Hn HQ. eapply wp_read_bytes; [|done..]. by rewrite obj_mem. Qed.

Lemma wp_write_bytes_obj q l w p (x : X) (Q : unit → world → Prop) :
  buffer (w_mem w) q (Z.of_nat (length l)) →
  Q tt (obj (set_mem (stored q l (w_mem w)) w) p x) →
  wp (write_bytes q l) (obj w p x) Q.
Proof.
  intros Hb HQ. apply wp_write_bytes; rewrite obj_mem; [done|]. by rewrite obj_set_mem.
Qed.
End objects.

(** * The descriptors of a history *)

(** A call that opens or closes a descriptor, and which. *)
Definition fd_event (e : event) : option (string * Z) :=
  if decide (ev_call e = "close"%string) then Some (ev_call e, hd 0 (ev_args e))
  else if decide (ev_call e ∈ ["open"; "socket"; "accept"]%string) then Some (ev_call e, ev_ret e)
  else None.

Definition fd_events (t : list event) : list (string * Z) := omap fd_event t.

Lemma fd_events_app t t' : fd_events (t ++ t') = fd_events t ++ fd_events t'.
Proof. apply omap_app. Qed.

(** The other calls do not count. *)
Lemma fd_events_other t e : fd_event e = None → fd_events (t ++ [e]) = fd_events t.
Proof. intros He. rewrite fd_events_app. cbn. by rewrite He, app_nil_r. Qed.

(** * Blocks of bytes *)

Definition ENOMEM : Z := 12.

(** [posix_memalign(&p, alignment, n)]: its result, and [p]. The answer proposes the
    address and what the block holds; a proposal that is in use or not aligned
    counts as no memory. *)
Definition posix_memalign `{OS} (alignment n : Z) : M world (Z * Z) := λ w,
  let a := os_answer (w_trace w) "posix_memalign" [alignment; n] [] in
  let p := default NULL (head (a_data a)) in
  let ok := (a_ret a =? 0) && usable w p n && (p mod alignment =? 0) in
  let r := if ok then 0 else if a_ret a =? 0 then ENOMEM else a_ret a in
  let w' := record "posix_memalign" [alignment; n] [] (Ans r (a_errno a) []) w in
  Ok ((r, p), if ok then
                set_mem (stored p (fill n (tail (a_data a))) (w_mem w'))
                  (set_live (<[p := n]> (w_live w')) w')
              else w').

(** [qp_alloc_align] of [src/src/core/qp_memory_core.c]. *)
Definition qp_alloc_align `{OS} (alignment size : Z) : M world Z :=
  '(r, memptr) ← posix_memalign alignment size;
  mret (if 0 =? r then memptr else NULL).

(** [w1] is [w0] with one more block of [n] bytes, at [a]. *)
Definition owned (n a : Z) (w0 w1 : world) : Prop :=
  usable w0 a n = true ∧ ∃ m, outside a n m = w_mem w0 ∧ w1 ≡ₘ set_mem m (block_at a n w0).

Lemma outside_stored p n l m w :
  n = Z.of_nat (length l) → dom m ⊆ mapped_addrs w → usable w p n = true →
  outside p n (stored p l m) = m.
Proof.
  intros -> Hm Hu. apply map_eq. intros a. unfold outside. rewrite map_lookup_filter.
  destruct (decide (a < p ∨ p + Z.of_nat (length l) ≤ a)) as [Ha|Ha].
  - rewrite stored_lookup_out by done. destruct (m !! a); cbn; [|done].
    by rewrite option_guard_True.
  - assert (m !! a = None) as ->.
    { apply not_elem_of_dom. intros Hd%Hm. apply usable_cases in Hu as [_ Hu].
      by apply Ha, Hu. }
    destruct (stored p l m !! a); cbn; [|done]. by rewrite option_guard_False.
Qed.

Lemma wp_alloc_align `{OS} alignment n w (Q : Z → world → Prop) :
  0 ≤ n →
  (∀ p w', p ≠ NULL → p mod alignment = 0 → owned n p w w' → buffer (w_mem w') p n → Q p w') →
  (∀ w', w' ≡ₘ w → Q NULL w') → wp (qp_alloc_align alignment n) w Q.
Proof.
  intros Hn Hok Hnull. unfold qp_alloc_align. apply wp_bind. unfold wp, posix_memalign.
  set (a := os_answer _ _ _ _). set (p := default NULL _).
  destruct (_ && _) eqn:E; cbn.
  - apply andb_true_iff in E as [(Hr & Hu)%andb_true_iff Hal%Z.eqb_eq].
    assert (p ≠ NULL) as Hp by (apply usable_cases in Hu; unfold NULL; lia).
    assert (n = Z.of_nat (length (fill n (tail (a_data a))))) as Hlen
      by (rewrite length_fill; lia).
    apply Hok; [done|done| |].
    + split; [done|]. eexists. split; [|done].
      apply (outside_stored _ _ _ _ w); [done|unfold mapped_addrs; set_solver|done].
    + intros b Hb. apply lookup_union_is_Some. left. apply lookup_map_seqZ_is_Some. lia.
  - destruct (Z.eqb_spec (a_ret a) 0) as [E0|E0]; cbn; [by apply Hnull|].
    destruct (a_ret a) eqn:?; [done|by apply Hnull..].
Qed.

Lemma wp_malloc_owned `{OS} n w (Q : Z → world → Prop) :
  (∀ p w', p ≠ NULL → owned n p w w' → Q p w') →
  (∀ w', w' ≡ₘ w → Q NULL w') → wp (malloc n) w Q.
Proof.
  intros Hok Hnull. apply wp_malloc.
  - intros p e Hu Hp. apply Hok; [done|]. split; [done|]. exists (w_mem w). split; [|by destruct w].
    eapply usable_outside; [|done]. unfold mapped_addrs. set_solver.
  - intros e. by apply Hnull.
Qed.

Lemma owned_same n a w0 w1 w2 : w2 ≡ₘ w1 → owned n a w0 w1 → owned n a w0 w2.
Proof. intros E (Hu & m & Hm & E1). split; [done|]. exists m. split; [done|]. by etrans. Qed.

Lemma owned_live n a w0 w1 : owned n a w0 w1 → w_live w1 !! a = Some n.
Proof. intros (_ & m & _ & E). rewrite (same_live _ _ E). cbn. apply lookup_insert_eq. Qed.

Lemma unmap_owned n a w0 w1 : 0 < n → owned n a w0 w1 → unmap a n w1 ≡ₘ w0.
Proof.
  intros Hn (Hu & m & Hm & E). etrans; [by apply unmap_same, E|].
  change (unmap a n (set_mem m (block_at a n w0))) with
    (set_mem (outside a n m) (unmap a n (block_at a n w0))).
  rewrite Hm, unmap_fresh by done. by destruct w0.
Qed.

Lemma wp_free_owned `{OS} `{HM : MemStore X} n a w0 w1 q (x : X) (Q : unit → world → Prop) :
  0 < n → a ≠ NULL → owned n a w0 w1 → q < a ∨ a + n ≤ q →
  (∀ w2, w2 ≡ₘ w0 → w_trace w2 = w_trace w1 ++ [Ev "free" [a] [] 0] → Q tt (obj w2 q x)) →
  wp (free a) (obj w1 q x) Q.
Proof.
  intros Hn Ha Ho Hq HQ. eapply wp_free; [done|rewrite obj_live; by eapply owned_live|].
  rewrite obj_record, unmap_obj_out by done. rewrite obj_errno_get. apply HQ; [|done].
  etrans; [by apply unmap_same, record_quiet|]. by apply unmap_owned.
Qed.

(** ** Next to an object *)

Lemma owned_obj `{HM : MemStore X} n a w0 w' q (x : X) :
  0 < n → owned n a (obj w0 q x) w' →
  ∃ w1, w' = obj w1 q x ∧ owned n a w0 w1 ∧ (q < a ∨ a + n ≤ q).
Proof.
  intros Hn (Hu & m & Hm & E). apply usable_obj in Hu as [Hu Hq]; [|done].
  unfold block_at in E. rewrite obj_set_live, obj_live, obj_set_mem in E.
  apply same_obj in E as (w1 & E & ->). exists w1. split_and!; [done| |done].
  split; [done|]. exists m. by rewrite Hm, obj_mem.
Qed.

Lemma wp_malloc_obj `{OS} `{HM : MemStore X} n w q (x : X) (Q : Z → world → Prop) :
  0 < n →
  (∀ a w1, a ≠ NULL → owned n a w w1 → q < a ∨ a + n ≤ q → Q a (obj w1 q x)) →
  (∀ w1, w1 ≡ₘ w → Q NULL (obj w1 q x)) → wp (malloc n) (obj w q x) Q.
Proof.
  intros Hn Hok Hnull. apply wp_malloc_owned.
  - intros a w' Ha Ho. apply owned_obj in Ho as (w1 & -> & Ho & Hq); [|done]. by apply Hok.
  - intros w' E. apply same_obj in E as (w1 & E & ->). by apply Hnull.
Qed.

(** ** Blocks a structure may hold *)

(** The structure at [q] holds the block [a] of [n] bytes, or none. *)
Definition holds (n a q : Z) (w0 w1 : world) : Prop :=
  (a = NULL ∧ w1 ≡ₘ w0) ∨ (a ≠ NULL ∧ owned n a w0 w1 ∧ (q < a ∨ a + n ≤ q)).

Lemma holds_same n a q w0 w1 w2 : w2 ≡ₘ w1 → holds n a q w0 w1 → holds n a q w0 w2.
Proof.
  intros E [[? ?]|(? & ? & ?)]; [left|right]; split_and!; try done; [by etrans|].
  by eapply owned_same.
Qed.

Lemma owned_mapped n a w0 w1 : owned n a w0 w1 → mapped_addrs w0 ⊆ mapped_addrs w1.
Proof.
  intros (_ & m & Hm & E). replace (mapped_addrs w1) with (mapped_addrs (set_mem m (block_at a n w0)))
    by (symmetry; by apply (f_equal mapped_addrs) in E).
  assert (dom (w_mem w0) ⊆ dom m) by (rewrite <-Hm; apply dom_filter_subseteq).
  unfold mapped_addrs, block_at. cbn. rewrite dom_insert. set_solver.
Qed.

Lemma usable_mono w w' p n :
  mapped_addrs w ⊆ mapped_addrs w' → usable w' p n = true → usable w p n = true.
Proof.
  intros Hsub Hu. pose proof (usable_cases _ _ _ Hu) as [_ Hfresh]. unfold usable in *.
  apply andb_true_iff in Hu as [Hp _]. apply andb_true_iff. split; [done|].
  apply bool_decide_eq_true_2. intros x Hx. by apply Hfresh, Hsub.
Qed.

Lemma owned_from n a w0 w1 w2 : w0 ≡ₘ w2 → owned n a w0 w1 → owned n a w2 w1.
Proof.
  intros E (Hu & m & Hm & E1). split; [by rewrite <-(usable_same w0)|]. exists m. split.
  - rewrite Hm. by apply (f_equal w_mem) in E.
  - etrans; [done|]. unfold block_at. rewrite (same_live w0 w2) by done.
    by apply (f_equal (λ w, set_mem m (set_live (<[a:=n]> (w_live w2)) w))) in E.
Qed.

Lemma holds_from n a q w0 w1 w2 : w0 ≡ₘ w2 → holds n a q w0 w1 → holds n a q w2 w1.
Proof.
  intros E [[? ?]|(? & ? & ?)]; [left|right]; split_and!; try done; [by etrans|].
  by eapply owned_from.
Qed.

(** Blocks can go in any order. *)
Lemma owned_unmap n a n' b w0 wm w1 :
  0 < n → 0 < n' → owned n a w0 wm → owned n' b wm w1 → owned n' b w0 (unmap a n w1).
Proof.
  intros Hn Hn' Ho (Hu & m & Hm & E).
  pose proof (unmap_owned _ _ _ _ Hn Ho) as E0. eapply owned_from; [exact E0|].
  assert (a ≠ b) as Hab.
  { intros ->. apply usable_cases in Hu as [_ Hu]. apply owned_live in Ho.
    destruct (Hu b); [|lia..]. apply elem_of_dom_2 in Ho. unfold mapped_addrs. set_solver. }
  split.
  - apply (usable_mono _ wm); [|done].
    replace (mapped_addrs (unmap a n wm)) with (mapped_addrs w0)
      by (symmetry; by apply (f_equal mapped_addrs) in E0).
    by eapply owned_mapped.
  - exists (outside a n m). split.
    + unfold outside in *. rewrite map_filter_comm, Hm. done.
    + etrans; [by apply unmap_same, E|]. unfold block_at, unmap. cbn.
      by rewrite delete_insert_ne.
Qed.
