(* ===== verification/Io.v ===== *)
(** File descriptors: [src/src/core/qp_io_core.c] and [.h]. *)

From S2P Require Import Prelude World Atomic.
#[local] Open Scope Z_scope.

(** * Constants and layout (Linux, LP64) *)

Definition QP_FD_INVALID : Z := QP_ERROR.
Definition EINTR : Z := 4.
Definition EAGAIN : Z := 11.
Definition EWOULDBLOCK : Z := EAGAIN.
Definition F_GETFL : Z := 3.
Definition F_SETFL : Z := 4.
Definition O_NONBLOCK : Z := 2048.
Definition O_DSYNC : Z := 4096.
Definition sizeof_fd : Z := 24.
Definition sizeof_aiocb : Z := 168.

Definition zero_aiocb : aiocb := MkAio 0 0 0 0.
Definition zero_fd : qp_fd_s := MkFd 0 QP_FD_TYPE_UNKNOW NULL zero_aiocb false false false.

(** The value of a 64-bit result kept in an [int]. *)
Definition i32 (z : Z) : Z := (z + 2 ^ 31) mod 2 ^ 32 - 2 ^ 31.
(** The value of a [size_t] returned as [ssize_t]. *)
Definition i64 (z : Z) : Z := (z + 2 ^ 63) mod 2 ^ 64 - 2 ^ 63.

(** * Flags and fields *)

Definition qp_fd_set_inited : Z → M world unit := set_flag (set_fd_is_inited true).
Definition qp_fd_set_alloced : Z → M world unit := set_flag (set_fd_is_alloced true).
Definition qp_fd_set_noblock : Z → M world unit := set_flag (set_fd_is_noblock true).
Definition qp_fd_unset_inited : Z → M world unit := set_flag (set_fd_is_inited false).
Definition qp_fd_unset_noblock : Z → M world unit := set_flag (set_fd_is_noblock false).
Definition qp_fd_is_inited : Z → M world bool := is_flag fd_is_inited.
Definition qp_fd_is_alloced : Z → M world bool := is_flag fd_is_alloced.
Definition qp_fd_is_noblock : Z → M world bool := is_flag fd_is_noblock.
Definition qp_fd_is_aio : Z → M world bool := is_flag (λ x, negb (fd_aio x =? NULL)).
Definition qp_fd_is_valid : Z → M world bool := is_flag (λ x, negb (QP_FD_INVALID =? fd_fd x)).

Definition qp_fd_get_fd (fd : Z) : M world Z :=
  if fd =? NULL then mret QP_ERROR else ld fd_fd fd.
Definition qp_fd_type (fd : Z) : M world qp_fd_type_e :=
  if fd =? NULL then mret QP_FD_TYPE_UNKNOW else ld fd_type fd.

Section io.
Context `{OS}.

(** * Life cycle *)

Definition qp_fd_create (fd : Z) : M world Z :=
  fd ← (if fd =? NULL then
          fd ← malloc sizeof_fd;
          if fd =? NULL then mret NULL else
          new fd zero_fd;; qp_fd_set_alloced fd;; mret fd
        else st (λ _, zero_fd) fd;; mret fd);
  if fd =? NULL then mret NULL else
  st (set_fd_fd QP_FD_INVALID) fd;;
  st (set_fd_type QP_FD_TYPE_UNKNOW) fd;;
  qp_fd_set_inited fd;; mret fd.

Definition qp_fd_init (fd : Z) (type : qp_fd_type_e) (aio : bool) : M world Z :=
  fd ← qp_fd_create fd;
  if fd =? NULL then mret NULL else
  (if aio then a ← malloc sizeof_aiocb; st (set_fd_aio a) fd else mret tt);;
  st (set_fd_type type) fd;; mret fd.

Definition qp_fd_close (fd : Z) : M world Z :=
  valid ← qp_fd_is_valid fd;
  if negb valid then mret QP_ERROR else
  ret ← ld fd_fd fd;
  st (set_fd_fd QP_FD_INVALID) fd;;
  call "close" [ret].

Definition qp_fd_destroy (fd : Z) : M world Z :=
  inited ← qp_fd_is_inited fd;
  if negb inited then mret QP_ERROR else
  qp_fd_close fd;;
  st (set_fd_type QP_FD_TYPE_UNKNOW) fd;;
  aio ← ld fd_aio fd;
  (if negb (aio =? NULL) then free aio;; st (set_fd_aio NULL) fd else mret tt);;
  qp_fd_unset_noblock fd;; qp_fd_unset_inited fd;;
  alloced ← qp_fd_is_alloced fd;
  (if (alloced : bool) then free fd else mret tt);; mret QP_SUCCESS.

(** * Blocking mode *)

Definition qp_fd_setNoBlock (fd : Z) : M world Z :=
  if fd =? NULL then mret QP_ERROR else
  aio ← ld fd_aio fd;
  if negb (aio =? NULL) then mret QP_ERROR else
  noblock ← qp_fd_is_noblock fd;
  if (noblock : bool) then mret QP_SUCCESS else
  n ← ld fd_fd fd;
  flags ← call "fcntl" [n; F_GETFL];
  r ← call "fcntl" [n; F_SETFL; Z.lor O_NONBLOCK flags];
  if QP_SUCCESS =? r then qp_fd_set_noblock fd;; mret QP_SUCCESS else mret QP_ERROR.

Definition qp_fd_setBlock (fd : Z) : M world Z :=
  if fd =? NULL then mret QP_ERROR else
  aio ← ld fd_aio fd;
  if negb (aio =? NULL) then mret QP_ERROR else
  noblock ← qp_fd_is_noblock fd;
  if negb noblock then mret QP_SUCCESS else
  n ← ld fd_fd fd;
  flags ← call "fcntl" [n; F_GETFL];
  r ← call "fcntl" [n; F_SETFL; Z.land (Z.lnot O_NONBLOCK) flags];
  if QP_SUCCESS =? r then qp_fd_unset_noblock fd;; mret QP_SUCCESS else mret QP_ERROR.

(** * Transfers *)

(** [write(fd, vptr, n)] passes [n] bytes; [read(fd, vptr, n)] stores as many as it
    returns. *)
Definition sys_write (n vptr nbytes : Z) : M world Z :=
  data ← read_bytes vptr nbytes;
  a ← ext "write" [n; nbytes] data; mret (a_ret a).

Definition sys_read (n vptr nbytes : Z) : M world Z :=
  a ← ext "read" [n; nbytes] [];
  write_bytes vptr (fill (a_ret a) (a_data a));; mret (a_ret a).

Definition qp_fd_write (fd vptr nbytes : Z) : M world Z :=
  n ← ld fd_fd fd; sys_write n vptr nbytes.

Definition qp_fd_read (fd vptr nbytes : Z) : M world Z :=
  n ← ld fd_fd fd; sys_read n vptr nbytes.

(** [(EINTR == errno) || (EAGAIN == errno) || (EWOULDBLOCK == errno)] *)
Definition again (e : Z) : bool := (EINTR =? e) || (EAGAIN =? e) || (EWOULDBLOCK =? e).

(** What both loops do with the result of a call: give up, or go on behind what was
    transferred. *)
Definition transferred (ndone vptr ret : Z) : M world (Z * Z + Z) :=
  if ret <? 1 then
    e ← get_errno;
    if (ret <? 0) && again e then mret (inl (ndone, vptr)) else mret (inr ndone)
  else mret (inl (u64 (ndone + ret), vptr + ret)).

Definition qp_fd_writen_body (fd nbytes : Z) (v : Z * Z) : M world (Z * Z + Z) :=
  let '(ndone, vptr) := v in
  if ndone <? nbytes then
    n ← ld fd_fd fd;
    ret ← sys_write n vptr (u64 (nbytes - ndone));
    transferred ndone vptr (i32 ret)
  else mret (inr ndone).

(** [fuel] bounds the calls. *)
Definition qp_fd_writen (fuel : nat) (fd vptr nbytes : Z) : M world Z :=
  loop fuel (qp_fd_writen_body fd nbytes) (0, vptr).

Definition qp_fd_readn_body (fd nbytes : Z) (v : Z * Z) : M world (Z * Z + Z) :=
  let '(ndone, vptr) := v in
  if 0 <? nbytes then
    n ← ld fd_fd fd;
    ret ← sys_read n vptr (u64 (nbytes - ndone));
    transferred ndone vptr (i32 ret)
  else mret (inr ndone).

Definition qp_fd_readn (fuel : nat) (fd vptr nbytes : Z) : M world Z :=
  loop fuel (qp_fd_readn_body fd nbytes) (0, vptr).

(** A vector of [iovec], as addresses and lengths. *)
Fixpoint gather (iov : list (Z * Z)) : M world (list Z) :=
  match iov with
  | [] => mret []
  | (base, len) :: iov => l ← read_bytes base len; l' ← gather iov; mret (l ++ l')
  end.

Fixpoint scatter (iov : list (Z * Z)) (l : list Z) : M world unit :=
  match iov with
  | [] => mret tt
  | (base, len) :: iov =>
      write_bytes base (take (Z.to_nat len) l);; scatter iov (drop (Z.to_nat len) l)
  end.

Definition qp_fd_writev (fd : Z) (iov : list (Z * Z)) (iovcnt : Z) : M world Z :=
  n ← ld fd_fd fd;
  data ← gather (take (Z.to_nat iovcnt) iov);
  a ← ext "writev" [n; iovcnt] data; mret (a_ret a).

Definition qp_fd_readv (fd : Z) (iov : list (Z * Z)) (iovcnt : Z) : M world Z :=
  n ← ld fd_fd fd;
  a ← ext "readv" (n :: iovcnt :: (snd <$> iov)) [];
  scatter (take (Z.to_nat iovcnt) iov) (fill (a_ret a) (a_data a));; mret (a_ret a).

(** * Asynchronous transfers *)

Definition set_aio (upd : aiocb → aiocb) (fd : Z) : M world unit :=
  st (λ x, set_fd_aiocb (upd (fd_aiocb x)) x) fd.

Definition qp_fd_aio_sync (fd : Z) : M world Z :=
  aio ← ld fd_aio fd;
  if aio =? NULL then mret QP_ERROR else
  n ← ld fd_fd fd;
  set_aio (set_aio_fildes n) fd;;
  call "aio_fsync" [O_DSYNC; aio; n].

Definition qp_fd_aio_stat (fd : Z) : M world Z :=
  aio ← ld fd_aio fd;
  if aio =? NULL then mret QP_ERROR else
  n ← ld fd_fd fd;
  set_aio (set_aio_fildes n) fd;;
  call "aio_error" [aio; n].

(** The call is given the control block: its address and what was put in it. *)
Definition aio_submit (name : string) (fd vptr nbytes offset : Z) : M world Z :=
  aio ← ld fd_aio fd;
  if aio =? NULL then mret 0 else
  n ← ld fd_fd fd;
  set_aio (set_aio_fildes n) fd;;
  set_aio (set_aio_buf vptr) fd;;
  set_aio (set_aio_nbytes nbytes) fd;;
  set_aio (set_aio_offset offset) fd;;
  cb ← ld fd_aiocb fd;
  call name [aio; aio_fildes cb; aio_buf cb; aio_nbytes cb; aio_offset cb].

Definition qp_fd_aio_write : Z → Z → Z → Z → M world Z := aio_submit "aio_write".
Definition qp_fd_aio_read : Z → Z → Z → Z → M world Z := aio_submit "aio_read".
End io.
