(* ===== verification/IoProps.v ===== *)
(** Transfers on file descriptors move the bytes they report, and end; descriptors
    give back what they own. *)

From S2P Require Import Prelude World Life Bytes Atomic Io.
#[local] Open Scope Z_scope.

(** * The system *)

(** The calls that failed so far. *)
Definition failures (t : list event) : nat := length (filter (λ e, ev_ret e < 0) t).

(** What a system promises of [read] or [write]: -1 or at most the bytes asked for,
    and never more than Linux transfers at once; and no more than [k] failures
    that ask for another try (one at a time, an interrupted or a blocking
    transfer). *)
Record transfer_law `{OS} (name : string) (k : nat) : Prop := {
  tl_range t n nbytes data :
    0 ≤ nbytes → -1 ≤ a_ret (os_answer t name [n; nbytes] data) ≤ nbytes;
  tl_max t n nbytes data : a_ret (os_answer t name [n; nbytes] data) ≤ 0x7ffff000;
  tl_patience t args data :
    a_ret (os_answer t name args data) < 0 →
    again (a_errno (os_answer t name args data)) = true → (failures t < k)%nat;
}.

Lemma i32_small z : -2 ^ 31 ≤ z < 2 ^ 31 → i32 z = z.
Proof. intros Hz. unfold i32. rewrite Z.mod_small; lia. Qed.

Lemma failures_snoc t e :
  failures (t ++ [e]) = (failures t + if decide (ev_ret e < 0)%Z then 1 else 0)%nat.
Proof.
  unfold failures. rewrite filter_app, length_app. f_equal.
  destruct (decide (ev_ret e < 0)).
  - by rewrite filter_cons_True.
  - by rewrite filter_cons_False.
Qed.

(** The bytes the system took, and the last call, which ended the transfer. *)
Definition accepted (t : list event) : list Z :=
  concat ((λ e, take (Z.to_nat (ev_ret e)) (ev_data e)) <$> t).

Lemma accepted_snoc t e :
  accepted (t ++ [e]) = accepted t ++ take (Z.to_nat (ev_ret e)) (ev_data e).
Proof. unfold accepted. rewrite fmap_app, concat_app. cbn. by rewrite app_nil_r. Qed.

(** The bytes the system gave to the calls [t] after the history [h]. *)
Fixpoint received `{OS} (h t : list event) : list Z :=
  match t with
  | [] => []
  | e :: t => fill (ev_ret e) (a_data (os_answer h (ev_call e) (ev_args e) (ev_data e))) ++
              received (h ++ [e]) t
  end.

Lemma received_snoc `{OS} h t e :
  received h (t ++ [e]) =
  received h t ++ fill (ev_ret e) (a_data (os_answer (h ++ t) (ev_call e) (ev_args e) (ev_data e))).
Proof.
  revert h. induction t as [|e' t IH]; intros h; cbn [received app].
  - by rewrite !app_nil_r.
  - rewrite IH, <-!app_assoc. do 3 f_equal.
Qed.

(** A transfer ended short of what was asked for: the last call did not deliver. *)
Definition gave_up (t : list event) : Prop := ∃ t' e, t = t' ++ [e] ∧ ev_ret e ≤ 0.

Section transfers.
Context `{OS}.

(** One more call: what its result does to the loop. *)
Lemma transferred_spec ndone vptr ret w (x : qp_fd_s) fd (Q : Z * Z + Z → world → Prop) :
  (ret < 0 → again (w_errno w) = true → Q (inl (ndone, vptr)) (obj w fd x)) →
  (ret ≤ 0 → Q (inr ndone) (obj w fd x)) →
  (0 < ret → Q (inl (u64 (ndone + ret), vptr + ret)) (obj w fd x)) →
  wp (transferred ndone vptr ret) (obj w fd x) Q.
Proof.
  intros Hagain Hstop Hgo. unfold transferred, get_errno.
  destruct (Z.ltb_spec ret 1) as [Hr|Hr]; [|ostep; apply Hgo; lia].
  ostep. apply wp_gets.
  replace (w_errno (obj w fd x)) with (w_errno w) by (symmetry; apply store_errno).
  destruct (Z.ltb_spec ret 0); cbn; [destruct (again _) eqn:E|]; ostep.
  - by apply Hagain.
  - apply Hstop. lia.
  - apply Hstop. lia.
Qed.

(** [ndone] bytes of [l] are written, the rest is at [vptr]. *)
Definition writing (k : nat) (fd : Z) (x : qp_fd_s) (p : Z) (l : list Z) (w : world)
    (n : nat) (v : Z * Z) (w' : world) : Prop :=
  ∃ w1 t j, v = (Z.of_nat j, p + Z.of_nat j) ∧ (j ≤ length l)%nat ∧ w' = obj w1 fd x ∧
    w1 ≡ₘ w ∧ w_trace w1 = w_trace w ++ t ∧ accepted t = take j l ∧
    n = (length l - j + (k - failures (w_trace w1)))%nat.

Lemma writing_round k fd x p l w n v w' :
  fd ≠ NULL → transfer_law "write" k → bytes_at (w_mem w) p l →
  Z.of_nat (length l) < 2 ^ 64 → writing k fd x p l w n v w' →
  wp (qp_fd_writen_body fd (Z.of_nat (length l)) v) w' (λ r w2,
    match r with
    | inl v' => ∃ n', (n' < n)%nat ∧ writing k fd x p l w n' v' w2
    | inr r => ∃ w1 t j, r = Z.of_nat j ∧ (j ≤ length l)%nat ∧ w2 = obj w1 fd x ∧ w1 ≡ₘ w ∧
        w_trace w1 = w_trace w ++ t ∧ accepted t = take j l ∧ ((j < length l)%nat → gave_up t)
    end).
Proof.
  intros Hfd Hlaw Hl Hlen (w1 & t & j & -> & Hj & -> & E & Ht & Hacc & ->).
  unfold qp_fd_writen_body. destruct (Z.ltb_spec (Z.of_nat j) (Z.of_nat (length l))) as [Hlt|Hge].
  2: { ostep. exists w1, t, j. split_and!; [done..|lia]. }
  unfold sys_write. repeat ostep.
  rewrite wrap_small by lia.
  eapply (wp_read_bytes_obj _ (drop j l)).
  { apply bytes_at_drop; [done|]. apply (f_equal w_mem) in E. cbn in E. by rewrite E. }
  { rewrite length_drop. lia. }
  repeat ostep. set (nb := Z.of_nat (length l) - Z.of_nat j) in *.
  assert (-1 ≤ a_ret a ≤ nb) as Hrange by (subst a; apply Hlaw; lia).
  assert (a_ret a ≤ 0x7ffff000) as Hmax by (subst a; apply Hlaw).
  rewrite i32_small by lia. set (e := Ev "write" [fd_fd x; nb] (drop j l) (a_ret a)).
  assert (w_trace (record "write" [fd_fd x; nb] (drop j l) a w1) = w_trace w ++ (t ++ [e])) as Ht2
    by by rewrite record_trace, Ht, <-app_assoc.
  assert (record "write" [fd_fd x; nb] (drop j l) a w1 ≡ₘ w) as E2 by done.
  assert (a_ret a ≤ 0 → accepted (t ++ [e]) = take j l) as Hnone.
  { intros Hr. rewrite accepted_snoc, Hacc. cbn. rewrite Z2Nat.nonpos by done.
    by rewrite take_0, app_nil_r. }
  apply transferred_spec.
  - intros Hr Hag. eexists. split; [|eexists _, _, j; split_and!; try done; by apply Hnone; lia].
    rewrite Ht2, app_assoc, <-Ht, failures_snoc, decide_True by done.
    assert (failures (w_trace w1) < k)%nat; [|lia].
    apply (tl_patience _ _ Hlaw _ [fd_fd x; nb] (drop j l)); by subst a.
  - intros Hr. eexists _, _, j. split_and!; try done; [by apply Hnone|].
    intros _. exists t, e. done.
  - intros Hr. rewrite wrap_small by lia. eexists.
    split; [|eexists _, _, (j + Z.to_nat (a_ret a))%nat; split_and!; try done; try lia].
    + rewrite Ht2, app_assoc, <-Ht, failures_snoc, decide_False by (cbn; lia). lia.
    + f_equal; lia.
    + rewrite accepted_snoc, Hacc. cbn. by rewrite take_take_drop.
Qed.
(** [j] bytes were received, and lie at [p]. *)
Definition reading (k : nat) (fd : Z) (x : qp_fd_s) (p nbytes : Z) (w : world)
    (n : nat) (v : Z * Z) (w' : world) : Prop :=
  ∃ w1 t j, v = (Z.of_nat j, p + Z.of_nat j) ∧ Z.of_nat j ≤ nbytes ∧ w' = obj w1 fd x ∧
    w1 ≡ₘ set_mem (stored p (received (w_trace w) t) (w_mem w)) w ∧
    w_trace w1 = w_trace w ++ t ∧ length (received (w_trace w) t) = j ∧
    n = (Z.to_nat nbytes - j + (k - failures (w_trace w1)))%nat.

Lemma reading_round k fd x p nbytes w n v w' :
  fd ≠ NULL → transfer_law "read" k → buffer (w_mem w) p nbytes →
  0 ≤ nbytes < 2 ^ 64 → reading k fd x p nbytes w n v w' →
  wp (qp_fd_readn_body fd nbytes v) w' (λ r w2,
    match r with
    | inl v' => ∃ n', (n' < n)%nat ∧ reading k fd x p nbytes w n' v' w2
    | inr r => ∃ w1 t, r = Z.of_nat (length (received (w_trace w) t)) ∧ r ≤ nbytes ∧
        w2 = obj w1 fd x ∧ w1 ≡ₘ set_mem (stored p (received (w_trace w) t) (w_mem w)) w ∧
        w_trace w1 = w_trace w ++ t ∧ (0 < nbytes → gave_up t)
    end).
Proof.
  intros Hfd Hlaw Hb Hlen (w1 & t & j & -> & Hj & -> & E & Ht & Hrec & ->).
  unfold qp_fd_readn_body. destruct (Z.ltb_spec 0 nbytes) as [Hlt|Hge].
  2: { ostep. exists w1, t. rewrite Hrec. split_and!; [done..|lia]. }
  unfold sys_read. rewrite (wrap_small _ (nbytes - Z.of_nat j)) by lia. repeat ostep.
  set (nb := nbytes - Z.of_nat j) in *.
  assert (-1 ≤ a_ret a ≤ nb) as Hrange by (subst a; apply Hlaw; lia).
  assert (a_ret a ≤ 0x7ffff000) as Hmax by (subst a; apply Hlaw).
  set (e := Ev "read" [fd_fd x; nb] [] (a_ret a)). set (l := fill (a_ret a) (a_data a)).
  set (w2 := record _ _ _ _ w1).
  assert (received (w_trace w) (t ++ [e]) = received (w_trace w) t ++ l) as Hrec2.
  { rewrite received_snoc. unfold l. do 3 f_equal. cbn. by rewrite <-Ht. }
  assert (w_mem w1 = stored p (received (w_trace w) t) (w_mem w)) as Em
    by by apply (f_equal w_mem) in E.
  assert (length l = Z.to_nat (a_ret a)) as Hl by apply length_fill.
  apply wp_write_bytes_obj.
  { change (w_mem w2) with (w_mem w1). rewrite Em. apply buffer_stored.
    eapply (buffer_weaken _ p nbytes); [lia..|done]. }
  repeat ostep. rewrite i32_small by lia. set (w3 := set_mem _ w2).
  assert (w3 ≡ₘ set_mem (stored p (received (w_trace w) (t ++ [e])) (w_mem w)) w) as E3.
  { unfold w3. change (w_mem w2) with (w_mem w1). rewrite Em, Hrec2, <-stored_app, Hrec.
    by apply (f_equal (set_mem (stored (p + Z.of_nat j) l (stored p (received (w_trace w) t)
      (w_mem w))))) in E. }
  assert (w_trace w3 = w_trace w ++ (t ++ [e])) as Ht3
    by (change (w_trace w3) with (w_trace w1 ++ [e]); by rewrite Ht, <-app_assoc).
  assert (length (received (w_trace w) (t ++ [e])) = (j + Z.to_nat (a_ret a))%nat) as Hrec3
    by by rewrite Hrec2, length_app, Hrec, Hl.
  apply transferred_spec.
  - intros Hr Hag. eexists. split; [|eexists w3, _, j; split_and!; try done; lia].
    rewrite Ht3, app_assoc, <-Ht, failures_snoc, decide_True by done.
    assert (failures (w_trace w1) < k)%nat; [|lia].
    apply (tl_patience _ _ Hlaw _ [fd_fd x; nb] []); by subst a.
  - intros Hr. exists w3, (t ++ [e]). split_and!; try done; [lia|]. intros _. by exists t, e.
  - intros Hr. rewrite wrap_small by lia. eexists.
    split; [|eexists w3, _, (j + Z.to_nat (a_ret a))%nat; split_and!; try done; try lia].
    + rewrite Ht3, app_assoc, <-Ht, failures_snoc, decide_False by (cbn; lia). lia.
    + f_equal; lia.
Qed.

(** C16. [qp_fd_writen] ends, and what it reports is what was written: the bytes the
    system accepted, in all its calls together, are the first [r] bytes of the
    buffer, in order and none twice; memory is as before; and it only stops short
    of [nbytes] after a call that failed or delivered nothing. *)
Theorem writen_writes_prefix k fuel fd vptr l w x :
  fd ≠ NULL → w_fds w !! fd = Some x → transfer_law "write" k →
  bytes_at (w_mem w) vptr l → Z.of_nat (length l) < 2 ^ 64 → (length l + k < fuel)%nat →
  ∃ r w' t, qp_fd_writen fuel fd vptr (Z.of_nat (length l)) w = Ok (Z.of_nat r, w') ∧
    (r ≤ length l)%nat ∧ w' ≡ₘ w ∧ w_trace w' = w_trace w ++ t ∧
    accepted t = take r l ∧ ((r < length l)%nat → gave_up t).
Proof.
  intros Hfd Hx Hlaw Hl Hlen Hfuel.
  assert (writing k fd x vptr l w (length l + (k - failures (w_trace w))) (0, vptr) w) as Hinit.
  { exists w, [], 0%nat. split_and!; try done.
    - f_equal. lia.
    - lia.
    - by apply obj_id.
    - by rewrite app_nil_r.
    - by rewrite Nat.sub_0_r. }
  eapply (wp_loop _ _ _ (λ n v w', writing_round k fd x vptr l w n v w' Hfd Hlaw Hl Hlen) fuel)
    in Hinit; [|lia].
  apply wp_elim in Hinit as (r & w' & Hrun & w1 & t & j & -> & Hj & -> & E & Ht & Hacc & Hg).
  exists j, (obj w1 fd x), t. rewrite obj_trace. split_and!; try done.
  etrans; [by apply obj_same, E|]. by rewrite <-(obj_id w fd x).
Qed.

(** C17. [qp_fd_readn] ends, and the buffer holds what it reports: the [r] bytes the
    system gave, in order, lie at the start of the buffer and nothing else in
    memory has changed. Its last call always delivers nothing: the loop, whose
    test never changes, asks for 0 bytes once it has them all. *)
Theorem readn_reads_prefix k fuel fd vptr nbytes w x :
  fd ≠ NULL → w_fds w !! fd = Some x → transfer_law "read" k →
  buffer (w_mem w) vptr nbytes → 0 ≤ nbytes < 2 ^ 64 → (Z.to_nat nbytes + k < fuel)%nat →
  ∃ r w' t, qp_fd_readn fuel fd vptr nbytes w = Ok (r, w') ∧ r ≤ nbytes ∧
    r = Z.of_nat (length (received (w_trace w) t)) ∧
    w' ≡ₘ set_mem (stored vptr (received (w_trace w) t) (w_mem w)) w ∧
    w_trace w' = w_trace w ++ t ∧ (0 < nbytes → gave_up t).
Proof.
  intros Hfd Hx Hlaw Hb Hlen Hfuel.
  assert (reading k fd x vptr nbytes w (Z.to_nat nbytes + (k - failures (w_trace w))) (0, vptr) w)
    as Hinit.
  { exists w, [], 0%nat. cbn [received length]. split_and!; try done.
    - f_equal. lia.
    - lia.
    - by apply obj_id.
    - rewrite stored_nil. by destruct w.
    - by rewrite app_nil_r.
    - by rewrite Nat.sub_0_r. }
  eapply (wp_loop _ _ _ (λ n v w', reading_round k fd x vptr nbytes w n v w' Hfd Hlaw Hb Hlen) fuel)
    in Hinit; [|lia].
  apply wp_elim in Hinit as (r & w' & Hrun & w1 & t & Hr & Hle & -> & E & Ht & Hg).
  exists r, (obj w1 fd x), t. rewrite obj_trace. split_and!; try done.
  etrans; [by apply obj_same, E|]. by rewrite <-obj_set_mem, <-(obj_id w fd x).
Qed.
End transfers.

(** * Life cycle *)

Section life.
Context `{OS}.

(** What a descriptor at [q] owns: the block of its control block, if any. *)
Definition fd_owns (x : qp_fd_s) : Z → world → world → Prop := holds sizeof_aiocb (fd_aio x).

Definition fd_alive (p : Z) (w : world) (q : Z) (x : qp_fd_s) (w' : world) : Prop :=
  q ≠ NULL ∧ fd_is_inited x = true ∧ fd_is_alloced x = (p =? NULL) ∧
  ∃ w0 w1, created w p sizeof_fd q w0 ∧ fd_owns x q w0 w1 ∧ w' = obj w1 q x.

Lemma fd_init_spec p type aio w (Q : Z → world → Prop) :
  (p ≠ NULL → is_Some (w_fds w !! p)) →
  (∀ q x w', fd_alive p w q x w' → fd_fd x = QP_FD_INVALID → fd_type x = type →
     fd_is_noblock x = false → (aio = false → fd_aio x = NULL) → Q q w') →
  (∀ w', gone (X := qp_fd_s) p w w' → Q NULL w') →
  wp (qp_fd_init p type aio) w Q.
Proof.
  intros Hp Hok Hnull. unfold qp_fd_init, qp_fd_create. ostep. ostep. ocreate.
  2: { intros w1 Hg. repeat ostep. by apply Hnull. }
  intros q w1 Hq Hc. rewrite (proj2 (Z.eqb_neq q NULL)) by done. unfold qp_fd_set_inited.
  repeat ostep. rewrite (proj2 (Z.eqb_neq q NULL)) by done. ostep.
  set (y := set_fd_is_inited _ _).
  assert (fd_is_inited y = true ∧ fd_is_alloced y = (p =? NULL) ∧ fd_aio y = NULL ∧
    fd_fd y = QP_FD_INVALID ∧ fd_is_noblock y = false) as (Hi & Ha & Hn & Hf & Hb)
    by (unfold y; by destruct (p =? NULL)).
  clearbody y.
  assert (∀ a w2, fd_owns (set_fd_aio a y) q w1 w2 → (aio = false → a = NULL) →
    Q q (obj w2 q (set_fd_type type (set_fd_aio a y)))) as Hend.
  { intros a w2 Ho Haio. eapply (Hok q (set_fd_type type (set_fd_aio a y))); try done.
    split_and!; [done..|]. by exists w1, w2. }
  destruct aio.
  - ostep. apply wp_malloc_obj; [done| |].
    + intros a w2 Hne Ho Hd. repeat ostep. apply Hend; [|done]. right. by split_and!.
    + intros w2 E. repeat ostep. apply Hend; [|done]. by left.
  - repeat ostep. replace y with (set_fd_aio NULL y) by (by destruct y; cbn in *; subst).
    apply Hend; [|done]. by left.
Qed.

(** What is closed when a descriptor goes. *)
Definition closing (n : Z) : list (string * Z) :=
  if decide (n = QP_FD_INVALID) then [] else [("close"%string, n)].
Definition closed_once (x : qp_fd_s) (w w' : world) : Prop :=
  fd_events (w_trace w') = fd_events (w_trace w) ++ closing (fd_fd x).

(** What it owns is given back, and its number closed once. *)
Lemma fd_close_spec q x w (Q : Z → world → Prop) :
  q ≠ NULL →
  (∀ r w', w' ≡ₘ w → closed_once x w w' → Q r (obj w' q (set_fd_fd QP_FD_INVALID x))) →
  wp (qp_fd_close q) (obj w q x) Q.
Proof.
  intros Hq HQ. unfold qp_fd_close, qp_fd_is_valid. repeat ostep.
  destruct (Z.eqb_spec QP_FD_INVALID (fd_fd x)) as [E|E]; cbn [negb].
  - ostep. replace x with (set_fd_fd QP_FD_INVALID x) at 1 by (by destruct x; cbn in *; subst).
    apply HQ; [done|]. unfold closed_once, closing. rewrite decide_True by done.
    by rewrite app_nil_r.
  - repeat ostep. apply HQ; [done|]. unfold closed_once, closing.
    rewrite record_trace, fd_events_app, decide_False by done. done.
Qed.

(** What [qp_fd_destroy] makes of a descriptor. *)
Definition dead_fd (x : qp_fd_s) : qp_fd_s :=
  MkFd QP_FD_INVALID QP_FD_TYPE_UNKNOW NULL (fd_aiocb x) false (fd_is_alloced x) false.

Lemma fd_destroy_run q x w0 w1 (Q : Z → world → Prop) :
  q ≠ NULL → fd_is_inited x = true → fd_owns x q w0 w1 →
  (∀ w2, w2 ≡ₘ w0 → closed_once x w1 w2 →
     wp ((if fd_is_alloced x then free q else mret tt);; mret QP_SUCCESS)
       (obj w2 q (dead_fd x)) Q) →
  wp (qp_fd_destroy q) (obj w1 q x) Q.
Proof.
  intros Hq Hi Ho HQ. unfold qp_fd_destroy, qp_fd_is_inited, qp_fd_unset_noblock,
    qp_fd_unset_inited, qp_fd_is_alloced.
  repeat ostep. rewrite Hi. repeat ostep. apply fd_close_spec; [done|].
  intros _ w2 E Hcl. repeat ostep. destruct x as [n ty aio cb i al nb].
  cbn [fd_aio set_fd_aio set_fd_fd set_fd_type fd_is_inited] in *. subst i.
  destruct Ho as [[Ha E1]|(Ha & Ho & Hd)]; cbn [fd_aio] in *.
  - subst aio. repeat (lazymatch goal with
      | |- wp ((if _ then free _ else _) ≫= _) _ _ => fail | _ => ostep end).
    apply HQ; [by etrans|done].
  - rewrite (proj2 (Z.eqb_neq aio NULL)) by done. do 2 ostep.
    eapply (wp_free_owned sizeof_aiocb); [done|done|by eapply owned_same|done|].
    intros w3 E3 Ht. repeat (lazymatch goal with
      | |- wp ((if _ then free _ else _) ≫= _) _ _ => fail | _ => ostep end).
    apply HQ; [done|].
    unfold closed_once in *. by rewrite Ht, fd_events_other.
Qed.

(** C21. A descriptor is taken down completely: whatever the system answers, a failed
    [qp_fd_init] leaves memory as it was; and [qp_fd_destroy] gives back the
    structure and its control block, so that memory is as before, and closes the
    number the owner put in it, once, and nothing when there was none. *)
Theorem fd_life_balanced p type aio w :
  (p ≠ NULL → is_Some (w_fds w !! p)) →
  ∃ q w1, qp_fd_init p type aio w = Ok (q, w1) ∧
    (q = NULL → gone (X := qp_fd_s) p w w1) ∧
    (q ≠ NULL → ∀ n, ∃ w2, (st (set_fd_fd n) q;; qp_fd_destroy q) w1 = Ok (QP_SUCCESS, w2) ∧
       gone (X := qp_fd_s) p w w2 ∧
       fd_events (w_trace w2) = fd_events (w_trace w1) ++ closing n).
Proof.
  intros Hp. apply wp_elim. apply fd_init_spec; [done| |].
  2: { intros w1 Hg. by split. }
  intros q x w' (Hq & Hi & Ha & w0 & w1 & Hc & Ho & ->) _ _ _ _. split; [done|].
  intros _ n.
  assert (wp (st (set_fd_fd n) q;; qp_fd_destroy q) (obj w1 q x) (λ r w2, r = QP_SUCCESS ∧
       gone (X := qp_fd_s) p w w2 ∧
       fd_events (w_trace w2) = fd_events (w_trace w1) ++ closing n)) as Hwp.
  2: { apply wp_elim in Hwp as (? & w2 & E & -> & ?). exists w2. by rewrite obj_trace. }
  repeat ostep. eapply fd_destroy_run; [done|done|destruct Ho; [by left|by right]|].
  intros w2 E Hcl. eapply (wp_release_trace w p sizeof_fd); [done|by eapply created_same|done|].
  intros w3 Hg Ht. split_and!; [done|done|]. rewrite Ht. etrans; [|exact Hcl].
  destruct (p =? NULL); [by apply fd_events_other|by rewrite app_nil_r].
Qed.
End life.

(** A system that transfers at most two bytes at a time, gives out 1, 2, ..., and
    is interrupted once, at its second call. *)
Definition slow_system : OS := {|
  os_answer t name args data :=
    if (length t =? 1)%nat then Ans (-1) EINTR []
    else Ans (Z.max (-1) (Z.min 2 (nth 1 args (-1)))) 0 [Z.of_nat (length t) + 1; 9];
  pthread_self := 7;
  getpid := 100;
|}.

Lemma failures_le t : (failures t ≤ length t)%nat.
Proof. apply length_filter. Qed.

Lemma slow_system_law name : @transfer_law slow_system name 2.
Proof.
  split.
  - intros t n nbytes data Hn. cbn. case_match; cbn; lia.
  - intros t n nbytes data. cbn. case_match; cbn; lia.
  - intros t args data. cbn. destruct (Nat.eqb_spec (length t) 1) as [Ht|]; [|done].
    intros _ _. pose proof (failures_le t). lia.
Qed.

Definition io_world (bytes : list Z) : world :=
  obj (set_mem (map_seqZ 100 bytes) empty_world) 4096
    (MkFd 5 QP_FD_TYPE_FILE NULL zero_aiocb true false false).

Lemma writen_writes_prefix_witness :
  ∃ r w' t, @qp_fd_writen slow_system 9 4096 100 3 (io_world [1; 2; 3]) = Ok (Z.of_nat r, w') ∧
    (r ≤ 3)%nat ∧ w' ≡ₘ io_world [1; 2; 3] ∧ w_trace w' = [] ++ t ∧
    accepted t = take r [1; 2; 3] ∧ ((r < 3)%nat → gave_up t).
Proof.
  apply (@writen_writes_prefix slow_system 2 9 4096 100 [1; 2; 3] (io_world [1; 2; 3])
    (MkFd 5 QP_FD_TYPE_FILE NULL zero_aiocb true false false)).
  - done.
  - by vm_compute.
  - apply slow_system_law.
  - by vm_compute.
  - done.
  - cbn. lia.
Defined.

Lemma readn_reads_prefix_witness :
  ∃ r w' t, @qp_fd_readn slow_system 9 4096 100 3 (io_world [0; 0; 0]) = Ok (r, w') ∧ r ≤ 3 ∧
    r = Z.of_nat (length (@received slow_system [] t)) ∧
    w' ≡ₘ set_mem (stored 100 (@received slow_system [] t) (w_mem (io_world [0; 0; 0])))
           (io_world [0; 0; 0]) ∧
    w_trace w' = [] ++ t ∧ (0 < 3 → gave_up t).
Proof.
  apply (@readn_reads_prefix slow_system 2 9 4096 100 3 (io_world [0; 0; 0])
    (MkFd 5 QP_FD_TYPE_FILE NULL zero_aiocb true false false)).
  - done.
  - by vm_compute.
  - apply slow_system_law.
  - apply (bytes_at_buffer _ 100 [0; 0; 0]). by vm_compute.
  - done.
  - cbn. lia.
Defined.

Lemma fd_life_balanced_witness :
  ∃ q w1, @qp_fd_init (answers [8192]) 4096 QP_FD_TYPE_FILE true (io_world []) = Ok (q, w1) ∧
    (q = NULL → gone (X := qp_fd_s) 4096 (io_world []) w1) ∧
    (q ≠ NULL → ∀ n, ∃ w2,
       @mbind _ _ _ _ (λ _, @qp_fd_destroy (answers [8192]) q) (st (set_fd_fd n) q) w1 =
         Ok (QP_SUCCESS, w2) ∧
       gone (X := qp_fd_s) 4096 (io_world []) w2 ∧
       fd_events (w_trace w2) = fd_events (w_trace w1) ++ closing n).
Proof.
  apply (@fd_life_balanced (answers [8192]) 4096 QP_FD_TYPE_FILE true (io_world [])).
  intros _. eexists. by vm_compute.
Defined.
