(* ===== verification/Pair.v ===== *)
(** Two structures at one address, an outer one and its first member: files and
    sockets with their descriptor. *)

From S2P Require Import Prelude World Life Bytes.
#[local] Open Scope Z_scope.

(** The stores of the two do not interfere. *)
Class Apart X Y `{!Lens world (gmap Z X), !Lens world (gmap Z Y)} : Prop := {
  obj_swap w p (x : X) q (y : Y) : obj (obj w p x) q y = obj (obj w q y) p x;
  obj_apart w p (x : X) : (lget (obj w p x) : gmap Z Y) = lget w;
  obj_apart_r w p (y : Y) : (lget (obj w p y) : gmap Z X) = lget w;
}.

#[export] Instance apart_file_fd : Apart qp_file_s qp_fd_s. Proof. done. Qed.
#[export] Instance apart_socket_fd : Apart qp_socket_s qp_fd_s. Proof. done. Qed.

(** The world in which [x] is at [p], and [y] its first member. *)
Definition pair_at `{!Lens world (gmap Z X), !Lens world (gmap Z Y)}
    (w : world) (p : Z) (x : X) (y : Y) : world := obj (obj w p x) p y.
#[global] Arguments pair_at {_ _ _ _} _ _ _ _ : simpl never.

Section pair.
#[local] Set Default Proof Using "All".
Context `{MX : MemStore X, MY : MemStore Y} `{!Apart X Y}.
Implicit Types (x : X) (y : Y) (w : world).

Lemma pair_id w p x y : lget w !! p = Some x → lget w !! p = Some y → w = pair_at w p x y.
Proof. intros Hx Hy. unfold pair_at. rewrite <-(obj_id w p x) by done. by apply obj_id. Qed.

Lemma pair_record w p x y name args data a :
  record name args data a (pair_at w p x y) = pair_at (record name args data a w) p x y.
Proof. unfold pair_at. by rewrite !obj_record. Qed.

Lemma pair_trace w p x y : w_trace (pair_at w p x y) = w_trace w.
Proof. unfold pair_at. by rewrite !obj_trace. Qed.

Lemma pair_errno w p x y : w_errno (pair_at w p x y) = w_errno w.
Proof. unfold pair_at. by rewrite !obj_errno_get. Qed.

Lemma pair_mem w p x y : w_mem (pair_at w p x y) = w_mem w.
Proof. unfold pair_at. by rewrite !obj_mem. Qed.

Lemma pair_same w w' p x y : w ≡ₘ w' → pair_at w p x y ≡ₘ pair_at w' p x y.
Proof. intros E. by apply obj_same, obj_same. Qed.

Lemma same_pair w w' p x y : w' ≡ₘ pair_at w p x y → ∃ w2, w2 ≡ₘ w ∧ w' = pair_at w2 p x y.
Proof.
  intros (w1 & E & ->)%same_obj. apply same_obj in E as (w2 & E & ->). by exists w2.
Qed.

Lemma pair_outer w p x y : lget (pair_at w p x y) !! p = Some x.
Proof. unfold pair_at. rewrite obj_swap. apply obj_lookup. Qed.

Lemma pair_inner w p x y : lget (pair_at w p x y) !! p = Some y.
Proof. apply obj_lookup. Qed.

(** The member alone, and back. *)
Lemma pair_member w p x y : pair_at w p x y = obj (obj w p x) p y.
Proof. done. Qed.

Lemma pair_struct w p x y : pair_at w p x y = obj (obj w p y) p x.
Proof. apply obj_swap. Qed.

(** ** Rules *)

Lemma wp_ld_outer {A} (field : X → A) w p x y (Q : A → world → Prop) :
  p ≠ NULL → Q (field x) (pair_at w p x y) → wp (ld field p) (pair_at w p x y) Q.
Proof. intros Hp HQ. eapply wp_ld; [done|apply pair_outer|done]. Qed.

Lemma wp_ld_inner {A} (field : Y → A) w p x y (Q : A → world → Prop) :
  p ≠ NULL → Q (field y) (pair_at w p x y) → wp (ld field p) (pair_at w p x y) Q.
Proof. intros Hp HQ. eapply wp_ld; [done|apply pair_inner|done]. Qed.

(** Reading another pair. *)
Lemma wp_ld_outer_ne {A} (field : X → A) w p x y q x' (Q : A → world → Prop) :
  q ≠ NULL → p ≠ q → (lget w : gmap Z X) !! q = Some x' →
  Q (field x') (pair_at w p x y) → wp (ld field q) (pair_at w p x y) Q.
Proof.
  intros Hq Hne Hx HQ. eapply wp_ld; [done| |exact HQ].
  unfold pair_at. rewrite obj_apart_r. unfold obj. by rewrite lget_lset, lookup_insert_ne.
Qed.

Lemma wp_ld_inner_ne {A} (field : Y → A) w p x y q y' (Q : A → world → Prop) :
  q ≠ NULL → p ≠ q → (lget w : gmap Z Y) !! q = Some y' →
  Q (field y') (pair_at w p x y) → wp (ld field q) (pair_at w p x y) Q.
Proof.
  intros Hq Hne Hy HQ. eapply wp_ld; [done| |exact HQ].
  unfold pair_at. unfold obj at 1. rewrite lget_lset, lookup_insert_ne by done.
  by rewrite obj_apart.
Qed.

Lemma wp_st_outer (upd : X → X) w p x y (Q : unit → world → Prop) :
  p ≠ NULL → Q tt (pair_at w p (upd x) y) → wp (st upd p) (pair_at w p x y) Q.
Proof. intros Hp HQ. rewrite pair_struct in *. by apply wp_st_obj. Qed.

Lemma wp_st_inner (upd : Y → Y) w p x y (Q : unit → world → Prop) :
  p ≠ NULL → Q tt (pair_at w p x (upd y)) → wp (st upd p) (pair_at w p x y) Q.
Proof. intros Hp HQ. by apply wp_st_obj. Qed.

Lemma wp_is_flag_outer (field : X → bool) w p x y (Q : bool → world → Prop) :
  p ≠ NULL → Q (field x) (pair_at w p x y) → wp (is_flag field p) (pair_at w p x y) Q.
Proof.
  intros Hp HQ. unfold is_flag. rewrite (proj2 (Z.eqb_neq _ _) Hp). by apply wp_ld_outer.
Qed.

Lemma wp_is_flag_inner (field : Y → bool) w p x y (Q : bool → world → Prop) :
  p ≠ NULL → Q (field y) (pair_at w p x y) → wp (is_flag field p) (pair_at w p x y) Q.
Proof.
  intros Hp HQ. unfold is_flag. rewrite (proj2 (Z.eqb_neq _ _) Hp). by apply wp_ld_inner.
Qed.

Lemma wp_set_flag_outer (upd : X → X) w p x y (Q : unit → world → Prop) :
  p ≠ NULL → Q tt (pair_at w p (upd x) y) → wp (set_flag upd p) (pair_at w p x y) Q.
Proof.
  intros Hp HQ. unfold set_flag. rewrite (proj2 (Z.eqb_neq _ _) Hp). by apply wp_st_outer.
Qed.

Lemma wp_set_flag_inner (upd : Y → Y) w p x y (Q : unit → world → Prop) :
  p ≠ NULL → Q tt (pair_at w p x (upd y)) → wp (set_flag upd p) (pair_at w p x y) Q.
Proof.
  intros Hp HQ. unfold set_flag. rewrite (proj2 (Z.eqb_neq _ _) Hp). by apply wp_st_inner.
Qed.

Lemma wp_ext_pair `{OS} name args data w p x y (Q : answer → world → Prop) :
  (∀ a, a = os_answer (w_trace w) name args data →
     Q a (pair_at (record name args data a w) p x y)) →
  wp (ext name args data) (pair_at w p x y) Q.
Proof. intros HQ. apply wp_ext. rewrite pair_record, pair_trace. by apply HQ. Qed.

Lemma wp_call_pair `{OS} name args w p x y (Q : Z → world → Prop) :
  (∀ a, a = os_answer (w_trace w) name args [] →
     Q (a_ret a) (pair_at (record name args [] a w) p x y)) →
  wp (call name args) (pair_at w p x y) Q.
Proof. intros HQ. apply wp_call. intros a ->. rewrite pair_record, pair_trace. by apply HQ. Qed.

Lemma wp_read_bytes_pair q l n w p x y (Q : list Z → world → Prop) :
  bytes_at (w_mem w) q l → n = Z.of_nat (length l) → Q l (pair_at w p x y) →
  wp (read_bytes q n) (pair_at w p x y) Q.
Proof. intros Hl Hn HQ. eapply wp_read_bytes; [by rewrite pair_mem|done..]. Qed.

Lemma wp_write_bytes_pair q l w p x y (Q : unit → world → Prop) :
  buffer (w_mem w) q (Z.of_nat (length l)) →
  Q tt (pair_at (set_mem (stored q l (w_mem w)) w) p x y) →
  wp (write_bytes q l) (pair_at w p x y) Q.
Proof.
  intros Hb HQ. apply wp_write_bytes; rewrite pair_mem; [done|].
  unfold pair_at. by rewrite !obj_set_mem.
Qed.

(** [memcpy] between ranges that do not overlap. *)
Lemma wp_memcpy_pair dst src n l w p x y (Q : unit → world → Prop) :
  bytes_at (w_mem w) src l → n = Z.of_nat (length l) → buffer (w_mem w) dst n →
  dst + n ≤ src ∨ src + n ≤ dst →
  Q tt (pair_at (set_mem (stored dst l (w_mem w)) w) p x y) →
  wp (memcpy dst src n) (pair_at w p x y) Q.
Proof.
  intros Hl Hn Hb Hd HQ. unfold memcpy.
  replace ((0 <? n) && (Z.abs (dst - src) <? n)) with false.
  2: { symmetry. apply andb_false_iff. destruct (Z.ltb_spec 0 n); [right|by left].
       apply Z.ltb_ge. lia. }
  apply wp_bind. eapply wp_read_bytes_pair; [done|done|].
  subst n. by apply wp_write_bytes_pair.
Qed.

(** ** Life cycle *)

Lemma unmap_pair_out w p x y a n :
  p < a ∨ a + n ≤ p → unmap a n (pair_at w p x y) = pair_at (unmap a n w) p x y.
Proof. intros Hp. unfold pair_at. by rewrite !unmap_obj_out. Qed.

Lemma wp_free_pair `{OS} a n w p x y (Q : unit → world → Prop) :
  a ≠ NULL → w_live w !! a = Some n → p < a ∨ a + n ≤ p →
  Q tt (pair_at (unmap a n (record "free" [a] [] (Ans 0 (w_errno w) []) w)) p x y) →
  wp (free a) (pair_at w p x y) Q.
Proof.
  intros Ha Hn Hp HQ. eapply wp_free; [done|unfold pair_at; by rewrite !obj_live|].
  by rewrite pair_errno, pair_record, unmap_pair_out.
Qed.

(** It is gone: memory is as it was, but for the contents of the caller's pair. *)
Definition gone_pair (p : Z) (w w' : world) : Prop :=
  (p ≠ NULL → ∃ x y, w' ≡ₘ pair_at w p x y) ∧ (p = NULL → w' ≡ₘ w).

Lemma unmap_pair w w1 p n x y :
  0 < n → usable w p n = true → w1 ≡ₘ block_at p n w →
  unmap p n (pair_at w1 p x y) ≡ₘ w.
Proof.
  intros Hn Hu E.
  pose proof (unmap_obj w (obj w1 p x) p n 0 y) as E1. rewrite Z.add_0_r in E1.
  unfold pair_at. rewrite E1; [|lia|done|].
  2: { rewrite obj_apart. etrans; [by apply mem_lget|]. apply store_lget_live. }
  pose proof (unmap_obj w w1 p n 0 x) as E2. rewrite Z.add_0_r in E2.
  rewrite E2; [|lia|done|].
  2: { etrans; [by apply mem_lget|]. apply store_lget_live. }
  etrans; [by apply unmap_same|]. by rewrite unmap_fresh.
Qed.

Lemma wp_create_pair `{OS} p n (zx : X) (zy : Y) (alloced : X → X) w (Q : Z → world → Prop) :
  (p ≠ NULL → is_Some ((lget w : gmap Z X) !! p) ∧ is_Some ((lget w : gmap Z Y) !! p)) →
  (∀ q w1, q ≠ NULL → created w p n q w1 → fd_events (w_trace w1) = fd_events (w_trace w) →
     Q q (pair_at w1 q (if p =? NULL then alloced zx else zx) zy)) →
  (∀ w1, gone_pair p w w1 → fd_events (w_trace w1) = fd_events (w_trace w) → Q NULL w1) →
  wp (if p =? NULL then
        q ← malloc n;
        if q =? NULL then mret NULL else
        new q zx;; new q zy;; set_flag alloced q;; mret q
      else st (λ _, zx) p;; st (λ _, zy) p;; mret p) w Q.
Proof.
  intros Hp Hok Hnull. destruct (Z.eqb_spec p NULL) as [->|Hne].
  - apply wp_bind, wp_malloc.
    + intros q e Hu Hq. rewrite (proj2 (Z.eqb_neq q NULL)) by done.
      apply wp_bind, wp_new_obj, wp_bind, wp_new_obj.
      change (obj (obj ?w q zx) q zy) with (pair_at w q zx zy).
      apply wp_bind, wp_set_flag_outer; [done|]. apply wp_ret.
      apply Hok; [done| |by apply fd_events_other]. right. split_and!; done.
    + intros e. apply wp_ret. apply Hnull; [by split|by apply fd_events_other].
  - destruct (Hp Hne) as [[x Hx] [y Hy]]. rewrite (pair_id w p x y) by done.
    apply wp_bind, wp_st_outer; [done|]. apply wp_bind, wp_st_inner; [done|]. apply wp_ret.
    apply Hok; [done| |done]. left. by split_and!.
Qed.

Lemma wp_release_pair `{OS} w p n q w1 x y (alloced : bool) (r : Z) (Q : Z → world → Prop) :
  0 < n → created w p n q w1 → alloced = (p =? NULL) →
  (∀ w', gone_pair p w w' →
     w_trace w' = w_trace w1 ++ (if p =? NULL then [Ev "free" [q] [] 0] else []) → Q r w') →
  wp ((if alloced then free q else mret tt);; mret r) (pair_at w1 q x y) Q.
Proof.
  intros Hn Hc -> HQ. apply wp_bind. destruct Hc as [(Hp & -> & Hw1)|(-> & Hq & Hu & Hw1)].
  - rewrite (proj2 (Z.eqb_neq p NULL)) in * by done. apply wp_ret, wp_ret. apply HQ.
    + split; [|done]. intros _. exists x, y. by apply pair_same.
    + by rewrite pair_trace, app_nil_r.
  - cbn in *. eapply wp_free; [done| |].
    { unfold pair_at. rewrite !obj_live, (same_live _ _ Hw1). cbn. apply lookup_insert_eq. }
    apply wp_ret. apply HQ; [|cbn [w_trace unmap]; by rewrite record_trace, pair_trace].
    split; [done|]. intros _. etrans; [by apply unmap_same, record_quiet|].
    by apply unmap_pair.
Qed.

Lemma wp_alloc_align_pair `{OS} al n w q x y (Q : Z → world → Prop) :
  0 < n →
  (∀ a w1, holds n a q w w1 → (a ≠ NULL → buffer (w_mem w1) a n) → Q a (pair_at w1 q x y)) →
  wp (qp_alloc_align al n) (pair_at w q x y) Q.
Proof.
  intros Hn HQ. apply wp_alloc_align; [lia| |].
  - intros a w' Ha _ Ho Hb. apply owned_obj in Ho as (w1 & -> & Ho & Hq); [|done].
    apply owned_obj in Ho as (w2 & -> & Ho & _); [|done]. apply HQ; [by right|].
    intros _. by rewrite !obj_mem in Hb.
  - intros w' E. apply same_pair in E as (w1 & E & ->). apply HQ; [by left|done].
Qed.

(** Giving back the first of two blocks. *)
Lemma wp_free_first `{OS} n a n' b q w0 wm w1 x y (upd : X → X) (Q : unit → world → Prop) :
  0 < n → 0 < n' → q ≠ NULL → holds n a q w0 wm → holds n' b q wm w1 →
  (a = NULL → upd x = x) →
  (∀ w2, holds n' b q w0 w2 → fd_events (w_trace w2) = fd_events (w_trace w1) →
     Q tt (pair_at w2 q (upd x) y)) →
  wp (if negb (a =? NULL) then free a;; st upd q else mret tt) (pair_at w1 q x y) Q.
Proof.
  intros Hn Hn' Hq [[-> E]|(Ha & Ho & Hd)] Hb Hx HQ.
  - apply wp_ret. rewrite <-(Hx eq_refl) at 1. apply HQ; [|done].
    destruct Hb as [[-> E1]|(Hb & Hob & Hdb)]; [left|right]; split_and!; try done; [by etrans|].
    by eapply owned_from.
  - rewrite (proj2 (Z.eqb_neq a NULL)) by done. apply wp_bind.
    assert (w_live w1 !! a = Some n) as Hlive.
    { destruct Hb as [[_ E1]|(_ & Hob & _)].
      - rewrite (same_live _ _ E1). by eapply owned_live.
      - destruct (Hob) as (Hu & m & _ & E1). rewrite (same_live _ _ E1). cbn.
        rewrite lookup_insert_ne; [by eapply owned_live|]. intros ->.
        apply usable_cases in Hu as [_ Hu]. apply owned_live, elem_of_dom_2 in Ho.
        destruct (Hu a); [|lia..]. unfold mapped_addrs. set_solver. }
    eapply wp_free_pair; [done|done|done|]. apply wp_st_outer; [done|].
    apply HQ; [|cbn [w_trace unmap]; rewrite record_trace; by apply fd_events_other].
    eapply holds_same; [by apply unmap_same, record_quiet|].
    destruct Hb as [[-> E1]|(Hb & Hob & Hdb)]; [left|right]; split_and!; try done.
    + etrans; [by apply unmap_same, E1|]. by apply unmap_owned.
    + by eapply owned_unmap.
Qed.
End pair.

(** One statement of code that works on the pair. *)
Ltac pstep :=
  lazymatch goal with
  | |- wp (_ ≫= _) _ _ => apply wp_bind
  | |- wp (mret _) _ _ => apply wp_ret
  | |- wp (ld _ _) (pair_at _ _ _ _) _ =>
      first [apply wp_ld_outer; [solve_ne|] | apply wp_ld_inner; [solve_ne|]]
  | |- wp (st _ _) (pair_at _ _ _ _) _ =>
      first [apply wp_st_outer; [solve_ne|] | apply wp_st_inner; [solve_ne|]]
  | |- wp (is_flag _ _) (pair_at _ _ _ _) _ =>
      first [apply wp_is_flag_outer; [solve_ne|] | apply wp_is_flag_inner; [solve_ne|]]
  | |- wp (set_flag _ _) (pair_at _ _ _ _) _ =>
      first [apply wp_set_flag_outer; [solve_ne|] | apply wp_set_flag_inner; [solve_ne|]]
  | |- wp (call _ _) (pair_at _ _ _ _) _ => apply wp_call_pair; intros ? ?
  | |- wp (ext _ _ _) (pair_at _ _ _ _) _ => apply wp_ext_pair; intros ? ?
  | |- wp (if ?b then ?m1 else ?m2) ?w ?Q =>
      let b' := eval cbn in b in
      match b' with true => change (wp m1 w Q) | false => change (wp m2 w Q) end
  end; cbn beta iota.

(** Run code on a pair at an address known not to be NULL. *)
Ltac prun Hn := repeat first [progress rewrite Hn | pstep].
