(* ===== verification/File.v ===== *)
(** Files: [src/src/qp_file.c]. A file at [p] is the descriptor at [p], its first
    member, and the file structure at [p]. *)

From S2P Require Import Prelude World Bytes Atomic Io.
#[local] Open Scope Z_scope.

(** * Constants and layout (Linux, LP64, [_GNU_SOURCE]) *)

Definition QP_FILE_PATH_LEN_MAX : Z := 1024.
Definition QP_FILE_DIRECTIO : Z := 1.
Definition QP_FILE_AIO : Z := 2.
Definition QP_FILE_IS_UNLOCKED : Z := 0.
Definition QP_FILE_IS_LOCKED : Z := 1.
Definition F_RDLCK : Z := 0.
Definition F_WRLCK : Z := 1.
Definition F_UNLCK : Z := 2.
Definition QP_FILE_LK_RD : Z := F_RDLCK.
Definition QP_FILE_LK_WR : Z := F_WRLCK.
Definition QP_FILE_UNLK : Z := F_UNLCK.
Definition F_GETLK64 : Z := 5.
Definition F_SETLK64 : Z := 6.
Definition O_RDONLY : Z := 0.
Definition O_APPEND : Z := 1024.
Definition O_DIRECT : Z := 16384.
Definition sizeof_file : Z := 1288.

Definition zero_file : qp_file_s := MkFile 0 0 NULL NULL 0 0 0 0 0 0 0 0 [] false false.

(** * Flags *)

Definition qp_file_set_alloced : Z → M world unit := set_flag (set_fl_is_alloced true).
Definition qp_file_set_directIO : Z → M world unit := set_flag (set_fl_is_directIO true).
Definition qp_file_unset_directIO : Z → M world unit := set_flag (set_fl_is_directIO false).
Definition qp_file_is_alloced : Z → M world bool := is_flag fl_is_alloced.
Definition qp_file_is_directIO : Z → M world bool := is_flag fl_is_directIO.

Section file.
Context `{OS}.

Definition qp_file_stat (file : Z) : M world Z :=
  valid ← qp_fd_is_valid file;
  if (file =? NULL) || negb valid then mret QP_ERROR else
  fd ← ld fd_fd file;
  a ← ext "fstat" [fd] [];
  (if a_ret a =? 0 then st (set_fl_st_size (default 0 (head (a_data a)))) file else mret tt);;
  mret (a_ret a).

(** * Buffers *)

Definition qp_file_flush (file : Z) (full : bool) : M world Z :=
  if file =? NULL then mret QP_ERROR else
  wrbuf ← ld fl_wrbuf file;
  if wrbuf =? NULL then mret QP_ERROR else
  size ← ld fl_wrbuf_size file; offset ← ld fl_wrbuf_offset file;
  st (set_fl_wrbuf_offsetlast (if full then size else offset)) file;;
  direct ← qp_file_is_directIO file;
  ret ← (if (direct : bool) then
           n ← ld fl_wrbuf_offsetlast file; qp_fd_write file wrbuf n
         else mret 0);
  if 0 <? ret then
    last ← ld fl_wrbuf_offsetlast file;
    st (set_fl_wrbuf_offset (u64 (last - ret))) file;;
    offset ← ld fl_wrbuf_offset file;
    (if negb (offset =? 0) then memcpy wrbuf (wrbuf + ret) offset else mret tt);;
    qp_file_stat file;;
    mret (i64 (size - offset))
  else mret ret.

Definition qp_file_track (file : Z) : M world Z :=
  if file =? NULL then mret QP_ERROR else
  rdbuf ← ld fl_rdbuf file;
  if rdbuf =? NULL then mret QP_ERROR else
  direct ← qp_file_is_directIO file;
  ret ← (if (direct : bool) then size ← ld fl_rdbuf_size file; qp_fd_read file rdbuf size
         else mret 0);
  if 0 <? ret then
    st (set_fl_rdbuf_offset (u64 ret)) file;;
    st (set_fl_rdbuf_offsetlast 0) file;;
    offset ← ld fl_rdbuf_offset file; mret (i64 offset)
  else mret ret.

(** The result, and what is stored through [buf]. *)
Definition qp_file_get_writebuf (file : Z) : M world (Z * option Z) :=
  inited ← qp_fd_is_inited file; direct ← qp_file_is_directIO file;
  if (file =? NULL) || negb inited || negb direct then mret (0, None) else
  buf ← ld fl_wrbuf file; size ← ld fl_wrbuf_size file; mret (size, Some buf).

Definition qp_file_get_readbuf (file : Z) : M world (Z * option Z) :=
  inited ← qp_fd_is_inited file; direct ← qp_file_is_directIO file;
  if (file =? NULL) || negb inited || negb direct then mret (0, None) else
  buf ← ld fl_rdbuf file; size ← ld fl_rdbuf_size file; mret (size, Some buf).

(** * Opening and closing *)

(** [fuel] bounds the flushes. *)
Definition qp_file_close (fuel : nat) (file : Z) : M world Z :=
  if file =? NULL then mret QP_ERROR else
  valid ← qp_fd_is_valid file;
  if negb valid then mret QP_ERROR else
  wrbuf ← ld fl_wrbuf file; offset ← ld fl_wrbuf_offset file;
  (if negb (wrbuf =? NULL) && (0 <? offset) then
     loop fuel (λ _ : unit,
       r ← qp_file_flush file false;
       if 0 <? r then mret (inl tt) else mret (inr tt)) tt
   else mret tt);;
  qp_fd_close file.

Definition qp_file_create (file mod_ : Z) : M world Z :=
  file ← (if file =? NULL then
            file ← malloc sizeof_file;
            if file =? NULL then mret NULL else
            new file zero_file;; new file zero_fd;; qp_file_set_alloced file;; mret file
          else
            st (λ _, zero_file) file;; st (λ _, zero_fd) file;; mret file);
  if file =? NULL then mret NULL else
  fd ← qp_fd_init file QP_FD_TYPE_FILE (negb (Z.land mod_ QP_FILE_AIO =? 0));
  if fd =? NULL then
    alloced ← qp_file_is_alloced file;
    (if (alloced : bool) then free file else mret tt);; mret NULL
  else
  st (set_fl_open_flag O_RDONLY) file;; mret file.

Definition qp_file_destroy (fuel : nat) (file : Z) : M world Z :=
  inited ← qp_fd_is_inited file;
  if (file =? NULL) || negb inited then mret QP_ERROR else
  qp_file_close fuel file;;
  qp_fd_destroy file;;
  wrbuf ← ld fl_wrbuf file;
  (if negb (wrbuf =? NULL) then free wrbuf;; st (set_fl_wrbuf NULL) file else mret tt);;
  rdbuf ← ld fl_rdbuf file;
  (if negb (rdbuf =? NULL) then free rdbuf;; st (set_fl_rdbuf NULL) file else mret tt);;
  qp_file_unset_directIO file;;
  alloced ← qp_file_is_alloced file;
  (if (alloced : bool) then free file else mret tt);; mret QP_SUCCESS.

Definition qp_file_init (fuel : nat) (file mod_ bufsize : Z) : M world Z :=
  let mod_ := Z.land mod_ (Z.lnot QP_FILE_AIO) in
  file ← qp_file_create file mod_;
  if file =? NULL then mret NULL else
  mod_ ← (if negb (Z.land QP_FILE_DIRECTIO mod_ =? 0) && (0 <? bufsize) then
           st (set_fl_rdbuf_size bufsize) file;; st (set_fl_wrbuf_size bufsize) file;; mret mod_
         else mret (Z.land mod_ (Z.lnot QP_FILE_DIRECTIO)));
  (if mod_ =? QP_FILE_DIRECTIO then
     pagesize ← qp_pagesize; size ← ld fl_wrbuf_size file;
     buf ← qp_alloc_align pagesize size; st (set_fl_wrbuf buf) file;;
     pagesize ← qp_pagesize; size ← ld fl_rdbuf_size file;
     buf ← qp_alloc_align pagesize size; st (set_fl_rdbuf buf) file;;
     qp_file_set_directIO file
   else mret tt);;
  rdbuf ← ld fl_rdbuf file; wrbuf ← ld fl_wrbuf file;
  if negb (Z.land QP_FILE_DIRECTIO mod_ =? 0) && ((rdbuf =? NULL) || (wrbuf =? NULL)) then
    qp_file_destroy fuel file;; mret NULL
  else mret file.

(** [path] is a C string: the bytes before the terminating zero. *)
Definition qp_file_open (file : Z) (path : list Z) (oflag mod_ : Z) : M world Z :=
  valid ← qp_fd_is_valid file;
  if (file =? NULL) || valid || (QP_FILE_PATH_LEN_MAX <? Z.of_nat (length path)) then
    mret QP_ERROR
  else
  st (set_fl_name path) file;;
  st (set_fl_open_flag oflag) file;;
  st (set_fl_open_mode mod_) file;;
  direct ← qp_file_is_directIO file;
  (if (direct : bool) then
     flag ← ld fl_open_flag file; st (set_fl_open_flag (Z.lor flag O_DIRECT)) file
   else mret tt);;
  name ← ld fl_name file; flag ← ld fl_open_flag file; mode ← ld fl_open_mode file;
  a ← ext "open" [flag; mode] name;
  st (set_fd_fd (a_ret a)) file;;
  fd ← ld fd_fd file;
  if fd <? 0 then mret QP_ERROR else
  r ← qp_file_stat file;
  (if r =? QP_ERROR then st (set_fl_st_size 0) file else mret tt);;
  flag ← ld fl_open_flag file;
  size ← ld fl_st_size file;
  st (set_fl_cur_file_offset (if negb (Z.land O_APPEND flag =? 0) then u64 size else 0)) file;;
  mret QP_SUCCESS.

(** * Reading and writing *)

(** What the loops return behind their end. *)
Definition transfer_result (len ret done : Z) : Z := if negb (len =? 0) then ret else i64 done.

(** One round: [data] and [len] are what is left to write. *)
Definition qp_file_write_body (file done : Z) (v : Z * Z) : M world (Z * Z + Z) :=
  let '(data, len) := v in
  wrbuf ← ld fl_wrbuf file; size ← ld fl_wrbuf_size file;
  last ← ld fl_wrbuf_offset file;
  st (set_fl_wrbuf_offsetlast last) file;;
  st (set_fl_wrbuf_offset (u64 (last + len))) file;;
  offset ← ld fl_wrbuf_offset file;
  if offset <? size then
    memcpy (wrbuf + last) data len;; mret (inr (i64 len))
  else
    st (set_fl_wrbuf_offset (u64 (size - last))) file;;
    offset ← ld fl_wrbuf_offset file;
    memcpy (wrbuf + last) data offset;;
    let data := data + offset in
    let len := u64 (len - offset) in
    ret ← qp_file_flush file true;
    if ret <? 1 then mret (inr (transfer_result len ret done)) else
    if negb (len =? 0) then mret (inl (data, len)) else mret (inr (transfer_result len ret done)).

(** [fuel] bounds the rounds. *)
Definition qp_file_write (fuel : nat) (file data len file_offset : Z) : M world Z :=
  inited ← qp_fd_is_inited file;
  if (file =? NULL) || negb inited then mret QP_ERROR else
  direct ← qp_file_is_directIO file;
  if negb direct then
    aio ← qp_fd_is_aio file;
    if (aio : bool) then qp_fd_aio_write file data len file_offset
    else qp_fd_write file data len
  else loop fuel (qp_file_write_body file len) (data, len).

Definition qp_file_read_body (file done : Z) (v : Z * Z) : M world (Z * Z + Z) :=
  let '(data, len) := v in
  rdbuf ← ld fl_rdbuf file;
  offset ← ld fl_rdbuf_offset file; last ← ld fl_rdbuf_offsetlast file;
  let rest := u64 (offset - last) in
  if rest <? len then
    memcpy data (rdbuf + last) rest;;
    let data := data + rest in
    let len := u64 (len - rest) in
    ret ← qp_file_track file;
    if ret <? 1 then mret (inr (transfer_result len ret done)) else
    if negb (len =? 0) then mret (inl (data, len)) else mret (inr (transfer_result len ret done))
  else
    memcpy data (rdbuf + last) len;;
    st (set_fl_rdbuf_offsetlast (u64 (last + len))) file;;
    mret (inr (i64 len)).

Definition qp_file_read (fuel : nat) (file data len file_offset : Z) : M world Z :=
  bad ← (if file =? NULL then inited ← qp_fd_is_inited file; mret (negb inited) else mret false);
  if (bad : bool) then mret QP_ERROR else
  direct ← qp_file_is_directIO file;
  if negb direct then
    aio ← qp_fd_is_aio file;
    if (aio : bool) then qp_fd_aio_read file data len file_offset
    else qp_fd_read file data len
  else loop fuel (qp_file_read_body file len) (data, len).

Definition qp_file_direct_write (file len : Z) : M world Z :=
  inited ← qp_fd_is_inited file;
  if (file =? NULL) || negb inited then mret QP_ERROR else
  wrbuf ← ld fl_wrbuf file;
  qp_fd_write file wrbuf len.

(** * Record locks *)

(** The low 16 bits of an [int], as [short]. *)
Definition i16 (z : Z) : Z := (z + 2 ^ 15) mod 2 ^ 16 - 2 ^ 15.

(** [fcntl(fd, cmd, &lock)] with the four fields set here. *)
Definition fcntl_lock (fd cmd type offset whence len : Z) : M world answer :=
  ext "fcntl" [fd; cmd; i16 type; offset; i16 whence; len] [].

Definition setlk (fd type offset whence len : Z) : M world Z :=
  a ← fcntl_lock fd F_SETLK64 type offset whence len; mret (a_ret a).

(** The call may write a lock that stands in the way into [lock]. *)
Definition getlk (fd type offset whence len : Z) : M world Z :=
  a ← fcntl_lock fd F_GETLK64 type offset whence len;
  if a_ret a <? 0 then mret QP_ERROR else
  if F_UNLCK =? default (i16 type) (head (a_data a)) then mret QP_FILE_IS_UNLOCKED
  else mret QP_FILE_IS_LOCKED.

Definition qp_file_reglock (file type offset whence len : Z) : M world Z :=
  if file =? NULL then mret QP_ERROR else
  fd ← ld fd_fd file; setlk fd type offset whence len.

Definition qp_file_locktest (file type offset whence len : Z) : M world Z :=
  if file =? NULL then mret QP_ERROR else
  fd ← ld fd_fd file; getlk fd type offset whence len.

Definition qp_file_rdlock (file offset whence len : Z) : M world Z :=
  qp_file_reglock file QP_FILE_LK_RD offset whence len.
Definition qp_file_wrlock (file offset whence len : Z) : M world Z :=
  qp_file_reglock file QP_FILE_LK_WR offset whence len.
Definition qp_file_unlock (file offset whence len : Z) : M world Z :=
  qp_file_reglock file QP_FILE_UNLK offset whence len.
Definition qp_file_test_rdlock (file offset whence len : Z) : M world bool :=
  r ← qp_file_locktest file QP_FILE_LK_RD offset whence len; mret (QP_FILE_IS_UNLOCKED =? r).
Definition qp_file_test_wrlock (file offset whence len : Z) : M world bool :=
  r ← qp_file_locktest file QP_FILE_LK_WR offset whence len; mret (QP_FILE_IS_UNLOCKED =? r).

(** On a bare descriptor: the local [struct qp_file_s] only carries the number. *)
Definition qp_file_fd_reglock (fd type offset whence len : Z) : M world Z :=
  setlk fd type offset whence len.
Definition qp_file_fd_locktest (fd type offset whence len : Z) : M world Z :=
  getlk fd type offset whence len.
Definition qp_file_fd_rdlock (fd offset whence len : Z) : M world Z :=
  qp_file_fd_reglock fd QP_FILE_LK_RD offset whence len.
Definition qp_file_fd_wrlock (fd offset whence len : Z) : M world Z :=
  qp_file_fd_reglock fd QP_FILE_LK_WR offset whence len.
Definition qp_file_fd_unlock (fd offset whence len : Z) : M world Z :=
  qp_file_fd_reglock fd QP_FILE_UNLK offset whence len.
Definition qp_file_fd_test_rdlock (fd offset whence len : Z) : M world bool :=
  r ← qp_file_fd_locktest fd QP_FILE_LK_RD offset whence len; mret (QP_FILE_IS_UNLOCKED =? r).
Definition qp_file_fd_test_wrlock (fd offset whence len : Z) : M world bool :=
  r ← qp_file_fd_locktest fd QP_FILE_LK_WR offset whence len; mret (QP_FILE_IS_UNLOCKED =? r).
End file.
