(* ===== verification/FileLife.v ===== *)
(** The life of a file: what [qp_file_init] builds, [qp_file_destroy] takes down. *)

From S2P Require Import Prelude World Life Bytes Pair Atomic Io IoProps File.
#[local] Open Scope Z_scope.

Section life.
Context `{OS}.

(** The world [pair_at w1 q y x] has a file at [q]: a descriptor without a control
    block, and two buffers or none. *)
Record file_alive (p : Z) (w : world) (q : Z) (y : qp_file_s) (x : qp_fd_s) (w1 : world) : Prop := {
  fa_addr : q ≠ NULL;
  fa_inited : fd_is_inited x = true;
  fa_member : fd_is_alloced x = false;
  fa_aio : fd_aio x = NULL;
  fa_alloced : fl_is_alloced y = (p =? NULL);
  fa_wrbuf : fl_wrbuf y = NULL ∨ 0 < fl_wrbuf_size y;
  fa_rdbuf : fl_rdbuf y = NULL ∨ 0 < fl_rdbuf_size y;
  fa_memory : ∃ w0 wm, created w p sizeof_file q w0 ∧
    holds (fl_wrbuf_size y) (fl_wrbuf y) q w0 wm ∧ holds (fl_rdbuf_size y) (fl_rdbuf y) q wm w1;
}.

Lemma file_alive_same p w q y x w1 w2 :
  w2 ≡ₘ w1 → file_alive p w q y x w1 → file_alive p w q y x w2.
Proof.
  intros E [Hq Hi Hm Haio Hal Hw Hr (w0 & wm & Hc & Hhw & Hhr)]. split; try done.
  exists w0, wm. split_and!; [done..|]. by eapply holds_same.
Qed.

(** A block that is not there has any size. *)
Lemma holds_size n a q w0 w1 :
  a = NULL ∨ 0 < n → holds n a q w0 w1 → ∃ n', 0 < n' ∧ holds n' a q w0 w1 ∧ (a ≠ NULL → n' = n).
Proof.
  intros [->|Hn] Ho.
  - exists 1. split_and!; [lia| |done]. destruct Ho as [?|[? _]]; [by left|done].
  - by exists n.
Qed.

Lemma wp_free_last n a q w0 w1 (y : qp_file_s) (x : qp_fd_s) (upd : qp_file_s → qp_file_s)
    (Q : unit → world → Prop) :
  0 < n → q ≠ NULL → holds n a q w0 w1 → (a = NULL → upd y = y) →
  (∀ w2, w2 ≡ₘ w0 → fd_events (w_trace w2) = fd_events (w_trace w1) → Q tt (pair_at w2 q (upd y) x)) →
  wp (if negb (a =? NULL) then free a;; st upd q else mret tt) (pair_at w1 q y x) Q.
Proof using H.
  intros Hn Hq Ha Hx HQ.
  eapply (wp_free_first n a 1 NULL q w0 w1 w1); [done|lia|done|done|by left|done|].
  intros w2 [[_ E]|[? _]]; [|done]. by apply HQ.
Qed.

(** What [qp_file_destroy] does once the file is closed. *)
Lemma file_destroy_run fuel p w q y x w1 c (Q : Z → world → Prop) :
  file_alive p w q y x w1 →
  wp (qp_file_close fuel q) (pair_at w1 q y x) (λ _ w', ∃ w2 y2 x2, w' = pair_at w2 q y2 x2 ∧
    file_alive p w q y2 x2 w2 ∧ fd_fd x2 = QP_FD_INVALID ∧ fd_events (w_trace w2) = c) →
  (∀ w2, gone_pair (X := qp_file_s) (Y := qp_fd_s) p w w2 → fd_events (w_trace w2) = c →
     Q QP_SUCCESS w2) →
  wp (qp_file_destroy fuel q) (pair_at w1 q y x) Q.
Proof.
  intros Ha Hclose HQ. pose proof (fa_addr _ _ _ _ _ _ Ha) as Hq.
  pose proof (proj2 (Z.eqb_neq q NULL) Hq) as Hn.
  pose proof (fa_inited _ _ _ _ _ _ Ha) as Hi.
  unfold qp_file_destroy, qp_fd_is_inited. pstep. pstep. rewrite Hn, Hi. pstep. pstep.
  eapply wp_mono; [exact Hclose|]. clear -HQ Hq Hn.
  intros _ w' (w1 & y & x & -> & Ha & Hfd & <-).
  destruct Ha as [_ Hi Hmem Haio Hal Hws Hrs (w0 & wm & Hc & Hw & Hr)].
  apply wp_bind. rewrite pair_member.
  eapply fd_destroy_run; [done|done|by left|]. intros w2 E Hcl. rewrite Hmem.
  apply same_obj in E as (w3 & E & ->). rewrite <-pair_member.
  cbn. pstep. pstep. pstep. pstep. pstep. pstep.
  destruct (holds_size _ _ _ _ _ Hws Hw) as (n & Hnpos & Hw' & _).
  destruct (holds_size _ _ _ _ _ Hrs Hr) as (n' & Hnpos' & Hr' & _).
  eapply (wp_free_first n _ n' _ q w0 wm w3);
    [done|done|done|done|by eapply holds_same|by destruct y; cbn; intros ->|].
  intros w4 Hr4 Hcl4. pstep. pstep. pstep.
  change (fl_rdbuf (set_fl_wrbuf NULL y)) with (fl_rdbuf y).
  eapply (wp_free_last n' _ q w0 w4); [done|done|done|by destruct y; cbn; intros ->|].
  intros w5 E5 Hcl5. unfold qp_file_unset_directIO, qp_file_is_alloced. pstep. pstep. pstep. pstep.
  eapply (wp_release_pair w p sizeof_file); [done|by eapply created_same|done|].
  intros w6 Hg Ht. apply HQ; [done|]. unfold closed_once, closing in Hcl.
  rewrite decide_True, app_nil_r, !obj_trace in Hcl by done. rewrite <-Hcl, <-Hcl4, <-Hcl5, Ht.
  destruct (p =? NULL); [by apply fd_events_other|by rewrite app_nil_r].
Qed.

Lemma wp_pagesize w q (y : qp_file_s) (x : qp_fd_s) (Q : Z → world → Prop) :
  (∀ n w2, w2 ≡ₘ w → Q n (pair_at w2 q y x)) → wp qp_pagesize (pair_at w q y x) Q.
Proof.
  intros HQ. unfold qp_pagesize. pstep. pstep. destruct (0 <? _); [pstep|pstep]; by apply HQ.
Qed.

(** [qp_file_create], and what it fills in. *)
Lemma file_create_spec p mod_ w (Q : Z → world → Prop) :
  (p ≠ NULL → is_Some (w_files w !! p) ∧ is_Some (w_fds w !! p)) → Z.land mod_ QP_FILE_AIO = 0 →
  (∀ q w1, q ≠ NULL → created w p sizeof_file q w1 →
     Q q (pair_at w1 q (set_fl_is_alloced (p =? NULL) zero_file)
            (MkFd QP_FD_INVALID QP_FD_TYPE_FILE NULL zero_aiocb true false false))) →
  (∀ w1, gone_pair (X := qp_file_s) (Y := qp_fd_s) p w w1 → Q NULL w1) →
  wp (qp_file_create p mod_) w Q.
Proof.
  intros Hp Hm Hok Hnull. unfold qp_file_create. apply wp_bind. apply wp_create_pair; [done| |].
  2: { intros w1 Hg _. apply wp_ret. by apply Hnull. }
  intros q w1 Hq Hc _. pose proof (proj2 (Z.eqb_neq q NULL) Hq) as Hn.
  unfold qp_fd_init, qp_fd_create, qp_fd_set_inited. rewrite Hm. prun Hn.
  match goal with |- Q q (pair_at w1 q ?y ?x) =>
    replace y with (set_fl_is_alloced (p =? NULL) zero_file) by (by destruct (p =? NULL)) end.
  by apply Hok.
Qed.

(** A file that is not open, or has nothing buffered, only closes its descriptor. *)
Lemma file_close_plain fuel q y x w1 (Q : Z → world → Prop) :
  q ≠ NULL → fl_wrbuf_offset y = 0 →
  (∀ r w2, w2 ≡ₘ w1 → closed_once x w1 w2 →
     Q r (pair_at w2 q y (set_fd_fd QP_FD_INVALID x))) →
  wp (qp_file_close fuel q) (pair_at w1 q y x) Q.
Proof.
  intros Hq Hoff HQ. pose proof (proj2 (Z.eqb_neq q NULL) Hq) as Hn.
  unfold qp_file_close, qp_fd_is_valid. rewrite Hn. pstep. pstep.
  destruct (Z.eqb_spec QP_FD_INVALID (fd_fd x)) as [E|E]; cbn [negb].
  - pstep. replace x with (set_fd_fd QP_FD_INVALID x) at 1 by (by destruct x; cbn in *; subst).
    apply HQ; [done|]. unfold closed_once, closing. rewrite decide_True by done.
    by rewrite app_nil_r.
  - pstep. pstep. pstep. pstep. rewrite Hoff, andb_false_r. pstep. pstep.
    rewrite pair_member. apply fd_close_spec; [done|]. intros r w' E' Hcl.
    apply same_obj in E' as (w2 & E2 & ->). rewrite <-pair_member. apply HQ; [done|].
    unfold closed_once in *. by rewrite !obj_trace in Hcl.
Qed.

Lemma file_init_spec fuel p mod_ bufsize w (Q : Z → world → Prop) :
  (p ≠ NULL → is_Some (w_files w !! p) ∧ is_Some (w_fds w !! p)) →
  (∀ q y x w1, file_alive p w q y x w1 → fd_fd x = QP_FD_INVALID → fl_wrbuf_offset y = 0 →
     Q q (pair_at w1 q y x)) →
  (∀ w1, gone_pair (X := qp_file_s) (Y := qp_fd_s) p w w1 → Q NULL w1) →
  wp (qp_file_init fuel p mod_ bufsize) w Q.
Proof.
  intros Hp Hok Hnull. unfold qp_file_init. apply wp_bind.
  assert (Z.land (Z.land mod_ (Z.lnot QP_FILE_AIO)) QP_FILE_AIO = 0) as Hm.
  { rewrite <-Z.land_assoc. by rewrite (Z.land_comm (Z.lnot _)), Z.land_lnot_diag, Z.land_0_r. }
  set (m := Z.land mod_ _) in *. clearbody m.
  apply file_create_spec; [done|done| |].
  2: { intros w1 Hg. apply wp_ret. by apply Hnull. }
  intros q w1 Hq Hc. pose proof (proj2 (Z.eqb_neq q NULL) Hq) as Hn. rewrite Hn.
  set (x := MkFd _ _ _ _ _ _ _). pstep.
  assert (∀ y w2, file_alive p w q y x w2 → fl_wrbuf_offset y = 0 →
    wp (qp_file_destroy fuel q;; mret NULL) (pair_at w2 q y x) Q) as Hfail.
  { intros y w2 Ha Hoff. pstep. eapply (file_destroy_run _ _ _ _ _ _ _ (fd_events (w_trace w2))); [done| |].
    - apply file_close_plain; [done|done|]. intros _ w3 E Hcl.
      exists w3, y, x. split_and!; [done|by eapply file_alive_same|done|].
      unfold closed_once, closing in Hcl. by rewrite Hcl, decide_True, app_nil_r.
    - intros w3 Hg _. pstep. by apply Hnull. }
  assert (∀ y wm w2, fl_is_alloced y = (p =? NULL) → fl_wrbuf_offset y = 0 →
    fl_wrbuf y = NULL ∨ 0 < fl_wrbuf_size y → fl_rdbuf y = NULL ∨ 0 < fl_rdbuf_size y →
    holds (fl_wrbuf_size y) (fl_wrbuf y) q w1 wm →
    holds (fl_rdbuf_size y) (fl_rdbuf y) q wm w2 → ∀ mode,
    wp (rdbuf ← ld fl_rdbuf q; wrbuf ← ld fl_wrbuf q;
        if negb (Z.land QP_FILE_DIRECTIO mode =? 0) && ((rdbuf =? NULL) || (wrbuf =? NULL))
        then qp_file_destroy fuel q;; mret NULL else mret q) (pair_at w2 q y x) Q) as Hend.
  { intros y wm w2 Hal Hoff Hws Hrs Hhw Hhr mode.
    assert (file_alive p w q y x w2) as Ha by (split; try done; by exists w1, wm).
    pstep. pstep. pstep. pstep. destruct (_ && _); [by apply Hfail|]. pstep. by eapply Hok. }
  destruct (_ && _) eqn:Ed.
  - apply andb_true_iff in Ed as [_ Hb%Z.ltb_lt]. do 5 pstep. pstep.
    destruct (m =? QP_FILE_DIRECTIO); [|pstep; by eapply Hend; try by left].
    pstep. apply wp_pagesize. intros n w2 E2. pstep. pstep. pstep.
    apply wp_alloc_align_pair; [done|]. intros a w3 Ho3 _. pstep. pstep. pstep.
    apply wp_pagesize. intros n' w4 E4. pstep. pstep. pstep.
    apply wp_alloc_align_pair; [done|]. intros a' w5 Ho5 _. pstep. pstep.
    unfold qp_file_set_directIO. pstep.
    eapply (Hend _ w4); try done; try by right.
    + eapply holds_same, holds_from; [exact E4|exact E2|exact Ho3].
  - pstep. assert ((Z.land m (Z.lnot QP_FILE_DIRECTIO) =? QP_FILE_DIRECTIO) = false) as ->.
    { apply Z.eqb_neq. intros E. apply (f_equal (Z.land QP_FILE_DIRECTIO)) in E.
      by rewrite (Z.land_comm m), Z.land_assoc, Z.land_lnot_diag in E. }
    pstep. pstep. eapply (Hend _ w1); try done; try by left.
Qed.

(** What opening, writing and reading leave alone. *)
Definition file_owns (y : qp_file_s) : Z * Z * Z * Z * bool * bool :=
  (fl_wrbuf y, fl_wrbuf_size y, fl_rdbuf y, fl_rdbuf_size y, fl_is_alloced y, fl_is_directIO y).

Lemma file_alive_kept p w q y y' x w1 n :
  file_owns y' = file_owns y → file_alive p w q y x w1 → file_alive p w q y' (set_fd_fd n x) w1.
Proof. intros [= E1 E2 E3 E4 E5 _] []. split; try done; by rewrite ?E1, ?E2, ?E3, ?E4, ?E5. Qed.

(** What [qp_file_open] leaves: an open descriptor, or none. *)
Lemma file_open_spec q y x w1 path oflag mod_ (Q : Z → world → Prop) :
  q ≠ NULL → fd_fd x = QP_FD_INVALID →
  (∀ r w2 y2 n, w2 ≡ₘ w1 → file_owns y2 = file_owns y → fl_wrbuf_offset y2 = fl_wrbuf_offset y →
     (n = QP_FD_INVALID ∧ r = QP_ERROR ∧ fd_events (w_trace w2) = fd_events (w_trace w1) ∨
      r = (if n <? 0 then QP_ERROR else QP_SUCCESS) ∧
      fd_events (w_trace w2) = fd_events (w_trace w1) ++ [("open"%string, n)]) →
     Q r (pair_at w2 q y2 (set_fd_fd n x))) →
  wp (qp_file_open q path oflag mod_) (pair_at w1 q y x) Q.
Proof.
  intros Hq Hx HQ. pose proof (proj2 (Z.eqb_neq q NULL) Hq) as Hn.
  unfold qp_file_open, qp_fd_is_valid. pstep. pstep. rewrite Hn, Hx.
  destruct (_ <? _); cbn [orb].
  { pstep. replace x with (set_fd_fd QP_FD_INVALID x) at 1 by (by destruct x; cbn in *; subst).
    apply HQ; [done..|]. by left. }
  unfold qp_file_is_directIO. prun Hn.
  assert (∀ y', file_owns y' = file_owns y → fl_wrbuf_offset y' = fl_wrbuf_offset y →
    wp (name ← ld fl_name q; flag ← ld fl_open_flag q; mode ← ld fl_open_mode q;
        a ← ext "open" [flag; mode] name;
        st (set_fd_fd (a_ret a)) q;; fd ← ld fd_fd q;
        if fd <? 0 then mret QP_ERROR else
        r ← qp_file_stat q;
        (if r =? QP_ERROR then st (set_fl_st_size 0) q else mret tt);;
        flag ← ld fl_open_flag q; size ← ld fl_st_size q;
        st (set_fl_cur_file_offset (if negb (Z.land O_APPEND flag =? 0) then u64 size else 0)) q;;
        mret QP_SUCCESS) (pair_at w1 q y' x) Q) as Hrun.
  { intros y' Hy Hoff. prun Hn.
    assert (fd_events (w_trace (record "open" [fl_open_flag y'; fl_open_mode y'] (fl_name y') a w1))
      = fd_events (w_trace w1) ++ [("open"%string, a_ret a)]) as Hev by apply fd_events_app.
    cbn [fd_fd set_fd_fd]. destruct (Z.ltb_spec (a_ret a) 0) as [Hneg|Hpos].
    { pstep. apply HQ; [done..|]. right. by rewrite (proj2 (Z.ltb_lt _ _) Hneg). }
    unfold qp_file_stat, qp_fd_is_valid. pstep. pstep. pstep. rewrite Hn.
    replace (QP_FD_INVALID =? fd_fd (set_fd_fd (a_ret a) x)) with false.
    2: { symmetry. apply Z.eqb_neq. unfold QP_FD_INVALID, QP_ERROR. cbn. lia. }
    prun Hn.
    assert (∀ y2, file_owns y2 = file_owns y → fl_wrbuf_offset y2 = fl_wrbuf_offset y →
      Q QP_SUCCESS (pair_at (record "fstat" [a_ret a] [] a0 (record "open" [fl_open_flag y';
        fl_open_mode y'] (fl_name y') a w1)) q y2 (set_fd_fd (a_ret a) x))) as Hend.
    { intros y2 Hy2 Hoff2. apply HQ; [done..|]. right.
      rewrite (proj2 (Z.ltb_ge _ _) Hpos). split; [done|].
      rewrite record_trace, fd_events_other by done. exact Hev. }
    destruct (a_ret a0 =? 0); prun Hn; (destruct (a_ret a0 =? QP_ERROR); prun Hn; by apply Hend). }
  destruct (fl_is_directIO _); [do 3 pstep|pstep]; by apply Hrun.
Qed.

(** C19. A file is taken down completely, whatever the system answers: a failed
    [qp_file_init] has given back what it had allocated; a file that was set up and
    opened, or failed to open, is destroyed with its structure, its descriptor and
    its two buffers, so that memory is as it was before; and the descriptor that
    [open] returned is closed, once. *)
Theorem file_life_balanced fuel p mod_ bufsize w :
  (p ≠ NULL → is_Some (w_files w !! p) ∧ is_Some (w_fds w !! p)) →
  ∃ q w1, qp_file_init fuel p mod_ bufsize w = Ok (q, w1) ∧
    (q = NULL → gone_pair (X := qp_file_s) (Y := qp_fd_s) p w w1) ∧
    (q ≠ NULL → ∀ path oflag mode, ∃ w2 e,
       (qp_file_open q path oflag mode;; qp_file_destroy fuel q) w1 = Ok (QP_SUCCESS, w2) ∧
       gone_pair (X := qp_file_s) (Y := qp_fd_s) p w w2 ∧
       fd_events (w_trace w2) = fd_events (w_trace w1) ++ e ∧
       (e = [] ∨ e = [("open"%string, -1)] ∨
        ∃ n, n ≠ -1 ∧ e = [("open"%string, n); ("close"%string, n)])).
Proof.
  intros Hp. apply wp_elim. apply file_init_spec; [done| |].
  2: { intros w1 Hg. by split. }
  intros q y x w1 Ha Hx Hoff. pose proof (fa_addr _ _ _ _ _ _ Ha) as Hq.
  split; [done|]. intros _ path oflag mode. rewrite pair_trace.
  assert (wp (qp_file_open q path oflag mode;; qp_file_destroy fuel q) (pair_at w1 q y x)
    (λ r w2, r = QP_SUCCESS ∧ gone_pair (X := qp_file_s) (Y := qp_fd_s) p w w2 ∧
       ∃ e, fd_events (w_trace w2) = fd_events (w_trace w1) ++ e ∧
       (e = [] ∨ e = [("open"%string, -1)] ∨
        ∃ n, n ≠ -1 ∧ e = [("open"%string, n); ("close"%string, n)]))) as Hwp.
  2: { apply wp_elim in Hwp as (? & w2 & E & -> & Hg & e & He). by exists w2, e. }
  apply wp_bind, file_open_spec; [done..|]. intros r w2 y2 n E Hy2 Hoff2 Hev.
  eapply (file_destroy_run _ _ _ _ _ _ _ (fd_events (w_trace w2) ++ closing n)).
  - eapply file_alive_same; [exact E|]. by eapply file_alive_kept.
  - apply file_close_plain; [done|by rewrite Hoff2|]. intros _ w3 E3 Hcl.
    exists w3, y2, (set_fd_fd QP_FD_INVALID (set_fd_fd n x)). split_and!; [done| |done|].
    + eapply file_alive_same; [etrans; [exact E3|exact E]|].
      eapply (file_alive_kept _ _ _ y2); [done|]. by eapply file_alive_kept.
    + exact Hcl.
  - intros w3 Hg Hc. split_and!; [done..|]. destruct Hev as [(-> & _ & Hev)|(_ & Hev)].
    + exists []. rewrite Hc, Hev. cbn. rewrite !app_nil_r. split; [done|by left].
    + exists (("open"%string, n) :: closing n). rewrite Hc, Hev, <-app_assoc. split; [done|].
      right. unfold closing. case_decide; [left; by subst|right; by exists n].
Qed.
End life.

Lemma file_life_balanced_witness :
  ∃ q w1, @qp_file_init (answers [8192; 5]) 9 NULL 0 0 empty_world = Ok (q, w1) ∧
    (q = NULL → gone_pair (X := qp_file_s) (Y := qp_fd_s) NULL empty_world w1) ∧
    (q ≠ NULL → ∀ path oflag mode, ∃ w2 e,
       @mbind _ _ _ _ (λ _, @qp_file_destroy (answers [8192; 5]) 9 q)
         (@qp_file_open (answers [8192; 5]) q path oflag mode) w1 = Ok (QP_SUCCESS, w2) ∧
       gone_pair (X := qp_file_s) (Y := qp_fd_s) NULL empty_world w2 ∧
       fd_events (w_trace w2) = fd_events (w_trace w1) ++ e ∧
       (e = [] ∨ e = [("open"%string, -1)] ∨
        ∃ n, n ≠ -1 ∧ e = [("open"%string, n); ("close"%string, n)])).
Proof.
  by apply (@file_life_balanced (answers [8192; 5]) 9 NULL 0 0 empty_world).
Defined.
