(* ===== verification/FileProps.v ===== *)
(** Buffered writing and reading of files opened for direct transfers. *)

From S2P Require Import Prelude World Life Bytes Pair Atomic Io IoProps File.
#[local] Open Scope Z_scope.

(** * Writing *)

(** The system takes whole buffers: what [write] on a regular file with room does
    up to the size Linux transfers at once. *)
Definition whole_writes `{OS} : Prop := ∀ t n nbytes data,
  0 ≤ nbytes ≤ 0x7ffff000 → a_ret (os_answer t "write" [n; nbytes] data) = nbytes.

(** The write buffer: [size] bytes at [b], which begin with [l]. *)
Record writer (b size : Z) (l : list Z) (y : qp_file_s) (m : gmap Z Z) : Prop := {
  wr_buf : fl_wrbuf y = b;
  wr_size : fl_wrbuf_size y = size;
  wr_direct : fl_is_directIO y = true;
  wr_bytes : bytes_at m b l;
  wr_mapped : buffer m b size;
}.

(** [l] is waiting in it to be written. *)
Definition waiting (l : list Z) (y : qp_file_s) : Prop :=
  fl_wrbuf_offset y = Z.of_nat (length l).

(** Memory changed in the buffer only. *)
Definition changed (b n : Z) (w w' : world) : Prop :=
  set_mem ∅ w ≡ₘ set_mem ∅ w' ∧ ∀ a, a < b ∨ b + n ≤ a → w_mem w' !! a = w_mem w !! a.

Lemma changed_refl b n w : changed b n w w.
Proof. by split. Qed.

Lemma changed_trans b n w1 w2 w3 : changed b n w1 w2 → changed b n w2 w3 → changed b n w1 w3.
Proof.
  intros [E1 H1] [E2 H2]. split; [by etrans|]. intros a Ha. rewrite H2, H1 by done. done.
Qed.

Lemma changed_same b n w w' : w' ≡ₘ w → changed b n w w'.
Proof.
  intros E. split; [by apply (f_equal (set_mem ∅)) in E|]. intros a _.
  apply (f_equal w_mem) in E. cbn in E. by rewrite E.
Qed.

Lemma changed_stored b n w p l :
  b ≤ p → p + Z.of_nat (length l) ≤ b + n → changed b n w (set_mem (stored p l (w_mem w)) w).
Proof. intros ??. split; [done|]. intros a Ha. cbn. apply stored_lookup_out. lia. Qed.

Lemma changed_bytes b n w w' p l :
  changed b n w w' → p + Z.of_nat (length l) ≤ b ∨ b + n ≤ p →
  bytes_at (w_mem w) p l → bytes_at (w_mem w') p l.
Proof.
  intros [_ Hc] Hd. rewrite !bytes_at_lookup. intros Hl i c Hi.
  pose proof (lookup_lt_Some _ _ _ Hi). rewrite Hc by lia. by apply Hl.
Qed.

(** What a call returns: the bytes it buffered last, or all when the last went out
    with a full buffer. *)
Definition write_result (size done off len : Z) : Z :=
  if off + len <? size then len
  else if (off + len) mod size =? 0 then done else (off + len) mod size.

Lemma write_result_wrap size done off len :
  0 < size → size < off + len →
  write_result size done 0 (off + len - size) = write_result size done off len.
Proof.
  intros Hs Hl. unfold write_result. rewrite Z.add_0_l, (proj2 (Z.ltb_ge (off + len) size)) by lia.
  replace ((off + len - size) mod size) with ((off + len) mod size).
  2: { replace (off + len) with (off + len - size + 1 * size) at 1 by lia.
       by rewrite Z.mod_add by lia. }
  destruct (Z.ltb_spec (off + len - size) size) as [Hlt|Hge]; [|done].
  assert ((off + len) mod size = off + len - size) as ->.
  { symmetry. apply Z.mod_unique with (q := 1); lia. }
  by rewrite (proj2 (Z.eqb_neq _ 0)) by lia.
Qed.

Section write.
Context `{OS}.
Context (Hos : whole_writes).

(** The system got [l] with the calls that [w'] has more than [w]. *)
Definition sent (w w' : world) (l : list Z) : Prop :=
  ∃ t, w_trace w' = w_trace w ++ t ∧ accepted t = l.

Lemma sent_refl w : sent w w [].
Proof. exists []. by rewrite app_nil_r. Qed.

Lemma sent_trans w1 w2 w3 l l' : sent w1 w2 l → sent w2 w3 l' → sent w1 w3 (l ++ l').
Proof.
  intros (t & Ht & Hl) (t' & Ht' & Hl'). exists (t ++ t').
  rewrite Ht', Ht, (assoc_L (++)). split; [done|]. unfold accepted in *.
  by rewrite fmap_app, concat_app, Hl, Hl'.
Qed.

Lemma sent_none w w' e : w_trace w' = w_trace w ++ [e] → ev_data e = [] → sent w w' [].
Proof. intros Ht He. exists [e]. split; [done|]. unfold accepted. cbn. by rewrite He, take_nil. Qed.

(** [qp_file_stat] does not touch the buffers. *)
Lemma file_stat_spec f y (x : qp_fd_s) w (Q : Z → world → Prop) :
  f ≠ NULL →
  (∀ r y' w', w' ≡ₘ w → sent w w' [] → (y' = y ∨ ∃ v, y' = set_fl_st_size v y) →
     Q r (pair_at w' f y' x)) →
  wp (qp_file_stat f) (pair_at w f y x) Q.
Proof using.
  intros Hf HQ. pose proof (proj2 (Z.eqb_neq f NULL) Hf) as Hn.
  unfold qp_file_stat, qp_fd_is_valid. pstep. pstep. rewrite Hn. cbn [orb].
  destruct (negb _); [pstep; apply HQ; [done|apply sent_refl|by left]|]. prun Hn.
  assert (sent w (record "fstat" [fd_fd x] [] a w) []) as Hs by by eapply sent_none.
  destruct (_ =? 0); prun Hn; apply HQ; try done; [right; by eexists|by left].
Qed.

(** Flushing [l]: the first [n] bytes of the buffer, which is all of [l]. *)
Lemma file_flush_spec f b size l (full : bool) y (x : qp_fd_s) w (Q : Z → world → Prop) :
  f ≠ NULL → b ≠ NULL → writer b size l y (w_mem w) → size ≤ 0x7ffff000 →
  0 < size → Z.of_nat (length l) ≤ size →
  (if full then Z.of_nat (length l) = size else waiting l y) →
  (∀ y' w', w' ≡ₘ w → sent w w' l → writer b size [] y' (w_mem w') → waiting [] y' → Q (if decide (l = []) then 0 else size) (pair_at w' f y' x)) →
  wp (qp_file_flush f full) (pair_at w f y x) Q.
Proof using Hos.
  intros Hf Hb [Hwb Hws Hd Hl Hm] Hs Hpos Hle Hfull HQ.
  pose proof (proj2 (Z.eqb_neq f NULL) Hf) as Hn.
  unfold qp_file_flush, qp_file_is_directIO. rewrite Hn. pstep. pstep.
  rewrite Hwb, (proj2 (Z.eqb_neq b NULL)) by done. do 8 pstep.
  replace (if full then fl_wrbuf_size y else fl_wrbuf_offset y) with (Z.of_nat (length l))
    by (destruct full; [by rewrite Hws|by rewrite Hfull]).
  pstep. change (fl_is_directIO (set_fl_wrbuf_offsetlast _ y)) with (fl_is_directIO y).
  rewrite Hd. unfold qp_fd_write, sys_write. do 5 pstep.
  cbn [fl_wrbuf_offsetlast set_fl_wrbuf_offsetlast].
  eapply wp_read_bytes_pair; [exact Hl|done|]. do 3 pstep.
  assert (a_ret a = Z.of_nat (length l)) as Ha by (subst a; apply Hos; lia). rewrite Ha.
  assert (sent w (record "write" [fd_fd x; Z.of_nat (length l)] l a w) l) as Hsent.
  { eexists. split; [apply record_trace|]. unfold accepted. cbn. rewrite Ha, Nat2Z.id.
    by rewrite firstn_all, app_nil_r. }
  destruct l as [|c l]; [|rewrite decide_False in HQ by done].
  { change (0 <? Z.of_nat (length [])) with false. pstep. apply HQ; [done|done|by split|].
    destruct full; [cbn in *; lia|done]. }
  set (n := Z.of_nat (length (c :: l))) in *.
  replace (0 <? n) with true by (symmetry; apply Z.ltb_lt; unfold n; cbn; lia).
  prun Hn. cbn [fl_wrbuf_offset fl_wrbuf_offsetlast set_fl_wrbuf_offset set_fl_wrbuf_offsetlast].
  rewrite Z.sub_diag. change (u64 0) with 0. prun Hn.
  apply file_stat_spec; [done|]. intros r y' w' E Hst Hy'. pstep.
  rewrite Z.sub_0_r, Hws. unfold i64. rewrite Z.mod_small by lia.
  replace (size + 2 ^ 63 - 2 ^ 63) with size by lia.
  assert (w_mem w' = w_mem w) as Em by by apply (f_equal w_mem) in E.
  apply HQ; [done| | |by destruct Hy' as [->|[v ->]]].
  - pose proof (sent_trans _ _ _ _ _ Hsent Hst) as Hss. by rewrite app_nil_r in Hss.
  - destruct Hy' as [->|[v ->]]; split; try done; by rewrite Em.
Qed.

(** Bytes copied behind what is waiting. *)
Lemma writer_push b size l d y y' m :
  writer b size l y m → Z.of_nat (length l) + Z.of_nat (length d) ≤ size →
  fl_wrbuf y' = fl_wrbuf y → fl_wrbuf_size y' = fl_wrbuf_size y →
  fl_is_directIO y' = fl_is_directIO y →
  writer b size (l ++ d) y' (stored (b + Z.of_nat (length l)) d m).
Proof using.
  intros [Hwb Hws Hdir Hl Hm] Hle E1 E2 E3. split; try (by etrans).
  - apply bytes_at_app. split; [|apply bytes_at_stored]. apply bytes_at_stored_out; [lia|done].
  - by apply buffer_stored.
Qed.

(** What is kept across calls: the file's world after [w] is [w1], [out] is sent and
    [l] is waiting. *)
Definition writing_at (b size : Z) (w w1 : world) (y : qp_file_s) (out l : list Z) : Prop :=
  writer b size l y (w_mem w1) ∧ waiting l y ∧ Z.of_nat (length l) < size ∧ changed b size w w1 ∧
  sent w w1 out.

(** One round of the loop: [d] is left to write, at [p]. *)
Definition write_inv (f b size done : Z) (x : qp_fd_s) (w : world) (all : list Z) (res rest : Z)
    (n : nat) (v : Z * Z) (w' : world) : Prop :=
  ∃ w1 y out l d p, v = (p, Z.of_nat (length d)) ∧ w' = pair_at w1 f y x ∧
    writing_at b size w w1 y out l ∧ bytes_at (w_mem w1) p d ∧
    (p + Z.of_nat (length d) ≤ b ∨ b + size ≤ p) ∧ Z.of_nat (length d) < 2 ^ 63 ∧
    out ++ l ++ d = all ∧ write_result size done (Z.of_nat (length l)) (Z.of_nat (length d)) = res ∧
    (Z.of_nat (length l) + Z.of_nat (length d)) mod size = rest ∧ n = length d.

(** Bytes added to the buffer. *)
Lemma buffer_add_spec f b size w w1 y y' out l d p n (x : qp_fd_s) (Q : unit → world → Prop) :
  writer b size l y (w_mem w1) → changed b size w w1 → sent w w1 out → bytes_at (w_mem w1) p d →
  n = Z.of_nat (length d) → (p + n ≤ b ∨ b + size ≤ p) → Z.of_nat (length l) + n ≤ size →
  fl_wrbuf y' = fl_wrbuf y → fl_wrbuf_size y' = fl_wrbuf_size y →
  fl_is_directIO y' = fl_is_directIO y →
  (∀ w2, writer b size (l ++ d) y' (w_mem w2) → changed b size w w2 → changed b size w1 w2 →
     sent w w2 out → Q tt (pair_at w2 f y' x)) →
  wp (memcpy (b + Z.of_nat (length l)) p n) (pair_at w1 f y' x) Q.
Proof using.
  intros Hwr Hch Hse Hd -> Hdis Hle E1 E2 E3 HQ.
  eapply (wp_memcpy_pair _ p _ d); [done|done| |lia|].
  { eapply (buffer_weaken _ b size); [lia..|apply Hwr]. }
  apply HQ; [by eapply writer_push| | |].
  - eapply changed_trans; [done|]. apply changed_stored; lia.
  - apply changed_stored; lia.
  - destruct Hse as (t & Ht & Hacc). by exists t.
Qed.

(** After the buffer was filled with the first [k] bytes and written, the rest is next. *)
Lemma write_more f b size done x w all w1 y1 w3 y3 out l d p (k : nat) :
  0 < size → Z.of_nat (length l) + Z.of_nat k = size → (0 < k)%nat → (k < length d)%nat →
  writing_at b size w w3 y3 (out ++ l ++ take k d) [] → writer b size l y1 (w_mem w1) →
  changed b size w1 w3 → bytes_at (w_mem w1) p d →
  (p + Z.of_nat (length d) ≤ b ∨ b + size ≤ p) → Z.of_nat (length d) < 2 ^ 63 →
  out ++ l ++ d = all →
  write_inv f b size done x w all
    (write_result size done (Z.of_nat (length l)) (Z.of_nat (length d)))
    ((Z.of_nat (length l) + Z.of_nat (length d)) mod size) (length d - k)
    (p + Z.of_nat k, Z.of_nat (length d) - Z.of_nat k) (pair_at w3 f y3 x).
Proof using.
  intros Hs Hk Hk0 Hkd Hat Hwr Hch Hd Hdis Hlen Hall.
  assert (length (drop k d) = (length d - k)%nat) as Hdrop by apply length_drop.
  exists w3, y3, (out ++ l ++ take k d), [], (drop k d), (p + Z.of_nat k).
  rewrite Hdrop. split_and!; try done.
  - f_equal. lia.
  - eapply bytes_at_drop, changed_bytes; [lia|done|done|done].
  - lia.
  - lia.
  - cbn. by rewrite <-Hall, <-!(assoc_L (++)), take_drop.
  - rewrite <-(write_result_wrap size done (Z.of_nat (length l))) by lia. f_equal. lia.
  - replace (Z.of_nat (length l) + Z.of_nat (length d)) with (Z.of_nat (length d - k) + 1 * size) by lia.
    by rewrite Z.mod_add by lia.
Qed.

Lemma write_round f b size done x w all res rest n v w' :
  f ≠ NULL → b ≠ NULL → size ≤ 0x7ffff000 → 0 ≤ done < 2 ^ 63 →
  write_inv f b size done x w all res rest n v w' →
  wp (qp_file_write_body f done v) w' (λ r w2,
    match r with
    | inl v' => ∃ n', (n' < n)%nat ∧ write_inv f b size done x w all res rest n' v' w2
    | inr r => r = res ∧ ∃ w1 y out l, w2 = pair_at w1 f y x ∧
        writing_at b size w w1 y out l ∧ out ++ l = all ∧ Z.of_nat (length l) = rest
    end).
Proof using Hos.
  intros Hf Hb Hs Hdone (w1 & y & out & l & d & p & -> & -> & (Hwr & Ho & Hlt & Hch & Hse) & Hd & Hdis
    & Hlen & Hall & <- & <- & ->).
  pose proof Hwr as [Hwb Hws Hdir Hl Hm]. unfold waiting in Ho. pose proof (proj2 (Z.eqb_neq f NULL) Hf) as Hn.
  unfold qp_file_write_body. prun Hn. rewrite Hwb, Hws, Ho.
  cbn [fl_wrbuf_offset set_fl_wrbuf_offset set_fl_wrbuf_offsetlast]. rewrite wrap_small by lia.
  destruct (Z.ltb_spec (Z.of_nat (length l) + Z.of_nat (length d)) size) as [Hfit|Hfull].
  - (* it fits *)
    pstep. eapply buffer_add_spec; try done; [lia|]. intros w2 Hwr2 Hch2 _ Hse2. pstep. split.
    { unfold write_result, i64. rewrite (proj2 (Z.ltb_lt _ _) Hfit). rewrite Z.mod_small; lia. }
    eexists _, _, out, (l ++ d). rewrite length_app, Nat2Z.inj_add.
    split_and!; [reflexivity| |done|symmetry; apply Z.mod_small; lia].
    split_and!; try done; [|rewrite length_app; lia].
    unfold waiting. rewrite length_app. cbn. lia.
  - (* the buffer is filled, and written *)
    set (k := Z.to_nat (size - Z.of_nat (length l))).
    prun Hn. cbn [fl_wrbuf_offset set_fl_wrbuf_offset set_fl_wrbuf_offsetlast].
    rewrite (wrap_small _ (size - _)) by lia.
    replace (size - Z.of_nat (length l)) with (Z.of_nat k) by lia.
    assert (length (take k d) = k) as Hk by (rewrite length_take; lia).
    assert (bytes_at (w_mem w1) p (take k d)) as Hd1.
    { rewrite <-(take_drop k d) in Hd. by apply bytes_at_app in Hd as [? _]. }
    assert (Z.of_nat (length (l ++ take k d)) = size) as Hsize by (rewrite length_app, Hk; lia).
    eapply buffer_add_spec with (d := take k d); try done; [by rewrite Hk|lia..|].
    intros w2 Hwr2 Hch2 Hch12 Hse2. pstep.
    eapply file_flush_spec; [done|done|exact Hwr2|done|lia|lia|done|].
    intros y3 w3 E3 Hs3 Hwr3 Hw3. rewrite decide_False.
    2: { intros E. rewrite E in Hsize. cbn in Hsize. lia. }
    replace (size <? 1) with false by (symmetry; apply Z.ltb_ge; lia).
    rewrite (wrap_small _ (Z.of_nat (length d) - _)) by lia.
    assert (writing_at b size w w3 y3 (out ++ l ++ take k d) []) as Hat.
    { split_and!; [done|done|cbn; lia|eapply changed_trans; [done|by apply changed_same]|by eapply sent_trans]. }
    prun Hn. destruct (Z.eqb_spec (Z.of_nat (length d) - Z.of_nat k) 0) as [E|E]; cbn [negb]; pstep.
    + split.
      { unfold transfer_result, write_result.
        rewrite (proj2 (Z.eqb_eq _ _) E), (proj2 (Z.ltb_ge _ _) Hfull).
        replace (Z.of_nat (length l) + Z.of_nat (length d)) with size by lia.
        rewrite Z.mod_same by lia. cbn. unfold i64. rewrite Z.mod_small; lia. }
      eexists _, _, _, []. split_and!; [reflexivity|exact Hat| |].
      * rewrite take_ge by lia. by rewrite app_nil_r.
      * replace (Z.of_nat (length l) + Z.of_nat (length d)) with size by lia. by rewrite Z.mod_same by lia.
    + exists (length d - k)%nat. split; [lia|].
      eapply write_more; try done; [lia..|]. eapply changed_trans; [done|by apply changed_same].
Qed.
End write.

Section stream.
Context `{OS}.
Context (Hos : whole_writes).

(** [qp_file_write] of [d] with [l] waiting. *)
Lemma file_write_spec fuel f b size (x : qp_fd_s) w w1 y out l p d (Q : Z → world → Prop) :
  f ≠ NULL → b ≠ NULL → 0 < size ≤ 0x7ffff000 → fd_is_inited x = true →
  writing_at b size w w1 y out l → bytes_at (w_mem w1) p d →
  (p + Z.of_nat (length d) ≤ b ∨ b + size ≤ p) → Z.of_nat (length d) < 2 ^ 63 →
  (length d < fuel)%nat →
  (∀ w2 y2 out2 l2, writing_at b size w w2 y2 out2 l2 → out2 ++ l2 = out ++ l ++ d →
     Z.of_nat (length l2) = (Z.of_nat (length l) + Z.of_nat (length d)) mod size →
     Q (write_result size (Z.of_nat (length d)) (Z.of_nat (length l)) (Z.of_nat (length d)))
       (pair_at w2 f y2 x)) →
  wp (qp_file_write fuel f p (Z.of_nat (length d)) 0) (pair_at w1 f y x) Q.
Proof using Hos.
  intros Hf Hb Hsize Hi Hat Hd Hdis Hlen Hfuel HQ.
  pose proof (proj2 (Z.eqb_neq f NULL) Hf) as Hn. pose proof Hat as (Hwr & _).
  unfold qp_file_write, qp_fd_is_inited, qp_file_is_directIO. prun Hn. rewrite Hi. prun Hn.
  rewrite (wr_direct _ _ _ _ _ Hwr). prun Hn.
  set (done := Z.of_nat (length d)) in *. set (off := Z.of_nat (length l)) in *.
  eapply wp_mono.
  - eapply (wp_loop _ _ _ (λ n v w', write_round Hos f b size done x w (out ++ l ++ d)
      (write_result size done off done) ((off + done) mod size) n v w' Hf Hb
      (proj2 Hsize) ltac:(unfold done; lia)) fuel (length d)); [|done].
    exists w1, y, out, l, d, p. by split_and!.
  - intros r w2 (-> & w3 & y3 & out3 & l3 & -> & Hat3 & Hall & Hrest). by eapply HQ.
Qed.

(** [qp_file_close] sends what is waiting. *)
Lemma file_close_sends fuel f b size (x : qp_fd_s) w w1 y out l (Q : Z → world → Prop) :
  f ≠ NULL → b ≠ NULL → 0 < size ≤ 0x7ffff000 → fd_fd x ≠ QP_FD_INVALID →
  writing_at b size w w1 y out l → (2 ≤ fuel)%nat →
  (∀ r w2 (y2 : qp_file_s), sent w w2 (out ++ l) → changed b size w w2 →
     Q r (pair_at w2 f y2 (set_fd_fd QP_FD_INVALID x))) →
  wp (qp_file_close fuel f) (pair_at w1 f y x) Q.
Proof using Hos.
  intros Hf Hb Hsize Hx (Hwr & Hw & Hlt & Hch & Hse) Hfuel HQ.
  pose proof (proj2 (Z.eqb_neq f NULL) Hf) as Hn.
  assert ((QP_FD_INVALID =? fd_fd x) = false) as Hxn by (apply Z.eqb_neq; congruence).
  unfold qp_file_close, qp_fd_is_valid. rewrite Hn. pstep. pstep. rewrite Hxn. prun Hn.
  assert (∀ (y2 : qp_file_s) w2, sent w w2 (out ++ l) → changed b size w w2 →
    wp (qp_fd_close f) (pair_at w2 f y2 x) Q) as Hclose.
  { intros y2 w2 Hs2 Hc2. unfold qp_fd_close, qp_fd_is_valid. pstep. pstep. rewrite Hxn. prun Hn.
    apply HQ; [|by eapply changed_trans; [|apply changed_same]].
    rewrite <-(app_nil_r (out ++ l)). eapply sent_trans; [done|]. by eapply sent_none. }
  rewrite (wr_buf _ _ _ _ _ Hwr), (proj2 (Z.eqb_neq _ _) Hb), Hw. cbn [negb andb].
  destruct (Z.ltb_spec 0 (Z.of_nat (length l))) as [Hl|Hl].
  - destruct fuel as [|[|fuel]]; [lia..|]. cbn [loop]. pstep. pstep.
    eapply file_flush_spec; [done|done|done|exact Hwr|lia|lia|lia|done|].
    intros y2 w2 E2 Hs2 Hwr2 Hw2. rewrite decide_False by (by intros ->).
    rewrite (proj2 (Z.ltb_lt 0 size)) by lia. prun Hn.
    eapply file_flush_spec; [done|done|done|exact Hwr2|lia|lia|cbn; lia|done|].
    intros y3 w3 E3 Hs3 _ _. rewrite decide_True by done. change (0 <? 0) with false.
    prun Hn. apply Hclose.
    + eapply sent_trans; [done|]. rewrite <-(app_nil_r l). by eapply sent_trans.
    + eapply changed_trans; [done|]. apply changed_same. by etrans.
  - prun Hn. apply Hclose; [|done]. destruct l; [|cbn in Hl; lia]. by rewrite app_nil_r.
Qed.

(** What the writes return, with [off] bytes waiting before the first. *)
Fixpoint write_results (size off : Z) (chunks : list (Z * list Z)) : list Z :=
  match chunks with
  | [] => []
  | (_, d) :: chunks =>
      let n := Z.of_nat (length d) in
      write_result size n off n :: write_results size ((off + n) mod size) chunks
  end.

(** Chunks that can be written: where each lies, and its bytes. *)
Definition chunk_ok (b size : Z) (fuel : nat) (m : gmap Z Z) (c : Z * list Z) : Prop :=
  bytes_at m c.1 c.2 ∧ (c.1 + Z.of_nat (length c.2) ≤ b ∨ b + size ≤ c.1) ∧
  Z.of_nat (length c.2) < 2 ^ 63 ∧ (length c.2 < fuel)%nat.

Definition write_all (fuel : nat) (f : Z) (chunks : list (Z * list Z)) : M world (list Z) :=
  mapM (λ c, qp_file_write fuel f c.1 (Z.of_nat (length c.2)) 0) chunks.

Lemma write_all_spec fuel f b size (x : qp_fd_s) w chunks w1 y out l (Q : list Z → world → Prop) :
  f ≠ NULL → b ≠ NULL → 0 < size ≤ 0x7ffff000 → fd_is_inited x = true →
  Forall (chunk_ok b size fuel (w_mem w)) chunks → writing_at b size w w1 y out l →
  (∀ w2 y2 out2 l2, writing_at b size w w2 y2 out2 l2 →
     out2 ++ l2 = out ++ l ++ concat chunks.*2 →
     Q (write_results size (Z.of_nat (length l)) chunks) (pair_at w2 f y2 x)) →
  wp (write_all fuel f chunks) (pair_at w1 f y x) Q.
Proof using Hos.
  intros Hf Hb Hsize Hi. revert w1 y out l Q. unfold write_all.
  induction chunks as [|[p d] chunks IH]; intros w1 y out l Q Hok Hat HQ; cbn [mapM].
  { pstep. apply HQ with (out2 := out) (l2 := l); [done|]. by rewrite !app_nil_r. }
  apply Forall_cons in Hok as [(Hd & Hdis & Hlen & Hfuel) Hok]. cbn [fst snd] in *.
  pstep. eapply file_write_spec; [done..| |done|done|done|].
  { eapply changed_bytes; [apply Hat|done|done]. }
  intros w2 y2 out2 l2 Hat2 Hall2 Hrest2. pstep. eapply IH; [done|exact Hat2|].
  intros w3 y3 out3 l3 Hat3 Hall3. pstep. cbn [write_results]. rewrite Hrest2.
  eapply HQ; [done|]. rewrite Hall3. cbn. rewrite (assoc_L (++) out2), Hall2, <-!(assoc_L (++)).
  done.
Qed.

End stream.

(** A system that takes whatever it is given. *)
Definition willing_system : OS := {|
  os_answer t name args data := Ans (nth 1 args 0) 0 [];
  pthread_self := 7;
  getpid := 100;
|}.

(** A file with a buffer of 4 bytes at 200, and some bytes to write at 100. *)
Definition direct_file : qp_file_s :=
  set_fl_is_directIO true (set_fl_wrbuf_size 4 (set_fl_wrbuf 200 zero_file)).
Definition open_fd : qp_fd_s := MkFd 5 QP_FD_TYPE_FILE NULL zero_aiocb true false false.
Definition file_world : world :=
  pair_at (set_mem (stored 100 [1; 2; 3; 4; 5; 6] (map_seqZ 200 [0; 0; 0; 0])) empty_world)
    4096 direct_file open_fd.


(** * Reading *)

Section read.
Context `{OS}.

(** Filling the read buffer of [size] bytes at [b]. *)
Lemma file_track_spec f b size y (x : qp_fd_s) w (Q : Z → world → Prop) :
  f ≠ NULL → b ≠ NULL → fl_rdbuf y = b → fl_rdbuf_size y = size → fl_is_directIO y = true →
  buffer (w_mem w) b size → 0 ≤ size < 2 ^ 63 →
  let a := os_answer (w_trace w) "read" [fd_fd x; size] [] in
  let l := fill (a_ret a) (a_data a) in
  a_ret a ≤ size →
  (Q (a_ret a) (pair_at (set_mem (stored b l (w_mem w)) (record "read" [fd_fd x; size] [] a w)) f
     (if 0 <? a_ret a then set_fl_rdbuf_offsetlast 0 (set_fl_rdbuf_offset (a_ret a) y) else y) x)) →
  wp (qp_file_track f) (pair_at w f y x) Q.
Proof.
  intros Hf Hb Hrb Hrs Hd Hm Hsize a l Ha HQ. pose proof (proj2 (Z.eqb_neq f NULL) Hf) as Hn.
  unfold qp_file_track, qp_file_is_directIO, qp_fd_read, sys_read.
  prun Hn. rewrite Hrb, (proj2 (Z.eqb_neq b NULL)) by done. prun Hn. rewrite Hd. prun Hn.
  rewrite Hrs in *. subst a0. fold a in HQ |- *.
  apply wp_write_bytes_pair.
  { rewrite length_fill. cbn. eapply (buffer_weaken _ b size); [lia| |done]. lia. }
  prun Hn. change (w_mem (record _ _ _ _ w)) with (w_mem w). fold l.
  destruct (Z.ltb_spec 0 (a_ret a)) as [Hr|Hr]; prun Hn; [|done].
  cbn [fl_rdbuf_offset set_fl_rdbuf_offset set_fl_rdbuf_offsetlast].
  unfold i64. rewrite !wrap_small, Z.mod_small by lia.
  by replace (a_ret a + 2 ^ 63 - 2 ^ 63) with (a_ret a) by lia.
Qed.

End read.

(** A file of three bytes. *)
Definition short_file : OS := {|
  os_answer t name args data := if decide (t = []) then Ans 3 0 [7; 8; 9] else Ans 0 0 [];
  pthread_self := 7;
  getpid := 100;
|}.

Definition reading_file : qp_file_s :=
  set_fl_is_directIO true (set_fl_rdbuf_size 4 (set_fl_rdbuf 200 zero_file)).
Definition read_world : world :=
  pair_at (set_mem (stored 100 [0; 0; 0; 0] (map_seqZ 200 [0; 0; 0; 0])) empty_world)
    4096 reading_file open_fd.

