(* ===== verification/Socket.v ===== *)
(** Sockets: [src/src/qp_socket.c]. A socket at [p] is the descriptor at [p], its
    first member, and the socket structure at [p]. *)

From S2P Require Import Prelude World Bytes Atomic Io.
#[local] Open Scope Z_scope.

(** * Constants and layout (Linux, LP64) *)

Definition QP_SOCKET_DEFAULT_LISTENBACKLOG : Z := 128.
(** ["/tmp/"] *)
Definition QP_SOCKET_DEFAULT_UNET_PATH : list Z := [47; 116; 109; 112; 47].
Definition QP_SOCKET_UNSUPPORT : Z := QP_ERROR.
Definition QP_SOCKET_SHUT_CLOSE : Z := QP_ERROR.
Definition QP_SOCKET_DOMAIN_UNSUPPORT : Z := QP_SOCKET_UNSUPPORT.
Definition QP_SOCKET_DOMAIN_UNIX : Z := 1.
Definition QP_SOCKET_DOMAIN_INET : Z := 2.
Definition QP_SOCKET_DOMAIN_INET6 : Z := 10.
Definition QP_SOCKET_DOMAIN_PACKET : Z := 17.
Definition QP_SOCKET_TYPE_UNSUPPORT : Z := QP_SOCKET_UNSUPPORT.
Definition QP_SOCKET_TYPE_STREAM : Z := 1.
Definition QP_SOCKET_TYPE_DGRAM : Z := 2.
Definition QP_SOCKET_TYPE_RAW : Z := 3.
Definition QP_SOCKET_SO_REUSE_ADDR : Z := 2.

Definition sizeof_socket : Z := 160.
Definition sizeof_sockaddr : Z := 16.
Definition sizeof_sockaddr_in : Z := 16.
Definition sizeof_sockaddr_in6 : Z := 28.
Definition sizeof_sockaddr_un : Z := 110.
Definition offsetof_sun_path : Z := 2.
Definition sizeof_sun_path : Z := 108.
Definition S_IRWXU : Z := 448.
Definition SOL_SOCKET : Z := 1.
Definition SO_REUSEADDR : Z := 2.
Definition IPPROTO_TCP : Z := 6.
Definition TCP_NODELAY : Z := 1.
Definition TCP_CORK : Z := 3.
Definition TCP_QUICKACK : Z := 12.

Definition zero_socket : qp_socket_s := MkSocket 0 0 [] 0 0 0 0 false false.

(** ** The C library *)

(** [htons] and [ntohs] on a little-endian host. *)
Definition htons (p : Z) : Z := (p mod 256) * 256 + (p / 256) mod 256.
Definition ntohs : Z → Z := htons.

(** The decimal digits of a number that is not negative, as [%05ld] prints it. *)
Fixpoint digits (fuel : nat) (n : Z) : list Z :=
  match fuel with
  | O => []
  | S fuel => if n <? 10 then [48 + n] else digits fuel (n / 10) ++ [48 + n mod 10]
  end.
Definition pad5 (l : list Z) : list Z := replicate (5 - length l) 48 ++ l.

(** An [int] in memory. *)
Definition int_bytes (v : Z) : list Z :=
  (λ k, Z.shiftr v (8 * Z.of_nat k) mod 256) <$> seq 0 4.

(** The C string ["0.0.0.0"]. *)
Definition any_name : list Z := [48; 46; 48; 46; 48; 46; 48].

(** * Flags *)

Definition qp_socket_set_alloced : Z → M world unit := set_flag (set_so_is_alloced true).
Definition qp_socket_set_listen : Z → M world unit := set_flag (set_so_is_listen true).
Definition qp_socket_is_alloced : Z → M world bool := is_flag so_is_alloced.
Definition qp_socket_is_listen : Z → M world bool := is_flag so_is_listen.

Section socket.
Context `{OS}.

(** * Life cycle *)

Definition qp_socket_create (skt : Z) : M world Z :=
  skt ← (if skt =? NULL then
           skt ← malloc sizeof_socket;
           if skt =? NULL then mret NULL else
           new skt zero_socket;; new skt zero_fd;; qp_socket_set_alloced skt;; mret skt
         else
           st (λ _, zero_socket) skt;; st (λ _, zero_fd) skt;; mret skt);
  if skt =? NULL then mret NULL else
  fd ← qp_fd_init skt QP_FD_TYPE_SOCKET false;
  if fd =? NULL then
    alloced ← qp_socket_is_alloced skt;
    (if (alloced : bool) then free skt else mret tt);; mret NULL
  else
  st (set_so_domain QP_SOCKET_DOMAIN_UNSUPPORT) skt;;
  st (set_so_type QP_SOCKET_TYPE_UNSUPPORT) skt;; mret skt.

Definition qp_socket_close (skt shut : Z) : M world Z :=
  valid ← qp_fd_is_valid skt;
  if (skt =? NULL) || negb valid then mret QP_ERROR else
  (if negb (shut =? QP_SOCKET_SHUT_CLOSE) then
     fd ← qp_fd_get_fd skt; call "shutdown" [fd; shut];; mret tt
   else mret tt);;
  qp_fd_close skt.

Definition qp_socket_destroy (skt : Z) : M world Z :=
  inited ← qp_fd_is_inited skt;
  if (skt =? NULL) || negb inited then mret QP_ERROR else
  qp_socket_close skt QP_SOCKET_SHUT_CLOSE;;
  qp_fd_destroy skt;;
  st (set_so_domain QP_SOCKET_DOMAIN_UNSUPPORT) skt;;
  st (set_so_type QP_SOCKET_TYPE_UNSUPPORT) skt;;
  alloced ← qp_socket_is_alloced skt;
  (if (alloced : bool) then free skt else mret tt);; mret QP_SUCCESS.

(** * Addresses *)

(** [inet_pton(domain, name, &sin_addr)]: 1 when it stored an address. *)
Definition inet_pton (skt : Z) (name : list Z) : M world Z :=
  domain ← ld so_domain skt;
  a ← ext "inet_pton" [domain] name;
  (if a_ret a =? 1 then st (set_so_addr (fill 4 (a_data a))) skt else mret tt);;
  mret (a_ret a).

Definition qp_socket_assign_inet (skt : Z) (name : list Z) (port : Z) : M world Z :=
  st (set_so_port 0) skt;; st (set_so_addr (fill 4 [])) skt;;
  domain ← ld so_domain skt; st (set_so_family domain) skt;;
  listen ← qp_socket_is_listen skt;
  if (listen : bool) then
    ok ← (if bool_decide (name = any_name) then
            st (set_so_addr (fill 4 [])) skt;; mret true
          else
            ret ← inet_pton skt name; mret (1 =? ret));
    if negb ok then mret NULL else
    st (set_so_len sizeof_sockaddr_in) skt;;
    st (set_so_port (ntohs port)) skt;; mret skt
  else
    ret ← inet_pton skt name;
    if negb (1 =? ret) then mret NULL else
    st (set_so_len sizeof_sockaddr_in) skt;;
    st (set_so_port (htons port)) skt;; mret skt.

Definition qp_socket_assign_inet6 (skt : Z) (name : list Z) (port : Z) : M world Z := mret NULL.

Definition qp_socket_assign_packet (skt : Z) : M world Z := mret NULL.

Definition qp_socket_assign_unix (skt : Z) (name : list Z) : M world Z :=
  st (set_so_addr []) skt;;
  domain ← ld so_domain skt; st (set_so_family domain) skt;;
  listen ← qp_socket_is_listen skt;
  if (listen : bool) then
    st (set_so_addr name) skt;;
    path ← ld so_addr skt;
    st (set_so_len (u32 (offsetof_sun_path + Z.of_nat (length path)))) skt;;
    path ← ld so_addr skt; ext "unlink" [] path;; mret skt
  else
    family ← ld so_domain skt;
    let path := QP_SOCKET_DEFAULT_UNET_PATH ++ pad5 (digits 20 pthread_self) in
    let len := u32 (offsetof_sun_path + Z.of_nat (length path)) in
    ext "unlink" [] path;;
    fd ← qp_fd_get_fd skt;
    a ← ext "bind" [fd; family; len] path;
    if negb (QP_SUCCESS =? a_ret a) then mret NULL else
    a ← ext "chmod" [S_IRWXU] path;
    if negb (QP_SUCCESS =? a_ret a) then ext "unlink" [] path;; mret NULL else
    st (set_so_addr name) skt;;
    st (set_so_len (u32 (offsetof_sun_path + Z.of_nat (length name)))) skt;; mret skt.

(** The arguments [qp_socket_init] accepts; [name] is NULL or a C string. *)
Definition init_args (domain type : Z) (name : option (list Z)) (port : Z) : bool :=
  (if (domain =? QP_SOCKET_DOMAIN_INET) || (domain =? QP_SOCKET_DOMAIN_INET6) then
     bool_decide (is_Some name) && negb (port =? 0)
   else if domain =? QP_SOCKET_DOMAIN_UNIX then
     if name is Some l then Z.of_nat (length l) <? sizeof_sun_path else false
   else false) &&
  ((type =? QP_SOCKET_TYPE_STREAM) || (type =? QP_SOCKET_TYPE_DGRAM) ||
   (type =? QP_SOCKET_TYPE_RAW)).

Definition qp_socket_assign (skt : Z) (name : list Z) (port : Z) : M world Z :=
  domain ← ld so_domain skt;
  if domain =? QP_SOCKET_DOMAIN_INET then qp_socket_assign_inet skt name port
  else if domain =? QP_SOCKET_DOMAIN_INET6 then qp_socket_assign_inet6 skt name port
  else if domain =? QP_SOCKET_DOMAIN_UNIX then qp_socket_assign_unix skt name
  else if domain =? QP_SOCKET_DOMAIN_PACKET then qp_socket_assign_packet skt
  else mret NULL.

Definition qp_socket_init (skt domain type : Z) (name : option (list Z)) (port : Z)
    (as_server : bool) (server_backlog : Z) : M world Z :=
  if negb (init_args domain type name port) then mret NULL else
  skt ← qp_socket_create skt;
  if skt =? NULL then mret NULL else
  st (set_so_domain domain) skt;; st (set_so_type type) skt;;
  (if as_server then
     qp_socket_set_listen skt;;
     st (set_so_backlog (if 0 <? server_backlog then server_backlog
                         else QP_SOCKET_DEFAULT_LISTENBACKLOG)) skt
   else mret tt);;
  domain ← ld so_domain skt; type ← ld so_type skt;
  fd ← call "socket" [domain; type; 0]; st (set_fd_fd fd) skt;;
  valid ← qp_fd_is_valid skt;
  if negb valid then qp_socket_destroy skt;; mret NULL else
  assign ← qp_socket_assign skt (default [] name) port;
  if negb (assign =? NULL) then mret assign else
  qp_socket_destroy skt;; mret NULL.

(** * Connections *)

Definition qp_socket_to_int (skt : Z) : M world Z :=
  valid ← qp_fd_is_valid skt;
  if negb (skt =? NULL) && valid then ld fd_fd skt else mret QP_ERROR.

(** The address given to [bind] and [connect]. *)
Definition sockaddr_call (name : string) (skt : Z) : M world Z :=
  fd ← ld fd_fd skt; family ← ld so_family skt; port ← ld so_port skt;
  addr ← ld so_addr skt; len ← ld so_len skt;
  a ← ext name [fd; family; port; len] addr; mret (a_ret a).

Definition qp_socket_listen (skt mode : Z) : M world Z :=
  listen ← qp_socket_is_listen skt; valid ← qp_fd_is_valid skt;
  if negb listen || negb valid then mret QP_ERROR else
  r ← sockaddr_call "bind" skt;
  if negb (QP_SUCCESS =? r) then mret QP_ERROR else
  fd ← ld fd_fd skt; backlog ← ld so_backlog skt;
  r ← call "listen" [fd; backlog];
  if negb (QP_SUCCESS =? r) then mret QP_ERROR else
  domain ← ld so_domain skt;
  (if domain =? QP_SOCKET_DOMAIN_UNIX then
     path ← ld so_addr skt; ext "chmod" [mode] path;; mret tt
   else mret tt);;
  mret QP_SUCCESS.

(** Where [accept] stores the peer's address: length, family, port, address. *)
Definition peer_address (skt : Z) (a : answer) : M world unit :=
  match a_data a with
  | len :: family :: port :: addr =>
      if a_ret a <? 0 then mret tt else
      st (set_so_len (u32 len)) skt;; st (set_so_family family) skt;;
      st (set_so_port port) skt;; st (set_so_addr addr) skt
  | _ => mret tt
  end.

Definition qp_socket_accept (skt sktClient : Z) : M world Z :=
  listen ← qp_socket_is_listen skt; valid ← qp_fd_is_valid skt;
  if negb (listen && valid) then mret NULL else
  sktClient ← qp_socket_create sktClient;
  if sktClient =? NULL then mret NULL else
  domain ← ld so_domain skt; st (set_so_domain domain) sktClient;;
  type ← ld so_type skt; st (set_so_type type) sktClient;;
  domain ← ld so_domain sktClient;
  st (set_so_len (if domain =? QP_SOCKET_DOMAIN_UNIX then sizeof_sockaddr_un
                  else if domain =? QP_SOCKET_DOMAIN_INET then sizeof_sockaddr_in
                  else if domain =? QP_SOCKET_DOMAIN_INET6 then sizeof_sockaddr_in6
                  else sizeof_sockaddr)) sktClient;;
  fd ← ld fd_fd skt; len ← ld so_len sktClient;
  a ← ext "accept" [fd; len] [];
  peer_address sktClient a;;
  st (set_fd_fd (a_ret a)) sktClient;; mret sktClient.

Definition qp_socket_connect (skt : Z) : M world Z :=
  listen ← qp_socket_is_listen skt; valid ← qp_fd_is_valid skt;
  if listen || negb valid then mret QP_ERROR else sockaddr_call "connect" skt.

(** * Options; [optval] is what the pointer points to *)

Definition qp_socket_setsockopt (skt level optname : Z) (optval : list Z) (optlen : Z) : M world Z :=
  valid ← qp_fd_is_valid skt;
  if (skt =? NULL) || negb valid then mret QP_ERROR else
  fd ← ld fd_fd skt;
  a ← ext "setsockopt" [fd; level; optname; optlen] optval; mret (a_ret a).

Definition qp_socket_set_reuse (skt reuse enable : Z) : M world Z :=
  if reuse =? QP_SOCKET_SO_REUSE_ADDR then
    qp_socket_setsockopt skt SOL_SOCKET SO_REUSEADDR (int_bytes enable) 4
  else mret QP_SUCCESS.

Definition qp_socket_set_nopush (skt enable : Z) : M world Z :=
  qp_socket_setsockopt skt IPPROTO_TCP TCP_CORK (int_bytes enable) 4.
Definition qp_socket_set_nodelay (skt enable : Z) : M world Z :=
  qp_socket_setsockopt skt IPPROTO_TCP TCP_NODELAY (int_bytes enable) 4.
Definition qp_socket_set_quickack (skt enable : Z) : M world Z :=
  qp_socket_setsockopt skt IPPROTO_TCP TCP_QUICKACK (int_bytes enable) 4.

Definition qp_socket_set_noblock (skt : Z) : M world Z :=
  if skt =? NULL then mret QP_ERROR else qp_fd_setNoBlock skt.

(** * Transfers *)

Definition qp_socket_sendn (fuel : nat) (skt vptr nbytes : Z) : M world Z :=
  if skt =? NULL then mret 0 else qp_fd_writen fuel skt vptr nbytes.
Definition qp_socket_recvn (fuel : nat) (skt vptr nbytes : Z) : M world Z :=
  if skt =? NULL then mret 0 else qp_fd_readn fuel skt vptr nbytes.
Definition qp_socket_sendv (skt : Z) (iov : list (Z * Z)) (iovcnt : Z) : M world Z :=
  if skt =? NULL then mret QP_ERROR else qp_fd_writev skt iov iovcnt.
Definition qp_socket_recvv (skt : Z) (iov : list (Z * Z)) (iovcnt : Z) : M world Z :=
  if skt =? NULL then mret QP_ERROR else qp_fd_readv skt iov iovcnt.

Definition qp_socket_send (skt vptr nbytes flag : Z) : M world Z :=
  if skt =? NULL then mret QP_ERROR else
  fd ← ld fd_fd skt;
  data ← read_bytes vptr nbytes;
  a ← ext "send" [fd; nbytes; flag] data; mret (a_ret a).

Definition qp_socket_recv (skt vptr nbytes flag : Z) : M world Z :=
  if skt =? NULL then mret QP_ERROR else
  fd ← ld fd_fd skt;
  a ← ext "recv" [fd; nbytes; flag] [];
  write_bytes vptr (fill (a_ret a) (a_data a));; mret (a_ret a).
End socket.
