(* ===== verification/SocketProps.v ===== *)
(** Sockets: their life cycle, the addresses they are bound to, and accepting. *)

From S2P Require Import Prelude World Life Bytes Pair Atomic Io IoProps Socket.
#[local] Open Scope Z_scope.

Lemma fd_events_record name args data a w :
  fd_event (Ev name args data (a_ret a)) = None →
  fd_events (w_trace (record name args data a w)) = fd_events (w_trace w).
Proof. intros He. rewrite record_trace. by apply fd_events_other. Qed.

(** Run code on a pair, splitting at each test. *)
Ltac psplit Hn :=
  repeat first [ progress rewrite Hn | pstep
               | lazymatch goal with |- wp (if ?b then _ else _) (pair_at _ _ _ _) _ =>
                   let E := fresh "E" in destruct b eqn:E end ].

Section life.
Context `{OS}.

(** The world [pair_at w1 q y x] has a socket at [q]. *)
Record socket_alive (p : Z) (w : world) (q : Z) (y : qp_socket_s) (x : qp_fd_s) (w1 : world) : Prop := {
  sa_addr : q ≠ NULL;
  sa_inited : fd_is_inited x = true;
  sa_member : fd_is_alloced x = false;
  sa_aio : fd_aio x = NULL;
  sa_alloced : so_is_alloced y = (p =? NULL);
  sa_memory : created w p sizeof_socket q w1;
}.

Lemma socket_create_spec p w (Q : Z → world → Prop) :
  (p ≠ NULL → is_Some (w_sockets w !! p) ∧ is_Some (w_fds w !! p)) →
  (∀ q y x w1, socket_alive p w q y x w1 → fd_fd x = QP_FD_INVALID → so_is_listen y = false →
     fd_events (w_trace w1) = fd_events (w_trace w) → Q q (pair_at w1 q y x)) →
  (∀ w1, gone_pair (X := qp_socket_s) (Y := qp_fd_s) p w w1 →
     fd_events (w_trace w1) = fd_events (w_trace w) → Q NULL w1) →
  wp (qp_socket_create p) w Q.
Proof.
  intros Hp Hok Hnull. unfold qp_socket_create. apply wp_bind. apply wp_create_pair; [done| |].
  2: { intros w1 Hg Hev. apply wp_ret. by apply Hnull. }
  intros q w1 Hq Hc Hev. pose proof (proj2 (Z.eqb_neq q NULL) Hq) as Hn.
  unfold qp_fd_init, qp_fd_create, qp_fd_set_inited. prun Hn.
  apply Hok; [|done|by destruct (p =? NULL)|done]. split; try done. by destruct (p =? NULL).
Qed.

(** Taking it down closes its descriptor once and gives it back. *)
Lemma socket_destroy_spec p w q y x w1 (Q : Z → world → Prop) :
  socket_alive p w q y x w1 →
  (∀ w2, gone_pair (X := qp_socket_s) (Y := qp_fd_s) p w w2 →
     fd_events (w_trace w2) = fd_events (w_trace w1) ++ closing (fd_fd x) → Q QP_SUCCESS w2) →
  wp (qp_socket_destroy q) (pair_at w1 q y x) Q.
Proof.
  intros [Hq Hi Hm Haio Hal Hc] HQ. pose proof (proj2 (Z.eqb_neq q NULL) Hq) as Hn.
  unfold qp_socket_destroy, qp_fd_is_inited. pstep. pstep. rewrite Hn, Hi. pstep.
  pstep.
  assert (∀ x2 w2, w2 ≡ₘ w1 → fd_fd x2 = QP_FD_INVALID → fd_is_inited x2 = true →
    fd_is_alloced x2 = false → fd_aio x2 = NULL →
    fd_events (w_trace w2) = fd_events (w_trace w1) ++ closing (fd_fd x) →
    wp (qp_fd_destroy q;; st (set_so_domain QP_SOCKET_DOMAIN_UNSUPPORT) q;;
        st (set_so_type QP_SOCKET_TYPE_UNSUPPORT) q;; alloced ← qp_socket_is_alloced q;
        (if (alloced : bool) then free q else mret tt);; mret QP_SUCCESS) (pair_at w2 q y x2) Q)
    as Hend.
  { intros x2 w2 E2 Hf2 Hi2 Hm2 Ha2 Hev2. pstep. rewrite pair_member.
    eapply fd_destroy_run; [done|done|by left|]. intros w3 E Hcl. rewrite Hm2.
    apply same_obj in E as (w4 & E4 & ->). rewrite <-pair_member.
    unfold qp_socket_is_alloced. cbn. do 9 pstep.
    eapply (wp_release_pair w p sizeof_socket); [done|eapply created_same; [|done]; by etrans|done|].
    intros w5 Hg Ht. apply HQ; [done|]. unfold closed_once, closing in Hcl.
    rewrite Hf2, decide_True, app_nil_r, !obj_trace in Hcl by done. rewrite <-Hev2, <-Hcl, Ht.
    destruct (p =? NULL); [by apply fd_events_other|by rewrite app_nil_r]. }
  unfold qp_socket_close, qp_fd_is_valid. pstep. pstep. rewrite Hn.
  destruct (Z.eqb_spec QP_FD_INVALID (fd_fd x)) as [E|E]; cbn [negb orb].
  - pstep. apply Hend; try done. unfold closing. by rewrite decide_True, app_nil_r.
  - prun Hn. rewrite pair_member. apply fd_close_spec; [done|]. intros r w' E' Hcl.
    apply same_obj in E' as (w2 & E2 & ->). rewrite <-pair_member.
    unfold closed_once in Hcl. rewrite !obj_trace in Hcl. by apply Hend.
Qed.

(** Assigning an address changes the address only. *)
Lemma socket_assign_spec q y (x : qp_fd_s) w name port (Q : Z → world → Prop) :
  q ≠ NULL →
  (∀ r w2 y2, (r = NULL ∨ r = q) → w2 ≡ₘ w → fd_events (w_trace w2) = fd_events (w_trace w) →
     so_is_alloced y2 = so_is_alloced y → Q r (pair_at w2 q y2 x)) →
  wp (qp_socket_assign q name port) (pair_at w q y x) Q.
Proof.
  intros Hq HQ. pose proof (proj2 (Z.eqb_neq q NULL) Hq) as Hn.
  unfold qp_socket_assign, qp_socket_assign_inet, qp_socket_assign_inet6, qp_socket_assign_unix,
    qp_socket_assign_packet, qp_socket_is_listen, inet_pton, qp_fd_get_fd.
  psplit Hn.
  all: apply HQ; [by (left + right)|done|by rewrite ?fd_events_record by done|done].
Qed.

Lemma socket_alive_kept p w q y x w1 y' n w2 :
  w2 ≡ₘ w1 → so_is_alloced y' = so_is_alloced y → socket_alive p w q y x w1 →
  socket_alive p w q y' (set_fd_fd n x) w2.
Proof.
  intros E Hy [Hq Hi Hm Haio Hal Hc]. split; try done; [by rewrite Hy|].
  by eapply created_same.
Qed.

(** How the set-up of a socket can end. *)
Lemma socket_init_spec p domain type name port as_server backlog w (Q : Z → world → Prop) :
  (p ≠ NULL → is_Some (w_sockets w !! p) ∧ is_Some (w_fds w !! p)) →
  (∀ q y x w1, socket_alive p w q y x w1 → fd_fd x ≠ QP_FD_INVALID →
     fd_events (w_trace w1) = fd_events (w_trace w) ++ [("socket"%string, fd_fd x)] →
     Q q (pair_at w1 q y x)) →
  (∀ w1, gone_pair (X := qp_socket_s) (Y := qp_fd_s) p w w1 →
     (fd_events (w_trace w1) = fd_events (w_trace w) ∨
      ∃ n, fd_events (w_trace w1) =
             fd_events (w_trace w) ++ ("socket"%string, n) :: closing n) → Q NULL w1) →
  wp (qp_socket_init p domain type name port as_server backlog) w Q.
Proof.
  intros Hp Hok Hnull. unfold qp_socket_init. destruct (init_args _ _ _ _); cbn [negb].
  2: { apply wp_ret, Hnull; [|by left]. split; [|done]. intros Hne.
       destruct (Hp Hne) as [[y Hy] [x Hx]]. exists y, x. by rewrite <-(pair_id w p y x). }
  apply wp_bind, socket_create_spec; [done| |].
  2: { intros w1 Hg Hev. apply wp_ret, Hnull; [done|by left]. }
  intros q y x w1 Ha Hx Hl Hev. pose proof (sa_addr _ _ _ _ _ _ Ha) as Hq.
  pose proof (proj2 (Z.eqb_neq q NULL) Hq) as Hn. rewrite Hn.
  assert (∀ y2 n w2, w2 ≡ₘ w1 → so_is_alloced y2 = so_is_alloced y →
    fd_events (w_trace w2) = fd_events (w_trace w) ++ [("socket"%string, n)] →
    wp (qp_socket_destroy q;; mret NULL) (pair_at w2 q y2 (set_fd_fd n x)) Q) as Hfail.
  { intros y2 n w2 E2 Hy2 Hev2. apply wp_bind. eapply socket_destroy_spec.
    { by eapply socket_alive_kept. }
    intros w3 Hg Hev3. apply wp_ret, Hnull; [done|]. right. exists n.
    by rewrite Hev3, Hev2, <-(assoc_L (++)). }
  unfold qp_socket_set_listen.
  assert (∀ y2, so_is_alloced y2 = so_is_alloced y →
    wp (domain ← ld so_domain q; type ← ld so_type q;
        fd ← call "socket" [domain; type; 0]; st (set_fd_fd fd) q;;
        valid ← qp_fd_is_valid q;
        if negb valid then qp_socket_destroy q;; mret NULL else
        assign ← qp_socket_assign q (default [] name) port;
        if negb (assign =? NULL) then mret assign else
        qp_socket_destroy q;; mret NULL) (pair_at w1 q y2 x) Q) as Hrun.
  { intros y2 Hy2. unfold qp_fd_is_valid. prun Hn.
    assert (fd_events (w_trace (record "socket" [so_domain y2; so_type y2; 0] [] a w1))
      = fd_events (w_trace w) ++ [("socket"%string, a_ret a)]) as Hev2.
    { rewrite record_trace, fd_events_app, Hev. done. }
    destruct (Z.eqb_spec QP_FD_INVALID (fd_fd (set_fd_fd (a_ret a) x))) as [E|E]; cbn [negb].
    - by apply Hfail.
    - prun Hn. apply socket_assign_spec; [done|]. intros r w2 y3 Hr E2 Hev3 Hy3.
      rewrite Hev2 in Hev3. destruct Hr as [->| ->].
      + change (negb (NULL =? NULL)) with false. cbn iota. apply Hfail; [by etrans|by etrans|done].
      + rewrite Hn. apply wp_ret, Hok; [|cbn in *; congruence|done].
        eapply socket_alive_kept; [|by etrans|exact Ha]. by etrans. }
  prun Hn. destruct as_server; [do 3 pstep|pstep]; by apply Hrun.
Qed.

(** C18. Sockets leak neither memory nor descriptors, whatever the system answers: a
    [qp_socket_init] that fails, at any of its steps, has given back the structure
    and closed what [socket] returned; and after one that succeeds
    [qp_socket_destroy] does both. *)
Theorem socket_life_balanced p domain type name port as_server backlog w :
  (p ≠ NULL → is_Some (w_sockets w !! p) ∧ is_Some (w_fds w !! p)) →
  ∃ q w1, qp_socket_init p domain type name port as_server backlog w = Ok (q, w1) ∧
    (q = NULL → gone_pair (X := qp_socket_s) (Y := qp_fd_s) p w w1 ∧
       (fd_events (w_trace w1) = fd_events (w_trace w) ∨
        ∃ n, fd_events (w_trace w1) =
               fd_events (w_trace w) ++ ("socket"%string, n) :: closing n)) ∧
    (q ≠ NULL → ∃ w2 n, qp_socket_destroy q w1 = Ok (QP_SUCCESS, w2) ∧ n ≠ -1 ∧
       gone_pair (X := qp_socket_s) (Y := qp_fd_s) p w w2 ∧
       fd_events (w_trace w1) = fd_events (w_trace w) ++ [("socket"%string, n)] ∧
       fd_events (w_trace w2) = fd_events (w_trace w1) ++ [("close"%string, n)]).
Proof.
  intros Hp. apply wp_elim. apply socket_init_spec; [done| |by split].
  intros q y x w1 Ha Hx Hev. pose proof (sa_addr _ _ _ _ _ _ Ha) as Hq. split; [done|]. intros _.
  assert (wp (qp_socket_destroy q) (pair_at w1 q y x) (λ r w2, r = QP_SUCCESS ∧
    gone_pair (X := qp_socket_s) (Y := qp_fd_s) p w w2 ∧
    fd_events (w_trace w2) = fd_events (w_trace w1) ++ closing (fd_fd x))) as Hwp
    by by eapply socket_destroy_spec.
  apply wp_elim in Hwp as (r & w2 & E & -> & Hg & Hev2). exists w2, (fd_fd x).
  rewrite pair_trace. unfold closing in Hev2. rewrite decide_False in Hev2 by done.
  by split_and!.
Qed.

(** [qp_socket_accept] does not report that nothing was accepted: it returns the
    client it was given, or a new one, also when [accept] fails, with the -1 of
    [accept] as its descriptor. *)
Theorem accept_unreported skt c w s d y x :
  skt ≠ NULL → c ≠ NULL → c ≠ skt →
  w_sockets w !! skt = Some s → w_fds w !! skt = Some d →
  w_sockets w !! c = Some y → w_fds w !! c = Some x →
  so_is_listen s = true → fd_fd d ≠ QP_FD_INVALID →
  ∃ w' x' n, qp_socket_accept skt c w = Ok (c, w') ∧
    w_fds w' !! c = Some x' ∧ fd_fd x' = n ∧
    fd_events (w_trace w') = fd_events (w_trace w) ++ [("accept"%string, n)].
Proof.
  intros Hs Hc Hne Hsk Hsd Hy Hx Hl Hf.
  pose proof (proj2 (Z.eqb_neq c NULL) Hc) as Hn. pose proof (proj2 (Z.eqb_neq skt NULL) Hs) as Hns.
  assert (wp (qp_socket_accept skt c) w (λ r w', r = c ∧ ∃ (x' : qp_fd_s) n,
    w_fds w' !! c = Some x' ∧ fd_fd x' = n ∧
    fd_events (w_trace w') = fd_events (w_trace w) ++ [("accept"%string, n)])) as Hwp.
  2: { apply wp_elim in Hwp as (? & w' & E & -> & x' & n & ?). by exists w', x', n. }
  rewrite (pair_id w c y x) at 1 by done.
  unfold qp_socket_accept, qp_socket_create, qp_fd_init, qp_fd_create, qp_fd_set_inited,
    qp_socket_is_listen, qp_fd_is_valid, is_flag, peer_address. rewrite !Hns, !Hn.
  apply wp_bind, (wp_ld_outer_ne _ _ _ _ _ _ s); [done..|]. rewrite Hl.
  apply wp_bind, (wp_ld_inner_ne _ _ _ _ _ _ d); [done..|].
  rewrite (proj2 (Z.eqb_neq _ _) (not_eq_sym Hf)). cbn [negb andb]. prun Hn.
  apply (wp_ld_outer_ne _ _ _ _ _ _ s); [done..|]. prun Hn.
  apply (wp_ld_outer_ne _ _ _ _ _ _ s); [done..|]. prun Hn.
  apply (wp_ld_inner_ne _ _ _ _ _ _ d); [done..|]. prun Hn.
  assert (∀ y2 w2, fd_events (w_trace w2) = fd_events (w_trace w) ++ [("accept"%string, a_ret a)] →
    wp (st (set_fd_fd (a_ret a)) c;; mret c) (pair_at w2 c (y2 : qp_socket_s)
      (MkFd QP_FD_INVALID QP_FD_TYPE_SOCKET NULL zero_aiocb true false false))
    (λ r w', r = c ∧ ∃ (x' : qp_fd_s) n, w_fds w' !! c = Some x' ∧ fd_fd x' = n ∧
      fd_events (w_trace w') = fd_events (w_trace w) ++ [("accept"%string, n)])) as Hend.
  { intros y2 w2 Hev. prun Hn. split; [done|]. eexists _, _.
    split; [exact (pair_inner (Y := qp_fd_s) _ _ _ _)|]. split; [done|].
    by rewrite pair_trace. }
  set (w1 := record "accept" _ _ _ w).
  assert (fd_events (w_trace w1) = fd_events (w_trace w) ++ [("accept"%string, a_ret a)]) as Hev
    by apply fd_events_app.
  destruct (a_data a) as [|len [|family [|port addr]]]; [pstep; by apply Hend..|].
  destruct (a_ret a <? 0); [pstep|do 7 pstep]; by apply Hend.
Qed.

(** The two bytes of a port as they lie in memory and go over the wire. *)
Definition wire (p : Z) : list Z := [p mod 256; p / 256 mod 256].

Lemma wire_htons p : 0 ≤ p < 2 ^ 16 → wire (htons p) = [p / 256; p mod 256].
Proof using.
  intros Hp. unfold wire, htons.
  assert (0 ≤ p / 256 < 256) as Hh by (split; [apply Z.div_pos|apply Z.div_lt_upper_bound]; lia).
  pose proof (Z.mod_pos_bound p 256 ltac:(lia)) as Hl. rewrite (Z.mod_small (p / 256)) by lia.
  rewrite Z.add_comm, Z.mod_add, (Z.mod_small (p / 256)) by lia.
  rewrite Z.div_add, (Z.div_small (p / 256)), Z.add_0_l by lia. by rewrite Z.mod_mod by lia.
Qed.

(** The calls that bind the descriptor [fd] to [addr] and [port] and listen, and what
    comes of them. *)
Inductive bound_calls (fd port backlog : Z) (addr : list Z) : list event → option Z → Prop :=
| Unbound p b : wire p = [port / 256; port mod 256] → b ≠ 0 →
    bound_calls fd port backlog addr [Ev "bind" [fd; 2; p; 16] addr b] (Some QP_ERROR)
| Unlistened p l : wire p = [port / 256; port mod 256] → l ≠ 0 →
    bound_calls fd port backlog addr
      [Ev "bind" [fd; 2; p; 16] addr 0; Ev "listen" [fd; backlog] [] l] (Some QP_ERROR)
| Listens p : wire p = [port / 256; port mod 256] →
    bound_calls fd port backlog addr
      [Ev "bind" [fd; 2; p; 16] addr 0; Ev "listen" [fd; backlog] [] 0] (Some QP_SUCCESS).

Lemma socket_listen_spec q y (x : qp_fd_s) w port mode :
  q ≠ NULL → fd_fd x ≠ QP_FD_INVALID → so_is_listen y = true →
  so_domain y = QP_SOCKET_DOMAIN_INET → so_family y = QP_SOCKET_DOMAIN_INET →
  so_port y = htons port → so_len y = sizeof_sockaddr_in → 0 ≤ port < 2 ^ 16 →
  wp (qp_socket_listen q mode) (pair_at w q y x) (λ r w', ∃ t, w_trace w' = w_trace w ++ t ∧
    bound_calls (fd_fd x) port (so_backlog y) (so_addr y) t (Some r)).
Proof.
  intros Hq Hf Hl Hd Hfam Hp Hlen Hport. pose proof (proj2 (Z.eqb_neq q NULL) Hq) as Hn.
  pose proof (wire_htons _ Hport) as Hw.
  unfold qp_socket_listen, sockaddr_call, qp_fd_is_valid, qp_socket_is_listen.
  prun Hn. rewrite Hl, (proj2 (Z.eqb_neq _ _) (not_eq_sym Hf)). prun Hn.
  rewrite Hp, Hlen, Hfam. destruct (Z.eqb_spec QP_SUCCESS (a_ret a)) as [E|E]; prun Hn.
  2: { eexists. split; [by rewrite pair_trace, record_trace|]. by constructor. }
  destruct (Z.eqb_spec QP_SUCCESS (a_ret a0)) as [E0|E0]; prun Hn; rewrite ?Hd; prun Hn.
  all: eexists; split; [by rewrite pair_trace, !record_trace, <-(assoc_L (++))|].
  all: cbn; rewrite <-E.
  - rewrite <-E0. by constructor.
  - by constructor.
Qed.

(** C20. What a server is bound to: its address family, the four bytes of its name, or
    all zero for ["0.0.0.0"] without asking [inet_pton], the port with its high byte
    first, and the length of an IPv4 address; then it listens with its backlog. A
    name that [inet_pton] refuses is bound to nothing; when [bind] or [listen] fail
    that is reported. *)
Theorem server_binds_address q y x w name port mode :
  q ≠ NULL → w_sockets w !! q = Some y → w_fds w !! q = Some x → fd_fd x ≠ QP_FD_INVALID →
  so_is_listen y = true → so_domain y = QP_SOCKET_DOMAIN_INET → 0 ≤ port < 2 ^ 16 →
  let pton := os_answer (w_trace w) "inet_pton" [QP_SOCKET_DOMAIN_INET] name in
  let e := Ev "inet_pton" [QP_SOCKET_DOMAIN_INET] name (a_ret pton) in
  let bound := bound_calls (fd_fd x) port (so_backlog y) in
  ∃ r w' t, (a ← qp_socket_assign_inet q name port;
             if a =? NULL then mret None else r ← qp_socket_listen a mode; mret (Some r)) w =
      Ok (r, w') ∧ w_trace w' = w_trace w ++ t ∧
    (name = any_name ∧ bound [0; 0; 0; 0] t r ∨
     name ≠ any_name ∧ a_ret pton ≠ 1 ∧ r = None ∧ t = [e] ∨
     name ≠ any_name ∧ a_ret pton = 1 ∧ ∃ t', t = e :: t' ∧ bound (fill 4 (a_data pton)) t' r).
Proof.
  intros Hq Hy Hx Hf Hl Hd Hport pton e bound.
  pose proof (proj2 (Z.eqb_neq q NULL) Hq) as Hn.
  assert (wp (a ← qp_socket_assign_inet q name port;
              if a =? NULL then mret None else r ← qp_socket_listen a mode; mret (Some r)) w
    (λ r w', ∃ t, w_trace w' = w_trace w ++ t ∧
    (name = any_name ∧ bound [0; 0; 0; 0] t r ∨
     name ≠ any_name ∧ a_ret pton ≠ 1 ∧ r = None ∧ t = [e] ∨
     name ≠ any_name ∧ a_ret pton = 1 ∧ ∃ t', t = e :: t' ∧ bound (fill 4 (a_data pton)) t' r)))
    as Hwp.
  2: { apply wp_elim in Hwp as (r & w' & E & t & ?). by exists r, w', t. }
  rewrite (pair_id w q y x) at 1 by done.
  unfold qp_socket_assign_inet, qp_socket_is_listen, inet_pton. prun Hn.
  cbn [so_is_listen so_domain set_so_family set_so_addr set_so_port]. rewrite Hl, Hd. prun Hn.
  case_bool_decide as Hname; prun Hn.
  - eapply wp_mono; [by apply socket_listen_spec|]. intros r w' (t & Ht & Hb). prun Hn.
    exists t. split; [done|]. by left.
  - cbn [so_domain set_so_family set_so_addr set_so_port] in *. rewrite Hd in *. fold pton in H0.
    subst a. destruct (Z.eqb_spec (a_ret pton) 1) as [E|E]; prun Hn.
    + rewrite E. change (1 =? 1) with true. prun Hn.
      eapply wp_mono; [by apply socket_listen_spec|]. intros r w' (t & Ht & Hb). prun Hn.
      exists (e :: t). rewrite Ht, record_trace, <-(assoc_L (++)). split; [done|].
      right; right. split_and!; [done..|]. by exists t.
    + rewrite (proj2 (Z.eqb_neq 1 _)) by congruence. prun Hn.
      exists [e]. rewrite pair_trace, record_trace. split; [done|]. right; left. by split_and!.
Qed.
End life.

Lemma socket_life_balanced_witness :
  let os := answers [8192; 5; 1] in
  ∃ q w1, @qp_socket_init os NULL 2 1 (Some any_name) 80 true 0 empty_world = Ok (q, w1) ∧
    (q = NULL → gone_pair (X := qp_socket_s) (Y := qp_fd_s) NULL empty_world w1 ∧
       (fd_events (w_trace w1) = [] ∨
        ∃ n, fd_events (w_trace w1) = [] ++ ("socket"%string, n) :: closing n)) ∧
    (q ≠ NULL → ∃ w2 n, @qp_socket_destroy os q w1 = Ok (QP_SUCCESS, w2) ∧ n ≠ -1 ∧
       gone_pair (X := qp_socket_s) (Y := qp_fd_s) NULL empty_world w2 ∧
       fd_events (w_trace w1) = [] ++ [("socket"%string, n)] ∧
       fd_events (w_trace w2) = fd_events (w_trace w1) ++ [("close"%string, n)]).
Proof.
  by apply (@socket_life_balanced (answers [8192; 5; 1]) NULL 2 1 (Some any_name) 80 true 0
    empty_world).
Defined.

(** A listening socket at 4096 and a structure for a client at 8192. *)
Definition server : qp_socket_s := MkSocket 0 0 [] 0 2 1 128 true false.
Definition server_fd : qp_fd_s := MkFd 5 QP_FD_TYPE_SOCKET NULL zero_aiocb true false false.
Definition server_world : world :=
  pair_at (pair_at empty_world 4096 server server_fd) 8192 zero_socket zero_fd.

Lemma accept_unreported_witness :
  ∃ w' x' n, @qp_socket_accept (answers [-1]) 4096 8192 server_world = Ok (8192, w') ∧
    w_fds w' !! 8192 = Some x' ∧ fd_fd x' = n ∧
    fd_events (w_trace w') = [] ++ [("accept"%string, n)].
Proof.
  by apply (@accept_unreported (answers [-1]) 4096 8192 server_world server server_fd
    zero_socket zero_fd).
Defined.

(** Port 8080 of every address, where [bind] and [listen] succeed. *)
Lemma server_binds_address_witness :
  ∃ r w' t, @mbind _ _ _ _
      (λ a, if a =? NULL then mret None else
            @mbind _ _ _ _ (λ r, mret (Some r)) (@qp_socket_listen (answers []) a 0))
      (@qp_socket_assign_inet (answers []) 4096 any_name 8080) server_world = Ok (r, w') ∧
    w_trace w' = [] ++ t ∧
    (any_name = any_name ∧ bound_calls 5 8080 128 [0; 0; 0; 0] t r ∨
     any_name ≠ any_name ∧ 0 ≠ 1 ∧ r = None ∧ t = [Ev "inet_pton" [2] any_name 0] ∨
     any_name ≠ any_name ∧ 0 = 1 ∧
       ∃ t', t = Ev "inet_pton" [2] any_name 0 :: t' ∧ bound_calls 5 8080 128 (fill 4 []) t' r).
Proof.
  by apply (@server_binds_address (answers []) 4096 server server_fd server_world any_name 8080 0).
Defined.
