(* ===== verification/Process.v ===== *)
(** Threads and processes of [src/src/qp_process.c], as the thread that calls the
    functions runs them; [qp_thread_runner] as the new thread runs it. The
    source writes [trhead->cid] in [qp_thread_create] and takes [cpuid_t] and the
    [cpuset] calls from NetBSD; they are read as [thread->cid], a signed
    integer, and external calls. *)

From S2P Require Import Prelude World Bytes Atomic Lock.
#[local] Open Scope Z_scope.

(** * Constants and layout (Linux, LP64) *)

Definition sizeof_thread : Z := 48.
Definition sizeof_process : Z := 72.
Definition zero_thread : qp_thread_s := MkThread 0 0 0 0 0 false false false false.
Definition zero_process : qp_process_s :=
  MkProcess 0 0 0 0 0 0 0 QP_PROCESS_TYPE_UNKNOW 0 false false false.

Definition QP_CPUID_INVALID : Z := -1.
Definition QP_THREAD_INVALID : Z := 0.
Definition QP_PROCESS_INVALID : Z := 0.
Definition QP_PROCESS_STACK_SIZE : Z := 8388608.
Definition SIGKILL : Z := 9.
Definition SIGCHLD : Z := 17.

(** * Flags *)

Definition qp_thread_set_inited : Z → M world unit := set_flag (set_th_is_inited true).
Definition qp_thread_set_alloced : Z → M world unit := set_flag (set_th_is_alloced true).
Definition qp_thread_set_detach : Z → M world unit := set_flag (set_th_is_detach true).
Definition qp_thread_set_running : Z → M world unit := set_flag (set_th_is_running true).
Definition qp_thread_unset_inited : Z → M world unit := set_flag (set_th_is_inited false).
Definition qp_thread_unset_detach : Z → M world unit := set_flag (set_th_is_detach false).
Definition qp_thread_unset_running : Z → M world unit := set_flag (set_th_is_running false).
Definition qp_thread_is_alloced : Z → M world bool := is_flag th_is_alloced.
Definition qp_thread_is_inited : Z → M world bool := is_flag th_is_inited.
Definition qp_thread_is_detach : Z → M world bool := is_flag th_is_detach.
Definition qp_thread_is_running : Z → M world bool := is_flag th_is_running.

Definition qp_process_set_inited : Z → M world unit := set_flag (set_pr_is_inited true).
Definition qp_process_set_alloced : Z → M world unit := set_flag (set_pr_is_alloced true).
Definition qp_process_set_running : Z → M world unit := set_flag (set_pr_is_running true).
Definition qp_process_unset_inited : Z → M world unit := set_flag (set_pr_is_inited false).
Definition qp_process_unset_running : Z → M world unit := set_flag (set_pr_is_running false).
Definition qp_process_is_alloced : Z → M world bool := is_flag pr_is_alloced.
Definition qp_process_is_inited : Z → M world bool := is_flag pr_is_inited.
Definition qp_process_is_running : Z → M world bool := is_flag pr_is_running.

(** The pointer at [p], in eight bytes, the lowest first. *)
Definition read_ptr (p : Z) : M world Z :=
  l ← read_bytes p 8; mret (foldr (λ b acc, b + 256 * acc) 0 l).

Section process.
Context `{OS}.

(** * Threads *)

Definition qp_thread_create (thread : Z) : M world Z :=
  thread ← (if thread =? NULL then
              thread ← malloc sizeof_thread;
              if thread =? NULL then mret NULL else
              new thread zero_thread;; qp_thread_set_alloced thread;; mret thread
            else st (λ _, zero_thread) thread;; mret thread);
  if thread =? NULL then mret NULL else
  st (set_th_tid QP_THREAD_INVALID) thread;;
  st (set_th_cid QP_CPUID_INVALID) thread;;
  qp_thread_set_inited thread;; mret thread.

Definition qp_thread_init (thread : Z) (detach : bool) : M world Z :=
  thread ← qp_thread_create thread;
  if thread =? NULL then mret NULL else
  (if detach then qp_thread_set_detach thread else mret tt);; mret thread.

(** Waits for a thread that can be joined. *)
Definition qp_thread_stop (thread : Z) : M world Z :=
  inited ← qp_thread_is_inited thread;
  if negb inited then mret QP_ERROR else
  detach ← qp_thread_is_detach thread;
  ok ← (if negb detach then
          tid ← ld th_tid thread; call "pthread_join" [tid];; mret true
        else running ← qp_thread_is_running thread; mret (negb running));
  if negb ok then mret QP_ERROR else
  st (set_th_tid QP_THREAD_INVALID) thread;; mret QP_SUCCESS.

Definition qp_thread_destroy (thread : Z) : M world Z :=
  inited ← qp_thread_is_inited thread;
  if negb inited then mret QP_ERROR else
  running ← qp_thread_is_running thread;
  stopped ← (if (running : bool) then
               r ← qp_thread_stop thread; mret (negb (r =? QP_ERROR))
             else mret true);
  if negb stopped then mret QP_ERROR else
  qp_thread_unset_inited thread;;
  alloced ← qp_thread_is_alloced thread;
  (if (alloced : bool) then free thread else mret tt);; mret QP_SUCCESS.

Definition qp_thread_set_affinity (thread id : Z) : M world unit :=
  if negb (thread =? NULL) && (0 <=? id) then st (set_th_cid id) thread else mret tt.

Definition qp_thread_cpu_setaffinity (tid cid : Z) : M world Z :=
  if (cid <? 0) || (tid <? 0) then mret QP_CPUID_INVALID else
  cset ← call "cpuset_create" [];
  if cset =? NULL then mret QP_CPUID_INVALID else
  call "cpuset_set" [cid; cset];;
  size ← call "cpuset_size" [cset];
  r ← call "pthread_setaffinity_np" [tid; size; cset];
  let cid := if negb (r =? QP_SUCCESS) then QP_CPUID_INVALID else cid in
  call "cpuset_destroy" [cset];; mret cid.

(** What the new thread runs, up to [pthread_exit]. *)
Definition qp_thread_runner (thread : Z) : M world unit :=
  tid ← ld th_tid thread;
  (if negb (tid =? pthread_self) then mret tt else
   detach ← qp_thread_is_detach thread;
   (if (detach : bool) then
      tid ← ld th_tid thread; r ← call "pthread_detach" [tid];
      if negb (r =? QP_SUCCESS) then qp_thread_unset_detach thread else mret tt
    else mret tt);;
   qp_thread_set_running thread;;
   tid ← ld th_tid thread; cid ← ld th_cid thread;
   qp_thread_cpu_setaffinity tid cid;;
   handler ← ld th_handler_ptr thread;
   if negb (handler =? NULL) then
     args ← ld th_args_ptr thread;
     ret ← call "handler_ptr" [handler; args]; st (set_th_ret ret) thread
   else mret tt);;
  qp_thread_unset_running thread;;
  call "pthread_exit" [NULL];; mret tt.

Definition qp_thread_start (thread handler_ptr arg : Z) : M world Z :=
  inited ← qp_thread_is_inited thread;
  if negb inited then mret QP_ERROR else
  st (set_th_handler_ptr handler_ptr) thread;; st (set_th_args_ptr arg) thread;;
  a ← ext "pthread_create" [thread] [];
  if negb (a_ret a =? QP_SUCCESS) then
    st (set_th_tid QP_THREAD_INVALID) thread;;
    st (set_th_handler_ptr NULL) thread;; st (set_th_args_ptr NULL) thread;; mret QP_ERROR
  else st (set_th_tid (default 0 (head (a_data a)))) thread;; mret QP_SUCCESS.

Definition qp_thread_return (thread : Z) : M world Z :=
  inited ← qp_thread_is_inited thread;
  if (inited : bool) then ld th_ret thread else mret NULL.

(** * Processes *)

Definition qp_process_create (process : Z) : M world Z :=
  process ← (if process =? NULL then
               process ← malloc sizeof_process;
               if process =? NULL then mret NULL else
               new process zero_process;; qp_process_set_alloced process;; mret process
             else st (λ _, zero_process) process;; mret process);
  if process =? NULL then mret NULL else
  st (set_pr_pid QP_PROCESS_INVALID) process;;
  st (set_pr_type QP_PROCESS_TYPE_UNKNOW) process;;
  qp_process_set_inited process;; mret process.

Definition qp_process_init (process : Z) : M world Z :=
  process ← qp_process_create process;
  if process =? NULL then mret NULL else
  st (set_pr_type QP_PROCESS_TYPE_FORK) process;; mret process.

Definition qp_process_kill (process sig : Z) : M world Z :=
  running ← qp_process_is_running process;
  if negb running then mret QP_ERROR else
  pid ← ld pr_pid process;
  r ← call "kill" [pid; sig];
  if r =? QP_ERROR then mret QP_ERROR else mret QP_SUCCESS.

(** [waitpid] stores a status when it has one; what it returns is compared and
    forgotten. *)
Definition qp_process_stop (process : Z) (force : bool) : M world Z :=
  inited ← qp_process_is_inited process;
  if negb inited then mret QP_ERROR else
  running ← qp_process_is_running process;
  ok ← (if (running : bool) then
          killed ← (if force then
                      r ← qp_process_kill process SIGKILL; mret (negb (r =? QP_ERROR))
                    else mret true);
          if negb killed then mret false else
          pid ← ld pr_pid process;
          a ← ext "waitpid" [pid; 0] [];
          (match a_data a with
           | status :: _ => st (set_pr_ret status) process
           | [] => mret tt
           end);;
          qp_process_unset_running process;; mret true
        else mret true);
  if negb ok then mret QP_ERROR else
  st (set_pr_pid QP_PROCESS_INVALID) process;; mret QP_SUCCESS.

Definition qp_process_destroy (process : Z) : M world Z :=
  inited ← qp_process_is_inited process;
  if negb inited then mret QP_ERROR else
  running ← qp_process_is_running process;
  (if (running : bool) then qp_process_stop process true;; mret tt else mret tt);;
  stack ← ld pr_stack process;
  (if negb (stack =? NULL) then free stack;; st (set_pr_stack NULL) process else mret tt);;
  st (set_pr_pid QP_PROCESS_INVALID) process;;
  st (set_pr_type QP_PROCESS_TYPE_UNKNOW) process;;
  qp_process_unset_inited process;;
  alloced ← qp_process_is_alloced process;
  (if (alloced : bool) then free process else mret tt);; mret QP_SUCCESS.

(** The guard of the two setters: [qp_process_is_inited(process) && argv && argv[0]]. *)
Definition has_argv (process argv : Z) : M world bool :=
  inited ← qp_process_is_inited process;
  if negb inited || (argv =? NULL) then mret false else
  arg0 ← read_ptr argv; mret (negb (arg0 =? NULL)).

Definition qp_process_set_exec (process argv : Z) : M world Z :=
  ok ← has_argv process argv;
  if negb ok then mret QP_ERROR else
  st (set_pr_argv argv) process;; st (set_pr_type QP_PROCESS_TYPE_EXEC) process;;
  mret QP_SUCCESS.

Definition qp_process_set_vfork_exec (process argv : Z) : M world Z :=
  ok ← has_argv process argv;
  if negb ok then mret QP_ERROR else
  st (set_pr_argv argv) process;; st (set_pr_type QP_PROCESS_TYPE_FORK_EXEC) process;;
  mret QP_SUCCESS.

Definition qp_process_set_clone (process flag fn arg stack_size : Z) : M world Z :=
  inited ← qp_process_is_inited process;
  if negb inited || (fn =? NULL) then mret QP_ERROR else
  st (set_pr_flag flag) process;; st (set_pr_stack_size stack_size) process;;
  st (set_pr_args_ptr arg) process;; st (set_pr_handler_ptr fn) process;;
  st (set_pr_type QP_PROCESS_TYPE_CLONE) process;; mret QP_SUCCESS.

(** [execv(argv[0], argv)]: true when it came back. *)
Definition execv (argv : Z) : M world bool :=
  arg0 ← read_ptr argv;
  r ← call "execv" [arg0; argv]; mret (r =? QP_ERROR).

Definition start_fork (process : Z) : M world (option Z) :=
  pid ← call "fork" []; st (set_pr_pid pid) process;;
  pid ← ld pr_pid process;
  if pid =? -1 then mret (Some QP_ERROR) else
  if pid =? 0 then mret (Some pid) else
  qp_process_set_running process;; mret (Some pid).

Definition start_exec (process : Z) : M world (option Z) :=
  argv ← ld pr_argv process;
  if argv =? NULL then mret (Some QP_ERROR) else
  back ← execv argv;
  if (back : bool) then mret (Some QP_ERROR) else mret None.

Definition start_vfork_exec (process : Z) : M world (option Z) :=
  argv ← ld pr_argv process;
  if argv =? NULL then mret (Some QP_ERROR) else
  pid ← call "vfork" []; st (set_pr_pid pid) process;;
  pid ← ld pr_pid process;
  if pid =? -1 then mret (Some QP_ERROR) else
  if pid =? 0 then
    back ← execv argv;
    (if (back : bool) then call "exit" [1];; mret tt else mret tt);; mret None
  else qp_process_set_running process;; mret (Some pid).

Definition start_clone (process : Z) : M world (option Z) :=
  size ← ld pr_stack_size process;
  (if size =? 0 then st (set_pr_stack_size QP_PROCESS_STACK_SIZE) process else mret tt);;
  stack ← ld pr_stack process;
  (if negb (stack =? NULL) then free stack;; st (set_pr_stack NULL) process else mret tt);;
  size ← ld pr_stack_size process;
  stack ← malloc size; st (set_pr_stack stack) process;;
  if stack =? NULL then mret (Some QP_ERROR) else
  fn ← ld pr_handler_ptr process; flag ← ld pr_flag process; arg ← ld pr_args_ptr process;
  pid ← call "clone" [fn; stack + size; Z.lor flag SIGCHLD; arg];
  st (set_pr_pid pid) process;;
  if pid =? QP_ERROR then mret (Some QP_ERROR) else
  qp_process_set_running process;; mret (Some pid).

(** [None] when the call does not come back: the image was replaced, or the
    child left. *)
Definition qp_process_start (process : Z) : M world (option Z) :=
  inited ← qp_process_is_inited process;
  if negb inited then mret (Some QP_ERROR) else
  type ← ld pr_type process;
  match type with
  | QP_PROCESS_TYPE_FORK => start_fork process
  | QP_PROCESS_TYPE_EXEC => start_exec process
  | QP_PROCESS_TYPE_FORK_EXEC => start_vfork_exec process
  | QP_PROCESS_TYPE_CLONE => start_clone process
  | QP_PROCESS_TYPE_UNKNOW => mret (Some QP_ERROR)
  end.

Definition qp_process_pid (process : Z) : M world Z :=
  inited ← qp_process_is_inited process;
  if (inited : bool) then ld pr_pid process else mret QP_PROCESS_INVALID.
End process.
