(* ===== verification/ProcessProps.v ===== *)
(** What the processes of [src/src/qp_process.c] promise: no sequence of calls
    loses memory, and what stopping a process reports. *)

From S2P Require Import Prelude World Life Bytes Atomic Lock Process.
#[local] Open Scope Z_scope.

(** * A process and its stack *)

Section life.
Context `{OS}.
Implicit Types (x y : qp_process_s) (w : world).

(** [w1] is [w0] with the block of the stack [s], if there is one. *)
Definition with_stack (w0 : world) (q s : Z) (w1 : world) : Prop :=
  (s = NULL ∧ w1 ≡ₘ w0) ∨
  (s ≠ NULL ∧ ∃ n, 0 < n ∧ usable w0 s n = true ∧ (q < s ∨ s + n ≤ q) ∧ w1 ≡ₘ block_at s n w0).

(** What the fields promise: the arguments lie in memory, the size is one. *)
Definition fields_ok (m : gmap Z Z) (x : qp_process_s) : Prop :=
  (pr_argv x = NULL ∨ buffer m (pr_argv x) 8) ∧ 0 ≤ pr_stack_size x.

(** The process [x] made in the world [w] lives at [q], next to [w1]. *)
Definition proc_at (p : Z) (w : world) (q : Z) (x : qp_process_s) (w1 : world) : Prop :=
  q ≠ NULL ∧ pr_is_inited x = true ∧ pr_is_alloced x = (p =? NULL) ∧ fields_ok (w_mem w) x ∧
  ∃ w0, created w p sizeof_process q w0 ∧ with_stack w0 q (pr_stack x) w1.

Lemma with_stack_same w0 q s w1 w2 : w2 ≡ₘ w1 → with_stack w0 q s w1 → with_stack w0 q s w2.
Proof.
  intros E [[Hs E1]|(Hs & n & Hn & Hu & Hd & E1)]; [left; split; [done|by etrans]|].
  right. split; [done|]. exists n. split_and!; try done. by etrans.
Qed.

Lemma proc_at_same p w q x w1 w2 : w2 ≡ₘ w1 → proc_at p w q x w1 → proc_at p w q x w2.
Proof.
  intros E (? & ? & ? & ? & w0 & ? & ?). split_and!; try done. exists w0.
  split; [done|]. by eapply with_stack_same.
Qed.

Lemma proc_at_mem p w q x w1 : proc_at p w q x w1 → w_mem w1 = w_mem w.
Proof.
  intros (_ & _ & _ & _ & w0 & Hc & Hs).
  trans (w_mem w0).
  - by destruct Hs as [[_ E]|(_ & n & _ & _ & _ & E)]; apply (f_equal w_mem) in E.
  - by destruct Hc as [(_ & _ & E)|(_ & _ & _ & E)]; apply (f_equal w_mem) in E.
Qed.

(** A change of the other fields. *)
Lemma proc_at_upd p w q x y w1 :
  proc_at p w q x w1 → pr_is_inited y = pr_is_inited x → pr_is_alloced y = pr_is_alloced x →
  pr_stack y = pr_stack x → fields_ok (w_mem w) y → proc_at p w q y w1.
Proof.
  intros (Hq & Hi & Ha & _ & w0 & Hc & Hs) E1 E2 E3 Hf.
  split_and!; [done|by rewrite E1|by rewrite E2|done|]. exists w0. by rewrite E3.
Qed.

(** What an operation on the process may do: change it, and keep it a process. *)
Definition keeps {A} (p : Z) (w : world) (q : Z) (m : M world A) : Prop :=
  ∀ x w1, proc_at p w q x w1 →
  wp m (obj w1 q x) (λ _ w', ∃ y w2, w' = obj w2 q y ∧ proc_at p w q y w2).

(** ** The stack comes and goes *)

Lemma wp_drop_stack w0 q x w1 (Q : unit → world → Prop) :
  q ≠ NULL → with_stack w0 q (pr_stack x) w1 →
  (∀ w2, w2 ≡ₘ w0 → Q tt (obj w2 q (set_pr_stack NULL x))) →
  wp (if negb (pr_stack x =? NULL) then free (pr_stack x);; st (set_pr_stack NULL) q
      else mret tt) (obj w1 q x) Q.
Proof.
  intros Hq [[Hs E]|(Hs & n & Hn & Hu & Hd & E)] HQ.
  - rewrite Hs. ostep. ostep. replace x with (set_pr_stack NULL x); [by apply HQ|].
    destruct x. cbn in *. by subst.
  - rewrite (proj2 (Z.eqb_neq _ _) Hs). ostep. ostep. eapply wp_free; [done| |].
    { rewrite obj_live, (same_live _ _ E). cbn. apply lookup_insert_eq. }
    rewrite obj_record, unmap_obj_out by lia. ostep. apply HQ.
    etrans; [by apply unmap_same, record_quiet|]. etrans; [by apply unmap_same, E|].
    by rewrite unmap_fresh.
Qed.

Lemma wp_new_stack w0 q x w1 n (Q : Z → world → Prop) :
  0 < n → w1 ≡ₘ w0 →
  (∀ s w2, with_stack w0 q s w2 → Q s (obj w2 q x)) → wp (malloc n) (obj w1 q x) Q.
Proof.
  intros Hn E HQ. apply wp_malloc.
  - intros s e Hu Hs. apply usable_obj in Hu as [Hu Hd]; [|done].
    rewrite obj_record, obj_set_live, obj_live. apply HQ. right. split; [done|]. exists n.
    rewrite (usable_same w1 w0) in Hu by done. split_and!; try done.
    etrans; [|by apply set_live_same, E]. unfold block_at. rewrite (same_live _ _ E).
    by apply set_live_same, record_quiet.
  - intros e. rewrite obj_record. apply HQ. left. split; [done|]. by etrans; [apply record_quiet|].
Qed.

(** ** Each operation *)

(** Run the operation on the process, and say what it left. *)
Ltac prun :=
  unfold qp_process_is_inited, qp_process_is_running, qp_process_is_alloced,
    qp_process_set_running, qp_process_unset_running, qp_process_unset_inited;
  orun.

Ltac still Hat :=
  eexists _, _; split; [reflexivity|];
  eapply proc_at_upd;
  [repeat (eapply proc_at_same; [apply record_quiet|]); exact Hat|done..|try apply Hat].

Lemma kill_keeps p w q sig : keeps p w q (qp_process_kill q sig).
Proof. intros x w1 Hat. pose proof Hat as [Hq _]. unfold qp_process_kill. prun; still Hat. Qed.

Lemma stop_keeps p w q force : keeps p w q (qp_process_stop q force).
Proof.
  intros x w1 Hat. pose proof Hat as [Hq _]. unfold qp_process_stop, qp_process_kill.
  prun; try (still Hat); destruct (a_data _); prun; still Hat.
Qed.

Lemma pid_keeps p w q : keeps p w q (qp_process_pid q).
Proof. intros x w1 Hat. pose proof Hat as [Hq _]. unfold qp_process_pid. prun; still Hat. Qed.

Lemma wp_read_ptr a p w q x w1 (Q : Z → world → Prop) :
  proc_at p w q x w1 → buffer (w_mem w) a 8 → (∀ v, Q v (obj w1 q x)) →
  wp (read_ptr a) (obj w1 q x) Q.
Proof.
  intros Hat Hb HQ. destruct (buffer_bytes (w_mem w) a 8) as (l & Hl & Hlen); [done|done|].
  unfold read_ptr. ostep. eapply wp_read_bytes_obj; [by rewrite (proc_at_mem _ _ _ _ _ Hat)|lia|].
  ostep. apply HQ.
Qed.

Lemma wp_has_argv p w q x w1 argv (Q : bool → world → Prop) :
  proc_at p w q x w1 → argv = NULL ∨ buffer (w_mem w) argv 8 →
  Q false (obj w1 q x) → (argv ≠ NULL → Q true (obj w1 q x)) →
  wp (has_argv q argv) (obj w1 q x) Q.
Proof.
  intros Hat Hb Hf Ht. pose proof Hat as (Hq & Hi & _).
  unfold has_argv, qp_process_is_inited. ostep. ostep. rewrite Hi. cbn.
  destruct (Z.eqb_spec argv NULL) as [->|Hne]; [by ostep|]. destruct Hb as [?|Hb]; [done|].
  ostep. eapply wp_read_ptr; [done..|]. intros v. ostep. destruct (v =? NULL); auto.
Qed.

Lemma set_exec_keeps p w q argv :
  argv = NULL ∨ buffer (w_mem w) argv 8 →
  keeps p w q (qp_process_set_exec q argv) ∧ keeps p w q (qp_process_set_vfork_exec q argv).
Proof.
  intros Hb. split; intros x w1 Hat; pose proof Hat as [Hq _];
    unfold qp_process_set_exec, qp_process_set_vfork_exec; ostep;
    (eapply wp_has_argv; [done..|prun; still Hat|intros Hne; prun; still Hat]).
  all: split; [done|apply Hat].
Qed.

Lemma set_clone_keeps p w q flag fn arg size :
  0 ≤ size → keeps p w q (qp_process_set_clone q flag fn arg size).
Proof.
  intros Hs x w1 Hat. pose proof Hat as [Hq _]. unfold qp_process_set_clone.
  prun; still Hat. split; [apply Hat|done].
Qed.

Lemma clone_keeps p w q : keeps p w q (start_clone q).
Proof.
  intros x w1 Hat. pose proof Hat as (Hq & Hi & Ha & [Hargv Hsize] & w0 & Hc & Hs).
  unfold start_clone. ostep. ostep. ostep.
  apply (wp_mono _ _ (λ _ w', ∃ y, w' = obj w1 q y ∧ 0 < pr_stack_size y ∧ proc_at p w q y w1)).
  { destruct (Z.eqb_spec (pr_stack_size x) 0); prun; (eexists; split; [reflexivity|]; split; [cbn; unfold QP_PROCESS_STACK_SIZE; lia|]).
    - by eapply proc_at_upd.
    - done. }
  clear x Hat Hi Ha Hargv Hsize Hs. intros _ _ (x & -> & Hn & Hat).
  clear Hc w0. destruct Hat as (_ & Hi & Ha & [Hargv Hsize] & w0 & Hc & Hs).
  ostep. ostep. ostep. eapply wp_drop_stack; [done..|]. intros w2 E2.
  ostep. ostep. ostep. eapply wp_new_stack; [done|done|]. intros s w3 Hs3.
  assert (proc_at p w q (set_pr_stack s (set_pr_stack NULL x)) w3) as Hat
    by (split_and!; try done; by exists w0).
  prun; still Hat.
Qed.

Lemma execv_same p w q x w1 (Q : bool → world → Prop) :
  proc_at p w q x w1 → pr_argv x ≠ NULL →
  (∀ b w2, w2 ≡ₘ w1 → Q b (obj w2 q x)) → wp (execv (pr_argv x)) (obj w1 q x) Q.
Proof.
  intros Hat Hne HQ. pose proof Hat as (Hq & _ & _ & [[?|Hb] _] & _); [done|].
  unfold execv. ostep. eapply wp_read_ptr; [done..|]. intros v. prun. by apply HQ.
Qed.

Lemma start_keeps p w q : keeps p w q (qp_process_start q).
Proof.
  intros x w1 Hat. pose proof Hat as (Hq & Hi & _). unfold qp_process_start.
  prun; [still Hat|]. destruct (pr_type x); cbn iota.
  - prun. still Hat.
  - unfold start_fork. prun; still Hat.
  - unfold start_exec. ostep. ostep. destruct (Z.eqb_spec (pr_argv x) NULL); [prun; still Hat|].
    ostep. eapply execv_same; [done..|]. intros b w2 E2. eapply proc_at_same in Hat; [|done].
    prun; still Hat.
  - unfold start_vfork_exec. ostep. ostep. destruct (Z.eqb_spec (pr_argv x) NULL); [prun; still Hat|].
    prun; try still Hat.
    eapply (execv_same p w q (set_pr_pid (a_ret a) x)); [|done|].
    + eapply proc_at_upd; [eapply proc_at_same; [apply record_quiet|exact Hat]|done..|apply Hat].
    + intros b w2 E2. eapply proc_at_same in Hat; [|etrans; [exact E2|apply record_quiet]].
      prun; still Hat.
  - by apply clone_keeps.
Qed.

Lemma init_spec p w (Q : Z → world → Prop) :
  (p ≠ NULL → is_Some (w_processes w !! p)) →
  (∀ q x w1, proc_at p w q x w1 → Q q (obj w1 q x)) →
  (∀ w', gone (X := qp_process_s) p w w' → Q NULL w') →
  wp (qp_process_init p) w Q.
Proof.
  intros Hp Hok Hnull. unfold qp_process_init, qp_process_create. ostep. ostep. ocreate.
  2: { intros w1 Hg. ostep. ostep. ostep. by apply Hnull. }
  intros q w1 Hq Hc. rewrite (proj2 (Z.eqb_neq q NULL)) by done.
  unfold qp_process_set_inited, qp_process_set_alloced. orun; [lia|].
  apply Hok. split_and!; [done|done|by destruct (p =? NULL)|by destruct (p =? NULL); (split; [left|])|].
  exists w1. split; [done|]. left. by destruct (p =? NULL).
Qed.

Lemma destroy_spec p w q x w1 (Q : Z → world → Prop) :
  proc_at p w q x w1 → (∀ w', gone (X := qp_process_s) p w w' → Q QP_SUCCESS w') →
  wp (qp_process_destroy q) (obj w1 q x) Q.
Proof.
  intros Hat HQ. pose proof Hat as (Hq & Hi & _).
  unfold qp_process_destroy, qp_process_is_inited, qp_process_is_running, qp_process_unset_inited,
    qp_process_is_alloced.
  do 2 ostep. rewrite Hi. do 4 ostep.
  apply (wp_mono _ _ (λ _ w', ∃ y w2, w' = obj w2 q y ∧ proc_at p w q y w2)).
  { destruct (pr_is_running x); [|ostep; by eexists _, _].
    ostep. eapply wp_mono; [by apply stop_keeps|]. intros ? w2 Hw2. by ostep. }
  intros _ _ (y & w2 & -> & Hat2). destruct Hat2 as (_ & _ & Ha & _ & w0 & Hc & Hs).
  do 3 ostep. eapply wp_drop_stack; [done..|]. intros w3 E. do 8 ostep.
  eapply (wp_release w p sizeof_process q); [done|by eapply created_same|exact Ha|exact HQ].
Qed.
End life.

(** * Whole lives *)

(** What a program does with a process between its set-up and its end. *)
Inductive proc_call :=
| SetExec (argv : Z) | SetVforkExec (argv : Z) | SetClone (flag fn arg size : Z)
| Start | Stop (force : bool) | Kill (sig : Z) | Pid.

(** Vectors lie in memory, sizes are sizes. *)
Definition call_ok (m : gmap Z Z) (c : proc_call) : Prop :=
  match c with
  | SetExec argv | SetVforkExec argv => argv = NULL ∨ buffer m argv 8
  | SetClone _ _ _ size => 0 ≤ size
  | _ => True
  end.

Section lives.
Context `{OS}.
Implicit Types (x y : qp_process_s) (w : world).

(** One call; nothing when it does not come back. *)
Definition proc_run (q : Z) (c : proc_call) : M world (option Z) :=
  match c with
  | SetExec argv => r ← qp_process_set_exec q argv; mret (Some r)
  | SetVforkExec argv => r ← qp_process_set_vfork_exec q argv; mret (Some r)
  | SetClone flag fn arg size => r ← qp_process_set_clone q flag fn arg size; mret (Some r)
  | Start => qp_process_start q
  | Stop force => r ← qp_process_stop q force; mret (Some r)
  | Kill sig => r ← qp_process_kill q sig; mret (Some r)
  | Pid => r ← qp_process_pid q; mret (Some r)
  end.

(** The results of the calls, up to the one that does not come back. *)
Fixpoint proc_runs (q : Z) (cs : list proc_call) : M world (option (list Z)) :=
  match cs with
  | [] => mret (Some [])
  | c :: cs =>
      r ← proc_run q c;
      match r with
      | None => mret None
      | Some r => rs ← proc_runs q cs; mret (cons r <$> rs)
      end
  end.

(** Set up, use and destroy a process: the last result. *)
Definition process_life (p : Z) (cs : list proc_call) : M world (option Z) :=
  q ← qp_process_init p;
  if q =? NULL then mret (Some QP_ERROR) else
  rs ← proc_runs q cs;
  match rs with
  | None => mret None
  | Some _ => r ← qp_process_destroy q; mret (Some r)
  end.

Lemma keeps_some p w q (m : M world Z) : keeps p w q m → keeps p w q (r ← m; mret (Some r)).
Proof. intros Hm x w1 Hat. ostep. eapply wp_mono; [by apply Hm|]. intros r w2 Hw2. by ostep. Qed.

Lemma proc_run_keeps p w q c : call_ok (w_mem w) c → keeps p w q (proc_run q c).
Proof.
  intros Hok. destruct c; cbn [proc_run]; try apply keeps_some.
  - by apply set_exec_keeps.
  - by apply set_exec_keeps.
  - by apply set_clone_keeps.
  - apply start_keeps.
  - apply stop_keeps.
  - apply kill_keeps.
  - apply pid_keeps.
Qed.

Lemma proc_runs_keeps p w q cs : Forall (call_ok (w_mem w)) cs → keeps p w q (proc_runs q cs).
Proof.
  intros Hok. induction Hok as [|c cs Hc Hok IH]; intros x w1 Hat; cbn [proc_runs].
  { ostep. by eexists _, _. }
  ostep. eapply wp_mono; [by apply proc_run_keeps|]. intros [r|] _ (y & w2 & -> & Hat2).
  - ostep. eapply wp_mono; [by apply IH|]. intros rs w3 Hw3. by ostep.
  - ostep. by eexists _, _.
Qed.

(** C27. No process leaks memory, whatever the system answers: from
    [qp_process_init] through any calls to set it up, start it (by [fork],
    [exec], [vfork] or [clone]), signal it, wait for it, and [qp_process_destroy],
    the code runs without a fault, destroying succeeds, and memory is as it was
    before: stacks of [clone] are freed once each, also when a process is
    started again. Only a call that never comes back ends the life earlier. *)
Theorem process_life_balanced p cs w :
  (p ≠ NULL → is_Some (w_processes w !! p)) → Forall (call_ok (w_mem w)) cs →
  ∃ r w', process_life p cs w = Ok (r, w') ∧
    (r = Some QP_SUCCESS ∧ gone (X := qp_process_s) p w w' ∨
     r = Some QP_ERROR ∧ gone (X := qp_process_s) p w w' ∨ r = None).
Proof.
  intros Hp Hok.
  assert (wp (process_life p cs) w (λ r w', r = Some QP_SUCCESS ∧ gone (X := qp_process_s) p w w' ∨
     r = Some QP_ERROR ∧ gone (X := qp_process_s) p w w' ∨ r = None)) as Hwp.
  2: { apply wp_elim in Hwp as (r & w' & E & Hr). by exists r, w'. }
  unfold process_life. ostep. apply init_spec; [done| |].
  - intros q x w1 Hat. rewrite (proj2 (Z.eqb_neq q NULL)) by apply Hat.
    ostep. eapply wp_mono; [by eapply proc_runs_keeps|].
    intros [rs|] _ (y & w2 & -> & Hat2); [|ostep; by right; right].
    ostep. eapply destroy_spec; [done|]. intros w' Hg. ostep. by left.
  - intros w' Hg. ostep. ostep. right. by left.
Qed.

(** * A wait that fails *)

(** Calls that ask for the child. *)
Definition about_child (c : proc_call) : Prop :=
  match c with Stop _ | Kill _ | Pid => True | _ => False end.

(** A process that is not running asks the system nothing. *)
Lemma idle_asks_nothing q x w cs :
  q ≠ NULL → pr_is_inited x = true → pr_is_running x = false → pr_pid x = QP_PROCESS_INVALID →
  Forall about_child cs → wp (proc_runs q cs) (obj w q x) (λ _ w', w' = obj w q x).
Proof.
  intros Hq Hi Hr Hpid. induction 1 as [|c cs Hc _ IH]; cbn [proc_runs]; [by ostep|].
  assert (set_pr_pid QP_PROCESS_INVALID x = x) as Hx by (destruct x; cbn in *; by subst).
  assert (wp (proc_run q c) (obj w q x) (λ r w', is_Some r ∧ w' = obj w q x)) as Hone.
  { destruct c; try done; cbn [proc_run];
      unfold qp_process_stop, qp_process_kill, qp_process_pid, qp_process_is_inited,
        qp_process_is_running; do 3 ostep; rewrite ?Hi, ?Hr; repeat ostep;
      rewrite ?Hi, ?Hr; repeat ostep; rewrite ?Hx; by eauto. }
  ostep. eapply wp_mono; [exact Hone|]. intros ? _ [[r ->] ->].
  ostep. eapply wp_mono; [exact IH|]. intros rs _ ->. by ostep.
Qed.

(** [qp_process_stop] does not look at what [waitpid] returns: interrupted by
    a signal before the child ended it still reports success and forgets the
    child, so that whatever is asked of the process afterwards - to stop it, by
    force too, to signal it - reaches no system call, and the child is never
    waited for. *)
Theorem process_stop_loses_child q x w cs e :
  q ≠ NULL → pr_is_inited x = true → pr_is_running x = true →
  os_answer (w_trace w) "waitpid" [pr_pid x; 0] [] = Ans (-1) e [] →
  Forall about_child cs →
  ∃ w' y, (r ← qp_process_stop q false; proc_runs q cs;; mret r) (obj w q x) =
      Ok (QP_SUCCESS, obj w' q y) ∧
    w_trace w' = w_trace w ++ [Ev "waitpid" [pr_pid x; 0] [] (-1)] ∧
    pr_is_running y = false ∧ pr_pid y = QP_PROCESS_INVALID.
Proof.
  intros Hq Hi Hr Ha Hcs.
  assert (wp (r ← qp_process_stop q false; proc_runs q cs;; mret r) (obj w q x)
    (λ r w2, r = QP_SUCCESS ∧ ∃ w' y, w2 = obj w' q y ∧
       w_trace w' = w_trace w ++ [Ev "waitpid" [pr_pid x; 0] [] (-1)] ∧
       pr_is_running y = false ∧ pr_pid y = QP_PROCESS_INVALID)) as Hwp.
  2: { apply wp_elim in Hwp as (? & ? & E & -> & w' & y & -> & ?). by exists w', y. }
  unfold qp_process_stop, qp_process_is_inited, qp_process_is_running, qp_process_unset_running.
  do 3 ostep. rewrite Hi. do 4 ostep. rewrite Hr. do 7 ostep.
  match goal with E : ?a = os_answer _ _ _ _ |- _ => rewrite Ha in E; subst a end.
  cbn [a_data]. repeat ostep.
  eapply wp_mono; [by apply idle_asks_nothing|]. intros rs _ ->. ostep. split; [done|].
  by eexists _, _.
Qed.
End lives.

(** A clone started twice and stopped by force. *)
Lemma process_life_balanced_witness :
  ∃ r w', @process_life (answers [4096; 8192; 300; 0; 16384; 301; 0; 301]) NULL
      [SetClone 0 77 0 64; Start; Start; Stop true] empty_world = Ok (r, w') ∧
    (r = Some QP_SUCCESS ∧ gone (X := qp_process_s) NULL empty_world w' ∨
     r = Some QP_ERROR ∧ gone (X := qp_process_s) NULL empty_world w' ∨ r = None).
Proof.
  apply (@process_life_balanced (answers [4096; 8192; 300; 0; 16384; 301; 0; 301])); [done|].
  repeat constructor. done.
Defined.

(** An interrupted wait for child 300. *)
Definition child_300 : qp_process_s := MkProcess 300 0 0 0 0 0 0 QP_PROCESS_TYPE_FORK 0 true true true.

Lemma process_stop_loses_child_witness :
  ∃ w' y, (r ← @qp_process_stop (answers [-1]) 4096 false;
           @proc_runs (answers [-1]) 4096 [Kill 9; Stop true];; mret r)
      (obj empty_world 4096 child_300) = Ok (QP_SUCCESS, obj w' 4096 y) ∧
    w_trace w' = w_trace empty_world ++ [Ev "waitpid" [300; 0] [] (-1)] ∧
    pr_is_running y = false ∧ pr_pid y = QP_PROCESS_INVALID.
Proof.
  apply (@process_stop_loses_child (answers [-1]) 4096 child_300 empty_world _ 0);
    [done..|repeat constructor].
Defined.
