(* ===== verification/ThreadSteps.v ===== *)
(** A thread of [src/src/qp_process.c] and the thread that controls it, one step
    per access to the structure they share. *)

From S2P Require Import Prelude World Life Atomic Lock Process.
From stdpp Require Import relations.
#[local] Open Scope Z_scope.

(** * Steps *)

(** Where the controlling thread is: the access it does next. The flag of the
    steps of [qp_thread_stop] tells whether [qp_thread_destroy] called it. *)
Inductive mpc :=
| Ready                                     (** between two calls *)
| S_inited (h a : Z)                        (** [qp_thread_start]: the guard *)
| S_handler (h a : Z) | S_args (h a : Z)
| S_create (h a : Z)                        (** [pthread_create] *)
| S_store (h a : Z)                         (** [pthread_create] stores the thread's number late *)
| S_fail_tid | S_fail_handler | S_fail_args
| P_inited (d : bool)                       (** [qp_thread_stop]: the guard *)
| P_detach (d : bool)
| P_join (d : bool)                         (** [pthread_join(thread->tid, NULL)] *)
| P_running (d : bool) | P_tid (d : bool)
| D_inited | D_running | D_unset | D_alloced | D_free
| T_inited | T_ret.                         (** [qp_thread_return] *)

(** Where the new thread is in [qp_thread_runner]. *)
Inductive rpc :=
| R_none                                    (** there is no thread *)
| R_check                                   (** [thread->tid != pthread_self()] *)
| R_detach | R_do_detach | R_undetach
| R_running
| R_affinity                                (** reads [tid] and [cid] *)
| R_handler | R_call
| R_ret (v : Z)                             (** [thread->handler.ret = v] *)
| R_unset
| R_exit | R_done.

(** A call of the controlling thread. *)
Inductive tcall := TStart (h a : Z) | TStop | TDestroy | TReturn.

(** The structure, until it is freed; where the two are; the calls still to be
    made, those marked only when the one before succeeded; what that returned;
    the values [qp_thread_return] gave; the threads that were created and the
    handlers that ran, with their arguments; whether freed memory was touched or
    a thread joined that does not exist. *)
Record tstate := MkT {
  ts_obj : option qp_thread_s;
  ts_main : mpc;
  ts_run : rpc;
  ts_todo : list (bool * tcall);
  ts_last : Z;
  ts_log : list Z;
  ts_started : list (Z * Z);
  ts_ran : list (Z * Z);
  ts_fault : bool;
}.

Definition upd_obj o s := MkT o (ts_main s) (ts_run s) (ts_todo s) (ts_last s) (ts_log s) (ts_started s) (ts_ran s) (ts_fault s).
Definition at_main m s := MkT (ts_obj s) m (ts_run s) (ts_todo s) (ts_last s) (ts_log s) (ts_started s) (ts_ran s) (ts_fault s).
Definition at_run r s := MkT (ts_obj s) (ts_main s) r (ts_todo s) (ts_last s) (ts_log s) (ts_started s) (ts_ran s) (ts_fault s).
Definition todo l s := MkT (ts_obj s) (ts_main s) (ts_run s) l (ts_last s) (ts_log s) (ts_started s) (ts_ran s) (ts_fault s).
Definition returns v s := MkT (ts_obj s) Ready (ts_run s) (ts_todo s) v (ts_log s) (ts_started s) (ts_ran s) (ts_fault s).
Definition logged v s := MkT (ts_obj s) (ts_main s) (ts_run s) (ts_todo s) (ts_last s) (ts_log s ++ [v]) (ts_started s) (ts_ran s) (ts_fault s).
Definition created_for h a s := MkT (ts_obj s) (ts_main s) R_check (ts_todo s) (ts_last s) (ts_log s) (ts_started s ++ [(h, a)]) (ts_ran s) (ts_fault s).
Definition ran h a s := MkT (ts_obj s) (ts_main s) (ts_run s) (ts_todo s) (ts_last s) (ts_log s) (ts_started s) (ts_ran s ++ [(h, a)]) (ts_fault s).
Definition faults s := MkT (ts_obj s) (ts_main s) (ts_run s) (ts_todo s) (ts_last s) (ts_log s) (ts_started s) (ts_ran s) true.

Section steps.
(** The new thread's number, what handlers return, and whether [pthread_create]
    stores the number before the new thread runs. *)
Variables (self : Z) (handle : Z → Z → Z) (early : bool).

(** An access to the shared structure. *)
Definition with_obj (f : qp_thread_s → tstate) (s : tstate) : tstate :=
  match ts_obj s with Some x => f x | None => faults s end.
Definition write_obj (upd : qp_thread_s → qp_thread_s) (s s' : tstate) : tstate :=
  with_obj (λ x, upd_obj (Some (upd x)) s') s.

(** The next call. *)
Definition tcall_pc (c : tcall) : mpc :=
  match c with
  | TStart h a => S_inited h a
  | TStop => P_inited false
  | TDestroy => D_inited
  | TReturn => T_inited
  end.

(** [qp_thread_stop] returns [v]. *)
Definition stop_returns (d : bool) (v : Z) (s : tstate) : tstate :=
  if d && negb (v =? QP_ERROR) then at_main D_unset s else returns v s.

(** The controlling thread goes on; [ok] is what [pthread_create] does. *)
Definition main_step (ok : bool) (s : tstate) : option tstate :=
  match ts_main s with
  | Ready =>
      match ts_todo s with
      | [] => None
      | (guarded, c) :: l =>
          Some (if guarded && (ts_last s =? QP_ERROR) then todo l s
                else at_main (tcall_pc c) (todo l s))
      end
  | S_inited h a =>
      Some (with_obj (λ x, if th_is_inited x then at_main (S_handler h a) s
                           else returns QP_ERROR s) s)
  | S_handler h a => Some (write_obj (set_th_handler_ptr h) s (at_main (S_args h a) s))
  | S_args h a => Some (write_obj (set_th_args_ptr a) s (at_main (S_create h a) s))
  | S_create h a =>
      Some (if negb ok then at_main S_fail_tid s
            else if early then write_obj (set_th_tid self) s (returns QP_SUCCESS (created_for h a s))
            else at_main (S_store h a) (created_for h a s))
  | S_store h a => Some (write_obj (set_th_tid self) s (returns QP_SUCCESS s))
  | S_fail_tid => Some (write_obj (set_th_tid QP_THREAD_INVALID) s (at_main S_fail_handler s))
  | S_fail_handler => Some (write_obj (set_th_handler_ptr NULL) s (at_main S_fail_args s))
  | S_fail_args => Some (write_obj (set_th_args_ptr NULL) s (returns QP_ERROR s))
  | P_inited d =>
      Some (with_obj (λ x, if th_is_inited x then at_main (P_detach d) s
                           else stop_returns d QP_ERROR s) s)
  | P_detach d =>
      Some (with_obj (λ x, at_main (if th_is_detach x then P_running d else P_join d) s) s)
  | P_join d =>
      match ts_obj s with
      | None => Some (faults s)
      | Some x =>
          if negb (th_tid x =? self) then Some (faults s) else
          match ts_run s with
          | R_none => Some (faults s)
          | R_done => Some (at_main (P_tid d) (at_run R_none s))
          | _ => None
          end
      end
  | P_running d =>
      Some (with_obj (λ x, if th_is_running x then stop_returns d QP_ERROR s
                           else at_main (P_tid d) s) s)
  | P_tid d =>
      Some (write_obj (set_th_tid QP_THREAD_INVALID) s (stop_returns d QP_SUCCESS s))
  | D_inited =>
      Some (with_obj (λ x, if th_is_inited x then at_main D_running s
                           else returns QP_ERROR s) s)
  | D_running =>
      Some (with_obj (λ x, at_main (if th_is_running x then P_inited true else D_unset) s) s)
  | D_unset => Some (write_obj (set_th_is_inited false) s (at_main D_alloced s))
  | D_alloced =>
      Some (with_obj (λ x, if th_is_alloced x then at_main D_free s else returns QP_SUCCESS s) s)
  | D_free => Some (with_obj (λ _, upd_obj None (returns QP_SUCCESS s)) s)
  | T_inited =>
      Some (with_obj (λ x, if th_is_inited x then at_main T_ret s
                           else returns QP_SUCCESS (logged NULL s)) s)
  | T_ret => Some (with_obj (λ x, returns QP_SUCCESS (logged (th_ret x) s)) s)
  end.

(** The new thread goes on; [ok] is what [pthread_detach] does. *)
Definition run_step (ok : bool) (s : tstate) : option tstate :=
  match ts_run s with
  | R_none | R_done => None
  | R_check =>
      Some (with_obj (λ x, at_run (if negb (th_tid x =? self) then R_unset else R_detach) s) s)
  | R_detach =>
      Some (with_obj (λ x, at_run (if th_is_detach x then R_do_detach else R_running) s) s)
  | R_do_detach => Some (with_obj (λ _, at_run (if ok then R_running else R_undetach) s) s)
  | R_undetach => Some (write_obj (set_th_is_detach false) s (at_run R_running s))
  | R_running => Some (write_obj (set_th_is_running true) s (at_run R_affinity s))
  | R_affinity => Some (with_obj (λ _, at_run R_handler s) s)
  | R_handler =>
      Some (with_obj (λ x, at_run (if negb (th_handler_ptr x =? NULL) then R_call else R_unset) s) s)
  | R_call =>
      Some (with_obj (λ x,
        let h := th_handler_ptr x in let a := th_args_ptr x in
        at_run (R_ret (handle h a)) (ran h a s)) s)
  | R_ret v => Some (write_obj (set_th_ret v) s (at_run R_unset s))
  | R_unset => Some (write_obj (set_th_is_running false) s (at_run R_exit s))
  | R_exit => Some (at_run R_done s)
  end.

Inductive tact := ByMain (ok : bool) | ByThread (ok : bool).

(** One step of either, until a fault. *)
Definition tstep (a : tact) (s : tstate) : option tstate :=
  if ts_fault s then None else
  match a with ByMain ok => main_step ok s | ByThread ok => run_step ok s end.

Inductive astep : relation tstate :=
| AStep a s s' : tstep a s = Some s' → astep s s'.

Definition tinit (x : qp_thread_s) (l : list (bool * tcall)) : tstate :=
  MkT (Some x) Ready R_none l QP_SUCCESS [] [] [] false.

Fixpoint tschedule (l : list tact) (s : tstate) : option tstate :=
  match l with
  | [] => Some s
  | a :: l => tstep a s ≫= tschedule l
  end.

Lemma tschedule_steps l s s' : tschedule l s = Some s' → rtc astep s s'.
Proof.
  revert s. induction l as [|a l IH]; intros s; cbn; [by intros [= ->]|].
  destruct (tstep a s) as [s1|] eqn:E; [|done]. cbn. intros Hs.
  eapply rtc_l; [by econstructor|by apply IH].
Qed.
End steps.
