(* ===== verification/ThreadProps.v ===== *)
(** What starting, stopping and destroying a thread guarantees under all
    interleavings with the thread itself, and where it does not. *)

From S2P Require Import Prelude World Life Atomic Lock Process ThreadSteps.
From stdpp Require Import relations.
#[local] Open Scope Z_scope.

(** * Every schedule ends *)

(** More than the steps each of the two still has before it. *)
Definition main_rank (m : mpc) : nat :=
  match m with
  | Ready => 0 | S_inited _ _ => 30 | S_handler _ _ => 29 | S_args _ _ => 28 | S_create _ _ => 27
  | S_store _ _ => 1 | S_fail_tid => 3 | S_fail_handler => 2 | S_fail_args => 1
  | P_inited _ => 10 | P_detach _ => 9 | P_join _ => 8 | P_running _ => 7 | P_tid _ => 6
  | D_inited => 12 | D_running => 11 | D_unset => 3 | D_alloced => 2 | D_free => 1
  | T_inited => 2 | T_ret => 1
  end.

Definition run_rank (r : rpc) : nat :=
  match r with
  | R_none => 0 | R_check => 12 | R_detach => 11 | R_do_detach => 10 | R_undetach => 9
  | R_running => 8 | R_affinity => 7 | R_handler => 6 | R_call => 5 | R_ret _ => 4 | R_unset => 3
  | R_exit => 2 | R_done => 1
  end.

Definition steps_left (s : tstate) : nat :=
  if ts_fault s then 0 else 1 + 40 * length (ts_todo s) + main_rank (ts_main s) + run_rank (ts_run s).

Section threads.
Variables (self : Z) (handle : Z → Z → Z).

Lemma tcall_rank c : (main_rank (tcall_pc c) ≤ 30)%nat.
Proof. destruct c; cbn; lia. Qed.

Lemma tstep_left early a s s' :
  tstep self handle early a s = Some s' → (steps_left s' < steps_left s)%nat.
Proof.
  unfold tstep, steps_left. destruct s as [o m r l la lo st ra f]. cbn. destruct f; [done|].
  destruct a as [ok|ok].
  - unfold main_step, write_obj, with_obj, stop_returns. cbn.
    intros Hs. destruct m; repeat case_match; simplify_eq; cbn in *; repeat case_match;
      simplify_eq; cbn; try lia.
    all: match goal with |- context [tcall_pc ?c] => pose proof (tcall_rank c) end; lia.
  - unfold run_step, write_obj, with_obj. cbn.
    intros Hs. repeat case_match; simplify_eq; cbn in *; repeat case_match; simplify_eq; cbn; lia.
Qed.

(** * Rounds of starting and stopping *)

(** Start a thread; when that worked wait for it and ask for its result; and so
    on; destroy the structure. *)
Definition after_stop (l : list (bool * tcall)) := (true, TReturn) :: l.
Definition after_start (l : list (bool * tcall)) := (true, TStop) :: after_stop l.
Fixpoint rounds (hs : list (Z * Z)) : list (bool * tcall) :=
  match hs with
  | [] => [(false, TDestroy)]
  | (h, a) :: hs => (false, TStart h a) :: after_start (rounds hs)
  end.

Definition results (l : list (Z * Z)) : list Z := (λ '(h, a), handle h a) <$> l.

(** ** The invariant *)

(** A joinable structure from the heap. *)
Definition joinable (x : qp_thread_s) : Prop :=
  th_is_inited x = true ∧ th_is_alloced x = true ∧ th_is_detach x = false.

(** No thread: all that were created have run and were asked. *)
Definition still (P : qp_thread_s → Prop) (s : tstate) : Prop :=
  ts_run s = R_none ∧ ts_ran s = ts_started s ∧ ts_log s = results (ts_started s) ∧
  ∃ x, ts_obj s = Some x ∧ th_is_alloced x = true ∧ th_is_running x = false ∧ P x.

(** What the thread has done, by where it is: run the handler, and stored [v]. *)
Definition runs (r : rpc) (x : qp_thread_s) (v : Z) (before after : Prop) : Prop :=
  match r with
  | R_check | R_detach | R_running => th_is_running x = false ∧ before
  | R_affinity | R_handler | R_call => th_is_running x = true ∧ before
  | R_ret u => u = v ∧ after
  | R_unset => th_ret x = v ∧ after
  | R_exit | R_done => th_is_running x = false ∧ th_ret x = v ∧ after
  | R_none | R_do_detach | R_undetach => False
  end.

(** The thread for [h] and [a] is under way. *)
Definition busy (s : tstate) : Prop :=
  ∃ x st h a, ts_obj s = Some x ∧ joinable x ∧ th_tid x = self ∧
    th_handler_ptr x = h ∧ th_args_ptr x = a ∧ h ≠ NULL ∧
    ts_started s = st ++ [(h, a)] ∧ ts_log s = results st ∧
    runs (ts_run s) x (handle h a) (ts_ran s = st) (ts_ran s = ts_started s).

(** It was joined. *)
Definition joined (s : tstate) : Prop :=
  ts_run s = R_none ∧ ts_ran s = ts_started s ∧
  ∃ x st h a, ts_obj s = Some x ∧ joinable x ∧ th_is_running x = false ∧
    ts_started s = st ++ [(h, a)] ∧ ts_log s = results st ∧ th_ret x = handle h a.

Definition finished (s : tstate) : Prop :=
  ts_obj s = None ∧ ts_run s = R_none ∧ ts_ran s = ts_started s ∧
  ts_log s = results (ts_started s) ∧ ts_last s = QP_SUCCESS.

(** What is known by where the controlling thread is; [l] is what is left of the
    rounds. *)
Definition main_ok (l : list (bool * tcall)) (s : tstate) : Prop :=
  match ts_main s with
  | Ready =>
      (ts_todo s = l ∧ still joinable s) ∨
      (ts_todo s = after_start l ∧ ts_last s = QP_ERROR ∧ still joinable s) ∨
      (ts_todo s = after_stop l ∧ ts_last s = QP_ERROR ∧ still joinable s) ∨
      (ts_todo s = after_start l ∧ ts_last s = QP_SUCCESS ∧ busy s) ∨
      (ts_todo s = after_stop l ∧ ts_last s = QP_SUCCESS ∧ joined s) ∨
      (ts_todo s = [] ∧ finished s)
  | S_inited h _ | S_handler h _ => ts_todo s = after_start l ∧ still joinable s ∧ h ≠ NULL
  | S_args h _ =>
      ts_todo s = after_start l ∧ still (λ x, joinable x ∧ th_handler_ptr x = h) s ∧ h ≠ NULL
  | S_create h a =>
      ts_todo s = after_start l ∧
      still (λ x, joinable x ∧ th_handler_ptr x = h ∧ th_args_ptr x = a) s ∧ h ≠ NULL
  | S_fail_tid | S_fail_handler | S_fail_args => ts_todo s = after_start l ∧ still joinable s
  | P_inited false | P_detach false | P_join false => ts_todo s = after_stop l ∧ busy s
  | P_tid false => ts_todo s = after_stop l ∧ joined s
  | T_inited | T_ret => ts_todo s = l ∧ joined s
  | D_inited | D_running | D_unset => ts_todo s = [] ∧ still joinable s
  | D_alloced | D_free => ts_todo s = [] ∧ still (λ _, True) s
  | _ => False
  end.

Definition tinv (s : tstate) : Prop :=
  ts_fault s = false ∧
  ∃ hs, Forall (λ '(h, _), h ≠ NULL) hs ∧ main_ok (rounds hs) s.

(** ** It is kept *)

Ltac open_state s :=
  destruct s as [o m r l la lo st ra f]; unfold still, busy, joined, finished, joinable in *; cbn in *.

(** A step of the thread: it was under way, and still is. *)
Lemma run_step_busy ok s s' :
  run_step self handle ok s = Some s' → ts_run s ≠ R_none ∧
  (busy s → busy s' ∧ ts_main s' = ts_main s ∧ ts_todo s' = ts_todo s ∧ ts_last s' = ts_last s ∧
            ts_fault s' = ts_fault s).
Proof.
  intros Hs. split; [by intros E; unfold run_step in Hs; rewrite E in Hs|].
  open_state s. intros (x & st0 & h & a & -> & (? & ? & Hd) & Ht & <- & <- & Hne & -> & -> & Hr).
  unfold run_step, write_obj, with_obj in Hs. cbn in Hs.
  destruct r; cbn in Hr; try done; destruct_and?;
    rewrite ?Ht, ?Hd, ?Z.eqb_refl, ?(proj2 (Z.eqb_neq _ _) Hne) in Hs; cbn in Hs; simplify_eq.
  all: split; [|done]; cbn; eexists _, st0, _, _; split; [reflexivity|]; cbn; split_and!; done.
Qed.

Lemma results_snoc st h a : results (st ++ [(h, a)]) = results st ++ [handle h a].
Proof. unfold results. by rewrite fmap_app. Qed.

Lemma run_step_inv ok s s' :
  run_step self handle ok s = Some s' → tinv s → tinv s'.
Proof.
  intros [Hr Hb]%run_step_busy (Hf & hs & Hhs & Hm).
  assert (busy s ∧ main_ok (rounds hs) s) as [Hbusy _].
  { split; [|done]. unfold main_ok, still, joined, finished in Hm.
    destruct (ts_main s) as [| | | | | | | | |[]|[]|[]|[]|[]| | | | | | |]; naive_solver. }
  destruct (Hb Hbusy) as (Hb' & Em & Et & El & Ef).
  split; [by rewrite Ef|]. exists hs. split; [done|].
  unfold main_ok in *. rewrite Em, Et, El.
  unfold still, joined, finished in Hm.
  destruct (ts_main s) as [| | | | | | | | |[]|[]|[]|[]|[]| | | | | | |]; naive_solver.
Qed.

(** Between two calls the next one begins, or is passed over. *)
Lemma ready_inv ok s s' :
  ts_main s = Ready → main_step self true ok s = Some s' → tinv s → tinv s'.
Proof.
  intros Em Hs (Hf & hs & Hhs & Hm). unfold main_ok in Hm. rewrite Em in Hm.
  unfold main_step in Hs. rewrite Em in Hs.
  destruct Hm as [[Et Hst]|[(Et & El & Hst)|[(Et & El & Hst)|[(Et & El & Hb)|[(Et & El & Hj)|[Et _]]]]]];
    rewrite Et in Hs.
  - destruct hs as [|[h a] hs]; cbn in Hs; simplify_eq; (split; [done|]).
    + by exists [].
    + apply Forall_cons in Hhs as [? ?]. exists hs. by split; [|split].
  - cbn in Hs. rewrite El in Hs. simplify_eq. split; [done|]. exists hs. split; [done|].
    unfold main_ok. cbn. rewrite Em. do 2 right. by left.
  - cbn in Hs. rewrite El in Hs. simplify_eq. split; [done|]. exists hs. split; [done|].
    unfold main_ok. cbn. rewrite Em. by left.
  - cbn in Hs. rewrite El in Hs. simplify_eq. split; [done|]. by exists hs.
  - cbn in Hs. rewrite El in Hs. simplify_eq. split; [done|]. by exists hs.
  - done.
Qed.

(** The step from where the controlling thread is, on a structure that is there. *)
Ltac run_main Hs :=
  unfold main_step, write_obj, with_obj, stop_returns in Hs; cbn in Hs;
  repeat match goal with E : _ = true |- _ => rewrite E in Hs | E : _ = false |- _ => rewrite E in Hs end;
  cbn in Hs; simplify_eq.

Lemma main_step_inv ok s s' :
  main_step self true ok s = Some s' → tinv s → tinv s'.
Proof.
  intros Hs Hinv. destruct (ts_main s) as [|h a|h a|h a|h a| | | | |[]|[]|[]|[]|[]| | | | | | |] eqn:Em;
    [by eapply ready_inv|..].
  all: destruct Hinv as (Hf & hs & Hhs & Hm); unfold main_ok in Hm; rewrite Em in Hm; try done.
  all: destruct s as [o m r l la lo st ra f]; cbn in Em, Hf; subst m f;
    unfold still, busy, joined, joinable in Hm; cbn in Hm; destruct_and?;
    repeat match goal with H : ∃ _, _ |- _ => destruct H end; destruct_and?; simplify_eq.
  all: run_main Hs.
  all: try (split; [done|]; exists hs; split; [done|]; unfold main_ok, still, busy, joined, finished, joinable; cbn; naive_solver).
  - (* pthread_create *)
    destruct ok; cbn; (split; [done|]); exists hs; (split; [done|]); unfold main_ok; cbn.
    + do 3 right. left. split; [done|]. split; [done|].
      exists (set_th_tid self x), st, (th_handler_ptr x), (th_args_ptr x).
      unfold joinable. by split_and!.
    + split; [done|]. unfold still, joinable. naive_solver.
  - (* pthread_join *)
    match goal with E : th_tid _ = self |- _ => rewrite E, Z.eqb_refl in Hs end.
    cbn in Hs. destruct r; try done. injection Hs as <-.
    split; [done|]. exists hs. split; [done|]. unfold main_ok, joined, joinable. cbn in *. naive_solver.
  - (* qp_thread_return *)
    split; [done|]. exists hs. split; [done|]. left. split; [done|]. unfold still, joinable. cbn.
    rewrite results_snoc. naive_solver congruence.
Qed.

Lemma tinit_inv x hs :
  joinable x → th_is_running x = false → Forall (λ '(h, _), h ≠ NULL) hs →
  tinv (tinit x (rounds hs)).
Proof.
  intros Hx Hr Hhs. split; [done|]. exists hs. split; [done|]. left. split; [done|].
  unfold still. cbn. split_and!; try done. exists x. split_and!; [done|apply Hx|done|done].
Qed.

Lemma tinv_reachable x hs s :
  joinable x → th_is_running x = false → Forall (λ '(h, _), h ≠ NULL) hs →
  rtc (astep self handle true) (tinit x (rounds hs)) s → tinv s.
Proof.
  intros Hx Hr Hhs Hs. pose proof (tinit_inv _ _ Hx Hr Hhs) as Hi. revert Hi.
  induction Hs as [s|s0 s1 s2 [a u v Ha] _ IH]; [done|]. intros Hi. apply IH.
  unfold tstep in Ha. destruct (ts_fault u); [done|].
  destruct a; [by eapply main_step_inv|by eapply run_step_inv].
Qed.

(** ** Only what was asked for is started *)

Definition call_start (c : bool * tcall) : option (Z * Z) :=
  match c.2 with TStart h a => Some (h, a) | _ => None end.
Definition pc_start (m : mpc) : list (Z * Z) :=
  match m with
  | S_inited h a | S_handler h a | S_args h a | S_create h a => [(h, a)]
  | _ => []
  end.

(** What was started, and may be. *)
Definition starts (s : tstate) : list (Z * Z) :=
  ts_started s ++ pc_start (ts_main s) ++ omap call_start (ts_todo s).

Lemma call_pc_start b c l :
  pc_start (tcall_pc c) ++ omap call_start l = omap call_start ((b, c) :: l).
Proof. by destruct c. Qed.

Lemma tstep_starts early a s s' :
  tstep self handle early a s = Some s' → starts s' `sublist_of` starts s.
Proof.
  assert (∀ l l1 l2 : list (Z * Z), l ++ l2 `sublist_of` l ++ l1 ++ l2) as Hdrop.
  { intros l l1 l2. apply sublist_app; [done|]. by apply sublist_inserts_l. }
  unfold tstep, starts. destruct (ts_fault s); [done|]. destruct a as [ok|ok].
  - unfold main_step, write_obj, with_obj, stop_returns. intros Hs.
    destruct (ts_main s) eqn:Em; repeat case_match; simplify_eq; cbn -[omap]; rewrite ?Em;
      cbn -[omap]; try done; try (by apply (Hdrop _ [_])); try (by rewrite <-?app_assoc).
    + change (omap call_start (_ :: _)) with (omap call_start ((true, t) :: l)).
      rewrite <-call_pc_start. apply Hdrop.
    + by rewrite (call_pc_start b).
  - unfold run_step, write_obj, with_obj. intros Hs. by repeat case_match; simplify_eq.
Qed.

Lemma starts_rounds hs : omap call_start (rounds hs) = hs.
Proof. induction hs as [|[h a] hs IH]; [done|]. cbn. by f_equal. Qed.

Lemma starts_reachable x hs s :
  rtc (astep self handle true) (tinit x (rounds hs)) s → ts_started s `sublist_of` hs.
Proof.
  intros Hs. trans (starts s); [by apply sublist_inserts_r|].
  rewrite <-(starts_rounds hs). change (omap call_start (rounds hs)) with (starts (tinit x (rounds hs))).
  induction Hs as [s0|s0 s1 s2 [a u v Ha] _ IH]; [done|].
  etrans; [exact IH|]. by eapply tstep_starts.
Qed.

(** Where the rounds are not over, one of the two can go on. *)
Lemma tinv_progress s :
  tinv s → (ts_main s = Ready ∧ ts_todo s = [] ∧ finished s) ∨
           ∃ a s', tstep self handle true a s = Some s'.
Proof.
  intros (Hf & hs & Hhs & Hm). unfold tstep. rewrite Hf.
  destruct (main_step self true true s) as [s1|] eqn:E; [right; by exists (ByMain true), s1|].
  unfold main_ok in Hm.
  destruct (ts_main s) as [|h a|h a|h a|h a| | | | |[]|[]|[]|[]|[]| | | | | | |] eqn:Em; try done;
    unfold main_step in E; rewrite Em in E; try done.
  - destruct (ts_todo s) as [|[]] eqn:Et; [|done]. left.
    destruct hs as [|[h a] hs]; naive_solver.
  - destruct Hm as [_ (x & st & h & a & Ho & _ & Ht & _ & _ & _ & _ & _ & Hr)].
    rewrite Ho, Ht, Z.eqb_refl in E. cbn in E. right.
    destruct (ts_run s) eqn:Er; try done;
      (exists (ByThread true); unfold run_step; rewrite Er; by eexists).
Qed.


(** C24. Such a program ends: no schedule of its steps and the threads' is longer
    than the bound [steps_left] gives at its start, and a state in which neither
    can go on is the end of the program. Waiting for a thread never blocks for
    good. *)
Theorem thread_rounds_end x hs n s :
  joinable x → th_is_running x = false → Forall (λ '(h, _), h ≠ NULL) hs →
  nsteps (astep self handle true) n (tinit x (rounds hs)) s →
  (n ≤ 40 * (1 + 3 * length hs) + 1)%nat ∧
  ((∀ s', ¬ astep self handle true s s') →
   ts_main s = Ready ∧ ts_todo s = [] ∧ ts_obj s = None ∧ ts_last s = QP_SUCCESS).
Proof.
  intros Hx Hr Hhs Hn. split.
  - assert (∀ s0 k, nsteps (astep self handle true) k s0 s → (k + steps_left s ≤ steps_left s0)%nat) as Hk.
    { intros s0 k. induction 1 as [|k s0 s1 s2 [a u v Ha] _ IH]; [lia|].
      apply tstep_left in Ha. specialize (IH Hn). lia. }
    apply Hk in Hn. unfold steps_left in Hn at 2. cbn in Hn.
    assert (length (rounds hs) = 1 + 3 * length hs)%nat as E by (clear; induction hs as [|[]]; cbn; lia).
    lia.
  - intros Hend. apply (rtc_nsteps_2 n) in Hn.
    destruct (tinv_progress s) as [(? & ? & ? & ? & ? & ? & ?)|(a & s' & Ha)]; [by eapply tinv_reachable|done|].
    destruct (Hend s'). by econstructor.
Qed.
End threads.

(** * The steps are the code *)

Section code.
Context `{OS}.
Variables (handle : Z → Z → Z).

(** One of the two left alone. *)
Fixpoint solo (a : tact) (k : nat) (s : tstate) : tstate :=
  match k with
  | O => s
  | S k => match tstep pthread_self handle true a s with Some s' => solo a k s' | None => s end
  end.

(** The controlling thread enters the call [c]; [r] is the thread it controls. *)
Definition entered (x : qp_thread_s) (c : tcall) (r : rpc) : tstate :=
  MkT (Some x) (tcall_pc c) r [] QP_SUCCESS [] [] [] false.

(** The code leaves the structure as the steps do. *)
Definition leaves (m : M world Z) (w : world) (q : Z) (s : tstate) : Prop :=
  ts_fault s = false ∧ ts_main s = Ready ∧
  ∃ w', m w = Ok (ts_last s, w') ∧ w_threads w' !! q = ts_obj s.

Lemma leaves_intro m w q s :
  wp m w (λ r w', ts_fault s = false ∧ ts_main s = Ready ∧ r = ts_last s ∧
                  w_threads w' !! q = ts_obj s) → leaves m w q s.
Proof. intros (r & w' & E & ? & ? & -> & ?)%wp_elim. repeat split; try done. by exists w'. Qed.

Lemma obj_threads w q (x : qp_thread_s) : w_threads (obj w q x) !! q = Some x.
Proof. exact (obj_lookup w q x). Qed.

Lemma unmap_threads w q n : 0 < n → w_threads (unmap q n w) !! q = None.
Proof.
  intros Hn. cbn. apply map_lookup_filter_None. right. intros x _. lia.
Qed.

(** Run the code and the steps of [k] accesses on a structure whose flags are known. *)
Ltac same_steps :=
  apply leaves_intro;
  unfold qp_thread_destroy, qp_thread_start, qp_thread_stop, qp_thread_return, qp_thread_is_inited,
    qp_thread_is_detach, qp_thread_is_running, qp_thread_is_alloced, qp_thread_unset_inited;
  orun.
Ltac same_end :=
  split_and!; [reflexivity..|by rewrite obj_threads].

Lemma start_steps q w x h a :
  q ≠ NULL →
  (a_ret (os_answer (w_trace w) "pthread_create" [q] []) = QP_SUCCESS →
   head (a_data (os_answer (w_trace w) "pthread_create" [q] [])) = Some pthread_self) →
  ∃ ok, leaves (qp_thread_start q h a) (obj w q x) q
    (solo (ByMain ok) 10 (entered x (TStart h a) R_none)).
Proof.
  intros Hq Hc. exists (a_ret (os_answer (w_trace w) "pthread_create" [q] []) =? QP_SUCCESS).
  destruct x as [tid cid hp ap ret [] al d ru]; same_steps.
  all: try same_end.
  all: subst; match goal with
    | E : negb _ = _ |- _ => apply (f_equal negb) in E; rewrite negb_involutive in E; rename E into Ec
    end; rewrite Ec.
  - same_end.
  - apply Z.eqb_eq in Ec. rewrite Hc by done. same_end.
Qed.

Lemma stop_steps q w x :
  q ≠ NULL → th_tid x = pthread_self →
  leaves (qp_thread_stop q) (obj w q x) q (solo (ByMain true) 10 (entered x TStop R_done)).
Proof.
  intros Hq Ht. destruct x as [tid cid hp ap ret [] al [] []]; cbn in Ht; subst tid; same_steps.
  all: try same_end.
  all: cbn; rewrite Z.eqb_refl; cbn; same_end.
Qed.

Lemma destroy_steps q w x n :
  q ≠ NULL → th_tid x = pthread_self → 0 < n → w_live w !! q = Some n →
  leaves (qp_thread_destroy q) (obj w q x) q (solo (ByMain true) 20 (entered x TDestroy R_done)).
Proof.
  intros Hq Ht Hn Hl. destruct x as [tid cid hp ap ret [] [] [] []]; cbn in Ht; subst tid; same_steps.
  all: try (ostep; cbn; eapply wp_free; [done|rewrite obj_live; exact Hl|]; repeat ostep).
  all: cbn; rewrite ?Z.eqb_refl; cbn; try same_end.
  all: split_and!; [reflexivity..|by apply unmap_threads].
Qed.

Lemma return_steps q w x :
  q ≠ NULL →
  ∃ r, qp_thread_return q (obj w q x) = Ok (r, obj w q x) ∧
    ts_log (solo (ByMain true) 10 (entered x TReturn R_none)) = [r].
Proof.
  intros Hq.
  assert (wp (qp_thread_return q) (obj w q x) (λ r w', w' = obj w q x ∧
    ts_log (solo (ByMain true) 10 (entered x TReturn R_none)) = [r])) as Hwp.
  2: { apply wp_elim in Hwp as (r & ? & E & -> & ?). by exists r. }
  destruct x as [tid cid hp ap ret [] al d ru]; unfold qp_thread_return, qp_thread_is_inited; orun; done.
Qed.

(** The new thread, as it begins. *)
Definition begun (x : qp_thread_s) : tstate :=
  MkT (Some x) Ready R_check [] QP_SUCCESS [] [] [] false.

Lemma affinity_quiet q w (x : qp_thread_s) tid cid (Q : Z → world → Prop) :
  (∀ r w', Q r (obj w' q x)) → wp (qp_thread_cpu_setaffinity tid cid) (obj w q x) Q.
Proof. intros HQ. unfold qp_thread_cpu_setaffinity. orun; apply HQ. Qed.

Lemma runner_steps q w x :
  q ≠ NULL → (∀ t h a, a_ret (os_answer t "handler_ptr" [h; a] []) = handle h a) →
  ∃ ok w', qp_thread_runner q (obj w q x) = Ok (tt, w') ∧
    let s := solo (ByThread ok) 15 (begun x) in
    ts_fault s = false ∧ ts_run s = R_done ∧ w_threads w' !! q = ts_obj s.
Proof.
  intros Hq Hh. exists (a_ret (os_answer (w_trace w) "pthread_detach" [th_tid x] []) =? QP_SUCCESS).
  assert (wp (qp_thread_runner q) (obj w q x) (λ _ w',
    let s := solo (ByThread (a_ret (os_answer (w_trace w) "pthread_detach" [th_tid x] []) =? QP_SUCCESS))
               15 (begun x) in
    ts_fault s = false ∧ ts_run s = R_done ∧ w_threads w' !! q = ts_obj s)) as Hwp.
  2: { apply wp_elim in Hwp as ([] & w' & E & ?). by exists w'. }
  destruct x as [tid cid hp ap ret i al d ru]. cbn [th_tid].
  destruct (a_ret (os_answer (w_trace w) "pthread_detach" [tid] []) =? QP_SUCCESS) eqn:Eok, (tid =? pthread_self) eqn:Et, (hp =? NULL) eqn:Ep, d;
    unfold qp_thread_runner, qp_thread_is_detach, qp_thread_unset_detach, qp_thread_set_running,
      qp_thread_unset_running; orun.
  all: try (apply affinity_quiet; intros r w1; cbn beta; orun).
  all: subst; try congruence.
  all: try match goal with E : negb (_ =? _) = _ |- _ =>
    cbn in E; first [rewrite Et in E | rewrite Ep in E | rewrite Eok in E]; done end.
  all: cbn; repeat first [rewrite Et; cbn | rewrite Ep; cbn].
  all: rewrite ?Hh, ?obj_threads; done.
Qed.

(** C25. The steps are the steps of the code: left alone, the controlling thread
    in [qp_thread_start], [qp_thread_stop] and [qp_thread_destroy] returns what
    the function returns and leaves the structure (or nothing, once it is freed)
    as the function does, in [qp_thread_return] it gets the value the function
    gives, and the new thread leaves the structure as [qp_thread_runner] does. *)
Theorem thread_steps_are_code q w x n :
  q ≠ NULL → 0 < n → w_live w !! q = Some n →
  (∀ t h a, a_ret (os_answer t "handler_ptr" [h; a] []) = handle h a) →
  (a_ret (os_answer (w_trace w) "pthread_create" [q] []) = QP_SUCCESS →
   head (a_data (os_answer (w_trace w) "pthread_create" [q] [])) = Some pthread_self) →
  (∀ h a, ∃ ok, leaves (qp_thread_start q h a) (obj w q x) q
     (solo (ByMain ok) 10 (entered x (TStart h a) R_none))) ∧
  (th_tid x = pthread_self →
   leaves (qp_thread_stop q) (obj w q x) q (solo (ByMain true) 10 (entered x TStop R_done)) ∧
   leaves (qp_thread_destroy q) (obj w q x) q
     (solo (ByMain true) 20 (entered x TDestroy R_done))) ∧
  (∃ r, qp_thread_return q (obj w q x) = Ok (r, obj w q x) ∧
    ts_log (solo (ByMain true) 10 (entered x TReturn R_none)) = [r]) ∧
  (∃ ok w', qp_thread_runner q (obj w q x) = Ok (tt, w') ∧
    let s := solo (ByThread ok) 15 (begun x) in
    ts_fault s = false ∧ ts_run s = R_done ∧ w_threads w' !! q = ts_obj s).
Proof.
  intros Hq Hn Hl Hh Hc. split_and!.
  - intros h a. by apply start_steps.
  - intros Ht. split; [by apply stop_steps|by eapply destroy_steps].
  - by apply return_steps.
  - by apply runner_steps.
Qed.
End code.

(** * Races *)

(** A joinable structure from the heap, and one for threads that detach. *)
Definition joinable_thread : qp_thread_s := MkThread 0 (-1) 0 0 0 true true false false.
Definition detached_thread : qp_thread_s := MkThread 0 (-1) 0 0 0 true true true false.

(** The state the schedule [l] leads to. *)
Ltac by_schedule self handle early l :=
  lazymatch goal with |- ∃ s, rtc _ ?s0 s ∧ _ =>
    lazymatch eval vm_compute in (tschedule self handle early l s0) with
    | Some ?s => exists s; split; [by apply (tschedule_steps self handle early l); vm_compute|done]
    end
  end.

(** C26. Where the guards of the functions are not enough. [qp_thread_destroy]
    asks the flag the new thread sets itself whether it is running: called
    before the thread has set it, it frees the structure the thread goes on to
    use, joinable or not, and so does stopping a detached thread first.
    [qp_thread_stop] after a failed start joins a thread that does not exist.
    And where [pthread_create] stores the new thread's number only after the
    thread has begun, the thread can find the number missing and leave without
    running its handler, although the start succeeded. *)
Theorem thread_races handle :
  (∃ s, rtc (astep 9 handle true) (tinit joinable_thread [(false, TStart 5 6); (false, TDestroy)]) s ∧
        ts_fault s = true ∧ ts_last s = QP_SUCCESS) ∧
  (∃ s, rtc (astep 9 handle true)
          (tinit detached_thread [(false, TStart 5 6); (true, TStop); (true, TDestroy)]) s ∧
        ts_fault s = true ∧ ts_last s = QP_SUCCESS) ∧
  (∃ s, rtc (astep 9 handle true) (tinit joinable_thread [(false, TStart 5 6); (false, TStop)]) s ∧
        ts_fault s = true) ∧
  (∃ s, rtc (astep 9 handle false) (tinit joinable_thread (rounds [(5, 6)])) s ∧
        ts_main s = Ready ∧ ts_todo s = [] ∧ ts_fault s = false ∧
        ts_started s = [(5, 6)] ∧ ts_ran s = [] ∧ ts_log s = [0]).
Proof.
  split_and!.
  - by_schedule 9 handle true (replicate 11 (ByMain true) ++ [ByThread true]).
  - by_schedule 9 handle true (replicate 16 (ByMain true) ++ [ByThread true]).
  - by_schedule 9 handle true (replicate 12 (ByMain false)).
  - by_schedule 9 handle false
      (replicate 5 (ByMain true) ++ replicate 3 (ByThread true) ++ replicate 15 (ByMain true)).
Qed.

(** * Witnesses *)

(** Two rounds, the first of whose starts fails: the schedule. *)
Definition demo_rounds : list tact :=
  replicate 11 (ByMain false) ++ replicate 5 (ByMain true) ++
  replicate 9 (ByThread true) ++ replicate 13 (ByMain true).


Lemma thread_rounds_end_witness :
  (0 ≤ 40 * (1 + 3 * 2) + 1)%nat ∧
  ((∀ s', ¬ astep 9 (λ h a, h + a) true (tinit joinable_thread (rounds [(5, 6); (7, 8)])) s') →
   Ready = Ready ∧ rounds [(5, 6); (7, 8)] = [] ∧ Some joinable_thread = None ∧ QP_SUCCESS = QP_SUCCESS).
Proof.
  apply (thread_rounds_end 9 (λ h a, h + a) joinable_thread [(5, 6); (7, 8)] 0
    (tinit joinable_thread (rounds [(5, 6); (7, 8)]))); [done|done| |constructor].
  by repeat constructor.
Defined.

(** A system whose handlers add, and whose threads have the number 7. *)
Definition adding : OS := {|
  os_answer t name args data :=
    if bool_decide (name = "handler_ptr"%string) then Ans (hd 0 args + nth 1 args 0) 0 []
    else Ans 0 0 [7];
  pthread_self := 7;
  getpid := 100;
|}.
Definition thread_world : world := set_live {[ 4096 := sizeof_thread ]} empty_world.

Lemma thread_steps_are_code_witness :
  leaves (@qp_thread_stop adding 4096) (obj thread_world 4096 (set_th_tid 7 joinable_thread)) 4096
    (@solo adding (λ h a, h + a) (ByMain true) 10
       (entered (set_th_tid 7 joinable_thread) TStop R_done)) ∧
  leaves (@qp_thread_destroy adding 4096) (obj thread_world 4096 (set_th_tid 7 joinable_thread)) 4096
    (@solo adding (λ h a, h + a) (ByMain true) 20
       (entered (set_th_tid 7 joinable_thread) TDestroy R_done)).
Proof.
  refine (proj1 (proj2 (@thread_steps_are_code adding (λ h a, h + a) 4096 thread_world
    (set_th_tid 7 joinable_thread) sizeof_thread _ _ _ _ _)) eq_refl); done.
Defined.
