(* ===== verification/System.v ===== *)
(** Daemons, resource limits, users and dynamic libraries of
    [src/src/qp_system.c]. *)

From S2P Require Import Prelude World Bytes Atomic.
#[local] Open Scope Z_scope.

(** * Constants and layout (Linux, LP64) *)

Definition QP_FILENO_MAX : Z := 65535.
Definition QP_LIB_LOAD : Z := 1.
Definition QP_LIB_UNLOAD : Z := 0.
Definition QP_LIMIT_GET : Z := 0.
Definition SIGHUP : Z := 1.
Definition SIG_IGN : Z := 1.
Definition RLIMIT_NOFILE : Z := 7.
Definition RLIM_INFINITY : Z := 2 ^ 64 - 1.
Definition O_RDONLY : Z := 0.
Definition O_RDWR : Z := 2.
Definition sizeof_rlimit : Z := 16.
Definition sizeof_library : Z := 24.
Definition zero_library : qp_library_s := MkLibrary 0 0 0.
(** ["/dev/null"] *)
Definition DEV_NULL : list Z := [47; 100; 101; 118; 47; 110; 117; 108; 108].

Section system.
Context `{OS}.

(** * Daemons *)

(** One [fork] of [qp_daemonize]: false when it failed, nothing in the parent,
    which leaves. *)
Definition fork_on : M world (option bool) :=
  pid ← call "fork" [];
  if pid <? 0 then mret (Some false) else
  if 0 <? pid then call "_exit" [0];; mret None else mret (Some true).

Definition to_background : M world (option bool) :=
  on ← fork_on;
  match on with
  | Some true => call "setsid" [];; call "signal" [SIGHUP; SIG_IGN];; fork_on
  | _ => mret on
  end.

(** [if (dir) { if (QP_SUCCESS != f(dir)) ... }]: whether to go on. *)
Definition change_dir (name : string) (dir : option (list Z)) : M world bool :=
  match dir with
  | None => mret true
  | Some d => a ← ext name [] d; mret (a_ret a =? QP_SUCCESS)
  end.

Definition close_body (max i : Z) : M world (Z + unit) :=
  if i <? max then call "close" [i];; mret (inl (u64 (i + 1))) else mret (inr tt).

(** [for (i = 3; i < max; i++) close(i);] *)
Definition close_from_3 (max : Z) : M world unit := loop (S (Z.to_nat max)) (close_body max) 3.

Definition open_null (flag : Z) : M world unit := ext "open" [flag] DEV_NULL;; mret tt.

(** What [qp_daemonize] does once the directories are set. *)
Definition close_all (holdfd : Z) : M world (option Z) :=
  a ← ext "getrlimit" [RLIMIT_NOFILE] [];
  if negb (a_ret a =? 0) then mret (Some QP_ERROR) else
  let rlim_max := u64 (nth 1 (a_data a) 0) in
  (if RLIM_INFINITY =? rlim_max then close_from_3 QP_FILENO_MAX else close_from_3 rlim_max);;
  (if holdfd =? 0 then
     call "close" [0];; call "close" [1];; call "close" [2];;
     open_null O_RDONLY;; open_null O_RDWR;; open_null O_RDWR
   else mret tt);;
  mret (Some 1).

(** Nothing where the process left. *)
Definition qp_daemonize (bg holdfd : Z) (workdir rootdir : option (list Z)) : M world (option Z) :=
  call "umask" [0];;
  on ← (if negb (bg =? 0) then to_background else mret (Some true));
  match on with
  | None => mret None
  | Some false => mret (Some QP_ERROR)
  | Some true =>
      ok ← change_dir "chroot" rootdir;
      if negb ok then mret (Some QP_ERROR) else
      ok ← change_dir "chdir" workdir;
      if negb ok then mret (Some QP_ERROR) else
      close_all holdfd
  end.

(** * Limits and users *)

(** The limits lie in memory, [rlim_cur] and [rlim_max] in eight bytes each. *)
Definition qp_limit_opt (opt source limit : Z) : M world Z :=
  if limit =? NULL then mret QP_ERROR else
  if opt =? QP_LIMIT_GET then
    a ← ext "getrlimit" [source] [];
    (if a_ret a =? 0 then write_bytes limit (fill sizeof_rlimit (a_data a)) else mret tt);;
    mret (a_ret a)
  else
    l ← read_bytes limit sizeof_rlimit;
    a ← ext "setrlimit" [source] l; mret (a_ret a).

Definition qp_check_root : M world Z :=
  uid ← call "getuid" []; gid ← call "getgid" [];
  mret (if (0 =? uid) && (0 =? gid) then QP_SUCCESS else QP_ERROR).

Definition qp_change_user_by_id (uid gid : Z) : M world Z :=
  root ← qp_check_root;
  if root =? 0 then
    if (0 =? uid) && (0 =? gid) then mret QP_ERROR else
    r ← call "setgid" [gid];
    failed ← (if r <? 0 then mret true else r ← call "setuid" [uid]; mret (r <? 0));
    if (failed : bool) then mret QP_ERROR else mret QP_SUCCESS
  else mret QP_ERROR.

(** Of [struct passwd] the user and the group. *)
Definition qp_change_user_by_name (uname : list Z) : M world Z :=
  usr ← ext "getpwnam" [] uname;
  if a_ret usr =? NULL then mret QP_ERROR else
  qp_change_user_by_id (nth 0 (a_data usr) 0) (nth 1 (a_data usr) 0).

(** * Dynamic libraries *)

Definition qp_library_load (name : list Z) (flag : Z) : M world Z :=
  libs ← malloc sizeof_library;
  if libs =? NULL then mret NULL else
  new libs zero_library;;
  a ← ext "dlopen" [flag] name; st (set_lb_handler (a_ret a)) libs;;
  handler ← ld lb_handler libs;
  if handler =? NULL then
    error ← call "dlerror" []; st (set_lb_error error) libs;;
    free libs;; mret NULL
  else
    st (set_lb_error NULL) libs;; st (set_lb_stat QP_LIB_LOAD) libs;; mret libs.

(** [(NULL == libs) || (QP_LIB_LOAD != libs->stat)] *)
Definition not_loaded (libs : Z) : M world bool :=
  if libs =? NULL then mret true else
  stat ← ld lb_stat libs; mret (negb (stat =? QP_LIB_LOAD)).

Definition qp_library_getFunc (libs : Z) (func : list Z) : M world Z :=
  no ← not_loaded libs;
  if (no : bool) then mret NULL else
  handler ← ld lb_handler libs;
  fun_ptr ← ext "dlsym" [handler] func;
  error ← call "dlerror" []; st (set_lb_error error) libs;;
  error ← ld lb_error libs;
  if negb (error =? NULL) then mret NULL else mret (a_ret fun_ptr).

Definition qp_library_unload (libs : Z) : M world unit :=
  no ← not_loaded libs;
  if (no : bool) then mret tt else
  handler ← ld lb_handler libs; call "dlclose" [handler];;
  st (set_lb_handler NULL) libs;; st (set_lb_stat QP_LIB_UNLOAD) libs;;
  free libs.
End system.
