(* ===== verification/SystemProps.v ===== *)
(** What [src/src/qp_system.c] asks of the system: the calls that make a daemon,
    the order in which privileges are given up, and the life of a library. *)

From S2P Require Import Prelude World Life Bytes Atomic System.
#[local] Open Scope Z_scope.

(** * Histories *)

(** A call without what it returned. *)
Definition asked_for (e : event) : string * list Z := (ev_call e, ev_args e).

(** Since [w] the calls [l] were made, and nothing else changed. *)
Definition asked (w : world) (l : list (string * list Z)) (w' : world) : Prop :=
  w' ≡ₘ w ∧ ∃ t, w_trace w' = w_trace w ++ t ∧ asked_for <$> t = l.

Lemma asked_refl w : asked w [] w.
Proof. split; [done|]. exists []. by rewrite app_nil_r. Qed.

Section asks.
Context `{OS}.

Lemma asked_record w l w1 name args data a :
  asked w l w1 → asked w (l ++ [(name, args)]) (record name args data a w1).
Proof.
  intros [E (t & Et & <-)]. split; [by etrans; [apply record_quiet|]|].
  exists (t ++ [Ev name args data (a_ret a)]). by rewrite record_trace, Et, fmap_app, app_assoc.
Qed.

Lemma wp_ask w l w1 name args (Q : Z → world → Prop) :
  asked w l w1 → (∀ v w', asked w (l ++ [(name, args)]) w' → Q v w') → wp (call name args) w1 Q.
Proof. intros Ha HQ. apply wp_call. intros a _. by apply HQ, asked_record. Qed.

Lemma wp_ask_ext w l w1 name args data (Q : answer → world → Prop) :
  asked w l w1 → (∀ v w', asked w (l ++ [(name, args)]) w' → Q v w') →
  wp (ext name args data) w1 Q.
Proof. intros Ha HQ. apply wp_ext. by apply HQ, asked_record. Qed.

(** One statement of code that only asks; the hypothesis on the history grows. *)
Ltac ask :=
  lazymatch goal with
  | |- wp (_ ≫= _) _ _ => apply wp_bind
  | |- wp (mret _) _ _ => apply wp_ret
  | Ha : asked ?w _ ?w1 |- wp (call _ _) ?w1 _ =>
      apply (wp_ask w _ w1 _ _ _ Ha); clear dependent w1; let v := fresh "v" in intros v w1 Ha
  | Ha : asked ?w _ ?w1 |- wp (ext _ _ _) ?w1 _ =>
      apply (wp_ask_ext w _ w1 _ _ _ _ Ha); clear dependent w1; let v := fresh "v" in intros v w1 Ha
  | |- wp (if ?b then _ else _) _ _ => destruct b eqn:?
  end; cbn beta iota.

(** * Daemons *)

(** The calls of a daemon that was made, with the limit [max] on descriptors. *)
Definition daemon_calls (bg holdfd : Z) (workdir rootdir : option (list Z)) (max : Z) :
    list (string * list Z) :=
  [("umask"%string, [0])] ++
  (if bg =? 0 then [] else
     [("fork", []); ("setsid", []); ("signal", [SIGHUP; SIG_IGN]); ("fork", [])]%string) ++
  (if rootdir is Some _ then [("chroot"%string, [])] else []) ++
  (if workdir is Some _ then [("chdir"%string, [])] else []) ++
  [("getrlimit"%string, [RLIMIT_NOFILE])] ++
  ((λ i, ("close"%string, [i])) <$> seqZ 3 (max - 3)) ++
  (if holdfd =? 0 then
     [("close", [0]); ("close", [1]); ("close", [2]);
      ("open", [O_RDONLY]); ("open", [O_RDWR]); ("open", [O_RDWR])]%string
   else []).

Lemma closes_all w l w1 max (Q : unit → world → Prop) :
  0 ≤ max < 2 ^ 64 → asked w l w1 →
  (∀ w', asked w (l ++ ((λ i, ("close"%string, [i])) <$> seqZ 3 (max - 3))) w' → Q tt w') →
  wp (close_from_3 max) w1 Q.
Proof.
  intros Hmax Ha HQ. unfold close_from_3.
  eapply (wp_loop (λ n i w', Z.of_nat n = Z.max 0 (max - i) ∧ 3 ≤ i ∧ (3 < i → i ≤ max) ∧
    asked w (l ++ ((λ i, ("close"%string, [i])) <$> seqZ 3 (i - 3))) w')) with (n := Z.to_nat (Z.max 0 (max - 3)));
    [| |lia].
  - intros n i w2 (Hn & Hi & Hle & Ha2). unfold close_body. destruct (Z.ltb_spec i max).
    + do 3 ask. rewrite wrap_small by lia. exists (Z.to_nat (max - (i + 1))).
      split; [lia|]. split; [lia|]. split; [lia|]. split; [lia|].
      replace (i + 1 - 3) with (i - 3 + 1) by lia. rewrite seqZ_app by lia.
      rewrite fmap_app, app_assoc. by replace (3 + (i - 3)) with i by lia.
    + ask. apply HQ. destruct (decide (i = 3)) as [->|].
      * rewrite (seqZ_nil 3 (max - 3)) by lia. exact Ha2.
      * by replace max with i by lia.
  - split; [lia|]. split; [lia|]. split; [lia|]. cbn. by rewrite app_nil_r.
Qed.

Lemma background_asks w l w1 :
  asked w l w1 →
  wp to_background w1 (λ r w', ∃ l', asked w l' w' ∧
    match r with
    | Some true => l' = l ++ [("fork", []); ("setsid", []); ("signal", [SIGHUP; SIG_IGN]); ("fork", [])]%string
    | Some false => True
    | None => last l' = Some ("_exit"%string, [0])
    end).
Proof.
  intros Ha. unfold to_background, fork_on. repeat ask; eexists; (split; [exact Ha|]); try done.
  all: rewrite ?last_snoc, <-?app_assoc; done.
Qed.

(** How a call of [qp_daemonize] ends. *)
Definition daemon_end bg holdfd workdir rootdir (w : world) (r : option Z) (w' : world) : Prop :=
  ∃ l, asked w l w' ∧
  match r with
  | None => bg ≠ 0 ∧ last l = Some ("_exit"%string, [0])
  | Some r => r = QP_ERROR ∨
      r = 1 ∧ ∃ max, 0 ≤ max < 2 ^ 64 ∧ l = daemon_calls bg holdfd workdir rootdir max
  end.

Lemma change_dir_asks w l w1 name dir (Q : bool → world → Prop) :
  asked w l w1 →
  (∀ w', asked w (l ++ if dir is Some _ then [(name, [])] else []) w' → Q true w') →
  (∀ l' w', asked w l' w' → Q false w') → wp (change_dir name dir) w1 Q.
Proof.
  intros Ha Ht Hf. unfold change_dir. destruct dir; repeat ask.
  - destruct (_ =? _); [by apply Ht|by eapply Hf].
  - apply Ht. by rewrite app_nil_r.
Qed.

Lemma close_all_asks w l w1 holdfd (Q : option Z → world → Prop) :
  asked w l w1 →
  (∀ w' max, 0 ≤ max < 2 ^ 64 →
     asked w (l ++ [("getrlimit"%string, [RLIMIT_NOFILE])] ++
       ((λ i, ("close"%string, [i])) <$> seqZ 3 (max - 3)) ++
       (if holdfd =? 0 then
          [("close", [0]); ("close", [1]); ("close", [2]);
           ("open", [O_RDONLY]); ("open", [O_RDWR]); ("open", [O_RDWR])]%string
        else [])) w' → Q (Some 1) w') →
  (∀ l' w', asked w l' w' → Q (Some QP_ERROR) w') → wp (close_all holdfd) w1 Q.
Proof.
  intros Ha Hok Herr. unfold close_all, open_null.
  do 3 ask; [ask; by eapply Herr|]. ask.
  set (lim := u64 (nth 1 (a_data v) 0)).
  assert (∃ max, 0 ≤ max < 2 ^ 64 ∧
    (if RLIM_INFINITY =? lim then close_from_3 QP_FILENO_MAX else close_from_3 lim) = close_from_3 max)
    as (max & Hmax & ->).
  { destruct (RLIM_INFINITY =? lim); [exists QP_FILENO_MAX|exists lim]; (split; [|reflexivity]);
      [unfold QP_FILENO_MAX; lia|by apply wrap_range]. }
  eapply closes_all; [done|exact Ha|]. intros w2 Ha2.
  destruct (holdfd =? 0); repeat ask; apply (Hok _ max Hmax); rewrite ?app_nil_r;
    rewrite <-!app_assoc in Ha2; exact Ha2.
Qed.

Lemma daemonize_asks bg holdfd workdir rootdir w w1 :
  asked w [] w1 →
  wp (qp_daemonize bg holdfd workdir rootdir) w1 (daemon_end bg holdfd workdir rootdir w).
Proof.
  intros Ha. unfold qp_daemonize. do 3 ask.
  apply (wp_mono _ _ (λ r w', ∃ l', asked w l' w' ∧
    match r with
    | Some true => l' = [("umask"%string, [0])] ++ (if bg =? 0 then [] else
     [("fork", []); ("setsid", []); ("signal", [SIGHUP; SIG_IGN]); ("fork", [])]%string)
    | Some false => True
    | None => bg ≠ 0 ∧ last l' = Some ("_exit"%string, [0])
    end)).
  { destruct (Z.eqb_spec bg 0) as [->|Hbg]; cbn [negb].
    - ask. eexists. by split; [exact Ha|].
    - eapply wp_mono; [by apply background_asks|]. intros [[]|] w2 (l & Hl & E); exists l; by subst. }
  intros [[]|] w2 (l & Hl & E); [|ask; exists l; split; [done|by left]|ask; by exists l].
  subst l. ask. eapply change_dir_asks; [done| |].
  2: { intros l w3 Hl3. cbn. ask. exists l. split; [done|by left]. }
  intros w3 Hl3. cbn. ask. eapply change_dir_asks; [done| |].
  2: { intros l w4 Hl4. cbn. ask. exists l. split; [done|by left]. }
  intros w4 Hl4. cbn. eapply close_all_asks; [done| |].
  - intros w5 max Hmax Hl5. eexists. split; [exact Hl5|]. right. split; [done|]. exists max.
    split; [done|]. unfold daemon_calls. by rewrite <-!app_assoc.
  - intros l w5 Hl5. exists l. split; [done|by left].
Qed.


(** * Users *)

Ltac trace_done := rewrite !record_trace, <-!app_assoc; done.

(** C29. Privileges are given up in the right order, or not at all. When
    [qp_change_user_by_id] reports success it was root that asked, the target is
    not root, and the calls made are the group first and the user last, both
    accepted; a refused group change is never followed by the change of user; and
    nothing but errors come back in every other case. *)
Theorem change_user_order uid gid w :
  ∃ r w' l, qp_change_user_by_id uid gid w = Ok (r, w') ∧ w' ≡ₘ w ∧
    w_trace w' = w_trace w ++ [Ev "getuid" [] [] (hd 0 l); Ev "getgid" [] [] (nth 1 l 0)] ++
      match l with
      | [_; _; g] => [Ev "setgid" [gid] [] g]
      | [_; _; g; u] => [Ev "setgid" [gid] [] g; Ev "setuid" [uid] [] u]
      | _ => []
      end ∧
    match l with
    | [a; b] => (a ≠ 0 ∨ b ≠ 0 ∨ uid = 0 ∧ gid = 0) ∧ r = QP_ERROR
    | [a; b; g] => a = 0 ∧ b = 0 ∧ (uid ≠ 0 ∨ gid ≠ 0) ∧ g < 0 ∧ r = QP_ERROR
    | [a; b; g; u] =>
        a = 0 ∧ b = 0 ∧ (uid ≠ 0 ∨ gid ≠ 0) ∧ 0 ≤ g ∧ r = if u <? 0 then QP_ERROR else QP_SUCCESS
    | _ => False
    end.
Proof.
  unfold qp_change_user_by_id, qp_check_root, call, ext.
  cbv [mbind M_bind mret M_ret]. cbn [a_ret].
  set (a := os_answer _ "getuid" _ _).
  set (b := os_answer _ "getgid" _ _).
  destruct ((0 =? a_ret a) && (0 =? a_ret b)) eqn:Eroot;
    [change (QP_SUCCESS =? 0) with true|change (QP_ERROR =? 0) with false]; cbv beta iota.
  2: { eexists QP_ERROR, _, [a_ret a; a_ret b]. split_and!; [reflexivity|done|trace_done| |done].
       apply andb_false_iff in Eroot. lia. }
  apply andb_true_iff in Eroot as [Ea Eb].
  destruct ((0 =? uid) && (0 =? gid)) eqn:Eto; cbv beta iota.
  { eexists QP_ERROR, _, [a_ret a; a_ret b]. split_and!; [reflexivity|done|trace_done| |done].
    right; right. lia. }
  assert (uid ≠ 0 ∨ gid ≠ 0) as Hto by (apply andb_false_iff in Eto; lia).
  set (g := os_answer _ "setgid" _ _).
  destruct (a_ret g <? 0) eqn:Eg; cbv beta iota.
  - eexists QP_ERROR, _, [a_ret a; a_ret b; a_ret g].
    split_and!; [reflexivity|done|trace_done|lia|lia|done|lia|done].
  - set (u := os_answer _ "setuid" _ _).
    destruct (a_ret u <? 0) eqn:Eu; cbv beta iota;
      (eexists _, _, [a_ret a; a_ret b; a_ret g; a_ret u];
       split_and!; [reflexivity|done|trace_done|lia|lia|done|lia|by rewrite Eu]).
Qed.

(** * Libraries *)

(** Loading and unloading a library gives back what it took; a library that
    cannot be loaded leaves nothing. *)
Lemma library_balanced name flag w :
  ∃ q w1, qp_library_load name flag w = Ok (q, w1) ∧
    (q = NULL ∧ w1 ≡ₘ w ∨
     q ≠ NULL ∧ ∃ w2, qp_library_unload q w1 = Ok (tt, w2) ∧ w2 ≡ₘ w).
Proof.
  assert (wp (qp_library_load name flag) w (λ q w1, q = NULL ∧ w1 ≡ₘ w ∨
     q ≠ NULL ∧ ∃ w2, qp_library_unload q w1 = Ok (tt, w2) ∧ w2 ≡ₘ w)) as Hwp.
  2: { apply wp_elim in Hwp as (q & w1 & E & ?). by exists q, w1. }
  unfold qp_library_load. ostep. apply wp_malloc.
  2: { intros e. ostep. ostep. left. split; [done|apply record_quiet]. }
  intros q e Hu Hq. set (w0 := set_live _ _).
  assert (w0 ≡ₘ block_at q sizeof_library w) as E0
    by (unfold w0, block_at; by apply set_live_same, record_quiet).
  rewrite (proj2 (Z.eqb_neq q NULL)) by done. do 4 ostep.
  assert (∀ (x : qp_library_s) w1, w1 ≡ₘ w0 → wp (free q) (obj w1 q x) (λ _ w2, w2 ≡ₘ w)) as Hfree.
  { intros x w1 E1.
    assert (wp ((if true then free q else mret tt);; mret 0) (obj w1 q x) (λ _ w2, w2 ≡ₘ w)) as Hr.
    { apply (wp_release w NULL sizeof_library q w1 x true 0); [done| |done|intros w2 Hg; by apply Hg].
      right. split_and!; [done|done|done|by etrans]. }
    revert Hr. unfold wp, mbind, M_bind. by destruct (free q (obj w1 q x)) as [[? ?]| |]. }
  do 4 ostep. cbn [lb_handler set_lb_handler].
  destruct (Z.eqb_spec (a_ret a) NULL) as [Hnull|Hload].
  - rewrite Hnull. repeat ostep. eapply wp_mono; [apply Hfree|].
    { etrans; apply record_quiet. }
    intros ? w2 E2. ostep. left. by split.
  - repeat ostep. right. split; [done|].
    assert (wp (qp_library_unload q) (obj (record "dlopen" [flag] name a w0) q
      (set_lb_stat QP_LIB_LOAD (set_lb_error NULL (set_lb_handler (a_ret a) zero_library))))
      (λ _ w2, w2 ≡ₘ w)) as Hwp; [|by apply wp_elim in Hwp as ([] & w2 & E & ?); exists w2].
    unfold qp_library_unload, not_loaded. rewrite (proj2 (Z.eqb_neq q NULL)) by done.
    repeat ostep. apply Hfree. etrans; apply record_quiet.
Qed.
End asks.
