(* ===== verification/EvState.v ===== *)
(** The state the event loop works on: the heap that holds its structures, pools
    and caches, and the rest - the operating system, the descriptor structures
    and the trees. [xwp m u Φ] is total correctness with the heap in separation
    logic and the rest [u] as a value: the specifications of pools and managers
    apply to the event loop as they are. *)

From S2P Require Import RbModel RbTree.
From S2P Require Import Prelude World Heap.
#[local] Open Scope Z_scope.

(** * State *)

Record rest := MkRest { r_world : world; r_trees : rbmem }.
Record evs := MkEvs { ev_heap : heap; ev_rest : rest }.

#[export] Instance lens_heap : Lens evs heap.
Proof. by refine {| lget := ev_heap; lset h s := MkEvs h (ev_rest s) |}; intros; destruct s. Defined.
#[export] Instance lens_world : Lens evs world.
Proof.
  by refine {| lget s := r_world (ev_rest s);
               lset w s := MkEvs (ev_heap s) (MkRest w (r_trees (ev_rest s))) |};
    intros; destruct s as [? []].
Defined.
#[export] Instance lens_trees : Lens evs rbmem.
Proof.
  by refine {| lget s := r_trees (ev_rest s);
               lset t s := MkEvs (ev_heap s) (MkRest (r_world (ev_rest s)) t) |};
    intros; destruct s as [? []].
Defined.

Abbreviation EV := (Prelude.M evs).

(** An operation on the heap; one on the system and its structures. *)
Abbreviation mem := (zoom (S := evs) (A := heap)).
Abbreviation sys := (zoom (S := evs) (A := world)).

(** * Total correctness *)

Section xwp.
Context `{!heapGS Σ}.

Definition xwp {A} (m : EV A) (u : rest) (Φ : A → rest → iProp Σ) : iProp Σ :=
  ∀ h, interp h ==∗
    match m (MkEvs h u) with
    | Ok (a, s) => interp (ev_heap s) ∗ Φ a (ev_rest s)
    | _ => False
    end.

Lemma xwp_ret {A} (a : A) u Φ : Φ a u ⊢ xwp (mret a) u Φ.
Proof. iIntros "HΦ" (h) "Hh !>". iFrame. Qed.

Lemma xwp_bind {A B} (m : EV A) (f : A → EV B) u Φ :
  xwp m u (λ a u', xwp (f a) u' Φ) ⊢ xwp (m ≫= f) u Φ.
Proof.
  iIntros "Hm" (h) "Hh". iMod ("Hm" with "Hh") as "Hm".
  unfold mbind, M_bind. destruct (m (MkEvs h u)) as [[a [h' u']]| |]; [|done..].
  iDestruct "Hm" as "[Hh Hf]". by iApply "Hf".
Qed.

Lemma xwp_assoc {A B C} (m : EV A) (f : A → EV B) (g : B → EV C) u Φ :
  xwp ((m ≫= f) ≫= g) u Φ ⊢ xwp (m ≫= λ a, f a ≫= g) u Φ.
Proof.
  iIntros "Hm" (h) "Hh". iMod ("Hm" with "Hh") as "Hm". iModIntro.
  unfold mbind, M_bind. by destruct (m (MkEvs h u)) as [[a s]| |].
Qed.

Lemma xwp_wand {A} (m : EV A) u (Φ Ψ : A → rest → iProp Σ) :
  xwp m u Φ ⊢ (∀ a u', Φ a u' -∗ Ψ a u') -∗ xwp m u Ψ.
Proof.
  iIntros "Hm HΨ" (h) "Hh". iMod ("Hm" with "Hh") as "Hm". iModIntro.
  destruct (m (MkEvs h u)) as [[a [h' u']]| |]; [|done..].
  iDestruct "Hm" as "[$ Hm]". by iApply "HΨ".
Qed.

(** An operation on the heap has its specification. *)
Lemma xwp_mem {A} (m : Heap.H A) u Φ : hwp m (λ a, Φ a u) ⊢ xwp (mem m) u Φ.
Proof.
  iIntros "Hm" (h) "Hh". iMod ("Hm" with "Hh") as "Hm". unfold zoom. cbn.
  by destruct (m h) as [[a h']| |].
Qed.

(** An operation on the rest runs as it does alone. *)
Lemma xwp_sys {A} (m : Prelude.M world A) u Φ (P : A → world → Prop) :
  wp m (r_world u) P →
  (∀ a w, ⌜P a w⌝ -∗ Φ a (MkRest w (r_trees u))) ⊢ xwp (sys m) u Φ.
Proof.
  iIntros (Hm) "HΦ". iIntros (h) "Hh !>". unfold zoom. cbn.
  unfold wp in Hm. destruct (m (r_world u)) as [[a w]| |]; [|done..]. cbn. iFrame.
  by iApply "HΦ".
Qed.

Lemma xwp_trees {A} (m : Prelude.M rbmem A) u Φ (P : A → rbmem → Prop) :
  wp m (r_trees u) P →
  (∀ a t, ⌜P a t⌝ -∗ Φ a (MkRest (r_world u) t)) ⊢ xwp (zoom m) u Φ.
Proof.
  iIntros (Hm) "HΦ". iIntros (h) "Hh !>". unfold zoom. cbn.
  unfold wp in Hm. destruct (m (r_trees u)) as [[a t]| |]; [|done..]. cbn. iFrame.
  by iApply "HΦ".
Qed.

(** A call of the system. *)
Definition said `{OS} (name : string) (args data : list Z) (u : rest) : answer :=
  os_answer (w_trace (r_world u)) name args data.
Definition saying `{OS} (name : string) (args data : list Z) (u : rest) : rest :=
  MkRest (record name args data (said name args data u) (r_world u)) (r_trees u).

Lemma xwp_ext `{OS} name args data u Φ :
  Φ (said name args data u) (saying name args data u) ⊢ xwp (sys (ext name args data)) u Φ.
Proof. iIntros "HΦ" (h) "Hh !>". cbn. iFrame. Qed.

Lemma xwp_call `{OS} name args u Φ :
  Φ (a_ret (said name args [] u)) (saying name args [] u) ⊢ xwp (sys (call name args)) u Φ.
Proof. iIntros "HΦ" (h) "Hh !>". cbn. iFrame. Qed.

Lemma xwp_errno u Φ : Φ (w_errno (r_world u)) u ⊢ xwp (sys get_errno) u Φ.
Proof. iIntros "HΦ" (h) "Hh !>". destruct u. cbn. iFrame. Qed.

(** A loop whose body lowers an index of its invariant. *)
Lemma xwp_loop {A B} (I : nat → A → rest → iProp Σ) (body : A → EV (A + B)) Φ :
  (∀ n a u, I n a u -∗ xwp (body a) u (λ r u', match r with
    | inl a' => ∃ n', ⌜(n' < n)%nat⌝ ∗ I n' a' u'
    | inr b => Φ b u'
    end)) →
  ∀ fuel n a u, (n < fuel)%nat → I n a u ⊢ xwp (loop fuel body a) u Φ.
Proof.
  intros Hbody fuel. induction fuel as [|fuel IH]; intros n a u Hn; [lia|].
  iIntros "HI". cbn [loop]. iApply xwp_bind.
  iApply (xwp_wand with "[HI]"); [by iApply Hbody|].
  iIntros ([a'|b] u') "Hr".
  - iDestruct "Hr" as (n') "[% HI]". iApply (IH n' a' with "HI"). lia.
  - by iApply xwp_ret.
Qed.
End xwp.

#[global] Arguments xwp {_ _ _} _ _ _ : simpl never.
#[global] Arguments said {_} _ _ _ _ : simpl never.
#[global] Arguments saying {_} _ _ _ _ : simpl never.

(** A program verified against the cells and blocks it starts with. *)
Lemma xwp_adequacy Σ `{!heapGpreS Σ} {A} (m : EV A) h u (φ : A → heap → rest → Prop) :
  cells h !! NULL = None →
  (∀ `{!heapGS Σ},
     ([∗ map] a ↦ w ∈ cells h, cell a w) ∗ ([∗ map] p ↦ n ∈ blocks h, block p n) ⊢
     xwp m u (λ a u', ∀ h', interp h' -∗ ⌜φ a h' u'⌝)) →
  ∃ a h' u', m (MkEvs h u) = Ok (a, MkEvs h' u') ∧ φ a h' u'.
Proof.
  intros Hnull Hm. apply (pure_soundness (PROP := iPropI Σ)).
  apply uPred.bupd_soundness; [apply _|].
  iMod (ghost_map_alloc (cells h)) as (γc) "[Hc Hcs]".
  iMod (ghost_map_alloc (blocks h)) as (γb) "[Hb Hbs]".
  set (G := {| cells_name := γc; blocks_name := γb |} : heapGS Σ).
  iMod (Hm G with "[$Hcs $Hbs] [$Hc $Hb //]") as "Hm". iModIntro.
  destruct (m (MkEvs h u)) as [[a [h' u']]| |]; [|done..].
  iDestruct "Hm" as "[Hs Hφ]". iDestruct ("Hφ" with "Hs") as %Hφ.
  iPureIntro. eauto.
Qed.

(** * Symbolic execution *)

Section tactics.
Context `{!heapGS Σ}.
Implicit Types (Δ : envs (uPredI (iResUR Σ))).

Lemma tac_xwp_bind Δ {A B} (m : EV A) (f : A → EV B) u Φ :
  envs_entails Δ (xwp m u (λ a u', xwp (f a) u' Φ)) → envs_entails Δ (xwp (m ≫= f) u Φ).
Proof. rw envs_entails_unseal => ->. apply xwp_bind. Qed.

Lemma tac_xwp_ret Δ {A} (a : A) u Φ :
  envs_entails Δ (Φ a u) → envs_entails Δ (xwp (mret a) u Φ).
Proof. rw envs_entails_unseal => ->. apply xwp_ret. Qed.

Lemma tac_xwp_mem Δ {A} (m : Heap.H A) u Φ :
  envs_entails Δ (hwp m (λ a, Φ a u)) → envs_entails Δ (xwp (mem m) u Φ).
Proof. rw envs_entails_unseal => ->. apply xwp_mem. Qed.

Lemma tac_xwp_call Δ `{OS} name args u Φ :
  envs_entails Δ (Φ (a_ret (said name args [] u)) (saying name args [] u)) →
  envs_entails Δ (xwp (sys (call name args)) u Φ).
Proof. rw envs_entails_unseal => ->. apply xwp_call. Qed.

Lemma tac_xwp_ext Δ `{OS} name args data u Φ :
  envs_entails Δ (Φ (said name args data u) (saying name args data u)) →
  envs_entails Δ (xwp (sys (ext name args data)) u Φ).
Proof. rw envs_entails_unseal => ->. apply xwp_ext. Qed.

Lemma tac_xwp_errno Δ u Φ :
  envs_entails Δ (Φ (w_errno (r_world u)) u) → envs_entails Δ (xwp (sys get_errno) u Φ).
Proof. rw envs_entails_unseal => ->. apply xwp_errno. Qed.
End tactics.

(** One statement. *)
Ltac xstep :=
  lazymatch goal with
  | |- envs_entails _ (xwp (_ ≫= _) _ _) => eapply tac_xwp_bind
  | |- envs_entails _ (xwp (mret _) _ _) => eapply tac_xwp_ret
  | |- envs_entails _ (xwp (sys (call _ _)) _ _) => eapply tac_xwp_call
  | |- envs_entails _ (xwp (sys (ext _ _ _)) _ _) => eapply tac_xwp_ext
  | |- envs_entails _ (xwp (sys get_errno) _ _) => eapply tac_xwp_errno
  | |- envs_entails _ (xwp (mem _) _ _) => eapply tac_xwp_mem
  | |- envs_entails _ (hwp _ _) => hstep
  end; cbn beta iota.
