(* ===== verification/Event.v ===== *)
(** The event sources of [src/src/qp_event.c] and the event systems of
    [src/src/qp_event_module/]: the structures cell by cell on the heap, the
    caches from the pool manager, the descriptors and the trees in the rest of
    the state. *)

From S2P Require Import RbModel RbTree.
From S2P Require Import Prelude Bits World Atomic Io Heap Links Pool Manager EvState.
#[local] Open Scope Z_scope.

(** * Constants and layout (Linux, LP64) *)

Definition QP_EPOLL_IN : Z := 1.
Definition QP_EPOLL_OUT : Z := 4.
Definition QP_EPOLL_ERR : Z := 8.
Definition QP_EPOLL_HUP : Z := 16.
Definition QP_EPOLL_RDHUP : Z := 8192.
Definition QP_EPOLL_EXCLUSIVE : Z := 2 ^ 28.
Definition QP_EPOLL_ET : Z := 2 ^ 31.
Definition EPOLL_CTL_ADD : Z := 1.
Definition EPOLL_CTL_DEL : Z := 2.
Definition EPOLL_CTL_MOD : Z := 3.
Definition QP_EVENT_READCACHE_SIZE : Z := 4096.
Definition QP_EVENT_IDL : Z := 0.
Definition QP_EVENT_NEW : Z := 1.
Definition QP_EVENT_PROCESS : Z := 2.
Definition QP_EVENT_CLOSE : Z := 4.

(** [struct qp_event_source_s]: the link [ready_next] at 0. *)
Definition src_read_cache : Z := 56.
Definition src_write_cache : Z := 64.
Definition src_read_cache_size : Z := 72.
Definition src_write_cache_size : Z := 80.
Definition src_read_cache_offset : Z := 88.
Definition src_write_cache_offset : Z := 96.
Definition src_write_cache_cur_offset : Z := 104.
Definition src_source_fd : Z := 112.
Definition src_index : Z := 116.
Definition src_events : Z := 120.
Definition src_revents : Z := 124.
Definition src_timeout : Z := 128.
Definition src_bits : Z := 132.
Definition src_noblock : Z := 134.
Definition src_edge : Z := 135.
Definition sizeof_source : Z := 136.

(** [struct qp_event_s]: [source_cache_pool] at 0. *)
Definition ev_source_cachepool_size : Z := 64.
Definition ev_event_pool : Z := 72.
Definition ev_eventpool_size : Z := 128.
Definition ev_timer : Z := 136.
Definition ev_ready : Z := 192.
Definition ev_listen_ready : Z := 200.
Definition ev_event_fd : Z := 208.
(** [event_handle] *)
Definition ev_h_create : Z := 232.
Definition ev_h_wait : Z := 240.
Definition ev_h_add : Z := 256.
Definition ev_h_reset : Z := 264.
Definition ev_h_del : Z := 272.
(** [process_handle] *)
Definition ev_p_read : Z := 280.
Definition ev_p_write : Z := 288.
Definition ev_p_idle : Z := 296.
Definition ev_p_idle_arg : Z := 304.
Definition ev_bucket : Z := 312.
Definition ev_bucket_size : Z := 320.
Definition ev_is_alloced : Z := 328.
Definition ev_is_run : Z := 329.
Definition sizeof_event : Z := 336.
Definition sizeof_epoll_event : Z := 12.

(** * Bit-fields *)

Definition src_stat : bits := MkBits 0 4.
Definition src_closed : bits := MkBits 4 1.
Definition src_listen : bits := MkBits 5 1.
Definition src_shutdown : bits := MkBits 6 1.
Definition src_urgen : bits := MkBits 7 1.
Definition src_write : bits := MkBits 8 1.
Definition src_read : bits := MkBits 9 1.
Definition src_write_close : bits := MkBits 10 1.

Definition src_get (b : bits) (source : Z) : H Z :=
  if source =? NULL then fault else
  w ← load (source + src_bits); mret (get_bits b w).
Definition src_put (b : bits) (v source : Z) : H unit :=
  if source =? NULL then fault else
  w ← load (source + src_bits); store (source + src_bits) (put_bits b v w).

(** * Bytes on the heap *)

Fixpoint store_bytes (p : Z) (l : list Z) : H unit :=
  match l with
  | [] => mret tt
  | b :: l => store p b;; store_bytes (p + 1) l
  end.

Fixpoint load_all (l : list Z) : H (list Z) :=
  match l with
  | [] => mret []
  | a :: l => b ← load a; bs ← load_all l; mret (b :: bs)
  end.
Definition load_bytes (p n : Z) : H (list Z) := load_all (seqZ p n).

(** * Sources and their caches *)

Definition qp_event_set_alloced (event : Z) : H unit :=
  if event =? NULL then mret tt else store (event + ev_is_alloced) 1.

Definition qp_event_is_alloced (event : Z) : H bool :=
  if event =? NULL then mret false else b ← load (event + ev_is_alloced); mret (negb (b =? 0)).

Definition qp_event_source_set_shutdown (source : Z) : H unit :=
  if source =? NULL then mret tt else
  src_put src_shutdown 1 source;; src_put src_stat QP_EVENT_CLOSE source.

Definition qp_event_source_clear_flag (source : Z) : H unit :=
  if source =? NULL then mret tt else
  src_put src_listen 0 source;; src_put src_closed 0 source;; src_put src_shutdown 0 source;;
  src_put src_urgen 0 source;; src_put src_write 0 source;; src_put src_read 0 source;;
  src_put src_write_close 0 source;; src_put src_stat QP_EVENT_IDL source.

Definition qp_event_source_alloc_read_cache (event source : Z) : H Z :=
  if (event =? NULL) || (source =? NULL) then mret QP_ERROR else
  cache ← load (source + src_read_cache);
  if negb (cache =? NULL) then mret QP_ERROR else
  store (source + src_read_cache_size) QP_EVENT_READCACHE_SIZE;;
  size ← load (source + src_read_cache_size);
  cache ← qp_manager_alloc event size;
  store (source + src_read_cache) cache;;
  if cache =? NULL then store (source + src_read_cache_size) 0;; mret QP_ERROR else
  mret QP_SUCCESS.

Definition qp_event_source_free_read_cache (event source : Z) : H Z :=
  if (event =? NULL) || (source =? NULL) then mret QP_ERROR else
  cache ← load (source + src_read_cache);
  if cache =? NULL then mret QP_ERROR else
  qp_manager_free event cache;;
  store (source + src_read_cache_size) 0;; store (source + src_read_cache) NULL;;
  mret QP_SUCCESS.

Definition qp_event_source_alloc_write_cache (event source : Z) : H Z :=
  if (event =? NULL) || (source =? NULL) then mret QP_ERROR else
  cache ← load (source + src_write_cache);
  if negb (cache =? NULL) then mret QP_ERROR else
  store (source + src_write_cache_size) QP_EVENT_READCACHE_SIZE;;
  store (source + src_write_cache_cur_offset) 0;;
  size ← load (source + src_write_cache_size);
  cache ← qp_manager_alloc event size;
  store (source + src_write_cache) cache;;
  if cache =? NULL then store (source + src_write_cache_size) 0;; mret QP_ERROR else
  mret QP_SUCCESS.

Definition qp_event_source_free_write_cache (event source : Z) : H Z :=
  if (event =? NULL) || (source =? NULL) then mret QP_ERROR else
  cache ← load (source + src_write_cache);
  if cache =? NULL then mret QP_ERROR else
  qp_manager_free event cache;;
  store (source + src_write_cache_size) 0;; store (source + src_write_cache) NULL;;
  mret QP_SUCCESS.

(** * Event systems *)

(** What [event_handle] points to: functions by address. *)
Class EvHandle := {
  ev_create : Z → Z → Z → EV Z;
  ev_wait : Z → Z → Z → EV Z;
  ev_add : Z → Z → Z → EV Z;
  ev_reset : Z → Z → Z → Z → EV Z;
  ev_del : Z → Z → Z → EV Z;
}.

Section epoll.
Context `{OS}.

Definition event_fd_of (event : Z) : EV Z := sys (ld fd_fd (event + ev_event_fd)).

Definition qp_event_evpoll_create (event size : Z) : EV Z :=
  fd ← sys (call "epoll_create" [size]);
  sys (st (set_fd_fd fd) (event + ev_event_fd));; event_fd_of event.

(** The kernel stores [events] and [data.ptr] of each ready source, packed. *)
Fixpoint fill_bucket (bucket : Z) (l : list Z) : H unit :=
  match l with
  | events :: ptr :: l =>
      store bucket events;; store (bucket + 4) ptr;; fill_bucket (bucket + sizeof_epoll_event) l
  | _ => mret tt
  end.

Definition qp_event_evpoll_wait (event bucket bucket_size timeout : Z) : EV Z :=
  fd ← event_fd_of event;
  a ← sys (ext "epoll_wait" [fd; bucket; bucket_size; timeout] []);
  mem (fill_bucket bucket (a_data a));; mret (a_ret a).

Definition qp_event_evpoll_add (event source : Z) : EV Z :=
  noblock ← mem (load (source + src_noblock));
  (if negb (noblock =? 0) then
     n ← mem (load (source + src_source_fd)); m ← mem (load (source + src_source_fd));
     flags ← sys (call "fcntl" [m; F_GETFL]);
     sys (call "fcntl" [n; F_SETFL; Z.lor flags O_NONBLOCK]);; mret tt
   else mret tt);;
  events ← mem (load (source + src_events));
  fd ← event_fd_of event; n ← mem (load (source + src_source_fd));
  sys (call "epoll_ctl" [fd; EPOLL_CTL_ADD; n; events; source]).

Definition qp_event_evpoll_reset (event source flag : Z) : EV Z :=
  events ← mem (load (source + src_events));
  fd ← event_fd_of event; n ← mem (load (source + src_source_fd));
  sys (call "epoll_ctl" [fd; EPOLL_CTL_MOD; n; Z.lor events flag; source]).

Definition qp_event_evpoll_del (event source : Z) : EV Z :=
  fd ← event_fd_of event; n ← mem (load (source + src_source_fd));
  sys (call "epoll_ctl" [fd; EPOLL_CTL_DEL; n]).

(** The functions of [qp_event_epoll.c] as an event system. *)
#[export] Instance epoll : EvHandle := {|
  ev_create _ event size := qp_event_evpoll_create event size;
  ev_wait _ event timeout :=
    bucket ← mem (load (event + ev_bucket)); size ← mem (load (event + ev_bucket_size));
    qp_event_evpoll_wait event bucket size timeout;
  ev_add _ event source := qp_event_evpoll_add event source;
  ev_reset _ event source flag := qp_event_evpoll_reset event source flag;
  ev_del _ event source := qp_event_evpoll_del event source;
|}.
End epoll.

(** * Reading and writing *)

Section event.
Context `{OS} `{EvHandle}.

Definition qp_event_source_accept (source : Z) : EV Z :=
  if source =? NULL then mret QP_ERROR else
  fd ← mem (load (source + src_source_fd)); sys (call "accept" [fd; NULL; NULL]).

Definition qp_event_source_close (source : Z) : EV Z :=
  if source =? NULL then mret QP_ERROR else
  closed ← mem (src_get src_closed source);
  fd ← mem (load (source + src_source_fd));
  (if negb (closed =? 0) && negb (QP_FD_INVALID =? fd) then sys (call "close" [fd]);; mret tt
   else mret tt);;
  mem (store (source + src_source_fd) QP_FD_INVALID);; mret QP_SUCCESS.

(** [read(fd, p, n)] and [write(fd, p, n)]. *)
Definition read_at (fd p n : Z) : EV Z :=
  a ← sys (ext "read" [fd; n] []);
  mem (store_bytes p (fill (a_ret a) (a_data a)));; mret (a_ret a).
Definition write_at (fd p n : Z) : EV Z :=
  l ← mem (load_bytes p n); a ← sys (ext "write" [fd; n] l); mret (a_ret a).

(** [event_handle.qp_event_ev_reset], where there is one. *)
Definition reset_events (event source flag : Z) : EV unit :=
  fn ← mem (load (event + ev_h_reset));
  if negb (fn =? NULL) then ev_reset fn event source flag;; mret tt else mret tt.

(** One round of the loop of [qp_event_source_read]; the result of the function
    when it returns, nothing when the loop is left. *)
Definition source_read_body (event source rest : Z) : EV (Z + option Z) :=
  fd ← mem (load (source + src_source_fd)); cache ← mem (load (source + src_read_cache));
  offset ← mem (load (source + src_read_cache_offset));
  ret ← read_at fd (cache + offset) rest;
  if ret <? 1 then
    errno ← sys get_errno;
    if (ret =? 0) || negb (again errno) then
      mem (qp_event_source_set_shutdown source);; mret (inr (Some (u64 QP_ERROR)))
    else mret (inr None)
  else
    offset ← mem (load (source + src_read_cache_offset));
    mem (store (source + src_read_cache_offset) (u64 (offset + ret)));;
    size ← mem (load (source + src_read_cache_size));
    offset ← mem (load (source + src_read_cache_offset));
    let rest := u64 (size - offset) in
    if rest <=? 0 then
      wcache ← mem (load (source + src_write_cache));
      reset_events event source (if negb (wcache =? NULL) then QP_EPOLL_OUT else 0);;
      mret (inr None)
    else
      edge ← mem (load (source + src_edge));
      if negb (edge =? 0) then mret (inl rest) else mret (inr None).

Definition qp_event_source_read (event source : Z) : EV Z :=
  if (event =? NULL) || (source =? NULL) then mret 0 else
  mem (store (source + src_read_cache_offset) 0);;
  read ← mem (src_get src_read source);
  returned ← (if negb (read =? 0) then
    mem (src_put src_read 0 source);;
    ok ← mem (qp_event_source_alloc_read_cache event source);
    if ok =? QP_ERROR then
      mem (qp_event_source_set_shutdown source);; mret (Some (u64 QP_ERROR))
    else
      size ← mem (load (source + src_read_cache_size));
      offset ← mem (load (source + src_read_cache_offset));
      loop (S (Z.to_nat size)) (source_read_body event source) (u64 (size - offset))
    else mret None);
  match returned with
  | Some r => mret r
  | None => mem (load (source + src_read_cache_offset))
  end.

(** One round of the loop of [qp_event_source_write], with [rest] and [ret]. *)
Definition source_write_body (event source : Z) (v : Z * Z) : EV (Z * Z + Z) :=
  let '(rest, ret) := v in
  fd ← mem (load (source + src_source_fd)); cache ← mem (load (source + src_write_cache));
  ret ← write_at fd (cache + rest) (u64 ret);
  if ret <? 1 then
    errno ← sys get_errno; closing ← mem (src_get src_write_close source);
    if (ret =? 0) || negb (again errno) || negb (closing =? 0) then
      mem (qp_event_source_set_shutdown source);;
      mem (qp_event_source_free_read_cache event source);;
      mem (src_put src_write_close 0 source);; mem (src_put src_write 0 source);;
      mret (inr (u64 QP_ERROR))
    else mem (store (source + src_write_cache_cur_offset) rest);; mret (inr rest)
  else
    let rest := u64 (rest + ret) in
    offset ← mem (load (source + src_write_cache_offset));
    let ret := i64 (offset - rest) in
    if ret <=? 0 then mem (qp_event_source_free_write_cache event source);; mret (inr rest)
    else
      edge ← mem (load (source + src_edge));
      if negb (edge =? 0) then mret (inl (rest, ret)) else mret (inr rest).

Definition qp_event_source_write (event source : Z) : EV Z :=
  if (event =? NULL) || (source =? NULL) then mret (u64 QP_ERROR) else
  cache ← mem (load (source + src_write_cache));
  if cache =? NULL then mret (u64 QP_ERROR) else
  rest ← mem (load (source + src_write_cache_cur_offset));
  write ← mem (src_get src_write source);
  if negb (write =? 0) then
    offset ← mem (load (source + src_write_cache_offset));
    let ret := i64 (offset - rest) in
    mem (src_put src_write 0 source);;
    loop (S (Z.to_nat ret)) (source_write_body event source) (rest, ret)
  else mret rest.

(** * Setting up and taking down *)

(** The descriptor structure and the tree inside the event structure, zeroed. *)
Definition embed (event : Z) : EV unit :=
  sys (new (event + ev_event_fd) zero_fd);;
  zoom (A := rbmem) (modify (λ t, MkMem
    (<[event + ev_timer + offsetof_sentinel := MkNode 0 0 0 0 0 0]> (nodes t))
    (<[event + ev_timer := 0]> (roots t)))).

(** [qp_free(event)], with what is inside. *)
Definition free_event (event : Z) : EV unit :=
  mem (Heap.free event);;
  sys (modify (λ w, lset (delete (event + ev_event_fd) (w_fds w)) w));;
  zoom (A := rbmem) (modify (λ t, MkMem
    (delete (event + ev_timer + offsetof_sentinel) (nodes t))
    (delete (event + ev_timer) (roots t)))).

(** The structure: the caller's or a new one, zeroed. *)
Definition event_alloc (event : Z) : EV Z :=
  if event =? NULL then
    event ← mem (Heap.malloc sizeof_event);
    if event =? NULL then mret NULL else
    mem (memset0 event sizeof_event);; embed event;;
    mem (qp_event_set_alloced event);; mret event
  else mem (memset0 event sizeof_event);; embed event;; mret event.

(** Its descriptor, its lists and its tree. *)
Definition event_parts (event : Z) : EV Z :=
  if event =? NULL then mret NULL else
  fd ← sys (qp_fd_init (event + ev_event_fd) QP_FD_TYPE_EVENT false);
  if fd =? NULL then
    alloced ← mem (qp_event_is_alloced event);
    (if (alloced : bool) then free_event event else mret tt);; mret NULL
  else
    mem (qp_list_init (event + ev_ready));;
    mem (qp_list_init (event + ev_listen_ready));;
    zoom (A := rbmem) (qp_rbtree_init (event + ev_timer));;
    mret event.

Definition qp_event_create (event : Z) : EV Z := event_alloc event ≫= event_parts.

Definition qp_event_removeevent (event source : Z) : EV Z :=
  if (event =? NULL) || (source =? NULL) then mret QP_ERROR else
  del ← mem (load (event + ev_h_del));
  (if negb (del =? NULL) then ev_del del event source;; mret tt else mret tt);;
  qp_event_source_close source;;
  mem (qp_event_source_free_read_cache event source);;
  mem (qp_event_source_free_write_cache event source);;
  mem (qp_pool_free (event + ev_event_pool) source);;
  mret QP_SUCCESS.

Definition qp_event_addevent (event fd timeout listen auto_close : Z) : EV Z :=
  if event =? NULL then mret QP_ERROR else
  add ← mem (load (event + ev_h_add));
  if add =? NULL then mret QP_ERROR else
  idle ← mem (qp_pool_available (event + ev_event_pool));
  if negb (idle =? 0) && (QP_FD_INVALID <? fd) then
    source ← mem (qp_pool_alloc (event + ev_event_pool) sizeof_source);
    mem (qp_event_source_clear_flag source);;
    mem (src_put src_listen listen source);; mem (src_put src_closed auto_close source);;
    mem (store (source + src_source_fd) fd);; mem (store (source + src_timeout) timeout);;
    add ← mem (load (event + ev_h_add));
    r ← ev_add add event source;
    if r =? QP_ERROR then
      mem (store (source + src_source_fd) QP_FD_INVALID);;
      qp_event_removeevent event source;; mret QP_ERROR
    else
      listen ← mem (src_get src_listen source);
      mem (src_put src_stat (if negb (listen =? 0) then QP_EVENT_PROCESS else QP_EVENT_NEW) source);;
      mret QP_SUCCESS
  else mret QP_ERROR.

Definition destroy_body (event itr : Z) : EV (Z + unit) :=
  size ← mem (load (event + ev_eventpool_size));
  if itr <? size then
    source ← mem (qp_pool_to_array (event + ev_event_pool) itr);
    qp_event_removeevent event source;; mret (inl (u64 (itr + 1)))
  else mret (inr tt).

Definition qp_event_destroy (event : Z) : EV Z :=
  inited ← sys (if event =? NULL then mret false else qp_fd_is_inited (event + ev_event_fd));
  if negb inited then mret QP_ERROR else
  run ← mem (load (event + ev_is_run));
  if negb (run =? 0) then mret QP_ERROR else
  sys (qp_fd_destroy (event + ev_event_fd));;
  size ← mem (load (event + ev_eventpool_size));
  loop (S (Z.to_nat size)) (destroy_body event) 0;;
  bucket ← mem (load (event + ev_bucket));
  (if negb (bucket =? NULL) then
     mem (Heap.free bucket);; mem (store (event + ev_bucket) NULL);;
     mem (store (event + ev_bucket_size) 0)
   else mret tt);;
  mem (qp_pool_destroy (event + ev_event_pool) true);;
  mem (qp_manager_destroy event true);;
  alloced ← mem (qp_event_is_alloced event);
  (if (alloced : bool) then free_event event else mret tt);; mret QP_SUCCESS.

(** One source of the pool, by its index, as [qp_event_init] prepares it. *)
Definition init_body (event mod_ noblock itr : Z) : EV (Z + unit) :=
  size ← mem (load (event + ev_eventpool_size));
  if itr <? u64 (size * 2) then
    source ← mem (qp_pool_to_array (event + ev_event_pool) itr);
    mem (memset0 source sizeof_source);;
    mem (store (source + src_index) itr);;
    mem (store (source + src_source_fd) QP_FD_INVALID);;
    mem (store (source + src_events) mod_);;
    mem (store (source + src_noblock) noblock);;
    mem (store (source + src_edge) (if negb (Z.land mod_ QP_EPOLL_ET =? 0) then 1 else 0));;
    mem (qp_list_init source);;
    mret (inl (u64 (itr + 1)))
  else mret (inr tt).

Definition qp_event_init (event max_event_size : Z) (noblock edge : bool) : EV Z :=
  let mod_ := Z.lor (Z.lor (Z.lor QP_EPOLL_IN QP_EPOLL_RDHUP) QP_EPOLL_EXCLUSIVE)
                    (if edge then QP_EPOLL_ET else 0) in
  if max_event_size <? 1 then mret NULL else
  event ← qp_event_create event;
  create ← (if event =? NULL then mret NULL else mem (load (event + ev_h_create)));
  if create =? NULL then mret NULL else
  fd ← ev_create create event max_event_size;
  if fd =? QP_FD_INVALID then qp_event_destroy event;; mret NULL else
  mem (store (event + ev_eventpool_size) max_event_size);;
  mem (store (event + ev_bucket_size) max_event_size);;
  mem (store (event + ev_source_cachepool_size) (max_event_size / 2));;
  n ← mem (load (event + ev_bucket_size));
  bucket ← mem (Heap.malloc (u64 (sizeof_epoll_event * n)));
  mem (store (event + ev_bucket) bucket);;
  ok ← (if bucket =? NULL then mret false else
        size ← mem (load (event + ev_eventpool_size));
        pool ← mem (qp_pool_init (event + ev_event_pool) sizeof_source (u64 (size * 2)));
        if pool =? NULL then mret false else
        n ← mem (load (event + ev_source_cachepool_size));
        manager ← mem (qp_manager_init event QP_EVENT_READCACHE_SIZE n);
        mret (negb (manager =? NULL)));
  if negb ok then qp_event_destroy event;; mret NULL else
  size ← mem (load (event + ev_eventpool_size));
  loop (S (Z.to_nat (u64 (size * 2)))) (init_body event mod_ (if noblock then 1 else 0)) 0;;
  mret event.

(** The four words of [qp_event_process_handle]. *)
Definition qp_event_regist_process_handler (event read write idle idle_arg : Z) : EV Z :=
  inited ← sys (if event =? NULL then mret false else qp_fd_is_inited (event + ev_event_fd));
  if (inited : bool) then
    mem (store (event + ev_p_read) read);; mem (store (event + ev_p_write) write);;
    mem (store (event + ev_p_idle) idle);; mem (store (event + ev_p_idle_arg) idle_arg);;
    mret QP_SUCCESS
  else mret QP_ERROR.
End event.
