(* ===== verification/Dispatch.v ===== *)
(** The dispatching of ready events in [src/src/qp_event.c]: the queue of
    listening sources, the queue of sources ready to read or write, and the main
    loop. *)

From S2P Require Import RbModel RbTree.
From S2P Require Import Prelude Bits World Atomic Io Heap Links Pool Manager EvState Event.
#[local] Open Scope Z_scope.

Section dispatch.
Context `{OS} `{EvHandle}.

(** * The program's handlers *)

(** [process_handle.read(index, stat, cache, offset)]: it sees the bytes read. *)
Definition handle_read (fn source : Z) : EV Z :=
  index ← mem (load (source + src_index)); stat ← mem (src_get src_stat source);
  cache ← mem (load (source + src_read_cache));
  n ← mem (load (source + src_read_cache_offset));
  l ← mem (load_bytes cache n);
  a ← sys (ext "process_read" [fn; index; stat; n] l); mret (a_ret a).

(** [process_handle.write(index, stat, cache, &offset, size)]: it stores the number
    of bytes to send, and the bytes. *)
Definition handle_write (fn source : Z) : EV Z :=
  if fn =? NULL then fault else
  index ← mem (load (source + src_index)); stat ← mem (src_get src_stat source);
  cache ← mem (load (source + src_write_cache));
  size ← mem (load (source + src_write_cache_size));
  a ← sys (ext "process_write" [fn; index; stat; size] []);
  (match a_data a with
   | n :: l => mem (store (source + src_write_cache_offset) n);; mem (store_bytes cache l)
   | [] => mret tt
   end);;
  mret (a_ret a).

(** * Listening sources *)

(** One round of the inner loop: accept a client; whether there may be another. *)
Definition accept_body (event source timeout : Z) (_ : unit) : EV (unit + unit) :=
  fd ← qp_event_source_accept source;
  if QP_FD_INVALID =? fd then
    errno ← sys get_errno;
    (if negb (again errno) then qp_event_removeevent event source;; mret tt else mret tt);;
    mret (inr tt)
  else
    r ← qp_event_addevent event fd timeout 0 1;
    (if r =? QP_ERROR then sys (call "close" [fd]);; mret tt else mret tt);;
    edge ← mem (load (source + src_edge));
    mret (if negb (edge =? 0) then inl tt else inr tt).

Definition listen_body (fuel : nat) (event timeout : Z) (_ : unit) : EV (unit + unit) :=
  empty ← mem (qp_list_is_empty (event + ev_listen_ready));
  if (empty : bool) then mret (inr tt) else
  first ← mem (qp_list_first (event + ev_listen_ready));
  let source := qp_list_data first 0 in
  mem (qp_list_pop (event + ev_listen_ready));;
  loop fuel (accept_body event source timeout) tt;; mret (inl tt).

(** [fuel] bounds the clients accepted from one source: the system decides when
    there are no more. *)
Definition qp_event_dispatch_listen_queue (fuel : nat) (event timeout : Z) : EV unit :=
  if event =? NULL then mret tt else
  n ← mem heap_fuel; loop n (listen_body fuel event timeout) tt.

(** * Reading and writing sources *)

(** The three assignments that turn [revents] into flags. *)
Definition mark_ready (source : Z) : H unit :=
  shutdown ← src_get src_shutdown source; revents ← load (source + src_revents);
  src_put src_shutdown
    (Z.lor shutdown (Z.land revents (Z.lor (Z.lor QP_EPOLL_RDHUP QP_EPOLL_HUP) QP_EPOLL_ERR)))
    source;;
  read ← src_get src_read source; revents ← load (source + src_revents);
  src_put src_read (Z.lor read (Z.lor revents QP_EPOLL_IN)) source;;
  write ← src_get src_write source; revents ← load (source + src_revents);
  src_put src_write (Z.lor write (Z.lor revents QP_EPOLL_OUT)) source.

(** The bytes read go to the handler; its result decides what comes next. *)
Definition process_read (event source : Z) : EV unit :=
  fn ← mem (load (event + ev_p_read));
  ret ← (if negb (fn =? NULL) then handle_read fn source else mret 0);
  mem (qp_event_source_free_read_cache event source);;
  stat ← mem (src_get src_stat source);
  (if (QP_EVENT_NEW =? stat) && (QP_ERROR <? ret) then
     mem (src_put src_stat QP_EVENT_PROCESS source)
   else mret tt);;
  (if ret <? 0 then mem (qp_event_source_set_shutdown source) else mret tt);;
  shutdown ← mem (src_get src_shutdown source);
  fn ← mem (load (event + ev_p_write));
  if (0 <? ret) && (shutdown =? 0) && negb (fn =? NULL) then
    ok ← mem (qp_event_source_alloc_write_cache event source);
    if ok =? QP_ERROR then mem (qp_event_source_set_shutdown source) else mret tt
  else mret tt.

(** The write cache is filled by the handler. *)
Definition process_write (event source : Z) : EV unit :=
  fn ← mem (load (event + ev_p_write));
  ret ← handle_write fn source;
  if ret <? 0 then
    mem (qp_event_source_set_shutdown source);;
    mem (qp_event_source_free_write_cache event source);; mret tt
  else
    reset_events event source QP_EPOLL_OUT;;
    if 0 =? ret then mem (src_put src_write_close 1 source) else mret tt.

(** What is done with one ready source. *)
Definition dispatch_source (event source : Z) : EV unit :=
  mem (mark_ready source);;
  shutdown ← mem (src_get src_shutdown source);
  read ← mem (src_get src_read source); write ← mem (src_get src_write source);
  if Z.lor (Z.lor shutdown read) write =? 0 then mret tt else
  (if negb (shutdown =? 0) then mem (qp_event_source_set_shutdown source) else mret tt);;
  qp_event_source_write event source;;
  qp_event_source_read event source;;
  wcache ← mem (load (source + src_write_cache));
  (if wcache =? NULL then
     rcache ← mem (load (source + src_read_cache));
     (if negb (rcache =? NULL) then process_read event source else mret tt);;
     wcache ← mem (load (source + src_write_cache));
     if negb (wcache =? NULL) then process_write event source else mret tt
   else mret tt);;
  shutdown ← mem (src_get src_shutdown source);
  if negb (shutdown =? 0) then qp_event_removeevent event source;; mret tt else mret tt.

Definition queue_body (event : Z) (_ : unit) : EV (unit + unit) :=
  empty ← mem (qp_list_is_empty (event + ev_ready));
  if (empty : bool) then mret (inr tt) else
  first ← mem (qp_list_first (event + ev_ready));
  let source := qp_list_data first 0 in
  mem (qp_list_pop (event + ev_ready));;
  dispatch_source event source;; mret (inl tt).

Definition qp_event_dispatch_queue (event : Z) : EV unit :=
  if event =? NULL then mret tt else
  n ← mem heap_fuel; loop n (queue_body event) tt.

(** * The main loop *)

(** [itr] of [revent_num]: [source] is what the variable holds, which nothing sets. *)
Definition push_body (event source revent_num itr : Z) : EV (Z + unit) :=
  if itr <? revent_num then
    listen ← mem (src_get src_listen source);
    mem (qp_list_push (if negb (listen =? 0) then event + ev_listen_ready else event + ev_ready)
           source);;
    mret (inl (i32 (itr + 1)))
  else mret (inr tt).

Definition dispatch_body (fuel : nat) (event timeout source : Z) (_ : unit) : EV (unit + unit) :=
  run ← mem (load (event + ev_is_run));
  if run =? 0 then mret (inr tt) else
  wait ← mem (load (event + ev_h_wait));
  revent_num ← ev_wait wait event timeout;
  if revent_num <? 1 then
    errno ← sys get_errno;
    if (QP_ERROR =? revent_num) && negb (EINTR =? errno) then mret (inr tt) else
    idle ← mem (load (event + ev_p_idle));
    (if negb (idle =? NULL) then
       arg ← mem (load (event + ev_p_idle_arg)); sys (call "idle" [idle; arg]);; mret tt
     else mret tt);;
    mret (inl tt)
  else
    loop (S (Z.to_nat revent_num)) (push_body event source revent_num) 0;;
    qp_event_dispatch_listen_queue fuel event timeout;;
    qp_event_dispatch_queue event;;
    mret (inl tt).

(** [fuel] bounds the rounds of the endless loop. *)
Definition qp_event_dispatch (fuel : nat) (event timeout : Z) : EV Z :=
  valid ← sys (if event =? NULL then mret false else qp_fd_is_valid (event + ev_event_fd));
  if negb valid then mret QP_ERROR else
  wait ← mem (load (event + ev_h_wait));
  if wait =? NULL then mret QP_ERROR else
  mem (store (event + ev_is_run) 1);;
  loop fuel (dispatch_body fuel event timeout NULL) tt;;
  mem (store (event + ev_is_run) 0);;
  mret QP_SUCCESS.
End dispatch.
