(* ===== verification/EventProps.v ===== *)
(** Properties of the event loop: what a ready source is marked with, what the
    set-up of an event and the dispatch of its first ready source come to. *)

From S2P Require Import RbModel RbTree.
From S2P Require Import RbApi Prelude Bits World Life Bytes Atomic Io IoProps Heap.
From S2P Require Import Links LinkProps Pool PoolProps Manager EvState Event Dispatch.
#[local] Open Scope Z_scope.

(** * The flags of a ready source *)

Definition with_cell (a v : Z) (h : heap) : heap :=
  MkHeap (<[a := Some v]> (cells h)) (blocks h) (oracle h).

Definition cell_is (h : heap) (a v : Z) : Prop := a ≠ NULL ∧ cells h !! a = Some (Some v).

Lemma load_is h a v : cell_is h a v → load a h = Ok (v, h).
Proof. intros [Ha Hv]. unfold load. by rw (proj2 (Z.eqb_neq _ _) Ha) Hv. Qed.

Lemma store_is h a v w : cell_is h a v → store a w h = Ok (tt, with_cell a w h).
Proof. intros [Ha Hv]. unfold store. by rw (proj2 (Z.eqb_neq _ _) Ha) Hv. Qed.

Lemma with_cell_same h a v : a ≠ NULL → cell_is (with_cell a v h) a v.
Proof. intros Ha. split; [done|]. cbn. by rw lookup_insert_eq. Qed.

Lemma with_cell_other h a b v w : a ≠ b → cell_is h b w → cell_is (with_cell a v h) b w.
Proof. intros Hab [Hb Hw]. split; [done|]. cbn. by rw lookup_insert_ne. Qed.

Lemma with_cell_twice h a v w : with_cell a v (with_cell a w h) = with_cell a v h.
Proof. unfold with_cell. cbn. by rw insert_insert_eq. Qed.

Lemma src_get_is h b source w :
  source ≠ NULL → cell_is h (source + src_bits) w → src_get b source h = Ok (get_bits b w, h).
Proof.
  intros Hs Hw. unfold src_get. rw (proj2 (Z.eqb_neq _ _) Hs).
  unfold mbind, M_bind. by rw (load_is _ _ _ Hw).
Qed.

Lemma src_put_is h b v source w :
  source ≠ NULL → cell_is h (source + src_bits) w →
  src_put b v source h = Ok (tt, with_cell (source + src_bits) (put_bits b v w) h).
Proof.
  intros Hs Hw. unfold src_put. rw (proj2 (Z.eqb_neq _ _) Hs).
  unfold mbind, M_bind. rw (load_is _ _ _ Hw). by apply store_is with w.
Qed.

(** The word of flags after [mark_ready], as the three fields are written. *)
Definition marked (w revents : Z) : Z :=
  let set b m w := put_bits b (Z.lor (get_bits b w) m) w in
  set src_write (Z.lor revents QP_EPOLL_OUT)
    (set src_read (Z.lor revents QP_EPOLL_IN)
      (set src_shutdown (Z.land revents (Z.lor (Z.lor QP_EPOLL_RDHUP QP_EPOLL_HUP) QP_EPOLL_ERR)) w)).

Lemma mark_ready_is h source w revents :
  source ≠ NULL → cell_is h (source + src_bits) w → cell_is h (source + src_revents) revents →
  mark_ready source h = Ok (tt, with_cell (source + src_bits) (marked w revents) h).
Proof.
  intros Hs Hw Hr. pose proof Hw as [Hn _].
  assert (source + src_bits ≠ source + src_revents) as Hne by (unfold src_bits, src_revents; lia).
  unfold mark_ready, mbind, M_bind. rw (src_get_is _ _ _ _ Hs Hw) (load_is _ _ _ Hr).
  rw (src_put_is _ _ _ _ _ Hs Hw). set (w1 := put_bits src_shutdown _ _).
  pose proof (with_cell_same h _ w1 Hn) as Hw1.
  rw (src_get_is _ _ _ _ Hs Hw1) (load_is _ _ _ (with_cell_other _ _ _ w1 _ Hne Hr)).
  rw (src_put_is _ _ _ _ _ Hs Hw1) with_cell_twice. set (w2 := put_bits src_read _ _).
  pose proof (with_cell_same h _ w2 Hn) as Hw2.
  rw (src_get_is _ _ _ _ Hs Hw2) (load_is _ _ _ (with_cell_other _ _ _ w2 _ Hne Hr)).
  by rw (src_put_is _ _ _ _ _ Hs Hw2) with_cell_twice.
Qed.

(** What [marked] sets: a hang-up or an error leaves no trace, every ready source is
    to be read, and only input makes one to be written. *)
Lemma marked_shutdown w e : get_bits src_shutdown (marked w e) = get_bits src_shutdown w.
Proof.
  unfold marked. rw (get_put_other _ src_write) // (get_put_other _ src_read) //
   get_put_flag // -Z.land_assoc.
  by rw Z.land_0_r Z.lor_0_r.
Qed.

Lemma marked_read w e : get_bits src_read (marked w e) = 1.
Proof.
  unfold marked. rw (get_put_other src_read) // get_put_flag // Z.land_lor_distr_l.
  by apply (flag_absorb src_read).
Qed.

Lemma marked_write w e :
  get_bits src_write (marked w e) = Z.lor (get_bits src_write w) (Z.land e QP_EPOLL_IN).
Proof.
  unfold marked. rw get_put_flag // (get_put_other _ src_read) // (get_put_other _ src_shutdown) // Z.land_lor_distr_l.
  by rw Z.lor_0_r.
Qed.

Lemma marked_other b w e :
  b ∈ [src_stat; src_closed; src_listen; src_urgen; src_write_close] →
  get_bits b (marked w e) = get_bits b w.
Proof.
  intros Hb. rw !elem_of_cons in Hb. unfold marked.
  destruct Hb as [->|[->|[->|[->|[->|[]%not_elem_of_nil]]]]]; by rw !get_put_other.
Qed.

(** C37. What [qp_event_dispatch_queue] makes of the events reported for a source. The
    flags are one bit wide and take the low bit of the values stored in them:
    RDHUP, HUP and ERR, all even, never set [shutdown]; [revents | QP_EPOLL_IN] always
    sets [read]; [revents | QP_EPOLL_OUT] sets [write] when there is input, not when
    the source can be written. No other flag, no other cell changes. *)
Theorem ready_flags h source w revents :
  source ≠ NULL → cell_is h (source + src_bits) w → cell_is h (source + src_revents) revents →
  ∃ w', mark_ready source h = Ok (tt, with_cell (source + src_bits) w' h) ∧
    get_bits src_shutdown w' = get_bits src_shutdown w ∧
    get_bits src_read w' = 1 ∧
    get_bits src_write w' = Z.lor (get_bits src_write w) (Z.land revents QP_EPOLL_IN) ∧
    ∀ b, b ∈ [src_stat; src_closed; src_listen; src_urgen; src_write_close] →
      get_bits b w' = get_bits b w.
Proof.
  intros Hs Hw Hr. exists (marked w revents). split_and!.
  - by apply mark_ready_is.
  - apply marked_shutdown.
  - apply marked_read.
  - apply marked_write.
  - intros b. apply marked_other.
Qed.

(** A source at 4096, its connection lost. *)
Definition hung_up : heap :=
  MkHeap {[4228 := Some 0; 4220 := Some (Z.lor QP_EPOLL_OUT (Z.lor QP_EPOLL_HUP QP_EPOLL_ERR))]} ∅ [].

Lemma ready_flags_witness :
  ∃ w', mark_ready 4096 hung_up = Ok (tt, with_cell (4096 + src_bits) w' hung_up) ∧
    get_bits src_shutdown w' = get_bits src_shutdown 0 ∧
    get_bits src_read w' = 1 ∧
    get_bits src_write w' = Z.lor (get_bits src_write 0)
      (Z.land (Z.lor QP_EPOLL_OUT (Z.lor QP_EPOLL_HUP QP_EPOLL_ERR)) QP_EPOLL_IN) ∧
    ∀ b, b ∈ [src_stat; src_closed; src_listen; src_urgen; src_write_close] →
      get_bits b w' = get_bits b 0.
Proof. by apply ready_flags. Defined.
(** A structure is not at NULL. *)
Ltac nonnull p := rw (proj2 (Z.eqb_neq p NULL)); [|unfold NULL; lia].

Section setup.
Context `{OS} `{!heapGS Σ}.

Lemma fd_given p type (x : qp_fd_s) w :
  p ≠ NULL → lget w !! p = Some x → wp (qp_fd_init p type false) w (λ q _, q = p).
Proof.
  intros Hp Hx. rw (obj_id w p x Hx). unfold qp_fd_init, qp_fd_create, qp_fd_set_inited.
  rw (proj2 (Z.eqb_neq _ _) Hp). repeat ostep. rw (proj2 (Z.eqb_neq _ _) Hp). repeat ostep.
  rw (proj2 (Z.eqb_neq _ _) Hp). by repeat ostep.
Qed.

Lemma valid_given p (x : qp_fd_s) w :
  p ≠ NULL → lget w !! p = Some x → fd_fd x ≠ QP_FD_INVALID →
  wp (qp_fd_is_valid p) w (λ b w', b = true ∧ w' = w).
Proof.
  intros Hp Hx Hfd. rw (obj_id w p x Hx). unfold qp_fd_is_valid. ostep. split; [|done].
  by rw (proj2 (Z.eqb_neq QP_FD_INVALID (fd_fd x))).
Qed.

Lemma embed_spec p u Φ :
  0 < p →
  (∀ u', ⌜is_Some (w_fds (r_world u') !! (p + ev_event_fd)%Z) ∧
          is_Some (nodes (r_trees u') !! (p + ev_timer + offsetof_sentinel)%Z) ∧
          is_Some (roots (r_trees u') !! (p + ev_timer)%Z)⌝ -∗ Φ tt u') ⊢
  xwp (embed p) u Φ.
Proof.
  iIntros (Hp) "HΦ". unfold embed. xstep.
  iApply (xwp_sys _ _ _ (λ _ w, is_Some (w_fds w !! (p + ev_event_fd)))).
  { unfold new, wp, modify. cbn. by rw lookup_insert_eq. }
  iIntros ([] w Hw).
  iApply (xwp_trees _ _ _ (λ _ t, is_Some (nodes t !! (p + ev_timer + offsetof_sentinel)) ∧
    is_Some (roots t !! (p + ev_timer)))).
  { unfold wp, modify. cbn. by rw !lookup_insert_eq. }
  iIntros ([] t Ht). iApply "HΦ". by iPureIntro.
Qed.


(** Its parts: an unused descriptor, two empty lists and an empty tree. *)
Lemma parts_spec p u Φ :
  0 < p → is_Some (w_fds (r_world u) !! (p + ev_event_fd)) →
  is_Some (nodes (r_trees u) !! (p + ev_timer + offsetof_sentinel)) →
  is_Some (roots (r_trees u) !! (p + ev_timer)) →
  (p + ev_ready) ↦? -∗ (p + ev_listen_ready) ↦? -∗
  (∀ u', is_list (p + ev_ready) [] -∗ is_list (p + ev_listen_ready) [] -∗
     ⌜qp_tree (p + ev_timer) [] (r_trees u')⌝ -∗ Φ p u') -∗
  xwp (event_parts p) u Φ.
Proof.
  iIntros (Hp [x Hx] [n Hn] [r Hr]) "[%w1 H1] [%w2 H2] HΦ". unfold event_parts.
  nonnull p. xstep.
  assert (p + ev_event_fd ≠ NULL) as Hfd by (unfold ev_event_fd, NULL; lia).
  iApply (xwp_sys _ _ _ (λ q _, q = p + ev_event_fd)); [by eapply fd_given|].
  iIntros (? w' ->). rw (proj2 (Z.eqb_neq _ _) Hfd).
  xstep. xstep. iApply (list_init_spec with "H1"). iIntros "H1".
  xstep. xstep. iApply (list_init_spec with "H2"). iIntros "H2". xstep.
  iApply (xwp_trees _ _ _ (λ _ t, qp_tree (p + ev_timer) [] t)).
  { eapply wp_mono; [eapply init_correct; [..|done|done]|by intros ?? [? _]];
      unfold ev_timer, offsetof_sentinel, NULL; lia. }
  iIntros ([] t Ht). xstep. by iApply ("HΦ" with "H1 H2").
Qed.

Definition create_offs : list Z := [ev_ready; ev_listen_ready; ev_h_create; ev_is_alloced].
Lemma create_offs_ok : NoDup create_offs ∧ Forall (λ o, 0 ≤ o < sizeof_event) create_offs.
Proof. split; by apply (bool_decide_unpack _); vm_compute. Qed.

(** Either way the structure comes out without functions. *)
Lemma zeroed_spec p (alloced : bool) (m : EV unit) u Φ :
  0 < p → m = (if alloced then mem (qp_event_set_alloced p) else mret tt) →
  region p sizeof_event -∗
  (∀ u', (p + ev_h_create) ↦ 0 -∗ Φ p u') -∗
  xwp ((mem (memset0 p sizeof_event);; embed p;; m;; mret p) ≫= event_parts) u Φ.
Proof.
  iIntros (Hp ->) "Hr HΦ". destruct create_offs_ok as [Hnd Hf].
  do 3 xstep. iApply (hwp_memset0 with "Hr"); [done..|].
  iIntros "(H1 & H2 & H3 & H4 & _) _". xstep. iApply (embed_spec); [done|].
  iIntros (u1 (? & ? & ?)). xstep.
  iAssert (xwp (if alloced then mem (qp_event_set_alloced p) else mret tt) u1
    (λ _ u', ⌜u' = u1⌝))%I with "[H4]" as "H".
  { destruct alloced; [|by xstep]. xstep. unfold qp_event_set_alloced.
    nonnull p. by xstep. }
  iApply (xwp_wand with "H"). iIntros (_ u' ->). xstep.
  iApply (parts_spec with "[H1] [H2]"); [done..|by iExists _|by iExists _|].
  iIntros (u2) "_ _ _". by iApply "HΦ".
Qed.
End setup.

Lemma run_bind {S A B} (m : Prelude.M S A) (f : A → Prelude.M S B) s a s' :
  m s = Ok (a, s') → (m ≫= f) s = f a s'.
Proof. intros E. unfold mbind, M_bind. by rw E. Qed.

Lemma run_assoc {S A B C} (m : Prelude.M S A) (f : A → Prelude.M S B) (g : B → Prelude.M S C) s :
  ((m ≫= f) ≫= g) s = (m ≫= λ a, f a ≫= g) s.
Proof. unfold mbind, M_bind. by destruct (m s) as [[a s']| |]. Qed.

Lemma run_mem {A} (m : Heap.H A) h u a h' :
  m h = Ok (a, h') → mem m (MkEvs h u) = Ok (a, MkEvs h' u).
Proof. intros E. unfold zoom. cbn. by rw E. Qed.

Lemma malloc_cases h n :
  (∃ h1, malloc n h = Ok (NULL, h1)) ∨
  ∃ p o, usable h p n = true ∧
    malloc n h = Ok (p, MkHeap (raw p n ∪ cells h) (<[p := n]> (blocks h)) o).
Proof.
  unfold malloc. destruct (oracle h) as [|p o]; [by left; eexists|].
  destruct (usable h p n) eqn:Hu; [|by left; eexists]. right. by exists p, o.
Qed.

(** There is no function to create the descriptor with. *)
Ltac no_create p :=
  nonnull p; xstep; xstep; xstep;
  change (0 =? NULL) with true; cbn match; xstep.

Theorem event_init_fails `{OS} event max_event_size noblock edge h u :
  cells h !! NULL = None →
  event = NULL ∨ 0 < event ∧ mapped h (bytes event sizeof_event) →
  ∃ h' u', qp_event_init event max_event_size noblock edge (MkEvs h u) =
             Ok (NULL, MkEvs h' u') ∧
    ∀ p h1, event = NULL → 0 < max_event_size → malloc sizeof_event h = Ok (p, h1) → p ≠ NULL →
      blocks h !! p = None ∧ blocks h' !! p = Some sizeof_event.
Proof.
  intros Hnull Hev. unfold qp_event_init. destruct (Z.ltb_spec max_event_size 1).
  { exists h, u. split; [done|]. intros. lia. }
  unfold qp_event_create. destruct Hev as [->|[Hp (_ & Hnd & Hm)]].
  2: { set (prog := mbind _ _). destruct (xwp_adequacy heapΣ prog h u (λ r _ _, r = NULL) Hnull)
         as (r & h' & u' & E & ->).
       - iIntros (G) "[Hc _]". iDestruct (cells_extract with "Hc") as "Hc"; [done..|].
         unfold prog, event_alloc. nonnull event.
         xstep. iApply (zeroed_spec event false (mret tt) with "Hc"); [done..|].
         iIntros (u') "Hcr". no_create event. by iIntros (h') "_".
       - exists h', u'. split; [done|]. intros p h1 ->. unfold NULL in Hp. lia. }
  unfold event_alloc. rw Z.eqb_refl !run_assoc.
  destruct (malloc_cases h sizeof_event) as [(h1 & E)|(p & o & Hu & E)].
  { exists h1, u. rw (run_bind _ _ _ _ _ (run_mem _ h u _ _ E)). split; [done|].
    intros p h2 _ _ E2. rw E in E2. by injection E2 as <- _. }
  destruct (usable_spec _ _ _ Hu) as (Hp & _ & _ & Hb & _).
  set (h1 := MkHeap _ _ o) in E. rw (run_bind _ _ _ _ _ (run_mem _ h u _ _ E)).
  match goal with |- context [?m (MkEvs h1 u)] => set (prog := m) end.
  destruct (xwp_adequacy heapΣ prog h1 u (λ r h' _, r = NULL ∧ blocks h' !! p = Some sizeof_event))
    as (r & h' & u' & Er & -> & Hb').
  - apply lookup_union_None. split; [|done]. apply not_elem_of_dom. unfold raw.
    rw dom_gset_to_gmap elem_of_list_to_set elem_of_seqZ. unfold NULL. lia.
  - iIntros (G) "[Hc Hbs]". unfold h1 at 2. cbn [blocks].
    iDestruct (big_sepM_lookup _ _ p with "Hbs") as "Hblk"; [by rw lookup_insert_eq|].
    iDestruct (cells_extract _ (bytes p sizeof_event) with "Hc") as "Hr"; [apply NoDup_seqZ| |].
    { intros a Ha. cbn [cells]. apply lookup_union_is_Some. left. apply elem_of_dom.
      unfold raw. by rw dom_gset_to_gmap elem_of_list_to_set. }
    unfold prog. nonnull p. iApply xwp_assoc. xstep.
    iApply (zeroed_spec p true with "Hr"); [done..|].
    iIntros (u') "Hcr". no_create p.
    iIntros (h') "(_ & _ & Hi)". by iDestruct (ghost_map_lookup with "Hi Hblk") as %?.
  - exists h', u'. split; [done|]. intros p' h2 _ _ E2. rw E in E2. by injection E2 as <- _.
Qed.

Lemma event_init_fails_witness :
  ∃ h' u', @qp_event_init (answers []) (@epoll (answers [])) NULL 4 true true
             (MkEvs (MkHeap ∅ ∅ [4096]) (MkRest empty_world (MkMem ∅ ∅))) = Ok (NULL, MkEvs h' u') ∧
    ∀ p h1, NULL = NULL → 0 < 4 → malloc sizeof_event (MkHeap ∅ ∅ [4096]) = Ok (p, h1) → p ≠ NULL →
      blocks (MkHeap ∅ ∅ [4096]) !! p = None ∧ blocks h' !! p = Some sizeof_event.
Proof. apply event_init_fails; [done|by left]. Defined.

(** * The main loop *)

(** The fields of an event the loop looks at, and its descriptor. *)
Record event_at (event wait bucket bsize idle arg fd : Z) (h : heap) (u : rest) : Prop := {
  at_event : 0 < event;
  at_run : is_Some (cells h !! (event + ev_is_run));
  at_wait : cells h !! (event + ev_h_wait) = Some (Some wait);
  at_bucket : cells h !! (event + ev_bucket) = Some (Some bucket);
  at_bsize : cells h !! (event + ev_bucket_size) = Some (Some bsize);
  at_idle : cells h !! (event + ev_p_idle) = Some (Some idle);
  at_arg : cells h !! (event + ev_p_idle_arg) = Some (Some arg);
  at_fd : fd_fd <$> (w_fds (r_world u) !! (event + ev_event_fd)) = Some fd;
}.

(** What the program asked of the system. *)
Definition asked (u : rest) : list (string * list Z) :=
  (λ e, (ev_call e, ev_args e)) <$> w_trace (r_world u).
Definition waits (t : list World.event) : nat :=
  length (filter (λ e, ev_call e = "epoll_wait"%string) t).

(** A system that reports no event [k] times and then fails. *)
Definition quiet_then_fails `{OS} (k : nat) (t0 : list World.event) : Prop :=
  ∀ t args, let a := os_answer t "epoll_wait" args [] in
    a_ret a < 1 ∧ a_data a = [] ∧
    ((waits t < waits t0 + k)%nat → ¬ (a_ret a = QP_ERROR ∧ a_errno a ≠ EINTR)) ∧
    ((waits t = waits t0 + k)%nat → a_ret a = QP_ERROR ∧ a_errno a ≠ EINTR).

(** One round of the loop with nothing to do. *)
Definition idle_round (fd bucket bsize timeout idle arg : Z) : list (string * list Z) :=
  ("epoll_wait"%string, [fd; bucket; bsize; timeout]) ::
  (if idle =? NULL then [] else [("idle"%string, [idle; arg])]).

Lemma event_fd_of_spec `{!heapGS Σ} event fd u Φ :
  0 < event → fd_fd <$> (w_fds (r_world u) !! (event + ev_event_fd)) = Some fd →
  Φ fd u ⊢ xwp (event_fd_of event) u Φ.
Proof.
  iIntros (Hp Hfd) "HΦ". unfold event_fd_of.
  destruct (w_fds (r_world u) !! (event + ev_event_fd)) as [x|] eqn:E; [|done].
  injection Hfd as Hfd. destruct u as [w t].
  iApply (xwp_sys _ _ _ (λ r w', r = fd ∧ w' = w)).
  { eapply wp_ld; [|exact E|done]. unfold ev_event_fd, NULL. lia. }
  by iIntros (?? [-> ->]).
Qed.

(** Pick cells whose contents are known out of the whole heap. *)
Lemma cells_known `{!heapGS Σ} (m : gmap Z (option Z)) (l : list (Z * option Z)) :
  NoDup l.*1 → Forall (λ '(a, w), m !! a = Some w) l →
  ([∗ map] a ↦ w ∈ m, cell a w) ⊢ [∗ list] aw ∈ l, cell aw.1 aw.2.
Proof.
  revert m. induction l as [|[a w] l IH]; intros m Hnd Hm; [by iIntros "_"|].
  apply NoDup_cons in Hnd as [Ha Hnd]. apply Forall_cons in Hm as [Hw Hm].
  iIntros "H". rw (big_sepM_delete _ m a) //. iDestruct "H" as "[$ H]".
  iApply (IH with "H"); [done|]. rw Forall_forall. rw Forall_forall in Hm.
  intros [b v] Hb. rw lookup_delete_ne; [by apply (Hm (b, v))|].
  intros ->. apply Ha, list_elem_of_fmap. by exists (b, v).
Qed.

Section dispatch_loop.
Context `{OS} `{!heapGS Σ}.
#[local] Existing Instance epoll.

Definition looking (event wait bucket bsize idle arg : Z) : iProp Σ :=
  (event + ev_is_run) ↦ 1 ∗ (event + ev_h_wait) ↦ wait ∗ (event + ev_bucket) ↦ bucket ∗
  (event + ev_bucket_size) ↦ bsize ∗ (event + ev_p_idle) ↦ idle ∗ (event + ev_p_idle_arg) ↦ arg.

Definition idling (event bucket bsize timeout idle arg fd : Z) (u0 : rest) (i : nat) (u : rest) :=
  fd_fd <$> (w_fds (r_world u) !! (event + ev_event_fd)) = Some fd ∧
  asked u = asked u0 ++ concat (replicate i (idle_round fd bucket bsize timeout idle arg)) ∧
  waits (w_trace (r_world u)) = (waits (w_trace (r_world u0)) + i)%nat.

Lemma asking_record name args data a u :
  asked (MkRest (record name args data a (r_world u)) (r_trees u)) = asked u ++ [(name, args)].
Proof. unfold asked, record. cbn. by rw fmap_app. Qed.

Lemma waits_snoc t e :
  waits (t ++ [e]) = (waits t + if decide (ev_call e = "epoll_wait"%string) then 1 else 0)%nat.
Proof.
  unfold waits. rw filter_app length_app. f_equal. rw filter_cons filter_nil.
  by destruct (decide _).
Qed.

Lemma idle_spec k fuel event wait bucket bsize timeout idle arg fd u0 i u src :
  quiet_then_fails k (w_trace (r_world u0)) → 0 < event → (i ≤ k)%nat →
  idling event bucket bsize timeout idle arg fd u0 i u →
  looking event wait bucket bsize idle arg -∗
  xwp (dispatch_body fuel event timeout src tt) u (λ r u', match r with
    | inl _ => ⌜(i < k)%nat ∧ idling event bucket bsize timeout idle arg fd u0 (S i) u'⌝
    | inr _ => ⌜asked u' = asked u0 ++
        concat (replicate k (idle_round fd bucket bsize timeout idle arg)) ++
        [("epoll_wait"%string, [fd; bucket; bsize; timeout])]⌝
    end ∗ looking event wait bucket bsize idle arg).
Proof.
  iIntros (Hq Hp Hi (Hfd & Hasked & Hw)) "(Hr & Hwt & Hb & Hs & Hid & Ha)".
  unfold dispatch_body. repeat xstep. change (1 =? 0) with false. cbn match. repeat xstep. cbn [ev_wait epoll]. repeat xstep.
  unfold qp_event_evpoll_wait. xstep. iApply event_fd_of_spec; [done..|].
  repeat xstep.
  set (a := said _ _ _ u). set (u1 := saying _ _ _ u).
  destruct (Hq (w_trace (r_world u)) [fd; bucket; bsize; timeout]) as (Hret & Hdata & Hlt & Heq).
  change (os_answer _ _ _ _) with a in Hret, Hdata, Hlt, Heq. rw Hdata. cbn [fill_bucket].
  repeat xstep. rw (proj2 (Z.ltb_lt _ _) Hret). xstep. xstep.
  change (w_errno (r_world u1)) with (a_errno a).
  assert (asked u1 = asked u ++ [("epoll_wait"%string, [fd; bucket; bsize; timeout])]) as Hu1
    by apply asking_record.
  assert (waits (w_trace (r_world u1)) = S (waits (w_trace (r_world u)))) as Hw1.
  { unfold u1, saying. cbn. rw waits_snoc. destruct (decide _) as [_|[]]; [lia|done]. }
  destruct (decide (i = k)) as [->|Hik].
  - destruct Heq as [Ha Hne]; [done|]. rw Ha. rw Z.eqb_refl.
    rw (proj2 (Z.eqb_neq EINTR (a_errno a))); [|done]. cbn [andb]. xstep. iFrame.
    iPureIntro. by rw Hu1 Hasked -app_assoc.
  - assert ((QP_ERROR =? a_ret a) && negb (EINTR =? a_errno a) = false) as E.
    { destruct (Z.eqb_spec QP_ERROR (a_ret a)), (Z.eqb_spec EINTR (a_errno a)); try done.
      destruct Hlt; [lia|done]. }
    change (if EINTR =? a_errno a then false else true) with (negb (EINTR =? a_errno a)).
    rw E. repeat xstep. destruct (Z.eqb_spec idle NULL) as [->|Hidle].
    + repeat xstep. iFrame. iPureIntro. split; [lia|]. split_and!; [done| |lia].
      rw Hu1 Hasked -app_assoc. f_equal. rw replicate_S_end concat_app. done.
    + repeat xstep. iFrame. iPureIntro. split; [lia|]. split_and!; [done| |].
      * unfold saying at 1. rw asking_record Hu1 Hasked replicate_S_end concat_app -!app_assoc.
        do 2 f_equal. unfold idle_round. cbn. by rw (proj2 (Z.eqb_neq _ _) Hidle).
      * unfold saying at 1. cbn. rw waits_snoc. destruct (decide _); [done|lia].
Qed.

(** The whole loop. *)
Lemma dispatch_idle_spec k fuel event wait bucket bsize timeout idle arg fd u :
  quiet_then_fails k (w_trace (r_world u)) → 0 < event → wait ≠ NULL → fd ≠ QP_FD_INVALID →
  fd_fd <$> (w_fds (r_world u) !! (event + ev_event_fd)) = Some fd → (k < fuel)%nat →
  (event + ev_is_run) ↦? -∗ (event + ev_h_wait) ↦ wait -∗ (event + ev_bucket) ↦ bucket -∗
  (event + ev_bucket_size) ↦ bsize -∗ (event + ev_p_idle) ↦ idle -∗
  (event + ev_p_idle_arg) ↦ arg -∗
  xwp (qp_event_dispatch fuel event timeout) u (λ r u',
    ⌜r = QP_SUCCESS ∧ asked u' = asked u ++
      concat (replicate k (idle_round fd bucket bsize timeout idle arg)) ++
      [("epoll_wait"%string, [fd; bucket; bsize; timeout])]⌝ ∗
    (event + ev_is_run) ↦ 0).
Proof.
  iIntros (Hq Hp Hwait Hfd Hx Hk) "[%r0 Hr] Hwt Hb Hs Hid Ha".
  unfold qp_event_dispatch. nonnull event. xstep.
  destruct (w_fds (r_world u) !! (event + ev_event_fd)) as [x|] eqn:E; [|done].
  injection Hx as Hx. destruct u as [w t]. cbn in *.
  iApply (xwp_sys _ _ _ (λ b w', b = true ∧ w' = w)).
  { eapply valid_given; [unfold ev_event_fd, NULL; lia|exact E|by rw Hx]. }
  iIntros (?? [-> ->]). cbn [negb]. repeat xstep.
  rw (proj2 (Z.eqb_neq _ _) Hwait). repeat xstep.
  unshelve iApply (xwp_loop (λ n _ u', ∃ i, ⌜(i + n = k)%nat ∧
    idling event bucket bsize timeout idle arg fd (MkRest w t) i u'⌝ ∗
    looking event wait bucket bsize idle arg)%I _ _ _ _ k with "[-]"); [|done|].
  - iIntros (n [] u') "(%i & [%Hi %Hidl] & Hl)".
    iApply (xwp_wand with "[Hl]"); [by iApply (idle_spec k fuel event _ _ _ _ _ _ _ (MkRest w t) i with "Hl"); auto with lia|].
    iIntros ([[]|[]] u2) "[%Hr Hl]".
    + destruct Hr as [? ?]. iExists (n - 1)%nat. iSplit; [iPureIntro; lia|].
      iExists (S i). iFrame. iPureIntro. split; [lia|done].
    + iDestruct "Hl" as "(Hr & _)". repeat xstep. by iFrame.
  - iExists 0%nat. iFrame. iPureIntro. split; [lia|]. split_and!; cbn; [|by rw app_nil_r|lia].
    by rw E /= Hx.
Qed.
End dispatch_loop.

(** C34. The event loop with nothing to do. While [epoll_wait] times out or is
    interrupted, [qp_event_dispatch] asks again and calls the idle handler between
    two waits, when there is one; the first failure for another reason ends the
    loop: the running flag is cleared, nothing else was asked of the system, and the
    result is QP_SUCCESS all the same. *)
Theorem dispatch_idles `{OS} k fuel event timeout wait bucket bsize idle arg fd h u :
  event_at event wait bucket bsize idle arg fd h u → cells h !! NULL = None →
  quiet_then_fails k (w_trace (r_world u)) →
  wait ≠ NULL → fd ≠ QP_FD_INVALID → (k < fuel)%nat →
  ∃ h' u', @qp_event_dispatch _ epoll fuel event timeout (MkEvs h u) =
             Ok (QP_SUCCESS, MkEvs h' u') ∧
    cells h' !! (event + ev_is_run) = Some (Some 0) ∧
    asked u' = asked u ++ concat (replicate k (idle_round fd bucket bsize timeout idle arg)) ++
      [("epoll_wait"%string, [fd; bucket; bsize; timeout])].
Proof.
  intros [Hp [r0 H1] H2 H3 H4 H5 H6 Hfd] Hnull Hq Hwait Hne Hk.
  destruct (xwp_adequacy heapΣ (qp_event_dispatch fuel event timeout) h u
    (λ r h' u', r = QP_SUCCESS ∧ cells h' !! (event + ev_is_run) = Some (Some 0) ∧
       asked u' = asked u ++ concat (replicate k (idle_round fd bucket bsize timeout idle arg)) ++
         [("epoll_wait"%string, [fd; bucket; bsize; timeout])]) Hnull)
    as (r & h' & u' & E & -> & ? & ?); [|by exists h', u'].
  iIntros (G) "[Hc _]".
  iDestruct (cells_known _ [(event + ev_is_run, r0); (event + ev_h_wait, Some wait);
    (event + ev_bucket, Some bucket); (event + ev_bucket_size, Some bsize);
    (event + ev_p_idle, Some idle); (event + ev_p_idle_arg, Some arg)] with "Hc")
    as "(H1 & H2 & H3 & H4 & H5 & H6 & _)".
  { cbn. unfold ev_is_run, ev_h_wait, ev_bucket, ev_bucket_size, ev_p_idle, ev_p_idle_arg.
    repeat constructor; rw ?elem_of_cons; set_solver by lia. }
  { by repeat constructor. }
  iApply (xwp_wand with "[H1 H2 H3 H4 H5 H6]").
  - iApply (dispatch_idle_spec with "[H1] H2 H3 H4 H5 H6"); [done..|by iExists _].
  - iIntros (r u') "[[-> %Ha] Hr]". iIntros (h') "(_ & Hi & _)".
    by iDestruct (ghost_map_lookup with "Hi Hr") as %?.
Qed.

(** A system where two waits time out and the third fails. *)
Definition failing_system : OS := {|
  os_answer t name args data :=
    if String.eqb name "epoll_wait" then if (waits t <=? 1)%nat then Ans 0 0 [] else Ans (-1) 9 []
    else Ans 0 0 [];
  pthread_self := 7;
  getpid := 100;
|}.

(** An event at 4096 with descriptor 3, set up by hand. *)
Definition demo_event : heap :=
  MkHeap (list_to_map [(4096 + ev_is_run, None); (4096 + ev_h_wait, Some 1);
    (4096 + ev_bucket, Some 8192); (4096 + ev_bucket_size, Some 4);
    (4096 + ev_p_idle, Some 2); (4096 + ev_p_idle_arg, Some 5)]) ∅ [].
Definition demo_rest : rest :=
  MkRest (obj empty_world (4096 + ev_event_fd) (set_fd_fd 3 zero_fd)) (MkMem ∅ ∅).

Lemma dispatch_idles_witness :
  ∃ h' u', @qp_event_dispatch failing_system (@epoll failing_system) 10 4096 1000
             (MkEvs demo_event demo_rest) = Ok (QP_SUCCESS, MkEvs h' u') ∧
    cells h' !! (4096 + ev_is_run) = Some (Some 0) ∧
    asked u' = asked demo_rest ++ concat (replicate 2 (idle_round 3 8192 4 1000 2 5)) ++
      [("epoll_wait"%string, [3; 8192; 4; 1000])].
Proof.
  apply (@dispatch_idles failing_system 2 10 4096 1000 1 8192 4 2 5 3); [|done| |done..|lia].
  - split; done || by exists None.
  - intros t args. cbn. change (waits (w_trace _)) with 0%nat.
    destruct (Nat.leb_spec (waits t) 1); cbn.
    + split_and!; [lia|done|by intros _ [? _]|lia].
    + split_and!; [lia|done|lia|by split].
Defined.

Lemma run_sys {A} (m : Prelude.M world A) h u a w :
  m (r_world u) = Ok (a, w) → sys m (MkEvs h u) = Ok (a, MkEvs h (MkRest w (r_trees u))).
Proof. intros E. unfold zoom. cbn. by rw E. Qed.

Lemma run_load {A} p (f : Z → EV A) h v u :
  cell_is h p v → (mem (load p) ≫= f) (MkEvs h u) = f v (MkEvs h u).
Proof. intros Hv. by rw (run_bind _ _ _ _ _ (run_mem _ h u _ _ (load_is _ _ _ Hv))). Qed.

Lemma run_store {A} p v (w : option Z) (f : unit → EV A) h u :
  cells h !! p = Some w → p ≠ NULL →
  (mem (store p v) ≫= f) (MkEvs h u) = f tt (MkEvs (with_cell p v h) u).
Proof.
  intros Hw Hp. apply run_bind, run_mem. unfold store. by rw (proj2 (Z.eqb_neq _ _) Hp) Hw.
Qed.

Lemma run_bind_fault {S A B} (m : Prelude.M S A) (f : A → Prelude.M S B) s :
  m s = Fault → (m ≫= f) s = Fault.
Proof. intros E. unfold mbind, M_bind. by rw E. Qed.

Lemma fill_bucket_ends bucket l h :
  fill_bucket bucket l h = Fault ∨ ∃ h', fill_bucket bucket l h = Ok (tt, h').
Proof.
  revert bucket h. induction l as [l IH] using (induction_ltof1 _ length). intros bucket h.
  destruct l as [|e [|p l]]; cbn [fill_bucket]; [by right; eexists..|].
  assert (∀ a v h0, store a v h0 = Fault ∨ ∃ h', store a v h0 = Ok (tt, h')) as Hst.
  { intros a v h0. unfold store. destruct (a =? NULL); [by left|].
    destruct (cells h0 !! a); [right; by eexists|by left]. }
  destruct (Hst bucket e h) as [E|[h1 E]]; [left; by apply run_bind_fault|].
  rw (run_bind _ _ _ _ _ E).
  destruct (Hst (bucket + 4) p h1) as [E1|[h2 E1]]; [left; by apply run_bind_fault|].
  rw (run_bind _ _ _ _ _ E1). apply IH. unfold ltof. cbn. lia.
Qed.

Lemma epoll_wait_ends `{OS} event wait bucket bsize timeout (x : qp_fd_s) h u :
  cell_is h (event + ev_bucket) bucket → cell_is h (event + ev_bucket_size) bsize →
  event + ev_event_fd ≠ NULL → w_fds (r_world u) !! (event + ev_event_fd) = Some x →
  let r := @ev_wait epoll wait event timeout (MkEvs h u) in
  r = Fault ∨ ∃ s, r = Ok (a_ret (os_answer (w_trace (r_world u)) "epoll_wait"
                                    [fd_fd x; bucket; bsize; timeout] []), s).
Proof.
  intros H3 H4 Hf E. cbn [ev_wait epoll].
  rw (run_load _ _ _ bucket) // (run_load _ _ _ bsize) //. unfold qp_event_evpoll_wait, event_fd_of.
  assert (ld fd_fd (event + ev_event_fd) (r_world u) = Ok (fd_fd x, r_world u)) as Efd.
  { unfold ld. rw (proj2 (Z.eqb_neq _ _) Hf). cbn. by rw E. }
  rw (run_bind _ _ _ _ _ (run_sys _ h u _ _ Efd)) (run_bind _ _ _ _ _ (run_sys _ h _ _ _ eq_refl)).
  set (a := os_answer _ _ _ _).
  destruct (fill_bucket_ends bucket (a_data a) h) as [Eb|[h' Eb]].
  - left. apply run_bind_fault. unfold zoom. cbn [lget lens_heap ev_heap]. by rw Eb.
  - right. eexists. by rw (run_bind _ _ _ _ _ (run_mem _ h _ _ _ Eb)).
Qed.

(** [epoll_wait] reports an event: the round reads the listen flag of no source. *)
Lemma ready_round_faults `{OS} fuel event timeout wait bucket bsize (x : qp_fd_s) h u :
  cell_is h (event + ev_is_run) 1 → cell_is h (event + ev_h_wait) wait →
  cell_is h (event + ev_bucket) bucket → cell_is h (event + ev_bucket_size) bsize →
  event + ev_event_fd ≠ NULL → w_fds (r_world u) !! (event + ev_event_fd) = Some x →
  0 < a_ret (os_answer (w_trace (r_world u)) "epoll_wait" [fd_fd x; bucket; bsize; timeout] []) →
  @dispatch_body _ epoll fuel event timeout NULL tt (MkEvs h u) = Fault.
Proof.
  intros H1 H2 H3 H4 Hf E Hret. unfold dispatch_body.
  rw (run_load _ _ _ 1) //. change (1 =? 0) with false. cbn match. rw (run_load _ _ _ wait) //.
  destruct (epoll_wait_ends event wait bucket bsize timeout x h u H3 H4 Hf E) as [Er|[s Er]];
    [by apply run_bind_fault|].
  rw (run_bind _ _ _ _ _ Er). set (n := a_ret _) in Hret |- *.
  rw (proj2 (Z.ltb_ge n 1)); [|lia]. do 2 apply run_bind_fault. unfold push_body.
  by rw (proj2 (Z.ltb_lt 0 n)).
Qed.

(** C35. Once an event is ready the loop goes wrong: [source] is never taken from
    what [epoll_wait] reported - the two lines are commented out - and
    [qp_event_dispatch] reads [source->listen] through NULL. *)
Theorem dispatch_faults `{OS} fuel event timeout wait bucket bsize idle arg fd h u :
  event_at event wait bucket bsize idle arg fd h u → wait ≠ NULL → fd ≠ QP_FD_INVALID →
  0 < a_ret (os_answer (w_trace (r_world u)) "epoll_wait" [fd; bucket; bsize; timeout] []) →
  @qp_event_dispatch _ epoll (S fuel) event timeout (MkEvs h u) = Fault.
Proof.
  intros [Hp [r0 H1] H2 H3 H4 H5 H6 Hfd] Hwait Hne Hret. unfold qp_event_dispatch.
  destruct (w_fds (r_world u) !! (event + ev_event_fd)) as [x|] eqn:E; [|done].
  injection Hfd as Hfd. nonnull event.
  assert (event + ev_event_fd ≠ NULL) as Hf by (unfold ev_event_fd, NULL; lia).
  assert (∀ o, 0 ≤ o → event + o ≠ NULL) as Hoff by (unfold NULL; lia).
  pose proof (valid_given _ x (r_world u) Hf E) as Ev. rw Hfd in Ev.
  destruct (wp_elim _ _ _ (Ev Hne)) as (? & ? & Er & -> & ->).
  rw (run_bind _ _ _ _ _ (run_sys _ h u _ _ Er)). cbn [negb].
  rw (run_load _ _ _ wait); [|by split; [apply Hoff|]]. rw (proj2 (Z.eqb_neq _ _) Hwait).
  rw (run_store _ _ r0); [|done|by apply Hoff].
  set (h1 := with_cell _ 1 h).
  assert (∀ o v, 0 ≤ o → o ≠ ev_is_run → cells h !! (event + o) = Some (Some v) →
    cell_is h1 (event + o) v) as Hother.
  { intros o v Ho Hn Hv. apply with_cell_other; [lia|]. by split; [apply Hoff|]. }
  cbn [loop]. do 2 apply run_bind_fault. apply (ready_round_faults _ _ _ wait bucket bsize x).
  - by apply with_cell_same, Hoff.
  - by apply Hother.
  - by apply Hother.
  - by apply Hother.
  - done.
  - done.
  - by rw Hfd.
Qed.

Lemma dispatch_faults_witness :
  @qp_event_dispatch (answers [1]) (@epoll (answers [1])) 1 4096 1000 (MkEvs demo_event demo_rest) = Fault.
Proof.
  apply (@dispatch_faults (answers [1]) 0 4096 1000 1 8192 4 2 5 3); [|done..].
  split; done || by exists None.
Defined.
