(* ===== verification/EventIo.v ===== *)
(** Reading and writing a source: what the cache of a source holds is what the
    system gave, and what the system took is what the cache held. *)

From S2P Require Import RbModel RbTree.
From S2P Require Import Prelude Bits World Bytes Atomic Io IoProps Heap Links LinkProps.
From S2P Require Import Pool PoolProps Manager ManagerSpec ManagerProps Caches EvState Event EventProps.
#[local] Open Scope Z_scope.

(** * Bytes on the heap *)

Section bytes.
Context `{!heapGS Σ}.

Definition holds_bytes (p : Z) (l : list Z) : iProp Σ := [∗ list] i ↦ b ∈ l, (p + Z.of_nat i) ↦ b.

Lemma holds_cons p b l : holds_bytes p (b :: l) ⊣⊢ p ↦ b ∗ holds_bytes (p + 1) l.
Proof.
  unfold holds_bytes. cbn. rw Z.add_0_r. f_equiv. apply big_sepL_proper. intros i x _.
  by replace (p + Z.of_nat (S i)) with (p + 1 + Z.of_nat i) by lia.
Qed.

Lemma holds_app p l k :
  holds_bytes p (l ++ k) ⊣⊢ holds_bytes p l ∗ holds_bytes (p + Z.of_nat (length l)) k.
Proof.
  unfold holds_bytes. rw big_sepL_app. f_equiv. apply big_sepL_proper. intros i x _.
  by replace (p + Z.of_nat (length l + i)) with (p + Z.of_nat (length l) + Z.of_nat i) by lia.
Qed.

Lemma holds_split j p l :
  (j ≤ length l)%nat →
  holds_bytes p l ⊣⊢ holds_bytes p (take j l) ∗ holds_bytes (p + Z.of_nat j) (drop j l).
Proof. intros Hj. by rw -{1}(take_drop j l) holds_app length_take_le. Qed.

Lemma region_cons p n : 0 < n → region p n ⊣⊢ p ↦? ∗ region (p + 1) (n - 1).
Proof.
  intros Hn. replace n with (1 + (n - 1)) at 1 by lia. rw region_app; [|lia..]. f_equiv.
  unfold region, bytes, seqZ. change (seq 0 (Z.to_nat 1)) with [0%nat]. cbn [fmap list_fmap].
  by rw big_sepL_singleton Z.add_0_l.
Qed.

Lemma holds_region p l : holds_bytes p l ⊢ region p (Z.of_nat (length l)).
Proof.
  revert p. induction l as [|b l IH]; intros p; [iIntros "_"; iApply region_nil|].
  rw holds_cons region_cons; [|cbn; lia]. iIntros "[Hp Hl]". iSplitL "Hp"; [by iExists _|].
  replace (Z.of_nat (length (b :: l)) - 1) with (Z.of_nat (length l)) by (cbn; lia). by iApply IH.
Qed.

Lemma store_bytes_spec p l Φ :
  region p (Z.of_nat (length l)) -∗ (holds_bytes p l -∗ Φ tt) -∗ hwp (store_bytes p l) Φ.
Proof.
  iIntros "Hr HΦ". iInduction l as [|b l] "IH" forall (p Φ); cbn [store_bytes].
  - hstep. by iApply "HΦ".
  - rw region_cons; [|cbn; lia]. iDestruct "Hr" as "[[%w Hp] Hr]". repeat hstep.
    iApply ("IH" with "[Hr]").
    + by replace (Z.of_nat (length l)) with (Z.of_nat (length (b :: l)) - 1) by (cbn; lia).
    + iIntros "Hl". iApply "HΦ". rw holds_cons. iFrame.
Qed.

Lemma load_bytes_spec p l n Φ :
  n = Z.of_nat (length l) →
  holds_bytes p l -∗ (holds_bytes p l -∗ Φ l) -∗ hwp (load_bytes p n) Φ.
Proof.
  iIntros (->) "Hl HΦ". unfold load_bytes.
  iInduction l as [|b l] "IH" forall (p Φ).
  - change (Z.of_nat (length [])) with 0. rw seqZ_nil //. cbn [load_all]. hstep. by iApply "HΦ".
  - rw seqZ_cons; [|cbn; lia]. rw holds_cons. iDestruct "Hl" as "[Hp Hl]". cbn [load_all].
    replace (Z.pred (Z.of_nat (length (b :: l)))) with (Z.of_nat (length l)) by (cbn; lia).
    rw -Z.add_1_r. repeat hstep. iApply ("IH" with "Hl"). iIntros "Hl". hstep.
    iApply "HΦ". iFrame.
Qed.

(** * Flags of a source *)

Lemma src_get_spec b source w Φ :
  source ≠ NULL → (source + src_bits) ↦ w -∗ ((source + src_bits) ↦ w -∗ Φ (get_bits b w)) -∗
  hwp (src_get b source) Φ.
Proof.
  iIntros (Hs) "Hw HΦ". unfold src_get. rw (proj2 (Z.eqb_neq _ _) Hs). repeat hstep.
  by iApply "HΦ".
Qed.

Lemma src_put_spec b v source w Φ :
  source ≠ NULL → (source + src_bits) ↦ w -∗
  ((source + src_bits) ↦ put_bits b v w -∗ Φ tt) -∗ hwp (src_put b v source) Φ.
Proof.
  iIntros (Hs) "Hw HΦ". unfold src_put. rw (proj2 (Z.eqb_neq _ _) Hs). repeat hstep.
  by iApply "HΦ".
Qed.

(** The flags of a source that is to be closed. *)
Definition closing_flags (w : Z) : Z := put_bits src_stat QP_EVENT_CLOSE (put_bits src_shutdown 1 w).

Lemma set_shutdown_spec source w Φ :
  source ≠ NULL → (source + src_bits) ↦ w -∗
  ((source + src_bits) ↦ closing_flags w -∗ Φ tt) -∗ hwp (qp_event_source_set_shutdown source) Φ.
Proof.
  iIntros (Hs) "Hw HΦ". unfold qp_event_source_set_shutdown. rw (proj2 (Z.eqb_neq _ _) Hs).
  hstep. iApply (src_put_spec with "Hw"); [done|]. iIntros "Hw".
  by iApply (src_put_spec with "Hw HΦ").
Qed.
End bytes.

(** * Reading *)

Lemma fill_none n l : n ≤ 0 → fill n l = [].
Proof. intros ?. apply nil_length_inv. rw length_fill. lia. Qed.

Section reading.
Context `{OS} `{!heapGS Σ}.
#[local] Existing Instance epoll.
Context (event source fd edge wcache cache events reset efd w : Z) (u0 : rest).

(** A call of [read] on the descriptor of the source. *)
Definition is_read (e : World.event) : Prop :=
  ev_call e = "read"%string ∧ ev_data e = [] ∧ ∃ n, ev_args e = [fd; n].

(** Why the loop is left, and whether the function returns from it. *)
Inductive read_ends (t : list World.event) (len errno : Z) : option Z → Prop :=
| ends_full : len = QP_EVENT_READCACHE_SIZE → read_ends t len errno None
| ends_level : edge = 0 → 0 < len → read_ends t len errno None
| ends_later e : last t = Some e → ev_ret e < 0 → again errno = true → read_ends t len errno None
| ends_closed e : last t = Some e → ev_ret e = 0 ∨ ev_ret e < 0 ∧ again errno = false →
    read_ends t len errno (Some (u64 QP_ERROR)).

(** A full cache asks the event system to report what is left. *)
Definition rearmed (len : Z) : list (string * list Z) :=
  if (len =? QP_EVENT_READCACHE_SIZE) && negb (reset =? NULL)
  then [("epoll_ctl"%string, [efd; EPOLL_CTL_MOD; fd;
           Z.lor events (if negb (wcache =? NULL) then QP_EPOLL_OUT else 0); source])]
  else [].

Definition src_reading (w off : Z) : iProp Σ :=
  (source + src_bits) ↦ w ∗ (source + src_source_fd) ↦ fd ∗ (source + src_read_cache) ↦ cache ∗
  (source + src_read_cache_size) ↦ QP_EVENT_READCACHE_SIZE ∗
  (source + src_read_cache_offset) ↦ off ∗ (source + src_write_cache) ↦ wcache ∗
  (source + src_edge) ↦ edge ∗ (source + src_events) ↦ events ∗ (event + ev_h_reset) ↦ reset.

(** The cache holds [l], the rest of it is free. *)
Definition cached (l : list Z) : iProp Σ :=
  ⌜Z.of_nat (length l) ≤ QP_EVENT_READCACHE_SIZE⌝ ∗ holds_bytes cache l ∗
  region (cache + Z.of_nat (length l)) (QP_EVENT_READCACHE_SIZE - Z.of_nat (length l)).

Definition reading_at (t : list World.event) (u : rest) : Prop :=
  w_trace (r_world u) = w_trace (r_world u0) ++ t ∧ w_fds (r_world u) = w_fds (r_world u0) ∧
  Forall is_read t ∧ (edge = 0 → (length t ≤ 1)%nat).
Definition got (t : list World.event) : list Z := received (w_trace (r_world u0)) t.
Definition got_len (t : list World.event) : Z := Z.of_nat (length (got t)).

Definition read_loop (n : nat) (rest : Z) (u : EvState.rest) : iProp Σ :=
  ∃ t, ⌜reading_at t u ∧ (edge = 0 → t = []) ∧ 0 < rest ∧ n = Z.to_nat rest ∧
        rest = QP_EVENT_READCACHE_SIZE - got_len t⌝ ∗
    src_reading w (got_len t) ∗ cached (got t).

(** What was asked of the system, and what came of it. *)
Definition read_story (t : list World.event) (r : option Z) (u : rest) : Prop :=
  Forall is_read t ∧ (edge = 0 → (length t ≤ 1)%nat) ∧ t ≠ [] ∧
  read_ends t (got_len t) (w_errno (r_world u)) r ∧
  w_fds (r_world u) = w_fds (r_world u0) ∧
  ∃ k, w_trace (r_world u) = w_trace (r_world u0) ++ t ++ k ∧
       (λ e, (ev_call e, ev_args e)) <$> k = rearmed (got_len t).

Definition read_left (r : option Z) (u : rest) : iProp Σ :=
  ∃ t, ⌜read_story t r u⌝ ∗
    src_reading (if r is Some _ then closing_flags w else w) (got_len t) ∗ cached (got t).

Context (Hsource : source ≠ NULL) (Hevent : 0 < event)
  (Hefd : fd_fd <$> (w_fds (r_world u0) !! (event + ev_event_fd)) = Some efd)
  (Hlaw : ∀ t n nbytes, 0 ≤ nbytes → a_ret (os_answer t "read" [n; nbytes] []) ≤ nbytes).

Lemma store_cached l k Φ :
  Z.of_nat (length l) + Z.of_nat (length k) ≤ QP_EVENT_READCACHE_SIZE →
  cached l -∗ (cached (l ++ k) -∗ Φ tt) -∗
  hwp (store_bytes (cache + Z.of_nat (length l)) k) Φ.
Proof.
  iIntros (Hk) "(%Hl & Hl & Hr) HΦ".
  replace (QP_EVENT_READCACHE_SIZE - Z.of_nat (length l)) with
    (Z.of_nat (length k) + (QP_EVENT_READCACHE_SIZE - Z.of_nat (length (l ++ k))))
    by (rw length_app; lia).
  rw region_app; [|lia|rw length_app; lia]. iDestruct "Hr" as "[Hk Hr]".
  iApply (store_bytes_spec with "Hk"). iIntros "Hk". iApply "HΦ".
  iSplit; [iPureIntro; rw length_app; lia|]. rw holds_app. iFrame.
  by replace (cache + Z.of_nat (length (l ++ k))) with
    (cache + Z.of_nat (length l) + Z.of_nat (length k)) by (rw length_app; lia).
Qed.

(** One more call. *)
Lemma reading_more t u n :
  reading_at t u → (edge = 0 → t = []) →
  let a := said "read" [fd; n] [] u in
  let t1 := t ++ [World.Ev "read" [fd; n] [] (a_ret a)] in
  reading_at t1 (saying "read" [fd; n] [] u) ∧ got t1 = got t ++ fill (a_ret a) (a_data a).
Proof.
  intros (Ht & Hf & Hrd & Hone) Hlev a t1. split; [split_and!|].
  - trans (w_trace (r_world u) ++ [World.Ev "read" [fd; n] [] (a_ret a)]); [done|].
    by rw Ht -app_assoc.
  - done.
  - apply Forall_app. split; [done|]. repeat constructor. by exists n.
  - intros Hz. unfold t1. rw (Hlev Hz). cbn. lia.
  - unfold got, t1. by rw received_snoc -Ht.
Qed.

(** Left with room in the cache: nothing is asked for. *)
Lemma story_nil t r u :
  reading_at t u → t ≠ [] → read_ends t (got_len t) (w_errno (r_world u)) r →
  got_len t ≠ QP_EVENT_READCACHE_SIZE → read_story t r u.
Proof.
  intros (Ht & Hfds & Hrd & Hone) Hne Hends Hlen. split_and!; try done.
  exists []. rw app_nil_r. split; [done|]. unfold rearmed. by rw (proj2 (Z.eqb_neq _ _) Hlen).
Qed.

(** The room left, as the code computes it, after [k] more bytes. *)
Lemma room_left (l : list Z) k :
  Z.of_nat (length l) + k ≤ QP_EVENT_READCACHE_SIZE → 0 ≤ k →
  u64 (QP_EVENT_READCACHE_SIZE - u64 (Z.of_nat (length l) + k)) =
    QP_EVENT_READCACHE_SIZE - (Z.of_nat (length l) + k).
Proof. unfold QP_EVENT_READCACHE_SIZE. intros. rw !wrap_small; lia. Qed.

Lemma reset_spec flag off w' u Φ :
  w_fds (r_world u) = w_fds (r_world u0) →
  src_reading w' off -∗
  (∀ u' k, ⌜w_trace (r_world u') = w_trace (r_world u) ++ k ∧
            w_fds (r_world u') = w_fds (r_world u) ∧
            (λ e, (ev_call e, ev_args e)) <$> k =
              if reset =? NULL then []
              else [("epoll_ctl"%string, [efd; EPOLL_CTL_MOD; fd; Z.lor events flag; source])]⌝ -∗
     src_reading w' off -∗ Φ tt u') -∗
  xwp (reset_events event source flag) u Φ.
Proof using Hefd Hevent.
  iIntros (Hf) "(Hb & Hfd & Hca & Hsz & Hoff & Hw & He & Hev & Hre) HΦ".
  unfold reset_events. repeat xstep. destruct (Z.eqb_spec reset NULL) as [Er|Hr]; cbn [negb].
  - xstep. iApply ("HΦ" $! u []); [|iFrame]. iPureIntro. by rw app_nil_r.
  - xstep. cbn [ev_reset epoll]. unfold qp_event_evpoll_reset. repeat xstep.
    iApply (event_fd_of_spec _ efd); [done|by rw Hf|]. repeat xstep.
    iApply ("HΦ" $! _ [_]); [|iFrame]. iPureIntro. by split_and!.
Qed.

Lemma source_read_round n rest u :
  read_loop n rest u -∗
  xwp (source_read_body event source rest) u (λ r u', match r with
    | inl rest' => ∃ n', ⌜(n' < n)%nat⌝ ∗ read_loop n' rest' u'
    | inr r => read_left r u'
    end).
Proof using Hefd Hevent Hlaw Hsource.
  iIntros "(%t & (%Hat & %Hlev & %Hrest & -> & %Erest) & (Hb & Hfd & Hca & Hsz & Hoff & Hw & He & Hev & Hre) & Hc)".
  unfold source_read_body, read_at. repeat xstep.
  destruct (reading_more t u rest Hat Hlev) as [Hat1 Hgot].
  set (a := said _ _ _ u) in *. set (u1 := saying _ _ _ u) in *. set (t1 := t ++ _) in *.
  assert (a_ret a ≤ rest) as Hret by (apply Hlaw; lia).
  assert (last t1 = Some (World.Ev "read" [fd; rest] [] (a_ret a))) as Hlast by apply last_snoc.
  iApply (store_cached with "Hc"); [rw length_fill; unfold got_len in Erest; lia|].
  rw -Hgot. iIntros "Hc". xstep.
  destruct (Z.ltb_spec (a_ret a) 1) as [Hle|Hpos].
  - assert (got_len t = got_len t1) as Elen.
    { unfold got_len. rw Hgot length_app length_fill. lia. }
    assert (got_len t1 ≠ QP_EVENT_READCACHE_SIZE) as Erearm by lia.
    repeat xstep. change (w_errno (r_world u1)) with (a_errno a).
    assert (t1 ≠ []) as Hne by by destruct t.
    change (if again (a_errno a) then false else true) with (negb (again (a_errno a))).
    destruct ((a_ret a =? 0) || negb (again (a_errno a))) eqn:E.
    + xstep. xstep. iApply (set_shutdown_spec with "Hb"); [done|]. iIntros "Hb". xstep.
      iExists t1. rw Elen. iFrame. iPureIntro. apply story_nil; try done.
      eapply ends_closed; [done|]. cbn. destruct (Z.eqb_spec (a_ret a) 0) as [|Hz]; [by left|right].
      split; [lia|by apply negb_true_iff].
    + xstep. iExists t1. rw Elen. iFrame. iPureIntro. apply story_nil; try done.
      apply orb_false_iff in E as [E1%Z.eqb_neq E2%negb_false_iff].
      eapply ends_later; [done| |done]. cbn. lia.
  - assert (got_len t1 = got_len t + a_ret a) as Elen.
    { unfold got_len. rw Hgot length_app length_fill. lia. }
    assert (got_len t1 ≤ QP_EVENT_READCACHE_SIZE) by lia.
    assert (0 ≤ got_len t) by (unfold got_len; lia).
    repeat xstep. rw -Elen. rw (wrap_small 64 (got_len t1)); [|unfold QP_EVENT_READCACHE_SIZE in *; lia].
    rw (wrap_small 64 (_ - _)); [|unfold QP_EVENT_READCACHE_SIZE in *; lia].
    assert (t1 ≠ []) as Hne by by destruct t.
    destruct (Z.leb_spec (QP_EVENT_READCACHE_SIZE - got_len t1) 0) as [Hfull|Hroom].
    + repeat xstep.
      iApply (reset_spec with "[Hb Hfd Hca Hsz Hoff Hw He Hev Hre]"); [apply Hat1|iFrame|].
      iIntros (u2 k (Hk1 & Hfds & Hk2)) "Hs". xstep. iExists t1.
      iFrame. iPureIntro. destruct Hat1 as (Ht1 & Hfds1 & Hrd1 & Hone1). split_and!; try done.
      * apply ends_full. lia.
      * by rw Hfds.
      * exists k. split; [by rw Hk1 Ht1 app_assoc|]. rw Hk2. unfold rearmed. rw (proj2 (Z.eqb_eq (got_len t1) QP_EVENT_READCACHE_SIZE)); [|lia]. by destruct (reset =? NULL).
    + repeat xstep. destruct (Z.eqb_spec edge 0) as [Hedge|Hedge].
      * xstep. iExists t1. iFrame. iPureIntro.
        apply story_nil; try done; [apply ends_level; [done|lia]|lia].
      * xstep. iExists _. iSplit; [|iExists t1; iFrame; iPureIntro; split_and!; done].
        iPureIntro. lia.
Qed.
End reading.

#[global] Arguments cached {_ _} _ _.

(** The function: it needs a cache, and has one when it gets any. *)
Section read.
Context `{OS} `{!heapGS Σ}.
#[local] Existing Instance epoll.
Context (event source fd edge wcache events reset efd w : Z) (u0 : rest).

Definition src_unread (w : Z) : iProp Σ :=
  (source + src_bits) ↦ w ∗ (source + src_source_fd) ↦ fd ∗ (source + src_read_cache) ↦ NULL ∗
  (source + src_read_cache_size) ↦? ∗ (source + src_read_cache_offset) ↦? ∗
  (source + src_write_cache) ↦ wcache ∗ (source + src_edge) ↦ edge ∗
  (source + src_events) ↦ events ∗ (event + ev_h_reset) ↦ reset.

Context (Hsource : source ≠ NULL) (Hevent : 0 < event)
  (Hefd : fd_fd <$> (w_fds (r_world u0) !! (event + ev_event_fd)) = Some efd)
  (Hlaw : ∀ t n nbytes, 0 ≤ nbytes → a_ret (os_answer t "read" [n; nbytes] []) ≤ nbytes)
  (Hw : get_bits src_read w ≠ 0).

(** Reading with no cache to be had. *)
Definition src_refused : iProp Σ :=
  (source + src_bits) ↦ closing_flags (put_bits src_read 0 w) ∗ (source + src_source_fd) ↦ fd ∗
  (source + src_read_cache) ↦ NULL ∗ (source + src_read_cache_size) ↦? ∗
  (source + src_read_cache_offset) ↦ 0 ∗ (source + src_write_cache) ↦ wcache ∗
  (source + src_edge) ↦ edge ∗ (source + src_events) ↦ events ∗ (event + ev_h_reset) ↦ reset.

Lemma source_read_spec alc n held :
  mheld event alc QP_EVENT_READCACHE_SIZE n held -∗ src_unread w -∗
  xwp (qp_event_source_read event source) u0 (λ r u,
    (⌜r = u64 QP_ERROR ∧ u = u0⌝ ∗ src_refused ∗ mheld event alc QP_EVENT_READCACHE_SIZE n held) ∨
    ∃ cache t res,
      ⌜cache ≠ NULL ∧ read_story source fd edge wcache events reset efd u0 t res u ∧
       r = default (got_len u0 t) res⌝ ∗
      src_reading event source fd edge wcache cache events reset
        (if res is Some _ then closing_flags (put_bits src_read 0 w) else put_bits src_read 0 w)
        (got_len u0 t) ∗ cached cache (got u0 t) ∗
      mheld event alc QP_EVENT_READCACHE_SIZE n (cache :: held)).
Proof using Hefd Hevent Hlaw Hsource Hw.
  iIntros "Hm (Hb & Hfd & Hca & [%s0 Hsz] & [%o0 Hoff] & Hwc & He & Hev & Hre)".
  unfold qp_event_source_read. nonnull event. rw (proj2 (Z.eqb_neq _ _) Hsource). cbn [orb].
  repeat xstep. iApply (src_get_spec with "Hb"); [done|]. iIntros "Hb". xstep.
  rw (proj2 (Z.eqb_neq _ _) Hw). cbn [negb]. xstep. xstep.
  iApply (src_put_spec with "Hb"); [done|]. iIntros "Hb". xstep. xstep.
  unfold qp_event_source_alloc_read_cache. nonnull event. rw (proj2 (Z.eqb_neq _ _) Hsource).
  cbn [orb]. repeat hstep. rw Z.eqb_refl. cbn [negb]. repeat hstep.
  iApply (mheld_alloc with "Hm"); [unfold NULL; lia|]. iSplit.
  - iIntros "Hm". repeat hstep. rw Z.eqb_refl. repeat hstep. rw Z.eqb_refl. xstep. xstep.
    iApply (set_shutdown_spec with "Hb"); [done|]. iIntros "Hb". repeat xstep. iLeft.
    unfold src_refused. by iFrame.
  - iIntros (cache Hc) "Hm Hr".
    repeat hstep. rw (proj2 (Z.eqb_neq _ _) Hc). hstep. change (QP_SUCCESS =? QP_ERROR) with false.
    cbn match. repeat xstep. set (w1 := put_bits src_read 0 w).
    iApply (xwp_wand with "[-Hm]").
    { unshelve iApply (xwp_loop (read_loop event source fd edge wcache cache events reset w1 u0)
        _ (read_left event source fd edge wcache cache events reset efd w1 u0)
        _ _ (Z.to_nat QP_EVENT_READCACHE_SIZE) with "[-]"); [|lia|].
      - iIntros (k rest u) "HI". iApply (xwp_wand with "[HI]"); [by iApply source_read_round|].
        by iIntros ([rest'|res] u') "HI".
      - iExists []. unfold got_len, got. cbn [received length]. iFrame. unfold cached.
        cbn [length]. rw Z.add_0_r Z.sub_0_r. iFrame.
        iSplit; [iPureIntro|by iSplit; [|iApply big_sepL_nil]].
        split_and!; try done. split_and!; try done; [by rw app_nil_r|cbn; lia]. }
    iIntros ([r|] u) "(%t & %Hst & Hs & Hc)".
    + xstep. iRight. iExists cache, t, (Some r). iFrame. iPureIntro. by split_and!.
    + iDestruct "Hs" as "(Hb & Hfd & Hca & Hsz & Hoff & Hs)". repeat xstep.
      iRight. iExists cache, t, None. iFrame. iPureIntro. by split_and!.
Qed.
End read.

(** * A source that is read once *)

(** A source ready to be read, with no read cache, beside an event that has room for
    the manager of its caches. *)
Record readable (event source w fd wcache edge events reset efd : Z) (h : heap) (u : rest) : Prop := {
  rd_event : 0 < event;
  rd_source : 0 < source;
  rd_apart : source + sizeof_source ≤ event ∨ event + sizeof_event ≤ source;
  rd_manager a : event ≤ a < event + sizeof_mgr → is_Some (cells h !! a);
  rd_bits : cells h !! (source + src_bits) = Some (Some w);
  rd_flag : get_bits src_read w ≠ 0;
  rd_fd : cells h !! (source + src_source_fd) = Some (Some fd);
  rd_cache : cells h !! (source + src_read_cache) = Some (Some NULL);
  rd_size : is_Some (cells h !! (source + src_read_cache_size));
  rd_offset : is_Some (cells h !! (source + src_read_cache_offset));
  rd_wcache : cells h !! (source + src_write_cache) = Some (Some wcache);
  rd_edge : cells h !! (source + src_edge) = Some (Some edge);
  rd_events : cells h !! (source + src_events) = Some (Some events);
  rd_reset : cells h !! (event + ev_h_reset) = Some (Some reset);
  rd_efd : fd_fd <$> (w_fds (r_world u) !! (event + ev_event_fd)) = Some efd;
}.

(** The manager of an event, and cells known beside it. *)
Lemma manager_and_cells `{!heapGS Σ} event (known : list (Z * option Z)) h :
  NoDup known.*1 → Forall (λ a, a < event ∨ event + sizeof_mgr ≤ a) known.*1 →
  Forall (λ '(a, v), cells h !! a = Some v) known →
  (∀ a, event ≤ a < event + sizeof_mgr → is_Some (cells h !! a)) →
  ([∗ map] a ↦ v ∈ cells h, cell a v) ⊢
  region event sizeof_mgr ∗ [∗ list] av ∈ known, cell av.1 av.2.
Proof.
  intros Hnd Hout Hk Hm. iIntros "Hc".
  iDestruct (cells_known _ (known ++
    ((λ a, (a, default None (cells h !! a))) <$> bytes event sizeof_mgr)) with "Hc") as "Hc".
  - rw fmap_app -list_fmap_compose list_fmap_id. apply NoDup_app. split_and!; [done| |apply NoDup_seqZ].
    intros a Ha Hb%elem_of_seqZ. rw Forall_forall in Hout. destruct (Hout a Ha); lia.
  - apply Forall_app. split; [done|]. rw Forall_fmap Forall_forall.
    intros a Ha%elem_of_seqZ. cbn. by destruct (Hm a ltac:(lia)) as [v ->].
  - rw big_sepL_app big_sepL_fmap. iDestruct "Hc" as "[$ Hr]". cbn.
    iApply (big_sepL_impl with "Hr"). iIntros "!>" (???) "H". by iExists _.
Qed.

(** Addresses of fields are different, and outside of the manager. *)
Ltac unfold_offsets :=
  unfold src_bits, src_source_fd, src_read_cache, src_read_cache_size, src_read_cache_offset,
    src_write_cache, src_write_cache_size, src_write_cache_offset, src_write_cache_cur_offset,
    src_edge, src_events, ev_h_reset, sizeof_source, sizeof_event, sizeof_mgr in *; cbn.
Ltac fields_apart := unfold_offsets; repeat constructor; rw ?elem_of_cons; set_solver by lia.
Ltac fields_outside := unfold_offsets; repeat (apply Forall_cons; split); lia || by apply Forall_nil.

Lemma readable_cells `{!heapGS Σ} event source w fd wcache edge events reset efd h u :
  readable event source w fd wcache edge events reset efd h u →
  ([∗ map] a ↦ v ∈ cells h, cell a v) ⊢
  region event sizeof_mgr ∗ src_unread event source fd edge wcache events reset w.
Proof.
  intros [Hev Hs Hap Hm H1 _ H2 H3 [v4 H4] [v5 H5] H6 H7 H8 H9 _].
  rw (manager_and_cells event [(source + src_bits, Some w); (source + src_source_fd, Some fd);
    (source + src_read_cache, Some NULL); (source + src_read_cache_size, v4);
    (source + src_read_cache_offset, v5); (source + src_write_cache, Some wcache);
    (source + src_edge, Some edge); (source + src_events, Some events);
    (event + ev_h_reset, Some reset)]); [|fields_apart|fields_outside|by repeat constructor|done].
  iIntros "[$ (H1 & H2 & H3 & H4 & H5 & H6 & H7 & H8 & H9 & _)]". iFrame.
Qed.

(** The manager of the caches is made, the source is read; what comes out: the result,
    the bytes of the cache, the flags. *)
Definition read_session `{OS} `{EvHandle} (event source n : Z) : EV (Z * list Z * Z) :=
  mem (qp_manager_init event QP_EVENT_READCACHE_SIZE n);;
  r ← qp_event_source_read event source;
  cache ← mem (load (source + src_read_cache));
  offset ← mem (load (source + src_read_cache_offset));
  l ← (if cache =? NULL then mret [] else mem (load_bytes cache offset));
  w ← mem (load (source + src_bits));
  mret (r, l, w).

(** C32. [qp_event_source_read] never loses or invents a byte and never overruns the
    cache: whatever the system answers, the function returns, and the cache
    holds, in order, exactly the bytes that the calls of [read] it made delivered,
    at most 4096 of them. In level mode it calls once; in edge mode it stops
    when the cache is full - then the event system is told to report the rest - or
    when there is nothing to read for now. It returns the number of bytes, or an
    error with the source marked for closing: when the peer is gone or a read
    fails, or, with nothing read, when there is no cache to be had. *)
Theorem source_read_receives `{OS} event source n w fd wcache edge events reset efd h u :
  readable event source w fd wcache edge events reset efd h u → cells h !! NULL = None →
  sizes_ok QP_EVENT_READCACHE_SIZE n →
  (∀ t d nbytes, 0 ≤ nbytes → a_ret (os_answer t "read" [d; nbytes] []) ≤ nbytes) →
  ∃ r l w' h' u', @read_session _ epoll event source (Z.of_nat n) (MkEvs h u) =
      Ok (r, l, w', MkEvs h' u') ∧
    let w1 := put_bits src_read 0 w in
    ((r = u64 QP_ERROR ∧ l = [] ∧ w' = closing_flags w1 ∧ u' = u) ∨
     ∃ t res, read_story source fd edge wcache events reset efd u t res u' ∧
       l = received (w_trace (r_world u)) t ∧ Z.of_nat (length l) ≤ QP_EVENT_READCACHE_SIZE ∧
       match res with
       | Some v => r = v ∧ w' = closing_flags w1
       | None => r = Z.of_nat (length l) ∧ w' = w1
       end).
Proof.
  intros Hr Hnull Hn Hlaw. set (w1 := put_bits src_read 0 w).
  set (φ := λ (v : Z * list Z * Z) (u' : rest),
    (v.1.1 = u64 QP_ERROR ∧ v.1.2 = [] ∧ v.2 = closing_flags w1 ∧ u' = u) ∨
    ∃ t res, read_story source fd edge wcache events reset efd u t res u' ∧
      v.1.2 = received (w_trace (r_world u)) t ∧
      Z.of_nat (length v.1.2) ≤ QP_EVENT_READCACHE_SIZE ∧
      match res with
      | Some x => v.1.1 = x ∧ v.2 = closing_flags w1
      | None => v.1.1 = Z.of_nat (length v.1.2) ∧ v.2 = w1
      end).
  destruct (xwp_adequacy heapΣ (read_session event source (Z.of_nat n)) h u (λ v _ u', φ v u') Hnull)
    as ([[r l] w'] & h' & u' & E & Hφ); [|by exists r, l, w', h', u'].
  iIntros (G) "[Hc _]". iDestruct (readable_cells with "Hc") as "[Hm Hs]"; [done|].
  destruct Hr as [Hev Hso _ _ _ Hflag _ _ _ _ _ _ _ _ Hefd].
  unfold read_session. xstep. xstep.
  iApply (manager_init_spec with "[Hm]"); [done|iRight; iFrame; by iPureIntro; unfold NULL; lia|].
  iSplit; [iIntros (E); unfold NULL in E; lia|].
  iIntros (m alc [Hm [[<- _]|[E _]]]) "_ Hmgr"; [|unfold NULL in E; lia]. xstep.
  iApply (xwp_wand with "[Hmgr Hs]").
  { iApply (source_read_spec _ _ _ _ _ _ _ efd with "[Hmgr] Hs"); unfold NULL; try done; [lia|].
    by iApply mheld_init. }
  iIntros (r u') "[([-> ->] & Hs & _)|(%cache & %t & %res & (%Hc & %Hst & %Hres) & Hs & Hl & _)]".
  - iDestruct "Hs" as "(Hb & _ & Hca & _ & Hoff & _)".
    repeat xstep. rw Z.eqb_refl. repeat xstep. iIntros (h') "_". iPureIntro. by left.
  - iDestruct "Hs" as "(Hb & Hfd & Hca & Hsz & Hoff & _)". iDestruct "Hl" as "(%Hle & Hl & _)".
    repeat xstep. rw (proj2 (Z.eqb_neq _ _) Hc). repeat xstep.
    iApply (load_bytes_spec with "Hl"); [done|]. iIntros "Hl". repeat xstep.
    iIntros (h') "_". iPureIntro. right. exists t, res. split_and!; try done.
    destruct res; by subst r.
Qed.

(** Three bytes, and then nothing for now. *)
Definition talking_system : OS := {|
  os_answer t name args data :=
    match t, args with
    | [], [_; n] => if 3 <=? n then Ans 3 0 [104; 101; 121] else Ans (-1) EAGAIN []
    | _, _ => Ans (-1) EAGAIN []
    end;
  pthread_self := 7;
  getpid := 100;
|}.

(** An event at 4096, a source at 8192 with descriptor 5 in edge mode, to be read. *)
Definition demo_source (o : list Z) : heap :=
  MkHeap (list_to_map ([(8192 + src_bits, Some (put_bits src_read 1 0)); (8192 + src_source_fd, Some 5);
    (8192 + src_read_cache, Some NULL); (8192 + src_read_cache_size, None);
    (8192 + src_read_cache_offset, None); (8192 + src_write_cache, Some NULL);
    (8192 + src_edge, Some 1); (8192 + src_events, Some QP_EPOLL_IN); (4096 + ev_h_reset, Some 1)] ++
    ((λ a, (a, None)) <$> bytes 4096 sizeof_mgr))) ∅ o.

Lemma demo_manager known event o a :
  Forall (λ b, b < event ∨ event + sizeof_mgr ≤ b) known.*1 → event ≤ a < event + sizeof_mgr →
  cells (MkHeap (list_to_map (known ++ ((λ a, (a, None)) <$> bytes event sizeof_mgr))) ∅ o) !! a =
    Some None.
Proof.
  intros Hout Ha. cbn [cells]. rw list_to_map_app. apply lookup_union_Some_raw. right. split.
  - apply not_elem_of_list_to_map_1. intros Hin. rw Forall_forall in Hout.
    destruct (Hout a Hin); lia.
  - apply elem_of_list_to_map_1.
    + rw -list_fmap_compose list_fmap_id. apply NoDup_seqZ.
    + apply list_elem_of_fmap. exists a. split; [done|]. apply elem_of_seqZ. lia.
Qed.

Lemma demo_readable o :
  readable 4096 8192 (put_bits src_read 1 0) 5 NULL 1 QP_EPOLL_IN 1 3 (demo_source o) demo_rest.
Proof.
  split; try done; try (by eexists); [by unfold sizeof_event; right|].
  intros a Ha. exists None. by apply demo_manager; [fields_outside|].
Qed.

Lemma talking_law t d nbytes :
  0 ≤ nbytes → a_ret (@os_answer talking_system t "read" [d; nbytes] []) ≤ nbytes.
Proof. intros ?. cbn. destruct t; cbn; [destruct (Z.leb_spec 3 nbytes)|]; cbn; lia. Qed.

Lemma source_read_receives_witness :
  ∃ r l w' h' u', @read_session talking_system (@epoll talking_system) 4096 8192 (Z.of_nat 2)
      (MkEvs (demo_source [16384; 32768]) demo_rest) = Ok (r, l, w', MkEvs h' u') ∧
    let w1 := put_bits src_read 0 (put_bits src_read 1 0) in
    ((r = u64 QP_ERROR ∧ l = [] ∧ w' = closing_flags w1 ∧ u' = demo_rest) ∨
     ∃ t res, @read_story talking_system 8192 5 1 NULL QP_EPOLL_IN 1 3 demo_rest t res u' ∧
       l = @received talking_system (w_trace (r_world demo_rest)) t ∧
       Z.of_nat (length l) ≤ QP_EVENT_READCACHE_SIZE ∧
       match res with
       | Some v => r = v ∧ w' = closing_flags w1
       | None => r = Z.of_nat (length l) ∧ w' = w1
       end).
Proof.
  apply (@source_read_receives talking_system).
  - apply demo_readable.
  - by vm_compute.
  - split_and!; done || lia.
  - apply talking_law.
Defined.
