(* ===== verification/EventOut.v ===== *)
(** Writing a source: what the system took is the front of what was left in the cache,
    and what the function remembers of it. *)

From S2P Require Import RbModel RbTree.
From S2P Require Import Prelude Bits World Bytes Atomic Io IoProps Heap Links LinkProps.
From S2P Require Import Pool PoolProps Manager ManagerSpec ManagerProps Caches EvState Event EventProps EventIo.
#[local] Open Scope Z_scope.

(** * The read cache of a source *)

Section slot.
Context `{!heapGS Σ} (event source alc : Z) (n : nat).

Lemma cached_region cache l : cached cache l ⊢ region cache QP_EVENT_READCACHE_SIZE.
Proof.
  iIntros "(%Hl & Hl & Hr)". iDestruct (holds_region with "Hl") as "Hl".
  iDestruct (region_app with "[$Hl $Hr]") as "H"; [lia..|]. by rw Zplus_minus.
Qed.

(** None, or one with the bytes that were read. *)
Definition read_slot (rc : option Z) : iProp Σ :=
  match rc with
  | None => (source + src_read_cache) ↦ NULL ∗ (source + src_read_cache_size) ↦? ∗
            (source + src_read_cache_offset) ↦?
  | Some c => ∃ l, ⌜c ≠ NULL⌝ ∗ (source + src_read_cache) ↦ c ∗
      (source + src_read_cache_size) ↦ QP_EVENT_READCACHE_SIZE ∗
      (source + src_read_cache_offset) ↦ Z.of_nat (length l) ∗ cached c l
  end.

(** The manager of the event with the caches that are out. *)
Definition caches (held : list Z) : iProp Σ := mheld event alc QP_EVENT_READCACHE_SIZE n held.

Lemma free_read_cache_spec rc held Φ :
  event ≠ NULL → source ≠ NULL →
  caches (option_list rc ++ held) -∗ read_slot rc -∗
  (∀ r, caches held -∗ read_slot None -∗ Φ r) -∗
  hwp (qp_event_source_free_read_cache event source) Φ.
Proof.
  iIntros (Hev Hs) "Hm Hrc HΦ". unfold qp_event_source_free_read_cache.
  rw (proj2 (Z.eqb_neq _ _) Hev) (proj2 (Z.eqb_neq _ _) Hs). cbn [orb].
  destruct rc as [c|]; cbn [read_slot option_list app].
  - iDestruct "Hrc" as (l) "(%Hc & Hrc & Hsz & Hoff & Hl)". repeat hstep.
    rw (proj2 (Z.eqb_neq _ _) Hc). hstep.
    iApply (mheld_free with "Hm [Hl]"); [done|by iApply cached_region|]. iIntros "Hm".
    repeat hstep. iApply ("HΦ" with "Hm"). iFrame.
  - iDestruct "Hrc" as "(Hrc & Hsz & Hoff)". repeat hstep. rw Z.eqb_refl. hstep.
    iApply ("HΦ" with "Hm"). iFrame.
Qed.
End slot.

(** * Writing *)

(** How a call of [qp_event_source_write] leaves the source. *)
Inductive write_end := W_done | W_level | W_later | W_closed.

(** Its result, and the flags, the cache and the offset it leaves, after it came to
    position [j] of [size]. *)
Definition after_write (o : write_end) (w cache : Z) (c j size : nat) : Z * Z * Z * Z :=
  match o with
  | W_done => (Z.of_nat size, w, NULL, Z.of_nat c)
  | W_level => (Z.of_nat j, w, cache, Z.of_nat c)
  | W_later => (Z.of_nat j, w, cache, Z.of_nat j)
  | W_closed => (u64 QP_ERROR, put_bits src_write 0 (put_bits src_write_close 0 (closing_flags w)),
                 cache, Z.of_nat c)
  end.

Section writing.
Context `{OS} `{!heapGS Σ}.
#[local] Existing Instance epoll.
Context (event source fd edge cache w : Z) (l : list Z) (c : nat).
Context (alc : Z) (n : nat) (rc : option Z) (held : list Z) (u0 : rest).

Definition is_write (e : World.event) : Prop :=
  ev_call e = "write"%string ∧ ∃ n, ev_args e = [fd; n].

Definition src_writing (rc : option Z) (w wcache cur : Z) : iProp Σ :=
  (source + src_bits) ↦ w ∗ (source + src_write_cache) ↦ wcache ∗
  (source + src_write_cache_cur_offset) ↦ cur ∗ (source + src_write_cache_size) ↦? ∗
  (source + src_source_fd) ↦ fd ∗
  (source + src_write_cache_offset) ↦ Z.of_nat (length l) ∗
  (source + src_edge) ↦ edge ∗ read_slot source rc.

(** [j] bytes are gone, [c] of them before this call. *)
Definition written_to (t : list World.event) (j : nat) (u : rest) : Prop :=
  w_trace (r_world u) = w_trace (r_world u0) ++ t ∧
  w_fds (r_world u) = w_fds (r_world u0) ∧ Forall is_write t ∧
  (edge = 0 → (length t ≤ 1)%nat) ∧ (c ≤ j ≤ length l)%nat ∧
  accepted t = take (j - c) (drop c l).

(** Why the loop is left: everything is gone; level mode; not now; never. *)
Definition write_stops (t : list World.event) (j : nat) (errno : Z) (o : write_end) : Prop :=
  match o with
  | W_done => j = length l
  | W_level => edge = 0 ∧ (c < j < length l)%nat
  | W_later => (j < length l)%nat ∧ get_bits src_write_close w = 0 ∧
      ∃ e, last t = Some e ∧ ev_ret e < 0 ∧ again errno = true
  | W_closed => (j < length l)%nat ∧ ∃ e, last t = Some e ∧
      (ev_ret e = 0 ∨ ev_ret e < 0 ∧ (again errno = false ∨ get_bits src_write_close w ≠ 0))
  end.

Definition write_loop (k : nat) (v : Z * Z) (u : rest) : iProp Σ :=
  ∃ t j, ⌜written_to t j u ∧ (edge = 0 → t = []) ∧ v = (Z.of_nat j, Z.of_nat (length l - j)) ∧
          (j < length l)%nat ∧ k = (length l - j)%nat⌝ ∗
    src_writing rc w cache (Z.of_nat c) ∗ cached cache l ∗
    caches event alc n (cache :: option_list rc ++ held).

(** What is left of the caches: a source that is to be closed loses the one it has read
    into. *)
Definition caches_after (o : write_end) : iProp Σ :=
  match o with
  | W_done => caches event alc n (option_list rc ++ held)
  | W_level | W_later => cached cache l ∗ caches event alc n (cache :: option_list rc ++ held)
  | W_closed => cached cache l ∗ caches event alc n (cache :: held)
  end.

Definition write_left (r : Z) (u : rest) : iProp Σ :=
  ∃ t j o r' w' cache' cur', ⌜written_to t j u ∧ t ≠ [] ∧ write_stops t j (w_errno (r_world u)) o ∧
      after_write o w cache c j (length l) = (r', w', cache', cur') ∧ r = r'⌝ ∗
    src_writing (if o is W_closed then None else rc) w' cache' cur' ∗ caches_after o.

Context (Hsource : source ≠ NULL) (Hevent : 0 < event)
  (Hlaw : ∀ t n nbytes data, 0 ≤ nbytes → a_ret (os_answer t "write" [n; nbytes] data) ≤ nbytes).

Lemma load_cached j Φ :
  (j ≤ length l)%nat → cached cache l -∗ (cached cache l -∗ Φ (drop j l)) -∗
  hwp (load_bytes (cache + Z.of_nat j) (Z.of_nat (length l - j))) Φ.
Proof.
  iIntros (Hj) "(%Hle & Hl & Hr) HΦ". rw (holds_split j) //. iDestruct "Hl" as "[Hl1 Hl2]".
  iApply (load_bytes_spec with "Hl2"); [by rw length_drop|].
  iIntros "Hl2". iApply "HΦ". unfold cached. iFrame "Hr". iSplit; [done|].
  iApply (holds_split j); [done|]. iFrame.
Qed.

(** One more call, that the system took [k] bytes of. *)
Lemma written_more t j u :
  written_to t j u → (edge = 0 → t = []) → (j < length l)%nat →
  let k := Z.of_nat (length l - j) in
  let a := said "write" [fd; k] (drop j l) u in
  let t1 := t ++ [World.Ev "write" [fd; k] (drop j l) (a_ret a)] in
  a_ret a ≤ k → written_to t1 (j + Z.to_nat (a_ret a)) (saying "write" [fd; k] (drop j l) u).
Proof.
  intros (Ht & Hfds & Hwr & Hone & Hj & Hacc) Hlev Hlt k a t1 Ha. split_and!; [..|lia|lia|].
  - trans (w_trace (r_world u) ++ [World.Ev "write" [fd; k] (drop j l) (a_ret a)]); [done|].
    by rw Ht -app_assoc.
  - done.
  - apply Forall_app. split; [done|]. repeat constructor. by exists k.
  - intros Hz. unfold t1. rw (Hlev Hz). cbn. lia.
  - unfold t1. rw accepted_snoc Hacc. cbn [ev_ret ev_data].
    replace (drop j l) with (drop (j - c) (drop c l)) by (rw drop_drop; f_equal; lia).
    rw take_take_drop. f_equal. lia.
Qed.

(** All is written: the cache goes back to the manager. *)
Lemma free_write_cache out w' cur Φ :
  cache ≠ NULL → src_writing rc w' cache cur -∗ cached cache l -∗
  caches event alc n (cache :: out) -∗
  (caches event alc n out -∗ src_writing rc w' NULL cur -∗ Φ QP_SUCCESS) -∗
  hwp (qp_event_source_free_write_cache event source) Φ.
Proof using Hevent Hsource.
  iIntros (Hc) "(Hb & Hwc & Hcur & [%s Hsz] & Hfd & Hoff & He & Hrc) Hl Hm HΦ".
  unfold qp_event_source_free_write_cache. nonnull event. rw (proj2 (Z.eqb_neq _ _) Hsource).
  cbn [orb]. hstep. hstep. rw (proj2 (Z.eqb_neq _ _) Hc). hstep.
  iApply (mheld_free with "Hm [Hl]"); [unfold NULL; lia|by iApply cached_region|].
  iIntros "Hm". repeat hstep. iApply ("HΦ" with "Hm"). by iFrame.
Qed.

Lemma left_intro t j o r w' wc cur u :
  written_to t j u → t ≠ [] → write_stops t j (w_errno (r_world u)) o →
  after_write o w cache c j (length l) = (r, w', wc, cur) →
  src_writing (if o is W_closed then None else rc) w' wc cur -∗ caches_after o -∗ write_left r u.
Proof. iIntros (????) "Hs Hc". iExists t, j, o, r, w', wc, cur. by iFrame. Qed.

(** The end of a source that cannot be written. *)
Lemma close_writing u Φ :
  src_writing rc w cache (Z.of_nat c) -∗ caches event alc n (cache :: option_list rc ++ held) -∗
  (src_writing None (put_bits src_write 0 (put_bits src_write_close 0 (closing_flags w))) cache
     (Z.of_nat c) -∗ caches event alc n (cache :: held) -∗ Φ (inr (u64 QP_ERROR)) u) -∗
  xwp (mem (qp_event_source_set_shutdown source);;
       mem (qp_event_source_free_read_cache event source);;
       mem (src_put src_write_close 0 source);; mem (src_put src_write 0 source);;
       mret (inr (u64 QP_ERROR)) : EV (Z * Z + Z)) u Φ.
Proof using Hevent Hsource.
  iIntros "(Hb & Hwc & Hcur & Hsz & Hfd & Hoff & He & Hrc) Hm HΦ". xstep. xstep.
  iApply (set_shutdown_spec with "Hb"); [done|]. iIntros "Hb". xstep. xstep.
  iApply (free_read_cache_spec event source alc n rc (cache :: held) with "[Hm] Hrc");
    [unfold NULL; lia|done|by iApply (mheld_perm with "Hm"); solve_Permutation|].
  iIntros (_) "Hm Hrc". xstep. xstep. iApply (src_put_spec with "Hb"); [done|]. iIntros "Hb".
  xstep. xstep. iApply (src_put_spec with "Hb"); [done|]. iIntros "Hb". xstep.
  iApply ("HΦ" with "[-Hm] Hm"). iFrame.
Qed.

Lemma source_write_round k v u :
  cache ≠ NULL → write_loop k v u -∗
  xwp (source_write_body event source v) u (λ r u', match r with
    | inl v' => ∃ k', ⌜(k' < k)%nat⌝ ∗ write_loop k' v' u'
    | inr r => write_left r u'
    end).
Proof using Hevent Hsource Hlaw.
  iIntros (Hc) "(%t & %j & (%Hat & %Hlev & -> & %Hj & ->) & Hs & Hl & Hof)".
  iDestruct "Hs" as "(Hb & Hwc & Hcur & Hsz & Hfd & Hoff & He & Hrc)".
  iAssert ⌜Z.of_nat (length l) ≤ QP_EVENT_READCACHE_SIZE⌝%I as %Hsize; [by iDestruct "Hl" as "[% _]"|].
  unfold QP_EVENT_READCACHE_SIZE in Hsize. set (m := Z.of_nat (length l - j)).
  unfold source_write_body, write_at. repeat xstep. rw (wrap_small 64 m); [|lia].
  iApply (load_cached with "Hl"); [lia|]. iIntros "Hl". repeat xstep.
  set (a := said _ _ _ u). assert (a_ret a ≤ m) as Hret by (apply Hlaw; lia).
  set (u1 := saying _ _ _ u). set (t1 := t ++ [World.Ev "write" [fd; m] (drop j l) (a_ret a)]).
  assert (written_to t1 (j + Z.to_nat (a_ret a)) u1) as Hat1 by by apply written_more.
  assert (last t1 = Some (World.Ev "write" [fd; m] (drop j l) (a_ret a))) as Hlast by apply last_snoc.
  assert (t1 ≠ []) as Hne by by destruct t.
  destruct (Z.ltb_spec (a_ret a) 1) as [Hle|Hpos].
  - replace (j + Z.to_nat (a_ret a))%nat with j in Hat1 by lia.
    repeat xstep. change (w_errno (r_world u1)) with (a_errno a).
    iApply (src_get_spec with "Hb"); [done|]. iIntros "Hb".
    change (if again (a_errno a) then false else true) with (negb (again (a_errno a))).
    change (if get_bits src_write_close w =? 0 then false else true) with
      (negb (get_bits src_write_close w =? 0)).
    destruct (_ || _ || _) eqn:E.
    + iApply (close_writing with "[Hb Hwc Hcur Hsz Hfd Hoff He Hrc] Hof"); [iFrame|].
      iIntros "Hs Hof". iApply (left_intro t1 j W_closed with "Hs [Hl Hof]"); [done..| |done|iFrame].
      split; [done|]. eexists. split; [done|]. cbn.
      destruct (Z.eqb_spec (a_ret a) 0) as [|Hz]; [by left|right]. split; [lia|].
      apply orb_true_iff in E as [E|E]; [left; by apply negb_true_iff|right].
      by apply negb_true_iff, Z.eqb_neq in E.
    + repeat xstep. apply orb_false_iff in E as [[E1%Z.eqb_neq E2%negb_false_iff]%orb_false_iff E3].
      apply negb_false_iff, Z.eqb_eq in E3.
      iApply (left_intro t1 j W_later with "[-Hl Hof] [Hl Hof]"); [done..| |done|iFrame|iFrame].
      split_and!; [done..|]. eexists. split; [done|]. cbn. split; [lia|done].
  - set (j1 := (j + Z.to_nat (a_ret a))%nat) in *.
    assert ((j < j1 ≤ length l)%nat) as Hj1 by (destruct Hat1 as (_ & _ & _ & _ & ? & _); lia).
    assert (Z.of_nat j + a_ret a = Z.of_nat j1) as -> by lia. rw (wrap_small 64 (Z.of_nat j1)); [|lia].
    repeat xstep. unfold i64. rw Z.mod_small; [|lia].
    replace (Z.of_nat (length l) - Z.of_nat j1 + 2 ^ 63 - 2 ^ 63) with
      (Z.of_nat (length l - j1)) by lia.
    destruct (Z.leb_spec (Z.of_nat (length l - j1)) 0) as [Hdone|Hmore].
    + xstep. xstep.
      iApply (free_write_cache with "[Hb Hwc Hcur Hsz Hfd Hoff He Hrc] Hl Hof"); [done|iFrame|].
      iIntros "Hof Hs". xstep. assert (j1 = length l) as Ej by lia.
      rw Ej. by iApply (left_intro t1 j1 W_done with "Hs Hof").
    + repeat xstep. destruct (Z.eqb_spec edge 0) as [Hedge|Hedge].
      * xstep. iApply (left_intro t1 j1 W_level with "[-Hl Hof] [Hl Hof]"); [done..| |done|iFrame|iFrame].
        destruct Hat as (_ & _ & _ & _ & Hcj & _). split; [done|lia].
      * xstep. iExists _. iSplit; [|iExists t1, j1; iFrame; iPureIntro; split_and!; done || lia].
        iPureIntro. lia.
Qed.
End writing.

Section write.
Context `{OS} `{!heapGS Σ}.
#[local] Existing Instance epoll.

Lemma source_write_spec event source fd edge cache w l c alc n rc held u :
  source ≠ NULL → 0 < event →
  (∀ t n nbytes data, 0 ≤ nbytes → a_ret (os_answer t "write" [n; nbytes] data) ≤ nbytes) →
  get_bits src_write w ≠ 0 → cache ≠ NULL → (c < length l)%nat →
  src_writing source fd edge l rc w cache (Z.of_nat c) -∗ cached cache l -∗
  caches event alc n (cache :: option_list rc ++ held) -∗
  xwp (qp_event_source_write event source) u
    (write_left event source fd edge cache (put_bits src_write 0 w) l c alc n rc held u).
Proof.
  iIntros (Hs Hev Hlaw Hw Hc Hlt) "(Hb & Hwc & Hcur & Hsz & Hfd & Hoff & He & Hrc) Hl Hof".
  iAssert ⌜Z.of_nat (length l) ≤ QP_EVENT_READCACHE_SIZE⌝%I as %Hsize; [by iDestruct "Hl" as "[% _]"|].
  unfold QP_EVENT_READCACHE_SIZE in Hsize. unfold qp_event_source_write.
  nonnull event. rw (proj2 (Z.eqb_neq _ _) Hs). cbn [orb]. repeat xstep.
  rw (proj2 (Z.eqb_neq _ _) Hc). repeat xstep. iApply (src_get_spec with "Hb"); [done|].
  iIntros "Hb". rw (proj2 (Z.eqb_neq _ _) Hw). cbn [negb]. repeat xstep.
  iApply (src_put_spec with "Hb"); [done|]. iIntros "Hb".
  unfold i64. rw Z.mod_small; [|lia].
  replace (Z.of_nat (length l) - Z.of_nat c + 2 ^ 63 - 2 ^ 63) with (Z.of_nat (length l - c)) by lia.
  rw Nat2Z.id. set (w1 := put_bits src_write 0 w).
  unshelve iApply (xwp_loop (write_loop event source fd edge cache w1 l c alc n rc held u)
    _ (write_left event source fd edge cache w1 l c alc n rc held u) _ _ (length l - c) with "[-]"); [|lia|].
  - iIntros (k v u') "HI". iApply (xwp_wand with "[HI]"); [by iApply source_write_round|].
    by iIntros ([v'|r] u2) "HI".
  - iExists [], c. iFrame. iPureIntro. split_and!; try done. split_and!; try done.
    + by rw app_nil_r.
    + cbn. lia.
    + lia.
    + by rw Nat.sub_diag.
Qed.
End write.

(** * A source that is written once *)

(** A source ready to be written, with no cache yet, beside an event. *)
Record writable (event source w fd edge : Z) (h : heap) : Prop := {
  wr_event : 0 < event;
  wr_source : 0 < source;
  wr_apart : source + sizeof_source ≤ event ∨ event + sizeof_event ≤ source;
  wr_manager a : event ≤ a < event + sizeof_mgr → is_Some (cells h !! a);
  wr_bits : cells h !! (source + src_bits) = Some (Some w);
  wr_flag : get_bits src_write w ≠ 0;
  wr_cache : cells h !! (source + src_write_cache) = Some (Some NULL);
  wr_cur : is_Some (cells h !! (source + src_write_cache_cur_offset));
  wr_size : is_Some (cells h !! (source + src_write_cache_size));
  wr_fd : cells h !! (source + src_source_fd) = Some (Some fd);
  wr_offset : is_Some (cells h !! (source + src_write_cache_offset));
  wr_edge : cells h !! (source + src_edge) = Some (Some edge);
  wr_rcache : cells h !! (source + src_read_cache) = Some (Some NULL);
  wr_rsize : is_Some (cells h !! (source + src_read_cache_size));
  wr_roffset : is_Some (cells h !! (source + src_read_cache_offset));
}.

(** A write cache is allocated and filled with [l], of which the first [c] bytes are
    gone; the source is written; what comes out: the result, the flags, the cache and
    the position that is remembered. *)
Definition write_session `{OS} `{EvHandle} (event source n : Z) (l : list Z) (c : Z) :
    EV (option (Z * Z * Z * Z)) :=
  mem (qp_manager_init event QP_EVENT_READCACHE_SIZE n);;
  ok ← mem (qp_event_source_alloc_write_cache event source);
  if ok =? QP_ERROR then mret None else
  cache ← mem (load (source + src_write_cache));
  mem (store_bytes cache l);;
  mem (store (source + src_write_cache_offset) (Z.of_nat (length l)));;
  mem (store (source + src_write_cache_cur_offset) c);;
  r ← qp_event_source_write event source;
  w ← mem (load (source + src_bits));
  cache ← mem (load (source + src_write_cache));
  cur ← mem (load (source + src_write_cache_cur_offset));
  mret (Some (r, w, cache, cur)).

Definition write_story `{OS} (source fd edge w : Z) (l : list Z) (c : nat) (u u' : rest)
    (v : Z * Z * Z * Z) : Prop :=
  ∃ t j o cache, cache ≠ NULL ∧ written_to fd edge l c u t j u' ∧
    t ≠ [] ∧ write_stops edge w l c t j (w_errno (r_world u')) o ∧
    v = after_write o w cache c j (length l).

Lemma writable_cells `{!heapGS Σ} event source w fd edge h :
  writable event source w fd edge h →
  ([∗ map] a ↦ v ∈ cells h, cell a v) ⊢
  region event sizeof_mgr ∗ (source + src_bits) ↦ w ∗ (source + src_write_cache) ↦ NULL ∗
  (source + src_write_cache_cur_offset) ↦? ∗ (source + src_write_cache_size) ↦? ∗
  (source + src_source_fd) ↦ fd ∗ (source + src_write_cache_offset) ↦? ∗
  (source + src_edge) ↦ edge ∗ read_slot source None.
Proof.
  intros [Hev Hs Hap Hm H1 _ H2 [v3 H3] [v4 H4] H5 [v6 H6] H7 H8 [v9 H9] [v10 H10]].
  rw (manager_and_cells event [(source + src_bits, Some w); (source + src_write_cache, Some NULL);
    (source + src_write_cache_cur_offset, v3); (source + src_write_cache_size, v4);
    (source + src_source_fd, Some fd); (source + src_write_cache_offset, v6);
    (source + src_edge, Some edge); (source + src_read_cache, Some NULL);
    (source + src_read_cache_size, v9); (source + src_read_cache_offset, v10)]);
    [|fields_apart|fields_outside|by repeat constructor|done].
  iIntros "[$ (H1 & H2 & H3 & H4 & H5 & H6 & H7 & H8 & H9 & H10 & _)]". iFrame.
Qed.


(** The system takes three bytes at a time. *)
Definition slow_taker : OS := {|
  os_answer t name args data :=
    match args with [_; n] => if 3 <=? n then Ans 3 0 [] else Ans n 0 [] | _ => Ans 0 0 [] end;
  pthread_self := 7;
  getpid := 100;
|}.

(** An event at 4096, a source at 8192 with descriptor 5 in level mode, to be written. *)
Definition demo_writer (o : list Z) : heap :=
  MkHeap (list_to_map ([(8192 + src_bits, Some (put_bits src_write 1 0)); (8192 + src_source_fd, Some 5);
    (8192 + src_read_cache, Some NULL); (8192 + src_write_cache, Some NULL);
    (8192 + src_write_cache_size, None); (8192 + src_write_cache_offset, None);
    (8192 + src_write_cache_cur_offset, None); (8192 + src_edge, Some 0);
    (8192 + src_read_cache_size, None); (8192 + src_read_cache_offset, None)] ++
    ((λ a, (a, None)) <$> bytes 4096 sizeof_mgr))) ∅ o.

Lemma demo_writable o : writable 4096 8192 (put_bits src_write 1 0) 5 0 (demo_writer o).
Proof.
  split; try done; try (by eexists); [by unfold sizeof_event; right|].
  intros a Ha. exists None. by apply demo_manager; [fields_outside|].
Qed.

