(* ===== verification/Sources.v ===== *)
(** What the operations of the event loop do to one source, whatever the system and the
    handlers of the program answer: the caches it holds come from the manager and go
    back to it, and its descriptor is closed when it is removed, and only then. *)

From S2P Require Import RbModel RbTree.
From S2P Require Import Prelude Bits World Bytes Atomic Io Heap Links Pool Manager ManagerSpec.
From S2P Require Import ManagerProps Caches EvState Event Dispatch EventProps EventIo EventOut.
#[local] Open Scope Z_scope.

(** * Descriptors that come and go *)

(** The descriptors closed by the calls of a trace; the answers to its calls of [accept]. *)
Definition closed_in (t : list World.event) : list Z :=
  t ≫= λ e, if decide (ev_call e = "close"%string) then ev_args e else [].
Definition accepts_in (t : list World.event) : list Z :=
  t ≫= λ e, if decide (ev_call e = "accept"%string) then [ev_ret e] else [].

(** [closes l u u']: between [u] and [u'] the descriptors [l] were closed, in order, and
    none was accepted; the descriptor structures are untouched. *)
Record closes (l : list Z) (u u' : rest) : Prop := MkCloses {
  cl_fds : w_fds (r_world u') = w_fds (r_world u);
  cl_closed : closed_in (w_trace (r_world u')) = closed_in (w_trace (r_world u)) ++ l;
  cl_accepts : accepts_in (w_trace (r_world u')) = accepts_in (w_trace (r_world u));
}.
Abbreviation quiet := (closes []).

Lemma closes_trans l k u1 u2 u3 : closes l u1 u2 → closes k u2 u3 → closes (l ++ k) u1 u3.
Proof.
  intros [H1 H2 H3] [H4 H5 H6]. split; [congruence| |congruence]. by rw H5 H2 app_assoc.
Qed.

#[export] Instance quiet_preorder : PreOrder quiet.
Proof.
  split; [intros u; split; [done|by rw app_nil_r|done]|]. intros u1 u2 u3. apply (closes_trans [] []).
Qed.

Lemma closes_quiet l u1 u2 u3 : closes l u1 u2 → quiet u2 u3 → closes l u1 u3.
Proof. intros H1 H2. rw -(app_nil_r l). by eapply closes_trans. Qed.

Lemma quiet_closes l u1 u2 u3 : quiet u1 u2 → closes l u2 u3 → closes l u1 u3.
Proof. intros H1 H2. by apply (closes_trans [] l u1 u2). Qed.

Lemma closed_in_app t k : closed_in (t ++ k) = closed_in t ++ closed_in k.
Proof. apply bind_app. Qed.
Lemma accepts_in_app t k : accepts_in (t ++ k) = accepts_in t ++ accepts_in k.
Proof. apply bind_app. Qed.

(** Calls that neither close nor accept. *)
Definition plain (name : string) : Prop := name ≠ "close"%string ∧ name ≠ "accept"%string.

Lemma plain_calls t :
  Forall (λ e, plain (ev_call e)) t → closed_in t = [] ∧ accepts_in t = [].
Proof.
  induction 1 as [|e t [H1 H2] _ [IH1 IH2]]; [done|]. unfold closed_in, accepts_in in *. cbn.
  by rw !decide_False.
Qed.

Lemma quiet_calls t u u' :
  w_fds (r_world u') = w_fds (r_world u) → w_trace (r_world u') = w_trace (r_world u) ++ t →
  Forall (λ e, plain (ev_call e)) t → quiet u u'.
Proof.
  intros Hf Ht [H1 H2]%plain_calls. split; [done|by rw Ht closed_in_app H1|].
  by rw Ht accepts_in_app H2 app_nil_r.
Qed.

Lemma saying_trace `{OS} name args data u :
  w_trace (r_world (saying name args data u)) =
    w_trace (r_world u) ++ [World.Ev name args data (a_ret (said name args data u))].
Proof. done. Qed.

Lemma saying_quiet `{OS} name args data u :
  plain name → quiet u (saying name args data u).
Proof. intros Hn. eapply quiet_calls; [done|by apply saying_trace|by apply Forall_singleton]. Qed.

Lemma saying_close `{OS} fd u : closes [fd] u (saying "close" [fd] [] u).
Proof.
  split; [done|by rw saying_trace closed_in_app|]. by rw saying_trace accepts_in_app app_nil_r.
Qed.

(** * Flags that stay *)

Definition kept (bs : list bits) (w w' : Z) : Prop :=
  Forall (λ b, get_bits b w' = get_bits b w) bs.

#[export] Instance kept_preorder bs : PreOrder (kept bs).
Proof.
  split; [intros w; by apply Forall_true|].
  intros w1 w2 w3 H1 H2. unfold kept in *. rw !Forall_forall in H1 H2 |- *.
  intros b Hb. by rw H2 // H1.
Qed.

Lemma kept_put bs b v w :
  bits_ok b → Forall (λ a, bits_ok a ∧ bits_apart a b) bs → kept bs w (put_bits b v w).
Proof.
  intros Hb Hbs. eapply Forall_impl; [exact Hbs|]. intros a [Ha Hab]. by apply get_put_other.
Qed.

(** How a source is marked for good: whether it listens, and closes its descriptor. *)
Abbreviation marks := [src_closed; src_listen].

Ltac kept :=
  unfold closing_flags; repeat first [reflexivity
    | etrans; [|apply kept_put; [by split|repeat constructor; cbn; lia]]].

(** * A source *)

Definition src_offs : list Z :=
  [0; src_read_cache; src_write_cache; src_read_cache_size; src_write_cache_size;
   src_read_cache_offset; src_write_cache_offset; src_write_cache_cur_offset; src_source_fd;
   src_index; src_events; src_revents; src_timeout; src_bits; src_noblock; src_edge].

Lemma src_offs_ok : NoDup src_offs ∧ Forall (λ o, 0 ≤ o < sizeof_source) src_offs.
Proof. split; by apply (bool_decide_unpack _); vm_compute. Qed.

Section source.
Context `{OS} `{!heapGS Σ}.
#[local] Existing Instance epoll.

Lemma cached_nil c l : cached c l ⊢ cached c [].
Proof.
  iIntros "H". iDestruct (cached_region with "H") as "H". iSplit; [done|].
  iSplit; [by iApply big_sepL_nil|]. cbn [length]. by rw Z.add_0_r Z.sub_0_r.
Qed.

(** The part of a source nothing depends on. *)
Definition src_info (s : Z) : iProp Σ :=
  ∃ idx re to nb, (s + src_index) ↦ idx ∗ (s + src_revents) ↦ re ∗ (s + src_timeout) ↦ to ∗
    (s + src_noblock) ↦ nb ∗ padding s sizeof_source src_offs.

(** No write cache, or one of which some bytes are still to be sent. *)
Definition write_tail (s : Z) (wc : option Z) : iProp Σ :=
  match wc with
  | None => (s + src_write_cache_size) ↦? ∗ (s + src_write_cache_offset) ↦? ∗
            (s + src_write_cache_cur_offset) ↦?
  | Some c => ∃ l (cur : nat), ⌜c ≠ NULL ∧ (cur < length l)%nat⌝ ∗
      (s + src_write_cache_size) ↦? ∗ (s + src_write_cache_offset) ↦ Z.of_nat (length l) ∗
      (s + src_write_cache_cur_offset) ↦ Z.of_nat cur ∗ cached c l
  end.

(** The source at [s], its link apart: descriptor, flags and caches; [T] is what is
    known about the write cache at [wp]. *)
Definition source_with (s fd w : Z) (rc : option Z) (wp : Z) (T : iProp Σ) : iProp Σ :=
  ∃ ev ed, src_info s ∗ (s + src_bits) ↦ w ∗ (s + src_source_fd) ↦ fd ∗
    (s + src_events) ↦ ev ∗ (s + src_edge) ↦ ed ∗ read_slot s rc ∗
    (s + src_write_cache) ↦ wp ∗ T.
Definition source_at (s fd w : Z) (rc wc : option Z) : iProp Σ :=
  source_with s fd w rc (default NULL wc) (write_tail s wc).

(** Its bytes, and those of its caches. *)
Lemma read_slot_cells s rc :
  read_slot s rc ⊢ ((s + src_read_cache) ↦? ∗ (s + src_read_cache_size) ↦? ∗
    (s + src_read_cache_offset) ↦?) ∗ [∗ list] c ∈ option_list rc, region c QP_EVENT_READCACHE_SIZE.
Proof.
  destruct rc as [c|]; cbn [read_slot option_list big_opL]; [|by iIntros "($ & $ & $)"].
  iIntros "(%l & _ & $ & $ & $ & Hl)". iDestruct (cached_region with "Hl") as "$". done.
Qed.

Lemma write_tail_cells s wc :
  write_tail s wc ⊢ ((s + src_write_cache_size) ↦? ∗ (s + src_write_cache_offset) ↦? ∗
    (s + src_write_cache_cur_offset) ↦?) ∗ [∗ list] c ∈ option_list wc, region c QP_EVENT_READCACHE_SIZE.
Proof.
  destruct wc as [c|]; cbn [write_tail option_list big_opL]; [|by iIntros "($ & $ & $)"].
  iIntros "(%l & %cur & _ & $ & $ & $ & Hl)". iDestruct (cached_region with "Hl") as "$". done.
Qed.

Lemma source_region s fd w rc wc :
  s ↦? -∗ source_at s fd w rc wc -∗ region s sizeof_source ∗
  [∗ list] c ∈ (option_list rc ++ option_list wc), region c QP_EVENT_READCACHE_SIZE.
Proof.
  iIntros "Hlink (%ev & %ed & (%idx & %re & %to & %nb & Hx & Hre & Hto & Hnb & Hpad) & Hb & Hfd & Hev & Hed & Hrc & Hwc & Ht)".
  iDestruct (read_slot_cells with "Hrc") as "[(Hrc & Hrs & Hro) Hr]".
  iDestruct (write_tail_cells with "Ht") as "[(Hws & Hwo & Hcu) Hw]".
  destruct src_offs_ok. rw (region_struct s sizeof_source src_offs) //.
  unfold src_offs. cbn [big_opL]. rw Z.add_0_r big_sepL_app. iFrame.
Qed.

(** A write cache that has just been allocated. *)
Definition fresh_tail (s c : Z) : iProp Σ :=
  ⌜c ≠ NULL⌝ ∗ (s + src_write_cache_size) ↦ QP_EVENT_READCACHE_SIZE ∗
  (s + src_write_cache_offset) ↦? ∗ (s + src_write_cache_cur_offset) ↦ 0 ∗
  region c QP_EVENT_READCACHE_SIZE.

Context (event alc : Z) (n : nat) (hr hd ha pr pw : Z) (efd : qp_fd_s).

(** What an event and its program are set up with. *)
Definition handles : iProp Σ :=
  (event + ev_h_reset) ↦ hr ∗ (event + ev_h_del) ↦ hd ∗ (event + ev_h_add) ↦ ha ∗
  (event + ev_p_read) ↦ pr ∗ (event + ev_p_write) ↦ pw.

Context (Hevent : 0 < event).
Context (Hread : ∀ t d nbytes, 0 ≤ nbytes → a_ret (os_answer t "read" [d; nbytes] []) ≤ nbytes).
Context (Hwrite : ∀ t d nbytes data, 0 ≤ nbytes →
  a_ret (os_answer t "write" [d; nbytes] data) ≤ nbytes).

(** The descriptor of the event, in the structures of the system. *)
Definition epolls (u : rest) : Prop :=
  w_fds (r_world u) !! (event + ev_event_fd) = Some efd.

Lemma epolls_closes l u u' : closes l u u' → epolls u → epolls u'.
Proof. intros [Hf _]. unfold epolls. by rw Hf. Qed.

Lemma epolls_fd u :
  epolls u → fd_fd <$> (w_fds (r_world u) !! (event + ev_event_fd)) = Some (fd_fd efd).
Proof. unfold epolls. by intros ->. Qed.

Lemma reset_quiet s ev fd flag u Φ :
  epolls u → handles -∗ (s + src_events) ↦ ev -∗ (s + src_source_fd) ↦ fd -∗
  (∀ u', ⌜quiet u u'⌝ -∗ handles -∗ (s + src_events) ↦ ev -∗ (s + src_source_fd) ↦ fd -∗ Φ tt u') -∗
  xwp (reset_events event s flag) u Φ.
Proof using Hevent.
  iIntros (Hu) "(Hr & Hh) Hev Hfd HΦ". unfold reset_events. repeat xstep.
  destruct (Z.eqb_spec hr NULL) as [_|_]; cbn [negb].
  - xstep. iApply ("HΦ" with "[//] [$Hr $Hh] Hev Hfd").
  - xstep. cbn [ev_reset epoll]. unfold qp_event_evpoll_reset. repeat xstep.
    iApply (event_fd_of_spec _ (fd_fd efd)); [done|by apply epolls_fd|]. repeat xstep.
    iApply ("HΦ" with "[%] [$Hr $Hh] Hev Hfd"). by apply saying_quiet.
Qed.

(** ** Writing *)

Lemma write_stage s fd w rc wc held u :
  s ≠ NULL →
  caches event alc n (option_list rc ++ option_list wc ++ held) -∗ source_at s fd w rc wc -∗
  xwp (qp_event_source_write event s) u (λ _ u', ∃ w' rc' wc',
    ⌜kept [src_closed; src_listen; src_read] w w' ∧ quiet u u'⌝ ∗
    caches event alc n (option_list rc' ++ option_list wc' ++ held) ∗ source_at s fd w' rc' wc').
Proof using Hevent Hwrite.
  iIntros (Hs) "Hm (%ev & %ed & Hi & Hb & Hfd & Hev & Hed & Hrc & Hwc & Ht)".
  assert (event ≠ NULL) as Hen by (unfold NULL; lia).
  destruct wc as [c|]; cbn [default option_list app].
  2: { unfold qp_event_source_write. rw (proj2 (Z.eqb_neq _ _) Hen) (proj2 (Z.eqb_neq _ _) Hs).
       cbn [orb]. repeat xstep. rw Z.eqb_refl. xstep. iExists w, rc, None. by iFrame. }
  iDestruct "Ht" as (l cur [Hc Hcur]) "(Hsz & Hoff & Hcu & Hl)".
  destruct (decide (get_bits src_write w = 0)) as [Hw|Hw].
  { unfold qp_event_source_write. rw (proj2 (Z.eqb_neq _ _) Hen) (proj2 (Z.eqb_neq _ _) Hs).
    cbn [orb]. repeat xstep. rw (proj2 (Z.eqb_neq _ _) Hc). repeat xstep.
    iApply (src_get_spec with "Hb"); [done|]. iIntros "Hb". rw Hw. cbn [Z.eqb negb]. xstep.
    iExists w, rc, (Some c). iFrame. by iFrame. }
  iApply (xwp_wand with "[Hm Hb Hfd Hed Hrc Hwc Hsz Hoff Hcu Hl]").
  { iApply (source_write_spec event s fd ed c w l cur alc n rc held u with
      "[$Hb $Hwc $Hcu $Hsz $Hfd $Hoff $Hed $Hrc] Hl [Hm]"); try done.
    iApply (mheld_perm with "Hm"). solve_Permutation. }
  iIntros (r u') "(%t & %j & %o & %r' & %w' & %wc & %cur' & (%Hat & _ & %Hst & %Haf & _) & Hs & Hm)".
  iDestruct "Hs" as "(Hb & Hwc & Hcur & Hsz & Hfd & Hoff & Hed & Hrc)".
  destruct Hat as (Htr & Hfds & Hwr & _ & Hj & _).
  assert (quiet u u') as Hq.
  { eapply quiet_calls; [done..|]. eapply Forall_impl; [exact Hwr|]. by intros e [-> _]. }
  destruct o; injection Haf as <- <- <- <-; cbn [caches_after].
  - iExists _, rc, None. iFrame. iPureIntro. split; [kept|done].
  - destruct Hst as [_ Hst]. iDestruct "Hm" as "[Hl Hm]". iExists _, rc, (Some c). iFrame. cbn [option_list].
    iSplit; [iPureIntro; split; [kept|done]|].
    iSplitL "Hm"; [iApply (mheld_perm with "Hm"); solve_Permutation|]. by iFrame.
  - destruct Hst as [Hst _]. iDestruct "Hm" as "[Hl Hm]". iExists _, rc, (Some c). iFrame. cbn [option_list].
    iSplit; [iPureIntro; split; [kept|done]|].
    iSplitL "Hm"; [iApply (mheld_perm with "Hm"); solve_Permutation|]. by iFrame.
  - iDestruct "Hm" as "[Hl Hm]". iExists _, None, (Some c). iFrame. cbn [option_list app].
    iSplit; [iPureIntro; split; [kept|done]|by iFrame].
Qed.

(** ** Reading *)

Lemma read_quiet s fd ed wcache ev res u u' t :
  read_story s fd ed wcache ev hr (fd_fd efd) u t res u' → quiet u u'.
Proof.
  intros (Hrd & _ & _ & _ & Hf & k & Ht & Hk). eapply quiet_calls; [done|exact Ht|].
  apply Forall_app. split.
  - eapply Forall_impl; [exact Hrd|]. by intros e [-> _].
  - assert (Forall (λ p : string * list Z, plain p.1)
      ((λ e, (ev_call e, ev_args e)) <$> k)) as Hf'.
    { rw Hk. unfold rearmed. destruct (_ && _); by repeat constructor. }
    rw Forall_fmap in Hf'. exact Hf'.
Qed.

(** A cache that still waits for its handler is in the way: nothing is read, and the
    source is to be closed. *)
Lemma read_pending s c l u Φ w :
  s ≠ NULL → c ≠ NULL → get_bits src_read w ≠ 0 →
  (s + src_bits) ↦ w -∗ (s + src_read_cache) ↦ c -∗ (s + src_read_cache_offset) ↦ l -∗
  ((s + src_bits) ↦ closing_flags (put_bits src_read 0 w) -∗ (s + src_read_cache) ↦ c -∗
     (s + src_read_cache_offset) ↦ 0 -∗ Φ (u64 QP_ERROR) u) -∗
  xwp (qp_event_source_read event s) u Φ.
Proof using Hevent.
  iIntros (Hs Hc Hw) "Hb Hrc Hoff HΦ". unfold qp_event_source_read. nonnull event.
  rw (proj2 (Z.eqb_neq _ _) Hs). cbn [orb]. repeat xstep.
  iApply (src_get_spec with "Hb"); [done|]. iIntros "Hb". rw (proj2 (Z.eqb_neq _ _) Hw).
  cbn [negb]. repeat xstep. iApply (src_put_spec with "Hb"); [done|]. iIntros "Hb". xstep. xstep.
  unfold qp_event_source_alloc_read_cache. nonnull event. rw (proj2 (Z.eqb_neq _ _) Hs).
  cbn [orb]. repeat hstep. rw (proj2 (Z.eqb_neq _ _) Hc). cbn [negb]. hstep. rw Z.eqb_refl. xstep. xstep.
  iApply (set_shutdown_spec with "Hb"); [done|]. iIntros "Hb". repeat xstep.
  iApply ("HΦ" with "Hb Hrc Hoff").
Qed.

Lemma read_stage s fd w rc wc held u :
  s ≠ NULL → get_bits src_read w ≠ 0 → epolls u →
  caches event alc n (option_list rc ++ option_list wc ++ held) -∗ source_at s fd w rc wc -∗
  handles -∗
  xwp (qp_event_source_read event s) u (λ _ u', ∃ w' rc', ⌜kept marks w w' ∧ quiet u u'⌝ ∗
    caches event alc n (option_list rc' ++ option_list wc ++ held) ∗ source_at s fd w' rc' wc ∗
    handles).
Proof using Hevent Hread.
  iIntros (Hs Hw Hu) "Hm (%ev & %ed & Hi & Hb & Hfd & Hev & Hed & Hrc & Hwc & Ht) [Hr Hh]".
  destruct rc as [c|]; cbn [read_slot option_list app].
  - iDestruct "Hrc" as (l) "(%Hc & Hrc & Hsz & Hoff & Hl)".
    iApply (read_pending with "Hb Hrc Hoff"); [done..|]. iIntros "Hb Hrc Hoff".
    iExists (closing_flags (put_bits src_read 0 w)), (Some c). iFrame "Hm Hr Hh". iSplit; [iPureIntro; split; [kept|done]|].
    iExists ev, ed. iFrame "Hi Hb Hfd Hev Hed Hwc Ht". iExists []. iFrame "Hrc Hsz Hoff".
    iSplit; [done|]. iApply (cached_nil with "Hl").
  - iDestruct "Hrc" as "(Hrc & Hsz & Hoff)". iApply (xwp_wand with "[Hm Hb Hfd Hrc Hsz Hoff Hwc Hed Hev Hr]").
    { iApply (source_read_spec event s fd ed _ ev hr (fd_fd efd) with
        "Hm [$Hb $Hfd $Hrc $Hsz $Hoff $Hwc $Hed $Hev $Hr]"); try done. by apply epolls_fd. }
    iIntros (r u') "[([_ ->] & Hs & Hm)|(%c & %t & %res & (%Hc & %Hst & _) & Hs & Hl & Hm)]".
    + iDestruct "Hs" as "(Hb & Hfd & Hrc & Hsz & Hoff & Hwc & Hed & Hev & Hr)".
      iExists _, None. iFrame. iPureIntro. split; [kept|done].
    + iDestruct "Hs" as "(Hb & Hfd & Hrc & Hsz & Hoff & Hwc & Hed & Hev & Hr)".
      iExists _, (Some c). iFrame. iSplit; [iPureIntro|by iFrame].
      split; [destruct res; kept|by eapply read_quiet].
Qed.

(** ** The handlers *)

(** The read handler sees the bytes that were read. *)
Lemma handle_read_spec fn s c w u Φ :
  s ≠ NULL → src_info s -∗ (s + src_bits) ↦ w -∗ read_slot s (Some c) -∗
  (∀ r u', ⌜quiet u u'⌝ -∗ src_info s -∗ (s + src_bits) ↦ w -∗ read_slot s (Some c) -∗ Φ r u') -∗
  xwp (handle_read fn s) u Φ.
Proof.
  iIntros (Hs) "(%idx & %re & %to & %nb & Hx & Hi) Hb (%l & %Hc & Hrc & Hsz & Hoff & %Hl & Hl & Hr) HΦ".
  unfold handle_read. repeat xstep. iApply (src_get_spec with "Hb"); [done|]. iIntros "Hb".
  repeat xstep. iApply (load_bytes_spec with "Hl"); [done|]. iIntros "Hl". repeat xstep.
  iApply ("HΦ" with "[%] [Hx Hi] Hb"); [by apply saying_quiet|iExists _; iFrame|].
  iExists l. by iFrame.
Qed.

(** A handler that answers something may have a write cache to fill. *)
Lemma alloc_write_spec s held Φ :
  s ≠ NULL → caches event alc n held -∗ (s + src_write_cache) ↦ NULL -∗ write_tail s None -∗
  ((caches event alc n held -∗ (s + src_write_cache) ↦ NULL -∗ write_tail s None -∗ Φ QP_ERROR) ∧
   (∀ c, caches event alc n (c :: held) -∗ (s + src_write_cache) ↦ c -∗ fresh_tail s c -∗
      Φ QP_SUCCESS)) -∗
  hwp (qp_event_source_alloc_write_cache event s) Φ.
Proof using Hevent.
  iIntros (Hs) "Hm Hwc ([%x Hsz] & Hoff & [%y Hcur]) HΦ". unfold qp_event_source_alloc_write_cache.
  nonnull event. rw (proj2 (Z.eqb_neq _ _) Hs). cbn [orb]. repeat hstep. rw Z.eqb_refl.
  cbn [negb]. repeat hstep. iApply (mheld_alloc with "Hm"); [unfold NULL; lia|]. iSplit.
  - iIntros "Hm". iDestruct "HΦ" as "[HΦ _]". repeat hstep. rw Z.eqb_refl. repeat hstep.
    iApply ("HΦ" with "Hm Hwc"). iFrame.
  - iIntros (c Hc) "Hm Hr". iDestruct "HΦ" as "[_ HΦ]". repeat hstep.
    rw (proj2 (Z.eqb_neq _ _) Hc). hstep. iApply ("HΦ" with "Hm Hwc"). by iFrame.
Qed.

Lemma process_read_spec s fd w c held u :
  s ≠ NULL → caches event alc n (c :: held) -∗ source_at s fd w (Some c) None -∗ handles -∗
  xwp (process_read event s) u (λ _ u', ∃ w', ⌜kept marks w w' ∧ quiet u u'⌝ ∗ handles ∗
    (caches event alc n held ∗ source_at s fd w' None None ∨
     ∃ c', ⌜pw ≠ NULL⌝ ∗ caches event alc n (c' :: held) ∗
       source_with s fd w' None c' (fresh_tail s c'))).
Proof using Hevent.
  iIntros (Hs) "Hm (%ev & %ed & Hi & Hb & Hfd & Hev & Hed & Hrc & Hwc & Ht) (Hr & Hd & Ha & Hpr & Hpw)".
  unfold process_read. repeat xstep.
  iApply (xwp_wand _ _ (λ _ u', ⌜quiet u u'⌝ ∗ src_info s ∗ (s + src_bits) ↦ w ∗
    read_slot s (Some c))%I with "[Hi Hb Hrc]").
  { destruct (Z.eqb_spec pr NULL); cbn [negb]; [xstep; by iFrame|].
    iApply (handle_read_spec with "Hi Hb Hrc"); [done|]. iIntros (r u' Hq) "$ $ $ //". }
  iIntros (ret u') "(%Hq & Hi & Hb & Hrc)". xstep. xstep.
  iApply (free_read_cache_spec event s alc n (Some c) held with "Hm Hrc"); [unfold NULL; lia|done|].
  iIntros (_) "Hm Hrc". xstep. xstep. iApply (src_get_spec with "Hb"); [done|]. iIntros "Hb". xstep.
  iApply (xwp_wand _ _ (λ _ u2, ⌜u2 = u'⌝ ∗ ∃ w1, ⌜kept marks w w1⌝ ∗ (s + src_bits) ↦ w1)%I with "[Hb]").
  { destruct (_ && _); xstep; [|by iFrame].
    iApply (src_put_spec with "Hb"); [done|]. iIntros "Hb". iSplit; [done|].
    iExists _. iFrame. iPureIntro. kept. }
  iIntros (_ u2) "(-> & %w1 & %Hw1 & Hb)". xstep.
  iApply (xwp_wand _ _ (λ _ u2, ⌜u2 = u'⌝ ∗ ∃ w2, ⌜kept marks w w2⌝ ∗ (s + src_bits) ↦ w2)%I with "[Hb]").
  { destruct (ret <? 0); xstep; [|by iFrame].
    iApply (set_shutdown_spec with "Hb"); [done|]. iIntros "Hb". iSplit; [done|].
    iExists _. iFrame. iPureIntro. etrans; [exact Hw1|]. kept. }
  iIntros (_ u2) "(-> & %w2 & %Hw2 & Hb)". xstep. xstep.
  iApply (src_get_spec with "Hb"); [done|]. iIntros "Hb". repeat xstep.
  destruct (Z.eqb_spec pw NULL) as [Hpw|Hpw]; cbn [negb].
  { rw andb_false_r. xstep. iExists w2. iFrame. iSplit; [done|]. iLeft. iFrame. }
  rw andb_true_r. destruct (_ && _).
  2: { xstep. iExists w2. iFrame. iSplit; [done|]. iLeft. iFrame. }
  xstep. xstep. iApply (alloc_write_spec with "Hm Hwc Ht"); [done|]. iSplit.
  - iIntros "Hm Hwc Ht". rw Z.eqb_refl. xstep. iApply (set_shutdown_spec with "Hb"); [done|].
    iIntros "Hb". iExists _. iFrame "Hr Hd Ha Hpr Hpw". iSplit.
    2: { iLeft. iFrame "Hm". iExists ev, ed. iFrame. }
    iPureIntro. split; [|done]. etrans; [exact Hw2|]. kept.
  - iIntros (c') "Hm Hwc Ht". change (QP_SUCCESS =? QP_ERROR) with false. cbn match. xstep.
    iExists w2. iFrame "Hr Hd Ha Hpr Hpw". iSplit; [done|]. iRight. iExists c'. iFrame "Hm".
    iSplit; [done|]. iExists ev, ed. iFrame.
Qed.

Lemma free_write_spec s wc held Φ :
  s ≠ NULL → caches event alc n (option_list wc ++ held) -∗
  (s + src_write_cache) ↦ default NULL wc -∗ write_tail s wc -∗
  (∀ r, caches event alc n held -∗ (s + src_write_cache) ↦ NULL -∗ write_tail s None -∗ Φ r) -∗
  hwp (qp_event_source_free_write_cache event s) Φ.
Proof using Hevent.
  iIntros (Hs) "Hm Hwc Ht HΦ". unfold qp_event_source_free_write_cache.
  nonnull event. rw (proj2 (Z.eqb_neq _ _) Hs). cbn [orb]. destruct wc as [c|]; cbn [default option_list app].
  - iDestruct "Ht" as (l cur [Hc _]) "([%x Hsz] & Hoff & Hcur & Hl)". repeat hstep.
    rw (proj2 (Z.eqb_neq _ _) Hc). hstep.
    iApply (mheld_free with "Hm [Hl]"); [unfold NULL; lia|by iApply cached_region|].
    iIntros "Hm". repeat hstep. iApply ("HΦ" with "Hm Hwc"). iFrame.
  - repeat hstep. rw Z.eqb_refl. hstep. iApply ("HΦ" with "Hm Hwc Ht").
Qed.

Context (Hhandler : ∀ t fn idx stat size, 0 < size → ∃ l : list Z,
  a_data (os_answer t "process_write" [fn; idx; stat; size] []) = Z.of_nat (length l) :: l ∧
  (0 < length l)%nat ∧ Z.of_nat (length l) ≤ size).

(** The write handler fills the cache with at least one byte. *)
Lemma handle_write_spec s c w u Φ :
  s ≠ NULL → pw ≠ NULL →
  src_info s -∗ (s + src_bits) ↦ w -∗ (s + src_write_cache) ↦ c -∗ fresh_tail s c -∗
  (∀ r u', ⌜quiet u u'⌝ -∗ src_info s -∗ (s + src_bits) ↦ w -∗ (s + src_write_cache) ↦ c -∗
     write_tail s (Some c) -∗ Φ r u') -∗
  xwp (handle_write pw s) u Φ.
Proof using Hhandler.
  iIntros (Hs Hpw) "(%idx & %re & %to & %nb & Hx & Hi) Hb Hwc (%Hc & Hsz & [%x Hoff] & Hcur & Hr) HΦ".
  unfold handle_write. rw (proj2 (Z.eqb_neq _ _) Hpw). repeat xstep.
  iApply (src_get_spec with "Hb"); [done|]. iIntros "Hb". repeat xstep.
  destruct (Hhandler (w_trace (r_world u)) pw idx (get_bits src_stat w) QP_EVENT_READCACHE_SIZE)
    as (l & Hl & Hpos & Hle); [done|].
  change (os_answer _ _ _ _) with
    (said "process_write" [pw; idx; get_bits src_stat w; QP_EVENT_READCACHE_SIZE] [] u) in Hl.
  rw Hl. repeat xstep.
  iAssert (region c (Z.of_nat (length l) + (QP_EVENT_READCACHE_SIZE - Z.of_nat (length l))))
    with "[Hr]" as "Hr"; [by rw Zplus_minus|].
  iDestruct (region_app with "Hr") as "[Hl Hr]"; [lia..|].
  iApply (store_bytes_spec with "Hl"). iIntros "Hl". xstep.
  iApply ("HΦ" with "[%] [Hx Hi] Hb Hwc"); [by apply saying_quiet|iExists _; iFrame|].
  iExists l, 0%nat. by iFrame.
Qed.

Lemma process_write_spec s fd w c held u :
  s ≠ NULL → pw ≠ NULL → epolls u → caches event alc n (c :: held) -∗
  source_with s fd w None c (fresh_tail s c) -∗ handles -∗
  xwp (process_write event s) u (λ _ u', ∃ w' wc, ⌜kept marks w w' ∧ quiet u u'⌝ ∗ handles ∗
    caches event alc n (option_list wc ++ held) ∗ source_at s fd w' None wc).
Proof using Hevent Hhandler.
  iIntros (Hs Hpw Hu) "Hm (%ev & %ed & Hi & Hb & Hfd & Hev & Hed & Hrc & Hwc & Ht) (Hr & Hd & Ha & Hpr & Hpw)".
  unfold process_write. repeat xstep.
  iApply (handle_write_spec with "Hi Hb Hwc Ht"); [done..|]. iIntros (ret u1 Hq) "Hi Hb Hwc Ht".
  destruct (ret <? 0).
  - xstep. xstep. iApply (set_shutdown_spec with "Hb"); [done|]. iIntros "Hb". xstep. xstep.
    iApply (free_write_spec s (Some c) held with "Hm Hwc Ht"); [done|]. iIntros (_) "Hm Hwc Ht". xstep.
    iExists (closing_flags w), None. iFrame "Hm Hr Hd Ha Hpr Hpw". iSplit; [iPureIntro; split; [kept|done]|].
    iExists ev, ed. iFrame.
  - xstep. iApply (reset_quiet with "[$Hr $Hd $Ha $Hpr $Hpw] Hev Hfd"); [by eapply epolls_closes|].
    iIntros (u2 Hq2) "Hh Hev Hfd".
    iApply (xwp_wand _ _ (λ _ u3, ⌜u3 = u2⌝ ∗ ∃ w1, ⌜kept marks w w1⌝ ∗ (s + src_bits) ↦ w1)%I with "[Hb]").
    { destruct (0 =? ret); xstep; [|by iFrame].
      iApply (src_put_spec with "Hb"); [done|]. iIntros "Hb". iSplit; [done|].
      iExists _. iFrame. iPureIntro. kept. }
    iIntros (_ u3) "(-> & %w1 & %Hw1 & Hb)". iExists w1, (Some c). iFrame "Hm Hh".
    iSplit; [iPureIntro; split; [done|by etrans]|]. iExists ev, ed. iFrame.
Qed.
End source.
