(* ===== verification/Loop.v ===== *)
(** The event loop as a whole: sources taken from their pool and given back, the list of
    ready sources worked off, under any system and any handlers. *)

From S2P Require Import RbModel RbTree.
From S2P Require Import Prelude Bits World Bytes Atomic Io Heap Links Pool Manager ManagerSpec.
From S2P Require Import ManagerProps Caches EvState Event Dispatch EventProps EventIo EventOut Sources.
#[local] Open Scope Z_scope.

(** What the system and the program's handlers are relied upon for: [read] and [write]
    transfer no more than they are asked to; a write handler leaves at least one byte to
    be sent, and no more than fit. *)
Record reliable `{OS} : Prop := {
  rel_read t d nbytes : 0 ≤ nbytes → a_ret (os_answer t "read" [d; nbytes] []) ≤ nbytes;
  rel_write t d nbytes data :
    0 ≤ nbytes → a_ret (os_answer t "write" [d; nbytes] data) ≤ nbytes;
  rel_handler t fn idx stat size : 0 < size → ∃ l : list Z,
    a_data (os_answer t "process_write" [fn; idx; stat; size] []) = Z.of_nat (length l) :: l ∧
    (0 < length l)%nat ∧ Z.of_nat (length l) ≤ size;
}.

Lemma kept_marks b w w' : kept [src_closed; src_listen; b] w w' → kept marks w w'.
Proof. intros H. by apply (Forall_app _ marks [b]) in H as [H _]. Qed.

Lemma marked_kept w e : kept marks w (marked w e).
Proof. repeat (apply Forall_cons; split; [apply marked_other; set_solver|]). apply Forall_nil_2. Qed.

Section loop.
Context `{OS} `{!heapGS Σ}.
#[local] Existing Instance epoll.
Context (event alc : Z) (n : nat) (hr hd ha pr pw : Z) (efd : qp_fd_s) (R palc : Z) (N : nat).
Context (Hevent : 0 < event) (Hrel : reliable).

Abbreviation P := (event + ev_event_pool).
Abbreviation hands := (handles event hr hd ha pr pw).
Abbreviation cached_out := (caches event alc n).

(** ** The pool of sources *)

(** A source in the pool: no descriptor, no caches. *)
Definition idle (e : Z) : iProp Σ :=
  (e + elm_root) ↦ P ∗ padding e sizeof_elm [0; elm_root] ∗ (e + sizeof_elm) ↦? ∗
  ∃ w, source_at (e + sizeof_elm) QP_FD_INVALID w None None.

Definition event_pool (fr : list Z) : iProp Σ :=
  shell P R sizeof_source N palc fr ∗ [∗ list] e ∈ fr, idle e.

(** A source in use: its element, its descriptor and flags, and its caches. *)
Record osrc := MkOsrc { o_elm : Z; o_fd : Z; o_w : Z; o_rc : option Z; o_wc : option Z }.
Definition o_src (o : osrc) : Z := o_elm o + sizeof_elm.
Definition o_caches (o : osrc) : list Z := option_list (o_rc o) ++ option_list (o_wc o).

(** Its link apart. *)
Definition in_use (o : osrc) : iProp Σ :=
  stub P R sizeof_source N (o_elm o) ∗ source_at (o_src o) (o_fd o) (o_w o) (o_rc o) (o_wc o).

(** The descriptor that is closed with the source. *)
Definition o_closes (o : osrc) : list Z :=
  if negb (get_bits src_closed (o_w o) =? 0) && negb (QP_FD_INVALID =? o_fd o) then [o_fd o] else [].

Lemma source_not_null e fr : e ∈ slots R sizeof_source N → event_pool fr ⊢ ⌜(e + sizeof_elm)%Z ≠ NULL⌝.
Proof.
  iIntros (He) "[([_ %Hr] & _) _]". iPureIntro. destruct (slots_bound _ _ _ _ Hr He).
  destruct Hr as (? & _). unfold NULL, sizeof_elm. lia.
Qed.

(** ** Removal *)

Lemma source_close_spec s fd w u Φ :
  s ≠ NULL → (s + src_bits) ↦ w -∗ (s + src_source_fd) ↦ fd -∗
  (∀ u', ⌜closes (o_closes (MkOsrc 0 fd w None None)) u u'⌝ -∗ (s + src_bits) ↦ w -∗
     (s + src_source_fd) ↦ QP_FD_INVALID -∗ Φ QP_SUCCESS u') -∗
  xwp (qp_event_source_close s) u Φ.
Proof.
  iIntros (Hs) "Hb Hfd HΦ". unfold qp_event_source_close, o_closes. cbn [o_fd o_w].
  rw (proj2 (Z.eqb_neq _ _) Hs). xstep. xstep. iApply (src_get_spec with "Hb"); [done|].
  iIntros "Hb". xstep. xstep. xstep.
  change (if get_bits src_closed w =? 0 then false else true) with (negb (get_bits src_closed w =? 0)).
  change (if QP_FD_INVALID =? fd then false else true) with (negb (QP_FD_INVALID =? fd)).
  destruct (_ && _); repeat xstep; iApply ("HΦ" with "[%] Hb Hfd"); [apply saying_close|done].
Qed.

(** In a pool that is in order, or is not: [Pin] is what it takes to give the source back. *)
Lemma remove_source_spec (Pin Pout : iProp Σ) s fd w rc wc held u :
  s ≠ NULL → epolls event efd u →
  (∀ Φ, Pin -∗ (Pout -∗ Φ QP_SUCCESS) -∗ hwp (qp_pool_free P s) Φ) →
  cached_out ((option_list rc ++ option_list wc) ++ held) -∗ Pin -∗ hands -∗ source_at s fd w rc wc -∗
  xwp (qp_event_removeevent event s) u (λ r u',
    ⌜r = QP_SUCCESS ∧ closes (o_closes (MkOsrc 0 fd w None None)) u u'⌝ ∗
    cached_out held ∗ Pout ∗ hands ∗ source_at s QP_FD_INVALID w None None).
Proof using Hevent.
  iIntros (Hs Hu Hfree) "Hm Hp (Hr & Hd & Hh) Hs".
  iDestruct "Hs" as (ev ed) "(Hi & Hb & Hfd & Hev & Hed & Hrc & Hwc & Ht)".
  unfold qp_event_removeevent. nonnull event. rw (proj2 (Z.eqb_neq _ _) Hs). cbn [orb].
  do 4 xstep.
  iApply (xwp_wand _ _ (λ _ u1, ⌜quiet u u1⌝ ∗ (s + src_source_fd) ↦ fd)%I with "[Hfd]").
  { destruct (hd =? NULL); cbn [negb]; [xstep; by iFrame|]. xstep. cbn [ev_del epoll].
    unfold qp_event_evpoll_del. xstep. iApply (event_fd_of_spec _ (fd_fd efd)); [done|by apply epolls_fd|]. repeat xstep.
    iFrame. iPureIntro. by apply saying_quiet. }
  iIntros (_ u1) "[%Hq Hfd]". xstep. iApply (source_close_spec with "Hb Hfd"); [done|].
  iIntros (u2 Hc) "Hb Hfd". xstep. xstep.
  iApply (free_read_cache_spec event s alc n rc (option_list wc ++ held) with "[Hm] Hrc");
    [unfold NULL; lia|done|by rw app_assoc|]. iIntros (_) "Hm Hrc". xstep. xstep.
  iApply (free_write_spec event alc n Hevent s wc held with "Hm Hwc Ht"); [done|].
  iIntros (_) "Hm Hwc Ht". xstep. xstep. iApply (Hfree with "Hp"). iIntros "Hp". xstep.
  iFrame "Hm Hp Hr Hd Hh". iSplit; [iPureIntro; split; [done|by eapply quiet_closes]|].
  iExists ev, ed. iFrame.
Qed.

Lemma remove_spec o held fr u :
  epolls event efd u →
  cached_out (o_caches o ++ held) -∗ event_pool fr -∗ hands -∗ in_use o -∗ (o_src o) ↦? -∗
  xwp (qp_event_removeevent event (o_src o)) u (λ r u', ⌜r = QP_SUCCESS ∧ closes (o_closes o) u u'⌝ ∗
    cached_out held ∗ event_pool (o_elm o :: fr) ∗ hands).
Proof using Hevent.
  destruct o as [e fd w rc wc]. unfold in_use, o_src, o_caches. cbn [o_elm o_fd o_w o_rc o_wc].
  iIntros (Hu) "Hm Hp Hh [(%He & Hlk & Hroot & Hpad) Hs] Hlink".
  iDestruct (source_not_null with "Hp") as %Hs; [done|]. iDestruct "Hp" as "[Hp Hfr]".
  iApply (xwp_wand with "[Hm Hp Hh Hs Hlk Hroot]").
  { iApply (remove_source_spec (shell P R sizeof_source N palc fr ∗ e ↦? ∗ (e + elm_root) ↦ P)
      (shell P R sizeof_source N palc (e :: fr) ∗ (e + elm_root) ↦ P)
      with "Hm [$Hp $Hlk $Hroot] Hh Hs"); [done..|].
    iIntros (Φ) "(Hp & Hlk & Hroot) HΦ". iApply (shell_free_spec with "Hp Hlk Hroot"); [done|].
    iIntros "Hp Hroot". iApply ("HΦ" with "[$Hp $Hroot]"). }
  iIntros (r u') "(% & $ & [Hp Hroot] & $ & Hs)". iSplit; [done|]. iFrame "Hp". cbn [big_opL]. iFrame "Hfr".
  unfold idle. iFrame "Hroot Hpad Hlink". by iExists w.
Qed.

(** ** Registration *)

Lemma clear_flag_spec s w Φ :
  s ≠ NULL → (s + src_bits) ↦ w -∗ (∀ w', (s + src_bits) ↦ w' -∗ Φ tt) -∗
  hwp (qp_event_source_clear_flag s) Φ.
Proof.
  iIntros (Hs) "Hb HΦ". unfold qp_event_source_clear_flag. rw (proj2 (Z.eqb_neq _ _) Hs).
  do 7 (hstep; iApply (src_put_spec with "Hb"); [done|]; iIntros "Hb").
  iApply (src_put_spec with "Hb"); [done|]. iIntros "Hb". by iApply "HΦ".
Qed.

(** [epoll_ctl] is told about the source, after its descriptor was made non-blocking when
    that is wanted. *)
Lemma epoll_add_spec s ev nb fd u Φ :
  epolls event efd u →
  (s + src_noblock) ↦ nb -∗ (s + src_events) ↦ ev -∗ (s + src_source_fd) ↦ fd -∗
  (∀ r u', ⌜quiet u u'⌝ -∗ (s + src_noblock) ↦ nb -∗ (s + src_events) ↦ ev -∗
     (s + src_source_fd) ↦ fd -∗ Φ r u') -∗
  xwp (qp_event_evpoll_add event s) u Φ.
Proof using Hevent.
  iIntros (Hu) "Hnb Hev Hfd HΦ". unfold qp_event_evpoll_add. do 4 xstep.
  iApply (xwp_wand _ _ (λ _ u1, ⌜quiet u u1⌝ ∗ (s + src_source_fd) ↦ fd)%I with "[Hfd]").
  { destruct (nb =? 0); cbn [negb]; [xstep; by iFrame|]. repeat xstep. iFrame. iPureIntro.
    etrans; [|by apply saying_quiet]. by apply saying_quiet. }
  iIntros (_ u1) "[%Hq Hfd]". do 4 xstep. iApply (event_fd_of_spec _ (fd_fd efd)); [done|by eapply epolls_fd, epolls_closes|].
  repeat xstep. iApply ("HΦ" with "[%] Hnb Hev Hfd"). etrans; [exact Hq|by apply saying_quiet].
Qed.

Lemma add_spec fd timeout listen auto_close held fr u :
  epolls event efd u → cached_out held -∗ event_pool fr -∗ hands -∗
  xwp (qp_event_addevent event fd timeout listen auto_close) u (λ r u',
    ⌜quiet u u'⌝ ∗ cached_out held ∗ hands ∗
    (⌜r = QP_ERROR⌝ ∗ (∃ fr', ⌜fr' ≡ₚ fr⌝ ∗ event_pool fr') ∨
     ⌜r = QP_SUCCESS ∧ QP_FD_INVALID < fd⌝ ∗ ∃ e fr' w, ⌜fr = e :: fr' ∧
         get_bits src_closed w = Z.land auto_close 1 ∧ get_bits src_listen w = Z.land listen 1⌝ ∗
       event_pool fr' ∗ in_use (MkOsrc e fd w None None) ∗ (e + sizeof_elm) ↦?)).
Proof using Hevent.
  iIntros (Hu) "Hm [Hp Hfr] (Hr & Hd & Ha & Hh)". unfold qp_event_addevent. nonnull event.
  xstep. xstep. xstep. destruct (Z.eqb_spec ha NULL) as [_|_].
  { xstep. iFrame "Hm Hr Hd Ha Hh". iSplit; [done|]. iLeft. iSplit; [done|]. iExists fr. by iFrame. }
  xstep. xstep. iApply (shell_available_spec with "Hp"). iIntros "Hp".
  destruct fr as [|e fr].
  { change (Z.of_nat (length [])) with 0. rw Z.eqb_refl. cbn [negb andb]. xstep. iFrame "Hm Hr Hd Ha Hh".
    iSplit; [done|]. iLeft. iSplit; [done|]. iExists []. by iFrame. }
  destruct (Z.ltb_spec QP_FD_INVALID fd) as [Hfdv|_].
  2: { rw andb_false_r. xstep. iFrame "Hm Hr Hd Ha Hh". iSplit; [done|]. iLeft. iSplit; [done|]. iExists _. by iFrame. }
  rw (proj2 (Z.eqb_neq (Z.of_nat _) 0)); [|cbn; lia]. cbn [negb andb]. xstep. xstep.
  iApply (shell_alloc_spec with "Hp"). iSplit; [iIntros ([?|?]); [unfold sizeof_source in *; lia|done]|].
  iIntros (e' fr' (_ & [= <- <-] & He)) "Hp Hlk". cbn [big_opL].
  iDestruct "Hfr" as "[(Hroot & Hpad & Hlink & %w0 & Hs) Hfr]".
  iAssert ⌜(e + sizeof_elm)%Z ≠ NULL⌝%I as %Hs; [by iApply (source_not_null with "[$Hp $Hfr]")|].
  set (s := e + sizeof_elm) in *.
  iDestruct "Hs" as (ev ed) "((%idx & %re & %to & %nb & Hx & Hre & Hto & Hnb & Hip) & Hb & Hfd & Hev & Hed & Hrc & Hwc & Ht)".
  xstep. xstep. iApply (clear_flag_spec with "Hb"); [done|]. iIntros (w1) "Hb". xstep. xstep.
  iApply (src_put_spec with "Hb"); [done|]. iIntros "Hb". xstep. xstep.
  iApply (src_put_spec with "Hb"); [done|]. iIntros "Hb". set (w2 := put_bits src_closed _ _).
  do 10 xstep. cbn [ev_add epoll]. iApply (epoll_add_spec with "Hnb Hev Hfd"); [done|].
  iIntros (r u1 Hq) "Hnb Hev Hfd". destruct (r =? QP_ERROR).
  - do 3 xstep. xstep. iApply (xwp_wand with "[-]").
    { iApply (remove_spec (MkOsrc e QP_FD_INVALID w2 None None) held fr with
        "Hm [$Hp $Hfr] [$Hr $Hd $Ha $Hh] [-Hlink] Hlink"); [by eapply epolls_closes|].
      iSplitL "Hlk Hroot Hpad"; [by iFrame|]. iExists ev, ed. iFrame. }
    iIntros (r' u') "((_ & %Hc) & Hm & Hp & Hh)". xstep. iFrame "Hm Hh".
    assert (o_closes (MkOsrc e QP_FD_INVALID w2 None None) = []) as E by (unfold o_closes; cbn; by rw andb_false_r).
    rw E in Hc. iSplit; [iPureIntro; by etrans|]. iLeft. iSplit; [done|]. iExists _. by iFrame.
  - xstep. xstep. iApply (src_get_spec with "Hb"); [done|]. iIntros "Hb". xstep. xstep.
    iApply (src_put_spec with "Hb"); [done|]. iIntros "Hb". xstep. iFrame "Hm Hr Hd Ha Hh".
    iSplit; [done|]. iRight. iSplit; [done|]. iExists e, fr, _. iFrame "Hp Hfr". iSplit.
    2: { iSplitR "Hlink"; [|done]. iSplitL "Hlk Hroot Hpad"; [by iFrame|].
         iExists ev, ed. iFrame. }
    iPureIntro. split; [done|]. unfold w2. rw !(get_put_other _ src_stat) // (get_put_other src_listen src_closed) //.
    by rw !get_put_bits.
Qed.

(** ** One ready source *)

(** The same source later. *)
Definition later (o o' : osrc) : Prop :=
  o_elm o' = o_elm o ∧ o_fd o' = o_fd o ∧ kept marks (o_w o) (o_w o').

Lemma later_closes o o' : later o o' → o_closes o' = o_closes o.
Proof.
  intros (_ & Hfd & Hw). unfold kept in Hw. apply Forall_cons in Hw as [Hw _].
  unfold o_closes. by rw Hfd Hw.
Qed.

Lemma mark_ready_spec s w Φ :
  s ≠ NULL → src_info s -∗ (s + src_bits) ↦ w -∗
  (∀ w', ⌜kept marks w w' ∧ get_bits src_read w' = 1⌝ -∗ src_info s -∗ (s + src_bits) ↦ w' -∗ Φ tt) -∗
  hwp (mark_ready s) Φ.
Proof.
  iIntros (Hs) "(%idx & %re & %to & %nb & Hx & Hre & Hi) Hb HΦ". unfold mark_ready.
  do 3 (hstep; iApply (src_get_spec with "Hb"); [done|]; iIntros "Hb"; hstep; hstep;
    try (hstep; iApply (src_put_spec with "Hb"); [done|]; iIntros "Hb")).
  iApply (src_put_spec with "Hb"); [done|]. iIntros "Hb".
  change (put_bits src_write _ _) with (marked w re).
  iApply ("HΦ" with "[%] [Hx Hre Hi] Hb"); [|iExists _; iFrame].
  split; [apply marked_kept|apply marked_read].
Qed.

(** The handlers' turn: a source that is not being written. *)
Lemma process_stage s fd w rc wc held u :
  s ≠ NULL → epolls event efd u →
  cached_out (option_list rc ++ option_list wc ++ held) -∗ source_at s fd w rc wc -∗ hands -∗
  xwp (wcache ← mem (load (s + src_write_cache));
       if wcache =? NULL then
         rcache ← mem (load (s + src_read_cache));
         (if negb (rcache =? NULL) then process_read event s else mret tt);;
         wcache ← mem (load (s + src_write_cache));
         if negb (wcache =? NULL) then process_write event s else mret tt
       else mret tt) u (λ _ u', ∃ w' rc' wc', ⌜kept marks w w' ∧ quiet u u'⌝ ∗
    cached_out (option_list rc' ++ option_list wc' ++ held) ∗ source_at s fd w' rc' wc' ∗ hands).
Proof using Hevent Hrel.
  iIntros (Hs Hu) "Hm (%ev & %ed & Hi & Hb & Hfd & Hev & Hed & Hrc & Hwc & Ht) Hh".
  xstep. xstep. xstep. destruct wc as [c|]; cbn [default option_list app].
  { iDestruct "Ht" as (l cur [Hc Hcur]) "Ht". rw (proj2 (Z.eqb_neq _ _) Hc). xstep.
    iExists w, rc, (Some c). iFrame "Hm Hh". iSplit; [done|]. iExists ev, ed. by iFrame. }
  rw Z.eqb_refl. xstep. xstep. destruct rc as [c|]; cbn [read_slot option_list app].
  2: { iDestruct "Hrc" as "(Hrc & Hsz & Hoff)". xstep. rw Z.eqb_refl. cbn [negb]. repeat xstep.
       rw Z.eqb_refl. cbn [negb]. xstep. iExists w, None, None. iFrame "Hm Hh". iSplit; [done|].
       iExists ev, ed. iFrame. }
  iDestruct "Hrc" as (l) "(%Hc & Hrc & Hsz & Hoff & Hl)". xstep. rw (proj2 (Z.eqb_neq _ _) Hc).
  cbn [negb]. xstep. iApply (xwp_wand with "[-]").
  { iApply (process_read_spec with "Hm [-Hh] Hh"); [done..|]. iExists ev, ed. by iFrame. }
  iIntros (_ u1) "(%w1 & [%Hw1 %Hq] & Hh & [[Hm Hs]|(%c' & %Hpw & Hm & Hs)])".
  - iDestruct "Hs" as (ev1 ed1) "(Hi & Hb & Hfd & Hev & Hed & Hrc & Hwc & Ht)". repeat xstep.
    rw Z.eqb_refl. cbn [negb]. xstep. iExists w1, None, None. iFrame "Hm Hh". iSplit; [done|].
    iExists ev1, ed1. iFrame.
  - iDestruct "Hs" as (ev1 ed1) "(Hi & Hb & Hfd & Hev & Hed & Hrc & Hwc & %Hc' & Ht)". repeat xstep.
    rw (proj2 (Z.eqb_neq _ _) Hc'). cbn [negb].
    iApply (xwp_wand with "[-]").
    { iApply (process_write_spec event alc n hr hd ha pr pw efd Hevent (rel_handler Hrel)
        with "Hm [-Hh] Hh"); [done..|by eapply epolls_closes|]. iExists ev1, ed1. by iFrame. }
    iIntros (_ u2) "(%w2 & %wc & [%Hw2 %Hq2] & Hh & Hm & Hs)". iExists w2, None, wc.
    iFrame "Hm Hh Hs". iPureIntro. split; by etrans.
Qed.

Lemma dispatch_source_spec o held fr u :
  epolls event efd u →
  cached_out (o_caches o ++ held) -∗ event_pool fr -∗ hands -∗ in_use o -∗ (o_src o) ↦? -∗
  xwp (dispatch_source event (o_src o)) u (λ _ u', hands ∗
    ((∃ o', ⌜later o o' ∧ quiet u u'⌝ ∗ cached_out (o_caches o' ++ held) ∗ event_pool fr ∗
        in_use o' ∗ (o_src o) ↦?) ∨
     ⌜closes (o_closes o) u u'⌝ ∗ cached_out held ∗ event_pool (o_elm o :: fr))).
Proof using Hevent Hrel.
  iIntros (Hu) "Hm Hp Hh [Hst Hs] Hlink". iDestruct "Hst" as "(%He & Hst)".
  iDestruct (source_not_null with "Hp") as %Hs; [done|]. change (o_elm o + sizeof_elm) with (o_src o) in Hs.
  destruct o as [e fd w rc wc]. cbn [o_elm o_fd o_w o_rc o_wc] in *. unfold o_caches.
  set (s := o_src (MkOsrc e fd w rc wc)) in *. cbn [o_rc o_wc].
  iDestruct "Hs" as (ev ed) "(Hi & Hb & Hs)". unfold dispatch_source. xstep. xstep.
  iApply (mark_ready_spec with "Hi Hb"); [done|]. iIntros (w1 [Hw1 Hrd]) "Hi Hb".
  do 3 (xstep; xstep; iApply (src_get_spec with "Hb"); [done|]; iIntros "Hb").
  rw Hrd. set (x := Z.lor _ _). assert (x ≠ 0) as Hx.
  { intros [Hx _]%Z.lor_eq_0_iff. by apply Z.lor_eq_0_iff in Hx as [_ ?]. }
  rw (proj2 (Z.eqb_neq _ _) Hx). clear x Hx. xstep.
  iApply (xwp_wand _ _ (λ _ u', ⌜u' = u⌝ ∗ ∃ w2, ⌜kept [src_closed; src_listen; src_read] w1 w2⌝ ∗
    (s + src_bits) ↦ w2)%I with "[Hb]").
  { destruct (_ =? 0); cbn [negb]; xstep; [by iFrame|]. iApply (set_shutdown_spec with "Hb"); [done|].
    iIntros "Hb". iSplit; [done|]. iExists _. iFrame. iPureIntro. kept. }
  iIntros (_ u') "(-> & %w2 & %Hw2 & Hb)". xstep. iApply (xwp_wand with "[Hm Hi Hb Hs]").
  { iApply (write_stage event alc n Hevent (rel_write Hrel) s fd w2 rc wc held u with "[Hm] [Hi Hb Hs]");
      [done|by rw app_assoc|]. iExists ev, ed. iFrame. }
  iIntros (_ u1) "(%w3 & %rc1 & %wc1 & [%Hw3 %Hq1] & Hm & Hs)". xstep.
  assert (get_bits src_read w3 ≠ 0) as Hrd3.
  { apply Forall_cons in Hw3 as [_ Hw3], Hw2 as [_ Hw2]. apply Forall_cons in Hw3 as [_ Hw3], Hw2 as [_ Hw2].
    apply Forall_cons in Hw3 as [Hw3 _], Hw2 as [Hw2 _]. by rw Hw3 Hw2 Hrd. }
  iApply (xwp_wand with "[Hm Hs Hh]").
  { iApply (read_stage event alc n hr hd ha pr pw efd Hevent (rel_read Hrel) with "Hm Hs Hh"); [done..|].
    by eapply epolls_closes. }
  iIntros (_ u2) "(%w4 & %rc2 & [%Hw4 %Hq2] & Hm & Hs & Hh)". iApply xwp_assoc. xstep.
  iApply (xwp_wand with "[Hm Hs Hh]").
  { iApply (process_stage with "Hm Hs Hh"); [done|]. eapply epolls_closes; [|exact Hu]. by etrans. }
  iIntros (_ u3) "(%w5 & %rc3 & %wc3 & [%Hw5 %Hq3] & Hm & Hs & Hh)".
  set (o := MkOsrc e fd w rc wc). set (o' := MkOsrc e fd w5 rc3 wc3).
  assert (later o o') as Hl.
  { split_and!; [done..|]. cbn. etrans; [exact Hw1|]. etrans; [|exact Hw5]. etrans; [|exact Hw4].
    etrans; by eapply kept_marks. }
  assert (quiet u u3) as Hq by (etrans; [exact Hq1|]; by etrans).
  iAssert (cached_out (o_caches o' ++ held)) with "[Hm]" as "Hm"; [by rw /o_caches -app_assoc|].
  iDestruct "Hs" as (ev1 ed1) "(Hi & Hb & Hs)". xstep. xstep.
  iApply (src_get_spec with "Hb"); [done|]. iIntros "Hb". destruct (_ =? 0); cbn [negb].
  - xstep. iFrame "Hh". iLeft. iExists o'. iFrame "Hm Hp Hlink". iSplit; [done|].
    iSplitL "Hst"; [by iFrame|]. iExists ev1, ed1. iFrame.
  - xstep. iApply (xwp_wand with "[-]").
    { iApply (remove_spec o' held fr u3 with "Hm Hp Hh [Hst Hi Hb Hs] Hlink"); [by eapply epolls_closes|].
      iSplitL "Hst"; [by iFrame|]. iExists ev1, ed1. iFrame. }
    iIntros (r u4) "([_ %Hc] & Hm & Hp & Hh)". xstep. iFrame "Hh". iRight. iFrame.
    iPureIntro. rw -(later_closes _ _ Hl). by eapply quiet_closes.
Qed.
End loop.
