(* ===== verification/LoopState.v ===== *)
(** The state of the event loop between its operations: the books of what was handed over
    to it, and its lists of sources; what the queues and [accept] do to them. *)

From S2P Require Import RbModel RbTree.
From S2P Require Import Prelude Bits World Bytes Atomic Io Heap Links Pool Manager ManagerSpec.
From S2P Require Import ManagerProps Caches EvState Event Dispatch EventProps EventIo EventOut.
From S2P Require Import Sources Loop.
#[local] Open Scope Z_scope.

(** What is remembered of a source: its descriptor, and whether it is closed with it; what
    [accept] brought comes in to be closed. *)
Definition tag : Type := Z * bool.
Definition tag_closes (t : tag) : list Z := if t.2 then [t.1] else [].
Definition arrived (t : list World.event) : list tag :=
  (λ fd, (fd, true)) <$> filter (λ fd, fd ≠ QP_FD_INVALID) (accepts_in t).

(** How often [accept] succeeded since it last failed. *)
Definition streak_of (l : list Z) : nat :=
  foldl (λ k r, if r =? QP_FD_INVALID then O else S k) O l.

(** No more than [fuel - 1] clients come in at a time. *)
Definition accepts_end `{OS} (fuel : nat) : Prop :=
  ∀ t args, (fuel ≤ S (streak_of (accepts_in t)))%nat →
    a_ret (os_answer t "accept" args []) = QP_FD_INVALID.

(** [qp_list_push] of one reported source, unless it is not registered: what the loop
    over the bucket means to do. *)
Definition report `{OS} `{EvHandle} (event : Z) (i : nat) (revents : Z) : EV unit :=
  source ← mem (qp_pool_to_array (event + ev_event_pool) (Z.of_nat i));
  fd ← mem (load (source + src_source_fd));
  if QP_FD_INVALID =? fd then mret tt else
  mem (store (source + src_revents) revents);;
  listen ← mem (src_get src_listen source);
  mem (qp_list_push (if negb (listen =? 0) then event + ev_listen_ready else event + ev_ready) source).

Section loop.
Context `{OS} `{!heapGS Σ}.
#[local] Existing Instance epoll.
Context (event alc : Z) (n : nat) (hr hd ha pr pw : Z) (efd : qp_fd_s) (R palc : Z) (N : nat).
Context (Hevent : 0 < event) (Hrel : reliable).

Abbreviation P := (event + ev_event_pool).
Abbreviation hands := (handles event hr hd ha pr pw).
Abbreviation cached_out := (caches event alc n).
Abbreviation event_pool := (Loop.event_pool event R palc N).
Abbreviation in_use := (Loop.in_use event R N).

(** ** The books *)

(** A registered source, which may listen. *)
Definition o_tag (o : osrc) : tag := (o_fd o, negb (get_bits src_closed (o_w o) =? 0)).
Definition o_ok (o : osrc) : Prop := QP_FD_INVALID ≠ o_fd o.

(** What was handed over, by the program or by [accept], is open or gone; of what is gone
    the descriptors are closed, in that order; every source is in use or in the pool. *)
Definition ledger (c0 : list Z) (handed : list tag) (os : list osrc) (fr : list Z) (u : rest) : Prop :=
  (∃ gone, handed ++ arrived (w_trace (r_world u)) ≡ₚ gone ++ (o_tag <$> os) ∧
     closed_in (w_trace (r_world u)) = c0 ++ (gone ≫= tag_closes)) ∧
  fr ++ (o_elm <$> os) ≡ₚ slots R sizeof_source N ∧ Forall o_ok os ∧ epolls event efd u.

Lemma o_tag_closes o : o_ok o → tag_closes (o_tag o) = o_closes o.
Proof.
  intros Hfd. unfold tag_closes, o_tag, o_closes. cbn [fst snd].
  rw (proj2 (Z.eqb_neq _ _) Hfd). by rw andb_true_r.
Qed.

Lemma later_ok o o' : later o o' → o_ok o → o_ok o' ∧ o_tag o' = o_tag o.
Proof.
  intros (_ & Hfd & Hw) H1. unfold kept in Hw. apply Forall_cons in Hw as [Hw1 _].
  unfold o_ok, o_tag. by rw Hfd Hw1.
Qed.

Lemma ledger_perm c0 handed os os' fr fr' u :
  os ≡ₚ os' → fr ≡ₚ fr' → ledger c0 handed os fr u → ledger c0 handed os' fr' u.
Proof.
  intros Hp Hf ((gone & Hg & Hc) & Hfr & Hok & Hu).
  split_and!; [exists gone; by rw -Hp|by rw -Hp -Hf|by rw -Hp|done].
Qed.

Lemma ledger_quiet c0 handed os fr u u' : quiet u u' → ledger c0 handed os fr u → ledger c0 handed os fr u'.
Proof.
  intros Hq ((gone & Hg & Hc) & Hfr & Hok & Hu).
  split_and!; [|done|done|by eapply epolls_closes]. destruct Hq as [_ Hcl Ha].
  exists gone. unfold arrived. by rw Ha Hcl Hc app_nil_r.
Qed.

(** A source was dealt with: it stays, or it is gone. *)
Lemma ledger_stays c0 handed o o' os fr u :
  later o o' → ledger c0 handed (o :: os) fr u → ledger c0 handed (o' :: os) fr u.
Proof.
  intros Hl ((gone & Hh & Hc) & Hfr & Hok & Hu). apply Forall_cons in Hok as [Ho Hok].
  destruct (later_ok _ _ Hl Ho) as [Ho' Htag]. cbn [fmap list_fmap] in *. split_and!.
  - exists gone. cbn [fmap list_fmap]. by rw Htag.
  - destruct Hl as (Hl & _). cbn [fmap list_fmap]. by rw Hl.
  - by apply Forall_cons.
  - done.
Qed.

Lemma ledger_gone c0 handed o os fr u u' :
  closes (o_closes o) u u' → ledger c0 handed (o :: os) fr u →
  ledger c0 handed os (o_elm o :: fr) u'.
Proof.
  intros Hq ((gone & Hh & Hc) & Hfr & Hok & Hu). apply Forall_cons in Hok as [Ho Hok].
  cbn [fmap list_fmap] in *. split_and!.
  - exists (gone ++ [o_tag o]). destruct Hq as [_ Hcl Ha]. unfold arrived in *. rw Ha. split.
    + rw Hh. solve_Permutation.
    + rw Hcl Hc bind_app. cbn [mbind list_bind].
      by rw app_nil_r (o_tag_closes _ Ho) app_assoc.
  - rw -Hfr. solve_Permutation.
  - done.
  - by eapply epolls_closes.
Qed.

(** ** The event with its sources *)

Definition all_caches (os : list osrc) : list Z := os ≫= o_caches.

(** Sources that listen and are ready, that are ready to be read or written, and that are
    on neither list. *)
Definition loop_parts (listening ready waiting : list osrc) (fr : list Z) : iProp Σ :=
  cached_out (all_caches (listening ++ ready ++ waiting)) ∗
  event_pool fr ∗ hands ∗ is_list (event + ev_listen_ready) (o_src <$> listening) ∗
  is_list (event + ev_ready) (o_src <$> ready) ∗
  ([∗ list] o ∈ (listening ++ ready ++ waiting), in_use o) ∗
  [∗ list] o ∈ waiting, (o_src o) ↦?.

Definition loop_state (c0 : list Z) (handed : list tag) (listening ready waiting : list osrc)
    (u : rest) : iProp Σ :=
  ∃ fr, ⌜ledger c0 handed (listening ++ ready ++ waiting) fr u⌝ ∗
    loop_parts listening ready waiting fr.

(** The caches and sources may be listed in any order. *)
Lemma sources_perm os os' :
  os ≡ₚ os' → cached_out (all_caches os) -∗ ([∗ list] o ∈ os, in_use o) -∗
  cached_out (all_caches os') ∗ [∗ list] o ∈ os', in_use o.
Proof.
  iIntros (Hp) "Hm Ho". iSplitL "Hm"; [iApply (mheld_perm with "Hm"); unfold all_caches; by rw Hp|].
  iEval (rw (big_opL_permutation _ _ _ Hp)) in "Ho". done.
Qed.

Lemma all_caches_cons o os : all_caches (o :: os) = o_caches o ++ all_caches os.
Proof. apply bind_cons. Qed.

Lemma list_fuel l xs Φ :
  is_list l xs -∗ (∀ k, ⌜(length xs < k)%nat⌝ -∗ is_list l xs -∗ Φ k) -∗ hwp heap_fuel Φ.
Proof.
  iApply hwp_fuel.
  - unfold is_list. rw chain_nodup. by iIntros (Hnd%NoDup_cons_1_2).
  - unfold is_list. rw chain_cells. iIntros "[_ $]".
Qed.

(** ** The ready list *)

Lemma queue_round c0 handed ready waiting u :
  loop_state c0 handed [] ready waiting u -∗
  xwp (queue_body event tt) u (λ r u', match r with
    | inl _ => ∃ o ready' waiting', ⌜ready = o :: ready'⌝ ∗ loop_state c0 handed [] ready' waiting' u'
    | inr _ => ⌜ready = []⌝ ∗ loop_state c0 handed [] [] waiting u'
    end).
Proof using Hevent Hrel.
  iIntros "(%fr & %Hled & Hm & Hp & Hh & Hlr & Hl & Huse & Hlinks)". unfold queue_body. cbn [app] in *.
  xstep. xstep. iApply (list_is_empty_spec with "Hl"). iIntros "Hl".
  destruct ready as [|o ready]; cbn [fmap list_fmap app].
  { rw bool_decide_eq_true_2 //. xstep. iSplit; [done|]. iExists fr. by iFrame. }
  rw bool_decide_eq_false_2 //. xstep. xstep. iApply (list_first_spec with "Hl"). iIntros "Hl".
  cbn [head default]. unfold qp_list_data. rw Z.sub_0_r. xstep. xstep.
  iApply (chain_pop_spec with "Hl"). iIntros "Hl Hlink".
  pose proof Hled as (_ & _ & _ & Hu). rw all_caches_cons.
  iDestruct (big_sepL_cons with "Huse") as "[Ho Huse]".
  xstep. iApply (xwp_wand with "[Hm Hp Hh Ho Hlink]").
  { by iApply (dispatch_source_spec with "Hm Hp Hh Ho Hlink"). }
  iIntros (_ u') "[Hh [(%o' & [%Hl %Hq] & Hm & Hp & Ho & Hlink)|(%Hc & Hm & Hp)]]"; xstep.
  - assert (o' :: ready ++ waiting ≡ₚ ready ++ o' :: waiting) as Hperm by solve_Permutation.
    rw -all_caches_cons. iDestruct (sources_perm _ _ Hperm with "Hm [$Ho $Huse]") as "[Hm Huse]".
    iExists o, ready, (o' :: waiting). iSplit; [done|]. iExists fr. iFrame "Hm Hp Hh Hlr Hl Huse". iSplit.
    { iPureIntro. apply (ledger_perm _ _ _ _ _ _ _ Hperm (reflexivity fr)).
      by apply (ledger_stays _ _ o), (ledger_quiet _ _ _ _ _ _ Hq). }
    cbn [big_opL]. iFrame "Hlinks". destruct Hl as (Hl & _). unfold o_src. by rw Hl.
  - iExists o, ready, waiting. iSplit; [done|]. iExists _. iFrame. iPureIntro.
    by apply (ledger_gone _ _ _ _ _ _ _ Hc).
Qed.

Lemma dispatch_queue_spec c0 handed ready waiting u :
  loop_state c0 handed [] ready waiting u -∗
  xwp (qp_event_dispatch_queue event) u (λ _ u', ∃ waiting', loop_state c0 handed [] [] waiting' u').
Proof using Hevent Hrel.
  iIntros "Hs". unfold qp_event_dispatch_queue. nonnull event. xstep. xstep.
  iDestruct "Hs" as "(%fr & %Hled & Hm & Hp & Hh & Hlr & Hl & Hs)".
  iApply (list_fuel with "Hl"). iIntros (k Hk) "Hl". rw length_fmap in Hk.
  iApply (xwp_loop (λ m _ u, ∃ ready waiting, ⌜length ready = m⌝ ∗ loop_state c0 handed [] ready waiting u)%I
    with "[-]"); [|exact Hk|].
  - iIntros (m [] u') "(%rd & %wt & <- & Hs)". iApply (xwp_wand with "[Hs]"); [by iApply queue_round|].
    iIntros ([[]|[]] u2) "Hs".
    + iDestruct "Hs" as (o rd' wt') "[-> Hs]". iExists (length rd'). iSplit; [iPureIntro; cbn; lia|].
      iExists rd', wt'. by iFrame.
    + iDestruct "Hs" as "[_ Hs]". iExists wt. iFrame.
  - iExists ready, waiting. iSplit; [done|]. iExists fr. by iFrame.
Qed.

(** ** What is reported, and what is registered *)

(** A source, for a look at its fields. *)
Lemma source_in_use o lst ready waiting fr :
  o ∈ lst ++ ready ++ waiting →
  loop_parts lst ready waiting fr -∗ in_use o ∗ (in_use o -∗ loop_parts lst ready waiting fr).
Proof.
  iIntros (Ho) "($ & $ & $ & $ & $ & Huse & $)". apply list_elem_of_lookup in Ho as [k Hk].
  by iApply (big_sepL_lookup_acc with "Huse").
Qed.

Lemma in_use_not_null o lst ready waiting fr :
  o ∈ lst ++ ready ++ waiting → loop_parts lst ready waiting fr ⊢ ⌜o_src o ≠ NULL⌝.
Proof.
  iIntros (Ho) "(_ & Hp & _ & _ & _ & Huse & _)". iDestruct (big_sepL_elem_of with "Huse") as "[[%He _] _]"; [done|].
  by iApply source_not_null.
Qed.

(** The source at the head of a list, or off the lists, and back. *)
Lemma parts_take lst ready l1 o l2 fr :
  loop_parts lst ready (l1 ++ o :: l2) fr -∗
  in_use o ∗ (o_src o) ↦? ∗ cached_out (o_caches o ++ all_caches (lst ++ ready ++ l1 ++ l2)) ∗
  event_pool fr ∗ hands ∗ is_list (event + ev_listen_ready) (o_src <$> lst) ∗
  is_list (event + ev_ready) (o_src <$> ready) ∗
  ([∗ list] o ∈ (lst ++ ready ++ l1 ++ l2), in_use o) ∗ [∗ list] o ∈ (l1 ++ l2), (o_src o) ↦?.
Proof.
  assert (lst ++ ready ++ l1 ++ o :: l2 ≡ₚ o :: lst ++ ready ++ l1 ++ l2) as Hperm by solve_Permutation.
  iIntros "(Hm & $ & $ & $ & $ & Huse & Hlinks)".
  iDestruct (sources_perm _ _ Hperm with "Hm Huse") as "[Hm Huse]". rw all_caches_cons. iFrame "Hm".
  cbn [big_opL]. iDestruct "Huse" as "[$ $]". rw !big_sepL_app. cbn [big_opL].
  iDestruct "Hlinks" as "($ & $ & $)".
Qed.

Definition slot (i : nat) : Z := R + Z.of_nat i * (sizeof_source + sizeof_elm).

Lemma slot_in i : (i < N)%nat → slot i ∈ slots R sizeof_source N.
Proof using R N. intros Hi. apply list_elem_of_fmap. exists i. split; [done|]. apply elem_of_seq. lia. Qed.

(** A source in the pool is passed over. *)
Lemma report_idle i revents lst ready waiting fr u Φ :
  (i < N)%nat → slot i ∈ fr → loop_parts lst ready waiting fr -∗
  (loop_parts lst ready waiting fr -∗ Φ tt u) -∗ xwp (report event i revents) u Φ.
Proof using Hevent.
  iIntros (Hi Hin) "(Hm & [Hp Hfr] & Hparts) HΦ". unfold report. xstep. xstep.
  iApply (shell_to_array_spec with "Hp"); [done|unfold ev_event_pool, NULL; lia|done|].
  iIntros "Hp". change (R + _ * _) with (slot i). apply list_elem_of_lookup in Hin as [k Hk].
  iDestruct (big_sepL_lookup_acc with "Hfr") as "[(Hroot & Hpad & Hlink & %w & Hs) Hfr]"; [done|].
  iDestruct "Hs" as (ev ed) "(Hi & Hb & Hfd & Hs)". xstep. xstep. xstep. rw Z.eqb_refl. xstep.
  iApply "HΦ". iFrame "Hm Hp Hparts". iApply "Hfr". iFrame "Hroot Hpad Hlink". iExists w, ev, ed. iFrame.
Qed.

(** One in use goes to the list it belongs to. *)
Lemma report_used i revents lst ready l1 o l2 fr u Φ :
  (i < N)%nat → slot i = o_elm o → o_ok o → loop_parts lst ready (l1 ++ o :: l2) fr -∗
  (loop_parts (o :: lst) ready (l1 ++ l2) fr ∨ loop_parts lst (o :: ready) (l1 ++ l2) fr -∗ Φ tt u) -∗
  xwp (report event i revents) u Φ.
Proof using Hevent.
  iIntros (Hi Ho Hofd) "Hparts HΦ". iDestruct (in_use_not_null o with "Hparts") as %Hs.
  { rw !elem_of_app. right. right. right. left. }
  iDestruct (parts_take with "Hparts") as "([Hst Hs] & [%v Hlink] & Hm & [Hp Hfr] & Hh & Hlr & Hl & Huse & Hlinks)".
  unfold report. xstep. xstep.
  iApply (shell_to_array_spec with "Hp"); [done|unfold ev_event_pool, NULL; lia|done|].
  iIntros "Hp". change (R + _ * _) with (slot i). rw Ho. change (o_elm o + sizeof_elm) with (o_src o).
  iDestruct "Hs" as (ev ed) "((%idx & %re & %to & %nb & Hx & Hre & Hi) & Hb & Hfd & Hs)".
  xstep. xstep. xstep. rw (proj2 (Z.eqb_neq _ _) Hofd). do 5 xstep.
  iApply (src_get_spec with "Hb"); [done|]. iIntros "Hb". xstep.
  iAssert (in_use o) with "[Hst Hx Hre Hi Hb Hfd Hs]" as "Ho"; [iFrame "Hst"; iExists ev, ed; iFrame|].
  rw -all_caches_cons.
  assert (o :: lst ++ ready ++ l1 ++ l2 ≡ₚ lst ++ (o :: ready) ++ l1 ++ l2) as Hperm by solve_Permutation.
  destruct (_ =? 0); cbn [negb].
  - iDestruct (sources_perm _ _ Hperm with "Hm [$Ho $Huse]") as "[Hm Huse]".
    iApply (chain_push_spec with "Hl Hlink"). iIntros "Hl". iApply "HΦ". iRight. unfold loop_parts.
    cbn [fmap list_fmap]. iFrame.
  - iApply (chain_push_spec with "Hlr Hlink"). iIntros "Hlr". iApply "HΦ". iLeft. unfold loop_parts.
    cbn [fmap list_fmap app big_opL]. iFrame.
Qed.

Lemma report_spec c0 handed lst ready waiting i revents u :
  (i < N)%nat → slot i ∉ (o_elm <$> lst ++ ready) → loop_state c0 handed lst ready waiting u -∗
  xwp (report event i revents) u (λ _ u', ∃ lst' ready' waiting',
    ⌜o_elm <$> lst' ++ ready' ⊆ slot i :: (o_elm <$> lst ++ ready)⌝ ∗
    loop_state c0 handed lst' ready' waiting' u').
Proof using All.
  iIntros (Hi Hni) "(%fr & %Hled & Hparts)". pose proof Hled as (_ & Hel & Hok & _).
  pose proof (slot_in i Hi) as Hin. rw -Hel app_assoc fmap_app in Hin.
  apply elem_of_app in Hin as [Hin|[Hin|(o & Ho & Hin)%list_elem_of_fmap]%elem_of_app]; [|done|].
  - iApply (report_idle with "Hparts"); [done..|]. iIntros "Hparts". iExists lst, ready, waiting.
    iSplit; [iPureIntro; set_solver|]. iExists fr. by iFrame.
  - apply list_elem_of_split in Hin as (l1 & l2 & ->). rw Forall_forall in Hok.
    iApply (report_used with "Hparts"); [done..|apply Hok; set_solver|]. iIntros "[Hparts|Hparts]".
    + iExists (o :: lst), ready, (l1 ++ l2). iSplit; [iPureIntro; cbn; rw Ho; set_solver|].
      iExists fr. iFrame "Hparts". iPureIntro. eapply ledger_perm; [|done|exact Hled]. solve_Permutation.
    + iExists lst, (o :: ready), (l1 ++ l2). iSplit; [iPureIntro; rw Ho !fmap_app; cbn; set_solver|].
      iExists fr. iFrame "Hparts". iPureIntro. eapply ledger_perm; [|done|exact Hled]. solve_Permutation.
Qed.

(** A source that is accepted joins those that wait. *)
Lemma add_parts_spec lst ready waiting fr fd timeout (listen auto : bool) u :
  epolls event efd u → loop_parts lst ready waiting fr -∗
  xwp (qp_event_addevent event fd timeout (Z.b2z listen) (Z.b2z auto)) u (λ r u', ⌜quiet u u'⌝ ∗
    (⌜r = QP_ERROR⌝ ∗ (∃ fr', ⌜fr' ≡ₚ fr⌝ ∗ loop_parts lst ready waiting fr') ∨
     ⌜r = QP_SUCCESS⌝ ∗ ∃ o fr', ⌜fr = o_elm o :: fr' ∧ o_tag o = (fd, auto) ∧ o_ok o⌝ ∗
       loop_parts lst ready (o :: waiting) fr')).
Proof using Hevent.
  iIntros (Hu) "(Hm & Hp & Hh & Hlr & Hl & Huse & Hlinks)". iApply (xwp_wand with "[Hm Hp Hh]").
  { by iApply (add_spec with "Hm Hp Hh"). }
  iIntros (r u') "(%Hq & Hm & Hh & [[-> (%fr' & %Hp & Hp)]|([-> %Hfd] & %e & %fr' & %w & (-> & %Hw & %Hlis) & Hp & Ho & Hlink)])".
  - iSplit; [done|]. iLeft. iSplit; [done|]. iExists fr'. by iFrame.
  - iSplit; [done|]. iRight. iSplit; [done|]. set (o := MkOsrc e fd w None None). iExists o, fr'. iSplit.
    { iPureIntro. split_and!; [done| |unfold o_ok; cbn; lia]. unfold o_tag. cbn [o o_fd o_w]. rw Hw.
      by destruct auto. }
    assert (o :: lst ++ ready ++ waiting ≡ₚ lst ++ ready ++ o :: waiting) as Hperm by solve_Permutation.
    iDestruct (sources_perm _ _ Hperm with "[Hm] [$Ho $Huse]") as "[Hm Huse]"; [by rw all_caches_cons|].
    unfold loop_parts. cbn [big_opL]. iFrame.
Qed.

Lemma ledger_added c0 handed handed' o os fr u u' :
  o_ok o → w_fds (r_world u') = w_fds (r_world u) →
  closed_in (w_trace (r_world u')) = closed_in (w_trace (r_world u)) →
  handed' ++ arrived (w_trace (r_world u')) ≡ₚ o_tag o :: handed ++ arrived (w_trace (r_world u)) →
  ledger c0 handed os (o_elm o :: fr) u → ledger c0 handed' (o :: os) fr u'.
Proof.
  intros Ho Hf Hcl Ha ((gone & Hg & Hc) & Hfr & Hok & Hu). cbn [fmap list_fmap] in *. split_and!.
  - exists gone. cbn [fmap list_fmap]. split; [|by rw Hcl]. rw Ha Hg. solve_Permutation.
  - rw -Hfr. cbn [fmap list_fmap]. solve_Permutation.
  - by apply Forall_cons.
  - unfold epolls. by rw Hf.
Qed.

Lemma add_state_spec c0 handed lst ready waiting fd timeout (listen auto : bool) u :
  loop_state c0 handed lst ready waiting u -∗
  xwp (qp_event_addevent event fd timeout (Z.b2z listen) (Z.b2z auto)) u (λ r u', ∃ waiting',
    loop_state c0 (handed ++ if r =? QP_SUCCESS then [(fd, auto)] else []) lst ready waiting' u').
Proof using Hevent.
  iIntros "(%fr & %Hled & Hparts)". pose proof Hled as (_ & _ & _ & Hu).
  iApply (xwp_wand with "[Hparts]"); [by iApply add_parts_spec|].
  iIntros (r u') "(%Hq & [[-> (%fr' & %Hp & Hparts)]|[-> (%o & %fr' & (-> & %Htag & %Ho) & Hparts)]])".
  - change (QP_ERROR =? QP_SUCCESS) with false. cbn match. rw app_nil_r. iExists waiting, fr'.
    iFrame. iPureIntro. apply (ledger_quiet _ _ _ _ _ _ Hq). by eapply ledger_perm.
  - rw Z.eqb_refl. iExists (o :: waiting), fr'. iFrame. iPureIntro. destruct Hq as [Hf Hcl Ha].
    eapply ledger_perm; [|done|eapply (ledger_added _ _ _ o); [done|exact Hf|by rw Hcl app_nil_r| |exact Hled]];
      [solve_Permutation|]. unfold arrived. rw Ha Htag. solve_Permutation.
Qed.

(** ** Accepting *)

Definition streak (u : rest) : nat := streak_of (accepts_in (w_trace (r_world u))).

Lemma streak_quiet l u u' : closes l u u' → streak u' = streak u.
Proof. intros [_ _ Ha]. unfold streak. by rw Ha. Qed.

(** The call that brought [fd]. *)
Definition accepted_fd (fd : Z) (u u' : rest) : Prop :=
  w_fds (r_world u') = w_fds (r_world u) ∧
  closed_in (w_trace (r_world u')) = closed_in (w_trace (r_world u)) ∧
  accepts_in (w_trace (r_world u')) = accepts_in (w_trace (r_world u)) ++ [fd].

Lemma saying_accept args u :
  accepted_fd (a_ret (said "accept" args [] u)) u (saying "accept" args [] u).
Proof.
  split_and!; [done|by rw saying_trace closed_in_app app_nil_r|by rw saying_trace accepts_in_app].
Qed.

Lemma accepted_streak fd u u' : accepted_fd fd u u' → fd ≠ QP_FD_INVALID → streak u' = S (streak u).
Proof.
  intros (_ & _ & Ha) Hfd. unfold streak, streak_of. rw Ha foldl_snoc. by rw (proj2 (Z.eqb_neq _ _) Hfd).
Qed.

Lemma accepted_arrived fd u u' :
  accepted_fd fd u u' →
  arrived (w_trace (r_world u')) =
    arrived (w_trace (r_world u)) ++ if fd =? QP_FD_INVALID then [] else [(fd, true)].
Proof.
  intros (_ & _ & Ha). unfold arrived. rw Ha filter_app fmap_app. f_equal.
  destruct (Z.eqb_spec fd QP_FD_INVALID); [rw filter_cons_False; [done|naive_solver]|by rw filter_cons_True].
Qed.

(** Nothing was accepted after all. *)
Lemma ledger_failed c0 handed os fr u u' :
  accepted_fd QP_FD_INVALID u u' → ledger c0 handed os fr u → ledger c0 handed os fr u'.
Proof.
  intros Hac ((gone & Hg & Hc) & Hfr & Hok & Hu). pose proof (accepted_arrived _ _ _ Hac) as Harr.
  rw Z.eqb_refl app_nil_r in Harr. destruct Hac as (Hf & Hcl & _).
  split_and!; [|done|done|unfold epolls; by rw Hf]. exists gone. by rw Harr Hcl.
Qed.

(** The event refused it, and it was closed again. *)
Lemma ledger_refused c0 handed os fr fd u u1 u2 :
  fd ≠ QP_FD_INVALID → accepted_fd fd u u1 → closes [fd] u1 u2 →
  ledger c0 handed os fr u → ledger c0 handed os fr u2.
Proof.
  intros Hfd Hac Hcls ((gone & Hg & Hc) & Hfr & Hok & Hu).
  pose proof (accepted_arrived _ _ _ Hac) as Harr. rw (proj2 (Z.eqb_neq _ _) Hfd) in Harr.
  destruct Hac as (Hf & Hcl & _), Hcls as [Hf2 Hcl2 Ha2]. split_and!; [|done|done|unfold epolls; by rw Hf2 Hf].
  exists (gone ++ [(fd, true)]). replace (arrived (w_trace (r_world u2))) with (arrived (w_trace (r_world u1)))
    by (unfold arrived; by rw Ha2). rw Harr. split; [rw app_assoc Hg; solve_Permutation|].
  by rw Hcl2 Hcl Hc bind_app app_assoc.
Qed.

Context (fuel : nat) (Hfuel : (0 < fuel)%nat) (Haccept : accepts_end fuel).

(** The failure of [accept] ends the rounds; one that is not temporary, the source. *)
Lemma accept_failed c0 handed lst ready waiting o u :
  o ∈ waiting → loop_state c0 handed lst ready waiting u -∗
  xwp (errno ← sys get_errno;
       (if negb (again errno) then qp_event_removeevent event (o_src o);; mret tt else mret tt);;
       mret (inr tt) : EV (unit + unit)) u (λ r u', match r with
    | inl _ => False
    | inr _ => ∃ waiting', loop_state c0 handed lst ready waiting' u'
    end).
Proof using Hevent.
  iIntros (Ho) "(%fr & %Hled & Hparts)". do 3 xstep.
  change (if again (w_errno (r_world u)) then false else true) with (negb (again (w_errno (r_world u)))).
  destruct (again _); cbn [negb].
  { repeat xstep. iExists waiting, fr. by iFrame. }
  apply list_elem_of_split in Ho as (l1 & l2 & ->).
  iDestruct (parts_take with "Hparts") as "(Ho & Hlink & Hm & Hp & Hh & Hparts)".
  pose proof Hled as (_ & _ & _ & Hu). xstep. iApply (xwp_wand with "[Ho Hlink Hm Hp Hh]").
  { by iApply (remove_spec with "Hm Hp Hh Ho Hlink"). }
  iIntros (r u1) "([_ %Hc] & Hm & Hp & Hh)". repeat xstep. iExists (l1 ++ l2), (o_elm o :: fr).
  iFrame. iPureIntro. apply (ledger_gone _ _ _ _ _ _ _ Hc). eapply ledger_perm; [|done|exact Hled].
  solve_Permutation.
Qed.

(** After a success there may be another, in edge mode. *)
Lemma accept_again c0 handed lst ready waiting o u :
  o ∈ waiting → loop_state c0 handed lst ready waiting u -∗
  xwp (edge ← mem (load (o_src o + src_edge));
       mret (if negb (edge =? 0) then inl tt else inr tt) : EV (unit + unit)) u (λ _ u',
    ⌜u' = u⌝ ∗ loop_state c0 handed lst ready waiting u).
Proof.
  iIntros (Ho) "(%fr & %Hled & Hparts)". assert (o ∈ lst ++ ready ++ waiting) as Hin by (clear -Ho; set_solver).
  iDestruct (source_in_use _ _ _ _ _ Hin with "Hparts") as "[[Hst (%ev & %ed & Hi & Hb & Hfd & Hev & Hed & Hs)] Hparts]".
  repeat xstep. iSplit; [done|]. iExists fr. iSplit; [done|]. iApply "Hparts". iFrame "Hst". iExists ev, ed. iFrame.
Qed.

Lemma accept_round c0 handed lst ready waiting o timeout u :
  o ∈ waiting → loop_state c0 handed lst ready waiting u -∗
  xwp (accept_body event (o_src o) timeout tt) u (λ r u', ∃ waiting',
    ⌜r = inl tt → o ∈ waiting' ∧ (fuel - S (streak u') < fuel - S (streak u))%nat⌝ ∗
    loop_state c0 handed lst ready waiting' u').
Proof using All.
  iIntros (Ho) "(%fr & %Hled & Hparts)". assert (o ∈ lst ++ ready ++ waiting) as Hin by set_solver.
  iDestruct (in_use_not_null _ _ _ _ _ Hin with "Hparts") as %Hs. pose proof Hled as (_ & _ & _ & Hu).
  unfold accept_body, qp_event_source_accept. rw (proj2 (Z.eqb_neq _ _) Hs).
  iDestruct (source_in_use _ _ _ _ _ Hin with "Hparts") as "[[Hst (%ev & %ed & Hi & Hb & Hfd & Hs)] Hparts]".
  do 4 xstep. iDestruct ("Hparts" with "[Hst Hi Hb Hfd Hs]") as "Hparts"; [iFrame "Hst"; iExists ev, ed; iFrame|].
  xstep. set (args := [o_fd o; NULL; NULL]). set (fd := a_ret (said "accept" args [] u)). set (u1 := saying "accept" args [] u).
  pose proof (saying_accept args u) as Hac. fold u1 fd in Hac.
  destruct (Z.eqb_spec QP_FD_INVALID fd) as [Efd|Hfd].
  { rw -Efd in Hac. iApply (xwp_wand with "[Hparts]").
    { iApply (accept_failed c0 handed lst ready waiting o); [done|]. iExists fr. iFrame. iPureIntro.
      by apply (ledger_failed _ _ _ _ u). }
    iIntros ([?|[]] u2) "Hs"; [done|]. iDestruct "Hs" as (waiting') "Hs". iExists waiting'. by iFrame. }
  assert ((S (streak u) < fuel)%nat) as Hstreak.
  { apply not_ge. intros Hge. apply Hfd. symmetry. by apply Haccept. }
  pose proof (accepted_streak _ _ _ Hac (not_eq_sym Hfd)) as Hstreak1.
  xstep. iApply (xwp_wand with "[Hparts]").
  { iApply (add_parts_spec _ _ _ _ fd timeout false true with "Hparts"). destruct Hac as (Hf & _).
    unfold epolls. by rw Hf. }
  iIntros (r u2) "[%Hq Hr]". xstep.
  iAssert (xwp (if r =? QP_ERROR then sys (call "close" [fd]);; mret tt else mret tt) u2 (λ _ u3,
    ⌜streak u3 = S (streak u)⌝ ∗ ∃ waiting', ⌜o ∈ waiting'⌝ ∗ loop_state c0 handed lst ready waiting' u3)%I)
    with "[Hr]" as "Hr".
  { iDestruct "Hr" as "[[-> (%fr' & %Hp & Hparts)]|[-> (%o2 & %fr' & (-> & %Htag & %Ho2) & Hparts)]]".
    - rw Z.eqb_refl. do 3 xstep. pose proof (quiet_closes _ _ _ _ Hq (saying_close fd u2)) as Hc.
      iSplit; [by rw (streak_quiet _ _ _ Hc) Hstreak1|]. iExists waiting. iSplit; [done|]. iExists fr'.
      iFrame. iPureIntro. eapply (ledger_refused _ _ _ _ fd u); [done..|]. by eapply ledger_perm.
    - change (QP_SUCCESS =? QP_ERROR) with false. cbn match. xstep.
      iSplit; [by rw (streak_quiet _ _ _ Hq) Hstreak1|]. iExists (o2 :: waiting).
      iSplit; [iPureIntro; by right|]. iExists fr'. iFrame. iPureIntro.
      pose proof (accepted_arrived _ _ _ Hac) as Harr. rw (proj2 (Z.eqb_neq _ _) (not_eq_sym Hfd)) in Harr.
      destruct Hac as (Hf & Hcl & _), Hq as [Hf2 Hcl2 Ha2].
      eapply ledger_perm; [|done|eapply (ledger_added _ _ _ o2); [done|by rw Hf2 Hf|by rw Hcl2 app_nil_r Hcl| |exact Hled]];
        [solve_Permutation|]. unfold arrived at 1. rw Ha2. fold (arrived (w_trace (r_world u1))).
      rw Harr Htag. solve_Permutation. }
  iApply (xwp_wand with "Hr"). iIntros (_ u3) "(%Hst & %waiting' & %Ho' & Hs)".
  iApply (xwp_wand with "[Hs]"); [by iApply accept_again|]. iIntros (r' u4) "[-> Hs]".
  iExists waiting'. iFrame. iPureIntro. intros _. split; [done|]. rw Hst. lia.
Qed.

(** ** The listening sources *)

Lemma listen_round c0 handed lst ready waiting timeout u :
  loop_state c0 handed lst ready waiting u -∗
  xwp (listen_body fuel event timeout tt) u (λ r u', match r with
    | inl _ => ∃ o lst' waiting', ⌜lst = o :: lst'⌝ ∗ loop_state c0 handed lst' ready waiting' u'
    | inr _ => loop_state c0 handed [] ready waiting u'
    end).
Proof using All.
  iIntros "(%fr & %Hled & Hm & Hp & Hh & Hlr & Hl & Huse & Hlinks)". unfold listen_body.
  xstep. xstep. iApply (list_is_empty_spec with "Hlr"). iIntros "Hlr".
  destruct lst as [|o lst]; cbn [fmap list_fmap].
  { rw bool_decide_eq_true_2 //. xstep. iExists fr. by iFrame. }
  rw bool_decide_eq_false_2 //. xstep. xstep. iApply (list_first_spec with "Hlr"). iIntros "Hlr".
  cbn [head default]. unfold qp_list_data. rw Z.sub_0_r. xstep. xstep.
  iApply (chain_pop_spec with "Hlr"). iIntros "Hlr Hlink".
  assert ((o :: lst) ++ ready ++ waiting ≡ₚ lst ++ ready ++ o :: waiting) as Hperm by solve_Permutation.
  iDestruct (sources_perm _ _ Hperm with "Hm Huse") as "[Hm Huse]".
  xstep. iApply (xwp_wand _ _ (λ _ u', ∃ waiting', loop_state c0 handed lst ready waiting' u')%I with "[-]").
  - unshelve iApply (xwp_loop (λ k _ u, ∃ waiting', ⌜(o ∈ waiting') ∧ k = (fuel - S (streak u))%nat⌝ ∗
      loop_state c0 handed lst ready waiting' u)%I _ _ _ _ (fuel - S (streak u)) with "[-]"); [|lia|].
    + iIntros (k [] u') "(%waiting' & [%Ho ->] & Hs)". iApply (xwp_wand with "[Hs]"); [by iApply accept_round|].
      iIntros ([[]|[]] u2) "(%waiting2 & %Hin & Hs)"; [|by iExists waiting2].
      destruct Hin as [Hin Hlt]; [done|]. iExists _. iSplit; [done|]. iExists waiting2. by iFrame.
    + iExists (o :: waiting). iSplit; [iPureIntro; split; [left|done]|]. iExists fr.
      unfold loop_parts. cbn [big_opL]. iFrame. iPureIntro. by eapply ledger_perm.
  - iIntros (_ u') "(%waiting' & Hs)". xstep. iExists o, lst, waiting'. by iFrame.
Qed.

Lemma dispatch_listen_spec c0 handed lst ready waiting timeout u :
  loop_state c0 handed lst ready waiting u -∗
  xwp (qp_event_dispatch_listen_queue fuel event timeout) u (λ _ u', ∃ waiting',
    loop_state c0 handed [] ready waiting' u').
Proof using All.
  iIntros "Hs". unfold qp_event_dispatch_listen_queue. nonnull event. xstep. xstep.
  iDestruct "Hs" as "(%fr & %Hled & Hm & Hp & Hh & Hlr & Hs)".
  iApply (list_fuel with "Hlr"). iIntros (k Hk) "Hlr". rw length_fmap in Hk.
  iApply (xwp_loop (λ m _ u, ∃ lst waiting, ⌜length lst = m⌝ ∗ loop_state c0 handed lst ready waiting u)%I
    with "[-]"); [|exact Hk|].
  - iIntros (m [] u') "(%l & %wt & <- & Hs)". iApply (xwp_wand with "[Hs]"); [by iApply listen_round|].
    iIntros ([[]|[]] u2) "Hs"; [|by iExists wt].
    iDestruct "Hs" as (o l' wt') "[-> Hs]". iExists (length l'). iSplit; [iPureIntro; cbn; lia|].
    iExists l', wt'. by iFrame.
  - iExists lst, waiting. iSplit; [done|]. iExists fr. by iFrame.
Qed.
End loop.
