(* ===== verification/LoopProps.v ===== *)
(** A client of the whole event loop: it registers descriptors and has ready sources
    dispatched, in any order, and loses none. *)

From S2P Require Import RbModel RbTree.
From S2P Require Import Prelude Bits World Bytes Atomic Io Heap Links LinkProps Pool PoolProps.
From S2P Require Import Manager ManagerSpec ManagerProps Caches EvState Event Dispatch EventProps.
From S2P Require Import EventIo EventOut Sources Loop LoopState.
#[local] Open Scope Z_scope.

(** * The client *)

Inductive command :=
| Add (fd : Z) (listen auto_close : bool)
| Round (reports : list (nat * Z)).

Section client.
Context `{OS} `{EvHandle} (fuel : nat) (event timeout : Z).

Fixpoint reports (l : list (nat * Z)) : EV unit :=
  match l with
  | [] => mret tt
  | (i, revents) :: l => report event i revents;; reports l
  end.

(** A round is what [qp_event_dispatch] does with what [epoll_wait] reported, as it is
    meant. *)
Definition exec (c : command) : EV Z :=
  match c with
  | Add fd listen auto => qp_event_addevent event fd timeout (Z.b2z listen) (Z.b2z auto)
  | Round l =>
      reports l;; qp_event_dispatch_listen_queue fuel event timeout;;
      qp_event_dispatch_queue event;; mret 0
  end.

Fixpoint exec_all (cs : list command) : EV (list Z) :=
  match cs with
  | [] => mret []
  | c :: cs => r ← exec c; rs ← exec_all cs; mret (r :: rs)
  end.

(** The steps of [qp_event_init] after the descriptor of the event, in a structure that
    [qp_event_create] has cleared, and the functions. *)
Definition setup (n : nat) (size mod_ noblock hr hd ha pr pw : Z) : EV bool :=
  mem (store (event + ev_is_alloced) 0);; mem (store (event + ev_is_run) 0);;
  mem (store (event + ev_eventpool_size) size);; mem (store (event + ev_bucket_size) size);;
  bucket ← mem (Heap.malloc (u64 (sizeof_epoll_event * size)));
  mem (store (event + ev_bucket) bucket);;
  if bucket =? NULL then mret false else
  pool ← mem (qp_pool_init (event + ev_event_pool) sizeof_source (u64 (size * 2)));
  if pool =? NULL then mret false else
  manager ← mem (qp_manager_init event QP_EVENT_READCACHE_SIZE (Z.of_nat n));
  if manager =? NULL then mret false else
  loop (S (Z.to_nat (u64 (size * 2)))) (init_body event mod_ noblock) 0;;
  mem (qp_list_init (event + ev_ready));; mem (qp_list_init (event + ev_listen_ready));;
  mem (store (event + ev_h_reset) hr);; mem (store (event + ev_h_del) hd);;
  mem (store (event + ev_h_add) ha);;
  mem (store (event + ev_p_read) pr);; mem (store (event + ev_p_write) pw);;
  mret true.
End client.

(** What the event accepted, and what a round may report: different sources of the pool. *)
Fixpoint handed_over (cs : list command) (rs : list Z) : list tag :=
  match cs, rs with
  | Add fd _ auto :: cs, r :: rs => (if r =? QP_SUCCESS then [(fd, auto)] else []) ++ handed_over cs rs
  | Round _ :: cs, _ :: rs => handed_over cs rs
  | _, _ => []
  end.
Definition command_ok (N : nat) (c : command) : Prop :=
  match c with
  | Add _ _ _ => True
  | Round l => NoDup l.*1 ∧ Forall (λ i, (i < N)%nat) l.*1
  end.

Section run.
Context `{OS} `{!heapGS Σ}.
#[local] Existing Instance epoll.
Context (fuel : nat) (event timeout alc : Z) (n : nat) (hr hd ha pr pw : Z) (efd : qp_fd_s) (R palc : Z) (N : nat) (c0 : list Z).
Context (Hevent : 0 < event) (Hrel : reliable) (Hfuel : (0 < fuel)%nat) (Haccept : accepts_end fuel).
Abbreviation state := (loop_state event alc n hr hd ha pr pw efd R palc N c0).

Lemma reports_spec handed l lst ready waiting u :
  NoDup l.*1 → Forall (λ i, (i < N)%nat) l.*1 →
  (∀ i, i ∈ l.*1 → slot R i ∉ (o_elm <$> lst ++ ready)) →
  state handed lst ready waiting u -∗
  xwp (reports event l) u (λ _ u', ∃ lst' ready' waiting', state handed lst' ready' waiting' u').
Proof using All.
  revert lst ready waiting u.
  induction l as [|[i ev] l IH]; intros lst ready waiting u Hnd HN Hni; cbn [reports].
  { iIntros "Hs". xstep. iExists lst, ready, waiting. iFrame. }
  cbn [fmap list_fmap fst] in *. apply NoDup_cons in Hnd as [Hi Hnd]. apply Forall_cons in HN as [HiN HN].
  iIntros "Hs". xstep. iApply (xwp_wand with "[Hs]").
  { iApply (report_spec with "Hs"); [done..|]. apply Hni. left. }
  iIntros (_ u') "(%lst' & %ready' & %waiting' & %Hsub & Hs)". iApply (IH with "Hs"); [done..|].
  intros k Hk Hin%Hsub. apply elem_of_cons in Hin as [Hin|Hin].
  - unfold slot, sizeof_source, sizeof_elm in Hin. assert (k = i) as -> by lia. done.
  - by apply (Hni k); [right|].
Qed.

Lemma exec_spec handed c waiting u :
  command_ok N c → state handed [] [] waiting u -∗
  xwp (exec fuel event timeout c) u (λ r u', ∃ waiting',
    state (handed ++ handed_over [c] [r]) [] [] waiting' u').
Proof using Hevent Hrel Hfuel Haccept.
  destruct c as [fd listen auto|l]; cbn [command_ok exec handed_over].
  - iIntros (_) "Hs". iApply (xwp_wand with "[Hs]"); [by iApply (add_state_spec with "Hs")|].
    iIntros (r u') "Hs". by rw app_nil_r.
  - iIntros ([Hnd HN]) "Hs". rw app_nil_r. xstep. iApply (xwp_wand with "[Hs]").
    { iApply (reports_spec with "Hs"); [done..|]. intros i _. apply not_elem_of_nil. }
    iIntros (_ u1) "(%lst & %ready & %waiting1 & Hs)". xstep. iApply (xwp_wand with "[Hs]").
    { by iApply dispatch_listen_spec. }
    iIntros (_ u2) "(%waiting2 & Hs)". xstep. iApply (xwp_wand with "[Hs]").
    { by iApply (dispatch_queue_spec with "Hs"). }
    iIntros (_ u3) "Hs". by xstep.
Qed.

Lemma handed_over_cons c cs r rs : handed_over (c :: cs) (r :: rs) = handed_over [c] [r] ++ handed_over cs rs.
Proof. destruct c; cbn [handed_over]; by rw ?app_nil_r. Qed.

Lemma exec_all_spec handed cs waiting u :
  Forall (command_ok N) cs → state handed [] [] waiting u -∗
  xwp (exec_all fuel event timeout cs) u (λ rs u', ∃ waiting',
    state (handed ++ handed_over cs rs) [] [] waiting' u').
Proof using Hevent Hrel Hfuel Haccept.
  revert handed waiting u. induction cs as [|c cs IH]; intros handed waiting u Hok; cbn [exec_all].
  { iIntros "Hs". xstep. cbn [handed_over]. rw app_nil_r. by iExists waiting. }
  apply Forall_cons in Hok as [Hc Hok]. iIntros "Hs". xstep. iApply (xwp_wand with "[Hs]").
  { by iApply exec_spec. }
  iIntros (r u1) "(%waiting1 & Hs)". xstep. iApply (xwp_wand with "[Hs]"); [by iApply IH|].
  iIntros (rs u2) "(%waiting2 & Hs)". xstep. iExists waiting2. by rw (handed_over_cons c cs) app_assoc.
Qed.
End run.

(** * Setting it up *)

Section setup.
Context `{OS} `{!heapGS Σ}.
#[local] Existing Instance epoll.
Context (event R palc size mod_ noblock : Z) (N : nat) (fr : list Z) (u0 : rest).
Context (Hevent : 0 < event) (HN : u64 (size * 2) = Z.of_nat N).

Abbreviation pool := (shell (event + ev_event_pool) R sizeof_source N palc).

(** One round: the element's bytes become a source without descriptor and caches. *)
Definition init_loop (k : nat) (itr : Z) (u : rest) : iProp Σ :=
  ∃ j, ⌜itr = Z.of_nat j ∧ (j + k = N)%nat ∧ u = u0⌝ ∗ pool fr ∗
    (event + ev_eventpool_size) ↦ size ∗ ([∗ list] i ∈ seq 0 j, idle event (slot R i)) ∗
    [∗ list] i ∈ seq j k, elm (event + ev_event_pool) sizeof_source (slot R i).

Lemma init_source_spec s i u (Φ : Z + unit → rest → iProp Σ) :
  region s sizeof_source -∗
  (s ↦? -∗ (∃ w, source_at s QP_FD_INVALID w None None) -∗ Φ (inl (u64 (i + 1))) u) -∗
  xwp (mem (memset0 s sizeof_source);; mem (store (s + src_index) i);;
       mem (store (s + src_source_fd) QP_FD_INVALID);; mem (store (s + src_events) mod_);;
       mem (store (s + src_noblock) noblock);;
       mem (store (s + src_edge) (if negb (Z.land mod_ QP_EPOLL_ET =? 0) then 1 else 0));;
       mem (qp_list_init s);; mret (inl (u64 (i + 1)))) u Φ.
Proof.
  iIntros "Hr HΦ". destruct src_offs_ok as [Hnd Ho]. xstep. xstep.
  iApply (hwp_memset0 with "Hr"); [done..|]. unfold src_offs at 1. cbn [big_opL]. rw Z.add_0_r.
  iIntros "(H0 & H1 & H2 & H3 & H4 & H5 & H6 & H7 & H8 & H9 & H10 & H11 & H12 & H13 & H14 & H15 & _) Hpad".
  do 17 xstep. iApply (list_init_spec with "H0"). iIntros "H0". xstep.
  iApply ("HΦ" with "[H0]"); [by iExists _|]. iExists 0. unfold source_at, source_with, src_info, write_tail.
  cbn [read_slot default]. iFrame.
Qed.

Lemma init_round_spec k itr u :
  init_loop k itr u -∗
  xwp (init_body event mod_ noblock itr) u (λ r u', match r with
    | inl itr' => ∃ k', ⌜(k' < k)%nat⌝ ∗ init_loop k' itr' u'
    | inr _ => init_loop 0 (Z.of_nat N) u'
    end).
Proof using Hevent HN.
  iIntros "(%j & (-> & %Hk & ->) & Hp & Hsz & Hdone & Hraw)". unfold init_body. do 3 xstep. rw HN.
  destruct k as [|k].
  - rw (proj2 (Z.ltb_ge (Z.of_nat j) (Z.of_nat N))); [|lia]. xstep. iExists N.
    assert (j = N) as -> by lia. iFrame. iPureIntro. split_and!; [done|lia|done].
  - rw (proj2 (Z.ltb_lt (Z.of_nat j) (Z.of_nat N))); [|lia]. xstep. xstep.
    iDestruct (shell_count with "Hp") as %(_ & _ & _ & _ & HN60).
    iApply (shell_to_array_spec with "Hp"); [lia|unfold ev_event_pool, NULL; lia|done|]. iIntros "Hp".
    change (R + _ * _) with (slot R j). cbn [seq big_opL].
    iDestruct "Hraw" as "[(Hroot & Hpad & Hr) Hraw]". iApply (init_source_spec with "Hr").
    iIntros "Hlink Hs". iExists k. iSplit; [iPureIntro; lia|]. iExists (S j). iFrame "Hp Hsz Hraw".
    iSplit; [iPureIntro; split_and!; [|lia|done]|].
    { rw wrap_small; lia. }
    rw seq_S big_sepL_snoc. iFrame "Hdone". unfold idle. iFrame.
Qed.
End setup.

(** The fields of an event behind its pool. *)
Definition ev_offs : list Z :=
  [ev_eventpool_size; ev_ready; ev_listen_ready; ev_h_reset; ev_h_del; ev_h_add; ev_p_read; ev_p_write;
   ev_bucket; ev_bucket_size; ev_is_alloced; ev_is_run].

Lemma event_region `{!heapGS Σ} event :
  region event sizeof_event ⊢
  region event sizeof_mgr ∗ region (event + ev_event_pool) sizeof_pool ∗ [∗ list] o ∈ ev_offs, (event + o) ↦?.
Proof.
  iIntros "Hr". change sizeof_event with (sizeof_mgr + (8 + (sizeof_pool + 208))).
  iDestruct (region_app with "Hr") as "[$ Hr]"; [done..|].
  iDestruct (region_app with "Hr") as "[_ Hr]"; [done..|].
  replace (event + sizeof_mgr + 8) with (event + ev_event_pool) by (unfold sizeof_mgr, ev_event_pool; lia).
  iDestruct (region_app with "Hr") as "[$ Hr]"; [done..|].
  rw (region_struct _ _ ((λ o, o - ev_eventpool_size) <$> ev_offs));
    [|by apply (bool_decide_unpack _); vm_compute..].
  iDestruct "Hr" as "[Hr _]". rw big_sepL_fmap. iApply (big_sepL_impl with "Hr").
  iIntros "!>" (k o _) "H".
  by replace (event + ev_event_pool + sizeof_pool + (o - ev_eventpool_size)) with (event + o)
    by (unfold ev_event_pool, sizeof_pool, ev_eventpool_size; lia).
Qed.

(** What is taken for the event besides its sources, and given back with it. *)
Definition furniture `{!heapGS Σ} (event alc R palc size : Z) (N : nat) : iProp Σ :=
  mgr_owner event alc ∗ owner (event + ev_event_pool) palc ∗
  block R (Z.of_nat N * (sizeof_source + sizeof_elm)) ∗ (event + ev_eventpool_size) ↦ size ∗
  (event + ev_is_alloced) ↦ 0 ∗ (event + ev_is_run) ↦ 0 ∗
  ∃ bucket k, ⌜bucket ≠ NULL⌝ ∗ (event + ev_bucket) ↦ bucket ∗ (event + ev_bucket_size) ↦ size ∗
    block bucket k ∗ region bucket k.

Lemma setup_spec `{OS} `{!heapGS Σ} event n size mod_ noblock hr hd ha pr pw efd u :
  0 < event → sizes_ok QP_EVENT_READCACHE_SIZE n → 0 < size →
  (sizeof_source + sizeof_elm) * (size * 2) < 2 ^ 64 → epolls event efd u →
  arrived (w_trace (r_world u)) = [] →
  region event sizeof_event -∗
  xwp (setup event n size mod_ noblock hr hd ha pr pw) u (λ ok u', ⌜u' = u⌝ ∗
    if ok : bool then ∃ alc R palc, loop_state event alc n hr hd ha pr pw efd R palc
      (Z.to_nat (size * 2)) (closed_in (w_trace (r_world u))) [] [] [] [] u ∗
      furniture event alc R palc size (Z.to_nat (size * 2))
    else True).
Proof.
  iIntros (Hev Hn Hsize Hfit Hu Harr) "Hr". iDestruct (event_region with "Hr") as "(Hm & Hp & Hoffs)".
  unfold ev_offs. cbn [big_opL].
  iDestruct "Hoffs" as "([% Hsz] & [% Hrd] & [% Hlr] & [% H1] & [% H2] & [% H3] & [% H4] & [% H5] & [% Hbk] & [% Hbs] & [% Hal] & [% Hrun] & _)".
  unfold sizeof_source, sizeof_elm in Hfit. assert (u64 (size * 2) = size * 2) as E by (rw wrap_small; lia).
  unfold setup. do 14 xstep. iApply hwp_malloc. iSplit. { repeat xstep. rw Z.eqb_refl. by xstep. }
  iIntros (bucket (Hb & _)) "Hbb Hbr". xstep. xstep. xstep.
  rw (proj2 (Z.eqb_neq bucket NULL)); [|unfold NULL; lia]. xstep. xstep. rw E.
  iApply (pool_init_spec with "[Hp]"); [done|lia|done|unfold sizeof_source, sizeof_elm; lia| |].
  { iRight. iFrame. iPureIntro. unfold ev_event_pool, NULL. lia. }
  iSplit. { iIntros "_". rw Z.eqb_refl. xstep. done. }
  iIntros (p R palc [Hp0 [[<- _]|[E0 _]]]) "Hpo HR Hp"; [|unfold ev_event_pool, NULL in E0; lia].
  rw (proj2 (Z.eqb_neq _ _) Hp0). xstep. xstep.
  iApply (manager_init_spec with "[Hm]"); [done|iRight; iFrame; by iPureIntro; unfold NULL; lia|].
  iSplit; [iIntros (E0); unfold NULL in E0; lia|].
  iIntros (m alc [Hm [[<- _]|[E0 _]]]) "Hmo Hm"; [|unfold NULL in E0; lia].
  iDestruct (mheld_init with "Hm") as "Hm". rw (proj2 (Z.eqb_neq _ _) Hm). xstep.
  iDestruct (is_pool_shell with "Hp") as "[Hp Helms]". set (N := Z.to_nat (size * 2)). set (fr := rev _).
  assert (u64 (size * 2) = Z.of_nat N) as HN by lia.
  iApply (xwp_wand with "[Hp Helms Hsz]").
  { iApply (xwp_loop (init_loop event R palc size N fr u) _
      (λ _ u', init_loop event R palc size N fr u 0 (Z.of_nat N) u') with "[-]"); [|apply Nat.lt_succ_diag_r|].
    - iIntros (k itr u') "HI". iApply (xwp_wand with "[HI]"); [by iApply (init_round_spec with "HI")|].
      iIntros ([itr'|[]] u2) "H"; done.
    - iExists 0%nat. iFrame "Hsz Hp". iSplit; [done|]. iSplit; [done|].
      rw (big_opL_permutation _ _ (slots R sizeof_source N)); [|by rw /fr -Permutation_rev].
      unfold slots. by rw big_sepL_fmap. }
  iIntros ([] u') "(%j & (_ & %Hj & ->) & Hp & Hsz & Hidle & _)".
  xstep. xstep. iApply (list_init_spec with "Hrd"). iIntros "Hrd". xstep. xstep.
  iApply (list_init_spec with "Hlr"). iIntros "Hlr". repeat xstep. iSplit; [done|].
  iExists alc, R, palc. iSplitR "Hmo Hpo HR Hsz Hal Hrun Hbk Hbs Hbb Hbr".
  2: { unfold furniture. iFrame "Hmo Hpo Hsz Hal Hrun". iSplitL "HR".
       - by replace (Z.of_nat N) with (size * 2) by lia.
       - iExists bucket, _. iFrame. iPureIntro. unfold NULL. lia. }
  iExists fr. iFrame "Hm Hp H1 H2 H3 H4 H5 Hlr Hrd". cbn [app big_opL]. iSplit.
  { iPureIntro. split_and!; [exists []; split; [by rw Harr|cbn; by rw app_nil_r]|cbn; by rw app_nil_r /fr -Permutation_rev|done|done]. }
  iSplitL; [|done]. rw (big_opL_permutation _ fr (slots R sizeof_source N)); [|by rw /fr -Permutation_rev].
  unfold slots. rw big_sepL_fmap. by assert (j = N) as -> by lia.
Qed.

(** * The whole *)

#[local] Existing Instance epoll.

(** An event is set up, the client runs; the results and the sources left in the pool. *)
Definition loop_session `{OS} (fuel : nat) (event timeout : Z) (n : nat)
    (size mod_ noblock hr hd ha pr pw : Z) (cs : list command) : EV (option (list Z * Z)) :=
  ok ← setup event n size mod_ noblock hr hd ha pr pw;
  if ok : bool then
    rs ← exec_all fuel event timeout cs;
    free ← mem (qp_pool_available (event + ev_event_pool)); mret (Some (rs, free))
  else mret None.


(** ** A run *)

(** Descriptor 5 has three bytes, the others are at their end; everything written is
    taken; handlers answer with a byte; clients come in one at a time. *)
Definition demo_peer : OS := {|
  os_answer t name args data :=
    match name, args with
    | "read"%string, [fd; k] => if (fd =? 5) && (3 <=? k) then Ans 3 0 [104; 101; 121] else Ans 0 0 []
    | "write"%string, [fd; k] => Ans k 0 []
    | "process_write"%string, _ => Ans 1 0 [1; 33]
    | "process_read"%string, _ => Ans 1 0 []
    | "accept"%string, _ => if (streak_of (accepts_in t) =? 0)%nat then Ans 9 0 [] else Ans (-1) EAGAIN []
    | _, _ => Ans 0 0 []
    end;
  pthread_self := 7;
  getpid := 100;
|}.

Lemma demo_reliable : @reliable demo_peer.
Proof.
  split; cbn.
  - intros _ d k Hk. destruct (_ && _) eqn:E; cbn; [|done]. lia.
  - done.
  - intros _ _ _ _ size Hs. exists [33]. cbn. split_and!; [done|lia|lia].
Qed.

Lemma demo_accepts_end : @accepts_end demo_peer 2.
Proof. intros t args Ht. cbn. by destruct (streak_of (accepts_in t)); [lia|]. Qed.

Definition demo_commands : list command :=
  [Add 5 false true; Add 6 false true; Add 7 true false; Round [(3%nat, 1); (2%nat, 1)]; Round [(3%nat, 1); (2%nat, 1); (1%nat, 1)];
   Add (-1) false true].

