(* ===== verification/LoopEnd.v ===== *)
(** The end of an event: what [qp_event_destroy] closes, and what it leaves open. *)

From S2P Require Import RbModel RbTree.
From S2P Require Import Prelude Bits World Bytes Atomic Io IoProps Heap Links LinkProps Pool PoolProps.
From S2P Require Import Manager ManagerSpec ManagerProps Caches EvState Event Dispatch EventProps.
From S2P Require Import EventIo EventOut Sources Loop LoopState LoopProps.
#[local] Open Scope Z_scope.

(** * Looking at the sources *)

(** The descriptors of the sources with these numbers, and whether they are closed with
    them. *)
Fixpoint look `{OS} (event : Z) (nums : list nat) : EV (list tag) :=
  match nums with
  | [] => mret []
  | i :: nums =>
      source ← mem (qp_pool_to_array (event + ev_event_pool) (Z.of_nat i));
      fd ← mem (load (source + src_source_fd)); closed ← mem (src_get src_closed source);
      ts ← look event nums; mret ((fd, negb (closed =? 0)) :: ts)
  end.

(** Those that have a descriptor, and what is closed when they go. *)
Definition taken : list tag → list tag := filter (λ t, t.1 ≠ QP_FD_INVALID).

Lemma o_closes_taken os : os ≫= o_closes = taken (o_tag <$> os) ≫= tag_closes.
Proof.
  induction os as [|o os IH]; [done|]. rw bind_cons IH. unfold taken. rw fmap_cons filter_cons.
  unfold o_closes. destruct (Z.eqb_spec QP_FD_INVALID (o_fd o)) as [E|E].
  - rw andb_false_r decide_False; [done|]. by intros [].
  - rw andb_true_r decide_True; [|by apply not_eq_sym]. done.
Qed.

Lemma taken_app l k : taken (l ++ k) = taken l ++ taken k.
Proof. apply filter_app. Qed.

Lemma taken_all os : Forall o_ok os → taken (o_tag <$> os) = o_tag <$> os.
Proof.
  induction 1 as [|o os Ho _ IH]; [done|]. unfold taken in *. rw fmap_cons filter_cons_True ?IH //.
Qed.

Section destroy.
Context `{OS} `{!heapGS Σ}.
#[local] Existing Instance epoll.
Context (event alc : Z) (n : nat) (hr hd ha pr pw : Z) (efd : qp_fd_s) (R palc : Z) (N : nat).
Context (Hevent : 0 < event).

Abbreviation P := (event + ev_event_pool).
Abbreviation slots := (slots R sizeof_source N).
Abbreviation in_use := (Loop.in_use event R N).

(** All sources, in the pool or not, by their number; the free list of the pool may be
    anything. *)
Definition wrecked (os : list osrc) : iProp Σ :=
  ⌜o_elm <$> os = slots⌝ ∗ wreck P R sizeof_source N palc ∗ caches event alc n (all_caches os) ∗
  handles event hr hd ha pr pw ∗ [∗ list] o ∈ os, in_use o ∗ (o_src o) ↦?.

Lemma wreck_not_null o : o_elm o ∈ slots → wreck P R sizeof_source N palc ⊢ ⌜o_src o ≠ NULL⌝.
Proof.
  iIntros (He) "[%Hr _]". iPureIntro. destruct (slots_bound _ _ _ _ Hr He), Hr as (? & _).
  unfold o_src, NULL, sizeof_elm. lia.
Qed.

(** ** From the running loop *)

Lemma idle_sources fr :
  fr ⊆ slots → ([∗ list] e ∈ fr, idle event e) -∗ ([∗ list] e ∈ fr, e ↦?) -∗
  ∃ os, ⌜o_elm <$> os = fr ∧ all_caches os = [] ∧ taken (o_tag <$> os) = []⌝ ∗
    [∗ list] o ∈ os, in_use o ∗ (o_src o) ↦?.
Proof.
  induction fr as [|e fr IH]; iIntros (Hfr) "Hi Hl"; cbn [big_opL].
  { iExists []. by iSplit. }
  iDestruct "Hi" as "[(Hroot & Hpad & Hlink & %w & Hs) Hi]". iDestruct "Hl" as "[Hl Hls]".
  iDestruct (IH with "Hi Hls") as (os (Hos & Hc & Ht)) "Hos"; [intros x Hx; apply Hfr; by right|].
  iExists (MkOsrc e QP_FD_INVALID w None None :: os). cbn [big_opL]. iFrame "Hos". iSplit.
  - iPureIntro. rw all_caches_cons !fmap_cons Hos Hc. split_and!; [done..|]. unfold taken.
    rw filter_cons_False; [done|]. cbn. by intros [].
  - unfold Loop.in_use, o_src. cbn. iFrame. iPureIntro. apply Hfr. by left.
Qed.

Lemma wrecked_state c0 handed waiting u :
  loop_state event alc n hr hd ha pr pw efd R palc N c0 handed [] [] waiting u -∗
  ∃ os gone, ⌜handed ++ arrived (w_trace (r_world u)) ≡ₚ gone ++ taken (o_tag <$> os) ∧
      closed_in (w_trace (r_world u)) = c0 ++ (gone ≫= tag_closes) ∧ epolls event efd u⌝ ∗
    wrecked os.
Proof.
  iIntros "(%fr & %Hled & Hm & [Hp Hfr] & Hh & _ & _ & Huse & Hlinks)". cbn [app] in *.
  destruct Hled as ((gone & Hg & Hc) & Hsl & Hok & Hu).
  iDestruct (shell_wreck with "Hp") as "[Hp Hls]".
  iDestruct (idle_sources with "Hfr Hls") as (idl (Hfr & Hic & Hit)) "His".
  { intros x Hx. rw -Hsl elem_of_app. by left. }
  rw -Hfr -fmap_app in Hsl. symmetry in Hsl. apply Permutation_map_inv in Hsl as (os & Hos & Hperm).
  iExists os, gone. iSplit.
  - iPureIntro. split_and!; [|done|done]. by rw Hg -Hperm fmap_app taken_app Hit (taken_all _ Hok).
  - iSplit; [done|]. iFrame "Hp Hh". iSplitL "Hm".
    + iApply (mheld_perm with "Hm"). unfold all_caches in *. by rw -Hperm bind_app Hic.
    + rw -(big_opL_permutation _ _ _ Hperm) big_sepL_app. iFrame "His". rw big_sepL_sep. iFrame.
Qed.

(** ** The calls *)

Lemma wrecked_to_array os i o Φ :
  os !! i = Some o →
  wrecked os -∗ (⌜o_src o ≠ NULL⌝ -∗ wrecked os -∗ Φ (o_src o)) -∗
  hwp (qp_pool_to_array P (Z.of_nat i)) Φ.
Proof using Hevent.
  iIntros (Ho) "(%Hos & Hp & Hw) HΦ". assert (slots !! i = Some (o_elm o)) as Hi.
  { by rw -Hos list_lookup_fmap Ho. }
  iDestruct (wreck_not_null o with "Hp") as %Hs; [by eapply list_elem_of_lookup_2|].
  unfold Pool.slots in Hi. apply list_lookup_fmap_Some in Hi as (k & He & [Hk HN]%lookup_seq).
  cbn in Hk. subst k. iApply (wreck_to_array_spec with "Hp"); [done|unfold ev_event_pool, NULL; lia|done|].
  iIntros "Hp". rw -He. iApply ("HΦ" with "[//]"). by iFrame.
Qed.

Lemma look_spec os1 os2 u :
  wrecked (os1 ++ os2) -∗
  xwp (look event (seq (length os1) (length os2))) u (λ ts u', ⌜u' = u ∧ ts = o_tag <$> os2⌝ ∗
    wrecked (os1 ++ os2)).
Proof using Hevent.
  revert os1. induction os2 as [|o os2 IH]; intros os1; cbn [length seq look].
  { iIntros "Hw". xstep. by iFrame. }
  iIntros "Hw". assert ((os1 ++ o :: os2) !! length os1 = Some o) as Ho by by rw list_lookup_middle.
  xstep. xstep. iApply (wrecked_to_array with "Hw"); [done|]. iIntros (Hs) "(%Hos & Hp & Hm & Hh & Hs)".
  iDestruct (big_sepL_lookup_acc _ _ _ _ Ho with "Hs") as "[[[Hst (%ev & %ed & Hi & Hb & Hfd & Hs)] Hlink] Hos]".
  do 5 xstep. iApply (src_get_spec with "Hb"); [done|]. iIntros "Hb". xstep.
  iDestruct ("Hos" with "[Hst Hi Hb Hfd Hs Hlink]") as "Hs".
  { iFrame "Hst Hlink". iExists ev, ed. iFrame. }
  specialize (IH (os1 ++ [o])). rw -app_assoc length_app Nat.add_1_r in IH.
  iApply (xwp_wand with "[-]"); [iApply IH; by iFrame|].
  iIntros (ts u') "([-> ->] & Hw)". xstep. by iFrame.
Qed.

Lemma remove_wreck_spec os1 o os2 u :
  epolls event efd u → wrecked (os1 ++ o :: os2) -∗
  xwp (qp_event_removeevent event (o_src o)) u (λ _ u', ⌜closes (o_closes o) u u'⌝ ∗
    wrecked (os1 ++ MkOsrc (o_elm o) QP_FD_INVALID (o_w o) None None :: os2)).
Proof using Hevent.
  iIntros (Hu) "(%Hos & Hp & Hm & Hh & Hs)". set (o' := MkOsrc _ _ _ _ _).
  assert (o_elm o ∈ slots) as He by (rw -Hos fmap_app elem_of_app; right; left).
  iDestruct (wreck_not_null o with "Hp") as %Hs; [done|].
  iAssert (caches event alc n (o_caches o ++ all_caches (os1 ++ os2))) with "[Hm]" as "Hm".
  { iApply (mheld_perm with "Hm"). rw -all_caches_cons /all_caches. f_equiv. solve_Permutation. }
  rw big_sepL_app big_sepL_cons. iDestruct "Hs" as "(Hs1 & ((Hst & Hs) & Hlink) & Hs2)".
  iDestruct "Hst" as "(_ & Hlk & Hroot & Hpad)". 
  iApply (xwp_wand with "[Hp Hm Hh Hs Hlk Hroot]").
  { iApply (remove_source_spec event alc n hr hd ha pr pw efd Hevent
      (wreck P R sizeof_source N palc ∗ (o_elm o) ↦? ∗ (o_elm o + elm_root) ↦ P)%I
      (wreck P R sizeof_source N palc ∗ (o_elm o) ↦? ∗ (o_elm o + elm_root) ↦ P)%I
      with "Hm [$Hp $Hlk $Hroot] Hh Hs"); [done..|].
    iIntros (Φ) "(Hp & Hlk & Hroot) HΦ". iApply (wreck_free_spec with "Hp Hlk Hroot"); [done|].
    iIntros "Hp Hlk Hroot". iApply ("HΦ" with "[$Hp $Hlk $Hroot]"). }
  iIntros (r u') "([_ %Hc] & Hm & (Hp & Hlk & Hroot) & Hh & Hs)". iSplit; [done|]. iFrame "Hp Hh".
  iSplit; [iPureIntro; rw -Hos !fmap_app; done|]. iSplitL "Hm".
  - iApply (mheld_perm with "Hm"). unfold all_caches. by rw !bind_app bind_cons.
  - rw big_sepL_app big_sepL_cons. iFrame. done.
Qed.

(** One source after the other, from the first of the pool on. *)
Definition ending (size : nat) (os : list osrc) (u0 : rest) (k : nat) (itr : Z) (u : rest) : iProp Σ :=
  ∃ i, ⌜itr = Z.of_nat i ∧ (i + k = size)%nat ∧ closes (take i os ≫= o_closes) u0 u⌝ ∗
    (event + ev_eventpool_size) ↦ Z.of_nat size ∗
    ∃ os', ⌜length os' = i⌝ ∗ wrecked (os' ++ drop i os).

Lemma destroy_round size os u0 k itr u :
  (size ≤ length os)%nat → Z.of_nat size < 2 ^ 64 → epolls event efd u0 → ending size os u0 k itr u -∗
  xwp (destroy_body event itr) u (λ r u', match r with
    | inl itr' => ∃ k', ⌜(k' < k)%nat⌝ ∗ ending size os u0 k' itr' u'
    | inr _ => ∃ itr, ending size os u0 0 itr u'
    end).
Proof using Hevent.
  iIntros (Hsize Hfit Hu) "(%i & (-> & %Hk & %Hc) & Hsz & %os' & %Hos' & Hw)". unfold destroy_body.
  do 3 xstep. destruct k as [|k].
  - rw (proj2 (Z.ltb_ge _ _)); [|lia]. xstep. iExists _, i. iFrame. iPureIntro. split_and!; [done|lia|done|done].
  - rw (proj2 (Z.ltb_lt _ _)); [|lia]. xstep. xstep.
    destruct (lookup_lt_is_Some_2 os i) as [o Ho]; [lia|]. rw (drop_S _ _ _ Ho).
    iApply (wrecked_to_array _ i o with "Hw"); [by rw -Hos' list_lookup_middle|]. iIntros (_) "Hw".
    xstep. iApply (xwp_wand with "[Hw]").
    { iApply (remove_wreck_spec os' o with "Hw"). by eapply epolls_closes. }
    iIntros (r u') "[%Hc' Hw]". xstep. iExists k. iSplit; [iPureIntro; lia|]. iExists (S i). iFrame "Hsz".
    iSplit.
    + iPureIntro. split_and!; [rw wrap_small; lia|lia|]. rw (take_S_r _ _ _ Ho) bind_app. cbn.
      rw app_nil_r. by eapply closes_trans.
    + iExists (os' ++ [_]). rw -app_assoc. iFrame "Hw". iPureIntro. rw length_app. cbn. lia.
Qed.

Lemma destroy_loop size os u :
  (size ≤ length os)%nat → Z.of_nat size < 2 ^ 64 → epolls event efd u →
  (event + ev_eventpool_size) ↦ Z.of_nat size -∗ wrecked os -∗
  xwp (loop (S size) (destroy_body event) 0) u (λ _ u',
    ⌜closes (take size os ≫= o_closes) u u'⌝ ∗ ∃ os', wrecked os').
Proof using Hevent.
  iIntros (Hsize Hfit Hu) "Hsz Hw". iApply (xwp_wand with "[Hsz Hw]").
  { iApply (xwp_loop (ending size os u) _ (λ _ u', ∃ itr, ending size os u 0 itr u')%I
      with "[-]"); [|apply Nat.lt_succ_diag_r|].
    - iIntros (k itr u') "H". iApply (xwp_wand with "[H]"); [by iApply (destroy_round with "H")|].
      iIntros ([itr'|[]] u2) "H"; done.
    - iExists 0%nat. iFrame "Hsz". iSplit; [done|]. iExists []. by iFrame. }
  iIntros (_ u') "(%itr & %i & (_ & %Hi & %Hc) & _ & %os' & _ & Hw)".
  assert (i = size) as -> by lia. iSplit; [done|]. by iExists _.
Qed.

(** The memory of sources and caches. *)
Lemma wrecked_memory os :
  wrecked os -∗ wreck P R sizeof_source N palc ∗ caches event alc n (all_caches os) ∗
  ([∗ list] c ∈ all_caches os, region c QP_EVENT_READCACHE_SIZE) ∗
  [∗ list] e ∈ slots, e ↦? ∗ elm P sizeof_source e.
Proof.
  iIntros "(%Hos & $ & $ & _ & Hs)". rw -Hos big_sepL_fmap /all_caches big_sepL_bind -big_sepL_sep.
  iApply (big_sepL_impl with "Hs"). iIntros "!>" (i [e fd w rc wc] _) "[[(_ & Hlk & Hroot & Hpad) Hs] Hlink]".
  cbn in *. iDestruct (source_region with "Hlink Hs") as "[Hr Hc]". unfold elm. iFrame.
Qed.

(** The descriptor of the event. *)
Lemma fd_in_place (w : world) q x : w_fds w !! q = Some x → w = obj w q x.
Proof. intros Hx. unfold obj. cbn. rw insert_id //. by destruct w. Qed.

Lemma fd_destroy_closes u (Φ : Z → rest → iProp Σ) :
  epolls event efd u → fd_is_inited efd = true → fd_is_alloced efd = false → fd_aio efd = NULL →
  fd_fd efd ≠ QP_FD_INVALID →
  (∀ r u', ⌜epolls event (dead_fd efd) u' ∧
      closed_in (w_trace (r_world u')) = closed_in (w_trace (r_world u)) ++ [fd_fd efd] ∧
      accepts_in (w_trace (r_world u')) = accepts_in (w_trace (r_world u))⌝ -∗ Φ r u') -∗
  xwp (sys (qp_fd_destroy (event + ev_event_fd))) u Φ.
Proof using Hevent.
  iIntros (Hu Hi Hal Haio Hfd) "HΦ". destruct u as [w t]. cbn in *.
  iApply (xwp_sys _ _ _ (λ _ w', w_fds w' !! (event + ev_event_fd)%Z = Some (dead_fd efd) ∧
      closed_in (w_trace w') = closed_in (w_trace w) ++ [fd_fd efd] ∧
      accepts_in (w_trace w') = accepts_in (w_trace w))).
  - unfold epolls in Hu. cbn in *. assert (w = obj w (event + ev_event_fd) efd) as E.
    { by apply fd_in_place. }
    rw {1}E. assert (event + ev_event_fd ≠ NULL) as Hq by (unfold ev_event_fd, NULL; lia).
    unfold qp_fd_destroy, qp_fd_is_inited, qp_fd_close, qp_fd_is_valid, qp_fd_unset_noblock,
      qp_fd_unset_inited, qp_fd_is_alloced. destruct efd as [fd ty aio cb i al nb]. cbn in *. subst.
    destruct fd as [|fd|[fd|fd|]]; [..|done]; repeat ostep; cbn.
    all: split_and!; [apply lookup_insert_eq|by rw closed_in_app|by rw accepts_in_app app_nil_r].
  - iIntros (a w') "%Hw". by iApply "HΦ".
Qed.
End destroy.

Section whole.
Context `{OS} `{!heapGS Σ}.
#[local] Existing Instance epoll.
Context (event alc : Z) (n : nat) (hr hd ha pr pw : Z) (efd : qp_fd_s) (R palc : Z) (N : nat).
Context (Hevent : 0 < event).

(** The descriptor of an event in use. *)
Definition own_fd : Prop :=
  fd_is_inited efd = true ∧ fd_is_alloced efd = false ∧ fd_aio efd = NULL ∧ fd_fd efd ≠ QP_FD_INVALID.

Lemma event_destroy_spec size os u :
  (size ≤ length os)%nat → Z.of_nat size < 2 ^ 64 → epolls event efd u → own_fd →
  wrecked event alc n hr hd ha pr pw R palc N os -∗ furniture event alc R palc (Z.of_nat size) N -∗
  xwp (qp_event_destroy event) u (λ r u', ⌜r = QP_SUCCESS ∧
    closed_in (w_trace (r_world u')) =
      closed_in (w_trace (r_world u)) ++ fd_fd efd :: (take size os ≫= o_closes) ∧
    accepts_in (w_trace (r_world u')) = accepts_in (w_trace (r_world u))⌝).
Proof using Hevent.
  iIntros (Hsize Hfit Hu (Hi & Hal & Haio & Hfd)) "Hw (Hmo & Hpo & HR & Hsz & Hia & Hrun & %bucket & %k & %Hb & Hbk & Hbs & Hbb & Hbr)".
  unfold qp_event_destroy. nonnull event. xstep.
  iApply (xwp_sys _ _ _ (λ b w, b = true ∧ w = r_world u)).
  { rw {1}(fd_in_place _ _ _ Hu). unfold qp_fd_is_inited. apply wp_is_flag_obj.
    - unfold ev_event_fd, NULL. lia.
    - by rw -(fd_in_place _ _ _ Hu). }
  iIntros (b w [-> ->]). cbn [negb]. destruct u as [w t]. cbn [r_world r_trees]. do 3 xstep.
  rw Z.eqb_refl. xstep.
  iApply (fd_destroy_closes with "[-]"); [done..|]. iIntros (r1 u1) "(%Hu1 & %Hc1 & %Ha1)". xstep. xstep. xstep.
  rw Nat2Z.id. xstep. iApply (xwp_wand with "[Hsz Hw]").
  { by iApply (destroy_loop with "Hsz Hw"). }
  iIntros (_ u2) "[%Hc2 (%os' & Hw)]". repeat xstep. rw (proj2 (Z.eqb_neq _ _) Hb). cbn [negb].
  xstep. xstep. iApply (hwp_free with "Hbb Hbr"); [done|]. do 6 xstep.
  iDestruct (wrecked_memory with "Hw") as "(Hp & Hm & Hcs & Helms)". xstep.
  iApply (wreck_destroy_spec with "Hp Hpo HR Helms"); [unfold ev_event_pool, NULL; lia|]. iIntros "_".
  xstep. xstep. iApply (mheld_destroy with "Hm Hmo Hcs"); [unfold NULL; lia|]. iIntros "_".
  xstep. xstep. unfold qp_event_is_alloced. nonnull event. repeat xstep. rw Z.eqb_refl. cbn [negb]. repeat xstep. iPureIntro.
  destruct Hc2 as [_ Hc2 Ha2]. split_and!; [done| |by rw Ha2].
  rw Hc2 Hc1 -app_assoc. done.
Qed.
End whole.

(** * The whole life *)

#[local] Existing Instance epoll.

(** An event is set up, the client runs, the sources are looked at, the event is
    destroyed. *)
Definition ended_session `{OS} (fuel : nat) (event timeout : Z) (n : nat)
    (size mod_ noblock hr hd ha pr pw : Z) (cs : list command) : EV (option (list Z * list tag * Z)) :=
  ok ← setup event n size mod_ noblock hr hd ha pr pw;
  if ok : bool then
    rs ← exec_all fuel event timeout cs;
    ts ← look event (seq 0 (Z.to_nat (size * 2)));
    r ← qp_event_destroy event; mret (Some (rs, ts, r))
  else mret None.


(** ** A run *)

Definition demo_fd : qp_fd_s := set_fd_is_inited true (set_fd_fd 3 zero_fd).
Definition demo_ready : rest :=
  MkRest (obj empty_world (4096 + ev_event_fd) demo_fd) (MkMem ∅ ∅).
Definition three : list command := [Add 5 false true; Add 6 false true; Add 7 false true].


(** Two descriptors in a pool of one and one: 5 stays open. All memory is given back. *)
Example event_destroy_run :
  match @ended_session demo_peer 2 4096 1000 1 1 QP_EPOLL_IN 0 1 1 1 1 1 [Add 5 false true; Add 6 false true]
      (MkEvs (blank 4096 sizeof_event [2048; 8192; 16384]) demo_ready) with
  | Ok (v, MkEvs h u) => Some (v, closed_in (w_trace (r_world u)), map_to_list (blocks h))
  | _ => None
  end = Some (Some ([0; 0], [(6, true); (5, true)], 0), [3; 6], []).
Proof. by vm_compute. Qed.
