(* ===== verification/Frame.v ===== *)
(** The frame parser of [src/src/qp_tiny_stack.c] and [src/src/qp_tiny_stack/]: from the
    link layer to the ports of TCP and UDP, over the bytes of a frame and the structure
    that receives the result. A read outside the bytes that are there is a fault. *)

From S2P Require Import Prelude Pool.
#[local] Open Scope Z_scope.

(** * Protocol numbers and header sizes *)

Definition QP_STACK_LEVEL_DATALINK : Z := 1.
Definition QP_STACK_LEVEL_TRANSMIT : Z := 3.
Definition QP_STACK_PROTO_UNKNOWN : Z := 0.
Definition QP_STACK_PROTO_ETHERNET_II : Z := 1.
Definition QP_STACK_PROTO_ETHERNET_NOVELL : Z := 2.
Definition QP_STACK_PROTO_ETHERNET_802 : Z := 3.
Definition QP_STACK_PROTO_ETHERNET_SNAP : Z := 4.
Definition QP_STACK_PROTO_IP : Z := 0x31.
Definition QP_STACK_PROTO_IPV6 : Z := 0x32.
Definition QP_STACK_PROTO_ARP : Z := 0x33.
Definition QP_STACK_PROTO_RARP : Z := 0x34.
Definition QP_STACK_PROTO_IPX : Z := 0x35.
Definition QP_STACK_PROTO_NOVELL_IPX : Z := 0x36.
Definition QP_STACK_PROTO_SNMP : Z := 0x37.
Definition QP_STACK_PROTO_PPP : Z := 0x38.
Definition QP_STACK_PROTO_GSMP : Z := 0x39.
Definition QP_STACK_PROTO_AARP : Z := 0x3a.
Definition QP_STACK_PROTO_ESPS : Z := 0x3b.
Definition QP_STACK_PROTO_S_MPLS : Z := 0x3c.
Definition QP_STACK_PROTO_G_MPLS : Z := 0x3d.
Definition QP_STACK_PROTO_D_PPPOE : Z := 0x3e.
Definition QP_STACK_PROTO_S_PPPOE : Z := 0x3f.
Definition QP_STACK_PROTO_LWAPP : Z := 0x40.
Definition QP_STACK_PROTO_LLDP : Z := 0x41.
Definition QP_STACK_PROTO_EAPOL : Z := 0x42.
Definition QP_STACK_PROTO_LOOKBACK : Z := 0x43.
Definition QP_STACK_PROTO_VLAN1 : Z := 0x44.
Definition QP_STACK_PROTO_VLAN2 : Z := 0x45.
Definition QP_STACK_PROTO_ICMP : Z := 0x100.
Definition QP_STACK_PROTO_IGMP : Z := 0x101.
Definition QP_STACK_PROTO_TCP : Z := 0x102.
Definition QP_STACK_PROTO_UDP : Z := 0x103.
Definition QP_STACK_PROTO_GGP : Z := 0x104.
Definition QP_STACK_PROTO_IPENCAP : Z := 0x105.
Definition QP_STACK_PROTO_ST : Z := 0x106.
Definition QP_STACK_PROTO_EGP : Z := 0x107.
Definition QP_STACK_PROTO_IGP : Z := 0x108.
Definition QP_STACK_PROTO_PUP : Z := 0x109.
Definition DLT_EN10MB : Z := 1.

(** [struct qp_stack_mac_s], [struct qp_stack_802_s] *)
Definition mac_src : Z := 6.
Definition mac_typeNlen : Z := 12.
Definition llc_identify : Z := 14.
Definition sizeof_ethernet_II : Z := 14.
Definition sizeof_ethernet_802 : Z := 17.
(** [struct qp_stack_ethernet_snap_s] *)
Definition snap_type : Z := 20.
Definition sizeof_ethernet_snap : Z := 22.
(** [struct qp_stack_ipv4_s], [struct qp_stack_ipv6_s] *)
Definition ipv4_proto : Z := 9.
Definition ipv4_src : Z := 12.
Definition ipv4_dst : Z := 16.
Definition sizeof_ipv4 : Z := 20.
Definition ipv6_src : Z := 8.
Definition ipv6_dst : Z := 24.
(** [struct qp_stack_tcp_s], [struct qp_stack_udp_s] *)
Definition port_src : Z := 0.
Definition port_dst : Z := 2.
Definition sizeof_tcp : Z := 20.
Definition sizeof_udp : Z := 8.

(** * State *)

Record qp_stack_frame_result_t := MkResult {
  l2_type : Z; l2_offset : Z; l3_type : Z; l3_offset : Z; l4_type : Z; l4_offset : Z;
  data_offset : Z; sport : Z; dport : Z; smac : Z; dmac : Z; src_ : Z; dst_ : Z;
}.

Definition zero_result : qp_stack_frame_result_t := MkResult 0 0 0 0 0 0 0 0 0 0 0 0 0.

Definition set_l2_type v r := MkResult v (l2_offset r) (l3_type r) (l3_offset r) (l4_type r) (l4_offset r) (data_offset r) (sport r) (dport r) (smac r) (dmac r) (src_ r) (dst_ r).
Definition set_l3_type v r := MkResult (l2_type r) (l2_offset r) v (l3_offset r) (l4_type r) (l4_offset r) (data_offset r) (sport r) (dport r) (smac r) (dmac r) (src_ r) (dst_ r).
Definition set_l3_offset v r := MkResult (l2_type r) (l2_offset r) (l3_type r) v (l4_type r) (l4_offset r) (data_offset r) (sport r) (dport r) (smac r) (dmac r) (src_ r) (dst_ r).
Definition set_l4_type v r := MkResult (l2_type r) (l2_offset r) (l3_type r) (l3_offset r) v (l4_offset r) (data_offset r) (sport r) (dport r) (smac r) (dmac r) (src_ r) (dst_ r).
Definition set_l4_offset v r := MkResult (l2_type r) (l2_offset r) (l3_type r) (l3_offset r) (l4_type r) v (data_offset r) (sport r) (dport r) (smac r) (dmac r) (src_ r) (dst_ r).
Definition set_data_offset v r := MkResult (l2_type r) (l2_offset r) (l3_type r) (l3_offset r) (l4_type r) (l4_offset r) v (sport r) (dport r) (smac r) (dmac r) (src_ r) (dst_ r).
Definition set_sport v r := MkResult (l2_type r) (l2_offset r) (l3_type r) (l3_offset r) (l4_type r) (l4_offset r) (data_offset r) v (dport r) (smac r) (dmac r) (src_ r) (dst_ r).
Definition set_dport v r := MkResult (l2_type r) (l2_offset r) (l3_type r) (l3_offset r) (l4_type r) (l4_offset r) (data_offset r) (sport r) v (smac r) (dmac r) (src_ r) (dst_ r).
Definition set_smac v r := MkResult (l2_type r) (l2_offset r) (l3_type r) (l3_offset r) (l4_type r) (l4_offset r) (data_offset r) (sport r) (dport r) v (dmac r) (src_ r) (dst_ r).
Definition set_dmac v r := MkResult (l2_type r) (l2_offset r) (l3_type r) (l3_offset r) (l4_type r) (l4_offset r) (data_offset r) (sport r) (dport r) (smac r) v (src_ r) (dst_ r).
Definition set_src v r := MkResult (l2_type r) (l2_offset r) (l3_type r) (l3_offset r) (l4_type r) (l4_offset r) (data_offset r) (sport r) (dport r) (smac r) (dmac r) v (dst_ r).
Definition set_dst v r := MkResult (l2_type r) (l2_offset r) (l3_type r) (l3_offset r) (l4_type r) (l4_offset r) (data_offset r) (sport r) (dport r) (smac r) (dmac r) (src_ r) v.

(** The bytes that can be read, and the result structures. *)
Record stack := MkStack { st_bytes : gmap Z Z; st_results : gmap Z qp_stack_frame_result_t }.

#[export] Instance lens_results : Lens stack (gmap Z qp_stack_frame_result_t).
Proof. refine {| lget := st_results; lset r s := MkStack (st_bytes s) r |}; intros; by destruct s || done. Defined.

Abbreviation ST := (M stack).

(** A byte; two of them, as a little-endian machine loads them; the other order. *)
Definition byte_at (p : Z) : ST Z := λ s,
  if p =? NULL then Fault else match st_bytes s !! p with Some b => Ok (b, s) | None => Fault end.
Definition short_at (p : Z) : ST Z := lo ← byte_at p; hi ← byte_at (p + 1); mret (lo + 256 * hi).
Definition ntohs (v : Z) : Z := v / 256 + 256 * (v mod 256).

(** * Types *)

Definition qp_stack_datalink_get_type (type : Z) : Z :=
  if (0x0101 <=? type) && (type <=? 0x01ff) then QP_STACK_PROTO_UNKNOWN else
  if (0x0660 <=? type) && (type <=? 0x0661) then QP_STACK_PROTO_UNKNOWN else
  match type with
  | 0x0800 => QP_STACK_PROTO_IP
  | 0x0806 => QP_STACK_PROTO_ARP
  | 0x8035 => QP_STACK_PROTO_RARP
  | 0x8037 => QP_STACK_PROTO_NOVELL_IPX
  | 0x80f3 => QP_STACK_PROTO_AARP
  | 0x8100 => QP_STACK_PROTO_ESPS
  | 0x8137 => QP_STACK_PROTO_IPX
  | 0x814c => QP_STACK_PROTO_SNMP
  | 0x86dd => QP_STACK_PROTO_IPV6
  | 0x880b => QP_STACK_PROTO_PPP
  | 0x880c => QP_STACK_PROTO_GSMP
  | 0x8847 => QP_STACK_PROTO_S_MPLS
  | 0x8848 => QP_STACK_PROTO_G_MPLS
  | 0x8863 => QP_STACK_PROTO_D_PPPOE
  | 0x8864 => QP_STACK_PROTO_S_PPPOE
  | 0x88bb => QP_STACK_PROTO_LWAPP
  | 0x88cc => QP_STACK_PROTO_LLDP
  | 0x8e88 => QP_STACK_PROTO_EAPOL
  | 0x9000 => QP_STACK_PROTO_LOOKBACK
  | 0x9100 => QP_STACK_PROTO_VLAN1
  | 0x9200 => QP_STACK_PROTO_VLAN2
  | _ => QP_STACK_PROTO_UNKNOWN
  end.

Definition qp_stack_network_get_type (type : Z) : Z :=
  match type with
  | 0x01 => QP_STACK_PROTO_ICMP
  | 0x02 => QP_STACK_PROTO_IGMP
  | 0x03 => QP_STACK_PROTO_GGP
  | 0x04 => QP_STACK_PROTO_IPENCAP
  | 0x05 => QP_STACK_PROTO_ST
  | 0x06 => QP_STACK_PROTO_TCP
  | 0x08 => QP_STACK_PROTO_EGP
  | 0x09 => QP_STACK_PROTO_IGP
  | 0x0c => QP_STACK_PROTO_PUP
  | 0x11 => QP_STACK_PROTO_UDP
  | _ => QP_STACK_PROTO_UNKNOWN
  end.

(** * The layers *)

Definition qp_stack_datalink_ethernet_II (frame len result : Z) : ST Z :=
  l2 ← ld l2_offset result;
  let ethernet := frame + l2 in
  l2 ← ld l2_offset result; st (set_l3_offset (u32 (l2 + sizeof_ethernet_II))) result;;
  l3 ← ld l3_offset result;
  if len <? l3 then mret QP_STACK_PROTO_UNKNOWN else
  st (set_smac (ethernet + mac_src)) result;; st (set_dmac ethernet) result;;
  st (set_l2_type QP_STACK_PROTO_ETHERNET_II) result;;
  type ← short_at (ethernet + mac_typeNlen);
  st (set_l3_type (qp_stack_datalink_get_type (ntohs type))) result;;
  l3 ← ld l3_offset result; st (set_data_offset l3) result;;
  l2 ← ld l2_type result; mret (u16 l2).

Definition qp_stack_datalink_ethernet_802 (frame len result : Z) : ST Z :=
  l2 ← ld l2_offset result;
  let ethernet := frame + l2 in
  l2 ← ld l2_offset result; st (set_l3_offset (u32 (l2 + sizeof_ethernet_802))) result;;
  l3 ← ld l3_offset result;
  if len <? l3 then mret QP_STACK_PROTO_UNKNOWN else
  st (set_smac (ethernet + mac_src)) result;; st (set_dmac ethernet) result;;
  st (set_l2_type QP_STACK_PROTO_ETHERNET_802) result;;
  type ← short_at (ethernet + mac_typeNlen);
  st (set_l3_type (qp_stack_datalink_get_type (ntohs type))) result;;
  st (set_l3_type QP_STACK_PROTO_UNKNOWN) result;;
  l3 ← ld l3_offset result; st (set_data_offset l3) result;;
  l2 ← ld l2_type result; mret (u16 l2).

Definition qp_stack_datalink_ethernet_novell (frame len result : Z) : ST Z :=
  l2 ← ld l2_offset result;
  let ethernet := frame + l2 in
  l2 ← ld l2_offset result; st (set_l3_offset (u32 (l2 + sizeof_ethernet_II))) result;;
  l3 ← ld l3_offset result;
  if len <? l3 then mret QP_STACK_PROTO_UNKNOWN else
  st (set_smac (ethernet + mac_src)) result;; st (set_dmac ethernet) result;;
  st (set_l2_type QP_STACK_PROTO_ETHERNET_NOVELL) result;;
  st (set_l3_type QP_STACK_PROTO_IPX) result;;
  l3 ← ld l3_offset result; st (set_data_offset l3) result;;
  l2 ← ld l2_type result; mret (u16 l2).

Definition qp_stack_datalink_ethernet_snap (frame len result : Z) : ST Z :=
  l2 ← ld l2_offset result;
  let ethernet := frame + l2 in
  l2 ← ld l2_offset result; st (set_l3_offset (u32 (l2 + sizeof_ethernet_snap))) result;;
  l3 ← ld l3_offset result;
  if len <? l3 then mret QP_STACK_PROTO_UNKNOWN else
  st (set_smac (ethernet + mac_src)) result;; st (set_dmac ethernet) result;;
  st (set_l2_type QP_STACK_PROTO_ETHERNET_SNAP) result;;
  type ← short_at (ethernet + snap_type);
  st (set_l3_type (qp_stack_datalink_get_type (ntohs type))) result;;
  l3 ← ld l3_offset result; st (set_data_offset l3) result;;
  l2 ← ld l2_type result; mret (u16 l2).

Definition qp_stack_network_ipv4 (frame len result : Z) : ST Z :=
  l3 ← ld l3_offset result;
  let ip := frame + l3 in
  l3 ← ld l3_offset result; st (set_l4_offset (u32 (l3 + sizeof_ipv4))) result;;
  l4 ← ld l4_offset result;
  if len <? l4 then st (set_l3_type QP_STACK_PROTO_UNKNOWN) result;; mret QP_STACK_PROTO_UNKNOWN else
  proto ← byte_at (ip + ipv4_proto);
  st (set_l4_type (qp_stack_network_get_type proto)) result;;
  st (set_src (ip + ipv4_src)) result;; st (set_dst (ip + ipv4_dst)) result;;
  l4 ← ld l4_offset result; st (set_data_offset l4) result;;
  l3 ← ld l3_type result; mret (u16 l3).

(** The size of the header is that of IPv4, as in the code. *)
Definition qp_stack_network_ipv6 (frame len result : Z) : ST Z :=
  l3 ← ld l3_offset result;
  let ip := frame + l3 in
  l3 ← ld l3_offset result; st (set_l4_offset (u32 (l3 + sizeof_ipv4))) result;;
  l4 ← ld l4_offset result;
  if len <? l4 then st (set_l3_type QP_STACK_PROTO_UNKNOWN) result;; mret QP_STACK_PROTO_UNKNOWN else
  st (set_l4_type QP_STACK_PROTO_UNKNOWN) result;;
  st (set_src (ip + ipv6_src)) result;; st (set_dst (ip + ipv6_dst)) result;;
  l4 ← ld l4_offset result; st (set_data_offset l4) result;;
  l3 ← ld l3_type result; mret (u16 l3).

(** [qp_stack_transmit_tcp] and [qp_stack_transmit_udp] differ in the header. *)
Definition transmit (size frame len result : Z) : ST Z :=
  l4 ← ld l4_offset result;
  let header := frame + l4 in
  l4 ← ld l4_offset result; st (set_data_offset (u32 (l4 + size))) result;;
  data ← ld data_offset result;
  if len <? data then st (set_l4_type QP_STACK_PROTO_UNKNOWN) result;; mret QP_STACK_PROTO_UNKNOWN else
  port ← short_at (header + port_src); st (set_sport port) result;;
  port ← short_at (header + port_dst); st (set_dport port) result;;
  l4 ← ld l4_type result; mret (u16 l4).
Definition qp_stack_transmit_tcp : Z → Z → Z → ST Z := transmit sizeof_tcp.
Definition qp_stack_transmit_udp : Z → Z → Z → ST Z := transmit sizeof_udp.

(** * Choosing the parser of a layer *)

Definition qp_stack_datalink_parse (frame len link result : Z) : ST Z :=
  if (frame =? NULL) || (result =? NULL) then mret QP_STACK_PROTO_UNKNOWN else
  if link =? DLT_EN10MB then
    typeNlen ← short_at (frame + mac_typeNlen);
    if ntohs typeNlen <=? 0x05dc then
      identify ← short_at (frame + llc_identify);
      if ntohs identify =? 0xffff then
        st (set_l2_type QP_STACK_PROTO_ETHERNET_NOVELL) result;;
        qp_stack_datalink_ethernet_novell frame len result
      else if ntohs identify =? 0xaaaa then
        st (set_l2_type QP_STACK_PROTO_ETHERNET_SNAP) result;;
        qp_stack_datalink_ethernet_snap frame len result
      else
        st (set_l2_type QP_STACK_PROTO_ETHERNET_802) result;;
        qp_stack_datalink_ethernet_802 frame len result
    else qp_stack_datalink_ethernet_II frame len result
  else l2 ← ld l2_type result; mret (u16 l2).

Definition qp_stack_network_parse (frame len result : Z) : ST Z :=
  if (frame =? NULL) || (result =? NULL) then mret QP_STACK_PROTO_UNKNOWN else
  l3 ← ld l3_type result;
  if l3 =? QP_STACK_PROTO_IP then qp_stack_network_ipv4 frame len result
  else if l3 =? QP_STACK_PROTO_IPV6 then qp_stack_network_ipv6 frame len result
  else
    st (set_l3_type QP_STACK_PROTO_UNKNOWN) result;; l3 ← ld l3_type result; mret (u16 l3).

Definition qp_stack_transmit_parse (frame len result : Z) : ST Z :=
  if (frame =? NULL) || (result =? NULL) then mret QP_STACK_PROTO_UNKNOWN else
  l4 ← ld l4_type result;
  if l4 =? QP_STACK_PROTO_TCP then qp_stack_transmit_tcp frame len result
  else if l4 =? QP_STACK_PROTO_UDP then qp_stack_transmit_udp frame len result
  else
    st (set_l4_type QP_STACK_PROTO_UNKNOWN) result;; l4 ← ld l4_type result; mret (u16 l4).

(** One round of the loop over the layers. *)
Definition parse_body (frame len link result level i : Z) : ST (Z + Z) :=
  if negb (i <? level) then mret (inr QP_SUCCESS) else
  proto ← (if i =? 0 then qp_stack_datalink_parse frame len link result
           else if i =? 1 then qp_stack_network_parse frame len result
           else qp_stack_transmit_parse frame len result);
  if QP_STACK_PROTO_UNKNOWN =? proto then
    mret (inr (if negb (i =? level - 1) then QP_ERROR else QP_SUCCESS))
  else mret (inl (u16 (i + 1))).

Definition qp_stack_parse (frame len link result level : Z) : ST Z :=
  if (frame =? NULL) || (result =? NULL) then mret QP_ERROR else
  let level := if QP_STACK_LEVEL_TRANSMIT <? level then QP_STACK_LEVEL_TRANSMIT else level in
  let level := if level <? QP_STACK_LEVEL_DATALINK then QP_STACK_LEVEL_DATALINK else level in
  st (λ _, zero_result) result;;
  loop 4 (parse_body frame len link result level) 0.
