(* ===== verification/FrameProps.v ===== *)
(** Properties of the frame parser: what it makes of every frame, layer by layer. *)

From S2P Require Import Prelude Pool Frame.
#[local] Open Scope Z_scope.

(** * A result structure in memory *)

Definition put (s : stack) (p : Z) (r : qp_stack_frame_result_t) : stack :=
  MkStack (st_bytes s) (<[p := r]> (st_results s)).

(** The bytes of a frame lie at [frame]. *)
Definition framed (s : stack) (frame : Z) (bs : list Z) : Prop :=
  0 < frame ∧ ∀ i b, bs !! i = Some b → st_bytes s !! (frame + Z.of_nat i) = Some b.

(** Two bytes of a frame, in network order and as the machine loads them. *)
Definition byte (bs : list Z) (i : nat) : Z := nth i bs 0.
Definition short (bs : list Z) (i : nat) : Z := 256 * byte bs i + byte bs (i + 1).
Definition short_le (bs : list Z) (i : nat) : Z := byte bs i + 256 * byte bs (i + 1).

Section rules.
Context (s : stack) (p : Z) (Hp : p ≠ NULL).
Implicit Types r : qp_stack_frame_result_t.

Lemma wp_ld_put {Y} (field : qp_stack_frame_result_t → Y) r (Q : Y → stack → Prop) :
  Q (field r) (put s p r) → wp (ld field p) (put s p r) Q.
Proof using Hp. apply wp_ld; [done|]. cbn. by rewrite lookup_insert_eq. Qed.

Lemma wp_st_put upd r (Q : unit → stack → Prop) :
  Q tt (put s p (upd r)) → wp (st upd p) (put s p r) Q.
Proof using Hp.
  intros HQ. eapply wp_st; [done|cbn; by rewrite lookup_insert_eq|].
  cbn. by rewrite insert_insert_eq.
Qed.

Lemma wp_byte frame bs i r (Q : Z → stack → Prop) :
  framed s frame bs → (i < length bs)%nat → Q (byte bs i) (put s p r) →
  wp (byte_at (frame + Z.of_nat i)) (put s p r) Q.
Proof.
  intros [Hf Hb] Hi HQ. unfold wp, byte_at. rewrite (proj2 (Z.eqb_neq _ _)) by (unfold NULL; lia).
  cbn. destruct (nth_lookup_or_length bs i 0) as [E|]; [|lia]. by rewrite (Hb _ _ E).
Qed.

Lemma wp_short frame bs i r (Q : Z → stack → Prop) :
  framed s frame bs → (i + 1 < length bs)%nat → Q (short_le bs i) (put s p r) →
  wp (short_at (frame + Z.of_nat i)) (put s p r) Q.
Proof.
  intros Hf Hi HQ. unfold short_at. apply wp_bind. apply wp_byte with bs; [done|lia|].
  apply wp_bind. replace (frame + Z.of_nat i + 1) with (frame + Z.of_nat (i + 1)) by lia.
  by apply wp_byte with bs.
Qed.
End rules.

Lemma ntohs_short bs i :
  Forall (λ b, 0 ≤ b < 256) bs → ntohs (short_le bs i) = short bs i.
Proof.
  intros Hb. unfold ntohs, short_le, short.
  assert (∀ j, 0 ≤ byte bs j < 256) as Hj.
  { intros j. unfold byte. destruct (nth_lookup_or_length bs j 0) as [E|E].
    - by apply (Forall_lookup_1 _ _ _ _ Hb E).
    - rewrite nth_overflow; lia. }
  pose proof (Hj i). pose proof (Hj (i + 1)%nat).
  rewrite (Z.mul_comm 256), Z.div_add, Z.mod_add, Z.div_small, Z.mod_small by lia. lia.
Qed.

(** * The layers as functions of the bytes *)

(** How a link-layer header is read: its type, its size, and where the type of the
    next layer lies; [None] is a fixed answer. *)
Definition link_kind (bs : list Z) : Z * Z * (list Z → Z) :=
  if short bs 12 <=? 0x05dc then
    if short bs 14 =? 0xffff then (QP_STACK_PROTO_ETHERNET_NOVELL, 14, λ _, QP_STACK_PROTO_IPX)
    else if short bs 14 =? 0xaaaa then
      (QP_STACK_PROTO_ETHERNET_SNAP, 22, λ bs, qp_stack_datalink_get_type (short bs 20))
    else (QP_STACK_PROTO_ETHERNET_802, 17, λ _, QP_STACK_PROTO_UNKNOWN)
  else (QP_STACK_PROTO_ETHERNET_II, 14, λ bs, qp_stack_datalink_get_type (short bs 12)).

(** The result of a layer, and the structure it leaves. *)
Definition link_layer (bs : list Z) (frame len link : Z) : Z * qp_stack_frame_result_t :=
  if link =? DLT_EN10MB then
    let '(type, size, next) := link_kind bs in
    if len <? size then
      (QP_STACK_PROTO_UNKNOWN,
       set_l3_offset size (if type =? QP_STACK_PROTO_ETHERNET_II then zero_result
                           else set_l2_type type zero_result))
    else (type, MkResult type 0 (next bs) size 0 0 size 0 0 (frame + mac_src) frame 0 0)
  else (QP_STACK_PROTO_UNKNOWN, zero_result).

Definition network_layer (bs : list Z) (frame len : Z) (r : qp_stack_frame_result_t) :
    Z * qp_stack_frame_result_t :=
  let l4 := l3_offset r + sizeof_ipv4 in
  if (l3_type r =? QP_STACK_PROTO_IP) || (l3_type r =? QP_STACK_PROTO_IPV6) then
    if len <? l4 then (QP_STACK_PROTO_UNKNOWN, set_l3_type QP_STACK_PROTO_UNKNOWN (set_l4_offset l4 r))
    else
      let v4 := l3_type r =? QP_STACK_PROTO_IP in
      (l3_type r, MkResult (l2_type r) (l2_offset r) (l3_type r) (l3_offset r)
        (if v4 then qp_stack_network_get_type (byte bs (Z.to_nat (l3_offset r + ipv4_proto)))
         else QP_STACK_PROTO_UNKNOWN) l4 l4 (sport r) (dport r) (smac r) (dmac r)
        (frame + l3_offset r + if v4 then ipv4_src else ipv6_src)
        (frame + l3_offset r + if v4 then ipv4_dst else ipv6_dst))
  else (QP_STACK_PROTO_UNKNOWN, set_l3_type QP_STACK_PROTO_UNKNOWN r).

Definition transmit_layer (bs : list Z) (len : Z) (r : qp_stack_frame_result_t) :
    Z * qp_stack_frame_result_t :=
  if (l4_type r =? QP_STACK_PROTO_TCP) || (l4_type r =? QP_STACK_PROTO_UDP) then
    let data := l4_offset r + if l4_type r =? QP_STACK_PROTO_TCP then sizeof_tcp else sizeof_udp in
    if len <? data then
      (QP_STACK_PROTO_UNKNOWN, set_l4_type QP_STACK_PROTO_UNKNOWN (set_data_offset data r))
    else
      (l4_type r, set_dport (short_le bs (Z.to_nat (l4_offset r + port_dst)))
        (set_sport (short_le bs (Z.to_nat (l4_offset r + port_src))) (set_data_offset data r)))
  else (QP_STACK_PROTO_UNKNOWN, set_l4_type QP_STACK_PROTO_UNKNOWN r).

Definition parse_layers (bs : list Z) (frame len link level : Z) : Z * qp_stack_frame_result_t :=
  let end_ n := if negb (n =? level - 1) then QP_ERROR else QP_SUCCESS in
  let '(t, r) := link_layer bs frame len link in
  if t =? QP_STACK_PROTO_UNKNOWN then (end_ 0, r) else
  if level =? 1 then (QP_SUCCESS, r) else
  let '(t, r) := network_layer bs frame len r in
  if t =? QP_STACK_PROTO_UNKNOWN then (end_ 1, r) else
  if level =? 2 then (QP_SUCCESS, r) else
  let '(t, r) := transmit_layer bs len r in
  if t =? QP_STACK_PROTO_UNKNOWN then (end_ 2, r) else (QP_SUCCESS, r).

(** The numbers a layer gives the next one. *)
Definition network_types : list Z := QP_STACK_PROTO_UNKNOWN :: seqZ QP_STACK_PROTO_IP 0x15.
Definition transmit_types : list Z := QP_STACK_PROTO_UNKNOWN :: seqZ QP_STACK_PROTO_ICMP 0xa.

Lemma datalink_types t : qp_stack_datalink_get_type t ∈ network_types.
Proof.
  unfold qp_stack_datalink_get_type. repeat case_match; by apply (bool_decide_unpack _).
Qed.

Lemma ip_types t : qp_stack_network_get_type t ∈ transmit_types.
Proof. unfold qp_stack_network_get_type. repeat case_match; by apply (bool_decide_unpack _). Qed.

(** * The code computes them *)

Section code.
Context (s : stack) (frame len link result : Z) (bs : list Z).
Context (Hresult : result ≠ NULL) (Hf : framed s frame bs)
  (Hbytes : Forall (λ b, 0 ≤ b < 256) bs) (Hlen : 0 ≤ len ≤ Z.of_nat (length bs))
  (H31 : len < 2 ^ 31) (Hroom : (16 ≤ length bs)%nat).

#[local] Abbreviation at_ r := (put s result r).

Ltac fstep :=
  lazymatch goal with
  | |- wp (_ ≫= _) _ _ => apply wp_bind
  | |- wp (mret _) _ _ => apply wp_ret
  | |- wp (ld _ _) (put _ _ _) _ => apply wp_ld_put; [done|]
  | |- wp (st _ _) (put _ _ _) _ => apply wp_st_put; [done|]
  | |- wp (if ?b then ?m1 else ?m2) ?w ?Q =>
      let b' := eval cbn in b in
      match b' with true => change (wp m1 w Q) | false => change (wp m2 w Q) end
  end; cbn beta iota.

(** The four link-layer headers are read alike. *)
Ltac link_header i :=
  repeat fstep;
  match goal with |- wp (if len <? ?x then _ else _) _ _ =>
    let y := eval vm_compute in x in change x with y; destruct (Z.ltb_spec len y) end;
  [by fstep|]; rewrite ?Z.add_0_r; repeat fstep;
  try (apply (wp_short s result frame bs i); [done|lia|]; rewrite ntohs_short by done; repeat fstep);
  split; [done|]; rewrite ?Z.add_0_r; reflexivity.

Lemma datalink_ok :
  wp (qp_stack_datalink_parse frame len link result) (at_ zero_result) (λ t s',
    t = (link_layer bs frame len link).1 ∧ s' = at_ (link_layer bs frame len link).2).
Proof using All.
  unfold qp_stack_datalink_parse, link_layer, link_kind.
  rewrite !(proj2 (Z.eqb_neq _ NULL)) by (done || (destruct Hf; unfold NULL; lia)). fstep.
  destruct (Z.eqb_spec link DLT_EN10MB); [|repeat fstep; by split].
  fstep. apply (wp_short s result frame bs 12); [done|lia|]. rewrite ntohs_short by done.
  destruct (Z.leb_spec (short bs 12) 0x05dc).
  - fstep. apply (wp_short s result frame bs 14); [done|lia|]. rewrite ntohs_short by done.
    destruct (Z.eqb_spec (short bs 14) 0xffff); [|destruct (Z.eqb_spec (short bs 14) 0xaaaa)].
    + unfold qp_stack_datalink_ethernet_novell. link_header 0%nat.
    + unfold qp_stack_datalink_ethernet_snap. link_header 20%nat.
    + unfold qp_stack_datalink_ethernet_802. link_header 12%nat.
  - unfold qp_stack_datalink_ethernet_II. link_header 12%nat.
Qed.


(** What a layer finds: the offset of its header inside the frame. *)
Lemma network_ok r :
  0 ≤ l3_offset r ≤ len →
  wp (qp_stack_network_parse frame len result) (at_ r) (λ t s',
    t = (network_layer bs frame len r).1 ∧ s' = at_ (network_layer bs frame len r).2).
Proof using All.
  intros Hl3. unfold qp_stack_network_parse, network_layer.
  rewrite !(proj2 (Z.eqb_neq _ NULL)) by (done || (destruct Hf; unfold NULL; lia)). repeat fstep.
  assert (u32 (l3_offset r + sizeof_ipv4) = l3_offset r + sizeof_ipv4) as Hw
    by (apply wrap_small; unfold sizeof_ipv4; lia).
  destruct (Z.eqb_spec (l3_type r) QP_STACK_PROTO_IP) as [E|E]; cbn [orb].
  - unfold qp_stack_network_ipv4. repeat fstep. rewrite Hw. cbn [l4_offset set_l4_offset].
    destruct (Z.ltb_spec len (l3_offset r + sizeof_ipv4)); [repeat fstep; by split|]. fstep.
    replace (frame + l3_offset r + ipv4_proto) with
      (frame + Z.of_nat (Z.to_nat (l3_offset r + ipv4_proto))) by (unfold ipv4_proto; lia).
    apply (wp_byte s result frame bs); [done|unfold ipv4_proto, sizeof_ipv4 in *; lia|].
    repeat fstep. cbn. split; [by rewrite E|by destruct r; cbn in *; subst].
  - destruct (Z.eqb_spec (l3_type r) QP_STACK_PROTO_IPV6) as [E'|E'].
    + unfold qp_stack_network_ipv6. repeat fstep. rewrite Hw. cbn [l4_offset set_l4_offset].
      destruct (Z.ltb_spec len (l3_offset r + sizeof_ipv4)); repeat fstep; [by split|].
      cbn. split; [by rewrite E'|by destruct r; cbn in *; subst].
    + repeat fstep. by split.
Qed.

Lemma transmit_ok r :
  0 ≤ l4_offset r ≤ len →
  wp (qp_stack_transmit_parse frame len result) (at_ r) (λ t s',
    t = (transmit_layer bs len r).1 ∧ s' = at_ (transmit_layer bs len r).2).
Proof using All.
  intros Hl4. unfold qp_stack_transmit_parse, transmit_layer.
  rewrite !(proj2 (Z.eqb_neq _ NULL)) by (done || (destruct Hf; unfold NULL; lia)). repeat fstep.
  assert (∀ size, 4 ≤ size ≤ 20 → l4_type r < 2 ^ 16 → 0 ≤ l4_type r →
    wp (transmit size frame len result) (at_ r) (λ t s',
      let out := if len <? l4_offset r + size then
          (QP_STACK_PROTO_UNKNOWN, set_l4_type QP_STACK_PROTO_UNKNOWN (set_data_offset (l4_offset r + size) r))
        else (l4_type r, set_dport (short_le bs (Z.to_nat (l4_offset r + port_dst)))
          (set_sport (short_le bs (Z.to_nat (l4_offset r + port_src))) (set_data_offset (l4_offset r + size) r)))
      in t = out.1 ∧ s' = at_ out.2)) as Hports.
  { intros size Hs Ht Ht'. unfold transmit. repeat fstep. rewrite (wrap_small 32) by lia.
    cbn [data_offset set_data_offset].
    destruct (Z.ltb_spec len (l4_offset r + size)); [repeat fstep; by split|].
    unfold port_src, port_dst. fstep.
    replace (frame + l4_offset r + 0) with (frame + Z.of_nat (Z.to_nat (l4_offset r + 0))) by lia.
    apply (wp_short s result frame bs); [done|lia|]. repeat fstep.
    replace (frame + l4_offset r + 2) with (frame + Z.of_nat (Z.to_nat (l4_offset r + 2))) by lia.
    apply (wp_short s result frame bs); [done|lia|]. repeat fstep. cbn.
    by rewrite wrap_small by lia. }
  destruct (Z.eqb_spec (l4_type r) QP_STACK_PROTO_TCP) as [E|E]; cbn [orb].
  - apply Hports; rewrite ?E; unfold sizeof_tcp, QP_STACK_PROTO_TCP; lia.
  - destruct (Z.eqb_spec (l4_type r) QP_STACK_PROTO_UDP) as [E'|E'].
    + apply Hports; rewrite ?E'; unfold sizeof_udp, QP_STACK_PROTO_UDP; lia.
    + repeat fstep. by split.
Qed.

Lemma link_inside r t :
  link_layer bs frame len link = (t, r) → t ≠ QP_STACK_PROTO_UNKNOWN → 0 ≤ l3_offset r ≤ len.
Proof using All.
  unfold link_layer, link_kind. intros E Ht.
  repeat case_match; simplify_eq; cbn in *; try done; lia.
Qed.

Lemma network_inside r r' t :
  network_layer bs frame len r = (t, r') → t ≠ QP_STACK_PROTO_UNKNOWN → 0 ≤ l3_offset r →
  0 ≤ l4_offset r' ≤ len.
Proof using All.
  unfold network_layer, sizeof_ipv4. intros E Ht Hl3.
  repeat case_match; simplify_eq; cbn in *; try done; lia.
Qed.

(** The level asked for, as the code limits it. *)
Definition clip (level : Z) : Z :=
  if QP_STACK_LEVEL_TRANSMIT <? level then QP_STACK_LEVEL_TRANSMIT
  else if level <? QP_STACK_LEVEL_DATALINK then QP_STACK_LEVEL_DATALINK else level.

(** One round of the loop, given what the parser of the layer does. *)
Lemma round_ok i level t r r' (Q : Z + Z → stack → Prop) :
  0 ≤ i < level → level ≤ 3 →
  wp (if i =? 0 then qp_stack_datalink_parse frame len link result
      else if i =? 1 then qp_stack_network_parse frame len result
      else qp_stack_transmit_parse frame len result) (at_ r) (λ t' s', t' = t ∧ s' = at_ r') →
  (t = QP_STACK_PROTO_UNKNOWN →
     Q (inr (if negb (i =? level - 1) then QP_ERROR else QP_SUCCESS)) (at_ r')) →
  (t ≠ QP_STACK_PROTO_UNKNOWN → Q (inl (i + 1)) (at_ r')) →
  wp (parse_body frame len link result level i) (at_ r) Q.
Proof using All.
  intros Hi Hl Hm Hno Hyes. unfold parse_body. rewrite (proj2 (Z.ltb_lt i level)) by lia.
  cbn [negb]. apply wp_bind. eapply wp_mono; [exact Hm|]. intros ? ? [-> ->]. cbn beta.
  destruct (Z.eqb_spec QP_STACK_PROTO_UNKNOWN t) as [E|E].
  - by apply wp_ret, Hno.
  - apply wp_ret. rewrite wrap_small by lia. by apply Hyes.
Qed.

Lemma round_done level r (Q : Z + Z → stack → Prop) :
  Q (inr QP_SUCCESS) (at_ r) → wp (parse_body frame len link result level level) (at_ r) Q.
Proof. intros HQ. unfold parse_body. by rewrite Z.ltb_irrefl. Qed.

Lemma parse_ok level :
  is_Some (st_results s !! result) →
  wp (qp_stack_parse frame len link result level) s (λ v s',
    let out := parse_layers bs frame len link (clip level) in v = out.1 ∧ s' = at_ out.2).
Proof using All.
  intros [r0 Hr0]. unfold qp_stack_parse.
  rewrite !(proj2 (Z.eqb_neq _ NULL)) by (done || (destruct Hf; unfold NULL; lia)).
  cbn [orb]. apply wp_bind. eapply wp_st; [done|done|]. change (lset _ s) with (at_ zero_result).
  set (lv := if _ <? QP_STACK_LEVEL_DATALINK then _ else _).
  assert (lv = clip level ∧ (clip level = 1 ∨ clip level = 2 ∨ clip level = 3)) as [-> Hlv].
  { unfold lv, clip, QP_STACK_LEVEL_DATALINK, QP_STACK_LEVEL_TRANSMIT.
    destruct (Z.ltb_spec 3 level); [cbn; lia|]. destruct (Z.ltb_spec level 1); lia. }
  generalize dependent (clip level). clear level. intros level Hlv.
  unfold parse_layers. pose proof datalink_ok as Hd. pose proof link_inside as Hl.
  destruct (link_layer bs frame len link) as [t1 r1]. cbn [fst snd] in Hd.
  cbn [loop]. apply wp_bind. eapply (round_ok 0 level t1 _ r1); [lia|lia|exact Hd| |].
  { intros ->. apply wp_ret. by destruct Hlv as [->|[->| ->]]. }
  intros Ht1. specialize (Hl _ _ eq_refl Ht1). rewrite (proj2 (Z.eqb_neq _ _) Ht1).
  apply wp_bind. destruct (Z.eqb_spec level 1) as [->|Hl1].
  { apply round_done. by apply wp_ret. }
  pose proof (network_ok r1 Hl) as Hn. pose proof (network_inside r1) as Hl2.
  destruct (network_layer bs frame len r1) as [t2 r2]. cbn [fst snd] in Hn.
  eapply (round_ok 1 level t2 _ r2); [lia|lia|exact Hn| |].
  { intros ->. apply wp_ret. by destruct Hlv as [->|[->| ->]]. }
  intros Ht2. specialize (Hl2 _ _ eq_refl Ht2 (proj1 Hl)). rewrite (proj2 (Z.eqb_neq _ _) Ht2).
  apply wp_bind. destruct (Z.eqb_spec level 2) as [->|Hl2'].
  { apply round_done. by apply wp_ret. }
  assert (level = 3) as -> by lia.
  pose proof (transmit_ok r2 Hl2) as Hs. destruct (transmit_layer bs len r2) as [t3 r3].
  cbn [fst snd] in Hs. eapply (round_ok 2 3 t3 _ r3); [lia|lia|exact Hs| |].
  { intros ->. by apply wp_ret. }
  intros Ht3. rewrite (proj2 (Z.eqb_neq _ _) Ht3). apply wp_bind, round_done. by apply wp_ret.
Qed.
End code.

(** * Properties *)

Lemma link_types bs frame len link t r :
  link_layer bs frame len link = (t, r) → 0 ≤ len →
  t ∈ seqZ 0 5 ∧ l2_type r ∈ seqZ 0 5 ∧ l4_type r = 0 ∧
  (t = QP_STACK_PROTO_UNKNOWN → l3_type r = 0) ∧
  (t ≠ QP_STACK_PROTO_UNKNOWN → l2_type r = t ∧ l3_type r ∈ network_types ∧ 14 ≤ l3_offset r ≤ len).
Proof.
  unfold link_layer, link_kind. intros E Hlen.
  repeat case_match; simplify_eq; cbn in *; split_and!; try done;
    try (by apply (bool_decide_unpack _)); intros; try done; split_and!; try done; try lia;
    first [by apply datalink_types | by apply (bool_decide_unpack _)].
Qed.

(** What a result says is sound. *)
Record sound (len level v : Z) (r : qp_stack_frame_result_t) : Prop := {
  sound_ret : v = QP_SUCCESS ∨ v = QP_ERROR;
  sound_l2 : l2_type r ∈ seqZ 0 5;
  sound_l3 : l3_type r ∈ network_types;
  sound_l4 : l4_type r ∈ transmit_types;
  sound_network : l3_type r ≠ 0 → l2_type r ≠ 0 ∧ 14 ≤ l3_offset r ≤ len;
  sound_transmit : l4_type r ≠ 0 → l3_type r = QP_STACK_PROTO_IP ∧
    l4_offset r = l3_offset r + sizeof_ipv4 ∧ l4_offset r ≤ len;
  sound_data : l4_type r ≠ 0 → 3 ≤ level → v = QP_SUCCESS ∧ data_offset r ≤ len;
}.

Lemma network_result bs frame len r t r' :
  network_layer bs frame len r = (t, r') → l4_type r = 0 →
  l2_type r' = l2_type r ∧ l3_offset r' = l3_offset r ∧ l4_type r' ∈ transmit_types ∧
  (t = QP_STACK_PROTO_UNKNOWN → l3_type r' = 0 ∧ l4_type r' = 0) ∧
  (t ≠ QP_STACK_PROTO_UNKNOWN → l3_type r' = l3_type r ∧
     l4_offset r' = l3_offset r' + sizeof_ipv4 ∧ l4_offset r' ≤ len ∧
     (l4_type r' ≠ 0 → l3_type r' = QP_STACK_PROTO_IP)).
Proof.
  unfold network_layer. intros E H4.
  destruct (Z.eqb_spec (l3_type r) QP_STACK_PROTO_IP) as [E4|E4];
    [|destruct (Z.eqb_spec (l3_type r) QP_STACK_PROTO_IPV6) as [E6|E6]]; cbn [orb] in E;
    [destruct (Z.ltb_spec len (l3_offset r + sizeof_ipv4))..|]; simplify_eq; cbn;
    rewrite ?H4, ?E4, ?E6; split_and!; try done; try (by left); by apply ip_types.
Qed.

Lemma transmit_result bs len r t r' :
  transmit_layer bs len r = (t, r') →
  l2_type r' = l2_type r ∧ l3_type r' = l3_type r ∧ l3_offset r' = l3_offset r ∧
  l4_offset r' = l4_offset r ∧
  (t = QP_STACK_PROTO_UNKNOWN → l4_type r' = 0) ∧
  (t ≠ QP_STACK_PROTO_UNKNOWN → l4_type r' = l4_type r ∧ data_offset r' ≤ len).
Proof.
  unfold transmit_layer. intros E.
  destruct (Z.eqb_spec (l4_type r) QP_STACK_PROTO_TCP) as [E4|E4];
    [|destruct (Z.eqb_spec (l4_type r) QP_STACK_PROTO_UDP) as [E6|E6]]; cbn [orb] in E;
    [destruct (Z.ltb_spec len (l4_offset r + sizeof_tcp))
    |destruct (Z.ltb_spec len (l4_offset r + sizeof_udp))|]; simplify_eq; cbn; by split_and!.
Qed.

Lemma layers_sound bs frame len link level :
  0 ≤ len →
  let out := parse_layers bs frame len link (clip level) in sound len level out.1 out.2.
Proof.
  intros Hlen. unfold parse_layers.
  destruct (link_layer bs frame len link) as [t1 r1] eqn:E1.
  destruct (link_types _ _ _ _ _ _ E1 Hlen) as (Ht1 & Hl2 & Hl4 & Hno & Hyes).
  assert (0 ∈ network_types ∧ 0 ∈ transmit_types) as [H0 H0'] by (split; left).
  assert (∀ n, (if negb (n =? clip level - 1) then QP_ERROR else QP_SUCCESS) = QP_SUCCESS ∨
    (if negb (n =? clip level - 1) then QP_ERROR else QP_SUCCESS) = QP_ERROR) as Hret
    by (intros n; destruct (n =? _); cbn; tauto).
  destruct (Z.eqb_spec t1 QP_STACK_PROTO_UNKNOWN) as [Z1|Z1].
  { specialize (Hno Z1). split; cbn [fst snd]; try done; by rewrite ?Hno, ?Hl4. }
  destruct (Hyes Z1) as (El2 & Hl3 & Hin).
  assert (3 ≤ level → clip level = 3) as Hclip.
  { unfold clip, QP_STACK_LEVEL_TRANSMIT, QP_STACK_LEVEL_DATALINK. intros ?.
    destruct (Z.ltb_spec 3 level); [done|]. destruct (Z.ltb_spec level 1); lia. }
  assert (l2_type r1 ≠ 0) by (by rewrite El2).
  destruct (Z.eqb_spec (clip level) 1) as [L1|L1].
  { split; cbn [fst snd]; try done; try (by left); rewrite ?Hl4; done. }
  destruct (network_layer bs frame len r1) as [t2 r2] eqn:E2.
  destruct (network_result _ _ _ _ _ _ E2 Hl4) as (El2' & El3 & Ht & Hno2 & Hyes2).
  destruct (Z.eqb_spec t2 QP_STACK_PROTO_UNKNOWN) as [Z2|Z2].
  { destruct (Hno2 Z2) as [Hn3 Hn4].
    split; cbn [fst snd]; rewrite ?El2', ?El3, ?Hn3, ?Hn4; done. }
  destruct (Hyes2 Z2) as (E3 & E4 & Hl4len & Hip).
  destruct (Z.eqb_spec (clip level) 2) as [L2|L2].
  { split; cbn [fst snd]; rewrite ?El2', ?E3; try done; try (by left); rewrite ?El3; try done.
    - intros ?. split_and!; [by rewrite <-E3; apply Hip|by rewrite <-El3|done].
    - intros ? ?%Hclip. lia. }
  destruct (transmit_layer bs len r2) as [t3 r3] eqn:E5.
  destruct (transmit_result _ _ _ _ _ E5) as (F2 & F3 & F3' & F4 & Hno3 & Hyes3).
  destruct (Z.eqb_spec t3 QP_STACK_PROTO_UNKNOWN) as [Z3|Z3].
  { specialize (Hno3 Z3). split; cbn [fst snd]; rewrite ?F2, ?F3, ?F3', ?Hno3, ?El2', ?E3, ?El3; done. }
  destruct (Hyes3 Z3) as [G4 Gd].
  split; cbn [fst snd]; rewrite ?F2, ?F3, ?F3', ?F4, ?G4, ?El2', ?E3, ?El3; try done; try (by left).
  intros ?. split_and!; [by rewrite <-E3; apply Hip|by rewrite <-El3|done].
Qed.

(** C38. Every frame is parsed, whatever its bytes, its length, the link type and the
    level: if at least 16 bytes can be read, and no fewer than the length given, no read
    leaves the frame, only the result structure changes, and what it says is sound:
    each type is a number of its own layer; a network header claimed lies behind a
    link header, inside the frame; a transport header claimed lies behind an IPv4
    header of 20 bytes, inside the frame; and at the last level its own header is
    inside too. *)
Theorem frame_layers s frame bs len link result level :
  framed s frame bs → Forall (λ b, 0 ≤ b < 256) bs → (16 ≤ length bs)%nat →
  0 ≤ len ≤ Z.of_nat (length bs) → len < 2 ^ 31 →
  result ≠ NULL → is_Some (st_results s !! result) →
  ∃ v r, qp_stack_parse frame len link result level s = Ok (v, put s result r) ∧
    sound len level v r.
Proof.
  intros Hf Hb H16 Hlen H31 Hres Hr.
  destruct (wp_elim _ _ _ (parse_ok s frame len link result bs Hres Hf Hb Hlen H31 H16 level Hr))
    as (v & s' & E & -> & ->).
  eexists _, _. split; [exact E|]. apply layers_sound. lia.
Qed.

(** ** Witness and round trip *)

(** Two bytes in network order. *)
Definition be16 (v : Z) : list Z := [v / 256; v mod 256].

(** An Ethernet II frame with an IPv4 header of 20 bytes: what precedes and follows
    its protocol number is free. *)
Definition ipv4_frame (dst src h0 : list Z) (proto : Z) (h1 saddr daddr : list Z) (sp dp : Z)
    (rest : list Z) : list Z :=
  dst ++ src ++ be16 0x0800 ++ h0 ++ [proto] ++ h1 ++ saddr ++ daddr ++ be16 sp ++ be16 dp ++ rest.

(** A list of known length, element by element. *)
Ltac elements l H :=
  repeat (destruct l as [|? l]; [discriminate H|]; cbn [length] in H; apply (f_equal pred) in H;
          cbn [pred] in H);
  apply nil_length_inv in H; subst l.

Lemma parse_ipv4_frame dst src h0 proto h1 saddr daddr sp dp rest frame :
  length dst = 6%nat → length src = 6%nat → length h0 = 9%nat → length h1 = 2%nat →
  length saddr = 4%nat → length daddr = 4%nat →
  let bs := ipv4_frame dst src h0 proto h1 saddr daddr sp dp rest in
  let l4 := qp_stack_network_get_type proto in
  let size := if l4 =? QP_STACK_PROTO_TCP then sizeof_tcp else sizeof_udp in
  l4 = QP_STACK_PROTO_TCP ∨ l4 = QP_STACK_PROTO_UDP →
  size ≤ 4 + Z.of_nat (length rest) →
  parse_layers bs frame (Z.of_nat (length bs)) DLT_EN10MB 3 =
    (QP_SUCCESS, MkResult QP_STACK_PROTO_ETHERNET_II 0 QP_STACK_PROTO_IP 14 l4 34 (34 + size)
       (ntohs sp) (ntohs dp) (frame + 6) frame (frame + 26) (frame + 30)).
Proof.
  intros Hd Hs Hh0 Hh1 Hsa Hda bs l4 size Hl4 Hsize.
  assert (Z.of_nat (length bs) = 38 + Z.of_nat (length rest)) as Hlen.
  { unfold bs, ipv4_frame, be16. rewrite !length_app. cbn [length]. lia. }
  assert (short bs 12 = 0x0800 ∧ byte bs 23 = proto ∧ short_le bs 34 = ntohs sp ∧
    short_le bs 36 = ntohs dp) as (H12 & H23 & H34 & H36).
  { unfold bs. clear Hlen Hsize size bs.
    elements dst Hd. elements src Hs. elements h0 Hh0. elements h1 Hh1. elements saddr Hsa.
    elements daddr Hda. by split_and!. }
  assert (8 ≤ size ≤ 20) by (unfold size; destruct (_ =? _); unfold sizeof_tcp, sizeof_udp; lia).
  generalize dependent bs. intros bs Hlen H12 H23 H34 H36.
  unfold parse_layers, link_layer, link_kind. rewrite H12. cbn [Z.eqb DLT_EN10MB Pos.eqb].
  change (2048 <=? 1500) with false. cbn iota.
  rewrite (proj2 (Z.ltb_ge (Z.of_nat (length bs)) 14)) by lia. cbn iota.
  change (QP_STACK_PROTO_ETHERNET_II =? QP_STACK_PROTO_UNKNOWN) with false. change (3 =? 1) with false.
  cbn beta iota. rewrite H12. change (qp_stack_datalink_get_type 2048) with QP_STACK_PROTO_IP.
  unfold network_layer. cbn [l3_type l3_offset]. change (14 + sizeof_ipv4) with 34.
  change (QP_STACK_PROTO_IP =? QP_STACK_PROTO_IP) with true. cbn [orb].
  rewrite (proj2 (Z.ltb_ge (Z.of_nat (length bs)) 34)) by lia.
  change (Z.to_nat (14 + ipv4_proto)) with 23%nat. rewrite H23. fold l4.
  change (QP_STACK_PROTO_IP =? QP_STACK_PROTO_UNKNOWN) with false. change (3 =? 2) with false. cbn iota.
  unfold transmit_layer. cbn [l4_type l4_offset]. fold size.
  assert (((l4 =? QP_STACK_PROTO_TCP) || (l4 =? QP_STACK_PROTO_UDP)) = true) as ->
    by (destruct Hl4 as [->| ->]; done).
  rewrite (proj2 (Z.ltb_ge (Z.of_nat (length bs)) (34 + size))) by lia.
  assert ((l4 =? QP_STACK_PROTO_UNKNOWN) = false) as -> by (destruct Hl4 as [->| ->]; done).
  change (Z.to_nat (34 + port_src)) with 34%nat. change (Z.to_nat (34 + port_dst)) with 36%nat.
  rewrite H34, H36. unfold set_dport, set_sport, set_data_offset. cbn.
  by rewrite <-!Z.add_assoc.
Qed.

(** C39. What is written into an Ethernet frame is found again: for every UDP or TCP packet
    over IPv4 without options, [qp_stack_parse] returns QP_SUCCESS with the types and
    offsets of its headers, the addresses of the four address fields, and the ports as
    they stand in the packet, in network order. *)
Theorem frame_roundtrip s frame link result level dst src h0 proto h1 saddr daddr sp dp rest :
  let bs := ipv4_frame dst src h0 proto h1 saddr daddr sp dp rest in
  let l4 := qp_stack_network_get_type proto in
  let size := if l4 =? QP_STACK_PROTO_TCP then sizeof_tcp else sizeof_udp in
  length dst = 6%nat → length src = 6%nat → length h0 = 9%nat → length h1 = 2%nat →
  length saddr = 4%nat → length daddr = 4%nat →
  l4 = QP_STACK_PROTO_TCP ∨ l4 = QP_STACK_PROTO_UDP → size ≤ 4 + Z.of_nat (length rest) →
  framed s frame bs → Forall (λ b, 0 ≤ b < 256) bs → Z.of_nat (length bs) < 2 ^ 31 →
  result ≠ NULL → is_Some (st_results s !! result) → link = DLT_EN10MB → 3 ≤ level →
  qp_stack_parse frame (Z.of_nat (length bs)) link result level s =
    Ok (QP_SUCCESS, put s result
      (MkResult QP_STACK_PROTO_ETHERNET_II 0 QP_STACK_PROTO_IP 14 l4 34 (34 + size)
         (ntohs sp) (ntohs dp) (frame + 6) frame (frame + 26) (frame + 30))).
Proof.
  intros bs l4 size Hd Hs Hh0 Hh1 Hsa Hda Hl4 Hsize Hf Hb H31 Hres Hr -> Hlev.
  pose proof (parse_ipv4_frame dst src h0 proto h1 saddr daddr sp dp rest frame
    Hd Hs Hh0 Hh1 Hsa Hda Hl4 Hsize) as E. fold bs l4 size in E.
  assert (16 ≤ length bs)%nat as H16.
  { unfold bs, ipv4_frame, be16. rewrite !length_app. cbn [length]. lia. }
  destruct (wp_elim _ _ _ (parse_ok s frame _ DLT_EN10MB result bs Hres Hf Hb
    (conj (Nat2Z.is_nonneg _) (Z.le_refl _)) H31 H16 level Hr)) as (v & s' & E' & -> & ->).
  assert (clip level = 3) as Hclip.
  { unfold clip, QP_STACK_LEVEL_TRANSMIT, QP_STACK_LEVEL_DATALINK.
    destruct (Z.ltb_spec 3 level); [done|]. destruct (Z.ltb_spec level 1); lia. }
  rewrite Hclip, E in E'. exact E'.
Qed.

(** C40. The length is looked at too late: a frame of fewer than 14 bytes, or of fewer than
    16 with a length field below 0x5dd, is read behind its end by
    [qp_stack_datalink_parse], even when its length is given truthfully. *)
Theorem frame_short_faults s frame bs len result level :
  framed s frame bs → (∀ i, (length bs ≤ i)%nat → st_bytes s !! (frame + Z.of_nat i) = None) →
  Forall (λ b, 0 ≤ b < 256) bs →
  (length bs < 14)%nat ∨ (length bs < 16)%nat ∧ short bs 12 ≤ 0x5dc →
  result ≠ NULL → is_Some (st_results s !! result) →
  qp_stack_parse frame len DLT_EN10MB result level s = Fault.
Proof.
  intros Hf Hend Hb Hshort Hres [r0 Hr0]. pose proof Hf as [Hpos Hbs].
  assert (∀ p, 0 < p → (p =? NULL) = false) as Hnn by (intros; unfold NULL; lia).
  assert (∀ i r, (length bs ≤ i)%nat → byte_at (frame + Z.of_nat i) (put s result r) = Fault) as Hout.
  { intros i r Hi. unfold byte_at. rewrite Hnn by lia. cbn. by rewrite (Hend i Hi). }
  assert (∀ i r, (length bs ≤ i + 1)%nat →
    short_at (frame + Z.of_nat i) (put s result r) = Fault) as Hshort_out.
  { intros i r Hi. unfold short_at, mbind, M_bind.
    destruct (decide (length bs ≤ i)%nat) as [Hge|Hlt]; [by rewrite Hout|].
    destruct (wp_elim _ _ _ (wp_byte s result frame bs i r (λ _ s', s' = put s result r) Hf
      ltac:(lia) eq_refl)) as (b & s' & -> & ->).
    replace (frame + Z.of_nat i + 1) with (frame + Z.of_nat (i + 1)) by lia. by rewrite Hout. }
  unfold qp_stack_parse. rewrite (proj2 (Z.eqb_neq _ _) Hres), Hnn by done. cbn [orb]. cbv zeta.
  set (lv := if _ <? QP_STACK_LEVEL_DATALINK then _ else _).
  assert ((0 <? lv) = true) as Hlv.
  { unfold lv, QP_STACK_LEVEL_DATALINK, QP_STACK_LEVEL_TRANSMIT.
    destruct (Z.ltb_spec 3 level); [done|]. destruct (Z.ltb_spec level 1); lia. }
  assert (st (λ _, zero_result) result s = Ok (tt, put s result zero_result)) as Est.
  { unfold st. rewrite (proj2 (Z.eqb_neq _ _) Hres). change (lget s) with (st_results s). by rewrite Hr0. }
  unfold mbind at 1, M_bind at 1. rewrite Est. cbn [loop].
  enough (parse_body frame len DLT_EN10MB result lv 0 (put s result zero_result) = Fault) as E
    by (unfold mbind, M_bind; by rewrite E).
  unfold parse_body. rewrite Hlv. cbn [negb Z.eqb]. unfold qp_stack_datalink_parse.
  rewrite (proj2 (Z.eqb_neq _ _) Hres), Hnn by done. cbn [orb].
  change (DLT_EN10MB =? DLT_EN10MB) with true. cbn iota.
  change (frame + mac_typeNlen) with (frame + Z.of_nat 12).
  change (frame + llc_identify) with (frame + Z.of_nat 14).
  destruct (decide (length bs < 14)%nat) as [H14|H14].
  { unfold mbind, M_bind. by rewrite Hshort_out by lia. }
  destruct Hshort as [?|[H16 Htype]]; [lia|].
  destruct (wp_elim _ _ _ (wp_short s result frame bs 12 zero_result
    (λ v s', v = short_le bs 12 ∧ s' = put s result zero_result) Hf ltac:(lia) (conj eq_refl eq_refl)))
    as (b & s' & E & -> & ->).
  unfold mbind, M_bind. rewrite E, ntohs_short by done. rewrite (proj2 (Z.leb_le _ _) Htype).
  by rewrite Hshort_out by lia.
Qed.

(** A DNS query in a frame at 4096, its result at 8; the same cut short. *)
Definition demo_bytes : list Z :=
  ipv4_frame (repeat 1 6) (repeat 2 6) (repeat 0 9) 0x11 (repeat 0 2) [10; 0; 0; 1] [10; 0; 0; 2]
    40000 53 (repeat 0 16).
Definition demo_stack (bs : list Z) : stack :=
  MkStack (list_to_map (zip (seqZ 4096 (Z.of_nat (length bs))) bs)) {[8 := zero_result]}.

Lemma demo_framed bs : framed (demo_stack bs) 4096 bs.
Proof.
  split; [done|]. intros i b Hi. unfold demo_stack. cbn [st_bytes].
  assert (i < length bs)%nat by (apply lookup_lt_is_Some; by eexists).
  apply elem_of_list_to_map_1.
  - rewrite fst_zip; [apply NoDup_seqZ|]. rewrite length_seqZ. lia.
  - apply list_elem_of_lookup. exists i. apply lookup_zip_Some. split; [|done].
    rewrite lookup_seqZ. split; lia.
Qed.

Lemma frame_layers_witness : ∃ v r,
  qp_stack_parse 4096 54 1 8 7 (demo_stack demo_bytes) = Ok (v, put (demo_stack demo_bytes) 8 r) ∧
  sound 54 7 v r.
Proof.
  apply frame_layers with demo_bytes; try done.
  - apply demo_framed.
  - by repeat constructor.
  - cbn. lia.
Defined.

Lemma frame_roundtrip_witness :
  qp_stack_parse 4096 (Z.of_nat (length demo_bytes)) 1 8 3 (demo_stack demo_bytes) =
    Ok (QP_SUCCESS, put (demo_stack demo_bytes) 8
      (MkResult 1 0 0x31 14 0x103 34 (34 + 8) (ntohs 40000) (ntohs 53) (4096 + 6) 4096 (4096 + 26) (4096 + 30))).
Proof.
  apply (frame_roundtrip (demo_stack demo_bytes) 4096 1 8 3 (repeat 1 6) (repeat 2 6) (repeat 0 9)
    0x11 (repeat 0 2) [10; 0; 0; 1] [10; 0; 0; 2] 40000 53 (repeat 0 16)); try done.
  - by right.
  - apply demo_framed.
  - by repeat constructor.
Defined.

Lemma frame_short_faults_witness :
  qp_stack_parse 4096 13 DLT_EN10MB 8 1 (demo_stack (take 13 demo_bytes)) = Fault.
Proof.
  apply frame_short_faults with (take 13 demo_bytes); try done.
  - apply demo_framed.
  - intros i Hi. unfold demo_stack. cbn [st_bytes]. apply not_elem_of_list_to_map_1.
    rewrite fst_zip by (rewrite length_seqZ; lia). rewrite elem_of_seqZ. lia.
  - by repeat constructor.
  - left. cbn. lia.
Defined.

(** The header of IPv6 is taken to be as long as that of IPv4: of a frame with nothing but
    the 40 bytes of an IPv6 header, 20 are said to be data. *)
Example ipv6_header :
  match qp_stack_parse 4096 54 1 8 2
    (demo_stack (repeat 1 6 ++ repeat 2 6 ++ be16 0x86dd ++ repeat 0 40)) with
  | Ok (v, s) => Some (v, (λ r, (l3_type r, l3_offset r, data_offset r)) <$> st_results s !! 8)
  | _ => None
  end = Some (QP_SUCCESS, Some (QP_STACK_PROTO_IPV6, 14, 34)).
Proof. by vm_compute. Qed.
